(* ===== verification/_CoqProject ===== *)
-Q . S2P
Prelude.v
BTreeMap.v
ProofTree.v
TreeSpec.v
PicoVM.v
Messages.v
GatewayHandler.v
Task.v
Inputs.v
Provers.v
Worker.v
Channel.v
RustStr.v
Onchain.v
Emulator.v
Gateway.v
Pipeline.v
EmulatorPipeline.v
PipelineInv.v
PipelineLive.v
PipelineProgress.v
PipelineWork.v
Shutdown.v
WorkerLoss.v
Derivation.v
Database.v
Schema.v
AppManager.v
Registration.v
CostEstimation.v
Auth.v
ProvingQueue.v
Grpc.v
Service.v
ServiceLive.v
Concurrent.v
Server.v
Wiring.v
Network.v
Tools.v
Client.v
BlockProver.v
