(* ===== verification/Prelude.v ===== *)
(** * A verification development for the Pico proving service

    The repository is a Rust service that proves executions of RISC-V
    programs.  A client registers an ELF, asks for an estimate of the cost of
    an execution, asks for it to be proved, and fetches the proof later.  The
    proving itself is split over an emulator, a gateway and several workers,
    and ends with an on-chain (Groth16) proof.  This library models the
    service's own code, [src/src/] and the tools of [src/bin/], as executable
    definitions, and proves what makes it correct.

    ** The parts and how they meet

    A proving request goes through the following files; each one opens with a
    comment on what it holds.

    - [Grpc] ([grpc.rs]): the four handlers, on a state [shared] with the
      queue.  [register_app] and the lookups go through [AppManager]
      ([app_manager.rs]) to the [Database] (an interface for the four SQL
      statements and its laws, which [Schema] derives from the tables of
      [migrations/] and the statements as they are written);
      [estimate_cost_handler] calls [CostEstimation] ([cost_estimation.rs],
      [error.rs]); [prove_task_handler] sends a [ProvingTask] ([Task],
      [proving_queue.rs]) to the queue.  [Auth] ([utils/auth.rs],
      [config.rs]) has the interceptors in front of them.
    - [ProvingQueue] ([proving_queue.rs]): the loop, as the step relation
      [queue_step]; [prove_task] is run on a task, its result is put in the
      map of outputs, then in the database: three steps, between which the
      handlers run.  [service_step] of [Grpc] interleaves them with the
      handlers; [Service] has the invariants of those runs, [ServiceLive]
      what becomes of an accepted task.
    - [Registration] and [Concurrent]: the handlers as they run, suspended at
      every access to the database, interleaved, and given up by clients.
      [call_action] is the next action of a call, [conc_step] a step of any
      call or of the queue; the runs are related to those of [service_step],
      from which the invariants and the liveness are carried over.
    - [Server] ([bin/server.rs], [GrpcService::run]): the start of the
      process, and [serve], the path of a call through the interceptor and
      the codec to its handler.  [Wiring] has the structs and the
      constructors: [main] allocates the pool, the map of outputs and the
      channel in a store and hands out their locations, and the methods of
      [GrpcService], [AppManager] and [ProvingQueue] go through the handles of
      their own [self].  [Network] puts the interceptor and the codec in front
      of the calls in flight of [Concurrent].  [Client]
      ([bin/test_client.rs]) closes the loop with the client's interceptor and
      codec.
    - [Pipeline] ([proving/mod.rs]): [sys] is the state of one [prove_task],
      [exec_step] a step of one of its threads (executable, by a [label]),
      [step] a step of any of them, and [prove_task] the relation between a
      task and what the function returns.  [Shutdown] has what follows: the
      joins, and the threads that are left when the channels close.
    - [Emulator] ([proving/emulator.rs]): the set-up, and the two threads
      around a bounded channel as [emu_step].  [EmulatorPipeline] runs them
      inside the task and justifies the field [pending] of [sys], which stands
      for them: the messages the emulator has still to send.  [Derivation]
      describes the proofs that flow through the pipeline: which records and
      which calls of the library each was made from.  [PipelineWork] collects
      the requests the workers of a run take.
    - [Gateway] ([gateway/mod.rs]), [GatewayHandler] ([handler/mod.rs]) and
      [ProofTree] ([handler/proof_tree.rs]): the two arms of the loop
      ([on_emulator], [on_grpc]), the handler's transition [process], and the
      tree of proofs it keeps ([init_node], [set_proof]) on the ordered map of
      [BTreeMap].  [TreeSpec] is the abstract specification of the tree.
    - [Worker] ([worker/prover/mod.rs]) and [Provers] ([riscv_convert.rs],
      [combine.rs], [compress.rs], [embed.rs]): one iteration of a worker's
      loop ([worker_handle]) and the four provers it calls.
    - [Onchain] ([proving/onchain.rs]): the last phase, down to the characters
      of gnark's answer ([RustStr] has the [str] functions it uses).
    - [Messages] and [Channel]: the messages of [proving/messages/], and what
      a first-in first-out channel promises (a class; lists are an instance).
    - [Inputs] ([gen_input_example.rs], [normalize_reth_inputs.rs]): the file
      system, computations on it ([io]), and the two tools that only make
      input files.  [Tools]: what the other command-line tools of [src/bin/]
      compute, send and dump.  [BlockProver] runs the block prover against
      the handlers of the service.

    ** How the code is represented

    A computation that can panic is an [outcome]: [Ret], or [Panic] with the
    message of the failing assertion or [unwrap] ([SourcePanic]) or of the
    library that unwound ([ForeignPanic]).  [Result] is [result], and [?] is
    the notation [x ←? m; k].  A [usize] is a [Z] with its additions checked
    at 64 bits ([usize_add]); whether an overflow panics or wraps is the class
    [RustBuild], so every theorem holds of both profiles unless it says
    otherwise.  Bytes are lists of [Z]; an immutable [Arc] is its content, and the shared ones of the server are
    locations in [Wiring], the fields of [shared] elsewhere.

    Code outside [src/] is a class, whose fields are what the source calls:
    [PicoVM] (the [pico_vm] crate), [GnarkEnv], [AlloyU256], [AppEnv],
    [Bincode], [CostEnv], [Tonic], [Codec], [ClientCodec], [Database], [Chan],
    [FileSystem], [Files], [ClientInputs], [StdinWriter], [RethNode],
    [RethEnv], [HostEnv].
    Nothing is assumed of the fields but what a class ending in [Spec], [Live]
    or [Laws] says, and a theorem takes such a class only when it needs it.
    Each has a concrete instance (the prover of [symbolic_pico] represents a
    proof by the list of its chunks), on which the witnesses are evaluated.

    ** What the theorems show

    The tree: a successful operation keeps the nodes tiling the chunks
    announced so far, pairs handed out are adjacent, any order of answers ends
    in one proof after [n - 1] combines, and the tree refines [TreeSpec].

    The pipeline, for every schedule, number of workers and prover: an
    invariant ([PipelineInv]: [sys_inv], [move]), from which no guard of the
    code ever fires, the tickets of the tree are accounted for, and an [Ok]
    of [prove_task] is backed by an embed proof verified against the task's
    key; a measure that bounds every run ([PipelineLive]); and delivery
    ([PipelineProgress]) for a prover that obeys [PicoLaws], along the
    schedules in which no combine is flagged complete too early.  That the
    restriction is needed is [premature_final_combine]; that a one-chunk task
    never completes is [one_chunk_never_returns].  No thread outlives its task
    for ever, but with several workers the join always waits for its timeout,
    whatever the prover: when it is called no worker has died, and at most one
    has left its loop ([Shutdown]); and a worker that dies takes the task with it
    ([WorkerLoss]).  What is delivered was computed from the records of the
    task, in order ([Derivation]); on the way no chunk is converted twice, and
    the combines are the merges of the tree ([PipelineWork]).

    The service: the provenance of a returned proof, the permanence of a
    stored one (nothing but a newer proof of the same key replaces it), the
    typing of the database, the ways in which the queue stops, and the
    liveness of the queue: an accepted task is proved after three queue steps
    for it and for each task before it, which the queue can always make.  The handlers in flight are linearizable, and provenance and
    liveness hold of every interleaving.  The process that [main] wires out of
    handles has exactly the runs of the server, which refines the service, does
    nothing for a client without its token, and lets a proof out only for an
    application and a task that calls with the token asked for; a call of a
    client with the token is its handler.  The applications: round trips, the
    refusal of duplicates, and concurrent registrations that behave as if each
    were one step.  The database: the migrations and the statements do what
    the service relies on.  The on-chain decoding: round trip and every
    outcome.  The estimation: totality and widths.  The tools: what is sent
    and in what order; the values in the files of the generators (a
    [Vec<i32>] in the one named after bytes) and that the files agree with
    each other; and every block the block prover selects becomes a task of the
    service, with or without the estimates.

    ** Bounds and fuel

    The only fuel is that of [emulate], one unit per batch, the reference the
    emulator's threads are compared with: a theorem takes the fuel with which
    [emulate] returns (a task whose emulation never ends has none, and its
    [prove_task] does not return), and more fuel gives the same result
    ([emulate_more]).  [chunk_count recs ≤ usize_max] says that the chunks can
    be counted, and [2 ≤ COMBINE_SIZE] is the constant of the library the
    combine prover asserts.

    ** What is not modelled

    Logging and timing (the [bincode] size logged for a proof and the lengths
    of the timeouts included); the parsing of options and of the environment;
    the transport of tonic beyond its codec, with the CORS, gRPC-web and
    compression layers; SQLite beyond the fragment of SQL the repository uses
    (each statement is one atomic step); the sleep of the docker monitor;
    memory exhaustion; the threads of a process that exits; links and
    different spellings of one path in the file system.  The files
    [Client] and [BlockProver] call the handlers one at a time, through
    [serve], as the tools they model do; so does [Wiring], whose methods are
    one step each (their accesses to the database are separate steps in
    [Concurrent]).  The [Cli] structs are records, their defaults are not.
    A panic of a handler takes its request down and leaves the state as it was
    ([EvPanic]); every panic of a handler precedes its effect.  The type
    aliases of [types.rs] and [build.rs] hold no executable logic.

    ** Order

    The library was built from the core outwards: the tree, the handler, the
    workers, the pipeline and its invariants, then the queue, the service, the
    server and the tools; the files are listed in that order. *)

From stdpp Require Export base tactics list gmap strings pretty relations.
From Stdlib Require Export ZArith Lia.

#[export] Set Default Goal Selector "!".
#[global] Open Scope Z_scope.

(** ** Panics and fallible calls

    A Rust computation either returns or unwinds.  A panic raised by a
    statement of [src/] is a [SourcePanic] with the message the code gives it
    (or the name of the failing [unwrap]); a panic raised inside a crate the
    code only calls is a [ForeignPanic]. *)
Inductive panic : Type :=
  | SourcePanic (msg : string)
  | ForeignPanic (msg : string).

#[export] Instance panic_eq_dec : EqDecision panic.
Proof. solve_decision. Defined.

Inductive outcome (A : Type) : Type :=
  | Ret (a : A)
  | Panic (p : panic).
Arguments Ret {A} a.
Arguments Panic {A} p.

#[export] Instance outcome_ret : MRet outcome := λ A a, Ret a.
#[export] Instance outcome_bind : MBind outcome := λ A B f m,
  match m with
  | Ret a => f a
  | Panic p => Panic p
  end.

Definition panic_with {A} (msg : string) : outcome A := Panic (SourcePanic msg).

(** [assert!(b, msg)] *)
Definition rust_assert (b : bool) (msg : string) : outcome unit :=
  if b then Ret tt else panic_with msg.

(** [Option::unwrap] / [Option::expect] *)
Definition unwrap_option {A} (msg : string) (o : option A) : outcome A :=
  match o with
  | Some a => Ret a
  | None => panic_with msg
  end.

(** The result of a call into a crate outside [src/]: a value, or the message
    of the panic it raised. *)
Definition foreign (A : Type) : Type := A + string.

Definition call_foreign {A} (x : foreign A) : outcome A :=
  match x with
  | inl a => Ret a
  | inr msg => Panic (ForeignPanic msg)
  end.

(** [Result<A, E>] *)
Inductive result (A E : Type) : Type :=
  | Ok (a : A)
  | Err (e : E).
Arguments Ok {A E} a.
Arguments Err {A E} e.

Definition is_ok {A E} (r : result A E) : bool :=
  match r with Ok _ => true | Err _ => false end.

Definition map_ok {A B E} (f : A → B) (r : result A E) : result B E :=
  match r with Ok a => Ok (f a) | Err e => Err e end.

Definition map_err {A E F} (f : E → F) (r : result A E) : result A F :=
  match r with Ok a => Ok a | Err e => Err (f e) end.

Definition unwrap_result {A E} (msg : string) (r : result A E) : outcome A :=
  match r with Ok a => Ret a | Err _ => panic_with msg end.

(** The [?] operator: continue on [Ok], return the error from the enclosing
    function otherwise. *)
Definition try_bind {A B E} (m : outcome (result A E))
    (k : A → outcome (result B E)) : outcome (result B E) :=
  r ← m;
  match r with
  | Ok a => k a
  | Err e => Ret (Err e)
  end.

Declare Scope rust_scope.
Delimit Scope rust_scope with rust.
Notation "x ←? m ; k" := (try_bind m (λ x, k))
  (at level 20, m at level 100, k at level 200, right associativity) : rust_scope.
#[global] Open Scope rust_scope.

Lemma bind_ret_inv {A B} (m : outcome A) (f : A → outcome B) b :
  m ≫= f = Ret b → ∃ a, m = Ret a ∧ f a = Ret b.
Proof. destruct m as [a|p]; intros H; [by exists a | done]. Qed.

Lemma bind_Ret {A B} (a : A) (f : A → outcome B) : Ret a ≫= f = f a.
Proof. done. Qed.

Lemma rust_assert_true {B} b msg (f : unit → outcome B) :
  b = true → rust_assert b msg ≫= f = f tt.
Proof. by intros ->. Qed.

Lemma rust_assert_false {B} b msg (f : unit → outcome B) :
  b = false → rust_assert b msg ≫= f = panic_with msg.
Proof. by intros ->. Qed.

Lemma bind_assoc_outcome {A B C} (m : outcome A) (f : A → outcome B) (g : B → outcome C) :
  (m ≫= f) ≫= g = m ≫= (λ a, f a ≫= g).
Proof. by destruct m. Qed.

(** A monadic computation panics where one of its parts does. *)
Lemma bind_panic_inv {A B} (m : outcome A) (f : A → outcome B) p :
  m ≫= f = Panic p → m = Panic p ∨ ∃ a, m = Ret a ∧ f a = Panic p.
Proof.
  destruct m as [a|p']; simpl; intros E; [right; by exists a|left; by injection E as ->].
Qed.

(** A panic of a library call, or of the [unwrap] of the error one returned:
    not of a guard of the source. *)
Definition library_panic (p : panic) : Prop :=
  ∀ m, p = SourcePanic m → m = "called `Result::unwrap()` on an `Err` value".

Lemma call_foreign_panic {A} (x : foreign A) p : call_foreign x = Panic p → library_panic p.
Proof. destruct x; simpl; intros E; [done|]. injection E as <-. by intros m. Qed.

Lemma call_foreign_Ret {A} (x : foreign A) a : call_foreign x = Ret a → x = inl a.
Proof. destruct x; simpl; by intros [= ->]. Qed.

Lemma unwrap_result_panic {A E} (r : result A E) p :
  unwrap_result "called `Result::unwrap()` on an `Err` value" r = Panic p → library_panic p.
Proof. destruct r; simpl; intros H; [done|]. injection H as <-. intros m Hm. by injection Hm. Qed.

(** ** Machine integers *)

Definition usize_max : Z := 2 ^ 64 - 1.
Definition u32_max : Z := 2 ^ 32 - 1.
Definition in_usize (x : Z) : Prop := 0 ≤ x ≤ usize_max.

(** Whether the binary is compiled with overflow checks ([debug] profile) or
    wraps around ([release] profile, the one the README runs). *)
Class RustBuild : Type := { overflow_checks : bool }.

Definition release_build : RustBuild := {| overflow_checks := false |}.

Definition checked_width `{RustBuild} (w : Z) (x : Z) (msg : string) : outcome Z :=
  if decide (0 ≤ x < 2 ^ w) then Ret x
  else if overflow_checks then panic_with msg
  else Ret (x mod 2 ^ w).

Definition usize_add `{RustBuild} (x y : Z) : outcome Z :=
  checked_width 64 (x + y) "attempt to add with overflow".

Definition u32_mul `{RustBuild} (x y : Z) : outcome Z :=
  checked_width 32 (x * y) "attempt to multiply with overflow".

(** [x as u32] *)
Definition as_u32 (x : Z) : Z := x mod 2 ^ 32.

Lemma checked_width_exact `{RustBuild} w x msg :
  0 ≤ x < 2 ^ w → checked_width w x msg = Ret x.
Proof. intros Hx. unfold checked_width. by rewrite decide_True. Qed.

Lemma usize_add_exact `{RustBuild} x y :
  0 ≤ x → 0 ≤ y → x + y ≤ usize_max → usize_add x y = Ret (x + y).
Proof. intros. apply checked_width_exact. unfold usize_max in *. lia. Qed.

Lemma as_u32_exact x : 0 ≤ x ≤ u32_max → as_u32 x = x.
Proof. intros. apply Z.mod_small. unfold u32_max in *. lia. Qed.

(** [chunk_index.to_string()] *)
Definition usize_to_string (x : Z) : string := pretty x.

(** ** Bytes *)

Abbreviation bytes := (list Z).

(** Big-endian bytes of the [n] low-order bytes of [x]. *)
Fixpoint be_bytes (n : nat) (x : Z) : bytes :=
  match n with
  | O => []
  | S n' => be_bytes n' (x / 256) ++ [x mod 256]
  end.

(** The value of a big-endian byte string. *)
Definition be_value (bs : bytes) : Z := foldl (λ acc b, acc * 256 + b) 0 bs.

Lemma be_bytes_length n x : length (be_bytes n x) = n.
Proof.
  revert x; induction n as [|n IH]; intros x; simpl; [done|].
  rewrite length_app, IH; simpl; lia.
Qed.

Lemma be_value_snoc bs b : be_value (bs ++ [b]) = be_value bs * 256 + b.
Proof. unfold be_value. by rewrite foldl_app. Qed.

Lemma be_value_bytes n x : 0 ≤ x < 256 ^ Z.of_nat n → be_value (be_bytes n x) = x.
Proof.
  revert x; induction n as [|n IH]; intros x Hx.
  - change (256 ^ Z.of_nat 0) with 1 in Hx. assert (x = 0) as -> by lia. done.
  - simpl be_bytes. rewrite be_value_snoc, IH.
    + pose proof (Z.div_mod x 256). lia.
    + rewrite Nat2Z.inj_succ, Z.pow_succ_r in Hx by lia.
      split; [apply Z.div_pos; lia|]. apply Z.div_lt_upper_bound; lia.
Qed.

Lemma be_bytes_inj n x y :
  0 ≤ x < 256 ^ Z.of_nat n → 0 ≤ y < 256 ^ Z.of_nat n →
  be_bytes n x = be_bytes n y → x = y.
Proof.
  intros Hx Hy E. rewrite <- (be_value_bytes n x), <- (be_value_bytes n y) by done.
  by rewrite E.
Qed.

(** ** Automation *)

Create HintDb rust.
Create Rewrite HintDb rust_rw.
Create Rewrite HintDb occ_rw.
#[export] Hint Resolve usize_add_exact as_u32_exact checked_width_exact : rust.

(** Invert a monadic equation [m ≫= f = Ret b] down to its calls. *)
Ltac bind_inv H :=
  let a := fresh "a" in let E := fresh "E" in
  apply bind_ret_inv in H; destruct H as (a & E & H).

(** Show that every panic of a pipeline of library calls is a library panic. *)
Ltac solve_library_panic :=
  repeat (simpl; match goal with
  | H : Ret _ = Panic _ |- _ => done
  | H : call_foreign _ = Panic _ |- _ => by apply call_foreign_panic in H
  | H : unwrap_result _ _ = Panic _ |- _ => by apply unwrap_result_panic in H
  | H : (if ?b then _ else _) = Panic _ |- _ => destruct b
  | H : (let '(_, _) := ?x in _) = Panic _ |- _ => destruct x
  | H : _ ≫= _ = Panic _ |- _ =>
      apply bind_panic_inv in H; destruct H as [H|(? & ? & H)]
  end).

(** Split every [match] in the goal or the hypothesis [H], discharging the
    impossible branches. *)
Ltac case_all :=
  repeat (case_match; simplify_eq/=; try done).

(** ** Generic list lemmas *)

Lemma last_cons_ne {A} (x : A) l : l ≠ [] → last (x :: l) = last l.
Proof. by destruct l. Qed.

Lemma last_Some_snoc {A} (l : list A) x : last l = Some x → ∃ l', l = l' ++ [x].
Proof. apply last_Some. Qed.

(** ** Reachability *)

(** An invariant of every step holds in every reachable state. *)
Lemma rtc_invariant {A} (R : relation A) (I : A → Prop) x y :
  (∀ a b, I a → R a b → I b) → I x → rtc R x y → I y.
Proof. intros Hstep Hx H. induction H; eauto. Qed.

(** ** Permutations by counting

    [solve_perm] proves [l ≡ₚ l'] from permutations in the context by
    counting the occurrences of each element. *)
Section Occurrences.
Context {A : Type} `{EqDecision A}.

Definition occ1 (x a : A) : nat := if decide (a = x) then 1%nat else 0%nat.

Definition occ (x : A) (l : list A) : nat := count_occ (λ a b, decide (a = b)) l x.

Lemma occ_nil x : occ x [] = 0%nat.
Proof. done. Qed.

Lemma occ_cons x a l : occ x (a :: l) = (occ1 x a + occ x l)%nat.
Proof. unfold occ, occ1. simpl. by case_decide. Qed.

Lemma occ_app x l l' : occ x (l ++ l') = (occ x l + occ x l')%nat.
Proof. apply count_occ_app. Qed.

Lemma perm_occ l l' : l ≡ₚ l' ↔ ∀ x, occ x l = occ x l'.
Proof. apply (Permutation_count_occ (λ a b : A, decide (a = b))). Qed.
End Occurrences.

#[export] Hint Rewrite @occ_nil @occ_cons @occ_app : occ_rw.

Ltac solve_perm :=
  apply perm_occ; let x := fresh "x" in intros x;
  repeat match goal with
    | Hp : _ ≡ₚ _ |- _ => pose proof (proj1 (perm_occ _ _) Hp x); clear Hp
  end;
  autorewrite with occ_rw in *; lia.

(** Two lists with a common part. *)
Lemma list_insert_split {A} (l : list A) i x y :
  l !! i = Some x → ∃ l1 l2, l = l1 ++ x :: l2 ∧ <[i := y]> l = l1 ++ y :: l2.
Proof.
  intros Hi. pose proof (lookup_lt_Some _ _ _ Hi) as Hlt.
  exists (take i l), (drop (S i) l). split; [by rewrite take_drop_middle|].
  rewrite insert_take_drop by done. done.
Qed.
