(* ===== verification/BTreeMap.v ===== *)
(** * [std::collections::BTreeMap<usize, V>]

    The ordered map the proof tree is stored in, as a list of entries in
    strictly increasing key order, with the operations
    [proof_tree.rs] uses: [insert], [remove], [get_mut], [len],
    [range(..k).next_back()] and [range((Excluded(k), Unbounded)).next()]. *)

From S2P Require Import Prelude.

Section BTreeMap.
Context {V : Type}.

Definition btree : Type := list (Z * V).

Implicit Types (m l r : list (Z * V)).

(** [BTreeMap::insert]: the previous value, and the new map. *)
Fixpoint bt_insert (k : Z) (v : V) m : option V * btree :=
  match m with
  | [] => (None, [(k, v)])
  | (k', v') :: m' =>
      if decide (k < k') then (None, (k, v) :: m)
      else if decide (k = k') then (Some v', (k, v) :: m')
      else let '(old, m'') := bt_insert k v m' in (old, (k', v') :: m'')
  end.

(** [BTreeMap::remove] (the removed value is dropped by the callers) *)
Definition bt_remove (k : Z) m : btree := filter (λ e, e.1 ≠ k) m.

(** [BTreeMap::get] *)
Fixpoint bt_get (k : Z) m : option V :=
  match m with
  | [] => None
  | (k', v') :: m' => if decide (k = k') then Some v' else bt_get k m'
  end.

(** Writing through [BTreeMap::get_mut]: [None] when the key is absent. *)
Fixpoint bt_set (k : Z) (v : V) m : option btree :=
  match m with
  | [] => None
  | (k', v') :: m' =>
      if decide (k = k') then Some ((k, v) :: m')
      else m'' ← bt_set k v m'; Some ((k', v') :: m'')
  end.

(** [range(..k).next_back()] *)
Definition bt_range_to_next_back (k : Z) m : option (Z * V) :=
  last (filter (λ e, e.1 < k) m).

(** [range((Bound::Excluded(k), Bound::Unbounded)).next()] *)
Definition bt_range_after_next (k : Z) m : option (Z * V) :=
  head (filter (λ e, k < e.1) m).

Definition bt_len m : Z := Z.of_nat (length m).

(** Well-formedness: keys strictly increase, starting above [lo]. *)
Fixpoint bt_sorted_from (lo : Z) m : Prop :=
  match m with
  | [] => True
  | (k, _) :: m' => lo < k ∧ bt_sorted_from k m'
  end.

Definition bt_sorted m : Prop :=
  match m with
  | [] => True
  | (k, _) :: m' => bt_sorted_from k m'
  end.

Definition keys_below (k : Z) m : Prop := Forall (λ e, e.1 < k) m.
Definition keys_above (k : Z) m : Prop := Forall (λ e, k < e.1) m.

Lemma bt_sorted_from_above lo m : bt_sorted_from lo m → keys_above lo m.
Proof.
  revert lo; induction m as [|[k v] m IH]; intros lo; simpl; [by constructor|].
  intros [Hlo Hm]. constructor; [done|].
  eapply Forall_impl; [by apply IH|]; simpl; lia.
Qed.

Lemma bt_sorted_from_weaken lo lo' m : lo' ≤ lo → bt_sorted_from lo m → bt_sorted_from lo' m.
Proof. destruct m as [|[k v] m]; simpl; [done|]. intros ? [? ?]; split; [lia|done]. Qed.

Lemma bt_sorted_from_sorted lo m : bt_sorted_from lo m → bt_sorted m.
Proof. destruct m as [|[k v] m]; simpl; tauto. Qed.

Lemma bt_sorted_from_app lo l k v r :
  bt_sorted_from lo (l ++ (k, v) :: r) ↔
  bt_sorted_from lo l ∧ keys_below k l ∧ lo < k ∧ bt_sorted_from k r.
Proof.
  revert lo; induction l as [|[k' v'] l IH]; intros lo; simpl.
  - split; [|tauto]. intros [? ?]; repeat split; auto. constructor.
  - rewrite IH. unfold keys_below. rewrite Forall_cons. simpl. split.
    + intros (? & ? & ? & ? & ?). repeat split; auto; lia.
    + intros ((? & ?) & (? & ?) & ? & ?). tauto.
Qed.

(** A sorted map splits around any of its keys. *)
Lemma bt_sorted_split l k v r :
  bt_sorted (l ++ (k, v) :: r) → keys_below k l ∧ keys_above k r.
Proof.
  destruct l as [|[k' v'] l]; simpl; intros H.
  - split; [constructor|by apply bt_sorted_from_above].
  - apply bt_sorted_from_app in H as (? & ? & ? & ?). split; [by constructor|].
    by apply bt_sorted_from_above.
Qed.

Lemma keys_below_ne k l : keys_below k l → Forall (λ e, e.1 ≠ k) l.
Proof. intros H. eapply Forall_impl; [done|]; simpl; lia. Qed.

Lemma keys_above_ne k l : keys_above k l → Forall (λ e, e.1 ≠ k) l.
Proof. intros H. eapply Forall_impl; [done|]; simpl; lia. Qed.

Lemma filter_all {P : Z * V → Prop} `{∀ x, Decision (P x)} m :
  Forall P m → filter P m = m.
Proof.
  induction 1 as [|x m Hx Hm IH]; [done|]. by rewrite filter_cons_True, IH.
Qed.

Lemma filter_none {P : Z * V → Prop} `{∀ x, Decision (P x)} m :
  Forall (λ x, ¬ P x) m → filter P m = [].
Proof.
  induction 1 as [|x m Hx Hm IH]; [done|]. by rewrite filter_cons_False, IH.
Qed.

(** The neighbours of the middle key are the last entry of the left part
    and the first entry of the right part. *)
Lemma bt_range_to_split k v l r :
  keys_below k l → keys_above k r →
  bt_range_to_next_back k (l ++ (k, v) :: r) = last l.
Proof.
  intros Hl Hr. unfold bt_range_to_next_back.
  rewrite filter_app, filter_all by done.
  rewrite filter_cons_False by (simpl; lia).
  rewrite filter_none, app_nil_r; [done|].
  eapply Forall_impl; [done|]; simpl; lia.
Qed.

Lemma bt_range_after_split k v l r :
  keys_below k l → keys_above k r →
  bt_range_after_next k (l ++ (k, v) :: r) = head r.
Proof.
  intros Hl Hr. unfold bt_range_after_next.
  rewrite filter_app, filter_none; last first.
  { eapply Forall_impl; [done|]; simpl; lia. }
  rewrite filter_cons_False by (simpl; lia). simpl. by rewrite filter_all.
Qed.

Lemma bt_remove_split k v l r :
  Forall (λ e, e.1 ≠ k) l → Forall (λ e, e.1 ≠ k) r →
  bt_remove k (l ++ (k, v) :: r) = l ++ r.
Proof.
  intros Hl Hr. unfold bt_remove. rewrite filter_app, filter_all by done.
  rewrite filter_cons_False by (simpl; tauto). by rewrite filter_all.
Qed.

Lemma bt_remove_Forall (Q : Z * V → Prop) k m : Forall Q m → Forall Q (bt_remove k m).
Proof.
  intros H. apply Forall_forall. intros x [_ Hx]%list_elem_of_filter.
  by eapply Forall_forall in H.
Qed.

Lemma bt_set_split k v v' l r :
  Forall (λ e, e.1 ≠ k) l → bt_set k v' (l ++ (k, v) :: r) = Some (l ++ (k, v') :: r).
Proof.
  induction 1 as [|[k0 v0] l Hk Hl IH]; simpl.
  - by rewrite decide_True.
  - rewrite decide_False by (simpl in *; congruence). by rewrite IH.
Qed.

Lemma bt_get_split k v l r :
  Forall (λ e, e.1 ≠ k) l → bt_get k (l ++ (k, v) :: r) = Some v.
Proof.
  induction 1 as [|[k0 v0] l Hk Hl IH]; simpl.
  - by rewrite decide_True.
  - by rewrite decide_False by (simpl in *; congruence).
Qed.

Lemma bt_get_Some k v m : bt_get k m = Some v → ∃ l r, m = l ++ (k, v) :: r.
Proof.
  induction m as [|[k0 v0] m IH]; simpl; [done|].
  case_decide; intros ?; simplify_eq.
  - by exists [], m.
  - destruct IH as (l & r & ->); [done|]. by exists ((k0, v0) :: l), r.
Qed.

Lemma bt_get_None k m : bt_get k m = None ↔ Forall (λ e, e.1 ≠ k) m.
Proof.
  induction m as [|[k0 v0] m IH]; simpl; [by split; constructor|].
  rewrite Forall_cons. case_decide; simpl; subst.
  - split; [done|]. by intros [? ?].
  - rewrite IH. split; [by split; congruence|by intros [_ ?]].
Qed.

Lemma bt_set_None k v m : bt_set k v m = None ↔ bt_get k m = None.
Proof.
  induction m as [|[k0 v0] m IH]; simpl; [done|].
  case_decide; [by split|]. rewrite <- IH. by destruct (bt_set k v m).
Qed.

(** Inserting above every key appends. *)
Lemma bt_insert_last k v m : keys_below k m → bt_insert k v m = (None, m ++ [(k, v)]).
Proof.
  induction 1 as [|[k0 v0] m Hk Hm IH]; simpl in *; [done|].
  rewrite decide_False by lia. rewrite decide_False by lia. by rewrite IH.
Qed.

Lemma bt_insert_old_from lo k v m :
  bt_sorted_from lo m → (bt_insert k v m).1 = bt_get k m.
Proof.
  revert lo; induction m as [|[k0 v0] m IH]; intros lo; simpl; [done|].
  intros [Hlo Hm]. specialize (IH k0 Hm).
  destruct (decide (k < k0)), (decide (k = k0)); simpl; try lia; try done.
  - symmetry. apply bt_get_None, keys_above_ne, bt_sorted_from_above.
    eapply bt_sorted_from_weaken; [|done]. lia.
  - by destruct (bt_insert k v m).
Qed.

Lemma bt_insert_old k v m : bt_sorted m → (bt_insert k v m).1 = bt_get k m.
Proof.
  destruct m as [|[k0 v0] m]; [done|]. intros Hm.
  apply (bt_insert_old_from (k0 - 1)). simpl. split; [lia|done].
Qed.
End BTreeMap.

Arguments btree V : clear implicits.
