(* ===== verification/ProofTree.v ===== *)
(** * The proof tree of the gateway ([src/src/proving/gateway/handler/proof_tree.rs])

    The data ([IndexedProof], [ProofNode], [ProofTree]) and the operations
    ([init_node], [set_proof], [len], the [Display] renderings), then the
    tiling invariant of the tree and what each operation does to it. *)

From S2P Require Import Prelude BTreeMap.

(** ** Data and operations *)

(** [ProofIndex = usize] is a [Z]; the [Arc<P>] of an immutable proof is the
    proof itself, so cloning an [IndexedProof] copies it. *)
Record IndexedProof (P : Type) : Type := mkIndexedProof {
  inner : P;
  start_chunk : Z;
  end_chunk : Z;
}.
Arguments mkIndexedProof {P} inner start_chunk end_chunk.
Arguments inner {P} _.
Arguments start_chunk {P} _.
Arguments end_chunk {P} _.

Inductive ProofNode (P : Type) : Type :=
  | InProgress (proofs : list (IndexedProof P))
  | Proved (proof : IndexedProof P).
Arguments InProgress {P} proofs.
Arguments Proved {P} proof.

Record ProofTree (P : Type) : Type := mkProofTree { tree : btree (ProofNode P) }.
Arguments mkProofTree {P} tree.
Arguments tree {P} _.

Section Operations.
Context {P : Type}.

Definition IndexedProof_clone (self : IndexedProof P) : IndexedProof P :=
  mkIndexedProof (inner self) (start_chunk self) (end_chunk self).

Definition IndexedProof_new (proof : P) (start_chunk end_chunk : Z) : IndexedProof P :=
  mkIndexedProof proof start_chunk end_chunk.

Definition get_inner (self : IndexedProof P) : P := inner self.

Definition ProofNode_fmt (self : ProofNode P) : string :=
  match self with
  | InProgress _ => "in-progress"
  | Proved _ => "proved"
  end.

Definition ProofNode_init : ProofNode P := InProgress [].

Definition is_in_progress (self : ProofNode P) : bool :=
  match self with InProgress _ => true | _ => false end.

Definition is_proved (self : ProofNode P) : bool :=
  match self with Proved _ => true | _ => false end.

Definition ProofNode_proof (self : ProofNode P) : option (IndexedProof P) :=
  match self with
  | InProgress _ => None
  | Proved proof => Some (IndexedProof_clone proof)
  end.

Definition newline : string := String (Ascii.ascii_of_nat 10) EmptyString.
Definition tab : string := String (Ascii.ascii_of_nat 9) EmptyString.

Definition ProofTree_fmt (self : ProofTree P) : string :=
  ("=== Start of ProofTree ===" +:+ newline) +:+
  foldr (λ e acc, tab +:+ usize_to_string e.1 +:+ ": " +:+ ProofNode_fmt e.2 +:+ newline +:+ acc)
    "" (tree self) +:+
  ("=== End of ProofTree ===" +:+ newline).

Definition ProofTree_default : ProofTree P := mkProofTree [].

Definition ProofTree_len (self : ProofTree P) : Z := bt_len (tree self).

Definition init_node (self : ProofTree P) (index : Z) : outcome (ProofTree P) :=
  let node := ProofNode_init in
  let '(old, tree') := bt_insert index node (tree self) in
  _ ← rust_assert (negb (bool_decide (is_Some old)))
        "proof node must be initialized once in tree";
  Ret (mkProofTree tree').

Definition set_proof (self : ProofTree P) (index : Z) (proof : IndexedProof P) :
    outcome (ProofTree P * option (list (IndexedProof P))) :=
  let current_proof := IndexedProof_clone proof in
  (* try to get the previous node if proved *)
  let index_proofs :=
    match bt_range_to_next_back index (tree self) with
    | Some (prev_index, Proved prev_proof) =>
        Some (prev_index, [IndexedProof_clone prev_proof; IndexedProof_clone current_proof])
    | _ => None
    end in
  (* try to get the next node if proved *)
  let index_proofs :=
    match index_proofs with
    | None =>
        match bt_range_after_next index (tree self) with
        | Some (next_index, Proved next_proof) =>
            Some (next_index, [IndexedProof_clone current_proof; IndexedProof_clone next_proof])
        | _ => None
        end
    | Some ip => Some ip
    end in
  (* save the proved node or in-progress combine node *)
  let '(tree', node_to_set, proofs_to_combine) :=
    match index_proofs with
    | Some (sibling_index, proofs_to_combine) =>
        (bt_remove sibling_index (tree self), InProgress proofs_to_combine,
         Some proofs_to_combine)
    | None => (tree self, Proved current_proof, None)
    end in
  tree'' ← unwrap_option "called `Option::unwrap()` on a `None` value"
             (bt_set index node_to_set tree');
  Ret (mkProofTree tree'', proofs_to_combine).
End Operations.

Arguments ProofTree_default {P}.

(** ** The tiling invariant *)

(** A ticket [(k, lo, hi)] names the work in progress at index [k], whose
    result will cover the chunks [lo .. hi - 1]. *)
Abbreviation ticket := (Z * Z * Z)%type.

Section Invariant.
Context {P : Type}.
Implicit Types (t : ProofTree P) (n : ProofNode P) (l r m : btree (ProofNode P)).

(** The chunks a node stands for, as a half-open interval: the range of the
    proof, the chunk itself before conversion, or the union of the two
    ranges being combined (which must be adjacent). *)
Definition node_span (k : Z) n : option (Z * Z) :=
  match n with
  | Proved p => Some (start_chunk p, end_chunk p + 1)
  | InProgress [] => Some (k, k + 1)
  | InProgress [a; b] =>
      if decide (end_chunk a + 1 = start_chunk b)
      then Some (start_chunk a, end_chunk b + 1) else None
  | InProgress _ => None
  end.

(** The nodes, in key order, tile [lo .. hi - 1] without gap or overlap, and
    each key lies in the range of its node. *)
Fixpoint tiles (lo : Z) m (hi : Z) : Prop :=
  match m with
  | [] => lo = hi
  | (k, n) :: m' => ∃ e, node_span k n = Some (lo, e) ∧ lo ≤ k < e ∧ tiles e m' hi
  end.

(** No two neighbours are both proved: they would have been combined. *)
Fixpoint no_adjacent_proved m : Prop :=
  match m with
  | [] => True
  | (_, n) :: m' =>
      no_adjacent_proved m' ∧
      match m' with
      | [] => True
      | (_, n') :: _ => is_proved n && is_proved n' = false
      end
  end.

(** The tickets of the in-progress nodes. *)
Definition node_ticket (e : Z * ProofNode P) : list ticket :=
  match e.2 with
  | Proved _ => []
  | InProgress _ =>
      match node_span e.1 e.2 with
      | Some (lo, hi) => [(e.1, lo, hi)]
      | None => []
      end
  end.

Definition tickets m : list ticket := m ≫= node_ticket.

Record tree_wf (t : ProofTree P) (hi : Z) : Prop := {
  wf_tiles : tiles 0 (tree t) hi;
  wf_alternate : no_adjacent_proved (tree t);
}.

Lemma IndexedProof_clone_id (p : IndexedProof P) : IndexedProof_clone p = p.
Proof. by destruct p. Qed.

Lemma tiles_app lo l r hi :
  tiles lo (l ++ r) hi ↔ ∃ mid, tiles lo l mid ∧ tiles mid r hi.
Proof.
  revert lo; induction l as [|[k n] l IH]; intros lo; simpl.
  - split; [by exists lo|]. by intros (? & -> & ?).
  - setoid_rewrite IH. split.
    + intros (e & Hs & Hk & mid & Hl & Hr). exists mid. split; [|done]. by exists e.
    + intros (mid & (e & Hs & Hk & Hl) & Hr). exists e. split; [done|]. split; [done|]. by exists mid.
Qed.

Lemma tiles_le lo m hi : tiles lo m hi → lo ≤ hi.
Proof.
  revert lo; induction m as [|[k n] m IH]; intros lo; simpl; [lia|].
  intros (e & _ & Hk & Hm%IH). lia.
Qed.

Lemma tiles_keys lo m hi : tiles lo m hi → Forall (λ e, lo ≤ e.1 < hi) m.
Proof.
  revert lo; induction m as [|[k n] m IH]; intros lo; simpl; [by constructor|].
  intros (e & _ & Hk & Hm). pose proof (tiles_le _ _ _ Hm).
  constructor; simpl; [lia|]. eapply Forall_impl; [by apply IH|]. simpl; lia.
Qed.

Lemma tiles_below lo m hi : tiles lo m hi → keys_below hi m.
Proof. intros H%tiles_keys. eapply Forall_impl; [done|]; simpl; lia. Qed.

Lemma tiles_sorted_from lo m hi : tiles lo m hi → bt_sorted_from (lo - 1) m.
Proof.
  revert lo; induction m as [|[k n] m IH]; intros lo; simpl; [done|].
  intros (e & _ & Hk & Hm). split; [lia|].
  eapply bt_sorted_from_weaken; [|by apply IH]. lia.
Qed.

Lemma tiles_sorted lo m hi : tiles lo m hi → bt_sorted m.
Proof. intros H. eapply bt_sorted_from_sorted, tiles_sorted_from, H. Qed.

Lemma tickets_app l r : tickets (l ++ r) = tickets l ++ tickets r.
Proof. apply bind_app. Qed.

Lemma tickets_cons e m : tickets (e :: m) = node_ticket e ++ tickets m.
Proof. done. Qed.

Lemma no_adjacent_app l r :
  no_adjacent_proved (l ++ r) ↔
  no_adjacent_proved l ∧ no_adjacent_proved r ∧
  match last l, head r with
  | Some (_, n), Some (_, n') => is_proved n && is_proved n' = false
  | _, _ => True
  end.
Proof.
  induction l as [|[k n] l IH]; simpl.
  - destruct r as [|[]]; simpl; tauto.
  - rewrite IH. destruct l as [|[k' n'] l]; simpl.
    + destruct r as [|[k' n'] r]; simpl; tauto.
    + destruct (last ((k', n') :: l)) as [[??]|]; tauto.
Qed.

(** Removing a node next to an in-progress one, or turning a node into an
    in-progress one, keeps the neighbours apart. *)
Lemma no_adjacent_in_progress l k ps r :
  no_adjacent_proved l → no_adjacent_proved r →
  no_adjacent_proved (l ++ (k, InProgress ps) :: r).
Proof.
  intros Hl Hr. apply no_adjacent_app. split_and!; [done| |].
  - simpl. split; [done|]. by destruct r as [|[]].
  - destruct (last l) as [[k' n']|]; simpl; [|done]. by rewrite andb_false_r.
Qed.

Lemma no_adjacent_split l e r :
  no_adjacent_proved (l ++ e :: r) → no_adjacent_proved l ∧ no_adjacent_proved r.
Proof. destruct e. rewrite no_adjacent_app. simpl. tauto. Qed.

(** A ticket of a tiled tree locates its node. *)
Lemma tickets_split lo m hi k s e :
  tiles lo m hi → (k, s, e) ∈ tickets m →
  ∃ l ps r, m = l ++ (k, InProgress ps) :: r ∧
    node_span k (InProgress ps) = Some (s, e) ∧
    tiles lo l s ∧ s ≤ k < e ∧ tiles e r hi.
Proof.
  revert lo; induction m as [|[k0 n0] m IH]; intros lo; cbn [tiles].
  - intros _ H. by apply elem_of_nil in H.
  - intros (e0 & Hspan & Hk & Hm) H. rewrite tickets_cons in H.
    apply elem_of_app in H as [H|H].
    + destruct n0 as [ps|p]; unfold node_ticket in H; cbn [fst snd] in H.
      * rewrite Hspan in H. apply list_elem_of_singleton in H. simplify_eq.
        by exists [], ps, m.
      * by apply elem_of_nil in H.
    + destruct (IH e0 Hm H) as (l & ps & r & -> & ? & Hl & ? & ?).
      exists ((k0, n0) :: l), ps, r. split; [done|]. split; [done|]. split; [by exists e0|done].
Qed.
End Invariant.

#[export] Hint Resolve tiles_sorted tiles_below no_adjacent_in_progress : rust.

(** ** What the operations do to a tiled tree *)

Section Preservation.
Context {P : Type}.
Implicit Types (t : ProofTree P) (n : ProofNode P) (l r m : btree (ProofNode P)).
Implicit Types (p q : IndexedProof P).

(** The proofs stored in proved nodes, in key order. *)
Definition node_proof (e : Z * ProofNode P) : list (IndexedProof P) :=
  match e.2 with Proved p => [p] | InProgress _ => [] end.

Definition proved m : list (IndexedProof P) := m ≫= node_proof.

Lemma proved_app l r : proved (l ++ r) = proved l ++ proved r.
Proof. apply bind_app. Qed.

Definition entry_proved (e : option (Z * ProofNode P)) : bool :=
  match e with Some (_, n) => is_proved n | None => false end.

(** The three outcomes of [set_proof] on a tree split at the index. *)
Lemma set_proof_prev l kp q k n r p :
  bt_sorted ((l ++ [(kp, Proved q)]) ++ (k, n) :: r) →
  set_proof (mkProofTree ((l ++ [(kp, Proved q)]) ++ (k, n) :: r)) k p =
    Ret (mkProofTree (l ++ (k, InProgress [q; p]) :: r), Some [q; p]).
Proof.
  intros Hs. pose proof (bt_sorted_split _ _ _ _ Hs) as [Hl Hr].
  unfold set_proof. simpl tree. rewrite bt_range_to_split by done.
  rewrite last_snoc, !IndexedProof_clone_id. cbv iota beta.
  rewrite <- app_assoc in Hs. simpl in Hs.
  pose proof (bt_sorted_split _ _ _ _ Hs) as [Hl' Hr'].
  rewrite <- app_assoc. simpl.
  rewrite bt_remove_split by auto using keys_below_ne, keys_above_ne.
  rewrite bt_set_split; [done|]. apply keys_below_ne. by apply Forall_app in Hl as [? _].
Qed.

Lemma set_proof_next l k n kn q r p :
  bt_sorted (l ++ (k, n) :: (kn, Proved q) :: r) →
  entry_proved (last l) = false →
  set_proof (mkProofTree (l ++ (k, n) :: (kn, Proved q) :: r)) k p =
    Ret (mkProofTree (l ++ (k, InProgress [p; q]) :: r), Some [p; q]).
Proof.
  intros Hs Hlast. pose proof (bt_sorted_split _ _ _ _ Hs) as [Hl Hr].
  unfold set_proof. simpl tree. rewrite bt_range_to_split, bt_range_after_split by done.
  rewrite !IndexedProof_clone_id.
  replace (match last l with Some (prev_index, Proved prev_proof) => _ | _ => None end)
    with (@None (Z * list (IndexedProof P))) by (by destruct (last l) as [[? [?|?]]|]).
  simpl.
  assert (Hne : Forall (λ e, e.1 ≠ kn) (l ++ [(k, n)]) ∧ Forall (λ e, e.1 ≠ kn) r).
  { pose proof (bt_sorted_split (l ++ [(k, n)]) kn (Proved q) r) as Hs'.
    rewrite <- app_assoc in Hs'. destruct (Hs' Hs). 
    split; auto using keys_below_ne, keys_above_ne. }
  pose proof (bt_remove_split kn (Proved q) (l ++ [(k, n)]) r) as Hrm.
  rewrite <- !app_assoc in Hrm. simpl in Hrm. rewrite Hrm by tauto.
  rewrite bt_set_split by (by apply keys_below_ne). simpl. by rewrite IndexedProof_clone_id.
Qed.

Lemma set_proof_alone l k n r p :
  bt_sorted (l ++ (k, n) :: r) →
  entry_proved (last l) = false → entry_proved (head r) = false →
  set_proof (mkProofTree (l ++ (k, n) :: r)) k p =
    Ret (mkProofTree (l ++ (k, Proved p) :: r), None).
Proof.
  intros Hs Hlast Hhead. pose proof (bt_sorted_split _ _ _ _ Hs) as [Hl Hr].
  unfold set_proof. simpl tree. rewrite bt_range_to_split, bt_range_after_split by done.
  rewrite !IndexedProof_clone_id.
  replace (match last l with Some (prev_index, Proved prev_proof) => _ | _ => None end)
    with (@None (Z * list (IndexedProof P))) by (by destruct (last l) as [[? [?|?]]|]).
  replace (match head r with Some (next_index, Proved next_proof) => _ | _ => None end)
    with (@None (Z * list (IndexedProof P))) by (by destruct (head r) as [[? [?|?]]|]).
  simpl. rewrite bt_set_split; [done|]. by apply keys_below_ne.
Qed.

(** What a successful [set_proof] establishes, by cases on its result. *)
Definition set_proof_post t k lo e p t' (o : option (list (IndexedProof P)))
    (rest : list ticket) : Prop :=
  match o with
  | None =>
      tickets (tree t') ≡ₚ rest ∧ proved (tree t') ≡ₚ p :: proved (tree t) ∧
      bt_get k (tree t') = Some (Proved p) ∧ ProofTree_len t' = ProofTree_len t
  | Some ps => ∃ a b q,
      ps = [a; b] ∧ (a = p ∧ b = q ∨ a = q ∧ b = p) ∧
      end_chunk a + 1 = start_chunk b ∧ start_chunk a ≤ lo ∧ e ≤ end_chunk b + 1 ∧
      (start_chunk a ≤ end_chunk a ∧ start_chunk b ≤ end_chunk b) ∧
      tickets (tree t') ≡ₚ (k, start_chunk a, end_chunk b + 1) :: rest ∧
      proved (tree t) ≡ₚ q :: proved (tree t') ∧
      ProofTree_len t' = ProofTree_len t - 1
  end.

Lemma node_ticket_span k ps s e :
  node_span k (InProgress (P:=P) ps) = Some (s, e) → node_ticket (k, InProgress ps) = [(k, s, e)].
Proof. unfold node_ticket. cbn [fst snd]. by intros ->. Qed.

Lemma node_span_pair k (a b : IndexedProof P) :
  end_chunk a + 1 = start_chunk b →
  node_span k (InProgress [a; b]) = Some (start_chunk a, end_chunk b + 1).
Proof. intros H. simpl. by rewrite decide_True. Qed.

Lemma ProofTree_len_app l e r :
  ProofTree_len (mkProofTree (l ++ e :: r)) = Z.of_nat (length l) + 1 + Z.of_nat (length r).
Proof. unfold ProofTree_len, bt_len. simpl. rewrite length_app. simpl. lia. Qed.

Lemma no_adjacent_snoc l e : no_adjacent_proved (l ++ [e]) → no_adjacent_proved l.
Proof. rewrite no_adjacent_app. tauto. Qed.

(** Replacing the node at an index by one of the given span. *)
Lemma tiles_replace lo l mid k n e r hi :
  tiles lo l mid → node_span k n = Some (mid, e) → mid ≤ k < e → tiles e r hi →
  tiles lo (l ++ (k, n) :: r) hi.
Proof. intros Hl Hn Hk Hr. apply tiles_app. exists mid. split; [done|]. by exists e. Qed.

Lemma tickets_at l k ps s e r :
  node_span k (InProgress (P:=P) ps) = Some (s, e) →
  tickets (l ++ (k, InProgress ps) :: r) ≡ₚ (k, s, e) :: tickets l ++ tickets r.
Proof.
  intros Hsp. rewrite tickets_app, tickets_cons, (node_ticket_span _ _ _ _ Hsp). simpl.
  by rewrite Permutation_middle.
Qed.

Lemma tickets_at_proved l k p r :
  tickets (l ++ (k, Proved p) :: r) = tickets l ++ tickets r.
Proof. by rewrite tickets_app, tickets_cons. Qed.

Lemma proved_at l k n r :
  proved (l ++ (k, n) :: r) ≡ₚ node_proof (k, n) ++ proved l ++ proved r.
Proof.
  rewrite proved_app. change (proved ((k, n) :: r)) with (node_proof (k, n) ++ proved r).
  by rewrite Permutation_app_swap_app.
Qed.

(** The three branches, for a node in progress at the index. *)
Section Branches.
Context (l r : btree (ProofNode P)) (k hi : Z) (ps : list (IndexedProof P)) (p : IndexedProof P).
Hypothesis Hsp : node_span k (InProgress ps) = Some (start_chunk p, end_chunk p + 1).
Hypothesis Hk : start_chunk p ≤ k < end_chunk p + 1.

Lemma set_proof_post_prev l' kp q :
  tiles 0 (l' ++ [(kp, Proved q)]) (start_chunk p) → tiles (end_chunk p + 1) r hi →
  no_adjacent_proved l' → no_adjacent_proved r →
  let m := (l' ++ [(kp, Proved q)]) ++ (k, InProgress ps) :: r in
  let m' := l' ++ (k, InProgress [q; p]) :: r in
  tree_wf (mkProofTree m') hi ∧
  set_proof_post (mkProofTree m) k (start_chunk p) (end_chunk p + 1) p
    (mkProofTree m') (Some [q; p]) (tickets l' ++ tickets r).
Proof.
  intros (mid & Hl' & eq & Hqs & Hkq & ->)%tiles_app Hr Hal Har m m'.
  injection Hqs as <- Heq. pose proof (node_span_pair k q p Heq) as Hpair.
  split; [split; simpl|exists q, p, q]; [|by apply no_adjacent_in_progress|].
  - eapply tiles_replace; [done..|lia|done].
  - split_and!; auto; try lia; simpl.
    + by apply tickets_at.
    + unfold m, m'. rewrite <- app_assoc. simpl. by rewrite !proved_at.
    + unfold m, m'. rewrite !ProofTree_len_app, length_app. simpl. lia.
Qed.

Lemma set_proof_post_next kn q r' :
  r = (kn, Proved q) :: r' → tiles 0 l (start_chunk p) → tiles (end_chunk p + 1) r hi →
  no_adjacent_proved l → no_adjacent_proved r →
  let m' := l ++ (k, InProgress [p; q]) :: r' in
  tree_wf (mkProofTree m') hi ∧
  set_proof_post (mkProofTree (l ++ (k, InProgress ps) :: r)) k
    (start_chunk p) (end_chunk p + 1) p
    (mkProofTree m') (Some [p; q]) (tickets l ++ tickets r).
Proof.
  intros -> Hl (eq & Hqs & Hkq & Hr) Hal [Har _] m'.
  injection Hqs as Heq <-. symmetry in Heq. pose proof (node_span_pair k p q Heq) as Hpair.
  split; [split; simpl|exists p, q, q]; [|by apply no_adjacent_in_progress|].
  - eapply tiles_replace; [done..|lia|done].
  - split_and!; auto; try lia; simpl.
    + by apply tickets_at.
    + unfold m'. rewrite !proved_at. simpl. by rewrite Permutation_middle.
    + unfold m'. rewrite !ProofTree_len_app. simpl. lia.
Qed.

Lemma set_proof_post_alone :
  tiles 0 l (start_chunk p) → tiles (end_chunk p + 1) r hi →
  no_adjacent_proved l → no_adjacent_proved r →
  entry_proved (last l) = false → entry_proved (head r) = false →
  let m' := l ++ (k, Proved p) :: r in
  tree_wf (mkProofTree m') hi ∧
  set_proof_post (mkProofTree (l ++ (k, InProgress ps) :: r)) k
    (start_chunk p) (end_chunk p + 1) p
    (mkProofTree m') None (tickets l ++ tickets r).
Proof.
  intros Hl Hr Hal Har El Er m'. split; [split; simpl|split_and!; simpl].
  - by eapply tiles_replace.
  - apply no_adjacent_app. simpl. destruct (last l) as [[? [?|?]]|]; try done;
      destruct r as [|[? [?|?]] ?]; simpl in *; tauto.
  - unfold m'. by rewrite tickets_at_proved.
  - unfold m'. by rewrite !proved_at.
  - apply bt_get_split, keys_below_ne. eapply Forall_impl; [by eapply tiles_keys|].
    simpl. lia.
  - unfold m'. by rewrite !ProofTree_len_app.
Qed.
End Branches.

(** [set_proof] on the ticket of a well-formed tree. *)
Lemma set_proof_spec t hi k lo e p :
  tree_wf t hi → (k, lo, e) ∈ tickets (tree t) →
  start_chunk p = lo → end_chunk p + 1 = e →
  ∃ t' o rest, set_proof t k p = Ret (t', o) ∧ tree_wf t' hi ∧
    tickets (tree t) ≡ₚ (k, lo, e) :: rest ∧ set_proof_post t k lo e p t' o rest.
Proof.
  intros [Ht Ha] Hin <- <-. destruct t as [m]; simpl in *.
  destruct (tickets_split _ _ _ _ _ _ Ht Hin) as (l & ps & r & -> & Hsp & Hl & Hk & Hr).
  pose proof (tiles_sorted _ _ _ Ht) as Hs.
  pose proof (no_adjacent_split _ _ _ Ha) as [Hal Har].
  pose proof (tickets_at l k ps _ _ r Hsp) as Htk.
  destruct (entry_proved (last l)) eqn:El; [|destruct (entry_proved (head r)) eqn:Er].
  - destruct (last l) as [[kp [?|q]]|] eqn:Elast; try done.
    apply last_Some in Elast as [l' ->].
    destruct (set_proof_post_prev r k hi ps p Hk l' kp q) as [Hwf Hpost];
      eauto using no_adjacent_snoc.
    eexists _, _, _. split; [by apply set_proof_prev|]. split; [done|]. split; [|done].
    by rewrite Htk, tickets_app, app_nil_r.
  - destruct r as [|[kn [?|q]] r]; simpl in Er; try done.
    destruct (set_proof_post_next l ((kn, Proved q) :: r) k hi ps p Hk kn q r) as [Hwf Hpost];
      auto.
    eexists _, _, _. by split; [apply set_proof_next|].
  - destruct (set_proof_post_alone l r k hi ps p Hk) as [Hwf Hpost]; auto.
    eexists _, _, _. by split; [apply set_proof_alone|].
Qed.
End Preservation.

Section TreeFacts.
Context {P : Type}.
Implicit Types (t : ProofTree P) (m l r : btree (ProofNode P)) (p q : IndexedProof P).

(** Initialising the next chunk appends its placeholder. *)
Lemma init_node_spec t hi :
  tree_wf t hi → 0 ≤ hi →
  init_node t hi = Ret (mkProofTree (tree t ++ [(hi, InProgress [])])) ∧
  tree_wf (mkProofTree (tree t ++ [(hi, InProgress [])])) (hi + 1) ∧
  tickets (tree t ++ [(hi, InProgress [])]) ≡ₚ (hi, hi, hi + 1) :: tickets (tree t) ∧
  proved (tree t ++ [(hi, InProgress [])]) = proved (tree t).
Proof.
  intros [Ht Ha] Hhi. split_and!; [| split| |]; simpl.
  - unfold init_node. by rewrite bt_insert_last by eauto with rust.
  - eapply tiles_replace; simpl; [done..|lia|done].
  - by apply no_adjacent_in_progress.
  - by rewrite (tickets_at _ _ [] hi (hi + 1)), app_nil_r.
  - rewrite proved_app. simpl. by rewrite app_nil_r.
Qed.

Lemma tree_wf_empty : tree_wf (P := P) ProofTree_default 0.
Proof. by split. Qed.

Lemma tree_wf_nonneg t hi : tree_wf t hi → 0 ≤ hi.
Proof. intros [Ht _]. by apply tiles_le in Ht. Qed.

Lemma tiles_strict lo m hi : tiles lo m hi → m ≠ [] → lo < hi.
Proof.
  destruct m as [|[k n] m]; [done|]. intros (e & _ & Hk & Hm%tiles_le) _. lia.
Qed.

(** A ticket is the whole tree iff it covers every chunk. *)
Lemma ticket_covers_all t hi k lo e :
  tree_wf t hi → (k, lo, e) ∈ tickets (tree t) →
  (ProofTree_len t = 1 ↔ lo = 0 ∧ e = hi) ∧ 0 ≤ lo ∧ lo ≤ k < e ∧ e ≤ hi.
Proof.
  intros [Ht _] Hin. destruct t as [m]; simpl in *.
  destruct (tickets_split _ _ _ _ _ _ Ht Hin) as (l & ps & r & -> & _ & Hl & Hk & Hr).
  rewrite ProofTree_len_app. pose proof (tiles_le _ _ _ Hl). pose proof (tiles_le _ _ _ Hr).
  split; [|lia]. destruct l as [|x l], r as [|y r]; simpl in *; simplify_eq.
  - split; [done|lia].
  - pose proof (tiles_strict _ (y :: r) _ Hr ltac:(done)). lia.
  - pose proof (tiles_strict _ (x :: l) _ Hl ltac:(done)). lia.
  - pose proof (tiles_strict _ (x :: l) _ Hl ltac:(done)). lia.
Qed.

(** With nothing in progress the tree is empty or a single proved node. *)
Lemma tree_all_proved t hi :
  tree_wf t hi → tickets (tree t) = [] →
  (tree t = [] ∧ hi = 0) ∨
  ∃ k p, tree t = [(k, Proved p)] ∧ start_chunk p = 0 ∧ end_chunk p + 1 = hi.
Proof.
  intros [Ht Ha] Htk. destruct t as [m]; simpl in *.
  destruct m as [|[k [ps|p]] m]; [by left| |]; destruct Ht as (e & Hsp & Hk & Hm).
  { by rewrite tickets_cons, (node_ticket_span _ _ _ _ Hsp) in Htk. }
  right. exists k, p. simpl in Hsp. simplify_eq.
  destruct m as [|[k' [ps|p']] m]; [by simpl in Hm| |].
  - destruct Hm as (e' & Hsp' & _).
    by rewrite !tickets_cons, (node_ticket_span _ _ _ _ Hsp') in Htk.
  - destruct Ha as [_ Ha]. done.
Qed.
End TreeFacts.

(** ** Runs of the tree

    The gateway initialises the chunks in order and answers the outstanding
    tickets in any order; [combines] counts the combine requests handed out. *)

Record TreeRun (P : Type) : Type := mkTreeRun {
  run_tree : ProofTree P;
  inited : Z;
  combines : Z;
}.
Arguments mkTreeRun {P} _ _ _.
Arguments run_tree {P} _.
Arguments inited {P} _.
Arguments combines {P} _.

Section TreeRuns.
Context {P : Type}.

Inductive tree_step : TreeRun P → TreeRun P → Prop :=
  | tree_step_init t n c t' :
      init_node t n = Ret t' →
      tree_step (mkTreeRun t n c) (mkTreeRun t' (n + 1) c)
  | tree_step_proof t n c k lo e p t' o :
      (k, lo, e) ∈ tickets (tree t) →
      start_chunk p = lo → end_chunk p + 1 = e →
      set_proof t k p = Ret (t', o) →
      tree_step (mkTreeRun t n c)
        (mkTreeRun t' n (if o is Some _ then c + 1 else c)).

Definition tree_run_init : TreeRun P := mkTreeRun ProofTree_default 0 0.

Definition tree_reachable (s : TreeRun P) : Prop := rtc tree_step tree_run_init s.

Record run_inv (s : TreeRun P) : Prop := {
  run_wf : tree_wf (run_tree s) (inited s);
  run_count : ProofTree_len (run_tree s) + combines s = inited s;
}.

Lemma tree_step_inv s s' : run_inv s → tree_step s s' → run_inv s'.
Proof.
  intros [Hwf Hc] Hs. destruct Hs as [t n c t' E|t n c k lo e p t' o Hin Hlo He E]; simpl in *.
  - destruct (init_node_spec t n Hwf (tree_wf_nonneg _ _ Hwf)) as (E' & Hwf' & _).
    rewrite E in E'. injection E' as ->. split; [done|]. simpl.
    rewrite ProofTree_len_app. unfold ProofTree_len, bt_len in Hc. simpl. lia.
  - destruct (set_proof_spec t n k lo e p) as (t1 & o1 & rest & E' & Hwf' & _ & Hpost); auto.
    rewrite E in E'. injection E' as -> ->. split; [done|]. simpl.
    destruct o1 as [ps|]; simpl in Hpost.
    + destruct Hpost as (a & b & q & _ & _ & _ & _ & _ & _ & _ & _ & Hlen). lia.
    + destruct Hpost as (_ & _ & _ & Hlen). lia.
Qed.

Lemma tree_reachable_inv s : tree_reachable s → run_inv s.
Proof.
  apply rtc_invariant; [by apply tree_step_inv|]. split; [apply tree_wf_empty|done].
Qed.
End TreeRuns.

(** ** Properties *)

Section Properties.
Context {P : Type}.
Implicit Types (t : ProofTree P) (l r : btree (ProofNode P)) (p q : IndexedProof P).

(** C22: answering an outstanding ticket of a well-formed tree never panics
    and keeps the tree well formed.  Either the proof is stored and nothing
    is to be combined, because neither neighbour is proved; or [set_proof]
    hands out exactly two proofs, the new one and a stored one, that are
    adjacent ([end_chunk + 1 = start_chunk]), and the node is in progress
    again for their union. *)
Theorem set_proof_adjacent_pair t hi k p :
  tree_wf t hi → (k, start_chunk p, end_chunk p + 1) ∈ tickets (tree t) →
  ∃ t' o, set_proof t k p = Ret (t', o) ∧ tree_wf t' hi ∧
    match o with
    | None =>
        bt_get k (tree t') = Some (Proved p) ∧ ProofTree_len t' = ProofTree_len t
    | Some proofs => ∃ a b,
        proofs = [a; b] ∧ end_chunk a + 1 = start_chunk b ∧
        (a = p ∧ b ∈ proved (tree t) ∨ a ∈ proved (tree t) ∧ b = p) ∧
        (k, start_chunk a, end_chunk b + 1) ∈ tickets (tree t') ∧
        ProofTree_len t' = ProofTree_len t - 1
    end.
Proof.
  intros Hwf Hin.
  destruct (set_proof_spec t hi k _ _ p Hwf Hin) as (t' & o & rest & E & Hwf' & _ & Hpost);
    [done..|].
  exists t', o. split; [done|]. split; [done|]. destruct o as [ps|]; simpl in Hpost.
  - destruct Hpost as (a & b & q & -> & Hor & Hadj & _ & _ & _ & Htk & Hpr & Hlen).
    exists a, b. split_and!; [done..| | |done].
    + rewrite Hpr. destruct Hor as [[-> ->]|[-> ->]]; [left|right]; split; try done; by left.
    + rewrite Htk. by left.
  - tauto.
Qed.

(** C18: whatever the order in which the outstanding tickets are answered,
    once every ticket of [n > 0] initialised chunks is answered the tree is
    a single proved node covering exactly the chunks [0 .. n - 1], and
    exactly [n - 1] combine requests were handed out. *)
Theorem tree_runs_to_one_proof (s : TreeRun P) :
  tree_reachable s → 0 < inited s → tickets (tree (run_tree s)) = [] →
  combines s = inited s - 1 ∧
  ∃ k p, tree (run_tree s) = [(k, Proved p)] ∧
    start_chunk p = 0 ∧ end_chunk p = inited s - 1.
Proof.
  intros [Hwf Hc]%tree_reachable_inv Hn Htk.
  destruct (tree_all_proved _ _ Hwf Htk) as [[_ ?]|(k & p & E & Hs & He)]; [lia|].
  unfold ProofTree_len, bt_len in Hc. rewrite E in Hc. simpl in Hc.
  split; [lia|]. exists k, p. split_and!; [done..|lia].
Qed.

(** C38: the choice of the sibling, on every branch.  A proved previous
    neighbour is taken whatever follows; otherwise a proved next neighbour;
    the sibling's node is removed and the combine node stays at [index];
    with no proved neighbour the proof is stored. *)
Theorem set_proof_branches l k n r p :
  bt_sorted (l ++ (k, n) :: r) →
  set_proof (mkProofTree (l ++ (k, n) :: r)) k p =
    match last l, r with
    | Some (_, Proved q), _ =>
        Ret (mkProofTree (removelast l ++ (k, InProgress [q; p]) :: r), Some [q; p])
    | _, (_, Proved q) :: r' =>
        Ret (mkProofTree (l ++ (k, InProgress [p; q]) :: r'), Some [p; q])
    | _, _ => Ret (mkProofTree (l ++ (k, Proved p) :: r), None)
    end.
Proof.
  intros Hs. destruct (entry_proved (last l)) eqn:El.
  - destruct (last l) as [[kp [?|q]]|] eqn:Elast; try done.
    apply last_Some in Elast as [l' ->]. rewrite removelast_last. by apply set_proof_prev.
  - transitivity (match r with
      | (_, Proved q) :: r' =>
          Ret (mkProofTree (l ++ (k, InProgress [p; q]) :: r'), Some [p; q])
      | _ => Ret (mkProofTree (l ++ (k, Proved p) :: r), None)
      end); [|by destruct (last l) as [[? [?|?]]|]].
    destruct r as [|[kn [?|q]] r]; [by apply set_proof_alone..|by apply set_proof_next].
Qed.

(** The guards.  Initialising an index that is present panics with the
    assertion's message, and setting a proof at an index that was never
    initialised panics at the [unwrap] of [get_mut], whether or not a
    neighbour is proved. *)
Theorem proof_tree_guards t k p :
  bt_sorted (tree t) →
  (is_Some (bt_get k (tree t)) →
    init_node t k = panic_with "proof node must be initialized once in tree") ∧
  (bt_get k (tree t) = None →
    set_proof t k p = panic_with "called `Option::unwrap()` on a `None` value").
Proof.
  intros Hs. split.
  - intros Hin. unfold init_node.
    pose proof (bt_insert_old k ProofNode_init (tree t) Hs) as Hold.
    destruct (bt_insert k ProofNode_init (tree t)) as [old t']. simpl in Hold. subst old.
    by rewrite bool_decide_true.
  - intros Hout.
    assert (Hrm : ∀ s n, bt_set k n (bt_remove s (tree t)) = None).
    { intros s n. apply bt_set_None, bt_get_None. apply bt_get_None in Hout.
      by apply bt_remove_Forall. }
    unfold set_proof. rewrite !IndexedProof_clone_id.
    apply (bt_set_None k (Proved p)) in Hout as Hset.
    destruct (bt_range_to_next_back k (tree t)) as [[? [?|?]]|];
      [|by simpl; rewrite Hrm|]; destruct (bt_range_after_next k (tree t)) as [[? [?|?]]|];
      simpl; by rewrite ?Hrm, ?Hset.
Qed.

End Properties.

(** The scenario of the commented-out unit test of [proof_tree.rs]
    ([test_gateway_proof_tree]), replayed on strings. *)
Inductive tree_op : Type :=
  | OpInit (index : Z)
  | OpProof (index : Z) (name : string) (s e : Z).

Fixpoint run_ops (t : ProofTree string) (ops : list tree_op) :
    outcome (ProofTree string * list (option (list string))) :=
  match ops with
  | [] => Ret (t, [])
  | OpInit k :: ops => t' ← init_node t k; run_ops t' ops
  | OpProof k name s e :: ops =>
      '(t', o) ← set_proof t k (IndexedProof_new name s e);
      '(t'', os) ← run_ops t' ops;
      Ret (t'', option_map (map inner) o :: os)
  end.

Example scenario_result :
  ('(t, os) ← run_ops ProofTree_default
      [OpInit 0; OpInit 1; OpInit 2;
       OpProof 1 "proof-1" 1 1; OpProof 2 "proof-2" 2 2;
       OpInit 3; OpInit 4;
       OpProof 4 "proof-4" 4 4; OpProof 2 "proof-1-2" 1 2; OpProof 3 "proof-3" 3 3;
       OpProof 0 "proof-0" 0 0; OpProof 3 "proof-1-2-3" 1 3;
       OpProof 3 "proof-0-1-2-3" 0 3; OpProof 3 "proof-0-1-2-3-4" 0 4];
   Ret (os, map (λ e, (e.1, ProofNode_fmt e.2)) (tree t))) =
    Ret ([None; Some ["proof-1"; "proof-2"]; None; None;
          Some ["proof-1-2"; "proof-3"]; None; Some ["proof-0"; "proof-1-2-3"];
          Some ["proof-0-1-2-3"; "proof-4"]; None], [(3, "proved")]).
Proof. vm_compute. reflexivity. Qed.

(** Two chunks, the first already proved. *)
Definition half_tree : ProofTree string :=
  mkProofTree [(0, Proved (mkIndexedProof "p0" 0 0)); (1, InProgress [])].

Lemma half_tree_wf : tree_wf half_tree 2.
Proof. split; [|done]. exists 1. split; [done|]. split; [lia|]. exists 2. split; [done|]. by split; [lia|]. Qed.

Lemma set_proof_adjacent_pair_witness :
  ∃ t' o, set_proof half_tree 1 (mkIndexedProof "p1" 1 1) = Ret (t', o) ∧ tree_wf t' 2.
Proof.
  destruct (set_proof_adjacent_pair half_tree 2 1 (mkIndexedProof "p1" 1 1) half_tree_wf
    ltac:(by left)) as (t' & o & E & Hwf & _).
  exists t', o. split; [exact E|exact Hwf].
Defined.

(** Two chunks, answered in the order 1, 0, then combined. *)
Definition two_chunk_run : TreeRun string :=
  mkTreeRun (mkProofTree [(0, Proved (mkIndexedProof "p01" 0 1))]) 2 1.

Lemma two_chunk_reachable : tree_reachable two_chunk_run.
Proof.
  unfold tree_reachable, tree_run_init.
  eapply rtc_l; [by apply tree_step_init|]. eapply rtc_l; [by apply tree_step_init|].
  eapply rtc_l; [apply (tree_step_proof _ _ _ 1 1 2 (mkIndexedProof "p1" 1 1)); [right; by left|done..]|].
  eapply rtc_l; [apply (tree_step_proof _ _ _ 0 0 1 (mkIndexedProof "p0" 0 0)); [by left|done..]|].
  eapply rtc_l; [apply (tree_step_proof _ _ _ 0 0 2 (mkIndexedProof "p01" 0 1)); [by left|done..]|].
  apply rtc_refl.
Qed.

Lemma tree_runs_to_one_proof_witness :
  combines two_chunk_run = 1 ∧ ∃ k p, tree (run_tree two_chunk_run) = [(k, Proved p)] ∧
    start_chunk p = 0 ∧ end_chunk p = 1.
Proof. exact (tree_runs_to_one_proof two_chunk_run two_chunk_reachable ltac:(reflexivity) eq_refl). Defined.

Lemma set_proof_branches_witness :
  set_proof half_tree 1 (mkIndexedProof "p1" 1 1) =
    Ret (mkProofTree [(1, InProgress [mkIndexedProof "p0" 0 0; mkIndexedProof "p1" 1 1])],
         Some [mkIndexedProof "p0" 0 0; mkIndexedProof "p1" 1 1]).
Proof.
  exact (set_proof_branches [(0, Proved (mkIndexedProof "p0" 0 0))] 1 (InProgress []) []
    (mkIndexedProof "p1" 1 1) (tiles_sorted 0 (tree half_tree) 2 (wf_tiles _ _ half_tree_wf))).
Defined.

Lemma proof_tree_guards_witness :
  init_node half_tree 1 = panic_with "proof node must be initialized once in tree" ∧
  set_proof half_tree 2 (mkIndexedProof "p2" 2 2) =
    panic_with "called `Option::unwrap()` on a `None` value".
Proof.
  pose proof (tiles_sorted 0 (tree half_tree) 2 (wf_tiles _ _ half_tree_wf)) as Hs. split.
  - exact (proj1 (proof_tree_guards half_tree 1 (mkIndexedProof "p2" 2 2) Hs) ltac:(by eexists)).
  - exact (proj2 (proof_tree_guards half_tree 2 (mkIndexedProof "p2" 2 2) Hs) eq_refl).
Defined.
