(* ===== verification/TreeSpec.v ===== *)
(** * What the gateway needs of its proof tree

    An abstract specification of [proof_tree.rs], without keys, neighbours or
    a map: a row of blocks, each busy or done, where chunks are announced at
    the end, a busy block may finish, and two done neighbours may be merged
    into one busy block, in any order and by any strategy.  The tree is one
    implementation: it merges as soon as it can, and never waits. *)

From S2P Require Import Prelude BTreeMap ProofTree.

Section TreeSpec.
Context {P : Type}.
Implicit Types (p a b : IndexedProof P).

(** [Busy k lo hi]: the worker holding ticket [k] owes the proof of the chunks
    [lo .. hi - 1]. *)
Inductive block : Type :=
  | Busy (k lo hi : Z)
  | Done (p : IndexedProof P).

Record pool : Type := mkPool {
  blocks : list block;
  announced : Z;
  merges : Z;
}.

Definition pool_init : pool := mkPool [] 0 0.

Inductive pool_step : pool → pool → Prop :=
  | pool_announce bs n c :
      pool_step (mkPool bs n c) (mkPool (bs ++ [Busy n n (n + 1)]) (n + 1) c)
  | pool_finish l k r n c p :
      pool_step (mkPool (l ++ Busy k (start_chunk p) (end_chunk p + 1) :: r) n c)
                (mkPool (l ++ Done p :: r) n c)
  | pool_merge l a b r k n c :
      start_chunk a ≤ k ≤ end_chunk b →
      pool_step (mkPool (l ++ Done a :: Done b :: r) n c)
                (mkPool (l ++ Busy k (start_chunk a) (end_chunk b + 1) :: r) n (c + 1)).

(** No two done blocks are left side by side. *)
Fixpoint merged (bs : list block) : bool :=
  match bs with
  | Done _ :: ((Done _ :: _) as bs') => false
  | _ :: bs' => merged bs'
  | [] => true
  end.

(** *** What every strategy keeps *)

Definition block_span (b : block) : Z * Z :=
  match b with
  | Busy _ lo hi => (lo, hi)
  | Done p => (start_chunk p, end_chunk p + 1)
  end.

(** The blocks follow one another from [lo] to [hi]. *)
Fixpoint in_row (lo : Z) (bs : list block) (hi : Z) : Prop :=
  match bs with
  | [] => lo = hi
  | b :: bs => (block_span b).1 = lo ∧ lo < (block_span b).2 ∧ in_row (block_span b).2 bs hi
  end.

Lemma in_row_app lo l r hi : in_row lo (l ++ r) hi ↔ ∃ mid, in_row lo l mid ∧ in_row mid r hi.
Proof.
  revert lo. induction l as [|x l IH]; intros lo; simpl.
  - split; [by exists lo|by intros (? & -> & ?)].
  - setoid_rewrite IH. split.
    + intros (Hx & Hlt & mid & Hl & Hr). by exists mid.
    + by intros (mid & (Hx & Hlt & Hl) & Hr); eauto.
Qed.

Record pool_ok (s : pool) : Prop := {
  pool_row : in_row 0 (blocks s) (announced s);
  pool_count : Z.of_nat (length (blocks s)) + merges s = announced s;
}.

Lemma pool_step_ok s s' : pool_ok s → pool_step s s' → pool_ok s'.
Proof.
  intros [Hrow Hc] Hs. destruct Hs as [bs n c|l k r n c p|l a b r k n c Hk]; simpl in *.
  - split; simpl; [|rewrite length_app; simpl; lia].
    apply in_row_app. exists n. split; [done|]. simpl. lia.
  - split; simpl; [|by rewrite length_app in *].
    apply in_row_app in Hrow as (mid & Hl & Hr). apply in_row_app. by exists mid.
  - split; simpl; [|rewrite length_app in *; simpl in *; lia].
    apply in_row_app in Hrow as (mid & Hl & Ha & Hla & Hb & Hlb & Hr).
    apply in_row_app. exists mid. split; [done|]. simpl in *. split_and!; [done|lia|done].
Qed.

Lemma pool_reachable_ok s : rtc pool_step pool_init s → pool_ok s.
Proof. apply rtc_invariant; [apply pool_step_ok|by split]. Qed.

(** *** The tree as a pool *)

Definition view_node (e : Z * ProofNode P) : block :=
  match e.2 with
  | Proved p => Done p
  | InProgress [a; b] => Busy e.1 (start_chunk a) (end_chunk b + 1)
  | InProgress _ => Busy e.1 e.1 (e.1 + 1)
  end.

Definition view (s : TreeRun P) : pool :=
  mkPool (map view_node (tree (run_tree s))) (inited s) (combines s).

Lemma view_in_progress k ps lo hi :
  node_span k (InProgress ps) = Some (lo, hi) → view_node (k, InProgress ps) = Busy k lo hi.
Proof.
  destruct ps as [|a [|b [|]]]; simpl; try done; [by intros [= <- <-]|].
  case_decide; [|done]. by intros [= <- <-].
Qed.

Lemma merged_view m : no_adjacent_proved m → merged (map view_node m) = true.
Proof.
  assert (Hbusy : ∀ k ps m', merged (map view_node m') = true →
    merged (map view_node ((k, InProgress ps) :: m')) = true).
  { intros k ps m' Hm'. by destruct ps as [|? [|? []]]. }
  induction m as [|[k [ps|p]] m IH]; [done|intros [Hm _]; auto|].
  intros [Hm Hp]. destruct m as [|[k' [ps|q]] m]; [done| |done].
  specialize (IH Hm). cbn [map] in *. by destruct ps as [|? [|? []]].
Qed.

(** Finishing the block of a ticket. *)
Lemma view_finish l k ps r n c p :
  node_span k (InProgress ps) = Some (start_chunk p, end_chunk p + 1) →
  pool_step (view (mkTreeRun (mkProofTree (l ++ (k, InProgress ps) :: r)) n c))
    (mkPool (map view_node l ++ Done p :: map view_node r) n c).
Proof.
  intros Hsp. unfold view. simpl. rewrite map_app. cbn [map].
  rewrite (view_in_progress _ _ _ _ Hsp). constructor.
Qed.

(** Answering a ticket finishes its block and at most merges it. *)
Lemma view_set_proof t n c k p t' o :
  tree_wf t n → (k, start_chunk p, end_chunk p + 1) ∈ tickets (tree t) →
  set_proof t k p = Ret (t', o) →
  rtc pool_step (view (mkTreeRun t n c))
    (view (mkTreeRun t' n (if o is Some _ then c + 1 else c))).
Proof.
  intros [Ht _] Hin E. destruct t as [m]; simpl in *.
  destruct (tickets_split _ _ _ _ _ _ Ht Hin) as (l & ps & r & -> & Hsp & Hl & Hk & Hr).
  pose proof (tiles_sorted _ _ _ Ht) as Hs. eapply rtc_l; [by apply view_finish|].
  destruct (entry_proved (last l)) eqn:El; [|destruct (entry_proved (head r)) eqn:Er].
  - destruct (last l) as [[kp [?|q]]|] eqn:Elast; try done.
    apply last_Some in Elast as [l' ->]. rewrite set_proof_prev in E by done.
    injection E as <- <-. unfold view. simpl. rewrite !map_app, <- app_assoc. cbn [map].
    apply tiles_app in Hl as (mid & Hl' & eq & [= <- <-] & Hkq & Heq). simpl in Heq.
    apply rtc_once, pool_merge. simpl. lia.
  - destruct r as [|[kn [?|q]] r]; simpl in Er; try done.
    rewrite set_proof_next in E by done. injection E as <- <-.
    unfold view. simpl. rewrite !map_app. cbn [map].
    destruct Hr as (e & [= Hq <-] & Hkq & Hr).
    apply rtc_once, pool_merge. simpl. lia.
  - rewrite set_proof_alone in E by done. injection E as <- <-.
    unfold view. simpl. rewrite map_app. apply rtc_refl.
Qed.

Lemma view_step s s' : run_inv s → tree_step s s' → rtc pool_step (view s) (view s').
Proof.
  intros [Hwf _] Hs. destruct Hs as [t n c t' E|t n c k lo e p t' o Hin <- <- E]; simpl in *.
  - destruct (init_node_spec t n Hwf (tree_wf_nonneg _ _ Hwf)) as (E' & _).
    rewrite E in E'. injection E' as ->. unfold view. simpl. rewrite map_app.
    apply rtc_once, pool_announce.
  - by eapply view_set_proof.
Qed.

Lemma view_reachable s : tree_reachable s → rtc pool_step pool_init (view s).
Proof.
  apply (rtc_ind_r (λ s, rtc pool_step pool_init (view s)) tree_run_init); [apply rtc_refl|].
  intros s1 s2 Hr Hstep IH. etrans; [exact IH|].
  apply view_step; [by apply tree_reachable_inv|done].
Qed.

(** C9: refinement.  The proof tree implements the specification, eagerly:
    every operation of a reachable tree is a sequence of steps of the
    specification on the blocks the tree stands for, from the empty pool; it
    never leaves two done neighbours unmerged; and so the blocks always
    follow one another over exactly the announced chunks, one fewer for each
    merge handed out. *)
Theorem tree_refines_pool (s s' : TreeRun P) :
  tree_reachable s → tree_step s s' →
  rtc pool_step pool_init (view s) ∧ rtc pool_step (view s) (view s') ∧
  merged (blocks (view s')) = true ∧
  in_row 0 (blocks (view s')) (announced (view s')) ∧
  Z.of_nat (length (blocks (view s'))) + merges (view s') = announced (view s').
Proof.
  intros Hr Hstep. pose proof (tree_reachable_inv s Hr) as Hinv.
  pose proof (tree_step_inv s s' Hinv Hstep) as [[_ Ha'] _].
  assert (Hr' : tree_reachable s') by (by eapply rtc_r).
  destruct (pool_reachable_ok _ (view_reachable _ Hr')) as [Hrow Hcount].
  split_and!; [by apply view_reachable|by apply view_step|by apply merged_view|done..].
Qed.
End TreeSpec.

(** *** Witness: the last of two chunks is answered *)

Lemma two_chunks_announced :
  tree_reachable (mkTreeRun (mkProofTree [(0, InProgress []); (1, InProgress [])]) 2 0
    : TreeRun string).
Proof.
  unfold tree_reachable, tree_run_init.
  eapply rtc_l; [by apply tree_step_init|]. eapply rtc_l; [by apply tree_step_init|]. apply rtc_refl.
Qed.

Lemma tree_refines_pool_witness :
  rtc pool_step (mkPool [Busy 0 0 1; Busy 1 1 2] 2 0)
    (mkPool [Busy 0 0 1; Done (mkIndexedProof "p1" 1 1)] 2 0).
Proof.
  destruct (tree_refines_pool _
    (mkTreeRun (mkProofTree [(0, InProgress []); (1, Proved (mkIndexedProof "p1" 1 1))]) 2 0)
    two_chunks_announced) as (_ & Hsteps & _).
  - apply (tree_step_proof _ _ _ 1 1 2 (mkIndexedProof "p1" 1 1) _ None); [right; by left|reflexivity..].
  - exact Hsteps.
Defined.
