(* ===== verification/PicoVM.v ===== *)
(** * What the service calls of [pico_vm] (and the [types.rs] aliases)

    [pico_vm] is not part of the repository: its types and entry points are
    the fields of a class, which every definition that uses them takes as an
    argument.  A call that can panic has a [foreign] result.  Nothing is
    assumed of the fields here; the theorems that need a property of the
    prover state it as a named hypothesis.

    [symbolic_pico] is a small concrete instance (a proof is the list of the
    chunks it covers) on which the witnesses are evaluated. *)

From S2P Require Import Prelude.

Class PicoVM : Type := {
  (* types.rs: [SC], [EmbedSC], [Val] and what is built from them *)
  StarkConfig : Type;                     (* SC = KoalaBearPoseidon2 *)
  EmbedStarkConfig : Type;                (* EmbedSC = KoalaBearBn254Poseidon2 *)
  Val : Type;
  SC_default : StarkConfig;
  SC_compress : StarkConfig;
  EmbedSC_default : EmbedStarkConfig;
  Val_ZERO : Val;
  DIGEST_SIZE : nat;
  COMBINE_SIZE : nat;
  RISCV_NUM_PVS : Z;
  RECURSION_NUM_PVS : Z;

  (* keys and proofs *)
  BaseProvingKey : Type;                  (* BaseProvingKey<SC> *)
  BaseVerifyingKey : Type;                (* BaseVerifyingKey<SC> *)
  BaseProof : Type;
  MetaProof : Type;                       (* MetaProof<SC> *)
  MetaProof_vks : MetaProof → list BaseVerifyingKey;
  MetaProof_proofs : MetaProof → list BaseProof;
  EmbedVerifyingKey : Type;
  EmbedBaseProof : Type;
  EmbedMetaProof : Type;                  (* MetaProof<EmbedSC> *)
  EmbedMetaProof_vks : EmbedMetaProof → list EmbedVerifyingKey;
  EmbedMetaProof_proofs : EmbedMetaProof → list EmbedBaseProof;

  (* the verifying-key manager *)
  VkMerkleManager : Type;
  static_vk_manager : VkMerkleManager;
  vk_verification_enabled : VkMerkleManager → bool;
  merkle_root : VkMerkleManager → list Val;

  (* RISC-V and convert machines *)
  RiscvChips : Type;
  RiscvChip_all : RiscvChips;
  RecursionChips : Type;
  RecursionChip_all : RecursionChips;
  RecursionChip_compress : RecursionChips;
  RecursionChip_embed : RecursionChips;
  RecursionShape : Type;
  RecursionChip_compress_shape : RecursionShape;
  RiscvShapeConfig : Type;
  RiscvShapeConfig_default : RiscvShapeConfig;
  RecursionShapeConfig : Type;
  RecursionShapeConfig_default : RecursionShapeConfig;
  RiscvMachine : Type;
  RiscvMachine_new : StarkConfig → RiscvChips → Z → RiscvMachine;
  ConvertMachine : Type;
  ConvertMachine_new : StarkConfig → RecursionChips → Z → ConvertMachine;
  Challenger : Type;
  RiscvMachine_challenger : RiscvMachine → Challenger;
  pk_observed_by : BaseProvingKey → Challenger → Challenger;
  EmulationRecord : Type;
  record_is_last : EmulationRecord → bool;
  RiscvProof : Type;
  prove_record : RiscvMachine → Z → BaseProvingKey → Challenger →
    option RiscvShapeConfig → EmulationRecord → foreign RiscvProof;
  RiscvBaseMachine : Type;
  RiscvMachine_base_machine : RiscvMachine → RiscvBaseMachine;
  EmulatorOpts : Type;
  EmulatorOpts_default : EmulatorOpts;
  ConvertStdin : Type;
  setup_for_convert_with_index : BaseVerifyingKey → list Val → list Val →
    RiscvBaseMachine → RiscvProof → option RecursionShapeConfig → Z → bool →
    foreign ConvertStdin;
  ConvertWitness : Type;
  setup_for_convert : ConvertStdin → StarkConfig → EmulatorOpts → ConvertWitness;
  KoalaBearPoseidon2_new : StarkConfig;
  prove_with_index : ConvertMachine → Z → ConvertWitness → foreign MetaProof;

  (* combine machine *)
  CombineMachine : Type;
  CombineMachine_new : StarkConfig → RecursionChips → Z → CombineMachine;
  prove_two : CombineMachine → MetaProof → MetaProof → bool → foreign MetaProof;
  CombineMachine_verify : CombineMachine → MetaProof → BaseVerifyingKey → result unit string;

  (* recursion programs: compress and embed *)
  RecursionBaseMachine : Type;
  CombineMachine_base_machine : CombineMachine → RecursionBaseMachine;
  RecursionStdin : Type;
  RecursionStdin_new : RecursionBaseMachine → list BaseVerifyingKey → list BaseProof →
    bool → list Val → RecursionStdin;
  RecursionVkStdin : Type;
  add_vk_merkle_proof : VkMerkleManager → RecursionStdin → foreign RecursionVkStdin;
  RecursionStdinVariant : Type;
  WithVk : RecursionVkStdin → RecursionStdinVariant;
  NoVk : RecursionStdin → RecursionStdinVariant;
  RecursionProgram : Type;
  RecursionProgram_set_shape : RecursionProgram → RecursionShape → RecursionProgram;
  CompressVkVerifierCircuit_build : RecursionBaseMachine → RecursionVkStdin → foreign RecursionProgram;
  CompressVerifierCircuit_build : RecursionBaseMachine → RecursionStdin → foreign RecursionProgram;
  EmbedVkVerifierCircuit_build :
    RecursionBaseMachine → RecursionVkStdin → VkMerkleManager → foreign RecursionProgram;
  EmbedVerifierCircuit_build : RecursionBaseMachine → RecursionStdin → foreign RecursionProgram;
  WitnessStream : Type;
  Witnessable_write : RecursionStdinVariant → WitnessStream;
  Perm : Type;
  RuntimeRecord : Type;
  CompressMachine : Type;
  CompressMachine_new : StarkConfig → RecursionChips → Z → CompressMachine;
  CompressMachine_base_machine : CompressMachine → RecursionBaseMachine;
  CompressMachine_perm : CompressMachine → Perm;
  CompressMachine_chips : CompressMachine → RecursionChips;
  (* [Runtime::new(program, perm)] with the given witness stream, [run()] and
     the record it leaves; the embed runtime has another challenge type *)
  compress_runtime_run : RecursionProgram → Perm → WitnessStream →
    foreign (result RuntimeRecord string);
  embed_runtime_run : RecursionProgram → Perm → WitnessStream →
    foreign (result RuntimeRecord string);
  compress_complement_record : RecursionChips → RuntimeRecord → RuntimeRecord;
  CompressPk : Type;
  CompressMachine_setup_keys : CompressMachine → RecursionProgram →
    foreign (CompressPk * BaseVerifyingKey);
  CompressWitness : Type;
  compress_setup_with_keys_and_records :
    CompressPk → BaseVerifyingKey → list RuntimeRecord → CompressWitness;
  CompressMachine_prove : CompressMachine → CompressWitness → foreign MetaProof;
  CompressMachine_verify : CompressMachine → MetaProof → BaseVerifyingKey → result unit string;
  EmbedMachine : Type;
  EmbedMachine_new : EmbedStarkConfig → RecursionChips → Z → EmbedMachine;
  EmbedMachine_chips : EmbedMachine → RecursionChips;
  embed_complement_record : RecursionChips → RuntimeRecord → RuntimeRecord;
  EmbedPk : Type;
  EmbedMachine_setup_keys : EmbedMachine → RecursionProgram →
    foreign (EmbedPk * EmbedVerifyingKey);
  EmbedWitness : Type;
  embed_setup_with_keys_and_records :
    EmbedPk → EmbedVerifyingKey → list RuntimeRecord → EmbedWitness;
  EmbedMachine_prove : EmbedMachine → EmbedWitness → foreign EmbedMetaProof;
  EmbedMachine_verify : EmbedMachine → EmbedMetaProof → BaseVerifyingKey → result unit string;

  (* emulation *)
  Program : Type;
  StdinBuilder : Type;                    (* EmulatorStdinBuilder<Vec<u8>, SC> *)
  EmulatorStdin_new_builder : StdinBuilder;
  bincode_deserialize_stdin : bytes → result StdinBuilder string;
  Stdin : Type;
  StdinBuilder_finalize : StdinBuilder → Stdin;
  RiscvMachine_setup_keys : RiscvMachine → Program → foreign (BaseProvingKey * BaseVerifyingKey);
  EmulatorOpts_bench_riscv_ops : EmulatorOpts;
  chunk_batch_size : EmulatorOpts → Z;
  RiscvWitness : Type;
  setup_for_riscv : Program → Stdin → EmulatorOpts → BaseProvingKey → BaseVerifyingKey →
    RiscvWitness;
  witness_opts : RiscvWitness → option EmulatorOpts;
  MetaEmulator : Type;
  MetaEmulator_setup_riscv : RiscvWitness → foreign MetaEmulator;
  (* one batch: the records passed to the callback in order, then
     [report.done] and the emulator afterwards, or a panic *)
  next_record_batch : MetaEmulator → list EmulationRecord * foreign (bool * MetaEmulator);
}.

(** A symbolic prover.  A proof is the list of the chunks it covers; a
    verifying key is the number of chunks of the whole execution, and
    verification accepts exactly the proof of all of them in order. *)
#[export] Instance symbolic_pico : PicoVM := {|
  StarkConfig := unit; EmbedStarkConfig := unit; Val := Z;
  SC_default := tt; SC_compress := tt; EmbedSC_default := tt; Val_ZERO := 0;
  DIGEST_SIZE := 8; COMBINE_SIZE := 2; RISCV_NUM_PVS := 0; RECURSION_NUM_PVS := 0;
  BaseProvingKey := unit; BaseVerifyingKey := Z; BaseProof := list Z;
  MetaProof := list Z; MetaProof_vks := λ _, [0]; MetaProof_proofs := λ p, [p];
  EmbedVerifyingKey := unit; EmbedBaseProof := list Z; EmbedMetaProof := list Z;
  EmbedMetaProof_vks := λ _, [tt]; EmbedMetaProof_proofs := λ p, [p];
  VkMerkleManager := bool; static_vk_manager := true;
  vk_verification_enabled := id; merkle_root := λ _, replicate 8 7;
  RiscvChips := unit; RiscvChip_all := tt;
  RecursionChips := unit; RecursionChip_all := tt; RecursionChip_compress := tt;
  RecursionChip_embed := tt; RecursionShape := unit; RecursionChip_compress_shape := tt;
  RiscvShapeConfig := unit; RiscvShapeConfig_default := tt;
  RecursionShapeConfig := unit; RecursionShapeConfig_default := tt;
  RiscvMachine := unit; RiscvMachine_new := λ _ _ _, tt;
  ConvertMachine := unit; ConvertMachine_new := λ _ _ _, tt;
  Challenger := unit; RiscvMachine_challenger := λ _, tt; pk_observed_by := λ _ _, tt;
  EmulationRecord := bool; record_is_last := id; RiscvProof := list Z;
  prove_record := λ _ i _ _ _ _, inl [i];
  RiscvBaseMachine := unit; RiscvMachine_base_machine := λ _, tt;
  EmulatorOpts := Z; EmulatorOpts_default := 1;
  ConvertStdin := list Z;
  setup_for_convert_with_index := λ vk _ _ _ p _ _ _,
    if decide (vk < 0) then inr "invalid verifying key" else inl p;
  ConvertWitness := list Z; setup_for_convert := λ p _ _, p; KoalaBearPoseidon2_new := tt;
  prove_with_index := λ _ _ w, inl w;
  CombineMachine := unit; CombineMachine_new := λ _ _ _, tt;
  prove_two := λ _ a b _, inl (a ++ b);
  CombineMachine_verify := λ _ _ _, Ok tt;
  RecursionBaseMachine := unit; CombineMachine_base_machine := λ _, tt;
  RecursionStdin := list Z; RecursionStdin_new := λ _ _ ps _ _, mjoin ps;
  RecursionVkStdin := list Z; add_vk_merkle_proof := λ _ s, inl s;
  RecursionStdinVariant := list Z; WithVk := id; NoVk := id;
  RecursionProgram := unit; RecursionProgram_set_shape := λ _ _, tt;
  CompressVkVerifierCircuit_build := λ _ _, inl tt;
  CompressVerifierCircuit_build := λ _ _, inl tt;
  EmbedVkVerifierCircuit_build := λ _ _ _, inl tt;
  EmbedVerifierCircuit_build := λ _ _, inl tt;
  WitnessStream := list Z; Witnessable_write := id; Perm := unit; RuntimeRecord := list Z;
  CompressMachine := unit; CompressMachine_new := λ _ _ _, tt;
  CompressMachine_base_machine := λ _, tt; CompressMachine_perm := λ _, tt;
  CompressMachine_chips := λ _, tt;
  compress_runtime_run := λ _ _ w, inl (Ok w);
  embed_runtime_run := λ _ _ w, inl (Ok w);
  compress_complement_record := λ _ r, r;
  CompressPk := unit; CompressMachine_setup_keys := λ _ _, inl (tt, 0);
  CompressWitness := list Z; compress_setup_with_keys_and_records := λ _ _ rs, mjoin rs;
  CompressMachine_prove := λ _ w, inl w; CompressMachine_verify := λ _ _ _, Ok tt;
  EmbedMachine := unit; EmbedMachine_new := λ _ _ _, tt; EmbedMachine_chips := λ _, tt;
  embed_complement_record := λ _ r, r;
  EmbedPk := unit; EmbedMachine_setup_keys := λ _ _, inl (tt, tt);
  EmbedWitness := list Z; embed_setup_with_keys_and_records := λ _ _ rs, mjoin rs;
  EmbedMachine_prove := λ _ w, inl w;
  EmbedMachine_verify := λ _ p n,
    if decide (p = seqZ 0 n) then Ok tt else Err "incomplete proof";
  Program := Z;                           (* the number of chunks it emulates to *)
  StdinBuilder := list Z; EmulatorStdin_new_builder := [];
  bincode_deserialize_stdin := λ bs, match bs with [] => Err "io error" | _ :: b => Ok b end;
  Stdin := list Z; StdinBuilder_finalize := id;
  RiscvMachine_setup_keys := λ _ n, inl (tt, n);
  EmulatorOpts_bench_riscv_ops := 1; chunk_batch_size := id;
  RiscvWitness := Z; setup_for_riscv := λ n _ _ _ _, n; witness_opts := λ _, Some 1;
  MetaEmulator := Z; MetaEmulator_setup_riscv := λ n, inl n;
  next_record_batch := λ n, ([bool_decide (n ≤ 1)], inl (bool_decide (n ≤ 1), n - 1));
|}.
