(* ===== verification/Messages.v ===== *)
(** * The messages of the proving pipeline ([src/src/proving/messages/]) *)

From S2P Require Import Prelude ProofTree PicoVM.

Section Messages.
Context `{PicoVM}.

(** riscv.rs *)
Record RiscvRequest : Type := mkRiscvRequest {
  riscv_req_chunk_index : Z;
  riscv_req_record : EmulationRecord;
}.

Record RiscvResponse : Type := mkRiscvResponse {
  riscv_res_chunk_index : Z;
  riscv_res_proof : IndexedProof MetaProof;
}.

Inductive RiscvMsg : Type :=
  | RiscvMsg_Request (req : RiscvRequest)
  | RiscvMsg_Response (res : RiscvResponse).

(** combine.rs *)
Record CombineRequest : Type := mkCombineRequest {
  combine_req_flag_complete : bool;
  combine_req_chunk_index : Z;
  combine_req_proofs : list (IndexedProof MetaProof);
}.

Record CombineResponse : Type := mkCombineResponse {
  combine_res_chunk_index : Z;
  combine_res_proof : IndexedProof MetaProof;
}.

Inductive CombineMsg : Type :=
  | CombineMsg_Request (req : CombineRequest)
  | CombineMsg_Response (res : CombineResponse).

(** compress.rs *)
Record CompressRequest : Type := mkCompressRequest {
  compress_req_chunk_index : Z;
  compress_req_proof : IndexedProof MetaProof;
}.

Record CompressResponse : Type := mkCompressResponse {
  compress_res_chunk_index : Z;
  compress_res_proof : IndexedProof MetaProof;
}.

(** embed.rs *)
Record EmbedRequest : Type := mkEmbedRequest {
  embed_req_chunk_index : Z;
  embed_req_proof : IndexedProof MetaProof;
}.

Record EmbedResponse : Type := mkEmbedResponse {
  embed_res_chunk_index : Z;
  embed_res_proof : IndexedProof EmbedMetaProof;
}.

(** gateway.rs; [TaskId] and [IpAddr] are [String]. *)
Inductive GatewayMsg : Type :=
  | EmulatorComplete
  | RequestTask
  | Riscv (msg : RiscvMsg) (task_id : string) (ip_addr : string)
  | Combine (msg : CombineMsg) (task_id : string) (ip_addr : string)
  | Embed (proof : EmbedMetaProof)
  | Close (ip_addr : string)
  | Exit.

Definition ip_addr (self : GatewayMsg) : string :=
  match self with
  | EmulatorComplete | RequestTask | Exit | Embed _ => ""
  | Riscv _ _ ip_addr => ip_addr
  | Combine _ _ ip_addr => ip_addr
  | Close ip_addr => ip_addr
  end.
End Messages.
