(* ===== verification/GatewayHandler.v ===== *)
(** * The gateway's message handler ([src/src/proving/gateway/handler/mod.rs])

    [GatewayHandler] owns the proof tree; [process] is its transition
    function.  Logging is not modelled. *)

From S2P Require Import Prelude BTreeMap ProofTree PicoVM Messages.

Section GatewayHandler.
Context `{PicoVM}.

Record GatewayHandler : Type := mkGatewayHandler {
  emulator_complete : bool;
  proof_tree : ProofTree MetaProof;
  embed_proof : option EmbedMetaProof;
}.

Definition GatewayHandler_new : GatewayHandler :=
  mkGatewayHandler false ProofTree_default None.

Definition complete (self : GatewayHandler) : bool :=
  bool_decide (is_Some (embed_proof self)).

Definition get_embed_proof (self : GatewayHandler) : option EmbedMetaProof :=
  embed_proof self.

Definition set_embed_proof (self : GatewayHandler) (proof : EmbedMetaProof) : GatewayHandler :=
  mkGatewayHandler (emulator_complete self) (proof_tree self) (Some proof).

Definition with_tree (self : GatewayHandler) (t : ProofTree MetaProof) : GatewayHandler :=
  mkGatewayHandler (emulator_complete self) t (embed_proof self).

Definition process_riscv_req (self : GatewayHandler) (msg : GatewayMsg) :
    outcome (GatewayHandler * result (option GatewayMsg) string) :=
  match msg with
  | Riscv (RiscvMsg_Request req) _ _ =>
      (* save the placeholder for the processing proof *)
      t ← init_node (proof_tree self) (riscv_req_chunk_index req);
      Ret (with_tree self t, Ok None)
  | Riscv _ _ _ => panic_with "unexpected message in process_riscv_req"
  | _ => panic_with "unsupported"
  end.

(** The state change of [process] and the proofs to combine, if any. *)
Definition process_update (self : GatewayHandler) (msg : GatewayMsg) :
    outcome (GatewayHandler * option (Z * list (IndexedProof MetaProof))) :=
  match msg with
  | EmulatorComplete =>
      Ret (mkGatewayHandler true (proof_tree self) (embed_proof self), None)
  | Riscv (RiscvMsg_Request req) _ _ =>
      t ← init_node (proof_tree self) (riscv_req_chunk_index req);
      Ret (with_tree self t, None)
  | Riscv (RiscvMsg_Response (mkRiscvResponse chunk_index proof)) _ _ =>
      '(t, proofs) ← set_proof (proof_tree self) chunk_index proof;
      Ret (with_tree self t, option_map (pair chunk_index) proofs)
  | Combine (CombineMsg_Response (mkCombineResponse chunk_index proof)) _ _ =>
      '(t, proofs) ← set_proof (proof_tree self) chunk_index proof;
      Ret (with_tree self t, option_map (pair chunk_index) proofs)
  | Embed proof => Ret (set_embed_proof self proof, None)
  | _ => panic_with "unsupported"
  end.

Definition process (self : GatewayHandler) (msg : GatewayMsg) :
    outcome (GatewayHandler * result (option GatewayMsg) string) :=
  '(self, index_proofs_to_combine) ← process_update self msg;
  (* check if proving is completely done (embed completed) *)
  if complete self then Ret (self, Ok (Some Exit))
  else
    match index_proofs_to_combine with
    | Some (chunk_index, proofs) =>
        _ ← rust_assert (bool_decide (length proofs = 2%nat))
              "assertion `left == right` failed";
        Ret (self, Ok (Some (Combine
          (CombineMsg_Request (mkCombineRequest
             (bool_decide (ProofTree_len (proof_tree self) = 1)) chunk_index proofs))
          (usize_to_string chunk_index) "")))
    | None => Ret (self, Ok None)
    end.

(** The proof a message carries for an outstanding ticket of the tree. *)
Definition answer_of (msg : GatewayMsg) : option (Z * IndexedProof MetaProof) :=
  match msg with
  | Riscv (RiscvMsg_Response res) _ _ =>
      Some (riscv_res_chunk_index res, riscv_res_proof res)
  | Combine (CombineMsg_Response res) _ _ =>
      Some (combine_res_chunk_index res, combine_res_proof res)
  | _ => None
  end.

(** The combine request for two proofs, as [process] builds it. *)
Definition combine_request_msg (k : Z) (flag : bool) (a b : IndexedProof MetaProof) :
    GatewayMsg :=
  Combine (CombineMsg_Request (mkCombineRequest flag k [a; b])) (usize_to_string k) "".

(** Both kinds of response are handled the same way. *)
Lemma process_answer self msg k p :
  answer_of msg = Some (k, p) → embed_proof self = None →
  process self msg =
    '(t, o) ← set_proof (proof_tree self) k p;
    match o with
    | None => Ret (with_tree self t, Ok None)
    | Some proofs =>
        _ ← rust_assert (bool_decide (length proofs = 2%nat))
              "assertion `left == right` failed";
        Ret (with_tree self t, Ok (Some (Combine
          (CombineMsg_Request (mkCombineRequest
             (bool_decide (ProofTree_len t = 1)) k proofs)) (usize_to_string k) "")))
    end.
Proof.
  intros Ha Hn. unfold process, process_update.
  destruct msg as [| |[?|[k' p']] ? ?|[?|[k' p']] ? ?| | |]; simpl in Ha; simplify_eq;
    (destruct (set_proof (proof_tree self) k p) as [[t [proofs|]]|]; simpl;
     unfold complete; simpl; rewrite ?Hn; done).
Qed.

(** What [process] does to a well-formed handler answered on a ticket. *)
Lemma process_answer_spec self msg hi k p :
  answer_of msg = Some (k, p) → embed_proof self = None →
  tree_wf (proof_tree self) hi →
  (k, start_chunk p, end_chunk p + 1) ∈ tickets (tree (proof_tree self)) →
  ∃ t' o rest,
    tree_wf t' hi ∧
    tickets (tree (proof_tree self)) ≡ₚ (k, start_chunk p, end_chunk p + 1) :: rest ∧
    set_proof_post (proof_tree self) k (start_chunk p) (end_chunk p + 1) p t' o rest ∧
    process self msg = Ret (with_tree self t', Ok
      match o with
      | Some [a; b] => Some (combine_request_msg k
          (bool_decide (start_chunk a = 0 ∧ end_chunk b + 1 = hi)) a b)
      | _ => None
      end).
Proof.
  intros Ha Hn Hwf Hin. rewrite (process_answer _ _ _ _ Ha Hn).
  destruct (set_proof_spec _ hi k _ _ p Hwf Hin) as (t' & o & rest & -> & Hwf' & Htk & Hpost);
    [done..|].
  exists t', o, rest. do 3 (split; [done|]). destruct o as [ps|]; [|done].
  destruct Hpost as (a & b & q & -> & _ & _ & _ & _ & _ & Htk' & _). simpl.
  assert (Hin' : (k, start_chunk a, end_chunk b + 1) ∈ tickets (tree t')) by (rewrite Htk'; by left).
  destruct (ticket_covers_all t' hi _ _ _ Hwf' Hin') as [Hiff _].
  by rewrite (bool_decide_ext _ _ Hiff).
Qed.

(** C28: a handler that has stored no embed proof turns the answer to an
    outstanding ticket into at most one combine request, never panicking;
    the request carries two adjacent proofs, is for the node being
    answered, and has [flag_complete] set exactly when the two proofs
    together cover every chunk initialised so far. *)
Theorem process_answer_request self msg hi k p :
  answer_of msg = Some (k, p) → embed_proof self = None →
  tree_wf (proof_tree self) hi →
  (k, start_chunk p, end_chunk p + 1) ∈ tickets (tree (proof_tree self)) →
  ∃ self' reply, process self msg = Ret (self', Ok reply) ∧
    tree_wf (proof_tree self') hi ∧
    emulator_complete self' = emulator_complete self ∧ embed_proof self' = None ∧
    (reply = None ∨ ∃ a b,
      reply = Some (combine_request_msg k
                (bool_decide (start_chunk a = 0 ∧ end_chunk b + 1 = hi)) a b) ∧
      end_chunk a + 1 = start_chunk b ∧
      start_chunk a ≤ start_chunk p ∧ end_chunk p ≤ end_chunk b).
Proof.
  intros Ha Hn Hwf Hin.
  destruct (process_answer_spec _ _ _ _ _ Ha Hn Hwf Hin)
    as (t' & o & rest & Hwf' & _ & Hpost & E).
  eexists _, _. split; [exact E|]. split; [done|]. split; [done|]. split; [done|].
  destruct o as [ps|]; [right|by left].
  destruct Hpost as (a & b & q & -> & _ & Hadj & Hs & He & _).
  exists a, b. split_and!; [done..|lia].
Qed.

End GatewayHandler.

(** A handler with two chunks, the first one proved. *)
Definition half_handler : @GatewayHandler symbolic_pico :=
  mkGatewayHandler false
    (mkProofTree [(0, Proved (mkIndexedProof [0] 0 0)); (1, InProgress [])]) None.

Definition second_reply : @GatewayMsg symbolic_pico :=
  Riscv (RiscvMsg_Response (mkRiscvResponse 1 (mkIndexedProof [1] 1 1))) "1" "".

Lemma half_handler_wf : tree_wf (proof_tree half_handler) 2.
Proof. split; [|done]. exists 1. split; [done|]. split; [lia|]. exists 2. split; [done|]. by split; [lia|]. Qed.

Lemma process_answer_request_witness :
  ∃ self' reply, process half_handler second_reply = Ret (self', Ok reply) ∧
    tree_wf (proof_tree self') 2.
Proof.
  destruct (process_answer_request half_handler second_reply 2 1 (mkIndexedProof [1] 1 1)
    eq_refl eq_refl half_handler_wf ltac:(by left)) as (self' & reply & E & Hwf & _).
  exists self', reply. split; [exact E|exact Hwf].
Defined.
