(* ===== verification/Task.v ===== *)
(** * Proving tasks, keys and outputs ([src/src/proving_queue.rs], data part) *)

From S2P Require Import Prelude PicoVM.

Record ProvingKey : Type := mkProvingKey {
  key_app_id : string;
  key_task_id : string;
}.

Definition ProvingKey_new (app_id task_id : string) : ProvingKey := mkProvingKey app_id task_id.

Definition app_id (self : ProvingKey) : string := key_app_id self.
Definition task_id (self : ProvingKey) : string := key_task_id self.

#[export] Instance ProvingKey_eq_dec : EqDecision ProvingKey.
Proof. solve_decision. Defined.

#[export] Instance ProvingKey_countable : Countable ProvingKey.
Proof.
  refine (inj_countable' (λ k, (key_app_id k, key_task_id k)) (λ p, mkProvingKey p.1 p.2) _).
  by intros [].
Defined.

(** The [Arc]s around the program and the keys are immutable and shared, so
    they are the values themselves. *)
Section ProvingTask.
Context `{PicoVM}.

Record ProvingTask : Type := mkProvingTask {
  task_key : ProvingKey;
  task_program : Program;
  task_pk : BaseProvingKey;
  task_vk : BaseVerifyingKey;
  task_inputs : option bytes;
  task_use_gpu : bool;
}.
End ProvingTask.

Record ProvingOutput : Type := mkProvingOutput { output_proof : bytes }.
