(* ===== verification/Inputs.v ===== *)
(** * The input files ([bin/gen_input_example.rs], [bin/normalize_reth_inputs.rs])

    The inputs of a task are a serialised stdin builder.  Two tools make such
    files: one from four example values, one from the input of the block
    executor.  The file system is an interface; a tool is a computation on
    it that returns, fails or panics. *)

From S2P Require Import Prelude PicoVM.

(** ** The file system ([std::fs]) *)

Class FileSystem (F : Type) : Type := {
  fs_read : F → string → result bytes string;
  fs_write : F → string → bytes → F * result unit string;
  fs_create : F → string → F * result unit string;          (* [File::create] *)
  fs_create_dir_all : F → string → F * result unit string;
  fs_files : F → gmap string bytes;                         (* the contents *)
}.

(** A write replaces the file, and when it fails may leave anything in it; no
    other file changes.  A path is its text and a file is its path: two
    spellings of one path ([a] and [./a]) and links to one file, which
    [std::fs] resolves, are outside of this interface, so what is proved on
    it supposes that different paths name different files. *)
Class FileSystemSpec (F : Type) `{!FileSystem F} : Prop := {
  fs_read_ok fs path bs : fs_read fs path = Ok bs ↔ fs_files fs !! path = Some bs;
  fs_write_ok fs path bs fs' :
    fs_write fs path bs = (fs', Ok tt) → fs_files fs' = <[path := bs]> (fs_files fs);
  fs_write_other fs path bs path' :
    path' ≠ path → fs_files (fs_write fs path bs).1 !! path' = fs_files fs !! path';
  fs_create_ok fs path fs' :
    fs_create fs path = (fs', Ok tt) → fs_files fs' = <[path := []]> (fs_files fs);
  fs_create_other fs path path' :
    path' ≠ path → fs_files (fs_create fs path).1 !! path' = fs_files fs !! path';
  fs_create_dir_all_files fs path : fs_files (fs_create_dir_all fs path).1 = fs_files fs;
}.

(** A map is such a file system. *)
#[export] Instance map_fs : FileSystem (gmap string bytes) := {|
  fs_read fs path := match fs !! path with Some bs => Ok bs | None => Err "not found" end;
  fs_write fs path bs := (<[path := bs]> fs, Ok tt);
  fs_create fs path := (<[path := []]> fs, Ok tt);
  fs_create_dir_all fs _ := (fs, Ok tt);
  fs_files fs := fs;
|}.

#[export] Instance map_fs_spec : FileSystemSpec (gmap string bytes).
Proof.
  split; simpl; try done.
  - intros fs path bs. destruct (fs !! path); split; by intros [= ->].
  - by intros fs path bs fs' [= <-].
  - intros fs path bs path' Hne. by rewrite lookup_insert_ne.
  - by intros fs path fs' [= <-].
  - intros fs path path' Hne. by rewrite lookup_insert_ne.
Qed.

(** ** Computations on the file system *)

Section Io.
Context {F : Type}.

Definition io (A : Type) : Type := F → F * outcome (result A string).

Definition io_lift {A} (m : outcome (result A string)) : io A := λ fs, (fs, m).

(** A call of [std::fs]. *)
Definition io_call {A} (m : F → F * result A string) : io A :=
  λ fs, let '(fs, r) := m fs in (fs, Ret r).

(** [m?] and what follows. *)
Definition io_bind {A B} (m : io A) (k : A → io B) : io B := λ fs,
  match m fs with
  | (fs, Ret (Ok a)) => k a fs
  | (fs, Ret (Err e)) => (fs, Ret (Err e))
  | (fs, Panic p) => (fs, Panic p)
  end.

(** [m.unwrap()] *)
Definition io_unwrap {A} (m : io A) : io A := λ fs,
  match m fs with
  | (fs, Ret (Err _)) => (fs, panic_with "called `Result::unwrap()` on an `Err` value")
  | r => r
  end.

Lemma io_bind_ok {A B} (m : io A) (k : A → io B) fs fs' b :
  io_bind m k fs = (fs', Ret (Ok b)) →
  ∃ fs1 a, m fs = (fs1, Ret (Ok a)) ∧ k a fs1 = (fs', Ret (Ok b)).
Proof. unfold io_bind. destruct (m fs) as [fs1 [[a|e]|p]]; intros E; simplify_eq. eauto. Qed.

Lemma io_unwrap_ok {A} (m : io A) fs fs' a :
  io_unwrap m fs = (fs', Ret (Ok a)) → m fs = (fs', Ret (Ok a)).
Proof. unfold io_unwrap. by destruct (m fs) as [fs1 [[a'|e]|p]]. Qed.

Lemma io_lift_ok {A} (m : outcome (result A string)) fs fs' a :
  io_lift m fs = (fs', Ret (Ok a)) → fs' = fs ∧ m = Ret (Ok a).
Proof. unfold io_lift. by intros [= <- ->]. Qed.

Lemma io_call_ok {A} (m : F → F * result A string) fs fs' a :
  io_call m fs = (fs', Ret (Ok a)) → m fs = (fs', Ok a).
Proof. unfold io_call. destruct (m fs). by intros [= <- ->]. Qed.

(** A state property that every part of a computation keeps. *)
Definition io_keeps {A} (P : F → Prop) (m : io A) : Prop := ∀ fs, P fs → P (m fs).1.

Lemma io_keeps_bind {A B} P (m : io A) (k : A → io B) :
  io_keeps P m → (∀ a, io_keeps P (k a)) → io_keeps P (io_bind m k).
Proof.
  intros Hm Hk fs Hfs. unfold io_bind. specialize (Hm fs Hfs).
  destruct (m fs) as [fs1 [[a|e]|p]]; simpl in *; [by apply Hk|done..].
Qed.

Lemma io_keeps_unwrap {A} P (m : io A) : io_keeps P m → io_keeps P (io_unwrap m).
Proof.
  intros Hm fs Hfs. unfold io_unwrap. specialize (Hm fs Hfs). by destruct (m fs) as [fs1 [[a|e]|p]].
Qed.

Lemma io_keeps_lift {A} P (m : outcome (result A string)) : io_keeps P (io_lift m).
Proof. by intros fs Hfs. Qed.

Lemma io_keeps_call {A} (P : F → Prop) (m : F → F * result A string) :
  (∀ fs, P fs → P (m fs).1) → io_keeps P (io_call m).
Proof. intros Hm fs Hfs. unfold io_call. specialize (Hm fs Hfs). by destruct (m fs). Qed.
End Io.

Arguments io _ _ : clear implicits.

Notation "x ←! m ; k" := (io_bind m (λ x, k))
  (at level 20, m at level 100, k at level 200, right associativity) : rust_scope.

(** Peeling a successful computation off. *)
Ltac io_inv H :=
  lazymatch type of H with
  | io_bind _ _ _ = (_, Ret (Ok _)) =>
      let fs := fresh "fs" in let a := fresh "a" in let E := fresh "E" in
      apply io_bind_ok in H as (fs & a & E & H); io_inv E
  | io_unwrap _ _ = _ => apply io_unwrap_ok in H; io_inv H
  | io_lift _ _ = _ => apply io_lift_ok in H as [-> H]
  | io_call _ _ = _ => apply io_call_ok in H
  | _ => idtac
  end.

Create HintDb io.
#[export] Hint Resolve io_keeps_bind io_keeps_unwrap io_keeps_lift io_keeps_call : io.

(** ** What the tools write *)

(** The input of the block executor ([EthClientExecutorInput]). *)
Class ClientInputs : Type := {
  ClientInput : Type;
  bincode_deserialize_input : bytes → result ClientInput string;
}.

(** The arguments given to [stdin_builder.write], a method that is generic in
    a serialisable type.  The integers of [vec![1, 2, 3, 4]] have Rust's
    default type [i32]. *)
Inductive stdin_arg `{ClientInputs} : Type :=
  | Arg_bool (b : bool)
  | Arg_u32 (n : Z)
  | Arg_str (s : string)
  | Arg_vec_i32 (l : list Z)
  | Arg_input (input : ClientInput).

Class StdinWriter `{PicoVM, ClientInputs} : Type := {
  EmulatorStdinBuilder_default : StdinBuilder;
  StdinBuilder_write : StdinBuilder → stdin_arg → StdinBuilder;
  bincode_serialize_stdin : StdinBuilder → result bytes string;
}.

(** What [bincode] wrote it reads back; and the two constructors of a builder
    are the same. *)
Class StdinWriterSpec `{StdinWriter} : Prop := {
  stdin_roundtrip builder bs :
    bincode_serialize_stdin builder = Ok bs → bincode_deserialize_stdin bs = Ok builder;
  stdin_default_new : EmulatorStdinBuilder_default = EmulatorStdin_new_builder;
}.

(** The builder with one value written to it. *)
Definition stdin_of `{StdinWriter} (arg : stdin_arg) : StdinBuilder :=
  StdinBuilder_write EmulatorStdin_new_builder arg.

Section Inputs.
Context `{StdinWriter, FileSystem F}.

(** ** gen_input_example.rs *)

(** The steps the four functions share: write the value to a builder,
    serialise it, dump it. *)
Definition dump_input (path : string) (arg : stdin_arg) : io F unit :=
  let stdin_builder := StdinBuilder_write EmulatorStdin_new_builder arg in
  input ←! io_unwrap (io_lift (Ret (bincode_serialize_stdin stdin_builder)));
  io_unwrap (io_call (λ fs, fs_write fs path input)).

Definition generate_bool_input : io F unit := dump_input "bool_input.bin" (Arg_bool false).

Definition generate_u32_input : io F unit := dump_input "u32_input.bin" (Arg_u32 100).

Definition generate_string_input : io F unit :=
  dump_input "str_input.bin" (Arg_str "dummy string").

Definition generate_bytes_input : io F unit :=
  dump_input "bytes_input.bin" (Arg_vec_i32 [1; 2; 3; 4]).

Definition gen_input_example : io F unit :=
  _ ←! generate_bool_input;
  _ ←! generate_u32_input;
  _ ←! generate_string_input;
  generate_bytes_input.

(** ** normalize_reth_inputs.rs *)

Definition normalize_reth_inputs (input output : string) : io F unit :=
  (* load eth client input from input file *)
  input_file ←! io_call (λ fs, (fs, fs_read fs input));
  client_input ←! io_lift (Ret (bincode_deserialize_input input_file));
  (* write client input into stdin builder *)
  let stdin_builder := StdinBuilder_write EmulatorStdin_new_builder (Arg_input client_input) in
  (* store stdin builder into output file *)
  _ ←! io_call (λ fs, fs_create fs output);
  bs ←! io_lift (Ret (bincode_serialize_stdin stdin_builder));
  io_call (λ fs, fs_write fs output bs).

Context `{!FileSystemSpec F}.

Lemma dump_input_ok path arg fs fs' :
  dump_input path arg fs = (fs', Ret (Ok tt)) →
  ∃ bs, bincode_serialize_stdin (stdin_of arg) = Ok bs ∧ fs_files fs' = <[path := bs]> (fs_files fs).
Proof.
  unfold dump_input. intros E. io_inv E. io_inv E. injection E0 as E0. exists a. split; [done|].
  by apply fs_write_ok in E.
Qed.

(** The files a computation leaves alone. *)
Definition leaves {A} (path : string) (m : io F A) : Prop :=
  ∀ content, io_keeps (λ fs, fs_files fs !! path = content) m.

Lemma dump_input_leaves path arg path' : path' ≠ path → leaves path' (dump_input path arg).
Proof.
  intros Hne content. apply io_keeps_bind; [auto with io|]. intros bs.
  apply io_keeps_unwrap, io_keeps_call. intros fs Hfs. by rewrite fs_write_other.
Qed.

(** The example files and the values written to them. *)
Definition examples : list (string * stdin_arg) :=
  [("bool_input.bin", Arg_bool false); ("u32_input.bin", Arg_u32 100);
   ("str_input.bin", Arg_str "dummy string"); ("bytes_input.bin", Arg_vec_i32 [1; 2; 3; 4])].

Lemma dump_input_no_err path arg fs fs' e : dump_input path arg fs ≠ (fs', Ret (Err e)).
Proof.
  unfold dump_input, io_bind, io_unwrap, io_lift, io_call.
  destruct (bincode_serialize_stdin _); [|done]. destruct (fs_write _ _ _) as [? []]; done.
Qed.

Lemma io_bind_no_err {A B} (m : io F A) (k : A → io F B) :
  (∀ fs fs' e, m fs ≠ (fs', Ret (Err e))) → (∀ a fs fs' e, k a fs ≠ (fs', Ret (Err e))) →
  ∀ fs fs' e, io_bind m k fs ≠ (fs', Ret (Err e)).
Proof.
  intros Hm Hk fs fs' e. unfold io_bind. specialize (Hm fs).
  destruct (m fs) as [fs1 [[a|e']|p]]; [apply Hk|by destruct (Hm fs1 e')|done].
Qed.

Lemma normalize_ok fs fs' input output :
  normalize_reth_inputs input output fs = (fs', Ret (Ok tt)) →
  ∃ bs client_input bs',
    fs_files fs !! input = Some bs ∧ bincode_deserialize_input bs = Ok client_input ∧
    bincode_serialize_stdin (stdin_of (Arg_input client_input)) = Ok bs' ∧
    fs_files fs' = <[output := bs']> (fs_files fs).
Proof.
  intros E. unfold normalize_reth_inputs in E. do 5 io_inv E.
  injection E0 as <- Er. injection E1 as Ed. injection E3 as Es. destruct a1.
  apply fs_read_ok in Er. apply fs_write_ok in E. apply fs_create_ok in E2.
  exists a, a0, a2. do 3 (split; [done|]). by rewrite E, E2, insert_insert_eq.
Qed.

(** *** Properties *)

Context `{!StdinWriterSpec}.

(** C37: the values in the example files.  When the generator returns,
    [bool_input.bin] deserialises to a builder with exactly the boolean
    [false], [u32_input.bin] to one with the [u32] 100, [str_input.bin] to
    one with the string ["dummy string"], and [bytes_input.bin] to one with
    the [Vec<i32>] of 1, 2, 3 and 4: not with bytes, as the comments of
    [generate_bytes_input] and the name of the file have it, since nothing
    gives the literal another type than the default one.  The generator never
    returns an error (a failure is a panic), and whatever happens no file
    with another path changes. *)
Theorem gen_input_example_files fs fs' res :
  gen_input_example fs = (fs', res) →
  (res = Ret (Ok tt) → ∀ path arg, (path, arg) ∈ examples →
     ∃ bs, fs_files fs' !! path = Some bs ∧ bincode_deserialize_stdin bs = Ok (stdin_of arg)) ∧
  (∀ e, res ≠ Ret (Err e)) ∧
  (∀ path, path ∉ examples.*1 → fs_files fs' !! path = fs_files fs !! path).
Proof.
  intros E. split; [|split].
  - intros -> path arg Hin. unfold gen_input_example in E. do 3 io_inv E.
    destruct a, a0, a1. apply dump_input_ok in E, E0, E1, E2.
    destruct E0 as (b1 & S1 & F1), E1 as (b2 & S2 & F2), E2 as (b3 & S3 & F3), E as (b4 & S4 & F4).
    rewrite F3, F2, F1 in F4. clear F1 F2 F3. apply stdin_roundtrip in S1, S2, S3, S4.
    rewrite F4. unfold examples in Hin.
    repeat (apply elem_of_cons in Hin as [[= -> ->]|Hin];
      [eexists; split; [by rewrite ?lookup_insert_ne, lookup_insert_eq by done|done]|]). by apply elem_of_nil in Hin.
  - intros e ->. revert E. repeat (apply io_bind_no_err; [apply dump_input_no_err|intros []]).
    apply dump_input_no_err.
  - intros path Hpath. cut (leaves path gen_input_example).
    { intros Hl. by rewrite <- (Hl _ fs eq_refl), E. }
    unfold examples in Hpath. simpl in Hpath. rewrite !not_elem_of_cons in Hpath.
    destruct_and! Hpath. intros content.
    do 3 (apply io_keeps_bind; [by refine (dump_input_leaves _ _ path _ content)|intros []]).
    by refine (dump_input_leaves _ _ path _ content).
Qed.

(** Normalising a file.  When it succeeds the input file held a client
    input, the output file (which may be the input file itself) now holds a
    builder with that value, and no other file has changed; a file that does
    not deserialise is an error and changes nothing. *)
Theorem normalize_reth_inputs_file fs input output :
  (∀ fs', normalize_reth_inputs input output fs = (fs', Ret (Ok tt)) →
   ∃ bs client_input bs',
     fs_files fs !! input = Some bs ∧ bincode_deserialize_input bs = Ok client_input ∧
     bincode_serialize_stdin (stdin_of (Arg_input client_input)) = Ok bs' ∧
     bincode_deserialize_stdin bs' = Ok (stdin_of (Arg_input client_input)) ∧
     fs_files fs' = <[output := bs']> (fs_files fs)) ∧
  (∀ bs e, fs_files fs !! input = Some bs → bincode_deserialize_input bs = Err e →
   normalize_reth_inputs input output fs = (fs, Ret (Err e))).
Proof.
  split.
  - intros fs' (bs & client_input & bs' & Hin & Hd & Hs & Hf)%normalize_ok.
    exists bs, client_input, bs'. do 3 (split; [done|]). split; [by apply stdin_roundtrip|done].
  - intros bs e Hin He. unfold normalize_reth_inputs, io_bind, io_call, io_lift.
    apply fs_read_ok in Hin. by rewrite Hin, He.
Qed.
End Inputs.

(** *** Witnesses

    The input of a block is a byte; a builder lists what was written. *)

#[export] Instance byte_inputs : ClientInputs := {|
  ClientInput := Z;
  bincode_deserialize_input bs := match bs with [n] => Ok n | _ => Err "io error" end;
|}.

Definition arg_values (arg : stdin_arg) : list Z :=
  match arg with
  | Arg_bool b => [Z.b2z b]
  | Arg_u32 n => [n]
  | Arg_str s => Z.of_nat <$> (Ascii.nat_of_ascii <$> String.list_ascii_of_string s)
  | Arg_vec_i32 l => Z.of_nat (length l) :: l
  | Arg_input n => [n]
  end.

#[export] Instance symbolic_writer : @StdinWriter symbolic_pico byte_inputs := {|
  EmulatorStdinBuilder_default := [];
  StdinBuilder_write (b : list Z) arg := b ++ arg_values arg;
  bincode_serialize_stdin b := Ok (Z.of_nat (length b) :: b);
|}.

#[export] Instance symbolic_writer_spec : StdinWriterSpec.
Proof. split; [|done]. by intros b bs [= <-]. Qed.

Lemma gen_input_example_files_witness :
  (∃ bs, (gen_input_example (∅ : gmap string bytes)).1 !! "bool_input.bin" = Some bs ∧
    bincode_deserialize_stdin bs = Ok [0]) ∧
  ∃ bs, (gen_input_example (∅ : gmap string bytes)).1 !! "bytes_input.bin" = Some bs ∧
    bincode_deserialize_stdin bs = Ok [4; 1; 2; 3; 4].
Proof.
  assert (Hrun : gen_input_example (∅ : gmap string bytes) =
    ((gen_input_example (∅ : gmap string bytes)).1, Ret (Ok tt))) by (vm_compute; reflexivity).
  destruct (gen_input_example_files (∅ : gmap string bytes) _ _ Hrun) as [Hfiles _].
  split.
  - apply (Hfiles eq_refl "bool_input.bin" (Arg_bool false)). unfold examples. set_solver.
  - apply (Hfiles eq_refl "bytes_input.bin" (Arg_vec_i32 [1; 2; 3; 4])). unfold examples. set_solver.
Defined.

Lemma normalize_reth_inputs_file_witness :
  ∃ bs client_input bs', ({["a.bin" := [7]]} : gmap string bytes) !! "a.bin" = Some bs ∧
    bincode_deserialize_input bs = Ok client_input ∧
    bincode_deserialize_stdin bs' = Ok (stdin_of (Arg_input client_input)).
Proof.
  pose proof (normalize_reth_inputs_file ({["a.bin" := [7]]} : gmap string bytes) "a.bin" "a.bin") as Hnorm.
  destruct (proj1 Hnorm _ eq_refl) as (bs & ci & bs' & Hr & Hd & _ & Hb & _).
  exists bs, ci, bs'. split; [exact Hr|]. split; [exact Hd|exact Hb].
Defined.
