(* ===== verification/Provers.v ===== *)
(** * The four provers of a worker ([src/src/proving/worker/prover/])

    [RiscvConvert], [Combine], [Compress] and [Embed] model [riscv_convert.rs],
    [combine.rs], [compress.rs] and [embed.rs]: how each one feeds the
    machines of [pico_vm] and labels its result.  Logging and timing are not
    modelled. *)

From S2P Require Import Prelude ProofTree PicoVM Messages Task.

(** ** riscv_convert.rs *)
Module RiscvConvert.
Section RiscvConvert.
Context `{PicoVM}.

Record RiscvConvertProver : Type := mkRiscvConvertProver {
  prover_id : string;
  riscv_shape_config : option RiscvShapeConfig;
  recursion_shape_config : option RecursionShapeConfig;
  riscv_machine : RiscvMachine;
  convert_machine : ConvertMachine;
  pk : BaseProvingKey;
  riscv_vk : BaseVerifyingKey;
}.

Definition new (prover_id : string) (task : ProvingTask) : RiscvConvertProver :=
  let vk_enabled := vk_verification_enabled static_vk_manager in
  let riscv_shape_config := if vk_enabled then Some RiscvShapeConfig_default else None in
  let recursion_shape_config :=
    if vk_enabled then Some RecursionShapeConfig_default else None in
  let riscv_machine := RiscvMachine_new SC_default RiscvChip_all RISCV_NUM_PVS in
  let convert_machine := ConvertMachine_new SC_default RecursionChip_all RECURSION_NUM_PVS in
  mkRiscvConvertProver prover_id riscv_shape_config recursion_shape_config
    riscv_machine convert_machine (task_pk task) (task_vk task).

Definition process (self : RiscvConvertProver) (req : RiscvRequest) (vk_root : list Val) :
    outcome RiscvResponse :=
  let challenger := pk_observed_by (pk self) (RiscvMachine_challenger (riscv_machine self)) in
  let chunk_index := riscv_req_chunk_index req in
  let is_last_chunk := record_is_last (riscv_req_record req) in
  proof ← call_foreign (prove_record (riscv_machine self) chunk_index (pk self) challenger
            (riscv_shape_config self) (riscv_req_record req));
  let recursion_opts := EmulatorOpts_default in
  convert_stdin ← call_foreign (setup_for_convert_with_index (riscv_vk self) vk_root
                    (replicate DIGEST_SIZE Val_ZERO)
                    (RiscvMachine_base_machine (riscv_machine self)) proof
                    (recursion_shape_config self) chunk_index is_last_chunk);
  let convert_witness := setup_for_convert convert_stdin KoalaBearPoseidon2_new recursion_opts in
  proof ← call_foreign (prove_with_index (convert_machine self) (as_u32 chunk_index)
            convert_witness);
  let proof := IndexedProof_new proof chunk_index chunk_index in
  Ret (mkRiscvResponse chunk_index proof).

(** The response is for the chunk of the request, and so is its range. *)
Lemma process_chunk self req vk_root res :
  process self req vk_root = Ret res →
  riscv_res_chunk_index res = riscv_req_chunk_index req ∧
  start_chunk (riscv_res_proof res) = riscv_req_chunk_index req ∧
  end_chunk (riscv_res_proof res) = riscv_req_chunk_index req.
Proof.
  unfold process. intros E. bind_inv E. bind_inv E. bind_inv E. by simplify_eq.
Qed.

Lemma convert_panic self req vk_root p :
  process self req vk_root = Panic p → library_panic p.
Proof. unfold process. intros E. solve_library_panic. Qed.
End RiscvConvert.
End RiscvConvert.

(** ** combine.rs *)
Module CombineP.
Section Combine.
Context `{PicoVM, RustBuild}.

Record CombineProver : Type := mkCombineProver {
  prover_id : string;
  machine : CombineMachine;
}.

Definition new (prover_id : string) : CombineProver :=
  mkCombineProver prover_id
    (CombineMachine_new SC_default RecursionChip_all RECURSION_NUM_PVS).

(** [proofs[i]] *)
Definition index_proof (proofs : list (IndexedProof MetaProof)) (i : nat) :
    outcome (IndexedProof MetaProof) :=
  unwrap_option "index out of bounds" (proofs !! i).

Definition process (self : CombineProver) (req : CombineRequest) : outcome CombineResponse :=
  let '(mkCombineRequest flag_complete chunk_index proofs) := req in
  _ ← rust_assert (bool_decide (length proofs ≤ COMBINE_SIZE)%nat)
        "assertion failed: proofs.len() <= COMBINE_SIZE";
  a ← index_proof proofs 0;
  let start_a := start_chunk a in
  let end_a := end_chunk a in
  b ← index_proof proofs 1;
  let start_b := start_chunk b in
  let end_b := end_chunk b in
  next ← usize_add end_a 1;
  _ ← rust_assert (bool_decide (next = start_b)) "proofs are not adjacent: cannot combine";
  let meta_a := get_inner a in
  let meta_b := get_inner b in
  proof ← call_foreign (prove_two (machine self) meta_a meta_b flag_complete);
  let proof := IndexedProof_new proof start_a end_b in
  Ret (mkCombineResponse chunk_index proof).

Definition verify (self : CombineProver) (proof : MetaProof) (riscv_vk : BaseVerifyingKey) :
    result unit string :=
  CombineMachine_verify (machine self) proof riscv_vk.

(** On two adjacent proofs no guard fires. *)
Lemma process_adjacent self flag k a b :
  (2 ≤ COMBINE_SIZE)%nat → 0 ≤ end_chunk a < usize_max → end_chunk a + 1 = start_chunk b →
  process self (mkCombineRequest flag k [a; b]) =
    proof ← call_foreign (prove_two (machine self) (inner a) (inner b) flag);
    Ret (mkCombineResponse k (mkIndexedProof proof (start_chunk a) (end_chunk b))).
Proof.
  intros Hsz Ha Hadj. unfold process. simpl.
  rewrite bool_decide_true by (simpl; lia). simpl.
  rewrite usize_add_exact by lia. simpl. by rewrite bool_decide_true.
Qed.

Lemma process_range self flag k a b res :
  process self (mkCombineRequest flag k [a; b]) = Ret res →
  combine_res_chunk_index res = k ∧
  start_chunk (combine_res_proof res) = start_chunk a ∧
  end_chunk (combine_res_proof res) = end_chunk b.
Proof.
  unfold process. simpl. intros E. do 4 bind_inv E. by simplify_eq.
Qed.
End Combine.
End CombineP.

(** ** compress.rs *)
Module CompressP.
Section Compress.
Context `{PicoVM}.

Record CompressProver : Type := mkCompressProver {
  prover_id : string;
  machine : CompressMachine;
}.

Definition new (prover_id : string) : CompressProver :=
  mkCompressProver prover_id
    (CompressMachine_new SC_compress RecursionChip_all RECURSION_NUM_PVS).

Definition get_vk_root (vk_manager : VkMerkleManager) : list Val :=
  if vk_verification_enabled vk_manager then merkle_root vk_manager
  else replicate DIGEST_SIZE Val_ZERO.

(** The compress program and its stdin, with or without the vk proof. *)
Definition build_program (vk_manager : VkMerkleManager)
    (combine_machine_base : RecursionBaseMachine) (compress_stdin : RecursionStdin) :
    outcome (RecursionProgram * RecursionStdinVariant) :=
  if vk_verification_enabled vk_manager then
    compress_vk_stdin ← call_foreign (add_vk_merkle_proof vk_manager compress_stdin);
    compress_program ← call_foreign
      (CompressVkVerifierCircuit_build combine_machine_base compress_vk_stdin);
    let compress_program :=
      RecursionProgram_set_shape compress_program RecursionChip_compress_shape in
    Ret (compress_program, WithVk compress_vk_stdin)
  else
    compress_program ← call_foreign
      (CompressVerifierCircuit_build combine_machine_base compress_stdin);
    Ret (compress_program, NoVk compress_stdin).

Definition process (self : CompressProver) (req : CompressRequest) : outcome CompressResponse :=
  let '(mkCompressRequest chunk_index proof) := req in
  let vk_manager := static_vk_manager in
  let vk_root := get_vk_root vk_manager in
  let combine_machine := CombineMachine_new SC_default RecursionChip_all RECURSION_NUM_PVS in
  let combine_machine_base := CombineMachine_base_machine combine_machine in
  let compress_stdin := RecursionStdin_new combine_machine_base
    (MetaProof_vks (get_inner proof)) (MetaProof_proofs (get_inner proof)) true vk_root in
  '(compress_program, compress_stdin_variant) ←
    build_program vk_manager combine_machine_base compress_stdin;
  let witness_stream := Witnessable_write compress_stdin_variant in
  run ← call_foreign (compress_runtime_run compress_program
          (CompressMachine_perm (machine self)) witness_stream);
  record ← unwrap_result "called `Result::unwrap()` on an `Err` value" run;
  let record := compress_complement_record (CompressMachine_chips (machine self)) record in
  '(compress_pk, compress_vk) ←
    call_foreign (CompressMachine_setup_keys (machine self) compress_program);
  let compress_witness :=
    compress_setup_with_keys_and_records compress_pk compress_vk [record] in
  compress_proof ← call_foreign (CompressMachine_prove (machine self) compress_witness);
  let compress_proof := IndexedProof_new compress_proof chunk_index chunk_index in
  Ret (mkCompressResponse chunk_index compress_proof).

Definition verify (self : CompressProver) (proof : MetaProof) (riscv_vk : BaseVerifyingKey) :
    result unit string :=
  CompressMachine_verify (machine self) proof riscv_vk.

Lemma compress_panic self req p : process self req = Panic p → library_panic p.
Proof. destruct req. unfold process, build_program. intros E. solve_library_panic. Qed.
End Compress.
End CompressP.

(** ** embed.rs *)
Module EmbedP.
Section Embed.
Context `{PicoVM}.

Record EmbedProver : Type := mkEmbedProver {
  prover_id : string;
  machine : EmbedMachine;
}.

Definition new (prover_id : string) : EmbedProver :=
  mkEmbedProver prover_id
    (EmbedMachine_new EmbedSC_default RecursionChip_embed RECURSION_NUM_PVS).

Definition get_vk_root (vk_manager : VkMerkleManager) : list Val :=
  if vk_verification_enabled vk_manager then merkle_root vk_manager
  else replicate DIGEST_SIZE Val_ZERO.

(** The embed program and its stdin, with or without the vk proof. *)
Definition build_program (vk_manager : VkMerkleManager)
    (compress_machine_base : RecursionBaseMachine) (embed_stdin : RecursionStdin) :
    outcome (RecursionProgram * RecursionStdinVariant) :=
  if vk_verification_enabled vk_manager then
    embed_vk_stdin ← call_foreign (add_vk_merkle_proof vk_manager embed_stdin);
    embed_program ← call_foreign
      (EmbedVkVerifierCircuit_build compress_machine_base embed_vk_stdin vk_manager);
    Ret (embed_program, WithVk embed_vk_stdin)
  else
    embed_program ← call_foreign (EmbedVerifierCircuit_build compress_machine_base embed_stdin);
    Ret (embed_program, NoVk embed_stdin).

Definition process (self : EmbedProver) (req : EmbedRequest) : outcome EmbedResponse :=
  let '(mkEmbedRequest chunk_index proof) := req in
  let vk_manager := static_vk_manager in
  let vk_root := get_vk_root vk_manager in
  let compress_machine :=
    CompressMachine_new SC_compress RecursionChip_compress RECURSION_NUM_PVS in
  let compress_machine_base := CompressMachine_base_machine compress_machine in
  let embed_stdin := RecursionStdin_new compress_machine_base
    (MetaProof_vks (get_inner proof)) (MetaProof_proofs (get_inner proof)) true vk_root in
  '(embed_program, embed_stdin_variant) ←
    build_program vk_manager compress_machine_base embed_stdin;
  let witness_stream := Witnessable_write embed_stdin_variant in
  run ← call_foreign (embed_runtime_run embed_program
          (CompressMachine_perm compress_machine) witness_stream);
  record ← unwrap_result "called `Result::unwrap()` on an `Err` value" run;
  let record := embed_complement_record (EmbedMachine_chips (machine self)) record in
  '(embed_pk, embed_vk) ← call_foreign (EmbedMachine_setup_keys (machine self) embed_program);
  let embed_witness := embed_setup_with_keys_and_records embed_pk embed_vk [record] in
  embed_proof ← call_foreign (EmbedMachine_prove (machine self) embed_witness);
  let embed_proof := IndexedProof_new embed_proof chunk_index chunk_index in
  Ret (mkEmbedResponse chunk_index embed_proof).

Definition verify (self : EmbedProver) (proof : EmbedMetaProof) (riscv_vk : BaseVerifyingKey) :
    result unit string :=
  EmbedMachine_verify (machine self) proof riscv_vk.

Lemma embed_panic self req p : process self req = Panic p → library_panic p.
Proof. destruct req. unfold process, build_program. intros E. solve_library_panic. Qed.
End Embed.
End EmbedP.
