(* ===== verification/Worker.v ===== *)
(** * A worker ([src/src/proving/worker/prover/mod.rs])

    [Prover] bundles the four provers; [worker_handle] is one iteration of the
    loop of [ProverRunner::run], as the messages it sends, in order, and how
    the iteration ends. *)

From S2P Require Import Prelude ProofTree PicoVM Messages Task Provers GatewayHandler.

Section Worker.
Context `{PicoVM, RustBuild}.

Definition get_vk_root (vk_manager : VkMerkleManager) : list Val :=
  if vk_verification_enabled vk_manager then merkle_root vk_manager
  else replicate DIGEST_SIZE Val_ZERO.

Record Prover : Type := mkProver {
  prover_id : string;
  riscv_convert : RiscvConvert.RiscvConvertProver;
  combine : CombineP.CombineProver;
  compress : CompressP.CompressProver;
  embed : EmbedP.EmbedProver;
  vk_root : list Val;
}.

Definition Prover_new (prover_id : string) (task : ProvingTask) : Prover :=
  mkProver prover_id (RiscvConvert.new prover_id task) (CombineP.new prover_id)
    (CompressP.new prover_id) (EmbedP.new prover_id) (get_vk_root static_vk_manager).

(** [Prover::new_cuda] and [run_cuda] are [unimplemented!()]. *)
Definition Prover_new_cuda (prover_id : string) (task : ProvingTask) : outcome Prover :=
  panic_with "not implemented".

Inductive worker_next : Type :=
  | NextLoop          (* back to [endpoint.recv()] *)
  | NextBreak         (* out of the loop: the thread ends *)
  | NextPanic (p : panic).

(** Compress, embed and verification of a complete combine proof: the embed
    proof when it verifies. *)
Definition final_phase (self : Prover) (res : CombineResponse) :
    outcome (option EmbedMetaProof) :=
  compress_res ← CompressP.process (compress self)
    (mkCompressRequest (combine_res_chunk_index res)
       (IndexedProof_clone (combine_res_proof res)));
  embed_res ← EmbedP.process (embed self)
    (mkEmbedRequest (compress_res_chunk_index compress_res) (compress_res_proof compress_res));
  Ret (if is_ok (EmbedP.verify (embed self) (inner (embed_res_proof embed_res))
                   (RiscvConvert.riscv_vk (riscv_convert self)))
       then Some (inner (embed_res_proof embed_res)) else None).

(** The arm for a combine request. *)
Definition handle_combine (self : Prover) (req : CombineRequest) (task_id ip_addr : string) :
    outcome (list GatewayMsg * worker_next) :=
  let flag_complete := combine_req_flag_complete req in
  res ← CombineP.process (combine self) req;
  let reply := ([Combine (CombineMsg_Response res) task_id ip_addr; RequestTask], NextLoop) in
  if flag_complete then
    final ← final_phase self res;
    match final with
    | Some embed_proof => Ret ([Embed embed_proof; Exit], NextBreak)
    | None => Ret reply
    end
  else Ret reply.

Definition worker_handle (self : Prover) (msg : GatewayMsg) : list GatewayMsg * worker_next :=
  let arm :=
    match msg with
    | Riscv (RiscvMsg_Request req) task_id ip_addr =>
        res ← RiscvConvert.process (riscv_convert self) req (vk_root self);
        Ret ([Riscv (RiscvMsg_Response res) task_id ip_addr; RequestTask], NextLoop)
    | Combine (CombineMsg_Request req) task_id ip_addr =>
        handle_combine self req task_id ip_addr
    | Exit => Ret ([], NextBreak)
    | _ => panic_with "unsupported"
    end in
  match arm with
  | Ret out => out
  | Panic p => ([], NextPanic p)
  end.

(** The state of a worker thread: blocked in [recv], sending the rest of
    the messages of an iteration, or finished. *)
Inductive worker_state : Type :=
  | WRecv
  | WSending (pending : list GatewayMsg) (next : worker_next)
  | WExited
  | WPanicked (p : panic).

(** The loop is entered after [RequestTask] is sent. *)
Definition worker_init : worker_state := WSending [RequestTask] NextLoop.

Definition worker_after (next : worker_next) : worker_state :=
  match next with
  | NextLoop => WRecv
  | NextBreak => WExited
  | NextPanic p => WPanicked p
  end.

(** Where a worker stands once an iteration has computed its messages. *)
Definition worker_sending (pending : list GatewayMsg) (next : worker_next) : worker_state :=
  match pending with
  | [] => worker_after next
  | _ => WSending pending next
  end.

(** *** Work items

    A message in flight between the gateway and the workers carries the
    work for one ticket of the proof tree: the request before it is served,
    the response after. *)
Definition msg_ticket (msg : GatewayMsg) : list ticket :=
  match msg with
  | Riscv (RiscvMsg_Request req) _ _ =>
      let k := riscv_req_chunk_index req in [(k, k, k + 1)]
  | Riscv (RiscvMsg_Response res) _ _ =>
      let p := riscv_res_proof res in
      [(riscv_res_chunk_index res, start_chunk p, end_chunk p + 1)]
  | Combine (CombineMsg_Request req) _ _ =>
      match combine_req_proofs req with
      | [a; b] => [(combine_req_chunk_index req, start_chunk a, end_chunk b + 1)]
      | _ => []
      end
  | Combine (CombineMsg_Response res) _ _ =>
      let p := combine_res_proof res in
      [(combine_res_chunk_index res, start_chunk p, end_chunk p + 1)]
  | _ => []
  end.

(** The requests the gateway sends: a chunk to convert, or two adjacent
    proofs to combine. *)
Definition request_ok (n : Z) (msg : GatewayMsg) : Prop :=
  match msg with
  | Riscv (RiscvMsg_Request req) _ _ => 0 ≤ riscv_req_chunk_index req < n
  | Combine (CombineMsg_Request req) _ _ =>
      ∃ a b, combine_req_proofs req = [a; b] ∧ end_chunk a + 1 = start_chunk b ∧
             0 ≤ start_chunk a ≤ end_chunk a ∧ start_chunk b ≤ end_chunk b < n
  | _ => False
  end.

(** The replies a worker sends back. *)
Definition is_reply (msg : GatewayMsg) : bool :=
  match msg with
  | Riscv (RiscvMsg_Response _) _ _ | Combine (CombineMsg_Response _) _ _ => true
  | _ => false
  end.

Definition msg_ids (msg : GatewayMsg) : option (string * string) :=
  match msg with
  | Riscv _ t ip | Combine _ t ip => Some (t, ip)
  | _ => None
  end.

(** An embed proof the worker has verified against the task's key. *)
Definition worker_verified (self : Prover) (proof : EmbedMetaProof) : Prop :=
  EmbedP.verify (embed self) proof (RiscvConvert.riscv_vk (riscv_convert self)) = Ok tt.

(** The shapes of an iteration on a well-formed request. *)
Inductive handled (self : Prover) (msg : GatewayMsg) : list GatewayMsg → worker_next → Prop :=
  | handled_reply r :
      is_reply r = true → msg_ticket r = msg_ticket msg → msg_ids r = msg_ids msg →
      handled self msg [r; RequestTask] NextLoop
  | handled_final proof :
      (∃ req t ip, msg = Combine (CombineMsg_Request req) t ip ∧
                   combine_req_flag_complete req = true) →
      worker_verified self proof →
      handled self msg [Embed proof; Exit] NextBreak
  | handled_panic p :
      library_panic p → handled self msg [] (NextPanic p).

Lemma final_phase_verified self res proof :
  final_phase self res = Ret (Some proof) → worker_verified self proof.
Proof.
  unfold final_phase, worker_verified. intros E. bind_inv E. bind_inv E.
  destruct (EmbedP.verify _ _ _) as [[]|] eqn:Ev; simpl in E; by simplify_eq.
Qed.

(** An iteration on a well-formed request has one of those shapes: it never
    panics on one of the loop's own guards. *)
Lemma final_phase_panic self res p : final_phase self res = Panic p → library_panic p.
Proof.
  unfold final_phase. intros E.
  apply bind_panic_inv in E as [E|(c & _ & E)]; [by eapply CompressP.compress_panic|].
  apply bind_panic_inv in E as [E|(c' & _ & E)]; [by eapply EmbedP.embed_panic|done].
Qed.

Lemma handle_combine_ok self n req t ip :
  (2 ≤ COMBINE_SIZE)%nat → n ≤ usize_max →
  request_ok n (Combine (CombineMsg_Request req) t ip) →
  match handle_combine self req t ip with
  | Ret (out, next) => handled self (Combine (CombineMsg_Request req) t ip) out next
  | Panic p => library_panic p
  end.
Proof.
  intros Hsz Hn (a & b & Hps & Hadj & Ha & Hb). destruct req as [flag k ps].
  simpl in Hps; subst ps. unfold handle_combine.
  destruct (CombineP.process _ _) as [res|p] eqn:Ep; simpl.
  - assert (Hr : handled self (Combine (CombineMsg_Request (mkCombineRequest flag k [a; b])) t ip)
              [Combine (CombineMsg_Response res) t ip; RequestTask] NextLoop).
    { destruct (CombineP.process_range _ _ _ _ _ _ Ep) as (Hk & Hs & He).
      apply handled_reply; [done| |done]. simpl. by rewrite Hk, Hs, He. }
    destruct flag; [|done].
    destruct (final_phase self res) as [[proof|]|p] eqn:Ef; simpl; [|done|].
    + apply handled_final; [by eexists _, _, _|by eapply final_phase_verified].
    + by eapply final_phase_panic.
  - rewrite CombineP.process_adjacent in Ep by (auto; lia).
    apply bind_panic_inv in Ep as [Ep|(c & _ & Ep)]; [by eapply call_foreign_panic|done].
Qed.

Lemma worker_handle_ok self n msg out next :
  (2 ≤ COMBINE_SIZE)%nat → n ≤ usize_max → request_ok n msg →
  worker_handle self msg = (out, next) → handled self msg out next.
Proof.
  intros Hsz Hn Hok E.
  destruct msg as [| |[req|?] t ip|[req|?] t ip| | |]; try done; unfold worker_handle in E.
  - destruct (RiscvConvert.process _ _ _) as [res|p] eqn:Ep; simpl in E; simplify_eq.
    + destruct (RiscvConvert.process_chunk _ _ _ _ Ep) as (Hk & Hs & He).
      apply handled_reply; [done| |done]. simpl. by rewrite Hk, Hs, He.
    + apply handled_panic. by eapply RiscvConvert.convert_panic.
  - pose proof (handle_combine_ok self n req t ip Hsz Hn Hok) as Hc.
    destruct (handle_combine self req t ip) as [[out' next']|p]; simplify_eq; [done|].
    by apply handled_panic.
Qed.

(** C27: a worker answers the request it is given and nothing else.  On a
    chunk to convert or two adjacent proofs to combine, an iteration either
    sends one response for the same ticket (same index, same chunk range)
    under the same task id and address and asks for the next task; or, only
    when the request is flagged complete, sends an embed proof it has
    verified and an [Exit] and ends; or dies of a panic inside the prover library, never on
    the adjacency check, an index out of bounds, an overflow or an
    unsupported message. *)
Theorem worker_answers_request self n msg :
  (2 ≤ COMBINE_SIZE)%nat → n ≤ usize_max → request_ok n msg →
  (∃ r, worker_handle self msg = ([r; RequestTask], NextLoop) ∧
     is_reply r = true ∧ msg_ticket r = msg_ticket msg ∧ msg_ids r = msg_ids msg) ∨
  (∃ proof req t ip, worker_handle self msg = ([Embed proof; Exit], NextBreak) ∧
     worker_verified self proof ∧ msg = Combine (CombineMsg_Request req) t ip ∧ combine_req_flag_complete req = true) ∨
  (∃ p, worker_handle self msg = ([], NextPanic p) ∧ library_panic p).
Proof.
  intros Hsz Hn Hok. destruct (worker_handle self msg) as [out next] eqn:E.
  destruct (worker_handle_ok _ _ _ _ _ Hsz Hn Hok E) as [r|proof (req & t & ip & -> & Hf) Hv|p Hp].
  - left. by exists r.
  - right; left. by exists proof, req, t, ip.
  - right; right. by exists p.
Qed.

(** The adjacency guard of the combine prover.  Two proofs whose ranges
    are not adjacent are never combined: the worker dies with the
    assertion's message, whatever the flag. *)
Theorem worker_rejects_gap self flag k a b t ip :
  (2 ≤ COMBINE_SIZE)%nat → 0 ≤ end_chunk a < usize_max → end_chunk a + 1 ≠ start_chunk b →
  worker_handle self (Combine (CombineMsg_Request (mkCombineRequest flag k [a; b])) t ip) =
    ([], NextPanic (SourcePanic "proofs are not adjacent: cannot combine")).
Proof.
  intros Hsz Ha Hadj. unfold worker_handle, handle_combine, CombineP.process. simpl.
  rewrite bool_decide_true by (simpl; lia). simpl.
  rewrite usize_add_exact by lia. simpl. by rewrite bool_decide_false.
Qed.
End Worker.

(** *** Witnesses, on the symbolic prover *)

#[local] Existing Instance release_build.

Definition symbolic_prover : @Prover symbolic_pico :=
  Prover_new "prover-0" (mkProvingTask (mkProvingKey "app" "task") 2 tt 2 None false).

(** The final combine of two chunks. *)
Definition final_request : @GatewayMsg symbolic_pico :=
  Combine (CombineMsg_Request (mkCombineRequest true 1
    [mkIndexedProof [0] 0 0; mkIndexedProof [1] 1 1])) "1" "".

Lemma final_request_ok : request_ok 2 final_request.
Proof. exists (mkIndexedProof [0] 0 0), (mkIndexedProof [1] 1 1). split; [done|]. simpl. lia. Qed.

Lemma worker_answers_request_witness :
  ∃ proof next, worker_handle symbolic_prover final_request = ([Embed proof; Exit], next) ∧
    worker_verified symbolic_prover proof.
Proof.
  destruct (worker_answers_request symbolic_prover 2 final_request ltac:(apply le_n)
    ltac:(vm_compute; discriminate) final_request_ok)
    as [(r & E & _)|[(proof & req & t & ip & E & Hv & _)|(p & E & _)]].
  - discriminate E.
  - exists proof, NextBreak. split; [exact E|exact Hv].
  - discriminate E.
Defined.

Lemma worker_rejects_gap_witness :
  worker_handle symbolic_prover (Combine (CombineMsg_Request (mkCombineRequest false 2
    [mkIndexedProof [0] 0 0; mkIndexedProof [2] 2 2])) "2" "") =
    ([], NextPanic (SourcePanic "proofs are not adjacent: cannot combine")).
Proof.
  pose proof (worker_rejects_gap symbolic_prover) as Hgap.
  apply Hgap; [apply le_n|split; [apply Z.le_refl|reflexivity]|discriminate].
Defined.
