(* ===== verification/Channel.v ===== *)
(** * Unbounded channels

    The emulator, the gateway, the workers, the queue and the gRPC service
    communicate through the unbounded channels of [crossbeam] (wrapped by
    [pico_vm::thread::channel]).  The library is not part of the repository:
    its channel is an interface, with the documented first-in first-out
    behaviour as laws.  Every endpoint of these channels lives as long as the
    [prove_task] (or the server) that created them, so [send] and [recv] never
    see a disconnected channel while the pipeline runs; [Shutdown.v] has what
    the threads do once the endpoints are dropped. *)

From S2P Require Import Prelude.

Class Chan (C : Type → Type) : Type := {
  ch_new : ∀ {A}, C A;
  ch_send : ∀ {A}, C A → A → C A;
  ch_recv : ∀ {A}, C A → option (A * C A);
  ch_contents : ∀ {A}, C A → list A;
}.

Class FifoChan (C : Type → Type) `{!Chan C} : Prop := {
  ch_new_contents A : ch_contents (@ch_new C _ A) = [];
  ch_send_contents A (c : C A) x : ch_contents (ch_send c x) = ch_contents c ++ [x];
  ch_recv_None A (c : C A) : ch_recv c = None ↔ ch_contents c = [];
  ch_recv_Some A (c c' : C A) x :
    ch_recv c = Some (x, c') → ch_contents c = x :: ch_contents c';
}.

(** A list is such a channel. *)
#[export] Instance list_chan : Chan list := {|
  ch_new _ := [];
  ch_send _ c x := c ++ [x];
  ch_recv _ c := match c with [] => None | x :: c' => Some (x, c') end;
  ch_contents _ c := c;
|}.

#[export] Instance list_fifo : FifoChan list.
Proof.
  split; try done.
  - intros A c. by destruct c.
  - intros A c c' x. destruct c; simpl; by intros ?; simplify_eq.
Qed.

Section Chan.
Context `{FifoChan C}.

Lemma ch_recv_nonempty {A} (c : C A) :
  ch_contents c ≠ [] → ∃ x c', ch_recv c = Some (x, c') ∧ ch_contents c = x :: ch_contents c'.
Proof.
  intros Hc. destruct (ch_recv c) as [[x c']|] eqn:E.
  - exists x, c'. split; [done|]. by apply ch_recv_Some.
  - by apply ch_recv_None in E.
Qed.
End Chan.

#[export] Hint Rewrite @ch_new_contents @ch_send_contents using typeclasses eauto : rust_rw.
