(* ===== verification/RustStr.v ===== *)
(** * String slices

    A [&str] as the list of its characters (Unicode scalar values), with the
    [str] methods the code uses: [trim], [strip_prefix], [strip_suffix],
    [split], [trim_start_matches]. *)

From S2P Require Import Prelude.

Abbreviation rstr := (list N).

(** The characters of an ASCII literal. *)
Fixpoint chars (s : string) : rstr :=
  match s with
  | EmptyString => []
  | String a s' => Ascii.N_of_ascii a :: chars s'
  end.

(** [char::is_whitespace] (the Unicode [White_Space] property) *)
Definition is_whitespace (c : N) : bool :=
  bool_decide ((9 ≤ c ∧ c ≤ 13) ∨ c = 32 ∨ c = 133 ∨ c = 160 ∨ c = 5760 ∨
    (8192 ≤ c ∧ c ≤ 8202) ∨ c = 8232 ∨ c = 8233 ∨ c = 8239 ∨ c = 8287 ∨ c = 12288)%N.

Fixpoint trim_start (s : rstr) : rstr :=
  match s with
  | c :: s' => if is_whitespace c then trim_start s' else s
  | [] => []
  end.

Definition trim_end (s : rstr) : rstr := reverse (trim_start (reverse s)).

Definition trim (s : rstr) : rstr := trim_end (trim_start s).

(** [s.strip_prefix(c)] and [s.strip_suffix(c)] for a character *)
Definition strip_prefix (c : N) (s : rstr) : option rstr :=
  match s with
  | c' :: s' => if decide (c = c') then Some s' else None
  | [] => None
  end.

Definition strip_suffix (c : N) (s : rstr) : option rstr :=
  reverse <$> strip_prefix c (reverse s).

Definition unwrap_or {A} (o : option A) (d : A) : A :=
  match o with Some a => a | None => d end.

(** [s.split(c)]: always at least one piece *)
Fixpoint split (sep : N) (s : rstr) : list rstr :=
  match s with
  | [] => [[]]
  | c :: s' =>
      if decide (c = sep) then [] :: split sep s'
      else match split sep s' with
           | p :: ps => (c :: p) :: ps
           | [] => [[c]]
           end
  end.

(** [s.trim_start_matches("0x")]: every leading occurrence is removed. *)
Fixpoint trim_start_matches_0x (s : rstr) : rstr :=
  match s with
  | 48%N :: 120%N :: s' => trim_start_matches_0x s'
  | _ => s
  end.

(** [join(sep)] *)
Fixpoint join (sep : N) (ps : list rstr) : rstr :=
  match ps with
  | [] => []
  | [p] => p
  | p :: ps' => p ++ sep :: join sep ps'
  end.

Lemma split_nonempty sep s : split sep s ≠ [].
Proof. destruct s; simpl; [done|]. case_decide; [done|]. by destruct (split sep s). Qed.

Lemma split_app sep p s :
  sep ∉ p → split sep (p ++ sep :: s) = p :: split sep s.
Proof.
  induction p as [|c p IH]; simpl; intros Hn.
  - by rewrite decide_True.
  - rewrite decide_False by (intros ->; apply Hn; by left).
    rewrite IH; [done|]. intros ?; apply Hn; by right.
Qed.

Lemma split_single sep p : sep ∉ p → split sep p = [p].
Proof.
  induction p as [|c p IH]; simpl; intros Hn; [done|].
  rewrite decide_False by (intros ->; apply Hn; by left).
  rewrite IH; [done|]. intros ?; apply Hn; by right.
Qed.

(** Splitting undoes joining. *)
Lemma split_join sep ps :
  ps ≠ [] → Forall (λ p, sep ∉ p) ps → split sep (join sep ps) = ps.
Proof.
  intros Hne Hps. induction Hps as [|p ps Hp Hps IH]; [done|].
  destruct ps as [|p' ps]; [by apply split_single|].
  change (join sep (p :: p' :: ps)) with (p ++ sep :: join sep (p' :: ps)).
  rewrite split_app by done. by rewrite IH.
Qed.

Lemma trim_start_skip ws s :
  Forall (λ c, is_whitespace c = true) ws → trim_start (ws ++ s) = trim_start s.
Proof. induction 1 as [|c ws Hc Hws IH]; simpl; [done|]. by rewrite Hc. Qed.

Lemma trim_start_id c s : is_whitespace c = false → trim_start (c :: s) = c :: s.
Proof. simpl. by intros ->. Qed.

(** Trimming removes exactly the surrounding whitespace. *)
Lemma trim_pad ws ws' c s c' :
  Forall (λ c, is_whitespace c = true) ws → Forall (λ c, is_whitespace c = true) ws' →
  is_whitespace c = false → is_whitespace c' = false →
  trim (ws ++ (c :: s ++ [c']) ++ ws') = c :: s ++ [c'].
Proof.
  intros Hw Hw' Hc Hc'. unfold trim, trim_end.
  rewrite trim_start_skip by done. simpl app. rewrite trim_start_id by done.
  change (c :: (s ++ [c']) ++ ws') with ((c :: s ++ [c']) ++ ws').
  rewrite reverse_app, trim_start_skip by (by apply Forall_reverse).
  change (c :: s ++ [c']) with ((c :: s) ++ [c']).
  rewrite reverse_snoc, trim_start_id by done.
  rewrite reverse_cons, reverse_involutive. done.
Qed.

Lemma trim_id s :
  Forall (λ c, is_whitespace c = false) s → trim s = s.
Proof.
  intros Hs. assert (Hid : ∀ l, Forall (λ c, is_whitespace c = false) l → trim_start l = l).
  { intros l Hl. destruct Hl; [done|]. by apply trim_start_id. }
  unfold trim, trim_end. rewrite (Hid s) by done.
  rewrite Hid by (by apply Forall_reverse). apply reverse_involutive.
Qed.

Lemma strip_quotes q s :
  unwrap_or (strip_suffix q (unwrap_or (strip_prefix q (q :: s ++ [q])) (q :: s ++ [q])))
    (unwrap_or (strip_prefix q (q :: s ++ [q])) (q :: s ++ [q])) = s.
Proof.
  unfold strip_suffix. simpl. rewrite decide_True by done. simpl.
  rewrite reverse_app. simpl. rewrite decide_True by done. simpl. apply reverse_involutive.
Qed.

(** ** Hexadecimal text *)

Definition hex_digit_value (c : N) : option Z :=
  if decide (48 ≤ c ∧ c ≤ 57)%N then Some (Z.of_N c - 48)
  else if decide (97 ≤ c ∧ c ≤ 102)%N then Some (Z.of_N c - 87)
  else if decide (65 ≤ c ∧ c ≤ 70)%N then Some (Z.of_N c - 55)
  else None.

(** The value of a string of hexadecimal digits. *)
Definition hex_value (s : rstr) : option Z :=
  foldl (λ acc c, v ← acc; d ← hex_digit_value c; Some (v * 16 + d)) (Some 0) s.

Definition hex_digit (d : Z) : N := Z.to_N (if decide (d < 10) then d + 48 else d + 87).

(** The [n] low-order lower-case hexadecimal digits ([{:0nx}]). *)
Fixpoint hex_pad (n : nat) (x : Z) : rstr :=
  match n with
  | O => []
  | S n' => hex_pad n' (x / 16) ++ [hex_digit (x mod 16)]
  end.

Lemma hex_digit_roundtrip d : 0 ≤ d < 16 → hex_digit_value (hex_digit d) = Some d.
Proof.
  intros Hd. unfold hex_digit, hex_digit_value.
  destruct (decide (d < 10)); repeat case_decide; try lia; f_equal; lia.
Qed.

Lemma hex_pad_length n x : length (hex_pad n x) = n.
Proof. revert x; induction n; intros x; simpl; [done|]. rewrite length_app, IHn. simpl. lia. Qed.

Lemma hex_value_pad n x : 0 ≤ x < 16 ^ Z.of_nat n → hex_value (hex_pad n x) = Some x.
Proof.
  revert x; induction n as [|n IH]; intros x Hx.
  - change (16 ^ Z.of_nat 0) with 1 in Hx. assert (x = 0) as -> by lia. done.
  - simpl hex_pad. unfold hex_value in *. rewrite foldl_app, IH; simpl.
    + rewrite hex_digit_roundtrip by (apply Z.mod_pos_bound; lia). simpl. f_equal.
      pose proof (Z.div_mod x 16). lia.
    + rewrite Nat2Z.inj_succ, Z.pow_succ_r in Hx by lia.
      split; [apply Z.div_pos; lia|]. apply Z.div_lt_upper_bound; lia.
Qed.

(** Hexadecimal digits are neither whitespace, commas nor the [x] of [0x]. *)
Definition plain_char (c : N) : Prop :=
  is_whitespace c = false ∧ c ≠ 44%N ∧ c ≠ 34%N.

Lemma hex_digit_plain d : 0 ≤ d < 16 → plain_char (hex_digit d) ∧ hex_digit d ≠ 120%N.
Proof.
  intros Hd. unfold hex_digit, plain_char, is_whitespace.
  split; [split|]; [apply bool_decide_false| |]; case_decide; lia.
Qed.

Lemma hex_pad_plain n x : Forall (λ c, plain_char c ∧ c ≠ 120%N) (hex_pad n x).
Proof.
  revert x; induction n as [|n IH]; intros x; simpl; [constructor|].
  apply Forall_app. split; [done|]. constructor; [|constructor].
  apply hex_digit_plain, Z.mod_pos_bound. lia.
Qed.

Lemma hex_pad_no_x n x : Forall (λ c, c ≠ 120%N) (hex_pad n x).
Proof. eapply Forall_impl; [apply hex_pad_plain|]. by intros ? [_ ?]. Qed.

Lemma trim_start_matches_0x_hex s :
  Forall (λ c, c ≠ 120%N) s → trim_start_matches_0x (48%N :: 120%N :: s) = s.
Proof.
  intros Hs. simpl.
  destruct Hs as [|a s Ha Hs]; [done|]. destruct Hs as [|b s Hb Hs].
  - simpl. by repeat case_match.
  - simpl. repeat case_match; try done; by subst.
Qed.
