(* ===== verification/Onchain.v ===== *)
(** * The on-chain phase ([src/src/proving/onchain.rs])

    From an embed proof to the bytes of the Groth16 proof, through the
    dockerised gnark prover.  The docker container, the file system, the
    gnark circuit builder and the 256-bit integers of [alloy_primitives] are
    interfaces; the decoding of gnark's answer is modelled character by
    character. *)

From S2P Require Import Prelude PicoVM RustStr.

(** ** Interfaces *)

(** [alloy_primitives::U256], as the integer it holds. *)
Class AlloyU256 : Type := {
  U256_from_str_radix : rstr → Z → result Z string;
  U256_to_be_bytes_vec : Z → bytes;
}.

Definition is_u256 (x : Z) : Prop := 0 ≤ x < 2 ^ 256.

(** Their documented behaviour: parsing accepts the digits of a value that
    fits, and the byte conversion is big-endian on 32 bytes. *)
Class AlloyU256Spec `{AlloyU256} : Prop := {
  U256_parse_range s radix u : U256_from_str_radix s radix = Ok u → is_u256 u;
  U256_parse_hex s u :
    s ≠ [] → hex_value s = Some u → is_u256 u → U256_from_str_radix s 16 = Ok u;
  U256_be u : is_u256 u → U256_to_be_bytes_vec u = be_bytes 32 u;
}.

(** A concrete instance, for hexadecimal text. *)
#[export] Instance concrete_u256 : AlloyU256 := {|
  U256_from_str_radix s radix :=
    match hex_value s with
    | Some u => if decide (is_u256 u) then Ok u else Err "number too large to fit in target type"
    | None => Err "invalid digit"
    end;
  U256_to_be_bytes_vec u := be_bytes 32 u;
|}.

#[export] Instance concrete_u256_spec : AlloyU256Spec.
Proof.
  split; simpl.
  - intros s _ u. destruct (hex_value s); [|done]. case_decide; [|done]. by intros [= <-].
  - intros s u _ -> Hu. by rewrite decide_True.
  - done.
Qed.

(** The outside world of the on-chain phase. *)
Class GnarkEnv `{PicoVM} : Type := {
  BenchField : Type;
  KoalaBearField : BenchField;
  BenchField_debug : BenchField → string;
  get_download_path : BenchField → string;
  path_exists : string → string → bool;        (* [dir.join(f).exists()] *)
  gnark_prover_running : bool;
  recreate_gnark_prover : BenchField → string → result unit string;
  EmbedBaseMachine : Type;
  EmbedMachine_base_machine : EmbedMachine → EmbedBaseMachine;
  OnchainConstraints : Type;
  OnchainWitness : Type;
  (* [OnchainVerifierCircuit::build] on [OnchainStdin { machine, vk, proof,
     flag_complete }] *)
  OnchainVerifierCircuit_build :
    EmbedBaseMachine → EmbedVerifyingKey → EmbedBaseProof → bool →
    foreign (OnchainConstraints * OnchainWitness);
  build_gnark_config_with_str : OnchainConstraints → OnchainWitness → string → foreign string;
  send_gnark_prove_task : string → result rstr string;
}.

(** A concrete environment: the files are in place, the container runs and
    answers every task with the same ten values. *)
#[export] Instance symbolic_gnark : @GnarkEnv symbolic_pico := {|
  BenchField := unit; KoalaBearField := tt; BenchField_debug := λ _, "KoalaBear";
  get_download_path := λ _, "./"; path_exists := λ _ _, true;
  gnark_prover_running := true; recreate_gnark_prover := λ _ _, Ok tt;
  EmbedBaseMachine := unit; EmbedMachine_base_machine := λ _, tt;
  OnchainConstraints := unit; OnchainWitness := list Z;
  OnchainVerifierCircuit_build := λ _ _ proof _, inl (tt, proof);
  build_gnark_config_with_str := λ _ _ _, inl "{}";
  send_gnark_prove_task := λ _, Ok (chars "0x1, 0x2, 0x3, 0x4, 0x5, 0x6, 0x7, 0x8, 0x9, 0xa");
|}.

(** ** Decoding gnark's answer *)

Section Decode.
Context `{AlloyU256}.

(** One value: [U256::from_str_radix(s.trim_start_matches("0x"), 16)
    .expect(..)], then its big-endian bytes. *)
Definition decode_value (s : rstr) : outcome bytes :=
  u256 ← unwrap_result "failed to convert a hex string to an uint256"
           (U256_from_str_radix (trim_start_matches_0x s) 16);
  Ret (U256_to_be_bytes_vec u256).

Definition decode_gnark_proof_to_bytes (proof_text : rstr) : outcome bytes :=
  (* remove the prefix and suffix double quotes *)
  let proof_text := trim proof_text in
  let proof_text := unwrap_or (strip_prefix 34 proof_text) proof_text in
  let proof_text := unwrap_or (strip_suffix 34 proof_text) proof_text in
  (* separate proof text by comma *)
  let values := map trim (split 44 proof_text) in
  _ ← rust_assert (bool_decide (length values = 10%nat)) "gnark proof must have 10 values";
  chunks ← mapM decode_value values;
  let bytes := mjoin chunks in
  _ ← rust_assert (bool_decide (length bytes = 320%nat))
        "ten uint256 could only be converted to 320 bytes";
  Ret bytes.

(** The text of a proof, as the commented-out check at the end of the
    function builds it: ["0x"] and 64 digits per value, joined by commas. *)
Definition encode_value (u : Z) : rstr := 48%N :: 120%N :: hex_pad 64 u.

Definition encode_gnark_proof (us : list Z) : rstr := join 44 (map encode_value us).

Definition proof_bytes (us : list Z) : bytes := mjoin (map (be_bytes 32) us).

Lemma mapM_Panic_inv {A B} (f : A → outcome B) l p :
  mapM f l = Panic p → ∃ x, f x = Panic p.
Proof.
  induction l as [|x l IH]; simpl; [done|]. intros E.
  apply bind_panic_inv in E as [E|(y & _ & E)]; [by exists x|].
  apply bind_panic_inv in E as [E|(ys & _ & E)]; [by apply IH|done].
Qed.

Lemma mapM_Ret_inv {A B} (f : A → outcome B) (Q : B → Prop) l ys :
  (∀ x y, f x = Ret y → Q y) → mapM f l = Ret ys → Forall Q ys ∧ length ys = length l.
Proof.
  intros Hf. revert ys; induction l as [|x l IH]; intros ys; simpl; intros E.
  - injection E as <-. by split.
  - bind_inv E. bind_inv E. injection E as <-.
    destruct (IH _ E1) as [? ?]. split; simpl; [|by f_equal]. constructor; eauto.
Qed.

(** The last assertion of the decoder. *)
Lemma decode_length s bs : decode_gnark_proof_to_bytes s = Ret bs → length bs = 320%nat.
Proof.
  unfold decode_gnark_proof_to_bytes. intros E. bind_inv E. bind_inv E. bind_inv E.
  injection E as <-. by case_bool_decide.
Qed.

Lemma hex_value_pad64 u : is_u256 u → hex_value (hex_pad 64 u) = Some u.
Proof.
  intros Hu. apply hex_value_pad. change (16 ^ Z.of_nat 64) with (2 ^ 256). exact Hu.
Qed.

Lemma encode_value_plain u : Forall plain_char (encode_value u).
Proof.
  assert (Hc : plain_char 48 ∧ plain_char 120) by (by repeat split).
  destruct Hc. repeat (constructor; [done|]).
  eapply Forall_impl; [apply hex_pad_plain|]. by intros ? [? _].
Qed.

Lemma mjoin_length_const {A} (n : nat) (ls : list (list A)) :
  Forall (λ l, length l = n) ls → length (mjoin ls) = (length ls * n)%nat.
Proof. induction 1; simpl; [done|]. rewrite length_app. lia. Qed.

Context `{!AlloyU256Spec}.

Lemma decode_encode_value u :
  is_u256 u → decode_value (encode_value u) = Ret (be_bytes 32 u).
Proof.
  intros Hu. unfold decode_value, encode_value.
  rewrite trim_start_matches_0x_hex by apply hex_pad_no_x.
  rewrite (U256_parse_hex _ u); [simpl; by rewrite U256_be| |by apply hex_value_pad64|exact Hu].
  intros E. pose proof (hex_pad_length 64 u) as El. by rewrite E in El.
Qed.

(** A decoded value has 32 bytes. *)
Lemma decode_value_length s bs : decode_value s = Ret bs → length bs = 32%nat.
Proof.
  unfold decode_value. intros E. bind_inv E. injection E as <-.
  destruct (U256_from_str_radix _ _) as [u|] eqn:Eu; simpl in E0; [|done]. injection E0 as ->.
  rewrite U256_be by (by eapply U256_parse_range). apply be_bytes_length.
Qed.

Lemma mapM_encoded us :
  Forall is_u256 us → mapM decode_value (map encode_value us) = Ret (map (be_bytes 32) us).
Proof.
  induction 1 as [|u us Hu Hus IH]; [done|].
  transitivity (b ← decode_value (encode_value u);
                bs ← mapM decode_value (map encode_value us); Ret (b :: bs)); [done|].
  rewrite (decode_encode_value u Hu). by rewrite bind_Ret, IH.
Qed.

(** C34: decoding undoes encoding.  The text of ten 256-bit values, between
    double quotes and surrounded by any whitespace, decodes to the 320
    bytes of their big-endian encodings, in order. *)
Theorem decode_gnark_roundtrip us ws ws' :
  length us = 10%nat → Forall is_u256 us →
  Forall (λ c, is_whitespace c = true) ws → Forall (λ c, is_whitespace c = true) ws' →
  decode_gnark_proof_to_bytes (ws ++ (34%N :: encode_gnark_proof us ++ [34%N]) ++ ws') =
    Ret (proof_bytes us) ∧ length (proof_bytes us) = 320%nat.
Proof.
  intros Hlen Hus Hws Hws'.
  assert (Hb : length (proof_bytes us) = 320%nat).
  { unfold proof_bytes. rewrite (mjoin_length_const 32), length_map, Hlen; [done|].
    apply Forall_map, Forall_true. intros u. apply be_bytes_length. }
  split; [|done]. unfold decode_gnark_proof_to_bytes.
  rewrite trim_pad by done. rewrite strip_quotes. unfold encode_gnark_proof.
  rewrite split_join; [|by destruct us|].
  2: { apply Forall_map, Forall_true. intros u Hin.
       pose proof (encode_value_plain u) as Hp. by eapply Forall_forall in Hp as (_ & ? & _). }
  assert (Htrim : map trim (map encode_value us) = map encode_value us).
  { rewrite map_map. apply map_ext. intros u. apply trim_id.
    eapply Forall_impl; [apply encode_value_plain|]. by intros ? [? _]. }
  rewrite Htrim, rust_assert_true by (apply bool_decide_true; by rewrite length_map).
  rewrite (mapM_encoded us) by done. rewrite bind_Ret. fold (proof_bytes us).
  by rewrite rust_assert_true by (by apply bool_decide_true).
Qed.

(** The decoder answers on every text: it panics with the first
    assertion's message when the text has not ten comma-separated values,
    with the parse message when one of the ten is not a 256-bit
    hexadecimal number, and otherwise returns exactly 320 bytes; its second
    assertion never fires. *)
Theorem decode_gnark_outcomes s :
  let values := map trim (split 44
    (let t := trim s in
     let t := unwrap_or (strip_prefix 34 t) t in unwrap_or (strip_suffix 34 t) t)) in
  if decide (length values = 10%nat) then
    (∃ bs, decode_gnark_proof_to_bytes s = Ret bs ∧ length bs = 320%nat) ∨
    decode_gnark_proof_to_bytes s = panic_with "failed to convert a hex string to an uint256"
  else decode_gnark_proof_to_bytes s = panic_with "gnark proof must have 10 values".
Proof.
  cbv zeta. unfold decode_gnark_proof_to_bytes. case_decide as Hlen.
  - rewrite bool_decide_true by done. simpl.
    destruct (mapM decode_value _) as [chunks|p] eqn:E; simpl.
    + destruct (mapM_Ret_inv _ (λ bs, length bs = 32%nat) _ _ decode_value_length E) as [Hc Hl].
      rewrite Hlen in Hl.
      assert (Hb : length (mjoin chunks) = 320%nat) by (by rewrite (mjoin_length_const 32), Hl).
      rewrite bool_decide_true by done. left. by eexists.
    + right. apply mapM_Panic_inv in E as [v E]. unfold decode_value in E.
      by destruct (U256_from_str_radix _ _); simplify_eq/=.
  - by rewrite bool_decide_false.
Qed.
End Decode.

(** ** The phase and the docker monitor *)

Section Onchain.
Context `{PicoVM, !GnarkEnv, AlloyU256}.

(** [{:?}] of a [Vec<&str>] *)
Definition quote : string := String (Ascii.ascii_of_nat 34) EmptyString.
Definition debug_list (l : list string) : string :=
  "[" +:+ String.concat ", " (map (λ s, quote +:+ s +:+ quote) l) +:+ "]".

Definition gnark_files : list string := ["vm_pk"; "vm_vk"; "vm_ccs"].

Definition missing_files (field : BenchField) : list string :=
  filter (λ f, path_exists (get_download_path field) f = false) gnark_files.

Definition ensure_gnark_downloads (field : BenchField) : outcome (result unit string) :=
  let dir := get_download_path field in
  let missing_files := missing_files field in
  if bool_decide (missing_files ≠ []) then
    panic_with ("[onchain] ERROR: Required gnark files are missing for " +:+
      BenchField_debug field +:+ ". Missing files: " +:+ debug_list missing_files +:+
      ". Please ensure these files are present in the download path: " +:+ dir)
  else Ret (Ok tt).

Definition build_onchain_witness_json (embed_proof : EmbedMetaProof) :
    outcome (result string string) :=
  let embed_machine :=
    EmbedMachine_new EmbedSC_default RecursionChip_embed RECURSION_NUM_PVS in
  let base_machine := EmbedMachine_base_machine embed_machine in
  vk ←? Ret (match EmbedMetaProof_vks embed_proof with
             | vk :: _ => Ok vk
             | [] => Err "embed proof has no VKs"
             end);
  proof ←? Ret (match EmbedMetaProof_proofs embed_proof with
                | proof :: _ => Ok proof
                | [] => Err "embed proof has no inner proofs"
                end);
  '(constraints, witness) ←
    call_foreign (OnchainVerifierCircuit_build base_machine vk proof true);
  gnark_witness ← call_foreign (build_gnark_config_with_str constraints witness "./");
  Ret (Ok gnark_witness).

Definition prove_embed_onchain (embed_proof : EmbedMetaProof) :
    outcome (result bytes string) :=
  let field := KoalaBearField in
  let download_path := get_download_path field in
  _ ←? ensure_gnark_downloads field;
  _ ←? Ret (if gnark_prover_running then Ok tt
            else recreate_gnark_prover field download_path);
  gnark_witness_json ←? build_onchain_witness_json embed_proof;
  proof_text ←? Ret (send_gnark_prove_task gnark_witness_json);
  bytes ← decode_gnark_proof_to_bytes proof_text;
  Ret (Ok bytes).

(** [start_onchain_daemon]: the flag of the [OnceLock] before and after, and
    whether a thread was spawned. *)
Definition start_onchain_daemon (onchain_daemon : bool) : bool * bool :=
  if onchain_daemon then (true, false) else (true, true).

(** One round of the spawned thread, before it sleeps; the results are
    discarded, a panic ends the thread. *)
Definition onchain_daemon_round : outcome unit :=
  let field := KoalaBearField in
  let download_path := get_download_path field in
  _ ← ensure_gnark_downloads field;
  let _ := if gnark_prover_running then Ok tt
           else recreate_gnark_prover field download_path in
  Ret tt.

Lemma prove_embed_onchain_inv embed_proof bs :
  prove_embed_onchain embed_proof = Ret (Ok bs) →
  length bs = 320%nat ∧ missing_files KoalaBearField = [] ∧
  ∃ json text, build_onchain_witness_json embed_proof = Ret (Ok json) ∧
    send_gnark_prove_task json = Ok text ∧ decode_gnark_proof_to_bytes text = Ret bs.
Proof.
  unfold prove_embed_onchain, ensure_gnark_downloads.
  case_bool_decide as Hmiss; [done|]. simpl.
  destruct (if gnark_prover_running then _ else _) as [[]|]; simpl; [|done].
  destruct (build_onchain_witness_json embed_proof) as [[json|]|]; simpl; try done.
  destruct (send_gnark_prove_task json) as [text|] eqn:Es; simpl; [|done].
  destruct (decode_gnark_proof_to_bytes text) as [bs'|] eqn:Ed; simpl; [|done].
  intros [= <-]. split; [by eapply decode_length|]. split; [|by exists json, text].
  destruct (missing_files KoalaBearField); [done|]. by destruct Hmiss.
Qed.

(** Missing gnark files are never an error value.  As soon as one of the
    three files is missing, [ensure_gnark_downloads] panics: the on-chain
    phase unwinds instead of returning the [Err] its caller handles, and
    the monitor thread dies although it discards the result. *)
Theorem missing_files_panic embed_proof :
  (∃ f, f ∈ gnark_files ∧ path_exists (get_download_path KoalaBearField) f = false) →
  ∃ msg, prove_embed_onchain embed_proof = panic_with msg ∧
         onchain_daemon_round = panic_with msg.
Proof.
  intros (f & Hf & Hmiss).
  assert (Hne : missing_files KoalaBearField ≠ []).
  { intros E. assert (f ∈ missing_files KoalaBearField) as Hin by (by apply list_elem_of_filter).
    rewrite E in Hin. by apply elem_of_nil in Hin. }
  unfold prove_embed_onchain, onchain_daemon_round, ensure_gnark_downloads.
  rewrite bool_decide_true by done. by eexists.
Qed.

End Onchain.

(** *** Witnesses *)

Lemma decode_gnark_roundtrip_witness :
  decode_gnark_proof_to_bytes
    ([32%N] ++ (34%N :: encode_gnark_proof [1; 2; 3; 4; 5; 6; 7; 8; 9; 10] ++ [34%N]) ++ [10%N]) =
    Ret (proof_bytes [1; 2; 3; 4; 5; 6; 7; 8; 9; 10]).
Proof.
  pose proof decode_gnark_roundtrip as Hround.
  apply Hround; [reflexivity| |by repeat constructor|by repeat constructor].
  repeat constructor; vm_compute; discriminate.
Defined.

Lemma decode_gnark_outcomes_witness :
  decode_gnark_proof_to_bytes (chars "1,2,3") = panic_with "gnark proof must have 10 values".
Proof. exact (decode_gnark_outcomes (chars "1,2,3")). Defined.

(** An environment where the proving key has not been downloaded. *)
Definition bare_gnark : @GnarkEnv symbolic_pico := {|
  BenchField := unit; KoalaBearField := tt; BenchField_debug := λ _, "KoalaBear";
  get_download_path := λ _, "./"; path_exists := λ _ f, bool_decide (f ≠ "vm_pk");
  gnark_prover_running := true; recreate_gnark_prover := λ _ _, Ok tt;
  EmbedBaseMachine := unit; EmbedMachine_base_machine := λ _, tt;
  OnchainConstraints := unit; OnchainWitness := list Z;
  OnchainVerifierCircuit_build := λ _ _ proof _, inl (tt, proof);
  build_gnark_config_with_str := λ _ _ _, inl "{}";
  send_gnark_prove_task := λ _, Ok (chars "");
|}.

Lemma missing_files_panic_witness :
  ∃ msg, @onchain_daemon_round symbolic_pico bare_gnark = panic_with msg.
Proof.
  destruct (@missing_files_panic symbolic_pico bare_gnark concrete_u256 [])
    as (msg & _ & E); [|exists msg; exact E].
  exists "vm_pk". split; [by left|reflexivity].
Defined.
