(* ===== verification/Emulator.v ===== *)
(** * The emulator ([src/src/proving/emulator.rs])

    [emulator_setup] is the sequential prologue of [EmulatorRunner::run].  The
    rest is two threads: the emulator thread pushes records into a bounded
    channel, the calling thread numbers them and forwards them to the gateway.
    [emu_step] is their interleaving; the theorems show that, whatever the
    schedule and the capacity, the gateway receives the records of the
    sequential emulation, numbered from 0, followed by [EmulatorComplete]. *)

From S2P Require Import Prelude ProofTree PicoVM Messages Task.

Section Emulator.
Context `{PicoVM, RustBuild}.

(** [chunk_batch_size] is a [u32]. *)
Definition emulator_setup (task : ProvingTask) : outcome (MetaEmulator * Z) :=
  let riscv_machine := RiscvMachine_new KoalaBearPoseidon2_new RiscvChip_all RISCV_NUM_PVS in
  let program := task_program task in
  stdin_builder ←
    match task_inputs task with
    | None => Ret EmulatorStdin_new_builder
    | Some inputs =>
        unwrap_result "called `Result::unwrap()` on an `Err` value"
          (bincode_deserialize_stdin inputs)
    end;
  let stdin := StdinBuilder_finalize stdin_builder in
  '(pk, vk) ← call_foreign (RiscvMachine_setup_keys riscv_machine program);
  let riscv_opts := EmulatorOpts_bench_riscv_ops in
  let witness := setup_for_riscv program stdin riscv_opts pk vk in
  emulator ← call_foreign (MetaEmulator_setup_riscv witness);
  channel_capacity ← u32_mul 4
    (match witness_opts witness with
     | Some opts => chunk_batch_size opts
     | None => 64
     end);
  Ret (emulator, channel_capacity).

(** The message for the record of a chunk. *)
Definition request_msg (chunk_index : Z) (record : EmulationRecord) : GatewayMsg :=
  Riscv (RiscvMsg_Request (mkRiscvRequest chunk_index record))
    (usize_to_string chunk_index) "".

(** *** The two threads *)

Inductive emu_thread : Type :=
  | ERunning (e : MetaEmulator)
  | ESending (pending : list EmulationRecord) (next : foreign (bool * MetaEmulator))
  | EFinished (e : MetaEmulator)
  | EPanicked (msg : string).

Inductive main_thread : Type :=
  | MLoop (chunk_index : Z)
  | MJoin
  | MDone (res : outcome unit).

Record emu_sys : Type := mkEmuSys {
  thread : emu_thread;
  buffer : list EmulationRecord;
  main : main_thread;
  sent : list GatewayMsg;
}.

(** Dropping [record_sender], at the end of the thread or while it unwinds. *)
Definition sender_dropped (th : emu_thread) : bool :=
  match th with EFinished _ | EPanicked _ => true | _ => false end.

Definition join_result (th : emu_thread) : outcome unit :=
  match th with
  | EPanicked _ => panic_with "called `Result::unwrap()` on an `Err` value"
  | _ => Ret tt
  end.

(** The forwarding loop's body: the state after the message is sent. *)
Definition forward (chunk_index : Z) : main_thread :=
  match usize_add chunk_index 1 with
  | Ret chunk_index' => MLoop chunk_index'
  | Panic p => MDone (Panic p)
  end.

Inductive emu_step (capacity : Z) : emu_sys → emu_sys → Prop :=
  | es_batch e rs next buf m out :
      next_record_batch e = (rs, next) →
      emu_step capacity (mkEmuSys (ERunning e) buf m out) (mkEmuSys (ESending rs next) buf m out)
  | es_push r rs next buf m out :
      Z.of_nat (length buf) < capacity →
      emu_step capacity (mkEmuSys (ESending (r :: rs) next) buf m out)
        (mkEmuSys (ESending rs next) (buf ++ [r]) m out)
  | es_rendezvous r rs next i out :
      capacity = 0 →
      emu_step capacity (mkEmuSys (ESending (r :: rs) next) [] (MLoop i) out)
        (mkEmuSys (ESending rs next) [] (forward i) (out ++ [request_msg i r]))
  | es_batch_end done e buf m out :
      emu_step capacity (mkEmuSys (ESending [] (inl (done, e))) buf m out)
        (mkEmuSys (if done : bool then EFinished e else ERunning e) buf m out)
  | es_batch_panic msg buf m out :
      emu_step capacity (mkEmuSys (ESending [] (inr msg)) buf m out)
        (mkEmuSys (EPanicked msg) buf m out)
  | es_forward th r buf i out :
      emu_step capacity (mkEmuSys th (r :: buf) (MLoop i) out)
        (mkEmuSys th buf (forward i) (out ++ [request_msg i r]))
  | es_complete th i out :
      sender_dropped th = true →
      emu_step capacity (mkEmuSys th [] (MLoop i) out)
        (mkEmuSys th [] MJoin (out ++ [EmulatorComplete]))
  | es_join th buf out :
      sender_dropped th = true →
      emu_step capacity (mkEmuSys th buf MJoin out)
        (mkEmuSys th buf (MDone (join_result th)) out).

Definition emu_init (e : MetaEmulator) : emu_sys := mkEmuSys (ERunning e) [] (MLoop 0) [].

(** *** The sequential emulation *)

(** The records of the whole emulation, and the panic that cut it short. *)
Inductive emulates : MetaEmulator → list EmulationRecord → option string → Prop :=
  | emulates_done e rs e' :
      next_record_batch e = (rs, inl (true, e')) → emulates e rs None
  | emulates_more e rs e' rs' res :
      next_record_batch e = (rs, inl (false, e')) →
      emulates e' rs' res → emulates e (rs ++ rs') res
  | emulates_panic e rs msg :
      next_record_batch e = (rs, inr msg) → emulates e rs (Some msg).

(** It is executable, with fuel for the number of batches. *)
Fixpoint emulate (fuel : nat) (e : MetaEmulator) : option (list EmulationRecord * option string) :=
  match fuel with
  | O => None
  | S fuel =>
      match next_record_batch e with
      | (rs, inl (true, _)) => Some (rs, None)
      | (rs, inl (false, e')) => '(rs', res) ← emulate fuel e'; Some (rs ++ rs', res)
      | (rs, inr msg) => Some (rs, Some msg)
      end
  end.

(** The executable emulation is sound for the relation. *)
Lemma emulate_emulates fuel e rs res : emulate fuel e = Some (rs, res) → emulates e rs res.
Proof.
  revert e rs res; induction fuel as [|fuel IH]; intros e rs res; simpl; [done|].
  destruct (next_record_batch e) as [rs0 [[[] e']|msg]] eqn:E.
  - intros ?; simplify_eq. by eapply emulates_done.
  - destruct (emulate fuel e') as [[rs' res']|] eqn:E'; simpl; [|done].
    intros ?; simplify_eq. eapply emulates_more; eauto.
  - intros ?; simplify_eq. by apply emulates_panic.
Qed.

(** What the gateway is to receive for a list of records. *)
Fixpoint request_msgs (i : Z) (rs : list EmulationRecord) : list GatewayMsg :=
  match rs with
  | [] => []
  | r :: rs => request_msg i r :: request_msgs (i + 1) rs
  end.

Definition emulator_msgs (rs : list EmulationRecord) : list GatewayMsg :=
  request_msgs 0 rs ++ [EmulatorComplete].

Lemma request_msgs_app i rs rs' :
  request_msgs i (rs ++ rs') =
    request_msgs i rs ++ request_msgs (i + Z.of_nat (length rs)) rs'.
Proof.
  revert i; induction rs as [|r rs IH]; intros i; simpl; [by rewrite Z.add_0_r|].
  rewrite IH. do 3 f_equal. lia.
Qed.

Lemma request_msgs_length i rs : length (request_msgs i rs) = length rs.
Proof. revert i; induction rs as [|r rs IH]; intros i; simpl; [done|]. by rewrite IH. Qed.
(** *** Invariant *)

(** The records a thread is still to produce, in at most [b] more batches. *)
Definition thread_future (th : emu_thread) (b : nat) (fut : list EmulationRecord)
    (res : option string) : Prop :=
  match th with
  | ERunning e => emulate b e = Some (fut, res)
  | ESending rs (inl (true, _)) => fut = rs ∧ res = None
  | ESending rs (inl (false, e)) => ∃ fut', emulate b e = Some (fut', res) ∧ fut = rs ++ fut'
  | ESending rs (inr msg) => fut = rs ∧ res = Some msg
  | EFinished _ => fut = [] ∧ res = None
  | EPanicked msg => fut = [] ∧ res = Some msg
  end.

Definition run_result (res : option string) : outcome unit :=
  match res with
  | None => Ret tt
  | Some _ => panic_with "called `Result::unwrap()` on an `Err` value"
  end.

Definition main_inv (s : emu_sys) (res : option string) (rcvd fut : list EmulationRecord) : Prop :=
  match main s with
  | MLoop i => i = Z.of_nat (length rcvd) ∧ sent s = request_msgs 0 rcvd
  | MJoin =>
      buffer s = [] ∧ fut = [] ∧ sender_dropped (thread s) = true ∧
      sent s = emulator_msgs rcvd
  | MDone r =>
      buffer s = [] ∧ fut = [] ∧ sender_dropped (thread s) = true ∧
      sent s = emulator_msgs rcvd ∧ r = run_result res
  end.

(** An upper bound on the number of steps left. *)
Definition thread_cost (th : emu_thread) (b : nat) : nat :=
  match th with
  | ERunning _ => 2 * b
  | ESending _ _ => 2 * b + 1
  | EFinished _ | EPanicked _ => 0
  end.

Definition main_cost (m : main_thread) : nat :=
  match m with MLoop _ => 2 | MJoin => 1 | MDone _ => 0 end.

Definition emu_cost (s : emu_sys) (b : nat) (fut : list EmulationRecord) : nat :=
  3 * length fut + 2 * length (buffer s) + thread_cost (thread s) b + main_cost (main s).

Section Run.
Context (capacity : Z) (recs : list EmulationRecord) (res : option string).
Hypothesis Hcap : 0 ≤ capacity.
Hypothesis Hlen : Z.of_nat (length recs) ≤ usize_max.

Record emu_inv (s : emu_sys) (b : nat) (rcvd fut : list EmulationRecord) : Prop := {
  inv_future : thread_future (thread s) b fut res;
  inv_records : recs = rcvd ++ buffer s ++ fut;
  inv_capacity : Z.of_nat (length (buffer s)) ≤ capacity;
  inv_main : main_inv s res rcvd fut;
}.

Lemma forward_next rcvd r rest :
  recs = rcvd ++ r :: rest →
  forward (Z.of_nat (length rcvd)) = MLoop (Z.of_nat (length (rcvd ++ [r]))).
Proof.
  intros Hr. unfold forward. rewrite Hr, length_app in Hlen. simpl in Hlen.
  rewrite usize_add_exact by (unfold usize_max in *; lia). f_equal.
  rewrite length_app. simpl. lia.
Qed.

Lemma sent_snoc rcvd r :
  request_msgs 0 rcvd ++ [request_msg (Z.of_nat (length rcvd)) r] =
    request_msgs 0 (rcvd ++ [r]).
Proof. by rewrite request_msgs_app. Qed.

(** While the emulator thread is alive the main thread is in its loop. *)
Lemma main_inv_alive th buf m out rcvd fut :
  main_inv (mkEmuSys th buf m out) res rcvd fut → sender_dropped th = false →
  m = MLoop (Z.of_nat (length rcvd)) ∧ out = request_msgs 0 rcvd.
Proof.
  unfold main_inv; destruct m; simpl; [by intros [-> ->]| |];
    intros (_ & _ & Hd & _) Ha; by rewrite Hd in Ha.
Qed.

Lemma thread_future_batch b e fut rs next :
  thread_future (ERunning e) b fut res → next_record_batch e = (rs, next) →
  ∃ b', thread_future (ESending rs next) b' fut res ∧ (2 * b' + 1 < 2 * b)%nat.
Proof.
  destruct b as [|b]; simpl; [done|]. intros Hem E.
  rewrite E in Hem. exists b. split; [|lia].
  destruct next as [[[] e']|msg]; simplify_eq/=; [done| |done].
  destruct (emulate b e') as [[rs' res']|]; simplify_eq/=. by eexists.
Qed.

Lemma thread_future_push b r rs next fut :
  thread_future (ESending (r :: rs) next) b fut res →
  ∃ fut', fut = r :: fut' ∧ thread_future (ESending rs next) b fut' res.
Proof.
  destruct next as [[[] e']|msg]; simpl.
  - intros [-> ->]. by exists rs.
  - intros (fut' & Hem & ->). exists (rs ++ fut'). split; [done|]. by exists fut'.
  - intros [-> ->]. by exists rs.
Qed.

Lemma thread_future_dropped th b fut :
  thread_future th b fut res → sender_dropped th = true →
  fut = [] ∧ join_result th = run_result res.
Proof. destruct th; simpl; try done; by intros [-> ->]. Qed.

(** A step of either thread keeps the invariant and lowers the cost. *)
Ltac close_emu Hrecs :=
  split; [split|];
  solve [done | simpl in *; by rewrite Hrecs, <- app_assoc
        | simpl in *; rewrite ?length_app in *; simpl in *; lia].

Lemma emu_step_inv s s' b rcvd fut :
  emu_inv s b rcvd fut → emu_step capacity s s' →
  ∃ b' rcvd' fut', emu_inv s' b' rcvd' fut' ∧ (emu_cost s' b' fut' < emu_cost s b fut)%nat.
Proof.
  intros [Hth Hrecs Hbuf Hmain] Hstep. unfold emu_cost. destruct Hstep as
    [e rs next buf m out E|r rs next buf m out Hroom|r rs next i out Hz|done e buf m out
    |msg buf m out|th r buf i out|th i out Hd|th buf out Hd]; cbn [thread buffer main sent] in *.
  - destruct (thread_future_batch _ _ _ _ _ Hth E) as (b' & Hth' & Hb).
    apply main_inv_alive in Hmain as [-> ->]; [|done].
    exists b', rcvd, fut. split; [by split|simpl; lia].
  - destruct (thread_future_push _ _ _ _ _ Hth) as (fut' & -> & Hth').
    apply main_inv_alive in Hmain as [-> ->]; [|done].
    exists b, rcvd, fut'. close_emu Hrecs.
  - destruct (thread_future_push _ _ _ _ _ Hth) as (fut' & -> & Hth').
    apply main_inv_alive in Hmain as [[= ->] ->]; [|done].
    rewrite sent_snoc, (forward_next _ _ _ Hrecs).
    exists b, (rcvd ++ [r]), fut'. close_emu Hrecs.
  - apply main_inv_alive in Hmain as [-> ->]; [|done].
    destruct done; simpl in Hth.
    + destruct Hth as [-> ->]. exists b, rcvd, []. split; [by split|simpl; lia].
    + destruct Hth as (fut' & Hem & ->). exists b, rcvd, fut'. split; [by split|simpl; lia].
  - apply main_inv_alive in Hmain as [-> ->]; [|done]. destruct Hth as [-> ->].
    exists b, rcvd, []. split; [by split|simpl; lia].
  - destruct Hmain as [-> Hs]. cbn [sent] in Hs. subst out.
    rewrite sent_snoc, (forward_next _ _ _ Hrecs).
    exists b, (rcvd ++ [r]), fut. close_emu Hrecs.
  - destruct (thread_future_dropped _ _ _ Hth Hd) as [-> _]. destruct Hmain as [_ Hs].
    cbn [sent] in Hs. subst out.
    exists b, rcvd, []. split; [by split|simpl; lia].
  - destruct (thread_future_dropped _ _ _ Hth Hd) as [-> Hj].
    destruct Hmain as (Hb & _ & _ & Hs). cbn [buffer sent] in *. subst buf out.
    exists b, rcvd, []. rewrite Hj. split; [by split|simpl; lia].
Qed.

Lemma emu_init_inv e fuel :
  emulate fuel e = Some (recs, res) → emu_inv (emu_init e) fuel [] recs.
Proof. intros Hem. by split. Qed.

Lemma emu_nsteps_inv n s0 s b rcvd fut :
  nsteps (emu_step capacity) n s0 s → emu_inv s0 b rcvd fut →
  ∃ b' rcvd' fut', emu_inv s b' rcvd' fut' ∧ (n + emu_cost s b' fut' ≤ emu_cost s0 b fut)%nat.
Proof.
  intros Hn. revert b rcvd fut. induction Hn as [s0|n s0 s1 s Hst Hn IH]; intros b rcvd fut Hinv.
  - by exists b, rcvd, fut.
  - destruct (emu_step_inv _ _ _ _ _ Hinv Hst) as (b1 & rcvd1 & fut1 & Hinv1 & Hc).
    destruct (IH _ _ _ Hinv1) as (b' & rcvd' & fut' & Hinv' & Hc').
    exists b', rcvd', fut'. split; [done|lia].
Qed.

(** Once the emulator thread has ended the main thread runs to the end. *)
Lemma dropped_progress th buf m out rcvd fut :
  recs = rcvd ++ buf ++ fut → main_inv (mkEmuSys th buf m out) res rcvd fut →
  sender_dropped th = true → (∀ s', ¬ emu_step capacity (mkEmuSys th buf m out) s') →
  m = MDone (run_result res) ∧ out = emulator_msgs recs.
Proof.
  intros Hrecs Hmain Hd Hstuck. destruct m as [i| |r].
  - exfalso. destruct buf; [by eapply Hstuck, es_complete|eapply Hstuck, es_forward].
  - exfalso. by eapply Hstuck, es_join.
  - destruct Hmain as (Hb & -> & _ & Hs & ->). simpl in *. by rewrite Hs, Hrecs, Hb, !app_nil_r.
Qed.

(** Only a completed run is stuck. *)
Lemma emu_progress s b rcvd fut :
  emu_inv s b rcvd fut → (∀ s', ¬ emu_step capacity s s') →
  main s = MDone (run_result res) ∧ sent s = emulator_msgs recs.
Proof.
  intros [Hth Hrecs Hbuf Hmain] Hstuck. destruct s as [th buf m out]; simpl in *.
  destruct th as [e|[|r rs] next|e|msg].
  - destruct (next_record_batch e) as [rs next] eqn:E. exfalso. by eapply Hstuck, es_batch.
  - exfalso. destruct next as [[done e]|msg];
      [eapply Hstuck, es_batch_end|eapply Hstuck, es_batch_panic].
  - exfalso. apply main_inv_alive in Hmain as [-> ->]; [|done].
    destruct (decide (Z.of_nat (length buf) < capacity)); [by eapply Hstuck, es_push|].
    destruct buf as [|r' buf]; [eapply Hstuck, es_rendezvous; simpl in *; lia|].
    eapply Hstuck, es_forward.
  - by eapply dropped_progress.
  - by eapply dropped_progress.
Qed.
(** What has been sent, in any state and at the end. *)
Lemma emu_inv_prefix s b rcvd fut :
  emu_inv s b rcvd fut → sent s `prefix_of` emulator_msgs recs.
Proof.
  intros [_ Hrecs _ Hmain]. unfold main_inv in Hmain. destruct (main s) as [i| |r]; rewrite Hrecs.
  - destruct Hmain as [_ ->]. unfold emulator_msgs. rewrite request_msgs_app, <- app_assoc.
    by apply prefix_app_r.
  - destruct Hmain as (-> & -> & _ & ->). by rewrite !app_nil_r.
  - destruct Hmain as (-> & -> & _ & -> & _). by rewrite !app_nil_r.
Qed.

Lemma emu_inv_done s b rcvd fut r :
  emu_inv s b rcvd fut → main s = MDone r →
  sent s = emulator_msgs recs ∧ r = run_result res.
Proof.
  intros [_ Hrecs _ Hmain] Hm. unfold main_inv in Hmain. rewrite Hm in Hmain.
  destruct Hmain as (Hb & -> & _ & -> & ->). by rewrite Hrecs, Hb, !app_nil_r.
Qed.

(** One message at a time. *)
Lemma emu_step_sent s s' :
  emu_step capacity s s' → sent s' = sent s ∨ ∃ m, sent s' = sent s ++ [m].
Proof. destruct 1; simpl; eauto. Qed.
End Run.

(** C29: ordering.  However the two threads interleave and whatever the
    capacity of the record channel, what the gateway has been sent is a
    prefix of the requests for the records of the sequential emulation,
    numbered consecutively from 0, followed by one [EmulatorComplete]; and
    the record channel never holds more than its capacity. *)
Theorem emulator_sends_in_order capacity fuel e recs res s :
  0 ≤ capacity → Z.of_nat (length recs) ≤ usize_max →
  emulate fuel e = Some (recs, res) → rtc (emu_step capacity) (emu_init e) s →
  sent s `prefix_of` emulator_msgs recs ∧ Z.of_nat (length (buffer s)) ≤ capacity.
Proof.
  intros Hcap Hlen Hem [n Hn]%rtc_nsteps.
  destruct (emu_nsteps_inv capacity recs res Hlen _ _ _ _ _ _ Hn (emu_init_inv capacity recs res Hcap _ _ Hem))
    as (b & rcvd & fut & Hinv & _).
  split; [by eapply emu_inv_prefix|apply Hinv].
Qed.

(** Termination and progress.  A run whose emulation takes [fuel]
    batches has at most [3 * records + 2 * fuel + 2] steps, and when neither
    thread can move the whole sequence has been sent and the run has
    returned: normally, or by the panic of [join().unwrap()] when the
    emulation panicked (after [EmulatorComplete] was sent all the same). *)
Theorem emulator_terminates capacity fuel e recs res n s :
  0 ≤ capacity → Z.of_nat (length recs) ≤ usize_max →
  emulate fuel e = Some (recs, res) → nsteps (emu_step capacity) n (emu_init e) s →
  (n ≤ 3 * length recs + 2 * fuel + 2)%nat ∧
  ((∀ s', ¬ emu_step capacity s s') →
    sent s = emulator_msgs recs ∧ main s = MDone (run_result res)).
Proof.
  intros Hcap Hlen Hem Hn.
  destruct (emu_nsteps_inv capacity recs res Hlen _ _ _ _ _ _ Hn (emu_init_inv capacity recs res Hcap _ _ Hem))
    as (b & rcvd & fut & Hinv & Hc).
  split; [unfold emu_cost in Hc; simpl in Hc; lia|].
  intros Hstuck. destruct (emu_progress capacity recs res Hcap _ _ _ _ Hinv Hstuck). done.
Qed.
End Emulator.

(** *** An emulation of three chunks, step by step *)
Module ThreeChunkEmulation.
#[local] Existing Instance release_build.

Lemma emulation : @emulate symbolic_pico 3 3 = Some ([false; false; true], None).
Proof. reflexivity. Qed.

Definition requests : list (@GatewayMsg symbolic_pico) :=
  Eval vm_compute in @request_msgs symbolic_pico 0 [false; false; true].

(** The emulator thread is one record ahead of the main thread. *)
Definition halfway : @emu_sys symbolic_pico :=
  mkEmuSys (ERunning 1) [false] (MLoop 1) (take 1 requests).

(** All is sent and both threads have ended. *)
Definition emulated : @emu_sys symbolic_pico :=
  mkEmuSys (EFinished 0) [] (MDone (Ret tt)) (requests ++ [EmulatorComplete]).

(** The next step is one of the given constructor. *)
Ltac emu_next c :=
  eapply nsteps_l; [first [apply c; first [reflexivity | (simpl; lia)] | apply c]|simpl].

Lemma to_halfway : nsteps (@emu_step symbolic_pico release_build 4) 7 (emu_init 3) halfway.
Proof.
  emu_next (@es_batch symbolic_pico release_build 4). emu_next (@es_push symbolic_pico release_build 4).
  emu_next (@es_batch_end symbolic_pico release_build 4). emu_next (@es_batch symbolic_pico release_build 4).
  emu_next (@es_push symbolic_pico release_build 4). emu_next (@es_forward symbolic_pico release_build 4).
  emu_next (@es_batch_end symbolic_pico release_build 4). constructor.
Qed.

Lemma to_emulated : nsteps (@emu_step symbolic_pico release_build 4) 7 halfway emulated.
Proof.
  emu_next (@es_batch symbolic_pico release_build 4). emu_next (@es_push symbolic_pico release_build 4).
  emu_next (@es_forward symbolic_pico release_build 4).
  emu_next (@es_forward symbolic_pico release_build 4).
  emu_next (@es_batch_end symbolic_pico release_build 4).
  emu_next (@es_complete symbolic_pico release_build 4).
  emu_next (@es_join symbolic_pico release_build 4). constructor.
Qed.

Lemma whole_run : nsteps (@emu_step symbolic_pico release_build 4) 14 (emu_init 3) emulated.
Proof. exact (nsteps_trans 7 7 _ _ _ to_halfway to_emulated). Qed.

Lemma emulated_stuck s : ¬ @emu_step symbolic_pico release_build 4 emulated s.
Proof. inversion 1. Qed.
End ThreeChunkEmulation.

(** One request of three is out; then all of them and [EmulatorComplete]. *)
Lemma emulator_sends_in_order_witness :
  (sent ThreeChunkEmulation.halfway `prefix_of` emulator_msgs [false; false; true] ∧
   Z.of_nat (length (buffer ThreeChunkEmulation.halfway)) ≤ 4) ∧
  sent ThreeChunkEmulation.emulated `prefix_of` emulator_msgs [false; false; true] ∧
  length (sent ThreeChunkEmulation.halfway) = 1%nat ∧
  length (sent ThreeChunkEmulation.emulated) = 4%nat.
Proof.
  assert (Hcap : 0 ≤ 4) by lia.
  assert (Hlen : Z.of_nat (length [false; false; true]) ≤ usize_max) by (vm_compute; discriminate).
  pose proof (λ s, @emulator_sends_in_order symbolic_pico release_build 4 3 3 [false; false; true]
    None s Hcap Hlen ThreeChunkEmulation.emulation) as Horder.
  split; [|split; [|done]].
  - apply Horder, rtc_nsteps. eexists. apply ThreeChunkEmulation.to_halfway.
  - apply Horder, rtc_nsteps. eexists. apply ThreeChunkEmulation.whole_run.
Defined.

Lemma emulator_terminates_witness :
  (14 ≤ 3 * 3 + 2 * 3 + 2)%nat ∧
  sent ThreeChunkEmulation.emulated = emulator_msgs [false; false; true] ∧
  main ThreeChunkEmulation.emulated = MDone (run_result None).
Proof.
  assert (Hcap : 0 ≤ 4) by lia.
  assert (Hlen : Z.of_nat (length [false; false; true]) ≤ usize_max) by (vm_compute; discriminate).
  destruct (@emulator_terminates symbolic_pico release_build 4 3 3 [false; false; true] None 14
    ThreeChunkEmulation.emulated Hcap Hlen ThreeChunkEmulation.emulation ThreeChunkEmulation.whole_run)
    as [Hn Hend].
  split; [exact Hn|]. apply Hend, ThreeChunkEmulation.emulated_stuck.
Defined.
