(* ===== verification/Gateway.v ===== *)
(** * The gateway loop ([src/src/proving/gateway/mod.rs])

    One iteration of the [select_biased!] loop, for a message of each of its
    two receivers, as a function of the handler: what is sent to the workers,
    what the completion channel receives and whether the loop is left. *)

From S2P Require Import Prelude ProofTree PicoVM Messages GatewayHandler Worker Onchain Emulator.

(** The [tokio::sync::oneshot] channel [prove_task] waits on. *)
Inductive oneshot : Type :=
  | OnePending
  | OneSent (value : bytes)
  | OneClosed.              (* the sender was dropped without sending *)

Section Gateway.
Context `{PicoVM, !GnarkEnv, AlloyU256}.

Record iteration : Type := mkIteration {
  it_handler : GatewayHandler;
  it_sends : list GatewayMsg;        (* [grpc_endpoint.send] *)
  it_completion : option bytes;      (* [sender.send(proof_bytes)] *)
  it_break : bool;
}.

Definition continue_with (h : GatewayHandler) (sends : list GatewayMsg) : iteration :=
  mkIteration h sends None false.

(** [recv(emulator_receiver) -> msg] *)
Definition on_emulator (h : GatewayHandler) (msg : GatewayMsg) : outcome iteration :=
  match msg with
  | Riscv (RiscvMsg_Request _) _ _ =>
      '(h, no_task) ← process_riscv_req h msg;
      no_task ← unwrap_result "called `Result::unwrap()` on an `Err` value" no_task;
      _ ← rust_assert (negb (bool_decide (is_Some no_task)))
            "assertion failed: no_task.is_none()";
      (* send the task to grpc *)
      Ret (continue_with h [msg])
  | EmulatorComplete =>
      '(h, exit_msg) ← process h msg;
      exit_msg ← unwrap_result "called `Result::unwrap()` on an `Err` value" exit_msg;
      match exit_msg with
      | Some Exit => Ret (mkIteration h [] None true)
      | _ => Ret (continue_with h [])
      end
  | _ => panic_with "unsupported"
  end.

(** The [Exit] branch: the on-chain phase and the completion signal.
    [sender] is whether [completion_sender] is still there to take. *)
Definition finish (h : GatewayHandler) (sender : bool) : outcome iteration :=
  match get_embed_proof h with
  | Some embed_proof =>
      proved ← prove_embed_onchain embed_proof;
      let proof_bytes := match proved with Ok bytes => bytes | Err _ => [] end in
      Ret (mkIteration h [] (if sender then Some proof_bytes else None) true)
  | None => Ret (mkIteration h [] (if sender then Some [] else None) true)
  end.

(** [recv(grpc_endpoint.receiver()) -> msg] *)
Definition on_grpc (h : GatewayHandler) (sender : bool) (msg : GatewayMsg) : outcome iteration :=
  match msg with
  | Riscv (RiscvMsg_Response _) _ _ | Combine (CombineMsg_Response _) _ _
  | Embed _ | Exit =>
      '(h, reply) ← process h msg;
      reply ← unwrap_result "called `Result::unwrap()` on an `Err` value" reply;
      match reply with
      | Some Exit => finish h sender
      | Some task => Ret (continue_with h [task])
      | None => Ret (continue_with h [])
      end
  | RequestTask => Ret (continue_with h [])
  | _ => panic_with "unsupported"
  end.

(** *** What the iterations do on the messages they meet *)

Lemma on_emulator_request h hi r :
  tree_wf (proof_tree h) hi → 0 ≤ hi →
  on_emulator h (request_msg hi r) =
    Ret (continue_with
           (with_tree h (mkProofTree (tree (proof_tree h) ++ [(hi, InProgress [])])))
           [request_msg hi r]).
Proof.
  intros Hwf Hhi. unfold on_emulator, request_msg, process_riscv_req. simpl.
  destruct (init_node_spec _ _ Hwf Hhi) as (-> & _). done.
Qed.

Lemma on_emulator_complete h :
  embed_proof h = None →
  on_emulator h EmulatorComplete =
    Ret (continue_with (mkGatewayHandler true (proof_tree h) None) []).
Proof. intros Hn. unfold on_emulator, process, complete. simpl. by rewrite Hn. Qed.

(** The request handed out for two proofs, if any. *)
Definition combine_requests (k hi : Z) (o : option (list (IndexedProof MetaProof))) :
    list GatewayMsg :=
  match o with
  | Some [a; b] =>
      [combine_request_msg k (bool_decide (start_chunk a = 0 ∧ end_chunk b + 1 = hi)) a b]
  | _ => []
  end.

Lemma on_grpc_reply h sender hi msg k p :
  answer_of msg = Some (k, p) → embed_proof h = None → tree_wf (proof_tree h) hi →
  (k, start_chunk p, end_chunk p + 1) ∈ tickets (tree (proof_tree h)) →
  ∃ t' o rest,
    tree_wf t' hi ∧
    tickets (tree (proof_tree h)) ≡ₚ (k, start_chunk p, end_chunk p + 1) :: rest ∧
    set_proof_post (proof_tree h) k (start_chunk p) (end_chunk p + 1) p t' o rest ∧
    on_grpc h sender msg = Ret (continue_with (with_tree h t') (combine_requests k hi o)).
Proof.
  intros Ha Hn Hwf Hin.
  destruct (process_answer_spec _ _ _ _ _ Ha Hn Hwf Hin)
    as (t' & o & rest & Hwf' & Htk & Hpost & E).
  exists t', o, rest. do 3 (split; [done|]).
  assert (Hm : on_grpc h sender msg =
    '(h, reply) ← process h msg;
    reply ← unwrap_result "called `Result::unwrap()` on an `Err` value" reply;
    match reply with
    | Some Exit => finish h sender
    | Some task => Ret (continue_with h [task])
    | None => Ret (continue_with h [])
    end) by by destruct msg as [| |[] ? ?|[] ? ?| | |].
  rewrite Hm, E. destruct o as [ps|]; [|done].
  destruct Hpost as (a & b & q & -> & _). done.
Qed.

Lemma on_grpc_embed h sender proof :
  on_grpc h sender (Embed proof) = finish (set_embed_proof h proof) sender.
Proof. done. Qed.

End Gateway.
