(* ===== verification/Pipeline.v ===== *)
(** * One proving task: the threads of [prove_task] ([src/src/proving/mod.rs])

    The emulator, the gateway and [prover_count] workers run concurrently,
    connected by the emulator channel and by the two directions of the
    gateway channel.  [exec_step] executes one step of one thread; [step] is
    a step of any of them.  The bias of [select_biased!] is kept: the gateway
    takes a worker message only when the emulator channel is empty. *)

From S2P Require Import Prelude ProofTree PicoVM Messages GatewayHandler Task Provers Worker.
From S2P Require Import Channel Onchain Emulator Gateway RustStr.

Section Pipeline.
Context `{PicoVM, RustBuild, !GnarkEnv, AlloyU256, Chan C}.

Inductive gateway_status : Type :=
  | GwRunning
  | GwStopped
  | GwPanicked (p : panic).

(** [pending] is what the emulator has still to send (its behaviour is
    that of [Emulator.v]: the requests of the emulation in order, then
    [EmulatorComplete]). *)
Record sys : Type := mkSys {
  pending : list GatewayMsg;
  emu_chan : C GatewayMsg;
  handler : GatewayHandler;
  completion_sender : bool;
  status : gateway_status;
  to_workers : C GatewayMsg;
  to_gateway : C GatewayMsg;
  workers : list worker_state;
  completion : oneshot;
}.

(** The threads of [prove_task] before any of them has run. *)
Definition sys_init (recs : list EmulationRecord) (prover_count : nat) : sys := {|
  pending := emulator_msgs recs;
  emu_chan := ch_new;
  handler := GatewayHandler_new;
  completion_sender := true;
  status := GwRunning;
  to_workers := ch_new;
  to_gateway := ch_new;
  workers := replicate prover_count worker_init;
  completion := OnePending;
|}.

Definition send_all (c : C GatewayMsg) (msgs : list GatewayMsg) : C GatewayMsg :=
  foldl ch_send c msgs.

(** The state after an iteration of the gateway, given the two channels it
    received from.  Leaving the loop or unwinding drops the sender. *)
Definition apply_iteration (s : sys) (ec tg : C GatewayMsg) (it : outcome iteration) : sys :=
  match it with
  | Ret it => {|
      pending := pending s; emu_chan := ec;
      handler := it_handler it;
      completion_sender := completion_sender s && negb (it_break it);
      status := if it_break it then GwStopped else GwRunning;
      to_workers := send_all (to_workers s) (it_sends it);
      to_gateway := tg;
      workers := workers s;
      completion :=
        match it_completion it with
        | Some bytes => OneSent bytes
        | None => if it_break it then OneClosed else completion s
        end |}
  | Panic p => {|
      pending := pending s; emu_chan := ec; handler := handler s;
      completion_sender := false; status := GwPanicked p;
      to_workers := to_workers s; to_gateway := tg; workers := workers s;
      completion := OneClosed |}
  end.

Definition is_running (st : gateway_status) : bool :=
  match st with GwRunning => true | _ => false end.

Definition set_worker (s : sys) (i : nat) (w : worker_state) (tw tg : C GatewayMsg) : sys := {|
  pending := pending s; emu_chan := emu_chan s; handler := handler s;
  completion_sender := completion_sender s; status := status s;
  to_workers := tw; to_gateway := tg;
  workers := <[i := w]> (workers s); completion := completion s |}.

(** A step of one of the threads. *)
Inductive label : Type :=
  | LEmulator             (* the emulator sends its next message *)
  | LGatewayEmulator      (* the gateway receives from the emulator *)
  | LGatewayGrpc          (* the gateway receives from a worker *)
  | LWorkerRecv (i : nat) (* worker [i] receives and computes *)
  | LWorkerSend (i : nat) (* worker [i] sends its next message *).

Section Steps.
Context (prover : nat → Prover).

Definition exec_step (l : label) (s : sys) : option sys :=
  match l with
  | LEmulator =>
      match pending s with
      | m :: ms => Some {|
          pending := ms; emu_chan := ch_send (emu_chan s) m; handler := handler s;
          completion_sender := completion_sender s; status := status s;
          to_workers := to_workers s; to_gateway := to_gateway s;
          workers := workers s; completion := completion s |}
      | [] => None
      end
  | LGatewayEmulator =>
      if is_running (status s) then
        match ch_recv (emu_chan s) with
        | Some (m, ec) =>
            Some (apply_iteration s ec (to_gateway s) (on_emulator (handler s) m))
        | None => None
        end
      else None
  | LGatewayGrpc =>
      if is_running (status s) then
        match ch_recv (emu_chan s), ch_recv (to_gateway s) with
        | None, Some (m, tg) =>
            Some (apply_iteration s (emu_chan s) tg
                    (on_grpc (handler s) (completion_sender s) m))
        | _, _ => None
        end
      else None
  | LWorkerRecv i =>
      match workers s !! i, ch_recv (to_workers s) with
      | Some WRecv, Some (m, tw) =>
          let '(out, next) := worker_handle (prover i) m in
          Some (set_worker s i (worker_sending out next) tw (to_gateway s))
      | _, _ => None
      end
  | LWorkerSend i =>
      match workers s !! i with
      | Some (WSending (m :: ms) next) =>
          Some (set_worker s i (worker_sending ms next) (to_workers s)
                  (ch_send (to_gateway s) m))
      | _ => None
      end
  end.

Definition step (s s' : sys) : Prop := ∃ l, exec_step l s = Some s'.

Fixpoint exec (ls : list label) (s : sys) : option sys :=
  match ls with
  | [] => Some s
  | l :: ls => s' ← exec_step l s; exec ls s'
  end.

Lemma exec_rtc ls s s' : exec ls s = Some s' → rtc step s s'.
Proof.
  revert s; induction ls as [|l ls IH]; intros s; simpl.
  - intros [= ->]. apply rtc_refl.
  - destruct (exec_step l s) as [s1|] eqn:E; simpl; [|done].
    intros E'. eapply rtc_l; [by exists l|by apply IH].
Qed.

Lemma exec_nsteps ls s s' : exec ls s = Some s' → nsteps step (length ls) s s'.
Proof.
  revert s; induction ls as [|l ls IH]; intros s; simpl.
  - intros [= ->]. constructor.
  - destruct (exec_step l s) as [s1|] eqn:E; simpl; [|done].
    intros E'. econstructor; [by exists l|by apply IH].
Qed.

(** No thread can move. *)
Definition stuck (s : sys) : Prop := ∀ s', ¬ step s s'.

Definition labels (workers : nat) : list label :=
  [LEmulator; LGatewayEmulator; LGatewayGrpc] ++
  flat_map (λ i, [LWorkerRecv i; LWorkerSend i]) (seq 0 workers).

Definition stuckb (s : sys) : bool :=
  forallb (λ l, negb (bool_decide (is_Some (exec_step l s)))) (labels (length (workers s))).

Lemma worker_label_None s i :
  (length (workers s) ≤ i)%nat →
  exec_step (LWorkerRecv i) s = None ∧ exec_step (LWorkerSend i) s = None.
Proof. intros Hi. simpl. by rewrite lookup_ge_None_2. Qed.

Lemma stuckb_stuck s : stuckb s = true → stuck s.
Proof.
  unfold stuckb. rewrite forallb_forall. intros Hall s' [l El].
  assert (Hl : In l (labels (length (workers s))) → False).
  { intros Hin. specialize (Hall _ Hin). by rewrite El, bool_decide_true in Hall. }
  apply Hl. unfold labels. apply in_or_app.
  destruct l as [| | |i|i]; simpl; try tauto; right; apply in_flat_map; exists i;
    (split; [apply in_seq; split; [lia|]|simpl; tauto]);
    (destruct (decide (i < length (workers s))%nat) as [|Hi]; [done|]);
    destruct (worker_label_None s i) as [E1 E2]; simpl in *; try lia; congruence.
Qed.
End Steps.

(** The provers of a task (the CPU ones: the CUDA ones are unimplemented). *)
Definition task_prover (task : ProvingTask) (i : nat) : Prover :=
  Prover_new ("prover-" +:+ pretty i) task.

(** What [prove_task] returns.  The CUDA provers are created, and panic,
    before the emulator is started; [emulator::run(..)] is run to its end
    and unwrapped, whatever the pipeline does meanwhile, before the
    completion signal is awaited; the joins that follow have a timeout and
    do not change the result. *)
Inductive prove_task (task : ProvingTask) (prover_count : nat) :
    outcome (result bytes string) → Prop :=
  | prove_task_cuda p :
      task_use_gpu task = true → (0 < prover_count)%nat →
      Prover_new_cuda "prover-0" task = Panic p →
      prove_task task prover_count (Panic p)
  | prove_task_setup_panic p :
      task_use_gpu task = false ∨ prover_count = O →
      emulator_setup task = Panic p →
      prove_task task prover_count (Panic p)
  | prove_task_emulation_panic e capacity fuel recs msg :
      task_use_gpu task = false ∨ prover_count = O →
      emulator_setup task = Ret (e, capacity) →
      emulate fuel e = Some (recs, Some msg) →
      prove_task task prover_count
        (panic_with "called `Result::unwrap()` on an `Err` value")
  | prove_task_returns e capacity fuel recs s res :
      task_use_gpu task = false ∨ prover_count = O →
      emulator_setup task = Ret (e, capacity) →
      emulate fuel e = Some (recs, None) →
      rtc (step (task_prover task)) (sys_init recs prover_count) s →
      pending s = [] →
      match completion s with
      | OnePending => False
      | OneSent bytes => res = Ok bytes
      | OneClosed => res = Err "channel closed"
      end →
      prove_task task prover_count (Ret res).
End Pipeline.

(** ** Executing a task

    A task whose emulation yields three chunks, run by the symbolic prover on
    list channels. *)
Module ThreeChunks.
#[local] Existing Instance release_build.

Definition app_id : string :=
  "0000000000000000000000000000000000000000000000000000000000000003".

Definition task : ProvingTask := mkProvingTask (mkProvingKey app_id "task") 3 tt 3 None false.

Definition records : list EmulationRecord := [false; false; true].

(** A schedule by priority: the first enabled thread of [ls] moves. *)
Fixpoint schedule (ls : list label) (fuel : nat) (s : sys (C := list)) : list label :=
  match fuel with
  | O => []
  | S fuel =>
      match list_find (λ l, is_Some (exec_step (task_prover task) l s)) ls with
      | Some (_, l) =>
          match exec_step (task_prover task) l s with
          | Some s' => l :: schedule ls fuel s'
          | None => []
          end
      | None => []
      end
  end.

Definition threads : list label :=
  [LEmulator; LGatewayEmulator; LGatewayGrpc; LWorkerRecv 0; LWorkerSend 0].

(** The emulator first: a complete run. *)
Definition complete_run : list label :=
  Eval vm_compute in schedule threads 100 (sys_init records 1).

(** The first two chunks are proved before the third is announced. *)
Definition early_run : list label :=
  [LEmulator; LEmulator; LGatewayEmulator; LGatewayEmulator; LWorkerSend 0; LGatewayGrpc;
   LWorkerRecv 0; LWorkerSend 0; LWorkerSend 0; LWorkerRecv 0; LWorkerSend 0; LWorkerSend 0;
   LGatewayGrpc; LGatewayGrpc; LGatewayGrpc].

Definition run_state (ls : list label) : sys (C := list) :=
  default (sys_init records 1) (exec (task_prover task) ls (sys_init records 1)).

Definition final_state : sys (C := list) := Eval vm_compute in run_state complete_run.

Definition early_state : sys (C := list) := Eval vm_compute in run_state early_run.

Lemma complete_run_exec :
  exec (task_prover task) complete_run (sys_init records 1) = Some final_state.
Proof. vm_compute. reflexivity. Qed.

Lemma early_run_exec :
  exec (task_prover task) early_run (sys_init records 1) = Some early_state.
Proof. vm_compute. reflexivity. Qed.

Lemma complete_run_rtc : rtc (step (task_prover task)) (sys_init records 1) final_state.
Proof. apply (exec_rtc _ complete_run), complete_run_exec. Qed.

Lemma early_run_rtc : rtc (step (task_prover task)) (sys_init records 1) early_state.
Proof. apply (exec_rtc _ early_run), early_run_exec. Qed.

Lemma task_proved :
  prove_task (C := list) task 1 (Ret (Ok (proof_bytes [1; 2; 3; 4; 5; 6; 7; 8; 9; 10]))).
Proof.
  eapply (prove_task_returns task 1 3 4 5 records final_state); [by left|reflexivity|reflexivity| | |];
    [apply complete_run_rtc|reflexivity|]. vm_compute. reflexivity.
Qed.

Example complete_run_length : length complete_run = 34%nat.
Proof. reflexivity. Qed.

Example complete_run_delivers :
  completion <$> exec (task_prover task) complete_run (sys_init records 1) =
    Some (OneSent (proof_bytes [1; 2; 3; 4; 5; 6; 7; 8; 9; 10])).
Proof. vm_compute. reflexivity. Qed.
End ThreeChunks.
