(* ===== verification/EmulatorPipeline.v ===== *)
(** * The emulator inside the pipeline

    [Pipeline.v] replaces the emulator by the list of the messages it has
    still to send.  Here its two threads run inside the task, interleaved with
    the gateway and the workers, and the replacement is shown to be a
    refinement: a run of the whole is a run of [Pipeline.v], and the whole is
    stuck only where [Pipeline.v] is.  What is proved of the runs and of the
    stuck states of [Pipeline.v] therefore holds of the whole. *)

From S2P Require Import Prelude ProofTree PicoVM Messages GatewayHandler Task Provers Worker.
From S2P Require Import Channel Onchain Emulator Gateway Pipeline.

Section EmulatorPipeline.
Context `{PicoVM, RustBuild, !GnarkEnv, AlloyU256, Chan C}.

(** The threads of the emulator, and the rest of the task. *)
Record full : Type := mkFull {
  full_emulator : emu_sys;
  full_rest : sys (C := C);
}.

Definition set_emulator (s : sys (C := C)) (pending : list GatewayMsg) (chan : C GatewayMsg) : sys :=
  mkSys pending chan (handler s) (completion_sender s) (status s) (to_workers s) (to_gateway s)
    (workers s) (completion s).

(** [emulator_gateway_channel.sender()] is the sender of the emulator's main
    thread: what it sends goes to the gateway's channel. *)
Definition emulator_sends (s : sys (C := C)) (msgs : list GatewayMsg) : sys :=
  set_emulator s (pending s) (send_all (emu_chan s) msgs).

Section Steps.
Context (capacity : Z) (prover : nat → Prover).

Inductive full_step : full → full → Prop :=
  | full_step_emulator e e' s :
      emu_step capacity e e' →
      full_step (mkFull e s)
        (mkFull e' (emulator_sends s (drop (length (sent e)) (sent e'))))
  | full_step_rest e s l s' :
      l ≠ LEmulator → exec_step prover l s = Some s' → full_step (mkFull e s) (mkFull e s').

Definition full_init (e : MetaEmulator) (prover_count : nat) : full :=
  mkFull (emu_init e) (set_emulator (sys_init [] prover_count) [] ch_new).

(** Runs of one side, the other at rest. *)
Lemma full_emulator_run n e e' s :
  nsteps (emu_step capacity) n e e' →
  ∃ msgs, sent e' = sent e ++ msgs ∧ rtc full_step (mkFull e s) (mkFull e' (emulator_sends s msgs)).
Proof.
  intros Hn. revert s. induction Hn as [e|n e e1 e' Hs _ IH]; intros s.
  - exists []. rewrite app_nil_r. split; [done|]. destruct s. apply rtc_refl.
  - assert (∃ l, sent e1 = sent e ++ l) as [l Hl].
    { destruct (emu_step_sent _ _ _ Hs) as [->|[m ->]]; [exists []; by rewrite app_nil_r|by exists [m]]. }
    destruct (IH (emulator_sends s l)) as (msgs & Hm & Hr). exists (l ++ msgs).
    rewrite Hm, Hl, <- app_assoc. split; [done|]. eapply rtc_l; [by apply full_step_emulator|].
    rewrite Hl, drop_app_length. unfold emulator_sends, send_all in *. rewrite foldl_app. exact Hr.
Qed.

Lemma full_rest_run ls e s s' :
  LEmulator ∉ ls → exec prover ls s = Some s' →
  rtc full_step (mkFull e s) (mkFull e s').
Proof.
  revert s; induction ls as [|l ls IH]; intros s; simpl; [by intros _ [= ->]; apply rtc_refl|].
  rewrite not_elem_of_cons. intros [Hl Hls] E.
  destruct (exec_step prover l s) as [s1|] eqn:E1; [|done].
  eapply rtc_l; [by eapply full_step_rest; [apply not_eq_sym|]|by apply IH].
Qed.

(** *** The refinement *)

Context (recs : list EmulationRecord) (res : option string).

(** The state of [Pipeline.v] that a state of the whole stands for. *)
Definition abstracts (f : full) : sys (C := C) :=
  set_emulator (full_rest f)
    (drop (length (sent (full_emulator f))) (emulator_msgs recs)) (emu_chan (full_rest f)).

(** The other threads do not look at the emulator's list. *)
Lemma exec_step_pending l s p :
  l ≠ LEmulator →
  exec_step prover l (set_emulator s p (emu_chan s)) =
    (λ s', set_emulator s' p (emu_chan s')) <$> exec_step prover l s.
Proof.
  intros Hl. destruct l as [| | |i|i]; [done| | | |]; simpl.
  - destruct (is_running (status s)); [|done].
    destruct (ch_recv (emu_chan s)) as [[m ec]|]; [|done].
    simpl. f_equal. unfold apply_iteration. by destruct (on_emulator _ _).
  - destruct (is_running (status s)); [|done].
    destruct (ch_recv (emu_chan s)) as [|]; [done|].
    destruct (ch_recv (to_gateway s)) as [[m tg]|]; [|done].
    simpl. f_equal. unfold apply_iteration. by destruct (on_grpc _ _ _).
  - destruct (workers s !! i) as [[]|]; try done.
    destruct (ch_recv (to_workers s)) as [[m tw]|]; [|done].
    by destruct (worker_handle (prover i) m).
  - by destruct (workers s !! i) as [[|[|m ms] next| |]|].
Qed.

(** A message of the emulator is a step of [LEmulator]. *)
Lemma emulator_step_simulated e e' s :
  sent e' `prefix_of` emulator_msgs recs → emu_step capacity e e' →
  rtc (step prover) (abstracts (mkFull e s))
    (abstracts (mkFull e' (emulator_sends s (drop (length (sent e)) (sent e'))))).
Proof.
  intros [rest Hpre] [Hs|[m Hs]]%emu_step_sent.
  - unfold abstracts, emulator_sends. simpl. rewrite Hs, drop_all. apply rtc_refl.
  - assert (Hnow : drop (length (sent e)) (emulator_msgs recs) = m :: rest).
    { by rewrite Hpre, Hs, <- app_assoc, drop_app_length. }
    assert (Hnext : drop (length (sent e')) (emulator_msgs recs) = rest).
    { by rewrite Hpre, drop_app_length. }
    assert (Hnew : drop (length (sent e)) (sent e') = [m]) by (by rewrite Hs, drop_app_length).
    apply rtc_once. exists LEmulator. unfold abstracts, emulator_sends. simpl.
    by rewrite Hnow, Hnext, Hnew.
Qed.

Hypothesis Hcap : 0 ≤ capacity.
Hypothesis Hlen : Z.of_nat (length recs) ≤ usize_max.

Definition emu_reached (e : emu_sys) : Prop :=
  ∃ b rcvd fut, emu_inv capacity recs res e b rcvd fut.

Lemma emu_reached_step e e' : emu_reached e → emu_step capacity e e' → emu_reached e'.
Proof.
  intros (b & rcvd & fut & Hinv) Hs.
  destruct (emu_step_inv _ _ _ Hlen _ _ _ _ _ Hinv Hs) as (b' & rcvd' & fut' & Hinv' & _).
  by exists b', rcvd', fut'.
Qed.

Lemma full_step_simulated f f' :
  emu_reached (full_emulator f) → full_step f f' →
  emu_reached (full_emulator f') ∧ rtc (step prover) (abstracts f) (abstracts f').
Proof.
  intros He Hs. destruct Hs as [e e' s Hs|e s l s' Hl Hs]; simpl in *.
  - assert (He' : emu_reached e') by (by eapply emu_reached_step). split; [done|].
    apply emulator_step_simulated; [|done].
    destruct He' as (b & rcvd & fut & Hinv). by eapply emu_inv_prefix.
  - split; [done|]. apply rtc_once. exists l.
    unfold abstracts. simpl. by rewrite exec_step_pending, Hs.
Qed.

Lemma full_run_simulated f f' :
  emu_reached (full_emulator f) → rtc full_step f f' →
  emu_reached (full_emulator f') ∧ rtc (step prover) (abstracts f) (abstracts f').
Proof.
  intros He Hr. induction Hr as [f|f f1 f' Hs Hr IH]; [split; [done|apply rtc_refl]|].
  destruct (full_step_simulated _ _ He Hs) as [He1 Hs1].
  destruct (IH He1) as [He' Hr']. split; [done|by etrans].
Qed.

(** Where the whole is stuck, so is [Pipeline.v]. *)
Lemma full_stuck_stuck f :
  emu_reached (full_emulator f) → (∀ f', ¬ full_step f f') →
  main (full_emulator f) = MDone (run_result res) ∧ stuck prover (abstracts f).
Proof.
  intros (b & rcvd & fut & Hinv) Hstuck. destruct f as [e s]. simpl in *.
  destruct (emu_progress _ _ _ Hcap _ _ _ _ Hinv) as [Hm Hs].
  { intros e' Hs. by eapply Hstuck, full_step_emulator. }
  split; [done|]. intros s' [l E]. unfold abstracts in E. simpl in E.
  rewrite Hs, drop_all in E. assert (Hl : l ≠ LEmulator) by (by intros ->).
  rewrite (exec_step_pending _ _ _ Hl) in E.
  destruct (exec_step prover l s) as [s1|] eqn:E1; [|done].
  by eapply Hstuck, full_step_rest.
Qed.
End Steps.

(** C12: refinement.  With the two threads of the emulator running inside the
    task, for any capacity of the record channel: every reachable state of
    the whole is, for the gateway and the workers, a reachable state of the
    pipeline whose emulator is a list of messages; when the emulator's call
    has returned the list is empty and the result is that of the emulation;
    and when nothing can move, the emulator has returned and the pipeline
    cannot move either. *)
Theorem emulator_refines_pending capacity prover fuel e recs res n f :
  0 ≤ capacity → Z.of_nat (length recs) ≤ usize_max → emulate fuel e = Some (recs, res) →
  rtc (full_step capacity prover) (full_init e n) f →
  rtc (step prover) (sys_init recs n) (abstracts recs f) ∧
  (∀ r, main (full_emulator f) = MDone r →
     r = run_result res ∧ pending (abstracts recs f) = []) ∧
  ((∀ f', ¬ full_step capacity prover f f') →
     main (full_emulator f) = MDone (run_result res) ∧ stuck prover (abstracts recs f)).
Proof.
  intros Hcap Hlen Hem Hr.
  assert (Hinit : emu_reached capacity recs res (emu_init e)).
  { exists fuel, [], recs. by apply emu_init_inv. }
  destruct (full_run_simulated capacity prover recs res Hlen (full_init e n) f Hinit Hr) as [Hf Hsim].
  split; [exact Hsim|]. split; [|by apply full_stuck_stuck].
  intros r Hm. destruct Hf as (b & rcvd & fut & Hinv).
  destruct (emu_inv_done _ _ _ _ _ _ _ _ Hinv Hm) as [Hs ->].
  split; [done|]. unfold abstracts. simpl. by rewrite Hs, drop_all.
Qed.
End EmulatorPipeline.

(** *** Witness: the three-chunk task, its emulator running on *)
Module ThreeChunksFull.
#[local] Existing Instance release_build.

Definition prover : nat → Prover := task_prover ThreeChunks.task.

Definition start : @sys symbolic_pico list := full_rest (full_init (H := symbolic_pico) (C := list) 3 1).

(** The gateway and the worker serve the first chunk while the emulator is at
    the third; then the rest. *)
Definition first_chunk : list label := [LGatewayEmulator; LWorkerSend 0; LGatewayGrpc; LWorkerRecv 0].

Definition after_first : @sys symbolic_pico list :=
  Eval vm_compute in
    default start (exec prover first_chunk (emulator_sends start (take 1 ThreeChunkEmulation.requests))).

Definition others : list label := [LGatewayEmulator; LGatewayGrpc; LWorkerRecv 0; LWorkerSend 0].

Definition last_sent : list (@GatewayMsg symbolic_pico) :=
  drop 1 ThreeChunkEmulation.requests ++ [EmulatorComplete].

Definition last_chunks : list label :=
  Eval vm_compute in ThreeChunks.schedule others 100 (emulator_sends after_first last_sent).

Definition delivered_state : @sys symbolic_pico list :=
  Eval vm_compute in default start (exec prover last_chunks (emulator_sends after_first last_sent)).

Definition final : full (C := list) := mkFull ThreeChunkEmulation.emulated delivered_state.

Ltac no_emulator := repeat (apply not_elem_of_cons; split; [done|]); apply not_elem_of_nil.

Lemma full_rtc : rtc (full_step 4 prover) (full_init 3 1) final.
Proof.
  destruct (full_emulator_run 4 prover _ _ _ start ThreeChunkEmulation.to_halfway) as (m1 & E1 & R1).
  destruct (full_emulator_run 4 prover _ _ _ after_first ThreeChunkEmulation.to_emulated)
    as (m2 & E2 & R2).
  assert (m1 = take 1 ThreeChunkEmulation.requests) as -> by (symmetry; exact E1).
  assert (m2 = last_sent) as -> by (symmetry in E2; by injection E2).
  etrans; [exact R1|]. etrans; [apply (full_rest_run 4 prover first_chunk); [no_emulator|vm_compute; reflexivity]|].
  etrans; [exact R2|]. apply (full_rest_run 4 prover last_chunks); [no_emulator|vm_compute; reflexivity].
Qed.
End ThreeChunksFull.

#[local] Existing Instance release_build.

(** The run to the delivery is one of the pipeline, which delivers too. *)
Lemma emulator_refines_pending_witness :
  rtc (step (task_prover ThreeChunks.task)) (sys_init ThreeChunks.records 1)
    (abstracts ThreeChunks.records ThreeChunksFull.final) ∧
  pending (abstracts ThreeChunks.records ThreeChunksFull.final) = [] ∧
  completion (full_rest ThreeChunksFull.final) = OneSent (proof_bytes [1; 2; 3; 4; 5; 6; 7; 8; 9; 10]).
Proof.
  destruct (emulator_refines_pending (C := list) 4 (task_prover ThreeChunks.task) 3 3
    ThreeChunks.records None 1 ThreeChunksFull.final) as (Hrun & Hdone & _);
    [lia|vm_compute; discriminate|reflexivity|exact ThreeChunksFull.full_rtc|].
  split; [exact Hrun|]. split; [|reflexivity]. by apply (Hdone (Ret tt)).
Defined.
