(* ===== verification/PipelineInv.v ===== *)
(** * Safety of the pipeline

    The invariant of every reachable state of [Pipeline.v], and what follows
    from it: no guard of the gateway or of a worker ever fires, and what is
    delivered comes from a verified embed proof.  Everything holds for any
    prover, any schedule, any number of workers and any first-in first-out
    channel. *)

From S2P Require Import Prelude BTreeMap ProofTree PicoVM Messages GatewayHandler Task Provers.
From S2P Require Import Worker Channel Onchain Emulator Gateway Pipeline RustStr.

(** ** Messages and tickets in flight *)

Section Flight.
Context `{PicoVM, RustBuild, !GnarkEnv, AlloyU256, FifoChan C}.

Definition tickets_of (l : list GatewayMsg) : list ticket := l ≫= msg_ticket.

Definition worker_pending (w : worker_state) : list GatewayMsg :=
  match w with WSending ms _ => ms | _ => [] end.

Definition worker_tickets (ws : list worker_state) : list ticket :=
  ws ≫= (λ w, tickets_of (worker_pending w)).

(** The work in flight between the gateway and the workers. *)
Definition flight (s : sys (C := C)) : list ticket :=
  tickets_of (ch_contents (to_workers s)) ++ worker_tickets (workers s) ++
  tickets_of (ch_contents (to_gateway s)).

Lemma tickets_of_app l l' : tickets_of (l ++ l') = tickets_of l ++ tickets_of l'.
Proof. apply bind_app. Qed.

Lemma tickets_of_cons m l : tickets_of (m :: l) = msg_ticket m ++ tickets_of l.
Proof. done. Qed.

Lemma worker_tickets_split ws1 w ws2 :
  worker_tickets (ws1 ++ w :: ws2) =
    worker_tickets ws1 ++ tickets_of (worker_pending w) ++ worker_tickets ws2.
Proof. unfold worker_tickets. by rewrite bind_app. Qed.

Lemma send_all_contents (c : C GatewayMsg) l :
  ch_contents (send_all c l) = ch_contents c ++ l.
Proof.
  revert c; induction l as [|m l IH]; intros c; simpl; [by rewrite app_nil_r|].
  by rewrite IH, ch_send_contents, <- app_assoc.
Qed.

Definition has_embed (l : list GatewayMsg) : Prop := ∃ e, Embed e ∈ l.

(** The first [Exit] of a queue comes after an [Embed]. *)
Fixpoint no_early_exit (l : list GatewayMsg) : Prop :=
  match l with
  | [] => True
  | Embed _ :: _ => True
  | Exit :: _ => False
  | _ :: l => no_early_exit l
  end.

Lemma no_early_exit_snoc l m :
  no_early_exit l → (m = Exit → has_embed l) → no_early_exit (l ++ [m]).
Proof.
  induction l as [|m' l IH]; simpl; intros Hl Hm.
  - destruct m; try done. destruct (Hm eq_refl) as [e He]. by apply elem_of_nil in He.
  - destruct m'; try done; apply IH; try done; intros ->;
      destruct (Hm eq_refl) as [e [?|He]%elem_of_cons]; try done; by exists e.
Qed.

Definition is_embed (m : GatewayMsg) : bool := match m with Embed _ => true | _ => false end.

Lemma no_early_exit_tail m l :
  no_early_exit (m :: l) → is_embed m = false → m ≠ Exit ∧ no_early_exit l.
Proof. by destruct m. Qed.

Lemma has_embed_tail m l : has_embed (m :: l) → is_embed m = false → has_embed l.
Proof. intros [e [<-|He]%elem_of_cons] Hm; [done|by exists e]. Qed.

Lemma has_embed_snoc l m : has_embed l → has_embed (l ++ [m]).
Proof. intros [e He]. exists e. apply elem_of_app. by left. Qed.
Lemma has_embed_cons m l : has_embed (m :: l) ↔ is_embed m = true ∨ has_embed l.
Proof.
  unfold has_embed. setoid_rewrite elem_of_cons. split.
  - intros [e [<-|He]]; [by left|right; by exists e].
  - intros [Hm|[e He]]; [destruct m as [| | | |e| |]; try done; exists e; by left|].
    exists e. by right.
Qed.

Lemma has_embed_app l l' : has_embed (l ++ l') ↔ has_embed l ∨ has_embed l'.
Proof. unfold has_embed. setoid_rewrite elem_of_app. firstorder. Qed.

Lemma worker_pending_sending ms next : worker_pending (worker_sending ms next) = ms.
Proof. by destruct ms, next. Qed.
End Flight.

#[export] Hint Rewrite @tickets_of_app @tickets_of_cons @worker_tickets_split
  @send_all_contents using typeclasses eauto : rust_rw.

(** ** The invariant *)

Section Invariant.
Context `{PicoVM, RustBuild, !GnarkEnv, AlloyU256, FifoChan C}.
Context (task : ProvingTask) (recs : list EmulationRecord).

Definition chunk_count : Z := Z.of_nat (length recs).

(** The embed proof passes the worker's verification against the task's key. *)
Definition verified (e : EmbedMetaProof) : Prop :=
  EmbedMachine_verify (EmbedMachine_new EmbedSC_default RecursionChip_embed RECURSION_NUM_PVS)
    e (task_vk task) = Ok tt.

Definition reply_ok (m : GatewayMsg) : Prop :=
  match m with
  | RequestTask | Exit => True
  | Embed e => verified e
  | m => is_reply m = true
  end.

Inductive worker_ok : worker_state → Prop :=
  | worker_ok_recv : worker_ok WRecv
  | worker_ok_request : worker_ok (WSending [RequestTask] NextLoop)
  | worker_ok_reply r : is_reply r = true → worker_ok (WSending [r; RequestTask] NextLoop)
  | worker_ok_final e : verified e → worker_ok (WSending [Embed e; Exit] NextBreak)
  | worker_ok_exit : worker_ok (WSending [Exit] NextBreak)
  | worker_ok_exited : worker_ok WExited
  | worker_ok_panicked p : library_panic p → worker_ok (WPanicked p).

(** Workers that have sent their embed proof. *)
Definition after_embed (w : worker_state) : Prop :=
  w = WExited ∨ w = WSending [Exit] NextBreak.

(** The chunks initialised once [m] emulator messages are consumed. *)
Definition chunks_inited (m : nat) : Z := Z.min (Z.of_nat m) chunk_count.

(** While the gateway runs.  [m] counts the emulator messages it has
    consumed; [lost] are the tickets that left the system: with a worker
    that died, or by an embed proof. *)
Record running_inv (s : sys (C := C)) (m : nat) (lost : list ticket) : Prop := {
  run_emulator : ch_contents (emu_chan s) ++ pending s = drop m (emulator_msgs recs);
  run_consumed : (m ≤ S (length recs))%nat;
  run_tree_wf : tree_wf (proof_tree (handler s)) (chunks_inited m);
  run_complete : emulator_complete (handler s) = bool_decide (m = S (length recs));
  run_embed : embed_proof (handler s) = None;
  run_sender : completion_sender s = true;
  run_pending : completion s = OnePending;
  run_tickets : tickets (tree (proof_tree (handler s))) ≡ₚ flight s ++ lost;
  run_exit : no_early_exit (ch_contents (to_gateway s));
  run_after : ∀ w, w ∈ workers s → after_embed w → has_embed (ch_contents (to_gateway s));
}.

(** [bs] is what the gateway delivers for the embed proof [e]. *)
Definition delivered (e : EmbedMetaProof) (bs : bytes) : Prop :=
  verified e ∧
  (prove_embed_onchain e = Ret (Ok bs) ∨
   bs = [] ∧ ∃ err, prove_embed_onchain e = Ret (Err err)).

Record sys_inv (s : sys (C := C)) : Prop := {
  inv_requests : Forall (request_ok chunk_count) (ch_contents (to_workers s));
  inv_workers : Forall worker_ok (workers s);
  inv_replies : Forall reply_ok (ch_contents (to_gateway s));
  inv_status :
    match status s with
    | GwRunning => ∃ m lost, running_inv s m lost
    | GwStopped => ∃ e bs, completion s = OneSent bs ∧ delivered e bs
    | GwPanicked p =>
        completion s = OneClosed ∧ ∃ e, verified e ∧ prove_embed_onchain e = Panic p
    end;
}.

(** *** The initial state *)

Lemma worker_tickets_init n : worker_tickets (replicate n worker_init) = [].
Proof. by induction n. Qed.

Lemma sys_init_inv n : sys_inv (sys_init recs n).
Proof.
  split; simpl; rewrite ?ch_new_contents; [by constructor| |by constructor|].
  - apply Forall_replicate. constructor.
  - exists O, []. split; simpl; rewrite ?ch_new_contents; auto; try done.
    + lia.
    + unfold chunks_inited. rewrite Z.min_l by (unfold chunk_count; lia). apply tree_wf_empty.
    + unfold flight. simpl. by rewrite !ch_new_contents, worker_tickets_init.
    + intros w Hw%elem_of_replicate_inv [->| ->]; done.
Qed.

(** *** The emulator's messages *)

Lemma emulator_msgs_drop m x l :
  drop m (emulator_msgs recs) = x :: l →
  drop (S m) (emulator_msgs recs) = l ∧
  ((∃ r, recs !! m = Some r ∧ x = request_msg (Z.of_nat m) r) ∨
   (m = length recs ∧ x = EmulatorComplete)).
Proof.
  intros E. split.
  { change (S m) with (1 + m)%nat. rewrite Nat.add_comm, <- drop_drop, E. done. }
  assert (Hx : emulator_msgs recs !! m = Some x) by (by rewrite <- (Nat.add_0_r m), <- lookup_drop, E).
  unfold emulator_msgs in Hx. apply lookup_app_Some in Hx as [Hx|[Hm Hx]].
  - left. clear E. revert Hx. change (Z.of_nat m) with (0 + Z.of_nat m). generalize 0.
    revert m; induction recs as [|r rs IH]; intros [|m] i; simpl; intros Hx; try done.
    + exists r. split; [done|]. injection Hx as <-. by rewrite Z.add_0_r.
    + destruct (IH _ _ Hx) as (r' & ? & ->). exists r'. split; [done|]. f_equal. lia.
  - right. rewrite request_msgs_length in *. apply list_lookup_singleton_Some in Hx as [Hm' <-].
    split; [lia|done].
Qed.

Lemma chunks_inited_next m :
  (m < length recs)%nat → chunks_inited (S m) = chunks_inited m + 1 ∧
  chunks_inited m = Z.of_nat m.
Proof. unfold chunks_inited, chunk_count. lia. Qed.

(** Once the emulator has sent everything and its channel is empty, every
    chunk is initialised. *)
Lemma chunks_inited_all s m lost :
  running_inv s m lost → ch_contents (emu_chan s) = [] → pending s = [] →
  chunks_inited m = chunk_count.
Proof.
  intros Hrun He Hp. pose proof (run_emulator _ _ _ Hrun) as Hd. rewrite He, Hp in Hd.
  symmetry in Hd. apply (f_equal length) in Hd. rewrite length_drop in Hd.
  unfold emulator_msgs in Hd. rewrite length_app, request_msgs_length in Hd. simpl in Hd.
  pose proof (run_consumed _ _ _ Hrun). unfold chunks_inited, chunk_count. lia.
Qed.

Lemma chunks_inited_le m : 0 ≤ chunks_inited m ≤ chunk_count.
Proof. unfold chunks_inited, chunk_count. lia. Qed.
End Invariant.

(** ** The moves of a running task

    [move] lists the steps that are possible from a state that satisfies the
    invariant, with the guards of the code discharged: what remains of a step
    is its effect.  The theorems about runs are inductions over moves. *)

Section Moves.
Context `{PicoVM, RustBuild, !GnarkEnv, AlloyU256, FifoChan C}.
Context (task : ProvingTask) (recs : list EmulationRecord).

Definition emulator_sent (s : sys (C := C)) (m : GatewayMsg) (ms : list GatewayMsg) : sys :=
  mkSys ms (ch_send (emu_chan s) m) (handler s) (completion_sender s) (status s)
    (to_workers s) (to_gateway s) (workers s) (completion s).

(** The gateway keeps running, in handler [h], having sent [msgs]. *)
Definition gateway_to (s : sys (C := C)) (ec tg : C GatewayMsg) (h : GatewayHandler)
    (msgs : list GatewayMsg) : sys :=
  mkSys (pending s) ec h true GwRunning (send_all (to_workers s) msgs) tg (workers s)
    (completion s).

Definition gateway_ends (s : sys (C := C)) (tg : C GatewayMsg) (h : GatewayHandler)
    (st : gateway_status) (o : oneshot) : sys :=
  mkSys (pending s) (emu_chan s) h false st (to_workers s) tg (workers s) o.

Inductive move (s : sys (C := C)) : sys (C := C) → Prop :=
  | mv_emulator m ms :
      pending s = m :: ms → move s (emulator_sent s m ms)
  | mv_request k lost r ec :
      status s = GwRunning → running_inv recs s k lost →
      recs !! k = Some r → ch_contents (emu_chan s) = request_msg (Z.of_nat k) r :: ch_contents ec →
      move s (gateway_to s ec (to_gateway s)
        (with_tree (handler s)
           (mkProofTree (tree (proof_tree (handler s)) ++ [(Z.of_nat k, InProgress [])])))
        [request_msg (Z.of_nat k) r])
  | mv_complete lost ec :
      status s = GwRunning → running_inv recs s (length recs) lost →
      ch_contents (emu_chan s) = EmulatorComplete :: ch_contents ec →
      move s (gateway_to s ec (to_gateway s)
        (mkGatewayHandler true (proof_tree (handler s)) None) [])
  | mv_idle m lost tg :
      status s = GwRunning → running_inv recs s m lost →
      ch_contents (emu_chan s) = [] →
      ch_contents (to_gateway s) = RequestTask :: ch_contents tg →
      move s (gateway_to s (emu_chan s) tg (handler s) [])
  | mv_reply m lost x tg k p t' o rest :
      status s = GwRunning → running_inv recs s m lost →
      ch_contents (emu_chan s) = [] →
      ch_contents (to_gateway s) = x :: ch_contents tg → is_reply x = true →
      answer_of x = Some (k, p) → msg_ticket x = [(k, start_chunk p, end_chunk p + 1)] →
      tree_wf t' (chunks_inited recs m) →
      tickets (tree (proof_tree (handler s))) ≡ₚ (k, start_chunk p, end_chunk p + 1) :: rest →
      set_proof_post (proof_tree (handler s)) k (start_chunk p) (end_chunk p + 1) p t' o rest →
      move s (gateway_to s (emu_chan s) tg (with_tree (handler s) t')
        (combine_requests k (chunks_inited recs m) o))
  | mv_delivered m lost e tg bs :
      status s = GwRunning → running_inv recs s m lost →
      ch_contents (to_gateway s) = Embed e :: ch_contents tg →
      delivered task e bs →
      move s (gateway_ends s tg (set_embed_proof (handler s) e) GwStopped (OneSent bs))
  | mv_onchain_panic m lost e tg p :
      status s = GwRunning → running_inv recs s m lost →
      ch_contents (to_gateway s) = Embed e :: ch_contents tg →
      verified task e → prove_embed_onchain e = Panic p →
      move s (gateway_ends s tg (handler s) (GwPanicked p) OneClosed)
  | mv_worker_recv i m tw out next :
      workers s !! i = Some WRecv → ch_contents (to_workers s) = m :: ch_contents tw →
      request_ok (chunk_count recs) m →
      worker_handle (task_prover task i) m = (out, next) →
      handled (task_prover task i) m out next →
      move s (set_worker s i (worker_sending out next) tw (to_gateway s))
  | mv_worker_send i m ms next :
      workers s !! i = Some (WSending (m :: ms) next) →
      worker_ok task (WSending (m :: ms) next) →
      move s (set_worker s i (worker_sending ms next) (to_workers s)
        (ch_send (to_gateway s) m)).

Hypothesis Hsize : (2 ≤ COMBINE_SIZE)%nat.
Hypothesis Hcount : chunk_count recs ≤ usize_max.

Local Abbreviation inv := (sys_inv (C := C) task recs).

Lemma reply_answer m :
  is_reply m = true → ∃ k p, answer_of m = Some (k, p) ∧
    msg_ticket m = [(k, start_chunk p, end_chunk p + 1)].
Proof.
  destruct m as [| |[|[k p]] ? ?|[|[k p]] ? ?| | |]; try done; intros _; by exists k, p.
Qed.

Lemma emulator_move s s' prover :
  exec_step prover LEmulator s = Some s' → move s s'.
Proof.
  simpl. destruct (pending s) as [|m ms] eqn:Hp; [done|]. intros [= <-]. by apply mv_emulator.
Qed.

Lemma gateway_emulator_move s s' prover :
  inv s → exec_step prover LGatewayEmulator s = Some s' → move s s'.
Proof.
  intros [_ _ _ Hst] E. simpl in E.
  destruct (status s) eqn:Hs; simpl in E; try done. destruct Hst as (m & lost & Hrun).
  destruct (ch_recv (emu_chan s)) as [[x ec]|] eqn:Er; [|done]. injection E as <-.
  apply ch_recv_Some in Er as Hx. pose proof (run_emulator _ _ _ _ Hrun) as He.
  rewrite Hx in He. simpl in He. symmetry in He. pose proof (run_tree_wf _ _ _ _ Hrun) as Hwf.
  destruct (emulator_msgs_drop _ _ _ _ He) as [_ [(r & Hr & ->)|[-> ->]]].
  - destruct (chunks_inited_next recs m) as [_ Heq]; [by eapply lookup_lt_Some|].
    rewrite Heq in Hwf. rewrite (on_emulator_request _ _ _ Hwf) by lia.
    simpl. rewrite (run_sender _ _ _ _ Hrun). by eapply mv_request.
  - rewrite on_emulator_complete by apply Hrun.
    simpl. rewrite (run_sender _ _ _ _ Hrun). by eapply mv_complete.
Qed.

(** The outstanding reply in front of the gateway's queue. *)
Lemma gateway_reply_move s x tg m lost :
  status s = GwRunning → running_inv recs s m lost → ch_contents (emu_chan s) = [] →
  ch_contents (to_gateway s) = x :: ch_contents tg → is_reply x = true →
  move s (apply_iteration s (emu_chan s) tg (on_grpc (handler s) (completion_sender s) x)).
Proof.
  intros Hs Hrun Hem Hx Hr. destruct (reply_answer _ Hr) as (k & p & Ha & Hxt).
  assert (Hin : (k, start_chunk p, end_chunk p + 1) ∈ tickets (tree (proof_tree (handler s)))).
  { rewrite (run_tickets _ _ _ _ Hrun). unfold flight. rewrite Hx, tickets_of_cons, Hxt.
    set_solver. }
  destruct (on_grpc_reply (handler s) (completion_sender s) _ x k p Ha
    (run_embed _ _ _ _ Hrun) (run_tree_wf _ _ _ _ Hrun) Hin)
    as (t' & o & rest & Hwf' & Htk' & Hpost & ->).
  simpl. rewrite (run_sender _ _ _ _ Hrun). by eapply mv_reply.
Qed.

Lemma gateway_embed_move s e tg m lost :
  status s = GwRunning → running_inv recs s m lost →
  ch_contents (to_gateway s) = Embed e :: ch_contents tg → verified task e →
  move s (apply_iteration s (emu_chan s) tg (on_grpc (handler s) (completion_sender s) (Embed e))).
Proof.
  intros Hs Hrun Hx Hv. rewrite on_grpc_embed. unfold finish. simpl.
  rewrite (run_sender _ _ _ _ Hrun).
  destruct (prove_embed_onchain e) as [[bs|err]|p] eqn:Ep; simpl; rewrite ?andb_false_r.
  - eapply mv_delivered; [done..|]. split; [done|by left].
  - eapply mv_delivered; [done..|]. split; [done|right; eauto].
  - by eapply mv_onchain_panic.
Qed.

Lemma gateway_grpc_move s s' prover :
  inv s → exec_step prover LGatewayGrpc s = Some s' → move s s'.
Proof.
  intros [_ _ Hrep Hst] E. simpl in E. destruct (status s) eqn:Hs; simpl in E; try done.
  destruct (ch_recv (emu_chan s)) as [|] eqn:Ee; [done|]. apply ch_recv_None in Ee.
  destruct (ch_recv (to_gateway s)) as [[x tg]|] eqn:Er; [|done]. injection E as <-.
  apply ch_recv_Some in Er. destruct Hst as (m & lost & Hrun).
  rewrite Er in Hrep. apply Forall_cons in Hrep as [Hx _]. destruct x; simpl in Hx; try done.
  - simpl. rewrite (run_sender _ _ _ _ Hrun). by eapply mv_idle.
  - by eapply gateway_reply_move.
  - by eapply gateway_reply_move.
  - by eapply gateway_embed_move.
  - pose proof (run_exit _ _ _ _ Hrun) as Hex. by rewrite Er in Hex.
Qed.

Lemma worker_recv_move s s' i :
  inv s → exec_step (task_prover task) (LWorkerRecv i) s = Some s' → move s s'.
Proof.
  intros [Hreq _ _ _] E. simpl in E.
  destruct (workers s !! i) as [[]|] eqn:Hi; try done.
  destruct (ch_recv (to_workers s)) as [[m tw]|] eqn:Er; [|done].
  apply ch_recv_Some in Er. rewrite Er in Hreq. apply Forall_cons in Hreq as [Hm _].
  destruct (worker_handle (task_prover task i) m) as [out next] eqn:Eh. injection E as <-.
  eapply mv_worker_recv; [done..|]. by eapply worker_handle_ok.
Qed.

Lemma worker_send_move s s' prover i :
  inv s → exec_step prover (LWorkerSend i) s = Some s' → move s s'.
Proof.
  intros [_ Hwk _ _] E. simpl in E.
  destruct (workers s !! i) as [[|[|m ms] next| |]|] eqn:Hi; try done. injection E as <-.
  apply mv_worker_send; [done|]. by eapply Forall_lookup_1 in Hwk.
Qed.

(** Every step from an invariant state is one of the moves. *)
Lemma step_move s s' : inv s → step (task_prover task) s s' → move s s'.
Proof.
  intros Hinv [[] E]; [by eapply emulator_move|by eapply gateway_emulator_move
    |by eapply gateway_grpc_move|by eapply worker_recv_move|by eapply worker_send_move].
Qed.
End Moves.

(** ** Preservation *)

(** Reduce the projections of the states the moves build. *)
Ltac sys_simpl :=
  cbn [pending emu_chan handler completion_sender status to_workers to_gateway workers completion
       emulator_sent gateway_to gateway_ends set_worker
       with_tree emulator_complete proof_tree embed_proof tree].

Section Preservation.
Context `{PicoVM, RustBuild, !GnarkEnv, AlloyU256, FifoChan C}.
Context (task : ProvingTask) (recs : list EmulationRecord).

Local Abbreviation inv := (sys_inv (C := C) task recs).

(** *** The gateway *)

(** The requests that answer a reply are well formed, and carry the ticket
    of the combined range. *)
Lemma combine_requests_ok k hi t' p lo e t o rest :
  tree_wf t' hi → hi ≤ chunk_count recs →
  set_proof_post (P := MetaProof) t k lo e p t' o rest →
  Forall (request_ok (chunk_count recs)) (combine_requests k hi o) ∧
  tickets (tree t') ≡ₚ tickets_of (combine_requests k hi o) ++ rest.
Proof.
  intros Hwf Hhi Hpost. destruct o as [ps|]; [|split; [constructor|apply Hpost]].
  destruct Hpost as (a & b & q' & -> & _ & Hadj & _ & _ & [Ha Hb] & Htk & _).
  assert (Hin : (k, start_chunk a, end_chunk b + 1) ∈ tickets (tree t')) by (rewrite Htk; by left).
  destruct (ticket_covers_all _ _ _ _ _ Hwf Hin) as [_ Hrange]. split; [|done].
  constructor; [|constructor]. simpl. exists a, b. split_and!; auto; lia.
Qed.

(** A state in which the gateway goes on. *)
Lemma gateway_to_inv s ec tg h msgs m lost :
  inv s → Forall (request_ok (chunk_count recs)) msgs →
  Forall (reply_ok task) (ch_contents tg) →
  running_inv recs (gateway_to s ec tg h msgs) m lost →
  inv (gateway_to s ec tg h msgs).
Proof.
  intros [Hreq Hwk _ _] Hmsgs Htg Hrun. split; sys_simpl; auto; [|by exists m, lost].
  rewrite send_all_contents. by apply Forall_app.
Qed.

Lemma reply_not_embed x : is_reply x = true → is_embed x = false.
Proof. by destruct x as [| |[] ? ?|[] ? ?| | |]. Qed.

(** Consuming a message that is not an embed proof. *)
Lemma consume_queue s m lost x tg :
  running_inv (C := C) recs s m lost → ch_contents (to_gateway s) = x :: ch_contents tg →
  is_embed x = false →
  no_early_exit (ch_contents tg) ∧
  (∀ w, w ∈ workers s → after_embed w → has_embed (ch_contents tg)).
Proof.
  intros Hrun Hx He. pose proof (run_exit _ _ _ _ Hrun) as Hex.
  pose proof (run_after _ _ _ _ Hrun) as Haf. rewrite Hx in Hex, Haf. split.
  - by eapply no_early_exit_tail.
  - intros w Hw Hafter. eapply has_embed_tail; eauto.
Qed.

Lemma replies_tail s x tg :
  inv s → ch_contents (to_gateway s) = x :: ch_contents tg →
  Forall (reply_ok task) (ch_contents tg).
Proof. intros [_ _ Hrep _] Hx. rewrite Hx in Hrep. by apply Forall_cons in Hrep as [_ ?]. Qed.

Lemma request_inv s k lost r ec :
  inv s → running_inv recs s k lost → recs !! k = Some r →
  ch_contents (emu_chan s) = request_msg (Z.of_nat k) r :: ch_contents ec →
  inv (gateway_to s ec (to_gateway s)
    (with_tree (handler s)
       (mkProofTree (tree (proof_tree (handler s)) ++ [(Z.of_nat k, InProgress [])])))
    [request_msg (Z.of_nat k) r]).
Proof.
  intros Hinv [He Hm Hwf Hc Hemb Hsnd Hpend Htk Hex Haf] Hr%lookup_lt_Some Hx.
  destruct (chunks_inited_next recs k Hr) as [Hnext Heq]. rewrite Heq in Hwf, Hnext.
  destruct (init_node_spec _ _ Hwf) as (_ & Hwf' & Htk' & _); [lia|].
  rewrite Hx in He. symmetry in He. apply emulator_msgs_drop in He as [Hdrop _].
  apply (gateway_to_inv _ _ _ _ _ (S k) lost); [done| |apply Hinv|].
  - constructor; [|done]. simpl. unfold chunk_count. lia.
  - split; sys_simpl; auto; [by rewrite Hnext| |].
    + rewrite Hc. by apply bool_decide_ext; lia.
    + unfold flight in *. simpl. autorewrite with rust_rw. simpl. solve_perm.
Qed.

Lemma complete_inv s lost ec :
  inv s → running_inv recs s (length recs) lost →
  ch_contents (emu_chan s) = EmulatorComplete :: ch_contents ec →
  inv (gateway_to s ec (to_gateway s) (mkGatewayHandler true (proof_tree (handler s)) None) []).
Proof.
  intros Hinv [He Hm Hwf Hc Hemb Hsnd Hpend Htk Hex Haf] Hx.
  rewrite Hx in He. symmetry in He. apply emulator_msgs_drop in He as [Hdrop _].
  apply (gateway_to_inv _ _ _ _ _ (S (length recs)) lost); [done|constructor|apply Hinv|].
  split; sys_simpl; auto; [|by rewrite bool_decide_true].
  replace (chunks_inited recs (S (length recs))) with (chunks_inited recs (length recs));
    [done|]. unfold chunks_inited, chunk_count. lia.
Qed.

Lemma idle_inv s m lost tg :
  inv s → running_inv recs s m lost →
  ch_contents (to_gateway s) = RequestTask :: ch_contents tg →
  inv (gateway_to s (emu_chan s) tg (handler s) []).
Proof.
  intros Hinv Hrun Hx. destruct (consume_queue _ _ _ _ _ Hrun Hx) as [Hex' Haf']; [done|].
  destruct Hrun as [He Hm Hwf Hc Hemb Hsnd Hpend Htk Hex Haf].
  apply (gateway_to_inv _ _ _ _ _ m lost); [done|constructor|by eapply replies_tail|].
  split; sys_simpl; auto. unfold flight in *. simpl. rewrite Hx in Htk.
  autorewrite with rust_rw in *. done.
Qed.

Lemma reply_inv s m lost x tg k p t' o rest :
  inv s → running_inv recs s m lost →
  ch_contents (to_gateway s) = x :: ch_contents tg → is_reply x = true →
  msg_ticket x = [(k, start_chunk p, end_chunk p + 1)] →
  tree_wf t' (chunks_inited recs m) →
  tickets (tree (proof_tree (handler s))) ≡ₚ (k, start_chunk p, end_chunk p + 1) :: rest →
  set_proof_post (proof_tree (handler s)) k (start_chunk p) (end_chunk p + 1) p t' o rest →
  inv (gateway_to s (emu_chan s) tg (with_tree (handler s) t')
    (combine_requests k (chunks_inited recs m) o)).
Proof.
  intros Hinv Hrun Hx Hr Hxt Hwf' Htk' Hpost.
  destruct (consume_queue _ _ _ _ _ Hrun Hx (reply_not_embed _ Hr)) as [Hex' Haf'].
  destruct (combine_requests_ok _ _ _ _ _ _ _ _ _ Hwf' (proj2 (chunks_inited_le recs m)) Hpost)
    as [Hok Hnew].
  destruct Hrun as [He Hm Hwf Hc Hemb Hsnd Hpend Htk Hex Haf].
  apply (gateway_to_inv _ _ _ _ _ m lost); [done..|by eapply replies_tail|].
  split; sys_simpl; auto. unfold flight in *. simpl. rewrite Hx in Htk.
  autorewrite with rust_rw in *. rewrite Hxt in Htk. rewrite Htk' in Htk. solve_perm.
Qed.

(** *** The workers *)

(** A state in which worker [i] has moved, given what it does to the queues
    and to the work in flight. *)
Lemma set_worker_inv s i w' tw tg :
  inv s → worker_ok task w' →
  Forall (request_ok (chunk_count recs)) (ch_contents tw) →
  Forall (reply_ok task) (ch_contents tg) →
  (∀ m lost, running_inv recs s m lost →
    (∃ lost', flight s ++ lost ≡ₚ flight (set_worker s i w' tw tg) ++ lost') ∧
    no_early_exit (ch_contents tg) ∧
    (∀ w, w = w' ∨ w ∈ workers s → after_embed w → has_embed (ch_contents tg))) →
  inv (set_worker s i w' tw tg).
Proof.
  intros [Hreq Hwk Hrep Hst] Hw Htw Htg Hrun. split; sys_simpl; auto.
  - by apply Forall_insert.
  - destruct (status s); [|done..]. destruct Hst as (m & lost & Hr).
    destruct (Hrun _ _ Hr) as ([lost' Hfl] & Hex & Haf). exists m, lost'.
    destruct Hr. split; sys_simpl; auto; [by rewrite <- Hfl|].
    intros w Hin. apply Haf. apply list_elem_of_lookup in Hin as [j Hj].
    apply list_lookup_insert_Some in Hj as [(_ & -> & _)|[_ Hj]]; [by left|right].
    by eapply list_elem_of_lookup_2.
Qed.

(** The tickets of a worker that moves. *)
Lemma flight_set_worker s i w w' tw tg :
  workers s !! i = Some w →
  ∃ others, flight (C := C) s ≡ₚ tickets_of (ch_contents (to_workers s)) ++
    tickets_of (worker_pending w) ++ tickets_of (ch_contents (to_gateway s)) ++ others ∧
  flight (set_worker s i w' tw tg) ≡ₚ tickets_of (ch_contents tw) ++
    tickets_of (worker_pending w') ++ tickets_of (ch_contents tg) ++ others.
Proof.
  intros Hi. destruct (list_insert_split _ _ _ w' Hi) as (ws1 & ws2 & E1 & E2).
  exists (worker_tickets ws1 ++ worker_tickets ws2).
  unfold flight. simpl. rewrite E2, E1, !worker_tickets_split. split; solve_perm.
Qed.

Lemma worker_recv_inv s i m tw out next :
  inv s → workers s !! i = Some WRecv → ch_contents (to_workers s) = m :: ch_contents tw →
  handled (task_prover task i) m out next →
  inv (set_worker s i (worker_sending out next) tw (to_gateway s)).
Proof.
  intros Hinv Hi Hx Hh. pose proof (inv_requests _ _ _ Hinv) as Hreq.
  rewrite Hx in Hreq. apply Forall_cons in Hreq as [_ Htw].
  apply set_worker_inv; auto; [by destruct Hh; constructor|apply Hinv|].
  intros k lost Hrun. split; [|split; [apply Hrun|]].
  - destruct (flight_set_worker s i _ (worker_sending out next) tw (to_gateway s) Hi)
      as (others & E1 & E2).
    rewrite Hx, tickets_of_cons in E1. simpl in E1.
    destruct Hh as [r Hr Ht _| |]; cbn [worker_sending worker_after worker_pending] in *.
    + exists lost. rewrite tickets_of_cons, Ht in E2.
      change (tickets_of [RequestTask]) with (@nil ticket) in E2. solve_perm.
    + exists (msg_ticket m ++ lost). solve_perm.
    + exists (msg_ticket m ++ lost). solve_perm.
  - intros w [->|Hw] Ha; [|by eapply run_after].
    by destruct Hh; destruct Ha.
Qed.

(** What a sending worker sends, and where that leaves it. *)
Lemma worker_ok_send m ms next :
  worker_ok task (WSending (m :: ms) next) →
  worker_ok task (worker_sending ms next) ∧ reply_ok task m ∧
  worker_pending (worker_sending ms next) = ms ∧
  (after_embed (worker_sending ms next) →
    is_embed m = true ∨ after_embed (WSending (m :: ms) next)) ∧
  (m = Exit → after_embed (WSending (m :: ms) next)).
Proof.
  assert (Hno : ¬ after_embed WRecv) by (by intros [?|?]).
  assert (Hno' : ¬ after_embed (WSending [RequestTask] NextLoop)) by (by intros [?|?]).
  inversion 1 as [| |r Hr|e He| | |]; subst; simpl.
  - split_and!; try done. constructor.
  - split_and!; try done; [constructor|by destruct m as [| |[] ? ?|[] ? ?| | |]|by intros ->].
  - split_and!; try done; [constructor|by left].
  - split_and!; try done; [constructor|intros _; right|intros _]; by right.
Qed.

Lemma has_embed_last l m : is_embed m = true → has_embed (l ++ [m]).
Proof. destruct m; try done. intros _. eexists. apply elem_of_app. right. by left. Qed.

Lemma worker_send_inv s i m ms next :
  inv s → workers s !! i = Some (WSending (m :: ms) next) →
  worker_ok task (WSending (m :: ms) next) →
  inv (set_worker s i (worker_sending ms next) (to_workers s) (ch_send (to_gateway s) m)).
Proof.
  intros Hinv Hi Hok. destruct (worker_ok_send _ _ _ Hok) as (Hok' & Hm & Hp & Haf & Hexit).
  apply set_worker_inv; auto; [apply Hinv| |].
  - rewrite ch_send_contents. apply Forall_app. split; [apply Hinv|by constructor].
  - intros k lost Hrun.
    assert (Hold : ∀ w, w ∈ workers s → after_embed w → has_embed (ch_contents (to_gateway s)))
      by apply Hrun.
    pose proof (list_elem_of_lookup_2 _ _ _ Hi) as Hin. rewrite ch_send_contents.
    split; [|split].
    + destruct (flight_set_worker s i _ (worker_sending ms next) (to_workers s)
        (ch_send (to_gateway s) m) Hi) as (others & E1 & E2).
      exists lost. rewrite Hp in E2. simpl in E1. autorewrite with rust_rw in *. simpl in *.
      solve_perm.
    + apply no_early_exit_snoc; [apply Hrun|]. intros ->. eauto.
    + intros w [->|Hw] Ha; [|eauto using has_embed_snoc].
      destruct (Haf Ha) as [He|Ha']; [by apply has_embed_last|eauto using has_embed_snoc].
Qed.

(** *** Every move keeps the invariant *)

Lemma move_inv s s' : inv s → move task recs s s' → inv s'.
Proof.
  intros Hinv Hmv. destruct Hmv.
  - destruct Hinv as [Hreq Hwk Hrep Hst]. split; sys_simpl; auto. destruct (status s); auto.
    destruct Hst as (k & lost & []). exists k, lost. split; sys_simpl; auto.
    rewrite ch_send_contents, <- app_assoc. simpl. congruence.
  - by eapply request_inv.
  - by eapply complete_inv.
  - by eapply idle_inv.
  - by eapply reply_inv.
  - split; sys_simpl; [apply Hinv..|by eapply replies_tail|by eexists _, _].
  - split; sys_simpl; [apply Hinv..|by eapply replies_tail|]. split; [done|by eexists].
  - by eapply worker_recv_inv.
  - by eapply worker_send_inv.
Qed.

Hypothesis Hsize : (2 ≤ COMBINE_SIZE)%nat.
Hypothesis Hcount : chunk_count recs ≤ usize_max.

Lemma reachable_inv n s : rtc (step (task_prover task)) (sys_init recs n) s → inv s.
Proof.
  apply rtc_invariant; [|apply sys_init_inv].
  intros a b Ha Hab. eapply move_inv; [done|]. by apply step_move.
Qed.
(** *** Nothing is lost but with a worker

    A worker that died, or left its loop with an embed proof, is gone with
    the one ticket it was serving. *)
Definition gone (w : worker_state) : bool :=
  match w with WRecv | WSending _ NextLoop => false | _ => true end.

Definition gone_count (ws : list worker_state) : nat :=
  list_sum (map (λ w, if gone w then 1 else 0)%nat ws).

Lemma gone_sending ms next :
  gone (worker_sending ms next) = match next with NextLoop => false | _ => true end.
Proof. by destruct ms, next. Qed.

Lemma gone_count_insert ws i w w' :
  ws !! i = Some w →
  (gone_count (<[i := w']> ws) + (if gone w then 1 else 0) =
   gone_count ws + (if gone w' then 1 else 0))%nat.
Proof.
  intros Hi. destruct (list_insert_split _ _ _ w' Hi) as (ws1 & ws2 & E1 & E2).
  rewrite E1 at 2. rewrite E2. unfold gone_count. rewrite !map_app, !list_sum_app. simpl. lia.
Qed.

Definition balance (s : sys (C := C)) : Prop :=
  status s = GwRunning →
  length (tickets (tree (proof_tree (handler s)))) =
    (length (flight s) + gone_count (workers s))%nat.

(** Worker [i] moves, on a message with the tickets [l]. *)
Lemma set_worker_balance s i w w' tw tg :
  balance s → workers s !! i = Some w →
  (length (tickets_of (ch_contents (to_workers s))) + length (tickets_of (worker_pending w)) +
     length (tickets_of (ch_contents (to_gateway s))) + (if gone w then 1 else 0) =
   length (tickets_of (ch_contents tw)) + length (tickets_of (worker_pending w')) +
     length (tickets_of (ch_contents tg)) + (if gone w' then 1 else 0))%nat →
  balance (set_worker s i w' tw tg).
Proof.
  intros Hb Hi Hl Hs. sys_simpl. specialize (Hb Hs).
  destruct (flight_set_worker s i w w' tw tg Hi) as (others & E1%Permutation_length & E2%Permutation_length).
  rewrite !length_app in E1, E2. pose proof (gone_count_insert _ _ _ w' Hi). lia.
Qed.

Lemma flight_length s :
  length (flight (C := C) s) =
    (length (tickets_of (ch_contents (to_workers s))) + length (worker_tickets (workers s)) +
     length (tickets_of (ch_contents (to_gateway s))))%nat.
Proof. unfold flight. rewrite !length_app. lia. Qed.

Lemma msg_ticket_request n m : request_ok n m → length (msg_ticket m) = 1%nat.
Proof.
  destruct m as [| |[]|[]| | |]; simpl; try done. by intros (a & b & -> & _).
Qed.

Lemma move_balance s s' : inv s → balance s → move task recs s s' → balance s'.
Proof.
  intros Hinv Hb Hmv. destruct Hmv as
    [m ms Hp|k lost r ec Hs Hrun Hr Hx|lost ec Hs Hrun Hx|m lost tg Hs Hrun He Hx
    |m lost x tg k p t' o rest Hs Hrun He Hx Hr Ha Hxt Hwf' Htk' Hpost|m lost e tg bs Hs Hrun Hx Hd
    |m lost e tg p Hs Hrun Hx Hv Hp|i m tw out next Hi Hx Hm Eh Hh|i m ms next Hi Hok];
    [exact Hb|intros _; specialize (Hb Hs)|intros _; specialize (Hb Hs)|intros _; specialize (Hb Hs)
    |intros _; specialize (Hb Hs)|done|done| |].
  - destruct (chunks_inited_next recs k) as [_ Heq]; [by eapply lookup_lt_Some|].
    pose proof (run_tree_wf _ _ _ _ Hrun) as Hwf. rewrite Heq in Hwf.
    destruct (init_node_spec _ _ Hwf ltac:(lia)) as (_ & _ & Htk%Permutation_length & _).
    rewrite flight_length in *. sys_simpl. autorewrite with rust_rw. rewrite Htk, length_app. simpl. lia.
  - rewrite flight_length in *. exact Hb.
  - rewrite flight_length in *. sys_simpl. rewrite Hx in Hb. exact Hb.
  - destruct (combine_requests_ok _ _ _ _ _ _ _ _ _ Hwf' (proj2 (chunks_inited_le recs m)) Hpost)
      as [_ Hnew%Permutation_length].
    apply Permutation_length in Htk'. rewrite flight_length in *. sys_simpl.
    rewrite Hx, tickets_of_cons, Hxt in Hb. autorewrite with rust_rw.
    rewrite length_app in *. simpl in *. lia.
  - apply (set_worker_balance _ _ _ _ _ _ Hb Hi). rewrite gone_sending, worker_pending_sending, Hx, tickets_of_cons.
    rewrite length_app, (msg_ticket_request _ _ Hm).
    destruct Hh as [r Hr Ht _| |]; simpl; [|lia..].
    rewrite Ht, length_app, (msg_ticket_request _ _ Hm). simpl. lia.
  - apply (set_worker_balance _ _ _ _ _ _ Hb Hi).
    rewrite gone_sending, worker_pending_sending, ch_send_contents. autorewrite with rust_rw.
    cbn [worker_pending gone]. rewrite tickets_of_cons, !length_app. simpl.
    destruct next; lia.
Qed.

Lemma reachable_balance n s : rtc (step (task_prover task)) (sys_init recs n) s → inv s ∧ balance s.
Proof.
  apply (rtc_invariant _ (λ s, inv s ∧ balance s)).
  - intros a b [Ha Hb] Hab. pose proof (step_move _ _ Hsize Hcount _ _ Ha Hab) as Hmv.
    split; [by eapply move_inv|by eapply move_balance].
  - split; [apply sys_init_inv|]. intros _. unfold flight. simpl.
    rewrite !ch_new_contents, worker_tickets_init. simpl. unfold gone_count.
    by induction n.
Qed.
End Preservation.

(** ** Safety *)

Section Safety.
Context `{PicoVM, RustBuild, !GnarkEnv, AlloyU256, FifoChan C}.
Context (task : ProvingTask) (recs : list EmulationRecord).
Hypothesis Hsize : (2 ≤ COMBINE_SIZE)%nat.
Hypothesis Hcount : chunk_count recs ≤ usize_max.

(** C3: no guard of the pipeline ever fires.  Whatever the schedule and the
    number of workers, in every reachable state: a worker that panicked did
    so inside the prover library (never on the adjacency assertion, an
    index, an overflow or an unsupported message); a gateway that panicked
    did so in the on-chain phase of a verified embed proof, whose own
    assertions are not excluded (never in the proof tree, on an unsupported
    message or on an [Exit]); and every
    request queued for the workers is a chunk to convert or two adjacent
    proofs to combine. *)
Theorem no_guard_fires n s :
  rtc (step (C := C) (task_prover task)) (sys_init recs n) s →
  (∀ p, WPanicked p ∈ workers s → library_panic p) ∧
  (∀ p, status s = GwPanicked p → ∃ e, verified task e ∧ prove_embed_onchain e = Panic p) ∧
  Forall (request_ok (chunk_count recs)) (ch_contents (to_workers s)).
Proof.
  intros Hr. destruct (reachable_inv task recs Hsize Hcount n s Hr) as [Hreq Hwk _ Hst].
  split_and!; [| |done].
  - intros p Hin. rewrite Forall_forall in Hwk. specialize (Hwk _ Hin). by inversion Hwk.
  - intros p Hs. rewrite Hs in Hst. tauto.
Qed.

(** C14: every piece of work is in exactly one place.  While the gateway
    runs, the proof tree tiles the chunks it has received, and its
    outstanding tickets are (as a multiset) the ones carried by the requests
    and replies in flight and one for each worker that died or left its loop
    with an embed proof: with all workers alive, exactly the ones in
    flight. *)
Theorem work_accounted_for n s :
  rtc (step (C := C) (task_prover task)) (sys_init recs n) s → status s = GwRunning →
  ∃ received lost,
    tree_wf (proof_tree (handler s)) received ∧ 0 ≤ received ≤ chunk_count recs ∧
    tickets (tree (proof_tree (handler s))) ≡ₚ flight s ++ lost ∧
    length lost = gone_count (workers s).
Proof.
  intros Hr Hs. destruct (reachable_balance task recs Hsize Hcount n s Hr) as [[_ _ _ Hst] Hb].
  specialize (Hb Hs). rewrite Hs in Hst. destruct Hst as (m & lost & Hrun).
  pose proof (run_tickets _ _ _ _ Hrun) as Htk.
  exists (chunks_inited recs m), lost. split; [apply Hrun|]. split; [apply chunks_inited_le|].
  split; [done|]. apply Permutation_length in Htk. rewrite length_app in Htk. lia.
Qed.
End Safety.

(** The emulation of a task: the records it yields and how it ends. *)
Definition task_emulates `{PicoVM, RustBuild} (task : ProvingTask)
    (recs : list EmulationRecord) (res : option string) : Prop :=
  ∃ e capacity fuel, emulator_setup task = Ret (e, capacity) ∧ emulate fuel e = Some (recs, res).

Lemma emulate_more `{PicoVM} fuel fuel' e r :
  (fuel ≤ fuel')%nat → emulate fuel e = Some r → emulate fuel' e = Some r.
Proof.
  revert fuel' e r; induction fuel as [|fuel IH]; intros [|fuel'] e r Hle; simpl; try done; [lia|].
  destruct (next_record_batch e) as [rs [[[] e']|msg]]; try done.
  destruct (emulate fuel e') as [[rs' res']|] eqn:E; simpl; [|done].
  rewrite (IH fuel' e' (rs', res')) by (done || lia). done.
Qed.

Lemma task_emulates_det `{PicoVM, RustBuild} task recs res recs' res' :
  task_emulates task recs res → task_emulates task recs' res' → recs = recs' ∧ res = res'.
Proof.
  intros (e & cap & fuel & Es & E) (e' & cap' & fuel' & Es' & E'). rewrite Es in Es'.
  injection Es' as <- <-.
  apply (emulate_more _ (fuel + fuel')) in E; [|lia].
  apply (emulate_more _ (fuel + fuel')) in E'; [|lia].
  rewrite E in E'. by injection E' as <- <-.
Qed.

Section Delivery.
Context `{PicoVM, RustBuild, !GnarkEnv, AlloyU256, FifoChan C}.

(** [proof] is what the gateway delivers for an embed proof that a worker
    verified against the task's verifying key: the 320 bytes of its on-chain
    proof, or nothing when the on-chain phase returned an error. *)
Definition backed (task : ProvingTask) (proof : bytes) : Prop :=
  ∃ e, verified task e ∧
    (prove_embed_onchain e = Ret (Ok proof) ∧ length proof = 320%nat ∨
     proof = [] ∧ ∃ err, prove_embed_onchain e = Ret (Err err)).

(** What [prove_task] returns. *)
Lemma prove_task_outcome task recs n res :
  (2 ≤ COMBINE_SIZE)%nat → task_emulates task recs None → chunk_count recs ≤ usize_max →
  prove_task (C := C) task n (Ret res) →
  (∃ bs, res = Ok bs ∧ backed task bs) ∨
  (res = Err "channel closed" ∧ ∃ e p, verified task e ∧ prove_embed_onchain e = Panic p).
Proof.
  intros Hsize Hem Hcount Hp. inversion Hp as [| | |e0 cap fuel recs' s res' Hgpu Es E Hr Hpn Hres]; subst.
  assert (recs = recs') as <-.
  { eapply task_emulates_det; [exact Hem|]. by exists e0, cap, fuel. }
  pose proof (inv_status _ _ _ (reachable_inv task recs Hsize Hcount n s Hr)) as Hst.
  destruct (status s).
  - destruct Hst as (m & lost & Hrun). by rewrite (run_pending _ _ _ _ Hrun) in Hres.
  - destruct Hst as (e & bs' & Ec & Hv & Hd). rewrite Ec in Hres. left. exists bs'. split; [done|].
    exists e. split; [done|]. destruct Hd as [Hd|Hd]; [left|by right].
    split; [done|]. by apply prove_embed_onchain_inv in Hd as [? _].
  - destruct Hst as (Ec & e & Hv & Hpn'). rewrite Ec in Hres. right. eauto.
Qed.

Lemma prove_task_backed task recs n bs :
  (2 ≤ COMBINE_SIZE)%nat → task_emulates task recs None → chunk_count recs ≤ usize_max →
  prove_task (C := C) task n (Ret (Ok bs)) → backed task bs.
Proof.
  intros Hsize Hem Hcount Hp.
  destruct (prove_task_outcome task recs n _ Hsize Hem Hcount Hp) as [(bs' & [= ->] & Hb)|[? _]]; done.
Qed.

(** C4: what [prove_task] returns is backed by a verified proof.  An [Ok]
    result comes from an embed proof that a worker verified against the
    task's verifying key: its 320 bytes are the on-chain proof of that embed
    proof, or it is the empty byte string and the on-chain phase returned an
    error for it. *)
Theorem prove_task_verified task recs n bs :
  (2 ≤ COMBINE_SIZE)%nat → task_emulates task recs None → chunk_count recs ≤ usize_max →
  prove_task (C := C) task n (Ret (Ok bs)) →
  ∃ e, verified task e ∧
    (prove_embed_onchain e = Ret (Ok bs) ∧ length bs = 320%nat ∨
     bs = [] ∧ ∃ err, prove_embed_onchain e = Ret (Err err)).
Proof. apply prove_task_backed. Qed.
End Delivery.

(** *** Witnesses, on the three-chunk task *)

#[local] Existing Instance release_build.

Lemma three_chunk_count : chunk_count ThreeChunks.records ≤ usize_max.
Proof. vm_compute. discriminate. Qed.

Lemma three_emulates : task_emulates ThreeChunks.task ThreeChunks.records None.
Proof. exists 3, 4, 3%nat. split; reflexivity. Qed.

Lemma no_guard_fires_witness :
  Forall (request_ok 3) (ch_contents (to_workers ThreeChunks.early_state)).
Proof.
  exact (proj2 (proj2 (no_guard_fires ThreeChunks.task ThreeChunks.records (le_n _) three_chunk_count
    1 ThreeChunks.early_state ThreeChunks.early_run_rtc))).
Defined.

Lemma work_accounted_for_witness :
  ∃ received lost, tree_wf (proof_tree (handler ThreeChunks.early_state)) received ∧
    tickets (tree (proof_tree (handler ThreeChunks.early_state))) ≡ₚ
      flight ThreeChunks.early_state ++ lost ∧ length lost = 0%nat.
Proof.
  destruct (work_accounted_for ThreeChunks.task ThreeChunks.records (le_n _) three_chunk_count
    1 ThreeChunks.early_state ThreeChunks.early_run_rtc eq_refl) as (received & lost & Hwf & _ & Htk).
  exists received, lost. split; [exact Hwf|exact Htk].
Defined.

Lemma prove_task_verified_witness :
  ∃ e, verified ThreeChunks.task e.
Proof.
  destruct (prove_task_verified ThreeChunks.task ThreeChunks.records 1
    (proof_bytes [1; 2; 3; 4; 5; 6; 7; 8; 9; 10]) (le_n _) three_emulates three_chunk_count
    ThreeChunks.task_proved) as (e & Hv & _).
  exists e. exact Hv.
Defined.
