(* ===== verification/PipelineProgress.v ===== *)
(** * The pipeline delivers

    On a prover that does its part (the laws of [PicoLaws]), a task of at
    least two chunks on at least one worker cannot end without a completion
    signal, provided no combine was flagged as complete before the emulator
    had announced every chunk.  The proviso is what the code leaves to the
    schedule: [flag_complete] is computed from the chunks received so far. *)

From S2P Require Import Prelude BTreeMap ProofTree PicoVM Messages GatewayHandler Task Provers.
From S2P Require Import Worker Channel Onchain Emulator Gateway Pipeline PipelineInv PipelineLive RustStr.

(** ** What is asked of the prover library *)

Section Laws.
Context `{PicoVM, RustBuild}.

(** [valid lo hi p]: [p] proves the chunks [lo .. hi - 1] of the task.
    Proving and converting a record of the emulation gives a valid proof of
    its chunk; combining two adjacent valid proofs gives a valid proof of
    their union, and the complete combine is only promised to succeed on
    the whole execution; compressing and embedding a proof of the whole
    execution succeed, with an embed proof that verifies. *)
Record PicoLaws (task : ProvingTask) (recs : list EmulationRecord)
    (valid : Z → Z → MetaProof → Prop) (compressed : MetaProof → Prop) : Prop := {
  law_convert k r :
    recs !! Z.to_nat k = Some r → 0 ≤ k →
    let machine := RiscvMachine_new SC_default RiscvChip_all RISCV_NUM_PVS in
    let vk_enabled := vk_verification_enabled static_vk_manager in
    ∃ proof stdin p,
      prove_record machine k (task_pk task)
        (pk_observed_by (task_pk task) (RiscvMachine_challenger machine))
        (if vk_enabled then Some RiscvShapeConfig_default else None) r = inl proof ∧
      setup_for_convert_with_index (task_vk task) (get_vk_root static_vk_manager)
        (replicate DIGEST_SIZE Val_ZERO) (RiscvMachine_base_machine machine) proof
        (if vk_enabled then Some RecursionShapeConfig_default else None) k
        (record_is_last r) = inl stdin ∧
      prove_with_index (ConvertMachine_new SC_default RecursionChip_all RECURSION_NUM_PVS) k
        (setup_for_convert stdin KoalaBearPoseidon2_new EmulatorOpts_default) = inl p ∧
      valid k (k + 1) p;
  law_combine lo mid hi a b flag :
    valid lo mid a → valid mid hi b →
    (flag = true → lo = 0 ∧ hi = chunk_count recs) →
    ∃ c, prove_two (CombineMachine_new SC_default RecursionChip_all RECURSION_NUM_PVS)
           a b flag = inl c ∧ valid lo hi c;
  law_compress p :
    valid 0 (chunk_count recs) p →
    let base := CombineMachine_base_machine
      (CombineMachine_new SC_default RecursionChip_all RECURSION_NUM_PVS) in
    let machine := CompressMachine_new SC_compress RecursionChip_all RECURSION_NUM_PVS in
    ∃ program variant record pk vk c,
      CompressP.build_program static_vk_manager base
        (RecursionStdin_new base (MetaProof_vks p) (MetaProof_proofs p) true
           (get_vk_root static_vk_manager)) = Ret (program, variant) ∧
      compress_runtime_run program (CompressMachine_perm machine)
        (Witnessable_write variant) = inl (Ok record) ∧
      CompressMachine_setup_keys machine program = inl (pk, vk) ∧
      CompressMachine_prove machine (compress_setup_with_keys_and_records pk vk
        [compress_complement_record (CompressMachine_chips machine) record]) = inl c ∧
      compressed c;
  law_embed c :
    compressed c →
    let compress_machine :=
      CompressMachine_new SC_compress RecursionChip_compress RECURSION_NUM_PVS in
    let base := CompressMachine_base_machine compress_machine in
    let machine := EmbedMachine_new EmbedSC_default RecursionChip_embed RECURSION_NUM_PVS in
    ∃ program variant record pk vk e,
      EmbedP.build_program static_vk_manager base
        (RecursionStdin_new base (MetaProof_vks c) (MetaProof_proofs c) true
           (get_vk_root static_vk_manager)) = Ret (program, variant) ∧
      embed_runtime_run program (CompressMachine_perm compress_machine)
        (Witnessable_write variant) = inl (Ok record) ∧
      EmbedMachine_setup_keys machine program = inl (pk, vk) ∧
      EmbedMachine_prove machine (embed_setup_with_keys_and_records pk vk
        [embed_complement_record (EmbedMachine_chips machine) record]) = inl e ∧
      EmbedMachine_verify machine e (task_vk task) = Ok tt;
}.

Section Use.
Context (task : ProvingTask) (recs : list EmulationRecord).
Context (valid : Z → Z → MetaProof → Prop) (compressed : MetaProof → Prop).
Hypothesis Hlaws : PicoLaws task recs valid compressed.
Hypothesis Hcount : chunk_count recs ≤ u32_max.

Lemma convert_succeeds i k r :
  recs !! Z.to_nat k = Some r → 0 ≤ k →
  ∃ p, RiscvConvert.process (riscv_convert (task_prover task i)) (mkRiscvRequest k r)
         (vk_root (task_prover task i)) = Ret (mkRiscvResponse k (mkIndexedProof p k k)) ∧
       valid k (k + 1) p.
Proof.
  intros Hr Hk. destruct (law_convert _ _ _ _ Hlaws k r Hr Hk) as (pr & st & p & E1 & E2 & E3 & Hv).
  exists p. split; [|done]. unfold RiscvConvert.process. simpl in *.
  rewrite E1. simpl. rewrite E2. simpl.
  apply lookup_lt_Some in Hr. unfold chunk_count in Hcount.
  rewrite as_u32_exact by lia. by rewrite E3.
Qed.

Hypothesis Hsize : (2 ≤ COMBINE_SIZE)%nat.

Lemma combine_succeeds i flag k a b :
  valid (start_chunk a) (end_chunk a + 1) (inner a) →
  valid (start_chunk b) (end_chunk b + 1) (inner b) →
  end_chunk a + 1 = start_chunk b → 0 ≤ end_chunk a < usize_max →
  (flag = true → start_chunk a = 0 ∧ end_chunk b + 1 = chunk_count recs) →
  ∃ c, CombineP.process (combine (task_prover task i)) (mkCombineRequest flag k [a; b]) =
         Ret (mkCombineResponse k (mkIndexedProof c (start_chunk a) (end_chunk b))) ∧
       valid (start_chunk a) (end_chunk b + 1) c.
Proof.
  intros Ha Hb Hadj Hrange Hflag. rewrite <- Hadj in Hb.
  destruct (law_combine _ _ _ _ Hlaws _ _ _ _ _ flag Ha Hb Hflag) as (c & E & Hv).
  exists c. split; [|done]. rewrite CombineP.process_adjacent by done.
  simpl. by rewrite E.
Qed.

(** The complete proof is compressed, embedded and verified. *)
Lemma final_phase_succeeds i k p s e :
  valid 0 (chunk_count recs) p →
  ∃ em, final_phase (task_prover task i) (mkCombineResponse k (mkIndexedProof p s e)) =
          Ret (Some em).
Proof.
  intros Hv. destruct (law_compress _ _ _ _ Hlaws p Hv)
    as (pg & va & rc & pk & vk & c & E1 & E2 & E3 & E4 & Hc).
  destruct (law_embed _ _ _ _ Hlaws c Hc) as (pg' & va' & rc' & pk' & vk' & em & F1 & F2 & F3 & F4 & F5).
  exists em. unfold final_phase, CompressP.process, EmbedP.process. simpl in *.
  unfold get_inner. simpl. change (CompressP.get_vk_root) with get_vk_root.
  rewrite E1. simpl. rewrite E2. simpl. rewrite E3. simpl. rewrite E4. simpl.
  change (EmbedP.get_vk_root) with get_vk_root.
  rewrite F1. simpl. rewrite F2. simpl. rewrite F3. simpl. rewrite F4. simpl.
  unfold EmbedP.verify, get_inner. simpl. by rewrite F5.
Qed.
End Use.
End Laws.

(** ** Schedules in which the emulator is ahead *)

(** A step that lets the gateway take a message of a worker only when the
    emulator has sent everything. *)
Definition patient_step `{PicoVM, RustBuild, !GnarkEnv, AlloyU256, Chan C}
    (prover : nat → Prover) (s s' : sys (C := C)) : Prop :=
  ∃ l, exec_step prover l s = Some s' ∧ (l = LGatewayGrpc → pending s = []).

Fixpoint exec_patient `{PicoVM, RustBuild, !GnarkEnv, AlloyU256, Chan C}
    (prover : nat → Prover) (ls : list label) (s : sys (C := C)) : option (sys (C := C)) :=
  match ls with
  | [] => Some s
  | l :: ls =>
      match l, pending s with
      | LGatewayGrpc, _ :: _ => None
      | _, _ => s' ← exec_step prover l s; exec_patient prover ls s'
      end
  end.

Lemma exec_patient_rtc `{PicoVM, RustBuild, !GnarkEnv, AlloyU256, Chan C} prover ls
    (s s' : sys (C := C)) :
  exec_patient prover ls s = Some s' → rtc (patient_step prover) s s'.
Proof.
  revert s; induction ls as [|l ls IH]; intros s; cbn [exec_patient].
  - intros [= ->]. apply rtc_refl.
  - intros E.
    assert (Hl : (l = LGatewayGrpc → pending s = []) ∧
      (s1 ← exec_step prover l s; exec_patient prover ls s1) = Some s').
    { destruct l; (split; [intros Hg|]); try done; by destruct (pending s). }
    destruct Hl as [Hl E']. destruct (exec_step prover l s) as [s1|] eqn:E1; simpl in E'; [|done].
    eapply rtc_l; [by exists l|by apply IH].
Qed.

(** ** Runs without a premature final combine *)

Section Progress.
Context `{PicoVM, RustBuild, !GnarkEnv, AlloyU256, FifoChan C}.
Context (task : ProvingTask) (recs : list EmulationRecord).

(** A request flagged complete covers every chunk of the execution. *)
Definition flag_covers (msg : GatewayMsg) : Prop :=
  match msg with
  | Combine (CombineMsg_Request (mkCombineRequest true _ [a; b])) _ _ =>
      start_chunk a = 0 ∧ end_chunk b + 1 = chunk_count recs
  | _ => True
  end.

Definition timely (s : sys (C := C)) : Prop := Forall flag_covers (ch_contents (to_workers s)).

Definition timely_step (s s' : sys (C := C)) : Prop := step (task_prover task) s s' ∧ timely s'.

Context (valid : Z → Z → MetaProof → Prop) (compressed : MetaProof → Prop).

(** *** Valid, partial proofs everywhere *)

(** A proof of its range, which is not the whole execution. *)
Definition partial (p : IndexedProof MetaProof) : Prop :=
  valid (start_chunk p) (end_chunk p + 1) (inner p) ∧
  ¬ (start_chunk p = 0 ∧ end_chunk p + 1 = chunk_count recs).

Definition request_live (msg : GatewayMsg) : Prop :=
  match msg with
  | Riscv (RiscvMsg_Request (mkRiscvRequest k r)) _ _ => recs !! Z.to_nat k = Some r
  | Combine (CombineMsg_Request (mkCombineRequest flag _ [a; b])) _ _ =>
      partial a ∧ partial b ∧
      (flag = false → ¬ (start_chunk a = 0 ∧ end_chunk b + 1 = chunk_count recs))
  | _ => True
  end.

Definition reply_live (msg : GatewayMsg) : Prop :=
  match answer_of msg with Some (_, p) => partial p | None => True end.

Definition worker_live (w : worker_state) : Prop :=
  (∀ p, w ≠ WPanicked p) ∧ Forall reply_live (worker_pending w).

Definition embed_emitted (s : sys (C := C)) : Prop :=
  has_embed (ch_contents (to_gateway s)) ∨
  ∃ w, w ∈ workers s ∧ has_embed (worker_pending w).

Record live_inv (s : sys (C := C)) : Prop := {
  live_requests : Forall request_live (ch_contents (to_workers s));
  live_workers : Forall worker_live (workers s);
  live_replies : Forall reply_live (ch_contents (to_gateway s));
  live_tree : Forall partial (proved (tree (proof_tree (handler s))));
  live_balance : status s = GwRunning →
    embed_emitted s ∨ tickets (tree (proof_tree (handler s))) ≡ₚ flight s;
}.

Lemma live_init n : live_inv (sys_init recs n).
Proof.
  split; simpl; rewrite ?ch_new_contents; auto; try done.
  - apply Forall_replicate. split; [done|]. simpl. by constructor.
  - intros _. right. unfold flight. simpl. by rewrite !ch_new_contents, worker_tickets_init.
Qed.

(** *** The gateway keeps it *)

Lemma gateway_to_live s ec tg h msgs :
  live_inv s → Forall request_live msgs → Forall reply_live (ch_contents tg) →
  Forall partial (proved (tree (proof_tree h))) →
  (embed_emitted s ∨ tickets (tree (proof_tree (handler s))) ≡ₚ flight s →
   embed_emitted (gateway_to s ec tg h msgs) ∨
   tickets (tree (proof_tree h)) ≡ₚ flight (gateway_to s ec tg h msgs)) →
  status s = GwRunning →
  live_inv (gateway_to s ec tg h msgs).
Proof.
  intros [Hreq Hwk Hrep Ht Hbal] Hmsgs Htg Hh Hnew Hs. split; simpl; auto.
  rewrite send_all_contents. by apply Forall_app.
Qed.

(** The gateway takes a message that is not an embed proof from its queue. *)
Lemma embed_emitted_consume s x ec tg h msgs :
  ch_contents (to_gateway s) = x :: ch_contents tg → is_embed x = false →
  embed_emitted s → embed_emitted (gateway_to s ec tg h msgs).
Proof.
  intros Hx Hne [He|He]; [left|by right]. simpl. rewrite Hx in He. by eapply has_embed_tail.
Qed.

(** The request made from two partial proofs. *)
Lemma combine_requests_live k hi t t' p lo e o rest :
  tree_wf t' hi → hi ≤ chunk_count recs →
  set_proof_post (P := MetaProof) t k lo e p t' o rest →
  partial p → Forall partial (proved (tree t)) →
  Forall request_live (combine_requests k hi o) ∧ Forall partial (proved (tree t')).
Proof.
  intros Hwf Hhi Hpost Hp Ht. destruct o as [ps|].
  - destruct Hpost as (a & b & q & -> & Hor & _ & _ & _ & _ & Htk & Hpr & _).
    rewrite Hpr in Ht. apply Forall_cons in Ht as [Hq Ht]. split; [|done].
    assert (Hin : (k, start_chunk a, end_chunk b + 1) ∈ tickets (tree t')) by (rewrite Htk; by left).
    destruct (ticket_covers_all _ _ _ _ _ Hwf Hin) as [_ Hrange].
    constructor; [|constructor]. simpl.
    split; [|split]; [by destruct Hor as [[-> ->]|[-> ->]]..|].
    intros Hf%bool_decide_eq_false. intros [Ha Hb]. apply Hf. split; [done|lia].
  - destruct Hpost as (_ & Hpr & _). split; [constructor|]. rewrite Hpr. by constructor.
Qed.

Lemma reply_live_head s x tg :
  live_inv s → ch_contents (to_gateway s) = x :: ch_contents tg →
  reply_live x ∧ Forall reply_live (ch_contents tg).
Proof. intros [_ _ Hrep _ _] Hx. rewrite Hx in Hrep. by apply Forall_cons in Hrep. Qed.

(** The moves in which the gateway keeps running. *)
Lemma request_move_live s k r ec t :
  live_inv s → status s = GwRunning → recs !! k = Some r →
  tickets t ≡ₚ (Z.of_nat k, Z.of_nat k, Z.of_nat k + 1) :: tickets (tree (proof_tree (handler s))) →
  proved t = proved (tree (proof_tree (handler s))) →
  live_inv (gateway_to s ec (to_gateway s) (with_tree (handler s) (mkProofTree t))
    [request_msg (Z.of_nat k) r]).
Proof.
  intros Hl Hs Hr Htk Hpr. apply gateway_to_live; auto; [| |by simpl; rewrite Hpr; apply Hl|].
  - constructor; [|done]. simpl. by rewrite Nat2Z.id.
  - apply Hl.
  - intros [He|Hbal]; [by left|right]. unfold flight in *. simpl.
    autorewrite with rust_rw. simpl. solve_perm.
Qed.

Lemma reply_move_live s x tg hi k p t' o rest :
  live_inv s → status s = GwRunning → hi ≤ chunk_count recs →
  ch_contents (to_gateway s) = x :: ch_contents tg → is_reply x = true →
  answer_of x = Some (k, p) → msg_ticket x = [(k, start_chunk p, end_chunk p + 1)] →
  tree_wf t' hi →
  tickets (tree (proof_tree (handler s))) ≡ₚ (k, start_chunk p, end_chunk p + 1) :: rest →
  set_proof_post (proof_tree (handler s)) k (start_chunk p) (end_chunk p + 1) p t' o rest →
  live_inv (gateway_to s (emu_chan s) tg (with_tree (handler s) t') (combine_requests k hi o)).
Proof.
  intros Hl Hs Hhi Hx Hr Ha Hxt Hwf Htk Hpost.
  destruct (reply_live_head _ _ _ Hl Hx) as [Hp Htg]. unfold reply_live in Hp. rewrite Ha in Hp.
  destruct (combine_requests_live _ _ _ _ _ _ _ _ _ Hwf Hhi Hpost Hp (live_tree _ Hl)) as [Hreq Ht].
  destruct (combine_requests_ok recs _ _ _ _ _ _ _ _ _ Hwf Hhi Hpost) as [_ Hnew].
  apply gateway_to_live; auto.
  intros [He|Hbal].
  - left. eapply embed_emitted_consume; [done| |done]. by apply reply_not_embed.
  - right. unfold flight in *. simpl. rewrite Hx in Hbal.
    autorewrite with rust_rw in *. rewrite Hxt in Hbal. rewrite Htk in Hbal. solve_perm.
Qed.

Lemma idle_move_live s x tg ec h :
  live_inv s → status s = GwRunning → ch_contents (to_gateway s) = x :: ch_contents tg →
  x = RequestTask → tree (proof_tree h) = tree (proof_tree (handler s)) →
  live_inv (gateway_to s ec tg h []).
Proof.
  intros Hl Hs Hx -> Hh. destruct (reply_live_head _ _ _ Hl Hx) as [_ Htg].
  apply gateway_to_live; auto; [by rewrite Hh; apply Hl|].
  intros [He|Hbal]; [left; by eapply embed_emitted_consume|right].
  rewrite Hh. unfold flight in *. simpl. rewrite Hx in Hbal. autorewrite with rust_rw in *. done.
Qed.

(** *** The workers keep it *)

Hypothesis Hlaws : PicoLaws task recs valid compressed.
Hypothesis Hsize : (2 ≤ COMBINE_SIZE)%nat.
Hypothesis Hmany : 2 ≤ chunk_count recs ≤ u32_max.

(** A worker serves a live request: it replies with a partial proof, or
    emits the embed proof of the whole execution. *)
Lemma worker_serves i m out next :
  request_ok (chunk_count recs) m → request_live m → flag_covers m →
  worker_handle (task_prover task i) m = (out, next) →
  (∃ r, out = [r; RequestTask] ∧ next = NextLoop ∧ is_reply r = true ∧
        msg_ticket r = msg_ticket m ∧ reply_live r) ∨
  (∃ e, out = [Embed e; Exit] ∧ next = NextBreak).
Proof.
  intros Hok Hlive Hflag Eh.
  destruct m as [| |[[k r]|?] t ip|[[flag k ps]|?] t ip| | |]; try done; unfold worker_handle in Eh.
  - simpl in Hok, Hlive.
    destruct (convert_succeeds task recs valid compressed Hlaws (proj2 Hmany) i k r Hlive) as (p & E & Hv);
      [lia|].
    rewrite E in Eh. simpl in Eh. simplify_eq. left. eexists. split; [done|].
    split_and!; try done; simpl. split; [done|]. simpl. lia.
  - destruct Hok as (a & b & Hps & Hadj & Ha & Hb). simpl in Hps. subst ps.
    destruct Hlive as ([Hva _] & [Hvb _] & Hpart). simpl in Hflag.
    assert (Hf : flag = true → start_chunk a = 0 ∧ end_chunk b + 1 = chunk_count recs)
      by (by destruct flag).
    destruct (combine_succeeds task recs valid compressed Hlaws Hsize i flag k a b)
      as (c & E & Hc); auto; [unfold u32_max, usize_max in *; lia|].
    unfold handle_combine in Eh. rewrite E in Eh. simpl in Eh. destruct flag.
    + destruct (Hf eq_refl) as [E0 E1]. rewrite E0, E1 in Hc.
      destruct (final_phase_succeeds task recs valid compressed Hlaws i k c (start_chunk a) (end_chunk b) Hc)
        as [em Ef].
      rewrite Ef in Eh. simpl in Eh. simplify_eq. right. by exists em.
    + simplify_eq. left. eexists. split; [done|]. split_and!; try done. simpl. split; auto.
Qed.

Lemma embed_emitted_set_worker s i w w' tw tg :
  workers s !! i = Some w →
  (has_embed (ch_contents (to_gateway s)) ∨ has_embed (worker_pending w) →
   has_embed (ch_contents tg) ∨ has_embed (worker_pending w')) →
  embed_emitted s → embed_emitted (set_worker s i w' tw tg).
Proof.
  intros Hi Hto Hem.
  assert (Hnew : has_embed (ch_contents tg) ∨ has_embed (worker_pending w') →
    embed_emitted (set_worker s i w' tw tg)).
  { intros [?|Hw]; [by left|right]. exists w'. split; [|done]. simpl.
    apply list_elem_of_lookup. exists i.
    rewrite list_lookup_insert_eq; [done|]. by eapply lookup_lt_Some. }
  destruct Hem as [He|(w0 & Hin & He)]; [by apply Hnew, Hto; left|].
  apply list_elem_of_lookup in Hin as [j Hj]. destruct (decide (i = j)) as [<-|Hij].
  - rewrite Hi in Hj. injection Hj as ->. by apply Hnew, Hto; right.
  - right. exists w0. split; [|done]. simpl. apply list_elem_of_lookup. exists j.
    by rewrite list_lookup_insert_ne.
Qed.

Lemma set_worker_live s i w w' tw tg :
  live_inv s → workers s !! i = Some w → worker_live w' →
  Forall request_live (ch_contents tw) → Forall reply_live (ch_contents tg) →
  (status s = GwRunning → embed_emitted (set_worker s i w' tw tg) ∨
    (embed_emitted s → embed_emitted (set_worker s i w' tw tg)) ∧
    (flight s ≡ₚ flight (set_worker s i w' tw tg))) →
  live_inv (set_worker s i w' tw tg).
Proof.
  intros [Hreq Hwk Hrep Ht Hbal] Hi Hw Htw Htg Hnew. split; simpl; auto.
  - by apply Forall_insert.
  - intros Hs. destruct (Hnew Hs) as [?|[He Hf]]; [by left|].
    destruct (Hbal Hs) as [?|Hb]; [by left; auto|right]. by rewrite Hb.
Qed.

Lemma worker_recv_live s i m tw out next :
  live_inv s → timely s →
  workers s !! i = Some WRecv → ch_contents (to_workers s) = m :: ch_contents tw →
  request_ok (chunk_count recs) m → worker_handle (task_prover task i) m = (out, next) →
  live_inv (set_worker s i (worker_sending out next) tw (to_gateway s)).
Proof.
  intros Hl Ht Hi Hx Hok Eh. pose proof (live_requests _ Hl) as Hreq. unfold timely in Ht.
  rewrite Hx in Hreq, Ht. apply Forall_cons in Hreq as [Hm Htw]. apply Forall_cons in Ht as [Hf _].
  destruct (worker_serves i m out next Hok Hm Hf Eh) as [(r & -> & -> & Hr & Htk & Hrl)|(e & -> & ->)].
  - apply (set_worker_live _ _ WRecv); auto; [|apply Hl|].
    + split; [done|]. simpl. by repeat constructor.
    + intros _. right. split.
      * apply (embed_emitted_set_worker _ _ WRecv); [done|].
        intros [?|[e He%elem_of_nil]]; [by left|done].
      * destruct (flight_set_worker s i _ (worker_sending [r; RequestTask] NextLoop) tw
          (to_gateway s) Hi) as (others & E1 & E2).
        cbn [worker_sending worker_after worker_pending] in *.
        rewrite Hx, tickets_of_cons in E1. rewrite tickets_of_cons, Htk in E2.
        change (tickets_of [RequestTask]) with (@nil ticket) in E2.
        change (tickets_of []) with (@nil ticket) in E1. solve_perm.
  - apply (set_worker_live _ _ WRecv); auto; [|apply Hl|].
    + split; [done|]. simpl. by repeat constructor.
    + intros _. left. right. exists (WSending [Embed e; Exit] NextBreak). split.
      * simpl. apply list_elem_of_lookup. exists i.
        rewrite list_lookup_insert_eq; [done|]. by eapply lookup_lt_Some.
      * exists e. by left.
Qed.

Lemma worker_send_live s i m ms next :
  live_inv s → workers s !! i = Some (WSending (m :: ms) next) →
  worker_ok task (WSending (m :: ms) next) →
  live_inv (set_worker s i (worker_sending ms next) (to_workers s) (ch_send (to_gateway s) m)).
Proof.
  intros Hl Hi Hok. pose proof (Forall_lookup_1 _ _ _ _ (live_workers _ Hl) Hi) as [_ Hms].
  simpl in Hms. apply Forall_cons in Hms as [Hm Hms].
  apply (set_worker_live _ _ (WSending (m :: ms) next)); auto; [|apply Hl| |].
  - split; [|by rewrite worker_pending_sending]. inversion Hok; subst; by intros p.
  - rewrite ch_send_contents. apply Forall_app. split; [apply Hl|by constructor].
  - intros _. right. split.
    + apply (embed_emitted_set_worker _ _ _ _ _ _ Hi). rewrite worker_pending_sending. simpl.
      rewrite ch_send_contents, has_embed_app, !has_embed_cons. tauto.
    + destruct (flight_set_worker s i _ (worker_sending ms next) (to_workers s)
        (ch_send (to_gateway s) m) Hi) as (others & E1 & E2).
      rewrite worker_pending_sending in E2. simpl in E1. autorewrite with rust_rw in *. simpl in *.
      solve_perm.
Qed.

Lemma gateway_ends_live s x tg h st o :
  live_inv s → ch_contents (to_gateway s) = x :: ch_contents tg → st ≠ GwRunning →
  tree (proof_tree h) = tree (proof_tree (handler s)) →
  live_inv (gateway_ends s tg h st o).
Proof.
  intros Hl Hx Hst Hh. destruct (reply_live_head _ _ _ Hl Hx) as [_ Htg].
  destruct Hl. split; simpl; auto; [by rewrite Hh|done].
Qed.

Lemma move_live s s' : live_inv s → timely s → move task recs s s' → live_inv s'.
Proof.
  intros Hl Ht.
  destruct 1 as [m ms Hp|k lost r ec Hs Hrun Hr Hx|lost ec Hs Hrun Hx|m lost tg Hs Hrun He Hx
    |m lost x tg k p t' o rest Hs Hrun He Hx Hrep Ha Hxt Hwf Htk Hpost|m lost e tg bs Hs Hrun Hx Hd
    |m lost e tg p Hs Hrun Hx Hv Hp|i m tw out next Hi Hx Hok Hh Hd|i m ms next Hi Hok].
  - by destruct Hl; split.
  - destruct (chunks_inited_next recs k) as [_ Heq]; [by eapply lookup_lt_Some|].
    pose proof (run_tree_wf _ _ _ _ Hrun) as Hwf. rewrite Heq in Hwf.
    destruct (init_node_spec _ _ Hwf) as (_ & _ & Htk & Hpr); [lia|].
    by apply request_move_live.
  - refine (gateway_to_live _ ec _ (mkGatewayHandler true (proof_tree (handler s)) None) _
      Hl (Forall_nil_2 _) (live_replies _ Hl) (live_tree _ Hl) _ Hs).
    intros [He|Hb]; [by left|right]. unfold flight in *. by simpl.
  - by eapply idle_move_live.
  - eapply reply_move_live; try done. apply chunks_inited_le.
  - by eapply gateway_ends_live.
  - by eapply gateway_ends_live.
  - by eapply worker_recv_live.
  - by apply worker_send_live.
Qed.

Lemma move_workers_length s s' :
  move (C := C) task recs s s' → length (workers s') = length (workers s).
Proof. destruct 1; simpl; rewrite ?length_insert; done. Qed.

(** *** A stuck state *)

Lemma usize_count : chunk_count recs ≤ usize_max.
Proof. unfold u32_max, usize_max in *. lia. Qed.

Lemma timely_reachable n s :
  rtc timely_step (sys_init recs n) s →
  sys_inv task recs s ∧ live_inv s ∧ length (workers s) = n.
Proof.
  intros Hr. cut (timely s ∧ sys_inv task recs s ∧ live_inv s ∧ length (workers s) = n); [tauto|].
  apply (rtc_invariant timely_step
    (λ s, timely s ∧ sys_inv task recs s ∧ live_inv s ∧ length (workers s) = n)
    (sys_init recs n)); [| |done].
  - intros a b (Ht & Hi & Hl & Hn) [Hab Htb].
    pose proof (step_move task recs Hsize usize_count _ _ Hi Hab) as Hmv.
    split; [done|]. split; [by eapply move_inv|]. split; [by eapply move_live|].
    by rewrite (move_workers_length _ _ Hmv).
  - split; [|split; [apply sys_init_inv|split; [apply live_init|]]].
    + unfold timely. simpl. rewrite ch_new_contents. constructor.
    + simpl. apply length_replicate.
Qed.

(** What no thread can move means for the queues. *)
Lemma stuck_quiet s :
  stuck (task_prover task) s → status s = GwRunning →
  pending s = [] ∧ ch_contents (emu_chan s) = [] ∧ ch_contents (to_gateway s) = [] ∧
  (∀ i m ms next, workers s !! i ≠ Some (WSending (m :: ms) next)) ∧
  (∀ i, workers s !! i = Some WRecv → ch_contents (to_workers s) = []).
Proof.
  intros Hst Hs.
  assert (Hno : ∀ l, exec_step (task_prover task) l s = None).
  { intros l. destruct (exec_step _ l s) as [s'|] eqn:E; [|done]. exfalso.
    apply (Hst s'). by exists l. }
  assert (Hem : ch_recv (emu_chan s) = None).
  { pose proof (Hno LGatewayEmulator) as E. simpl in E. rewrite Hs in E. simpl in E.
    by destruct (ch_recv (emu_chan s)) as [[]|]. }
  split_and!.
  - pose proof (Hno LEmulator) as E. simpl in E. by destruct (pending s).
  - by apply ch_recv_None.
  - pose proof (Hno LGatewayGrpc) as E. simpl in E. rewrite Hs, Hem in E. simpl in E.
    apply ch_recv_None. by destruct (ch_recv (to_gateway s)) as [[]|].
  - intros i m ms next Hi. pose proof (Hno (LWorkerSend i)) as E. simpl in E. by rewrite Hi in E.
  - intros i Hi. pose proof (Hno (LWorkerRecv i)) as E. simpl in E. rewrite Hi in E.
    apply ch_recv_None. destruct (ch_recv (to_workers s)) as [[m tw]|]; [|done].
    by destruct (worker_handle _ m).
Qed.

(** In such a state no worker holds anything. *)
Lemma stuck_idle s w :
  sys_inv task recs s → live_inv s → status s = GwRunning →
  ch_contents (to_gateway s) = [] →
  (∀ i m ms next, workers s !! i ≠ Some (WSending (m :: ms) next)) →
  w ∈ workers s → w = WRecv.
Proof.
  intros Hinv Hl Hs Hq Hsend Hin. pose proof (inv_status _ _ _ Hinv) as Hst. rewrite Hs in Hst.
  destruct Hst as (m & lost & Hrun).
  pose proof (proj1 (Forall_forall _ _) (inv_workers _ _ _ Hinv) _ Hin) as Hok.
  pose proof (proj1 (Forall_forall _ _) (live_workers _ Hl) _ Hin) as [Hp _].
  pose proof (run_after _ _ _ _ Hrun _ Hin) as Haf. rewrite Hq in Haf.
  apply list_elem_of_lookup in Hin as [i Hi]. destruct Hok; try (by destruct (Hsend _ _ _ _ Hi)).
  - done.
  - destruct Haf as [e He%elem_of_nil]; [by left|done].
  - by destruct (Hp p).
Qed.

Lemma running_not_stuck n s :
  (0 < n)%nat → sys_inv task recs s → live_inv s → length (workers s) = n →
  stuck (task_prover task) s → status s ≠ GwRunning.
Proof.
  intros Hn Hinv Hl Hlen Hst Hs. destruct (stuck_quiet s Hst Hs) as (Hp & He & Hq & Hsend & Hrecv).
  pose proof (λ w, stuck_idle s w Hinv Hl Hs Hq Hsend) as Hidle.
  pose proof (inv_status _ _ _ Hinv) as Hstat. rewrite Hs in Hstat.
  destruct Hstat as (m & lost & Hrun).
  assert (Htw : ch_contents (to_workers s) = []).
  { destruct (workers s) as [|w ws] eqn:Ew; [simpl in Hlen; lia|].
    apply (Hrecv O). rewrite (Hidle w); [done|by left]. }
  assert (Hwt : worker_tickets (workers s) = []).
  { unfold worker_tickets. clear -Hidle. induction (workers s) as [|w ws IH]; [done|].
    simpl. rewrite (Hidle w) by (by left). simpl. apply IH. intros w' Hw'. apply Hidle. by right. }
  assert (Hfl : flight s = []) by (unfold flight; by rewrite Htw, Hq, Hwt).
  assert (Htk : tickets (tree (proof_tree (handler s))) = []).
  { destruct (live_balance _ Hl Hs) as [[[e Hem]|(w & Hw & e & Hem)]|Hb].
    - rewrite Hq in Hem. by apply elem_of_nil in Hem.
    - rewrite (Hidle w Hw) in Hem. by apply elem_of_nil in Hem.
    - rewrite Hfl in Hb. by apply Permutation_nil_r. }
  pose proof (run_tree_wf _ _ _ _ Hrun) as Hwf.
  rewrite (chunks_inited_all recs s m lost) in Hwf by done.
  destruct (tree_all_proved _ _ Hwf Htk) as [[_ ?]|(k & p & Et & Hfrom & Hto)]; [lia|].
  pose proof (live_tree _ Hl) as Hpart. rewrite Et in Hpart. simpl in Hpart.
  apply Forall_cons in Hpart as [[_ Hpart] _]. by apply Hpart.
Qed.

(** *** Patient runs are timely *)

(** A move that flags a combine comes after the whole emulation, or takes
    the gateway's queue a message shorter. *)
Lemma move_timely s s' :
  timely s → move task recs s s' →
  (pending s = [] ∨
   (length (ch_contents (to_gateway s)) ≤ length (ch_contents (to_gateway s')))%nat) →
  timely s'.
Proof.
  unfold timely. intros Ht Hmv Hor.
  destruct Hmv as [| | | |m lost x tg k p t' o rest Hs Hrun He Hx _ _ _ Hwf _ Hpost| | |
    i m tw out next Hi Hx|];
    cbn [pending to_workers to_gateway gateway_to gateway_ends emulator_sent set_worker] in *; auto.
  - rewrite send_all_contents. apply Forall_app. split; [done|]. by repeat constructor.
  - rewrite send_all_contents. apply Forall_app. split; [done|].
    destruct o as [ps|]; [|constructor]. destruct Hpost as (a & b & q & -> & _).
    constructor; [|constructor]. simpl. case_bool_decide as Hf; [|done].
    destruct Hor as [Hp|Hle]; [|rewrite Hx in Hle; simpl in Hle; lia].
    rewrite (chunks_inited_all recs s m lost) in Hf; done.
  - rewrite Hx in Ht. by apply Forall_cons in Ht as [_ ?].
Qed.

Lemma patient_step_timely s s' :
  sys_inv task recs s → timely s → patient_step (task_prover task) s s' → timely_step s s'.
Proof.
  intros Hinv Ht (l & E & Hl). assert (Hst : step (task_prover task) s s') by (by exists l).
  split; [done|]. apply (move_timely s); [done|by apply step_move; auto using usize_count|].
  destruct l as [| | |i|i]; [right|right|left; auto|right|right]; simpl in E.
  - destruct (pending s); simplify_eq. simpl. lia.
  - destruct (status s); simplify_eq/=. destruct (ch_recv (emu_chan s)) as [[m ec]|]; simplify_eq/=.
    unfold apply_iteration. destruct (on_emulator _ _); simpl; lia.
  - destruct (workers s !! i) as [[]|]; simplify_eq/=.
    destruct (ch_recv (to_workers s)) as [[m tw]|]; simplify_eq/=.
    destruct (worker_handle _ m). simplify_eq/=. lia.
  - destruct (workers s !! i) as [[|[|m ms] next| |]|]; simplify_eq/=.
    rewrite ch_send_contents, length_app. simpl. lia.
Qed.

Lemma patient_rtc_timely n s :
  rtc (patient_step (task_prover task)) (sys_init recs n) s →
  rtc timely_step (sys_init recs n) s.
Proof.
  apply (rtc_invariant _ (λ s, rtc timely_step (sys_init recs n) s)); [|apply rtc_refl].
  intros a b Ha Hab. eapply rtc_r; [done|]. destruct (timely_reachable n a Ha) as (Hi & _ & _).
  apply patient_step_timely; [done| |done].
  apply rtc_inv_r in Ha as [<-|(c & _ & [_ Hc])]; [|done].
  unfold timely. simpl. rewrite ch_new_contents. constructor.
Qed.

(** A patient schedule gets stuck only where every schedule does. *)
Lemma patient_stuck s :
  (∀ s', ¬ patient_step (task_prover task) s s') → stuck (task_prover task) s.
Proof.
  intros Hp s' [l El]. destruct (pending s) as [|m ms] eqn:Hpen.
  - apply (Hp s'). by exists l.
  - destruct (exec_step (task_prover task) LEmulator s) as [s1|] eqn:E1.
    + apply (Hp s1). by exists LEmulator.
    + simpl in E1. by rewrite Hpen in E1.
Qed.

Lemma timely_delivers n s :
  (0 < n)%nat → rtc timely_step (sys_init recs n) s → stuck (task_prover task) s →
  ((∃ e bs, completion s = OneSent bs ∧ delivered task e bs) ∨
   (∃ e p, completion s = OneClosed ∧ verified task e ∧ prove_embed_onchain e = Panic p)) ∧
  (∀ p, WPanicked p ∉ workers s).
Proof.
  intros Hn Hr Hst. destruct (timely_reachable n s Hr) as (Hinv & Hl & Hlen).
  pose proof (running_not_stuck n s Hn Hinv Hl Hlen Hst) as Hs.
  pose proof (inv_status _ _ _ Hinv) as Hstat. split.
  - destruct (status s); [done|by left|right]. destruct Hstat as (Hc & e & Hv & Hp). eauto.
  - intros p Hin. destruct (proj1 (Forall_forall _ _) (live_workers _ Hl) _ Hin) as [Hne _].
    by destruct (Hne p).
Qed.

(** A patient schedule can be followed to its end. *)
Lemma patient_enabled (s : sys (C := C)) :
  (∃ s', patient_step (task_prover task) s s') ∨ (∀ s', ¬ patient_step (task_prover task) s s').
Proof.
  destruct (pending s) as [|m ms] eqn:Hp.
  - destruct (stuckb (task_prover task) s) eqn:Hb.
    + right. intros s' (l & E & _). apply (stuckb_stuck _ _ Hb s'). by exists l.
    + left. unfold stuckb in Hb. apply Bool.not_true_iff_false in Hb.
      rewrite forallb_forall in Hb.
      assert (Hex : Exists (λ l, is_Some (exec_step (task_prover task) l s)) (labels (length (workers s)))).
      { apply dec_stable. intros Hno%Forall_Exists_neg. apply Hb. intros l Hl.
        rewrite Forall_forall in Hno. apply negb_true_iff, bool_decide_eq_false.
        apply Hno. by apply list_elem_of_In. }
      apply Exists_exists in Hex as (l & _ & s' & E). exists s'. by exists l.
  - left. eexists. exists LEmulator. simpl. by rewrite Hp.
Qed.

Lemma patient_run_ends s :
  sys_inv task recs s →
  ∃ s', rtc (patient_step (task_prover task)) s s' ∧
    ∀ s'', ¬ patient_step (task_prover task) s' s''.
Proof.
  induction s as [s IH] using (well_founded_induction
    (Wf_nat.well_founded_ltof _ (sys_cost (C := C)))).
  intros Hinv. destruct (patient_enabled s) as [(s1 & Hs)|Hend]; [|by exists s; split; [apply rtc_refl|]].
  assert (Hst : step (task_prover task) s s1) by (destruct Hs as (l & E & _); by exists l).
  destruct (step_cost task recs Hsize usize_count _ _ Hinv Hst) as [Hinv1 Hc].
  destruct (IH s1 Hc Hinv1) as (s' & Hr & Hend). exists s'. split; [by eapply rtc_l|done].
Qed.

Lemma patient_delivers n s :
  (0 < n)%nat → rtc (patient_step (task_prover task)) (sys_init recs n) s →
  (∀ s', ¬ patient_step (task_prover task) s s') →
  ((∃ e bs, completion s = OneSent bs ∧ delivered task e bs) ∨
   (∃ e p, completion s = OneClosed ∧ verified task e ∧ prove_embed_onchain e = Panic p)) ∧
  (∀ p, WPanicked p ∉ workers s).
Proof.
  intros Hn Hr Hst. apply (timely_delivers n); [done|by apply patient_rtc_timely|].
  by apply patient_stuck.
Qed.

(** A run of a CPU task that returns. *)
Lemma cpu_task_completes n :
  (0 < n)%nat → task_use_gpu task = false → task_emulates task recs None →
  ∃ res, prove_task (C := C) task n (Ret res) ∧
    ((∃ e bs, res = Ok bs ∧ delivered task e bs) ∨
     (∃ e p, res = Err "channel closed" ∧ verified task e ∧ prove_embed_onchain e = Panic p)).
Proof.
  intros Hn Hgpu (em & cap & fuel & Es & Ee).
  destruct (patient_run_ends _ (sys_init_inv task recs n)) as (s & Hr & Hend).
  assert (Hp : pending s = []).
  { destruct (pending s) eqn:Hp; [done|]. exfalso. eapply Hend. exists LEmulator. simpl. by rewrite Hp. }
  assert (Hrun : rtc (step (task_prover task)) (sys_init recs n) s).
  { eapply rtc_subrel; [|exact Hr]. intros a b (l & E & _). by exists l. }
  destruct (patient_delivers n s Hn Hr Hend) as [[(e & bs & Hc & Hd)|(e & p & Hc & Hv & Hpn)] _].
  - exists (Ok bs). split; [|left; eauto].
    eapply prove_task_returns; eauto. by rewrite Hc.
  - exists (Err "channel closed"). split; [|right; eauto].
    eapply prove_task_returns; eauto. by rewrite Hc.
Qed.

(** C13: [prove_task] returns.  On a prover that obeys the laws, a CPU task
    of at least two chunks on at least one worker has a run in which
    [prove_task] returns: the bytes delivered for an embed proof verified
    against the task's key, or the error of the closed completion channel
    when the on-chain phase of such a proof panicked. *)
Theorem prove_task_completes n :
  (0 < n)%nat → task_use_gpu task = false → task_emulates task recs None →
  ∃ res, prove_task (C := C) task n (Ret res) ∧
    ((∃ e bs, res = Ok bs ∧ delivered task e bs) ∨
     (∃ e p, res = Err "channel closed" ∧ verified task e ∧ prove_embed_onchain e = Panic p)).
Proof. apply cpu_task_completes. Qed.

(** The pipeline delivers.  On a prover that obeys the laws, a task of
    at least two chunks on at least one worker cannot stop without
    completing, along any schedule in which the gateway takes no message of
    a worker before the emulator has sent its last one: once no thread can
    move, the gateway has delivered the outcome of the on-chain phase for an
    embed proof verified against the task's key, or that phase panicked; and
    no worker has died. *)
Theorem patient_pipeline_delivers n s :
  (0 < n)%nat → rtc (patient_step (task_prover task)) (sys_init recs n) s →
  (∀ s', ¬ patient_step (task_prover task) s s') →
  ((∃ e bs, completion s = OneSent bs ∧ delivered task e bs) ∨
   (∃ e p, completion s = OneClosed ∧ verified task e ∧ prove_embed_onchain e = Panic p)) ∧
  (∀ p, WPanicked p ∉ workers s).
Proof. apply patient_delivers. Qed.

(** C1: the pipeline delivers.  On a prover that obeys the laws, a task of at
    least two chunks on at least one worker delivers along every run in which
    each request flagged complete covers all the chunks of the execution (the
    only thing a schedule can get wrong): once no thread can move, the
    completion channel holds the outcome of the on-chain phase for an embed
    proof verified against the task's key, or was closed by a panic of that
    phase; and no worker has died. *)
Theorem pipeline_delivers n s :
  (0 < n)%nat → rtc timely_step (sys_init recs n) s → stuck (task_prover task) s →
  ((∃ e bs, completion s = OneSent bs ∧ delivered task e bs) ∨
   (∃ e p, completion s = OneClosed ∧ verified task e ∧ prove_embed_onchain e = Panic p)) ∧
  (∀ p, WPanicked p ∉ workers s).
Proof. apply timely_delivers. Qed.
End Progress.

(** ** The three-chunk task *)

#[local] Existing Instance release_build.

(** In the symbolic prover a proof is valid for the chunks it lists. *)
Definition symbolic_valid (lo hi : Z) (p : list Z) : Prop := p = seqZ lo (hi - lo) ∧ lo ≤ hi.

Lemma symbolic_laws :
  PicoLaws ThreeChunks.task ThreeChunks.records symbolic_valid (λ c, c = seqZ 0 3).
Proof.
  split; simpl.
  - intros k r Hr Hk. eexists _, _, _. do 3 (split; [done|]). split; [|lia].
    by replace (k + 1 - k) with 1 by lia.
  - intros lo mid hi a b flag [-> H1] [-> H2] _. eexists. split; [done|]. split; [|lia].
    replace (hi - lo) with ((mid - lo) + (hi - mid)) by lia. rewrite seqZ_app by lia.
    by replace (lo + (mid - lo)) with mid by lia.
  - intros p [-> _]. eexists _, _, _, _, _, _. do 4 (split; [done|]). vm_compute. reflexivity.
  - intros c ->. eexists _, _, _, _, _, _. do 4 (split; [done|]). vm_compute. reflexivity.
Qed.

Lemma three_patient :
  rtc (patient_step (task_prover ThreeChunks.task)) (sys_init ThreeChunks.records 1)
    ThreeChunks.final_state.
Proof. apply (exec_patient_rtc _ ThreeChunks.complete_run). vm_compute. reflexivity. Qed.

Lemma three_stuck : stuck (task_prover ThreeChunks.task) ThreeChunks.final_state.
Proof. apply stuckb_stuck. vm_compute. reflexivity. Qed.

Lemma patient_pipeline_delivers_witness :
  (∃ e bs, completion ThreeChunks.final_state = OneSent bs ∧ delivered ThreeChunks.task e bs) ∨
  (∃ e p, completion ThreeChunks.final_state = OneClosed ∧ verified ThreeChunks.task e ∧
          prove_embed_onchain e = Panic p).
Proof.
  refine (proj1 (patient_pipeline_delivers ThreeChunks.task ThreeChunks.records symbolic_valid
    (λ c, c = seqZ 0 3) symbolic_laws _ _ 1 ThreeChunks.final_state _ three_patient _)).
  - apply le_n.
  - vm_compute. split; discriminate.
  - lia.
  - intros s' (l & E & _). apply (three_stuck s'). by exists l.
Defined.

Lemma prove_task_completes_witness :
  ∃ res, prove_task (C := list) ThreeChunks.task 1 (Ret res).
Proof.
  pose proof (prove_task_completes (C := list) ThreeChunks.task ThreeChunks.records symbolic_valid
    (λ c, c = seqZ 0 3) symbolic_laws) as Hcomplete.
  destruct (Hcomplete ltac:(apply le_n) ltac:(vm_compute; split; discriminate) 1%nat (le_n _) eq_refl three_emulates)
    as (res & Hres & _).
  exists res. exact Hres.
Defined.

Lemma three_timely :
  rtc (timely_step ThreeChunks.task ThreeChunks.records) (sys_init ThreeChunks.records 1)
    ThreeChunks.final_state.
Proof.
  refine (patient_rtc_timely ThreeChunks.task ThreeChunks.records symbolic_valid
    (λ c, c = seqZ 0 3) symbolic_laws _ _ 1 _ three_patient).
  - apply le_n.
  - vm_compute. split; discriminate.
Qed.

Lemma pipeline_delivers_witness :
  (∃ e bs, completion ThreeChunks.final_state = OneSent bs ∧ delivered ThreeChunks.task e bs) ∨
  (∃ e p, completion ThreeChunks.final_state = OneClosed ∧ verified ThreeChunks.task e ∧
          prove_embed_onchain e = Panic p).
Proof.
  refine (proj1 (pipeline_delivers ThreeChunks.task ThreeChunks.records symbolic_valid
    (λ c, c = seqZ 0 3) symbolic_laws _ _ 1 ThreeChunks.final_state _ three_timely three_stuck)).
  - apply le_n.
  - vm_compute. split; discriminate.
  - lia.
Defined.

(** C23: the final combine can be started too early.  When two chunks are
    proved before the third is announced, the gateway asks for a combine
    flagged complete that covers only those two: the flag says that the tree
    has one node, not that the emulation is over ([emulator_complete] is
    still false). *)
Theorem premature_final_combine :
  ∃ s req task_id ip_addr,
    rtc (step (C := list) (task_prover ThreeChunks.task)) (sys_init ThreeChunks.records 1) s ∧
    emulator_complete (handler s) = false ∧
    ch_contents (to_workers s) = [Combine (CombineMsg_Request req) task_id ip_addr] ∧
    combine_req_flag_complete req = true ∧
    ¬ flag_covers ThreeChunks.records (Combine (CombineMsg_Request req) task_id ip_addr).
Proof.
  exists ThreeChunks.early_state. eexists _, _, _. split; [apply ThreeChunks.early_run_rtc|].
  split; [done|]. split; [done|]. split; [done|]. by intros [_ ?].
Qed.
