(* ===== verification/PipelineWork.v ===== *)
(** * Each piece of work is done once

    The requests the workers of a run of [Pipeline.v] take: every chunk is
    converted at most once, in the order of the emulation, and the combines are
    exactly the merges of the tree, so a task of [N] chunks costs at most
    [2 N - 1] calls of a prover, whatever the schedule. *)

From S2P Require Import Prelude BTreeMap ProofTree PicoVM Messages GatewayHandler Task Provers.
From S2P Require Import Worker Channel Onchain Emulator Gateway Pipeline PipelineInv PipelineLive PipelineProgress.

Section Work.
Context `{PicoVM, RustBuild, !GnarkEnv, AlloyU256, FifoChan C}.

(** ** The work of a run *)

(** The request a worker takes in a step. *)
Definition taken (l : label) (s : sys (C := C)) : list GatewayMsg :=
  match l with
  | LWorkerRecv i =>
      match workers s !! i, ch_recv (to_workers s) with
      | Some WRecv, Some (m, _) => [m]
      | _, _ => []
      end
  | _ => []
  end.

Fixpoint work_of (prover : nat → Prover) (ls : list label) (s : sys (C := C)) : list GatewayMsg :=
  match ls with
  | [] => []
  | l :: ls =>
      taken l s ++ match exec_step prover l s with Some s' => work_of prover ls s' | None => [] end
  end.

(** The chunk a request converts; whether it combines. *)
Definition riscv_index (m : GatewayMsg) : option Z :=
  match m with Riscv (RiscvMsg_Request req) _ _ => Some (riscv_req_chunk_index req) | _ => None end.

Definition is_combine (m : GatewayMsg) : bool :=
  match m with Combine (CombineMsg_Request _) _ _ => true | _ => false end.

Definition converted (l : list GatewayMsg) : list Z := omap riscv_index l.

Definition combine_count (l : list GatewayMsg) : nat :=
  total (λ m, if is_combine m then 1 else 0)%nat l.

Lemma converted_app l l' : converted (l ++ l') = converted l ++ converted l'.
Proof. apply omap_app. Qed.

Lemma combine_count_app l l' : combine_count (l ++ l') = (combine_count l + combine_count l')%nat.
Proof. apply total_app. Qed.

Lemma app_self {A} (l k : list A) : l = l ++ k → k = [].
Proof. intros E%(f_equal length). rewrite length_app in E. destruct k; [done|simpl in E; lia]. Qed.

(** A part of an enumeration, from its start. *)
Lemma seq_prefix n l l' :
  Z.of_nat <$> seq 0 n = l ++ l' → ∃ k, (k ≤ n)%nat ∧ l = Z.of_nat <$> seq 0 k.
Proof.
  intros E. exists (length l). pose proof (f_equal length E) as El.
  rewrite length_fmap, length_seq, length_app in El. split; [lia|].
  apply (f_equal (take (length l))) in E. rewrite take_app_length, <- fmap_take, take_seq in E.
  rewrite Nat.min_l in E by lia. done.
Qed.

Lemma list_rev_cases {A} (l : list A) : l = [] ∨ ∃ l' x, l = l' ++ [x].
Proof. induction l as [|x l' _] using rev_ind; [by left|right; by exists l', x]. Qed.

(** A request is one or the other. *)
Lemma work_length n l :
  Forall (request_ok n) l → length l = (length (converted l) + combine_count l)%nat.
Proof.
  induction 1 as [|m l Hm _ IH]; [done|].
  destruct m as [| |[]|[]| | |]; try done; unfold combine_count in *; simpl; lia.
Qed.

(** Only a worker that receives takes from the queue. *)
Lemma step_queue prover l s s' :
  exec_step prover l s = Some s' →
  ∃ msgs, taken l s ++ ch_contents (to_workers s') = ch_contents (to_workers s) ++ msgs.
Proof.
  intros E. destruct l as [| | |i|i]; simpl in E |- *.
  - destruct (pending s); [done|]. injection E as <-. exists []. by rewrite app_nil_r.
  - destruct (is_running (status s)); [|done]. destruct (ch_recv (emu_chan s)) as [[m ec]|]; [|done].
    injection E as <-. destruct (on_emulator (handler s) m) as [it|p]; simpl.
    + exists (it_sends it). by rewrite send_all_contents.
    + exists []. by rewrite app_nil_r.
  - destruct (is_running (status s)); [|done]. destruct (ch_recv (emu_chan s)); [done|].
    destruct (ch_recv (to_gateway s)) as [[m tg]|]; [|done].
    injection E as <-. destruct (on_grpc (handler s) (completion_sender s) m) as [it|p]; simpl.
    + exists (it_sends it). by rewrite send_all_contents.
    + exists []. by rewrite app_nil_r.
  - destruct (workers s !! i) as [[]|]; try done.
    destruct (ch_recv (to_workers s)) as [[m tw]|] eqn:Er; [|done]. apply ch_recv_Some in Er.
    destruct (worker_handle (prover i) m). injection E as <-. exists []. by rewrite app_nil_r, Er.
  - destruct (workers s !! i) as [[|[|m ms] next| |]|]; try done. injection E as <-.
    exists []. by rewrite app_nil_r.
Qed.
End Work.

(** ** The invariant *)

Section WorkInv.
Context `{PicoVM, RustBuild, !GnarkEnv, AlloyU256, FifoChan C}.
Context (task : ProvingTask) (recs : list EmulationRecord).

Implicit Types s : sys (C := C).

Local Abbreviation tree_size s := (ProofTree_len (proof_tree (handler s))).

(** A combine of all the chunks: nothing is issued after it. *)
Definition covers_all (m : GatewayMsg) : Prop :=
  match m with
  | Combine (CombineMsg_Request req) _ _ =>
      ∃ a b, combine_req_proofs req = [a; b] ∧ start_chunk a = 0 ∧ end_chunk b + 1 = chunk_count recs
  | _ => False
  end.

(** [all]: the requests the gateway has issued. *)
Record work_inv (all : list GatewayMsg) s (announced : nat) : Prop := {
  work_announced : (announced ≤ length recs)%nat;
  work_requests : Forall (request_ok (chunk_count recs)) all;
  work_converted : converted all = Z.of_nat <$> seq 0 announced;
  work_combines : (combine_count all ≤ announced - 1)%nat;
  work_merges : status s = GwRunning → ∀ m lost, running_inv recs s m lost →
    Z.of_nat announced = chunks_inited recs m ∧
    Z.of_nat (combine_count all) + tree_size s = Z.of_nat announced;
  work_last pre m post : all = pre ++ m :: post → covers_all m →
    post = [] ∧ announced = length recs ∧ combine_count all = (length recs - 1)%nat;
}.

(** The messages of the emulator that the gateway has consumed. *)
Lemma running_consumed s m lost :
  running_inv recs s m lost →
  (length (ch_contents (emu_chan s)) + length (pending s) + m = S (length recs))%nat.
Proof.
  intros Hrun. pose proof (run_emulator _ _ _ _ Hrun) as E%(f_equal length).
  pose proof (run_consumed _ _ _ _ Hrun). rewrite length_app, length_drop in E.
  unfold emulator_msgs in E. rewrite length_app, request_msgs_length in E. simpl in E. lia.
Qed.

(** A step that issues nothing, and leaves the tree and the emulator's messages
    where they are. *)
Lemma work_keep all s s' a :
  sys_inv task recs s → work_inv all s a →
  (status s' = GwRunning → status s = GwRunning ∧ proof_tree (handler s') = proof_tree (handler s) ∧
    (length (ch_contents (emu_chan s')) + length (pending s') =
     length (ch_contents (emu_chan s)) + length (pending s))%nat) →
  work_inv all s' a.
Proof.
  intros Hinv [Ha Hreq Hcv Hcb Hm Hlast] Hsame. split; auto. intros Hs' m' lost' Hrun'.
  destruct (Hsame Hs') as (Hs & -> & Hlen). pose proof (inv_status _ _ _ Hinv) as Hst.
  rewrite Hs in Hst. destruct Hst as (m & lost & Hrun). pose proof (running_consumed _ _ _ Hrun).
  pose proof (running_consumed _ _ _ Hrun'). assert (m' = m) as -> by lia. by eapply Hm.
Qed.

(** The gateway goes on, having issued [msgs]. *)
Lemma work_gateway all s ec tg h msgs a a' m m' lost :
  running_inv recs s m lost → work_inv all s a → status s = GwRunning →
  Forall (request_ok (chunk_count recs)) msgs → (a' ≤ length recs)%nat →
  converted all ++ converted msgs = Z.of_nat <$> seq 0 a' →
  (combine_count all + combine_count msgs ≤ a' - 1)%nat →
  (length (ch_contents (emu_chan s)) + m = length (ch_contents ec) + m')%nat →
  Z.of_nat a' = chunks_inited recs m' →
  Z.of_nat (combine_count all + combine_count msgs) + ProofTree_len (proof_tree h) = Z.of_nat a' →
  (∀ pre x post, all ++ msgs = pre ++ x :: post → covers_all x →
    post = [] ∧ a' = length recs ∧ combine_count (all ++ msgs) = (length recs - 1)%nat) →
  work_inv (all ++ msgs) (gateway_to s ec tg h msgs) a'.
Proof.
  intros Hrun [Ha Hreq Hcv Hcb Hm _] Hs Hmsgs Ha' Hcv' Hcb' Hcons Hinit Hlen Hlast.
  split; [done|by apply Forall_app|by rewrite converted_app|by rewrite combine_count_app| |done].
  intros _ m1 lost1 Hrun1. pose proof (running_consumed _ _ _ Hrun) as E.
  pose proof (running_consumed _ _ _ Hrun1) as E1. sys_simpl. simpl in E1.
  assert (m1 = m') as -> by lia. by rewrite combine_count_app.
Qed.

(** One more request, while some are missing. *)
Lemma work_last_snoc all s a x a' :
  work_inv all s a → (a ≤ a' ≤ length recs)%nat → (combine_count (all ++ [x]) ≤ a' - 1)%nat →
  (a < a' ∨ combine_count all < combine_count (all ++ [x]))%nat →
  (covers_all x → a' = length recs ∧ combine_count (all ++ [x]) = (length recs - 1)%nat) →
  ∀ pre y post, all ++ [x] = pre ++ y :: post → covers_all y →
    post = [] ∧ a' = length recs ∧ combine_count (all ++ [x]) = (length recs - 1)%nat.
Proof.
  intros Hw Ha Hc Hmore Hx pre y post E Hy. destruct (list_rev_cases post) as [->|(post' & z & ->)].
  - split; [done|]. apply app_inj_tail in E as [_ <-]. by apply Hx.
  - exfalso. rewrite app_comm_cons, app_assoc in E. apply app_inj_tail in E as [E _].
    destruct (work_last _ _ _ Hw _ _ _ E Hy) as (_ & Ea & Ec). lia.
Qed.

Lemma tree_size_pos (t : ProofTree MetaProof) tk rest : tickets (tree t) ≡ₚ tk :: rest → 1 ≤ ProofTree_len t.
Proof.
  intros E%Permutation_length. unfold ProofTree_len, bt_len. destruct (tree t); simpl in *; [done|lia].
Qed.

Lemma tree_size_nonneg (t : ProofTree MetaProof) : 0 ≤ ProofTree_len t.
Proof. unfold ProofTree_len, bt_len. lia. Qed.

(** The combine of all the chunks leaves one node. *)
Lemma covering_ticket (t : ProofTree MetaProof) hi k (x y : IndexedProof MetaProof) rest :
  tree_wf t hi → hi ≤ chunk_count recs → tickets (tree t) ≡ₚ (k, start_chunk x, end_chunk y + 1) :: rest →
  start_chunk x = 0 → end_chunk y + 1 = chunk_count recs →
  hi = chunk_count recs ∧ ProofTree_len t = 1.
Proof.
  intros Hwf Hhi Htk Hx Hy. rewrite Hx, Hy in Htk.
  destruct (ticket_covers_all _ _ k 0 (chunk_count recs) Hwf) as [Hone Hrange]; [rewrite Htk; by left|].
  assert (hi = chunk_count recs) as -> by lia. split; [done|]. by apply Hone.
Qed.

(** What the gateway issues when it has stored a reply. *)
Lemma reply_issues all s tg k p t' o rest a m lost :
  running_inv recs s m lost → work_inv all s a → status s = GwRunning →
  tree_wf t' (chunks_inited recs m) →
  set_proof_post (proof_tree (handler s)) k (start_chunk p) (end_chunk p + 1) p t' o rest →
  work_inv (all ++ combine_requests k (chunks_inited recs m) o)
    (gateway_to s (emu_chan s) tg (with_tree (handler s) t') (combine_requests k (chunks_inited recs m) o)) a.
Proof.
  intros Hrun Hw Hs Hwf Hpost. pose proof (work_merges _ _ _ Hw Hs _ _ Hrun) as [Hinit Hlen].
  pose proof Hw as [Ha _ Hcv Hcb _ _]. pose proof (proj2 (chunks_inited_le recs m)) as Hhi.
  destruct (combine_requests_ok recs k _ t' p _ _ _ o rest Hwf Hhi Hpost) as [Hok _].
  destruct o as [ps|]; simpl in Hpost.
  - destruct Hpost as (x & y & q & -> & _ & _ & _ & _ & _ & Htk & _ & Hsz).
    pose proof (tree_size_pos _ _ _ Htk). simpl. set (req := combine_request_msg _ _ _ _) in *.
    assert (Hc : combine_count [req] = 1%nat) by done.
    eapply work_gateway; [done..|by rewrite app_nil_r|lia|done|done|simpl; lia|].
    eapply work_last_snoc; [done|lia|rewrite combine_count_app; lia|rewrite combine_count_app; lia|].
    intros (x' & y' & [= <- <-] & Hx & Hy). rewrite combine_count_app.
    destruct (covering_ticket _ _ _ _ _ _ Hwf Hhi Htk Hx Hy) as [Hall Hone]. unfold chunk_count in *. lia.
  - destruct Hpost as (_ & _ & _ & Hsz). simpl.
    eapply work_gateway; [done..|by rewrite app_nil_r|by rewrite Nat.add_0_r|done|done|simpl; lia|].
    rewrite app_nil_r. by apply (work_last _ _ _ Hw).
Qed.

Lemma work_move all s s' msgs a :
  sys_inv task recs s → work_inv all s a → move task recs s s' →
  ch_contents (to_workers s') = ch_contents (to_workers s) ++ msgs →
  ∃ a', work_inv (all ++ msgs) s' a'.
Proof.
  intros Hinv Hw Hmv E. pose proof Hw as [Ha Hreq Hcv Hcb Hm Hlast].
  destruct Hmv as [x ms Hp|k lost r ec Hs Hrun Hr Hx|lost ec Hs Hrun Hx|m lost tg Hs Hrun He Hx
    |m lost x tg k p t' o rest Hs Hrun He Hx Hrep Han Hxt Hwf Htk Hpost|m lost e tg bs Hs Hrun Hx Hd
    |m lost e tg p Hs Hrun Hx Hv Hp|i x tw out next Hi Hx Hok Hh Hd|i x ms next Hi Hok]; sys_simpl;
    simpl in E; rewrite ?send_all_contents, ?ch_send_contents in E.
  - apply app_self in E as ->. rewrite app_nil_r. exists a. eapply work_keep; [done..|].
    intros Hs. simpl. rewrite ch_send_contents, length_app, Hp. simpl. split_and!; [done..|lia].
  - apply app_inv_head in E as <-. destruct (work_merges _ _ _ Hw Hs _ _ Hrun) as [Hinit Hlen].
    pose proof (tree_size_nonneg (proof_tree (handler s))). apply lookup_lt_Some in Hr.
    destruct (chunks_inited_next recs k Hr) as [Hnext Heq]. assert (a = k) as -> by lia.
    exists (S k). eapply (work_gateway _ _ _ _ _ _ _ _ k (S k)); [done..| | | | | | | |].
    + constructor; [|done]. simpl. unfold chunk_count. lia.
    + lia.
    + rewrite seq_S, fmap_app, Hcv. done.
    + unfold combine_count in *. simpl in *. lia.
    + rewrite Hx. simpl. lia.
    + lia.
    + unfold ProofTree_len, bt_len, combine_count in *. simpl in *. rewrite length_app. simpl. lia.
    + eapply work_last_snoc; [done|lia| |lia|done].
      rewrite combine_count_app. unfold combine_count in *. simpl. lia.
  - apply app_self in E as ->. exists a. destruct (work_merges _ _ _ Hw Hs _ _ Hrun) as [Hinit Hlen].
    eapply (work_gateway _ _ _ _ _ _ a a (length recs) (S (length recs))); [done..| | | | | |];
      unfold combine_count in *; simpl; rewrite ?app_nil_r; [done|lia|rewrite Hx; simpl; lia| |lia|done].
    rewrite Hinit. unfold chunks_inited, chunk_count. lia.
  - apply app_self in E as ->. rewrite app_nil_r. exists a. eapply work_keep; [done..|]. done.
  - apply app_inv_head in E as <-. exists a. by eapply reply_issues.
  - apply app_self in E as ->. rewrite app_nil_r. exists a. eapply work_keep; [done..|]. done.
  - apply app_self in E as ->. rewrite app_nil_r. exists a. eapply work_keep; [done..|]. done.
  - rewrite Hx in E. apply (f_equal length) in E. simpl in E. rewrite length_app in E. lia.
  - apply app_self in E as ->. rewrite app_nil_r. exists a. eapply work_keep; [done..|]. done.
Qed.

(** A worker that receives leaves the rest as it is. *)
Lemma work_recv all s s' i a :
  sys_inv task recs s → work_inv all s a → exec_step (task_prover task) (LWorkerRecv i) s = Some s' →
  work_inv all s' a.
Proof.
  intros Hinv Hw E. simpl in E. destruct (workers s !! i) as [[]|]; try done.
  destruct (ch_recv (to_workers s)) as [[m tw]|]; [|done].
  destruct (worker_handle (task_prover task i) m). injection E as <-.
  by eapply work_keep.
Qed.

Hypothesis Hsize : (2 ≤ COMBINE_SIZE)%nat.
Hypothesis Hcount : chunk_count recs ≤ usize_max.

(** A step, with the request it takes added to those taken before. *)
Lemma work_step w s s' l a :
  sys_inv task recs s → work_inv (w ++ ch_contents (to_workers s)) s a →
  exec_step (task_prover task) l s = Some s' →
  ∃ a', work_inv ((w ++ taken l s) ++ ch_contents (to_workers s')) s' a'.
Proof.
  intros Hinv Hw E. destruct (step_queue _ _ _ _ E) as [msgs Hq].
  rewrite <- app_assoc, Hq, app_assoc.
  assert (Hmv : taken l s = [] → ∃ a', work_inv ((w ++ ch_contents (to_workers s)) ++ msgs) s' a').
  { intros Ht. rewrite Ht in Hq. eapply work_move; [done..| |exact Hq].
    eapply step_move; [done..|]. by exists l. }
  destruct l as [| | |i|i]; [by apply Hmv..| |by apply Hmv].
  exists a. pose proof (work_recv _ _ _ _ _ Hinv Hw E) as Hw'. simpl in Hq, E.
  destruct (workers s !! i) as [[]|]; try done. destruct (ch_recv (to_workers s)) as [[m tw]|] eqn:Er; [|done].
  destruct (worker_handle (task_prover task i) m). injection E as <-. apply ch_recv_Some in Er.
  simpl in Hq. rewrite Er in Hq. apply (app_self (m :: ch_contents tw)) in Hq as ->. by rewrite app_nil_r.
Qed.

Lemma work_run ls w s s' a :
  sys_inv task recs s → work_inv (w ++ ch_contents (to_workers s)) s a →
  exec (task_prover task) ls s = Some s' →
  ∃ a', work_inv ((w ++ work_of (task_prover task) ls s) ++ ch_contents (to_workers s')) s' a'.
Proof.
  revert w s a; induction ls as [|l ls IH]; intros w s a Hinv Hw E; simpl in *.
  - injection E as <-. exists a. by rewrite app_nil_r.
  - destruct (exec_step (task_prover task) l s) as [s1|] eqn:El; [|done].
    destruct (work_step _ _ _ _ _ Hinv Hw El) as [a1 Hw1]. rewrite app_assoc.
    eapply IH; [|exact Hw1|exact E]. eapply move_inv; [done|]. eapply step_move; [done..|]. by exists l.
Qed.

Lemma work_init n : work_inv ([] ++ ch_contents (to_workers (sys_init (C := C) recs n))) (sys_init recs n) 0.
Proof.
  simpl. rewrite ch_new_contents. split; [lia|done|done|done| |by intros [] ?].
  intros _ m lost Hrun. pose proof (running_consumed _ _ _ Hrun) as E. simpl in E.
  rewrite ch_new_contents in E. unfold emulator_msgs in E. rewrite length_app, request_msgs_length in E.
  simpl in E. assert (m = 0%nat) as -> by lia. split; [|done]. unfold chunks_inited, chunk_count. lia.
Qed.

(** *** Where an embed proof comes from *)

(** Worker [i] does not make one up. *)
Lemma embed_set_worker s i w w' tw tg :
  workers s !! i = Some w →
  (has_embed (worker_pending w') → embed_emitted s) → (has_embed (ch_contents tg) → embed_emitted s) →
  embed_emitted (set_worker s i w' tw tg) → embed_emitted s.
Proof.
  intros Hi Hw Htg [He|(w0 & Hin & He)]; [by apply Htg|].
  apply list_elem_of_lookup in Hin as [j Hj]. simpl in Hj.
  apply list_lookup_insert_Some in Hj as [(_ & -> & _)|[_ Hj]]; [by apply Hw|].
  right. exists w0. split; [by eapply list_elem_of_lookup_2|done].
Qed.

Definition embed_seen s : Prop := embed_emitted s ∨ status s ≠ GwRunning.

Lemma embed_gateway s x ec tg h msgs :
  status s = GwRunning → ch_contents (to_gateway s) = x :: ch_contents tg →
  embed_seen (gateway_to s ec tg h msgs) → embed_seen s.
Proof.
  intros Hs Hx [[He|He]|He]; [left; left|left; by right|done].
  rewrite Hx. apply has_embed_cons. by right.
Qed.

(** Only a worker's receipt brings one about. *)
Lemma embed_move s s' msgs :
  move task recs s s' → ch_contents (to_workers s') = ch_contents (to_workers s) ++ msgs →
  embed_seen s' → embed_seen s.
Proof.
  intros Hmv E Hseen.
  destruct Hmv as [x ms Hp|k lost r ec Hs Hrun Hr Hx|lost ec Hs Hrun Hx|m lost tg Hs Hrun He Hx
    |m lost x tg k p t' o rest Hs Hrun He Hx Hrep Han Hxt Hwf Htk Hpost|m lost e tg bs Hs Hrun Hx Hd
    |m lost e tg p Hs Hrun Hx Hv Hp|i x tw out next Hi Hx Hok Hh Hd|i x ms next Hi Hok].
  - done.
  - destruct Hseen as [Hem|Hn]; [by left|done].
  - destruct Hseen as [Hem|Hn]; [by left|done].
  - by eapply embed_gateway.
  - by eapply embed_gateway.
  - left. left. rewrite Hx. apply has_embed_cons. by left.
  - left. left. rewrite Hx. apply has_embed_cons. by left.
  - apply (f_equal length) in E. simpl in E. rewrite Hx, length_app in E. simpl in E. lia.
  - destruct Hseen as [Hem|Hn]; [left|by right].
    assert (Hpen : has_embed (x :: ms) → embed_emitted s).
    { intros He. right. exists (WSending (x :: ms) next). split; [by eapply list_elem_of_lookup_2|done]. }
    eapply embed_set_worker; [exact Hi| | |exact Hem].
    + rewrite worker_pending_sending. intros He. apply Hpen, has_embed_cons. by right.
    + rewrite ch_send_contents, has_embed_app, has_embed_cons.
      intros [He|[He|[e He%elem_of_nil]]]; [by left| |done]. apply Hpen, has_embed_cons. by left.
Qed.

Definition flagged (m : GatewayMsg) : Prop :=
  ∃ req t ip, m = Combine (CombineMsg_Request req) t ip ∧ combine_req_flag_complete req = true.

Lemma embed_step w s s' l :
  sys_inv task recs s → (embed_seen s → Exists flagged w) →
  exec_step (task_prover task) l s = Some s' → embed_seen s' → Exists flagged (w ++ taken l s).
Proof.
  intros Hinv Hold E Hseen. rewrite Exists_app.
  destruct (step_queue _ _ _ _ E) as [msgs Hq].
  assert (Hmv : taken l s = [] → Exists flagged w ∨ Exists flagged (taken l s)).
  { intros Ht. left. apply Hold. rewrite Ht in Hq. eapply embed_move; [|exact Hq|done].
    eapply step_move; [done..|]. by exists l. }
  destruct l as [| | |i|i]; [by apply Hmv..| |by apply Hmv].
  simpl in E, Hmv |- *. destruct (workers s !! i) as [[]|] eqn:Hi; try done.
  destruct (ch_recv (to_workers s)) as [[m tw]|] eqn:Er; [|done]. apply ch_recv_Some in Er.
  pose proof (inv_requests _ _ _ Hinv) as Hreq. rewrite Er in Hreq. apply Forall_cons in Hreq as [Hm _].
  destruct (worker_handle (task_prover task i) m) as [out next] eqn:Eh. injection E as <-.
  destruct (worker_handle_ok _ _ _ _ _ Hsize Hcount Hm Eh) as [r Hr _ _|e Hf _|p _];
    [left; apply Hold|right; by constructor|left; apply Hold]; (destruct Hseen as [Hem|Hn]; [left|by right]);
    (eapply embed_set_worker; [exact Hi| |by left|exact Hem]); rewrite worker_pending_sending.
  - rewrite !has_embed_cons. intros [He|[He|[e He%elem_of_nil]]]; [|done..].
    by destruct r as [| |[] ? ?|[] ? ?| | |].
  - by intros [e He%elem_of_nil].
Qed.

Lemma embed_run ls w s s' :
  sys_inv task recs s → (embed_seen s → Exists flagged w) →
  exec (task_prover task) ls s = Some s' →
  embed_seen s' → Exists flagged (w ++ work_of (task_prover task) ls s).
Proof.
  revert w s; induction ls as [|l ls IH]; intros w s Hinv Hold E; simpl in *.
  - injection E as <-. by rewrite app_nil_r.
  - destruct (exec_step (task_prover task) l s) as [s1|] eqn:El; [|done]. rewrite app_assoc.
    eapply IH; [|intros Hseen; by eapply embed_step|exact E].
    eapply move_inv; [done|]. eapply step_move; [done..|]. by exists l.
Qed.

(** A request flagged complete that covers all the chunks. *)
Lemma flagged_covers m :
  request_ok (chunk_count recs) m → flag_covers recs m → flagged m → covers_all m.
Proof.
  intros Hok Hc (req & t & ip & -> & Hflag). destruct req as [flag k ps]. simpl in *. subst flag.
  destruct Hok as (a & b & -> & _). by exists a, b.
Qed.

(** All the work of a run in which one was taken. *)
Lemma covering_work w q s a :
  work_inv (w ++ q) s a → Exists covers_all w →
  converted w = Z.of_nat <$> seq 0 (length recs) ∧ combine_count w = (length recs - 1)%nat.
Proof.
  intros Hw (m & Hin & Hm)%Exists_exists. apply list_elem_of_split in Hin as (pre & post & ->).
  destruct (work_last _ _ _ Hw pre m (post ++ q)) as (Hnil & -> & Hc); [by rewrite <- app_assoc|done|].
  apply app_eq_nil in Hnil as [-> ->]. rewrite app_nil_r in *. split; [by apply Hw|done].
Qed.

(** C15: each piece of work is done once.  Whatever the schedule, the number of
    workers and the prover, the requests the workers have taken are the
    conversions of chunks [0 .. k-1], each once and in order, and at most
    [N - 1] combines: at most [2 N - 1] calls of a prover for [N] records.
    While the gateway runs, the combines it has handed out are exactly the
    merges of its tree: with the nodes left they make up the chunks it has
    handed out.  And when the gateway is done, by a delivery or a panic of the
    on-chain phase, and no request was flagged complete too early, the workers
    have taken all the [N] conversions and exactly [N - 1] combines. *)
Theorem work_done_once n ls s :
  exec (task_prover task) ls (sys_init recs n) = Some s →
  let work := work_of (task_prover task) ls (sys_init (C := C) recs n) in
  (∃ k, (k ≤ length recs)%nat ∧ converted work = Z.of_nat <$> seq 0 k) ∧
  (combine_count work ≤ length recs - 1)%nat ∧ (length work ≤ 2 * length recs - 1)%nat ∧
  (status s = GwRunning →
   let issued := work ++ ch_contents (to_workers s) in
   Z.of_nat (combine_count issued) + ProofTree_len (proof_tree (handler s)) =
     Z.of_nat (length (converted issued))) ∧
  (status s ≠ GwRunning → Forall (flag_covers recs) work →
   converted work = Z.of_nat <$> seq 0 (length recs) ∧ combine_count work = (length recs - 1)%nat).
Proof.
  intros E. destruct (work_run ls [] _ _ 0 (sys_init_inv task recs n) (work_init n) E) as [a Hw].
  pose proof (embed_run ls [] _ s (sys_init_inv task recs n)) as Hembed. cbn [app] in Hw, Hembed.
  set (work := work_of _ _ _) in *. intros work'. subst work'.
  pose proof Hw as [Ha Hreq Hcv Hcb Hm _]. apply Forall_app in Hreq as [Hreq _].
  rewrite combine_count_app in Hcb. rewrite converted_app in Hcv. symmetry in Hcv.
  destruct (seq_prefix _ _ _ Hcv) as (k & Hk & Hwk).
  assert (Hlen : length (converted work) = k) by (by rewrite Hwk, length_fmap, length_seq).
  pose proof (work_length _ _ Hreq) as Hl. split_and!; [exists k; split; [lia|done]|lia|lia| |].
  - intros Hs issued. pose proof (inv_status _ _ _ (reachable_inv task recs Hsize Hcount n s (exec_rtc _ _ _ _ E)))
      as Hst. rewrite Hs in Hst. destruct Hst as (m & lost & Hrun).
    destruct (Hm Hs _ _ Hrun) as [_ Hsum]. unfold issued. rewrite Hsum.
    by rewrite (work_converted _ _ _ Hw), length_fmap, length_seq.
  - intros Hs Hflags. eapply covering_work; [exact Hw|].
    assert (Hex : Exists flagged work).
    { apply Hembed; [|exact E|by right]. intros [[He|(w & [-> _]%elem_of_replicate & He)]|Hn]; [| |done].
      - simpl in He. rewrite ch_new_contents in He. by destruct He as [e He%elem_of_nil].
      - by destruct He as [e [?|?%elem_of_nil]%elem_of_cons]. }
    apply Exists_exists in Hex as (m & Hin & Hf). apply Exists_exists. exists m. split; [done|].
    rewrite Forall_forall in Hreq, Hflags. by apply flagged_covers; [apply Hreq|apply Hflags|].
Qed.
End WorkInv.

(** *** Witness *)

#[local] Existing Instance release_build.

Lemma work_done_once_witness :
  let work := work_of (task_prover ThreeChunks.task) ThreeChunks.complete_run
    (sys_init (C := list) ThreeChunks.records 1) in
  converted work = [0; 1; 2] ∧ combine_count work = 2%nat.
Proof.
  refine (proj2 (proj2 (proj2 (proj2 (work_done_once ThreeChunks.task ThreeChunks.records (le_n _)
    three_chunk_count 1 ThreeChunks.complete_run ThreeChunks.final_state ThreeChunks.complete_run_exec)))) _ _).
  - vm_compute. discriminate.
  - vm_compute. repeat constructor.
Defined.
