(* ===== verification/Shutdown.v ===== *)
(** * The end of a task: joins and disconnected threads

    Once the completion signal has arrived, [prove_task] waits a while for
    the worker threads, then for the gateway's, and returns.  Returning (or
    unwinding) drops the two channels, and the threads that are left run on
    among themselves: the closed-channel arms of the gateway and of the
    workers end them.  [Pipeline.v] stops at the completion; this file models
    what follows. *)

From S2P Require Import Prelude BTreeMap ProofTree PicoVM Messages GatewayHandler Task Provers.
From S2P Require Import Worker Channel Onchain Emulator Gateway Pipeline PipelineInv PipelineLive.
From S2P Require Import PipelineProgress RustStr.

(** ** Who ends *)

Section Ends.
Context `{PicoVM, RustBuild, !GnarkEnv, AlloyU256, FifoChan C}.

(** The thread of a worker is over: [join_all] counts it, panicked or not. *)
Definition worker_ended (w : worker_state) : bool :=
  match w with WExited | WPanicked _ => true | _ => false end.

(** [join_all(provers)] can return. *)
Definition provers_joined (s : sys (C := C)) : bool := forallb worker_ended (workers s).

(** [gateway_handle] can be joined. *)
Definition gateway_joined (s : sys (C := C)) : bool := negb (is_running (status s)).

(** A worker on its way out: it has an embed proof. *)
Definition finisher (w : worker_state) : nat :=
  match w with WExited | WSending _ NextBreak => 1 | _ => 0 end.

(** A request that makes one. *)
Definition final_request (m : GatewayMsg) : nat :=
  match m with
  | Combine (CombineMsg_Request (mkCombineRequest true _ _)) _ _ => 1
  | _ => 0
  end.

Definition finishers (s : sys (C := C)) : nat :=
  (total finisher (workers s) + total final_request (ch_contents (to_workers s)))%nat.

Lemma finisher_sending ms next :
  finisher (worker_sending ms next) = match next with NextBreak => 1%nat | _ => 0%nat end.
Proof. by destruct ms, next. Qed.

Lemma total_insert {A} (f : A → nat) (l : list A) i x y :
  l !! i = Some x → (total f (<[i := y]> l) + f x = total f l + f y)%nat.
Proof.
  intros Hi. destruct (list_insert_split _ _ _ y Hi) as (l1 & l2 & -> & ->).
  rewrite !total_app, !total_cons. lia.
Qed.

Lemma total_lookup {A} (f : A → nat) (l : list A) i x : l !! i = Some x → (f x ≤ total f l)%nat.
Proof.
  intros Hi. rewrite <- (take_drop_middle _ _ _ Hi), total_app, total_cons. lia.
Qed.

Lemma finisher_init n : total finisher (replicate n worker_init) = 0%nat.
Proof. by induction n as [|n IH]; [|exact IH]. Qed.

Lemma finisher_gone (ws : list worker_state) : (total finisher ws ≤ gone_count ws)%nat.
Proof.
  induction ws as [|w ws IH]; [done|]. rewrite total_cons. unfold gone_count in *. simpl.
  destruct w as [|ms []| |]; simpl; lia.
Qed.

Lemma dead_gone (ws : list worker_state) p : WPanicked p ∈ ws → (1 ≤ gone_count ws)%nat.
Proof.
  intros [l1 [l2 ->]]%list_elem_of_split. unfold gone_count. rewrite map_app, list_sum_app. simpl. lia.
Qed.

Lemma final_flight n (l : list GatewayMsg) :
  Forall (request_ok n) l → (total final_request l ≤ length (tickets_of l))%nat.
Proof.
  induction 1 as [|m l Hm _ IH]; [done|]. rewrite total_cons, tickets_of_cons, length_app.
  rewrite (msg_ticket_request _ _ Hm). destruct m as [| |[]|[[[] k ps]|] ? ?| | |]; simpl; lia.
Qed.
End Ends.

Section OneFinisher.
Context `{PicoVM, RustBuild, !GnarkEnv, AlloyU256, FifoChan C}.
Context (task : ProvingTask) (recs : list EmulationRecord).

(** The whole execution is out for one ticket. *)
Definition one_ticket (s : sys (C := C)) : Prop :=
  length (tickets (tree (proof_tree (handler s)))) = 1%nat ∧
  ∃ k, (k, 0, chunk_count recs) ∈ tickets (tree (proof_tree (handler s))).

(** At most one final phase is under way, on the ticket of the whole. *)
Definition one_finisher (s : sys (C := C)) : Prop :=
  (finishers s ≤ 1)%nat ∧
  (status s = GwRunning → finishers s = 0%nat ∨ one_ticket s).

Lemma tree_len_tickets (t : ProofTree MetaProof) : (length (tickets (tree t)) ≤ Z.to_nat (ProofTree_len t))%nat.
Proof.
  unfold ProofTree_len, bt_len. rewrite Nat2Z.id. destruct t as [m]. cbn [tree].
  induction m as [|e m IH]; [done|]. rewrite tickets_cons, length_app. cbn [length].
  assert (length (node_ticket e) ≤ 1)%nat; [|lia].
  unfold node_ticket. repeat case_match; simpl; lia.
Qed.

Lemma full_ticket_alone (t : ProofTree MetaProof) k hi :
  tree_wf t hi → (k, 0, hi) ∈ tickets (tree t) → length (tickets (tree t)) = 1%nat.
Proof.
  intros Hwf Hin. destruct (ticket_covers_all _ _ _ _ _ Hwf Hin) as [[_ Hlen] _].
  pose proof (tree_len_tickets t) as Hle. rewrite (Hlen (conj eq_refl eq_refl)) in Hle.
  destruct (tickets (tree t)) as [|x l]; [by apply elem_of_nil in Hin|simpl in *; lia].
Qed.

Local Abbreviation inv := (sys_inv (C := C) task recs).

Hypothesis Hsize : (2 ≤ COMBINE_SIZE)%nat.
Hypothesis Hcount : chunk_count recs ≤ usize_max.

(** While one is, nothing else is in flight. *)
Lemma finisher_flight s :
  inv s → balance s → status s = GwRunning → one_ticket s → finishers s = 1%nat →
  (length (tickets_of (ch_contents (to_gateway s))) = 0)%nat.
Proof.
  intros Hinv Hb Hs [Hlen _] Hf. specialize (Hb Hs). rewrite Hlen, (flight_length Hsize) in Hb.
  unfold finishers in Hf. pose proof (finisher_gone (workers s)).
  pose proof (final_flight _ _ (inv_requests _ _ _ Hinv)). lia.
Qed.

Lemma worker_recv_finishers s i m tw out next :
  workers s !! i = Some WRecv → ch_contents (to_workers s) = m :: ch_contents tw →
  handled (task_prover task i) m out next →
  (finishers (set_worker s i (worker_sending out next) tw (to_gateway s)) ≤ finishers s)%nat.
Proof.
  intros Hi Hx Hd. unfold finishers. simpl. rewrite Hx, total_cons.
  pose proof (total_insert finisher _ _ _ (worker_sending out next) Hi) as Hw.
  rewrite finisher_sending in Hw. simpl in Hw.
  destruct Hd as [r _ _ _|e (req & t & ip & -> & Hflag) _|p _]; simpl in *; [lia| |lia].
  destruct req as [flag k ps]. simpl in Hflag. subst flag. lia.
Qed.

Lemma worker_send_finishers s i m ms next :
  workers s !! i = Some (WSending (m :: ms) next) →
  finishers (set_worker s i (worker_sending ms next) (to_workers s) (ch_send (to_gateway s) m)) =
    finishers s.
Proof.
  intros Hi. unfold finishers. simpl.
  pose proof (total_insert finisher _ _ _ (worker_sending ms next) Hi) as Hw.
  rewrite finisher_sending in Hw. simpl in Hw. destruct next; simpl in *; lia.
Qed.

(** The gateway hands out a combine. *)
Lemma reply_one_finisher s m lost x tg k p t' o rest :
  inv s → balance s → one_finisher s → status s = GwRunning → running_inv recs s m lost →
  ch_contents (to_gateway s) = x :: ch_contents tg →
  msg_ticket x = [(k, start_chunk p, end_chunk p + 1)] →
  tree_wf t' (chunks_inited recs m) →
  set_proof_post (proof_tree (handler s)) k (start_chunk p) (end_chunk p + 1) p t' o rest →
  Forall (flag_covers recs) (combine_requests k (chunks_inited recs m) o) →
  one_finisher (gateway_to s (emu_chan s) tg (with_tree (handler s) t')
    (combine_requests k (chunks_inited recs m) o)).
Proof.
  intros Hinv Hb [Hle Hone] Hs Hrun Hx Hxt Hwf Hpost Hflag. specialize (Hone Hs).
  assert (Hzero : finishers s = 0%nat).
  { destruct Hone as [?|Ht]; [done|]. destruct (finishers s) as [|[|f]] eqn:Ef; [done| |lia].
    pose proof (finisher_flight s Hinv Hb Hs Ht Ef) as Hfl.
    rewrite Hx, tickets_of_cons, Hxt in Hfl. simpl in Hfl. lia. }
  unfold finishers in Hzero. unfold one_finisher, finishers, one_ticket. sys_simpl.
  rewrite send_all_contents, total_app.
  destruct o as [ps|]; [|simpl; split; [lia|left; lia]].
  destruct Hpost as (a & b & q & -> & _ & _ & _ & _ & _ & Htk & _). simpl in *.
  case_bool_decide as Hall; simpl; [|split; [lia|left; lia]].
  apply Forall_cons in Hflag as [[Ha Hb'] _]. split; [lia|]. intros _. right.
  assert (Hin : (k, 0, chunk_count recs) ∈ tickets (tree t')).
  { rewrite Htk, Ha, Hb'. by left. }
  split; [|by exists k]. destruct Hall as [_ Hhi]. rewrite Hb' in Hhi. rewrite <- Hhi in Hwf.
  by eapply full_ticket_alone.
Qed.

Lemma move_one_finisher s s' :
  inv s → balance s → one_finisher s → timely recs s' → move task recs s s' →
  one_finisher s'.
Proof.
  intros Hinv Hb Hone Ht Hmv. destruct Hmv as
    [m ms Hp|k lost r ec Hs Hrun Hr Hx|lost ec Hs Hrun Hx|m lost tg Hs Hrun He Hx
    |m lost x tg k p t' o rest Hs Hrun He Hx Hr Ha Hxt Hwf' Htk' Hpost|m lost e tg bs Hs Hrun Hx Hd
    |m lost e tg p Hs Hrun Hx Hv Hp|i m tw out next Hi Hx Hm Eh Hh|i m ms next Hi Hok].
  - exact Hone.
  - destruct Hone as [Hle Hone]. specialize (Hone Hs).
    unfold one_finisher, finishers. sys_simpl. rewrite send_all_contents, total_app. simpl.
    destruct Hone as [Hz|[_ [k' Hin]]]; [unfold finishers in Hz; split; [lia|left; lia]|].
    exfalso. destruct (chunks_inited_next recs k) as [_ Heq]; [by eapply lookup_lt_Some|].
    destruct (ticket_covers_all _ _ _ _ _ (run_tree_wf _ _ _ _ Hrun) Hin) as (_ & _ & _ & Hhi).
    apply lookup_lt_Some in Hr. unfold chunk_count in Hhi. lia.
  - destruct Hone as [Hle Hone]. split; [exact Hle|]. intros _. exact (Hone Hs).
  - destruct Hone as [Hle Hone]. split; [exact Hle|]. intros _. exact (Hone Hs).
  - eapply reply_one_finisher; try done. unfold timely in Ht. cbn [to_workers gateway_to] in Ht.
    rewrite send_all_contents in Ht. by apply Forall_app in Ht as [_ ?].
  - split; [apply Hone|done].
  - split; [apply Hone|done].
  - destruct Hone as [Hle Hone].
    pose proof (worker_recv_finishers s i m tw out next Hi Hx Hh). split; [lia|].
    intros Hs. destruct (Hone Hs); [left; lia|by right].
  - destruct Hone as [Hle Hone]. unfold one_finisher.
    rewrite (worker_send_finishers s i m ms next Hi). by split.
Qed.

Lemma timely_one_finisher n s :
  rtc (timely_step task recs) (sys_init recs n) s → one_finisher s.
Proof.
  intros Hr. cut (inv s ∧ balance s ∧ one_finisher s); [tauto|].
  apply (rtc_invariant (timely_step task recs) (λ s, inv s ∧ balance s ∧ one_finisher s)
    (sys_init recs n)); [| |done].
  - intros a b (Ha & Hba & Hoa) [Hab Htb]. pose proof (step_move _ _ Hsize Hcount _ _ Ha Hab) as Hmv.
    split; [by eapply move_inv|]. split; [by eapply move_balance|by eapply move_one_finisher].
  - destruct (reachable_balance task recs Hsize Hcount n (sys_init recs n)) as [Hi Hb0]; [apply rtc_refl|].
    split; [done|]. split; [done|]. unfold one_finisher, finishers. simpl.
    rewrite ch_new_contents. simpl.
    rewrite finisher_init. split; [lia|]. by left.
Qed.
(** *** Embed proofs come from finishers *)

(** As long as no worker has finished, there is no embed proof anywhere. *)
Definition embed_needs_finisher (s : sys (C := C)) : Prop :=
  total finisher (workers s) = 0%nat → embed_free s.

Lemma finisher_worker_move (s : sys (C := C)) i w w' :
  workers s !! i = Some w → (finisher w ≤ finisher w')%nat →
  total finisher (<[i := w']> (workers s)) = 0%nat →
  total finisher (workers s) = 0%nat ∧ finisher w' = 0%nat.
Proof.
  intros Hi Hle Hz. pose proof (total_insert finisher _ _ _ w' Hi).
  pose proof (total_lookup finisher _ _ _ Hi). lia.
Qed.

Lemma move_embed_needs s s' :
  move task recs s s' → embed_needs_finisher s → embed_needs_finisher s'.
Proof.
  unfold embed_needs_finisher. intros Hmv Hn.
  destruct Hmv as [m ms _|k lost r ec _ _ _ _|lost ec _ _ _|m lost tg _ _ _ Hx
    |m lost x tg k p t' o rest _ _ _ Hx _ _ _ _ _ _|m lost e tg bs _ _ Hx _
    |m lost e tg p _ _ Hx _ _|i m tw out next Hi Hx Hok Hh Hd|i m ms next Hi Hok]; sys_simpl; intros Hz.
  1-3: destruct (Hn Hz) as [Hq Hw Hp]; by split.
  1-2: destruct (Hn Hz) as [Hq Hw Hp]; rewrite Hx, has_embed_cons in Hq; split; simpl; tauto.
  1-2: destruct (Hn Hz) as [Hq Hw Hp]; rewrite Hx, has_embed_cons in Hq; destruct Hq; by left.
  - destruct (finisher_worker_move _ _ _ _ Hi (Nat.le_0_l _) Hz) as [Hz' Hf].
    pose proof (Hn Hz') as Hfree. apply embed_free_set_worker; [done|apply Hfree|].
    rewrite worker_pending_sending. rewrite finisher_sending in Hf.
    destruct Hd as [r Hr _ _|e _ _|]; [|done|by intros [e He%elem_of_nil]].
    rewrite !has_embed_cons. intros [He|[He|[e He%elem_of_nil]]]; [|done..].
    by destruct r as [| |[] ? ?|[] ? ?| | |].
  - destruct (finisher_worker_move _ _ _ (worker_sending ms next) Hi) as [Hz' _]; [|done|].
    { rewrite finisher_sending. by destruct next. }
    pose proof (Hn Hz') as Hfree. pose proof (free_workers _ Hfree _ (list_elem_of_lookup_2 _ _ _ Hi)) as Hpen.
    simpl in Hpen. rewrite has_embed_cons in Hpen. apply embed_free_set_worker; [done| |].
    + rewrite ch_send_contents, has_embed_app, has_embed_cons. pose proof (free_queue _ Hfree).
      intros [?|[?|[e He%elem_of_nil]]]; tauto.
    + rewrite worker_pending_sending. tauto.
Qed.


(** *** The completion and the workers *)

(** The prover of a worker has panicked: the thread is dead, or will be. *)
Definition dying (w : worker_state) : bool :=
  match w with WPanicked _ | WSending _ (NextPanic _) => true | _ => false end.

Lemma dying_sending ms next :
  dying (worker_sending ms next) = match next with NextPanic _ => true | _ => false end.
Proof. by destruct ms, next. Qed.

Lemma dying_besides_finishers (ws : list worker_state) w :
  w ∈ ws → dying w = true → (S (total finisher ws) ≤ gone_count ws)%nat.
Proof.
  intros [l1 [l2 ->]]%list_elem_of_split Hw. rewrite total_app, total_cons.
  pose proof (finisher_gone l1). pose proof (finisher_gone l2).
  unfold gone_count in *. rewrite map_app, list_sum_app.
  destruct w as [|ms []| |]; simpl in *; try done; lia.
Qed.

Lemma no_tickets_no_requests n (l : list GatewayMsg) :
  Forall (request_ok n) l → length (tickets_of l) = 0%nat → l = [].
Proof.
  destruct 1 as [|m l Hm _]; [done|]. rewrite tickets_of_cons, length_app, (msg_ticket_request _ _ Hm).
  simpl. lia.
Qed.

(** No worker is dying and none has anything more to receive. *)
Definition quiet (s : sys (C := C)) : Prop :=
  ch_contents (to_workers s) = [] ∧ ∀ w, w ∈ workers s → dying w = false.

(** An embed proof reaches the gateway when everything else is done. *)
Lemma embed_quiet s e tg :
  inv s → balance s → one_finisher s → embed_needs_finisher s → status s = GwRunning →
  ch_contents (to_gateway s) = Embed e :: ch_contents tg → quiet s.
Proof.
  intros Hinv Hb [Hle Hone] Hn Hs Hx.
  assert (Hf : (1 ≤ total finisher (workers s))%nat).
  { destruct (total finisher (workers s)) as [|f] eqn:Ef; [|lia].
    destruct (free_queue _ (Hn Ef)). rewrite Hx. exists e. by left. }
  destruct (Hone Hs) as [Hz|[Hlen _]]; [unfold finishers in Hz; lia|].
  specialize (Hb Hs). rewrite Hlen, (flight_length Hsize) in Hb.
  pose proof (finisher_gone (workers s)). split.
  - eapply no_tickets_no_requests; [apply (inv_requests _ _ _ Hinv)|lia].
  - intros w Hw. destruct (dying w) eqn:Ew; [|done].
    pose proof (dying_besides_finishers _ _ Hw Ew). lia.
Qed.

Lemma move_quiet s s' :
  inv s → balance s → one_finisher s → embed_needs_finisher s →
  (status s ≠ GwRunning → quiet s) → move task recs s s' → status s' ≠ GwRunning → quiet s'.
Proof.
  intros Hinv Hb Hone Hn Hq Hmv. destruct Hmv as
    [m ms Hp|k lost r ec Hs|lost ec Hs|m lost tg Hs|m lost x tg k p t' o rest Hs
    |m lost e tg bs Hs _ Hx _|m lost e tg p Hs _ Hx _ _|i m tw out next Hi Hx|i m ms next Hi Hok];
    sys_simpl; intros Hst; try done.
  - by apply Hq.
  - by destruct (embed_quiet _ _ _ Hinv Hb Hone Hn Hs Hx).
  - by destruct (embed_quiet _ _ _ Hinv Hb Hone Hn Hs Hx).
  - destruct (Hq Hst) as [Hw _]. by rewrite Hw in Hx.
  - destruct (Hq Hst) as [Hw Hd]. split; [done|]. simpl.
    intros w [j Hj]%list_elem_of_lookup.
    destruct (decide (i = j)) as [<-|Hne].
    + rewrite list_lookup_insert_eq in Hj by (by eapply lookup_lt_Some). injection Hj as <-.
      pose proof (Hd _ (list_elem_of_lookup_2 _ _ _ Hi)) as Hi'. rewrite dying_sending. by destruct next.
    + rewrite list_lookup_insert_ne in Hj by done. by apply (Hd w), (list_elem_of_lookup_2 _ j).
Qed.

Lemma timely_quiet n s :
  rtc (timely_step task recs) (sys_init recs n) s →
  inv s ∧ length (workers s) = n ∧ (status s ≠ GwRunning → quiet s).
Proof.
  intros Hr.
  set (I s := inv s ∧ balance s ∧ one_finisher s ∧ embed_needs_finisher s ∧
    length (workers s) = n ∧ (status s ≠ GwRunning → quiet s)).
  cut (I s); [unfold I; tauto|].
  apply (rtc_invariant (timely_step task recs) I (sys_init recs n)); [| |done].
  - intros a b (Ha & Hba & Hoa & Hna & Hla & Hqa) [Hab Htb].
    pose proof (step_move _ _ Hsize Hcount _ _ Ha Hab) as Hmv.
    split; [by eapply move_inv|]. split; [by eapply move_balance|].
    split; [by eapply move_one_finisher|]. split; [by eapply move_embed_needs|].
    split; [by rewrite (move_workers_length task recs _ _ Hmv)|by eapply move_quiet].
  - destruct (reachable_balance task recs Hsize Hcount n (sys_init recs n)) as [Hi Hb0]; [apply rtc_refl|].
    pose proof (timely_one_finisher n (sys_init recs n) (rtc_refl _ _)) as Ho.
    split; [done|]. split; [done|]. split; [done|]. split; [intros _; apply embed_free_init|].
    split; [apply length_replicate|done].
Qed.
End OneFinisher.

(** ** After [prove_task]

    Its caller has the result, or is being unwound: the emulator is gone with
    its end of its channel, and the task's own handles of the two directions
    between the gateway and the workers are dropped.  An end of a direction
    lives on in the threads that hold it. *)

Section Orphans.
Context `{PicoVM, RustBuild, !GnarkEnv, AlloyU256, FifoChan C}.
Context (prover : nat → Prover).

Definition send_unwrap {A} : outcome A :=
  panic_with "called `Result::unwrap()` on an `Err` value".

(** [grpc_endpoint.send(..).unwrap()]: an error once no worker is left. *)
Definition closing_sends (s : sys (C := C)) (it : iteration) : outcome iteration :=
  match it_sends it with
  | [] => Ret it
  | _ => if provers_joined s then send_unwrap else Ret it
  end.

(** The gateway goes on with what the emulator has left it; then the closed
    channel, [Err(_) => break], is preferred to the workers' messages. *)
Definition closing_gateway (s : sys (C := C)) : option (sys (C := C)) :=
  if is_running (status s) then
    match ch_recv (emu_chan s) with
    | Some (m, ec) =>
        Some (apply_iteration s ec (to_gateway s)
                (it ← on_emulator (handler s) m; closing_sends s it))
    | None =>
        Some (apply_iteration s (emu_chan s) (to_gateway s)
                (Ret (mkIteration (handler s) [] None true)))
    end
  else None.

(** [while let Ok(msg)] ends when the gateway is gone and its messages are
    served. *)
Definition closing_recv (i : nat) (s : sys (C := C)) : option (sys (C := C)) :=
  match workers s !! i with
  | Some WRecv =>
      match ch_recv (to_workers s) with
      | Some (m, tw) =>
          let '(out, next) := worker_handle (prover i) m in
          Some (set_worker s i (worker_sending out next) tw (to_gateway s))
      | None =>
          if is_running (status s) then None
          else Some (set_worker s i WExited (to_workers s) (to_gateway s))
      end
  | _ => None
  end.

(** [self.endpoint.send(msg).unwrap()] unwinds when the gateway is gone. *)
Definition closing_send (i : nat) (s : sys (C := C)) : option (sys (C := C)) :=
  match workers s !! i with
  | Some (WSending (m :: ms) next) =>
      if is_running (status s) then
        Some (set_worker s i (worker_sending ms next) (to_workers s)
                (ch_send (to_gateway s) m))
      else
        Some (set_worker s i
                (WPanicked (SourcePanic "called `Result::unwrap()` on an `Err` value"))
                (to_workers s) (to_gateway s))
  | _ => None
  end.

(** A step of one of the threads that are left. *)
Definition orphan_exec (l : label) (s : sys (C := C)) : option (sys (C := C)) :=
  match l with
  | LGatewayEmulator => closing_gateway s
  | LWorkerRecv i => closing_recv i s
  | LWorkerSend i => closing_send i s
  | LEmulator | LGatewayGrpc => None
  end.

Definition orphan_step (s s' : sys (C := C)) : Prop := ∃ l, orphan_exec l s = Some s'.

(** *** Every run of the orphans is finite *)

Definition orphan_worker_cost (w : worker_state) : nat :=
  match w with WRecv => 1 | WSending ms _ => S (length ms) | _ => 0 end.

Definition orphan_cost (s : sys (C := C)) : nat :=
  ((if is_running (status s) then 1 else 0) + 5 * length (ch_contents (emu_chan s)) +
   4 * length (ch_contents (to_workers s)) + total orphan_worker_cost (workers s))%nat.

Lemma on_emulator_sends h m it : on_emulator h m = Ret it → (length (it_sends it) ≤ 1)%nat.
Proof.
  unfold on_emulator. destruct m as [| |[req|res] t ip|req t ip| | |]; try done.
  all: intros E; bind_inv E; destruct a as [h' r]; bind_inv E.
  - destruct a as [[]|]; injection E as <-; simpl; lia.
  - bind_inv E. injection E as <-. simpl. lia.
Qed.

Lemma worker_handle_sends self m out next :
  worker_handle self m = (out, next) → (length out ≤ 2)%nat.
Proof.
  unfold worker_handle, handle_combine. intros E.
  destruct m as [| |[req|res] t ip|[req|res] t ip| | |]; simpl in E; simplify_eq; simpl; try lia.
  - destruct (RiscvConvert.process _ _ _); simplify_eq/=; lia.
  - destruct (CombineP.process _ _) as [res|]; simplify_eq/=; [|lia].
    destruct (combine_req_flag_complete req); simplify_eq/=; [|lia].
    destruct (final_phase self res) as [[e|]|]; simplify_eq/=; lia.
Qed.

Lemma orphan_sending_cost ms next : (orphan_worker_cost (worker_sending ms next) ≤ S (length ms))%nat.
Proof. by destruct ms, next; simpl; try lia. Qed.

Lemma orphan_set_worker s i w w' tw tg :
  workers s !! i = Some w →
  (orphan_cost (set_worker s i w' tw tg) + 4 * length (ch_contents (to_workers s)) + orphan_worker_cost w =
   orphan_cost s + 4 * length (ch_contents tw) + orphan_worker_cost w')%nat.
Proof.
  intros Hi. pose proof (total_insert orphan_worker_cost _ _ _ w' Hi).
  unfold orphan_cost. sys_simpl. lia.
Qed.

Lemma apply_iteration_cost s ec it :
  is_running (status s) = true → (∀ i, it = Ret i → (length (it_sends i) ≤ 1)%nat) →
  (orphan_cost (apply_iteration s ec (to_gateway s) it) + 5 * length (ch_contents (emu_chan s)) ≤
   orphan_cost s + 5 * length (ch_contents ec) + 4)%nat.
Proof.
  intros Hs Hit. unfold orphan_cost, apply_iteration. rewrite Hs. destruct it as [it|p]; sys_simpl.
  - specialize (Hit it eq_refl). rewrite send_all_contents, length_app.
    destruct (it_break it); simpl; lia.
  - simpl. lia.
Qed.

Lemma orphan_step_cost s s' : orphan_step s s' → (orphan_cost s' < orphan_cost s)%nat.
Proof.
  intros [l E]. destruct l as [| | |i|i]; simpl in E;
    unfold closing_gateway, closing_recv, closing_send in E; [done| |done| |].
  - destruct (is_running (status s)) eqn:Hs; [|done].
    destruct (ch_recv (emu_chan s)) as [[m ec]|] eqn:Er; injection E as <-.
    + apply ch_recv_Some in Er.
      assert (Hit : ∀ it, (it ← on_emulator (handler s) m; closing_sends s it) = Ret it →
        (length (it_sends it) ≤ 1)%nat).
      { intros it E. bind_inv E. unfold closing_sends in E. apply on_emulator_sends in E0.
        destruct (it_sends a) eqn:Ea; [|destruct (provers_joined s)]; simplify_eq/=;
          rewrite Ea in *; simpl in *; lia. }
      pose proof (apply_iteration_cost s ec _ Hs Hit) as Hc. rewrite Er in Hc. simpl in Hc. lia.
    + unfold orphan_cost. rewrite Hs. simpl. lia.
  - destruct (workers s !! i) as [[| | |]|] eqn:Hi; try done.
    destruct (ch_recv (to_workers s)) as [[m tw]|] eqn:Er.
    + apply ch_recv_Some in Er. destruct (worker_handle (prover i) m) as [out next] eqn:Eh.
      injection E as <-. apply worker_handle_sends in Eh.
      pose proof (orphan_set_worker s i _ (worker_sending out next) tw (to_gateway s) Hi) as Hc.
      pose proof (orphan_sending_cost out next). rewrite Er in Hc. simpl in Hc. lia.
    + destruct (is_running (status s)); [done|]. injection E as <-.
      pose proof (orphan_set_worker s i _ WExited (to_workers s) (to_gateway s) Hi) as Hc.
      simpl in Hc. lia.
  - destruct (workers s !! i) as [[|[|m ms] next| |]|] eqn:Hi; try done.
    destruct (is_running (status s)); injection E as <-.
    + pose proof (orphan_set_worker s i _ (worker_sending ms next) (to_workers s)
        (ch_send (to_gateway s) m) Hi) as Hc.
      pose proof (orphan_sending_cost ms next). simpl in Hc. lia.
    + pose proof (orphan_set_worker s i _ (WPanicked (SourcePanic
        "called `Result::unwrap()` on an `Err` value")) (to_workers s) (to_gateway s) Hi) as Hc.
      simpl in Hc. lia.
Qed.
End Orphans.

(** ** More than one worker is never joined *)

Section Joins.
Context `{PicoVM, RustBuild, !GnarkEnv, AlloyU256, FifoChan C}.
Context (task : ProvingTask) (recs : list EmulationRecord).
Hypothesis Hsize : (2 ≤ COMBINE_SIZE)%nat.
Hypothesis Hcount : chunk_count recs ≤ usize_max.

Lemma joined_finishers (s : sys (C := C)) :
  provers_joined s = true → (∀ p, WPanicked p ∉ workers s) →
  total finisher (workers s) = length (workers s).
Proof.
  unfold provers_joined. induction (workers s) as [|w ws IH]; [done|].
  rewrite total_cons. cbn [forallb length]. rewrite andb_true_iff. intros [Hw Hws] Hp.
  rewrite IH by (done || (intros p Hin; apply (Hp p); by right)).
  destruct w as [| | |p]; [done|done|done|]. by destruct (Hp p); left.
Qed.

(** C26: the provers of a task on two or more workers are never joined.
    Whatever the prover does, its panics included, and along every run
    without a premature final combine: at most one worker ever leaves its
    loop by itself; as long as no worker has died of a panic, the threads of
    the workers have not all ended; and once the completion channel is
    resolved, which is when [prove_task] calls [join_all(provers)], no
    worker has died and one of them has not ended.  The gateway answers the
    [Exit] of the finishing worker by the completion signal only and sends
    no [Exit] to the others, which stay in [recv] (their channel being kept
    open by [prove_task] itself): the join always waits for its whole
    timeout. *)
Theorem provers_never_joined n s :
  (2 ≤ n)%nat → rtc (timely_step task recs) (sys_init recs n) s →
  (finishers s ≤ 1)%nat ∧
  ((∀ p, WPanicked p ∉ workers s) → provers_joined s = false) ∧
  (completion s ≠ OnePending →
     (∀ p, WPanicked p ∉ workers s) ∧ provers_joined s = false).
Proof.
  intros Hn Hr. destruct (timely_one_finisher task recs Hsize Hcount n s Hr) as [Hone _].
  destruct (timely_quiet task recs Hsize Hcount n s Hr) as (Hinv & Hlen & Hq).
  assert (Hopen : (∀ p, WPanicked p ∉ workers s) → provers_joined s = false).
  { intros Hp. destruct (provers_joined s) eqn:Ej; [|done].
    pose proof (joined_finishers s Ej Hp). unfold finishers in Hone. lia. }
  split; [done|]. split; [done|]. intros Hc.
  cut (∀ p, WPanicked p ∉ workers s); [by auto|]. cut (status s ≠ GwRunning).
  { intros Hs p Hp. by pose proof (proj2 (Hq Hs) _ Hp). }
  intros Hs.
  pose proof (inv_status _ _ _ Hinv) as Hst. rewrite Hs in Hst.
  destruct Hst as (m & lost & Hrun). by destruct Hc; apply (run_pending _ _ _ _ Hrun).
Qed.
End Joins.

(** ** Every thread ends once [prove_task] is gone *)

Section Ending.
Context `{PicoVM, RustBuild, !GnarkEnv, AlloyU256, FifoChan C}.
Context (prover : nat → Prover).

(** A worker that sends has something to send. *)
Definition sends_something (w : worker_state) : Prop :=
  match w with WSending [] _ => False | _ => True end.

Lemma worker_sending_something ms next : sends_something (worker_sending ms next).
Proof. by destruct ms, next. Qed.

Lemma set_worker_something s i w tw tg :
  Forall sends_something (workers s) → sends_something w →
  Forall sends_something (workers (set_worker (C := C) s i w tw tg)).
Proof. intros Hs Hw. by apply Forall_insert. Qed.

Lemma apply_iteration_workers (s : sys (C := C)) ec tg it : workers (apply_iteration s ec tg it) = workers s.
Proof. by destruct it. Qed.

Lemma step_something (s s' : sys (C := C)) :
  Forall sends_something (workers s) → step prover s s' → Forall sends_something (workers s').
Proof.
  intros Hs [l E]. pose proof worker_sending_something as Hw.
  destruct l as [| | |i|i]; simpl in E; repeat case_match; simplify_eq; simpl;
    rewrite ?apply_iteration_workers; eauto using set_worker_something.
  all: by apply Forall_insert.
Qed.

Lemma orphan_something (s s' : sys (C := C)) :
  Forall sends_something (workers s) → orphan_step prover s s' → Forall sends_something (workers s').
Proof.
  intros Hs [l E]. pose proof worker_sending_something as Hw.
  destruct l as [| | |i|i]; simpl in E;
    unfold closing_gateway, closing_recv, closing_send in E; repeat case_match; simplify_eq; simpl;
    rewrite ?apply_iteration_workers; eauto using set_worker_something.
  all: by apply Forall_insert.
Qed.

Lemma orphans_stuck (s : sys (C := C)) :
  Forall sends_something (workers s) → (∀ s', ¬ orphan_step prover s s') →
  gateway_joined s = true ∧ provers_joined s = true.
Proof.
  intros Hs Hst.
  assert (Hg : is_running (status s) = false).
  { destruct (is_running (status s)) eqn:Hr; [|done]. exfalso.
    destruct (ch_recv (emu_chan s)) as [[m ec]|] eqn:Er;
      (eapply Hst; exists LGatewayEmulator; simpl; unfold closing_gateway; rewrite Hr, Er; reflexivity). }
  split; [unfold gateway_joined; by rewrite Hg|].
  apply forallb_forall. intros w [i Hi]%list_elem_of_In%list_elem_of_lookup.
  pose proof (proj1 (Forall_lookup _ _) Hs i w Hi) as Hw.
  destruct w as [|[|m ms] next| |p]; try done; exfalso.
  - destruct (ch_recv (to_workers s)) as [[m tw]|] eqn:Er.
    + destruct (worker_handle (prover i) m) as [out next] eqn:Eh.
      eapply Hst. exists (LWorkerRecv i). simpl. unfold closing_recv. rewrite Hi, Er, Eh. reflexivity.
    + eapply Hst. exists (LWorkerRecv i). simpl. unfold closing_recv. rewrite Hi, Er, Hg. reflexivity.
  - eapply Hst. exists (LWorkerSend i). simpl. unfold closing_send. rewrite Hi, Hg. reflexivity.
Qed.

(** C17: no thread outlives its task for ever.  Wherever [prove_task] returns
    or is unwound, however many workers it had, the threads it leaves behind
    take at most [orphan_cost] further steps; and when none of them can move
    any more the gateway and every worker have ended. *)
Theorem threads_end recs n s :
  rtc (step prover) (sys_init recs n) s →
  (∀ k s', nsteps (orphan_step prover) k s s' → (k ≤ orphan_cost s)%nat) ∧
  (∀ s', rtc (orphan_step prover) s s' → (∀ s'', ¬ orphan_step prover s' s'') →
     gateway_joined s' = true ∧ provers_joined s' = true).
Proof.
  intros Hr. split.
  - intros k s' Hk. cut (k + orphan_cost s' ≤ orphan_cost s)%nat; [lia|].
    clear Hr. induction Hk as [s|k s s1 s' Hs _ IH]; [lia|].
    pose proof (orphan_step_cost prover _ _ Hs). lia.
  - intros s' Hs' Hst. apply orphans_stuck; [|done].
    apply (rtc_invariant (orphan_step prover) (λ s, Forall sends_something (workers s)) s);
      [exact orphan_something| |done].
    apply (rtc_invariant (step prover) (λ s, Forall sends_something (workers s)) (sys_init recs n));
      [exact step_something|by apply Forall_replicate|done].
Qed.
End Ending.

(** ** The three-chunk task on two workers *)
Module TwoWorkers.
#[local] Existing Instance release_build.

Definition task : ProvingTask := ThreeChunks.task.
Definition records : list EmulationRecord := ThreeChunks.records.
Definition prover : nat → Prover := task_prover task.
Definition init : sys (C := list) := sys_init records 2.

Definition threads : list label := ThreeChunks.threads ++ [LWorkerRecv 1; LWorkerSend 1].

Definition complete_run : list label :=
  Eval vm_compute in ThreeChunks.schedule threads 100 init.

Definition final_state : sys (C := list) :=
  Eval vm_compute in default init (exec prover complete_run init).

Lemma two_complete_rtc : rtc (step prover) init final_state.
Proof. apply (exec_rtc _ complete_run). vm_compute. reflexivity. Qed.

Lemma two_complete_timely : rtc (timely_step task records) init final_state.
Proof.
  refine (patient_rtc_timely task records symbolic_valid
    (λ c, c = seqZ 0 3) symbolic_laws _ _ 2 _ _).
  - apply le_n.
  - vm_compute. split; discriminate.
  - apply (exec_patient_rtc _ complete_run). vm_compute. reflexivity.
Qed.

(** The task is delivered; the second worker waits for another request. *)
Example second_worker_waits :
  completion final_state = OneSent (proof_bytes [1; 2; 3; 4; 5; 6; 7; 8; 9; 10]) ∧
  workers final_state = [WExited; WRecv] ∧ to_workers final_state = [].
Proof. done. Qed.

(** It leaves its loop when the gateway's end of the channel is dropped. *)
Definition ended_state : sys (C := list) :=
  Eval vm_compute in default init (orphan_exec prover (LWorkerRecv 1) final_state).

Lemma ended_step : orphan_step prover final_state ended_state.
Proof. exists (LWorkerRecv 1). vm_compute. reflexivity. Qed.

Lemma ended_stuck s : ¬ orphan_step prover ended_state s.
Proof. intros [l E]. destruct l as [| | |[|[|i]]|[|[|i]]]; discriminate E. Qed.
End TwoWorkers.

Lemma provers_never_joined_witness :
  (∀ p, WPanicked p ∉ workers TwoWorkers.final_state) ∧
  provers_joined TwoWorkers.final_state = false.
Proof.
  refine (proj2 (proj2 (provers_never_joined TwoWorkers.task TwoWorkers.records _ _ 2
    TwoWorkers.final_state _ TwoWorkers.two_complete_timely)) _).
  - apply le_n.
  - vm_compute. discriminate.
  - apply le_n.
  - discriminate.
Defined.

Lemma threads_end_witness :
  gateway_joined TwoWorkers.ended_state = true ∧ provers_joined TwoWorkers.ended_state = true.
Proof.
  refine (proj2 (threads_end TwoWorkers.prover TwoWorkers.records 2 TwoWorkers.final_state
    TwoWorkers.two_complete_rtc) TwoWorkers.ended_state _ TwoWorkers.ended_stuck).
  apply rtc_once, TwoWorkers.ended_step.
Defined.
