(* ===== verification/WorkerLoss.v ===== *)
(** * A worker that dies

    A panic of the prover library takes a worker down with the ticket it was
    serving.  Nothing reports it: the gateway keeps waiting for the answer,
    and unless a final combine is already out, none can ever be asked for. *)

From S2P Require Import Prelude BTreeMap ProofTree PicoVM Messages GatewayHandler Task Provers.
From S2P Require Import Worker Channel Onchain Emulator Gateway Pipeline PipelineInv PipelineLive.
From S2P Require Import PipelineProgress Shutdown RustStr.

Section WorkerLoss.
Context `{PicoVM, RustBuild, !GnarkEnv, AlloyU256, FifoChan C}.
Context (task : ProvingTask) (recs : list EmulationRecord).
Hypothesis Hsize : (2 ≤ COMBINE_SIZE)%nat.
Hypothesis Hcount : chunk_count recs ≤ usize_max.

Local Abbreviation inv := (sys_inv (C := C) task recs).

(** ** A lost ticket is never answered *)

(** The gateway runs, a worker is dead, and no final combine is out. *)
Record doomed (s : sys (C := C)) : Prop := {
  doomed_running : status s = GwRunning;
  doomed_dead : ∃ p, WPanicked p ∈ workers s;
  doomed_final : finishers s = 0%nat;
}.

(** A final combine would leave no room for the lost ticket. *)
Lemma doomed_not_final s m lost x tg k p t' o rest :
  inv s → balance s → doomed s → running_inv recs s m lost →
  ch_contents (to_gateway s) = x :: ch_contents tg →
  tree_wf t' (chunks_inited recs m) →
  set_proof_post (proof_tree (handler s)) k (start_chunk p) (end_chunk p + 1) p t' o rest →
  balance (gateway_to s (emu_chan s) tg (with_tree (handler s) t')
    (combine_requests k (chunks_inited recs m) o)) →
  total final_request (combine_requests k (chunks_inited recs m) o) = 0%nat.
Proof.
  intros Hinv Hb Hd Hrun Hx Hwf Hpost Hb'. destruct o as [ps|]; [|done].
  destruct Hpost as (a & b & q & -> & _ & _ & _ & _ & _ & Htk & _). simpl.
  case_bool_decide as Hall; [exfalso|done]. destruct Hall as [Ha Hbd].
  assert (Hin : (k, 0, chunks_inited recs m) ∈ tickets (tree t')).
  { rewrite Htk, Ha, Hbd. by left. }
  pose proof (full_ticket_alone _ _ _ Hwf Hin) as Hone.
  specialize (Hb' eq_refl). rewrite (flight_length Hsize) in Hb'. sys_simpl.
  revert Hb'. sys_simpl. rewrite send_all_contents, tickets_of_app, length_app. simpl. intros Hb'.
  destruct (doomed_dead _ Hd) as [p' Hp]. pose proof (dead_gone _ _ Hp). lia.
Qed.

Lemma doomed_set_worker s i w w' tw tg :
  doomed s → workers s !! i = Some w → (∀ p, w ≠ WPanicked p) →
  finishers (set_worker s i w' tw tg) = 0%nat → doomed (set_worker s i w' tw tg).
Proof.
  intros [Hs [p Hp] _] Hi Hw Hf. split; [done| |done]. exists p. sys_simpl.
  apply list_elem_of_lookup in Hp as [j Hj]. apply list_elem_of_lookup. exists j.
  rewrite list_lookup_insert_ne; [done|]. intros ->. rewrite Hi in Hj. injection Hj as ->. by destruct (Hw p).
Qed.

Lemma move_doomed s s' :
  inv s → balance s → embed_needs_finisher s → doomed s → move task recs s s' → doomed s'.
Proof.
  intros Hinv Hb Hn Hd Hmv. pose proof (move_balance task recs Hsize _ _ Hinv Hb Hmv) as Hb'.
  pose proof Hd as [Hs Hdead Hf].
  assert (Hfree : embed_free s) by (apply Hn; unfold finishers in Hf; lia).
  destruct Hmv as [m ms _|k lost r ec _ _ _ _|lost ec _ _ _|m lost tg _ _ _ Hx
    |m lost x tg k p t' o rest _ Hrun _ Hx _ _ _ Hwf _ Hpost|m lost e tg bs _ _ Hx _
    |m lost e tg p _ _ Hx _ _|i m tw out next Hi Hx Hok Hh Hh'|i m ms next Hi Hok].
  - by split.
  - split; [done|done|]. unfold finishers in *. sys_simpl. rewrite send_all_contents, total_app. simpl. lia.
  - by split.
  - by split.
  - split; [done|done|]. pose proof (doomed_not_final _ _ _ _ _ _ _ _ _ _ Hinv Hb Hd Hrun Hx Hwf Hpost Hb').
    unfold finishers in *. sys_simpl. rewrite send_all_contents, total_app. lia.
  - destruct (free_queue _ Hfree). rewrite Hx. exists e. by left.
  - destruct (free_queue _ Hfree). rewrite Hx. exists e. by left.
  - pose proof (worker_recv_finishers task Hsize s i m tw out next Hi Hx Hh').
    eapply doomed_set_worker; [done|done|done|lia].
  - pose proof (worker_send_finishers Hsize s i m ms next Hi).
    eapply doomed_set_worker; [done|done|done|lia].
Qed.

(** C25: a dead worker hangs the task.  When a worker has died of a panic while
    the gateway runs and no combine flagged complete is out, the completion
    channel stays pending and the gateway waits, along every continuation
    and whatever the other workers do: [prove_task] returns neither a proof
    nor an error, and the panic is reported nowhere. *)
Theorem dead_worker_hangs_task n s s' p :
  rtc (step (task_prover task)) (sys_init recs n) s →
  status s = GwRunning → WPanicked p ∈ workers s → finishers s = 0%nat →
  rtc (step (task_prover task)) s s' →
  completion s' = OnePending ∧ status s' = GwRunning ∧ gateway_joined s' = false.
Proof.
  intros Hr Hs Hp Hf Hr'.
  set (I s := inv s ∧ balance s ∧ embed_needs_finisher s).
  assert (Hstep : ∀ a b, I a → step (task_prover task) a b → I b ∧ move task recs a b).
  { intros a b (Ha & Hba & Hna) Hab. pose proof (step_move _ _ Hsize Hcount _ _ Ha Hab) as Hmv.
    split; [|done]. split; [by eapply move_inv|].
    split; [by eapply move_balance|by eapply move_embed_needs]. }
  assert (HI : I s).
  { apply (rtc_invariant (step (task_prover task)) I (sys_init recs n)); [|split|done].
    - intros a b Ha Hab. by apply (Hstep a b).
    - apply (reachable_balance task recs Hsize Hcount n), rtc_refl.
    - split; [|intros _; apply embed_free_init].
      apply (reachable_balance task recs Hsize Hcount n), rtc_refl. }
  cut (I s' ∧ doomed s').
  { intros [(_ & _ & Hn) [Hs' _ Hf']]. split; [|split; [done|]].
    - apply Hn. unfold finishers in Hf'. lia.
    - unfold gateway_joined. by rewrite Hs'. }
  apply (rtc_invariant (step (task_prover task)) (λ s, I s ∧ doomed s) s); [| |done].
  - intros a b [Ha Hda] Hab. destruct (Hstep _ _ Ha Hab) as [Hb Hmv]. split; [done|].
    destruct Ha as (? & ? & ?). by eapply move_doomed.
  - split; [done|]. split; eauto.
Qed.
End WorkerLoss.

(** ** A task whose conversions panic *)
Module BadKey.
#[local] Existing Instance release_build.

(** The symbolic prover refuses a negative key. *)
Definition task : ProvingTask := mkProvingTask (mkProvingKey ThreeChunks.app_id "task") 3 tt (-1) None false.

Definition prover : nat → Prover := task_prover task.

(** The first chunk takes the only worker down. *)
Definition death_run : list label := [LEmulator; LGatewayEmulator; LWorkerSend 0; LWorkerRecv 0].

Definition dead_state : sys (C := list) :=
  Eval vm_compute in default (sys_init ThreeChunks.records 1)
    (exec prover death_run (sys_init ThreeChunks.records 1)).

Lemma death_run_rtc : rtc (step prover) (sys_init ThreeChunks.records 1) dead_state.
Proof. apply (exec_rtc _ death_run). vm_compute. reflexivity. Qed.

Example worker_died : workers dead_state = [WPanicked (ForeignPanic "invalid verifying key")].
Proof. reflexivity. Qed.

(** The rest of the run: nothing more can happen. *)
Definition rest_run : list label :=
  [LEmulator; LEmulator; LEmulator; LGatewayEmulator; LGatewayEmulator; LGatewayEmulator; LGatewayGrpc].

Definition hung_state : sys (C := list) :=
  Eval vm_compute in default dead_state (exec prover rest_run dead_state).

Lemma rest_run_rtc : rtc (step prover) dead_state hung_state.
Proof. apply (exec_rtc _ rest_run). vm_compute. reflexivity. Qed.

Example hung_stuck : stuck prover hung_state.
Proof. apply stuckb_stuck. vm_compute. reflexivity. Qed.
End BadKey.

Lemma dead_worker_hangs_task_witness : completion BadKey.hung_state = OnePending.
Proof.
  refine (proj1 (dead_worker_hangs_task BadKey.task ThreeChunks.records _ three_chunk_count 1
    BadKey.dead_state BadKey.hung_state (ForeignPanic "invalid verifying key")
    BadKey.death_run_rtc eq_refl _ eq_refl BadKey.rest_run_rtc)).
  - apply le_n.
  - left.
Defined.
