(* ===== verification/Derivation.v ===== *)
(** * How the delivered proof was made

    Functional correctness of the pipeline for any prover, without laws: every
    proof in the system is the result of converting the record of a chunk, or
    of combining two proofs of adjacent ranges, each so derived; and the embed
    proof whose on-chain proof is delivered comes from a complete combine of
    the chunks from the first one on.  [derived] is the reference: a binary
    tree of calls whose leaves are the records in order, whatever the order
    in which the workers answered. *)

From S2P Require Import Prelude BTreeMap ProofTree PicoVM Messages GatewayHandler Task Provers.
From S2P Require Import Worker Channel Onchain Emulator Gateway Pipeline PipelineInv PipelineLive.
From S2P Require Import PipelineProgress RustStr.

(** ** The reference *)

Section Derived.
Context `{PicoVM, RustBuild}.
Context (task : ProvingTask) (recs : list EmulationRecord).

(** The conversion of a chunk, by any worker of the task. *)
Definition convert_chunk (k : Z) (r : EmulationRecord) : outcome RiscvResponse :=
  RiscvConvert.process (RiscvConvert.new "" task) (mkRiscvRequest k r)
    (get_vk_root static_vk_manager).

(** [prove_two] of the combine machine the workers build. *)
Definition combine_two (a b : MetaProof) (flag_complete : bool) : foreign MetaProof :=
  prove_two (CombineMachine_new SC_default RecursionChip_all RECURSION_NUM_PVS) a b flag_complete.

(** [derived lo hi p]: [p] was made from the records of the chunks
    [lo .. hi - 1]. *)
Inductive derived : Z → Z → MetaProof → Prop :=
  | derived_convert k r p :
      0 ≤ k → recs !! Z.to_nat k = Some r →
      convert_chunk k r = Ret (mkRiscvResponse k (mkIndexedProof p k k)) →
      derived k (k + 1) p
  | derived_combine lo mid hi a b flag p :
      derived lo mid a → derived mid hi b → (flag = true → lo = 0) →
      combine_two a b flag = inl p → derived lo hi p.

(** [e] is the embed proof of a complete combine of the first [hi] chunks,
    compressed, embedded and verified by a worker. *)
Definition final_embed (hi : Z) (e : EmbedMetaProof) : Prop :=
  ∃ mid a b p k i,
    derived 0 mid a ∧ derived mid hi b ∧ combine_two a b true = inl p ∧
    final_phase (task_prover task i) (mkCombineResponse k (mkIndexedProof p 0 (hi - 1))) =
      Ret (Some e).

Lemma derived_range lo hi p : derived lo hi p → 0 ≤ lo < hi ∧ hi ≤ chunk_count recs.
Proof.
  induction 1 as [k r p Hk Hr%lookup_lt_Some _|lo mid hi a b flag p _ IHa _ IHb _ _];
    unfold chunk_count; [|unfold chunk_count in *]; lia.
Qed.
End Derived.

(** ** Every proof of a run is derived *)

Section Runs.
Context `{PicoVM, RustBuild, !GnarkEnv, AlloyU256, FifoChan C}.
Context (task : ProvingTask) (recs : list EmulationRecord).

(** In a timely run, where a flagged combine covers every chunk. *)
Context (is_timely : bool).

Definition proof_derived (p : IndexedProof MetaProof) : Prop :=
  derived task recs (start_chunk p) (end_chunk p + 1) (inner p).

Definition embed_derived (e : EmbedMetaProof) : Prop :=
  ∃ hi, final_embed task recs hi e ∧ (is_timely = true → hi = chunk_count recs).

Definition request_derived (msg : GatewayMsg) : Prop :=
  match msg with
  | Riscv (RiscvMsg_Request (mkRiscvRequest k r)) _ _ => recs !! Z.to_nat k = Some r
  | Combine (CombineMsg_Request (mkCombineRequest flag _ [a; b])) _ _ =>
      proof_derived a ∧ proof_derived b ∧ (flag = true → start_chunk a = 0)
  | _ => True
  end.

Definition reply_derived (msg : GatewayMsg) : Prop :=
  match answer_of msg, msg with
  | Some (_, p), _ => proof_derived p
  | None, Embed e => embed_derived e
  | None, _ => True
  end.

Record derived_inv (s : sys (C := C)) : Prop := {
  der_requests : Forall request_derived (ch_contents (to_workers s));
  der_workers : Forall (λ w, Forall reply_derived (worker_pending w)) (workers s);
  der_replies : Forall reply_derived (ch_contents (to_gateway s));
  der_tree : Forall proof_derived (proved (tree (proof_tree (handler s))));
  der_sent bs : completion s = OneSent bs → ∃ e, delivered task e bs ∧ embed_derived e;
}.

Lemma derived_init n : derived_inv (sys_init recs n).
Proof.
  split; simpl; rewrite ?ch_new_contents; auto; [|done].
  apply Forall_replicate. by repeat constructor.
Qed.

(** *** The gateway *)

Lemma gateway_to_derived s ec tg h msgs :
  derived_inv s → Forall request_derived msgs → Forall reply_derived (ch_contents tg) →
  Forall proof_derived (proved (tree (proof_tree h))) →
  derived_inv (gateway_to s ec tg h msgs).
Proof.
  intros [Hreq Hwk Hrep Ht Hsent] Hmsgs Htg Hh. split; simpl; auto.
  rewrite send_all_contents. by apply Forall_app.
Qed.

Lemma replies_derived_head s x tg :
  derived_inv s → ch_contents (to_gateway s) = x :: ch_contents tg →
  reply_derived x ∧ Forall reply_derived (ch_contents tg).
Proof. intros Hd Hx. pose proof (der_replies _ Hd) as Hr. rewrite Hx in Hr. by apply Forall_cons in Hr. Qed.

(** The request made from two derived proofs. *)
Lemma combine_requests_derived k hi t t' p lo e o rest :
  set_proof_post (P := MetaProof) t k lo e p t' o rest →
  proof_derived p → Forall proof_derived (proved (tree t)) →
  Forall request_derived (combine_requests k hi o) ∧ Forall proof_derived (proved (tree t')).
Proof.
  intros Hpost Hp Ht. destruct o as [ps|].
  - destruct Hpost as (a & b & q & -> & Hor & _ & _ & _ & _ & _ & Hpr & _).
    rewrite Hpr in Ht. apply Forall_cons in Ht as [Hq Ht]. split; [|done].
    constructor; [|constructor]. simpl.
    split; [|split]; [by destruct Hor as [[-> ->]|[-> ->]]..|].
    by intros [? _]%bool_decide_eq_true.
  - destruct Hpost as (_ & Hpr & _). split; [constructor|]. rewrite Hpr. by constructor.
Qed.

Lemma reply_move_derived s x ec tg hi k p t' o rest :
  derived_inv s → ch_contents (to_gateway s) = x :: ch_contents tg → answer_of x = Some (k, p) →
  set_proof_post (proof_tree (handler s)) k (start_chunk p) (end_chunk p + 1) p t' o rest →
  derived_inv (gateway_to s ec tg (with_tree (handler s) t') (combine_requests k hi o)).
Proof.
  intros Hd Hx Ha Hpost. destruct (replies_derived_head _ _ _ Hd Hx) as [Hp Htg].
  unfold reply_derived in Hp. rewrite Ha in Hp.
  destruct (combine_requests_derived k hi _ _ _ _ _ _ _ Hpost Hp (der_tree _ Hd)) as [Hreq Ht].
  by apply gateway_to_derived.
Qed.

(** *** The workers *)

Hypothesis Hsize : (2 ≤ COMBINE_SIZE)%nat.
Hypothesis Hcount : chunk_count recs ≤ usize_max.

Lemma convert_any_worker i k r :
  RiscvConvert.process (riscv_convert (task_prover task i)) (mkRiscvRequest k r)
    (vk_root (task_prover task i)) = convert_chunk task k r.
Proof. done. Qed.

(** A worker that serves a combine request answers with a derived proof, or
    with the embed proof made from it. *)
Lemma combine_serves i flag k a b t ip out next :
  request_ok (chunk_count recs) (Combine (CombineMsg_Request (mkCombineRequest flag k [a; b])) t ip) →
  request_derived (Combine (CombineMsg_Request (mkCombineRequest flag k [a; b])) t ip) →
  (is_timely = true →
   flag_covers recs (Combine (CombineMsg_Request (mkCombineRequest flag k [a; b])) t ip)) →
  handle_combine (task_prover task i) (mkCombineRequest flag k [a; b]) t ip = Ret (out, next) →
  Forall reply_derived out.
Proof.
  intros (a' & b' & [= <- <-] & Hadj & Ha & Hb) (Hda & Hdb & Hflag) Hcov E.
  unfold handle_combine in E. bind_inv E. rename a0 into res.
  rewrite CombineP.process_adjacent in E0 by (auto; lia). bind_inv E0.
  apply call_foreign_Ret in E1. rename a0 into p. injection E0 as <-.
  unfold proof_derived in Hda, Hdb. rewrite Hadj in Hda.
  assert (Hp : proof_derived (mkIndexedProof p (start_chunk a) (end_chunk b)))
    by (by eapply derived_combine).
  simpl in E. destruct flag; [|by simplify_eq; repeat constructor].
  bind_inv E. destruct a0 as [e|]; [|by simplify_eq; repeat constructor].
  simplify_eq. constructor; [|by repeat constructor]. simpl. exists (end_chunk b + 1).
  split; [|intros Ht; by destruct (Hcov Ht)].
  rewrite (Hflag eq_refl) in *. exists (start_chunk b), (inner a), (inner b), p, k, i.
  split_and!; [done..|]. by replace (end_chunk b + 1 - 1) with (end_chunk b) by lia.
Qed.

Lemma worker_serves_derived i m out next :
  request_ok (chunk_count recs) m → request_derived m → (is_timely = true → flag_covers recs m) →
  worker_handle (task_prover task i) m = (out, next) → Forall reply_derived out.
Proof.
  intros Hok Hd Hcov E. unfold worker_handle in E.
  destruct m as [| |[[k r]|?] t ip|[[flag k ps]|?] t ip| | |]; try done.
  - destruct (RiscvConvert.process _ _ _) as [res|p] eqn:Ep; simpl in E; simplify_eq; [|done].
    destruct (RiscvConvert.process_chunk _ _ _ _ Ep) as (Hk & Hs & He).
    constructor; [|by repeat constructor]. rewrite convert_any_worker in Ep.
    destruct res as [k' [p s e]]. simpl in *. subst.
    change (derived task recs k (k + 1) p). apply (derived_convert _ _ k r); [lia|done|done].
  - destruct (handle_combine _ _ _ _) as [[out' next']|p] eqn:Eh; simplify_eq; [|done].
    destruct Hok as (a & b & Hps & Hok). simpl in Hps. subst ps.
    eapply combine_serves; [|done..]. by exists a, b.
Qed.

Lemma set_worker_derived s i w' tw tg :
  derived_inv s → Forall reply_derived (worker_pending w') →
  Forall request_derived (ch_contents tw) → Forall reply_derived (ch_contents tg) →
  derived_inv (set_worker s i w' tw tg).
Proof. intros [] Hw Htw Htg. split; simpl; auto. by apply Forall_insert. Qed.

(** *** Every move *)

Lemma move_derived s s' :
  derived_inv s → (is_timely = true → timely recs s) → move task recs s s' → derived_inv s'.
Proof.
  intros Hd Ht.
  destruct 1 as [m ms Hp|k lost r ec Hs Hrun Hr Hx|lost ec Hs Hrun Hx|m lost tg Hs Hrun He Hx
    |m lost x tg k p t' o rest Hs Hrun He Hx Hrep Ha Hxt Hwf Htk Hpost|m lost e tg bs Hs Hrun Hx Hde
    |m lost e tg p Hs Hrun Hx Hv Hp|i m tw out next Hi Hx Hok Hh Hhd|i m ms next Hi Hok].
  - by destruct Hd; split.
  - destruct Hd as [Hreq Hwk Hrep Htr Hsent]. apply gateway_to_derived; [by split| |done|].
    + constructor; [|constructor]. simpl. by rewrite Nat2Z.id.
    + simpl. rewrite proved_app. simpl. by rewrite app_nil_r.
  - by apply (gateway_to_derived _ _ _ _ [] Hd); [constructor|apply Hd|apply Hd].
  - destruct (replies_derived_head _ _ _ Hd Hx) as [_ Htg].
    by apply (gateway_to_derived _ _ _ _ [] Hd); [constructor| |apply Hd].
  - by eapply reply_move_derived.
  - destruct (replies_derived_head _ _ _ Hd Hx) as [Hem Htg].
    destruct Hd as [Hreq Hwk Hrep Htr Hsent]. split; simpl; auto.
    intros bs' [= <-]. by exists e.
  - destruct (replies_derived_head _ _ _ Hd Hx) as [_ Htg].
    destruct Hd as [Hreq Hwk Hrep Htr Hsent]. by split; simpl.
  - pose proof (der_requests _ Hd) as Hreq. rewrite Hx in Hreq.
    apply Forall_cons in Hreq as [Hm Htw].
    apply set_worker_derived; auto; [|apply Hd]. rewrite worker_pending_sending.
    eapply worker_serves_derived; [done..| |done]. intros Htm. specialize (Ht Htm).
    unfold timely in Ht. rewrite Hx in Ht. by apply Forall_cons in Ht as [? _].
  - pose proof (Forall_lookup_1 _ _ _ _ (der_workers _ Hd) Hi) as Hms. simpl in Hms.
    apply Forall_cons in Hms as [Hm Hms].
    apply set_worker_derived; auto; [by rewrite worker_pending_sending|apply Hd|].
    rewrite ch_send_contents. apply Forall_app. split; [apply Hd|by constructor].
Qed.
End Runs.

(** ** What is delivered *)

Section Delivered.
Context `{PicoVM, RustBuild, !GnarkEnv, AlloyU256, FifoChan C}.
Context (task : ProvingTask) (recs : list EmulationRecord).
Hypothesis Hsize : (2 ≤ COMBINE_SIZE)%nat.
Hypothesis Hcount : chunk_count recs ≤ usize_max.

Lemma step_derived b s s' :
  sys_inv (C := C) task recs s ∧ derived_inv task recs b s →
  (b = true → timely recs s) → step (task_prover task) s s' →
  sys_inv task recs s' ∧ derived_inv task recs b s'.
Proof.
  intros [Hinv Hd] Ht Hs. pose proof (step_move task recs Hsize Hcount _ _ Hinv Hs) as Hmv.
  split; [by eapply move_inv|by eapply move_derived].
Qed.

Lemma run_derived n s :
  rtc (step (C := C) (task_prover task)) (sys_init recs n) s → derived_inv task recs false s.
Proof.
  intros Hr. cut (sys_inv task recs s ∧ derived_inv task recs false s); [tauto|]. revert Hr.
  apply (rtc_invariant _ (λ s, sys_inv task recs s ∧ derived_inv task recs false s)).
  - intros a b Ha Hab. by eapply step_derived.
  - split; [apply sys_init_inv|apply derived_init].
Qed.

Lemma timely_run_derived n s :
  rtc (timely_step (C := C) task recs) (sys_init recs n) s → derived_inv task recs true s.
Proof.
  intros Hr. cut (timely recs s ∧ sys_inv task recs s ∧ derived_inv task recs true s); [tauto|].
  revert Hr.
  apply (rtc_invariant _ (λ s, timely recs s ∧ sys_inv task recs s ∧ derived_inv task recs true s)).
  - intros a b (Hta & Ha) [Hab Htb]. split; [done|]. by eapply step_derived.
  - split; [|split; [apply sys_init_inv|apply derived_init]].
    unfold timely. simpl. rewrite ch_new_contents. constructor.
Qed.

(** What is delivered was derived. *)
Lemma delivered_derived n s bs :
  rtc (step (C := C) (task_prover task)) (sys_init recs n) s → completion s = OneSent bs →
  ∃ e hi, delivered task e bs ∧ final_embed task recs hi e ∧ 0 < hi ≤ chunk_count recs.
Proof.
  intros Hr Hc. destruct (der_sent _ _ _ _ (run_derived _ _ Hr) _ Hc) as (e & Hd & hi & Hf & _).
  exists e, hi. split; [done|]. split; [done|]. destruct Hf as (mid & a & b & p & k & i & Ha & Hb & _).
  apply derived_range in Ha, Hb. lia.
Qed.

(** So was what [prove_task] returns. *)
Lemma prove_task_derived n bs :
  task_emulates task recs None → prove_task (C := C) task n (Ret (Ok bs)) →
  ∃ e hi, delivered task e bs ∧ final_embed task recs hi e ∧ 0 < hi ≤ chunk_count recs.
Proof.
  intros Hem Hp. inversion Hp as [| | |e0 cap fuel recs' s res' Hgpu Es E Hr Hpn Hres]; subst.
  assert (recs = recs') as <-.
  { eapply task_emulates_det; [exact Hem|]. by exists e0, cap, fuel. }
  destruct (completion s) as [|bs'|] eqn:Hc; [done| |done]. injection Hres as ->.
  by eapply delivered_derived.
Qed.

(** C2: functional correctness of the pipeline, for any prover and without
    laws.  Whatever bytes are delivered, they are the on-chain outcome of an
    embed proof that a worker compressed, embedded and verified from a
    complete combine of the chunks [0 .. hi - 1], itself made by combining
    pairwise adjacent ranges down to the conversions of the records, each
    chunk used once and in order; and in a run in which no combine is flagged
    too early, [hi] is the number of chunks of the execution. *)
Theorem delivered_proof_derived n s bs :
  completion s = OneSent bs →
  (rtc (step (C := C) (task_prover task)) (sys_init recs n) s →
   ∃ e hi, delivered task e bs ∧ final_embed task recs hi e ∧ 0 < hi ≤ chunk_count recs) ∧
  (rtc (timely_step (C := C) task recs) (sys_init recs n) s →
   ∃ e, delivered task e bs ∧ final_embed task recs (chunk_count recs) e).
Proof.
  intros Hc. split; intros Hr.
  - by eapply delivered_derived.
  - destruct (der_sent _ _ _ _ (timely_run_derived _ _ Hr) _ Hc) as (e & Hd & hi & Hf & Hhi).
    exists e. split; [done|]. by rewrite <- Hhi.
Qed.
End Delivered.

(** *** Witness: the three-chunk task *)

#[local] Existing Instance release_build.

Lemma delivered_proof_derived_witness :
  ∃ e, final_embed ThreeChunks.task ThreeChunks.records 3 e.
Proof.
  destruct (proj2 (delivered_proof_derived ThreeChunks.task ThreeChunks.records (le_n _)
    three_chunk_count 1 ThreeChunks.final_state _ eq_refl) three_timely) as (e & _ & Hf).
  exists e. exact Hf.
Defined.
