(* ===== verification/Database.v ===== *)
(** * The SQLite database (schema of [migrations/], pool of [src/src/types.rs])

    The code reaches the database through four SQL statements.  SQLite and
    [sqlx] are not part of the repository: the statements are the operations
    of an interface, and [DatabaseSpec] states what SQL and the schema (primary
    keys, the foreign key from [proofs] to [apps]) promise of them.  Any call
    may also fail, leaving the database as it was; [DatabaseLive] is the
    assumption that it only fails on a constraint.  [Schema.v] derives both
    from the migrations and the text of the statements. *)

From S2P Require Import Prelude.

(** A row of [apps] ([AppRow] of [app_manager.rs]). *)
Record AppRow : Type := mkAppRow {
  row_app_id : string;
  row_program : bytes;
  row_pk : bytes;
  row_vk : bytes;
  row_info : option string;
}.

Class Database (D : Type) : Type := {
  (* SELECT app_id, program, pk, vk, info FROM apps WHERE app_id = ? *)
  select_app : D → string → result (option AppRow) string;
  (* INSERT INTO apps (app_id, program, pk, vk, info) VALUES (?, ?, ?, ?, ?) *)
  insert_app : D → AppRow → result D string;
  (* SELECT proof FROM proofs WHERE app_id = ? AND task_id = ?; a row's proof
     may be NULL *)
  select_proof : D → string → string → result (option (option bytes)) string;
  (* INSERT OR REPLACE INTO proofs (app_id, task_id, proof) VALUES (?, ?, ?) *)
  replace_proof : D → string → string → bytes → result D string;
  (* the two tables *)
  db_apps : D → gmap string AppRow;
  db_proofs : D → gmap (string * string) (option bytes);
}.

Class DatabaseSpec (D : Type) `{!Database D} : Prop := {
  select_app_ok d id row : select_app d id = Ok row → row = db_apps d !! id;
  insert_app_ok d row d' :
    insert_app d row = Ok d' →
    db_apps d !! row_app_id row = None ∧
    db_apps d' = <[row_app_id row := row]> (db_apps d) ∧ db_proofs d' = db_proofs d;
  select_proof_ok d a t r : select_proof d a t = Ok r → r = db_proofs d !! (a, t);
  replace_proof_ok d a t proof d' :
    replace_proof d a t proof = Ok d' →
    is_Some (db_apps d !! a) ∧
    db_apps d' = db_apps d ∧ db_proofs d' = <[(a, t) := Some proof]> (db_proofs d);
}.

(** No failure but those of the constraints. *)
Class DatabaseLive (D : Type) `{!Database D} : Prop := {
  select_app_live d id : is_ok (select_app d id) = true;
  insert_app_live d row :
    db_apps d !! row_app_id row = None → is_ok (insert_app d row) = true;
  select_proof_live d a t : is_ok (select_proof d a t) = true;
  replace_proof_live d a t proof :
    is_Some (db_apps d !! a) → is_ok (replace_proof d a t proof) = true;
}.

(** Two maps are such a database. *)
Record memory_db : Type := mkMemoryDb {
  mem_apps : gmap string AppRow;
  mem_proofs : gmap (string * string) (option bytes);
}.

#[export] Instance memory_database : Database memory_db := {|
  select_app d id := Ok (mem_apps d !! id);
  insert_app d row :=
    match mem_apps d !! row_app_id row with
    | Some _ => Err "UNIQUE constraint failed: apps.app_id"
    | None => Ok (mkMemoryDb (<[row_app_id row := row]> (mem_apps d)) (mem_proofs d))
    end;
  select_proof d a t := Ok (mem_proofs d !! (a, t));
  replace_proof d a t proof :=
    match mem_apps d !! a with
    | Some _ => Ok (mkMemoryDb (mem_apps d) (<[(a, t) := Some proof]> (mem_proofs d)))
    | None => Err "FOREIGN KEY constraint failed"
    end;
  db_apps := mem_apps;
  db_proofs := mem_proofs;
|}.

#[export] Instance memory_database_spec : DatabaseSpec memory_db.
Proof.
  split; simpl.
  - by intros d id row [= <-].
  - intros d row d'. destruct (mem_apps d !! _) eqn:E; [done|]. by intros [= <-].
  - by intros d a t r [= <-].
  - intros d a t proof d'. destruct (mem_apps d !! a) eqn:E; [|done]. by intros [= <-].
Qed.

#[export] Instance memory_database_live : DatabaseLive memory_db.
Proof.
  split; simpl; try done.
  - by intros d row ->.
  - by intros d a t proof [row ->].
Qed.

Section Database.
Context `{DatabaseSpec D}.
Implicit Types d : D.

(** What the tables say of a statement that went through. *)
Lemma insert_app_select d row d' id :
  insert_app d row = Ok d' →
  db_apps d' !! id = if decide (id = row_app_id row) then Some row else db_apps d !! id.
Proof.
  intros (_ & -> & _)%insert_app_ok. case_decide as Hid; [subst; by rewrite lookup_insert_eq|].
  by rewrite lookup_insert_ne.
Qed.

Lemma insert_app_taken d row :
  is_Some (db_apps d !! row_app_id row) → ∃ e, insert_app d row = Err e.
Proof.
  intros [r Hr]. destruct (insert_app d row) as [d'|e] eqn:E; [|by exists e].
  apply insert_app_ok in E as [E _]. congruence.
Qed.

(** The foreign key. *)
Lemma replace_proof_unregistered d a t proof :
  db_apps d !! a = None → ∃ e, replace_proof d a t proof = Err e.
Proof.
  intros Ha. destruct (replace_proof d a t proof) as [d'|e] eqn:E; [|by exists e].
  apply replace_proof_ok in E as [[r Hr] _]. congruence.
Qed.
End Database.
