(* ===== verification/Schema.v ===== *)
(** * The SQL of the repository ([migrations/] and the four statements)

    [Database.v] takes the four statements as an interface.  Here the two
    tables are the data the migrations declare, the statements are those of
    [app_manager.rs], [grpc.rs] and [proving_queue.rs] with their columns and
    bindings, and the fragment of SQL they use is executable: a row has a
    value per column, an [INSERT] fills in the defaults and checks the
    constraints, a [SELECT] filters and projects.  On tables that satisfy
    their constraints the statements do what [Database.v] asks of them. *)

From S2P Require Import Prelude Database.

(** ** Values, columns, tables *)

Inductive sql_value : Type :=
  | SqlNull
  | SqlText (s : string)
  | SqlBlob (b : bytes).

#[export] Instance sql_value_eq_dec : EqDecision sql_value.
Proof. solve_decision. Defined.

Inductive sql_type : Type := TEXT | BLOB | DATETIME.

(** The value of a column that an [INSERT] does not name. *)
Inductive sql_default : Type := DefaultNull | CurrentTimestamp.

Record sql_column : Type := mkColumn {
  column_name : string;
  column_type : sql_type;
  column_not_null : bool;
  column_default : sql_default;
}.

Inductive table_id : Type := Apps | Proofs.

Record sql_table : Type := mkTable {
  table_columns : list sql_column;
  primary_key : list string;
  (* FOREIGN KEY (columns) REFERENCES table (columns) *)
  foreign_key : option (list string * table_id * list string);
}.

(** [20250816045037_create_apps.sql] *)
Definition create_apps : sql_table := mkTable
  [mkColumn "app_id" TEXT true DefaultNull; mkColumn "program" BLOB true DefaultNull;
   mkColumn "pk" BLOB true DefaultNull; mkColumn "vk" BLOB true DefaultNull;
   mkColumn "info" TEXT false DefaultNull]
  ["app_id"] None.

(** [20250816045038_create_proofs.sql] *)
Definition create_proofs : sql_table := mkTable
  [mkColumn "app_id" TEXT true DefaultNull; mkColumn "task_id" TEXT true DefaultNull;
   mkColumn "proof" BLOB false DefaultNull; mkColumn "created_at" DATETIME false CurrentTimestamp]
  ["app_id"; "task_id"] (Some (["app_id"], Apps, ["app_id"])).

Definition table (t : table_id) : sql_table :=
  match t with Apps => create_apps | Proofs => create_proofs end.

(** A row has a value per column, in their order. *)
Abbreviation sql_row := (list sql_value).

Record tables : Type := mkTables { apps_rows : list sql_row; proofs_rows : list sql_row }.

Definition rows_of (d : tables) (t : table_id) : list sql_row :=
  match t with Apps => apps_rows d | Proofs => proofs_rows d end.

Definition with_rows (d : tables) (t : table_id) (rows : list sql_row) : tables :=
  match t with Apps => mkTables rows (proofs_rows d) | Proofs => mkTables (apps_rows d) rows end.

(** The database after the migrations. *)
Definition migrated : tables := mkTables [] [].

(** ** The fragment of SQL *)

(** The value bound to a column, if any. *)
Fixpoint bound (names : list string) (values : list sql_value) (name : string) : option sql_value :=
  match names, values with
  | n :: names, v :: values => if bool_decide (n = name) then Some v else bound names values name
  | _, _ => None
  end.

Definition column_names (t : table_id) : list string := column_name <$> table_columns (table t).

Definition project (t : table_id) (names : list string) (row : sql_row) : list sql_value :=
  (λ name, default SqlNull (bound (column_names t) row name)) <$> names.

Section Sql.
(** The clock, at the insertion that comes after the given rows. *)
Context (current_timestamp : tables → string).

Definition default_value (d : tables) (c : sql_column) : sql_value :=
  match column_default c with
  | DefaultNull => SqlNull
  | CurrentTimestamp => SqlText (current_timestamp d)
  end.

Definition inserted_row (d : tables) (t : table_id) (names : list string) (values : list sql_value) :
    sql_row :=
  (λ c, default (default_value d c) (bound names values (column_name c))) <$> table_columns (table t).

Definition not_null_ok (t : table_id) (row : sql_row) : bool :=
  forallb (λ c, negb (column_not_null c) ||
      negb (bool_decide (bound (column_names t) row (column_name c) = Some SqlNull)))
    (table_columns (table t)).

Definition same_key (t : table_id) (row row' : sql_row) : bool :=
  bool_decide (project t (primary_key (table t)) row = project t (primary_key (table t)) row').

Definition foreign_key_ok (d : tables) (t : table_id) (row : sql_row) : bool :=
  match foreign_key (table t) with
  | None => true
  | Some (names, parent, parent_names) =>
      let key := project t names row in
      existsb (λ v, bool_decide (v = SqlNull)) key ||
      existsb (λ r, bool_decide (project parent parent_names r = key)) (rows_of d parent)
  end.

(** [INSERT] and [INSERT OR REPLACE] (into a table no other refers to). *)
Inductive on_conflict : Type := ConflictAbort | ConflictReplace.

Definition sql_insert (conflict : on_conflict) (d : tables) (t : table_id)
    (names : list string) (values : list sql_value) : result tables string :=
  let row := inserted_row d t names values in
  let rows :=
    match conflict with
    | ConflictAbort => rows_of d t
    | ConflictReplace => filter (λ r, same_key t r row = false) (rows_of d t)
    end in
  if negb (not_null_ok t row) then Err "NOT NULL constraint failed"
  else if existsb (λ r, same_key t r row) rows then Err "UNIQUE constraint failed"
  else if negb (foreign_key_ok d t row) then Err "FOREIGN KEY constraint failed"
  else Ok (with_rows d t (rows ++ [row])).

(** [SELECT names FROM t WHERE column = value AND ..]; nothing equals NULL. *)
Definition sql_where (t : table_id) (conditions : list (string * sql_value)) (row : sql_row) : bool :=
  forallb (λ '(name, v), negb (bool_decide (v = SqlNull)) &&
      bool_decide (bound (column_names t) row name = Some v)) conditions.

Definition sql_select (d : tables) (t : table_id) (names : list string)
    (conditions : list (string * sql_value)) : list (list sql_value) :=
  project t names <$> filter (λ r, sql_where t conditions r = true) (rows_of d t).

(** ** The four statements *)

Definition optional_text (o : option string) : sql_value :=
  match o with Some s => SqlText s | None => SqlNull end.

(** [AppRow] from a row of the result ([FromRow]). *)
Definition decode_app (values : list sql_value) : result AppRow string :=
  match values with
  | [SqlText id; SqlBlob program; SqlBlob pk; SqlBlob vk; SqlText info] =>
      Ok (mkAppRow id program pk vk (Some info))
  | [SqlText id; SqlBlob program; SqlBlob pk; SqlBlob vk; SqlNull] =>
      Ok (mkAppRow id program pk vk None)
  | _ => Err "error occurred while decoding column"
  end.

Definition app_columns : list string := ["app_id"; "program"; "pk"; "vk"; "info"].

(** [AppManager::get_app] *)
Definition sql_select_app (d : tables) (id : string) : result (option AppRow) string :=
  match head (sql_select d Apps app_columns [("app_id", SqlText id)]) with
  | None => Ok None
  | Some values => map_ok Some (decode_app values)
  end.

Definition app_values (row : AppRow) : list sql_value :=
  [SqlText (row_app_id row); SqlBlob (row_program row); SqlBlob (row_pk row);
   SqlBlob (row_vk row); optional_text (row_info row)].

(** [AppManager::set_app] *)
Definition sql_insert_app (d : tables) (row : AppRow) : result tables string :=
  sql_insert ConflictAbort d Apps app_columns (app_values row).

Definition decode_proof (values : list sql_value) : result (option bytes) string :=
  match values with
  | [SqlBlob proof] => Ok (Some proof)
  | [SqlNull] => Ok None
  | _ => Err "error occurred while decoding column"
  end.

(** [GrpcService::get_proving_result] *)
Definition sql_select_proof (d : tables) (a t : string) : result (option (option bytes)) string :=
  match head (sql_select d Proofs ["proof"] [("app_id", SqlText a); ("task_id", SqlText t)]) with
  | None => Ok None
  | Some values => map_ok Some (decode_proof values)
  end.

(** [ProvingQueue::store_proof_in_db] *)
Definition sql_replace_proof (d : tables) (a t : string) (proof : bytes) : result tables string :=
  sql_insert ConflictReplace d Proofs ["app_id"; "task_id"; "proof"]
    [SqlText a; SqlText t; SqlBlob proof].

(** The maps the tables stand for. *)
Definition apps_map (d : tables) : gmap string AppRow :=
  list_to_map (omap (λ r, match decode_app r with
    | Ok row => Some (row_app_id row, row) | Err _ => None end) (apps_rows d)).

Definition proofs_map (d : tables) : gmap (string * string) (option bytes) :=
  list_to_map (omap (λ r, match r with
    | [SqlText a; SqlText t; SqlBlob proof; _] => Some ((a, t), Some proof)
    | [SqlText a; SqlText t; SqlNull; _] => Some ((a, t), None)
    | _ => None end) (proofs_rows d)).

#[local] Instance sql_database : Database tables := {|
  select_app := sql_select_app;
  insert_app := sql_insert_app;
  select_proof := sql_select_proof;
  replace_proof := sql_replace_proof;
  db_apps := apps_map;
  db_proofs := proofs_map;
|}.
End Sql.

(** ** Tables that satisfy their constraints *)

Record stored_proof : Type := mkStoredProof {
  sp_app_id : string;
  sp_task_id : string;
  sp_proof : option bytes;
  sp_created_at : string;
}.

Definition sp_key (p : stored_proof) : string * string := (sp_app_id p, sp_task_id p).

Definition proof_values (p : stored_proof) : sql_row :=
  [SqlText (sp_app_id p); SqlText (sp_task_id p);
   match sp_proof p with Some proof => SqlBlob proof | None => SqlNull end;
   SqlText (sp_created_at p)].

(** Typed rows, unique keys, no dangling reference. *)
Definition integrity_of (d : tables) (apps : list AppRow) (proofs : list stored_proof) : Prop :=
  d = mkTables (app_values <$> apps) (proof_values <$> proofs) ∧
  NoDup (row_app_id <$> apps) ∧ NoDup (sp_key <$> proofs) ∧
  Forall (λ p, sp_app_id p ∈ row_app_id <$> apps) proofs.

Definition integrity (d : tables) : Prop := ∃ apps proofs, integrity_of d apps proofs.

Lemma migrated_integrity : integrity migrated.
Proof. exists [], []. split; [done|]. split; [constructor|]. split; constructor. Qed.

Definition app_entry (row : AppRow) : string * AppRow := (row_app_id row, row).
Definition proof_entry (p : stored_proof) : (string * string) * option bytes := (sp_key p, sp_proof p).

Lemma decode_app_values row : decode_app (app_values row) = Ok row.
Proof. by destruct row as [id program pk vk [info|]]. Qed.

Lemma head_fmap {A B} (f : A → B) (l : list A) : head (f <$> l) = f <$> head l.
Proof. by destruct l. Qed.

(** The first row that is selected is the entry of the map. *)
Lemma head_filter_map {A V} `{Countable K} (f : A → sql_row) (key : A → K) (val : A → V) (k : K)
    (p : sql_row → bool) (l : list A) :
  (∀ x, p (f x) = true ↔ key x = k) →
  head (filter (λ r, p r = true) (f <$> l)) = f <$> find (λ x, bool_decide (key x = k)) l ∧
  (list_to_map ((λ x, (key x, val x)) <$> l) : gmap K V) !! k =
    val <$> find (λ x, bool_decide (key x = k)) l.
Proof.
  intros Hp. induction l as [|x l [IH1 IH2]]; [done|]. cbn [fmap list_fmap find list_to_map foldr].
  rewrite filter_cons. case_bool_decide as Hk.
  - rewrite decide_True by (by apply Hp). simpl. split; [done|]. by rewrite Hk, lookup_insert_eq.
  - rewrite decide_False by (by rewrite Hp). split; [done|]. simpl. by rewrite lookup_insert_ne.
Qed.

(** Adding a row with a fresh key, and replacing the row of a key. *)
Lemma list_to_map_replace `{Countable K} {V} (l : list (K * V)) k v :
  (list_to_map (filter (λ e, e.1 ≠ k) l ++ [(k, v)]) : gmap K V) = <[k := v]> (list_to_map l).
Proof.
  induction l as [|[k' v'] l IH]; [done|]. rewrite filter_cons. case_decide as Hk; simpl in *.
  - rewrite IH. by rewrite insert_insert_ne.
  - rewrite IH. assert (k' = k) as -> by (by destruct (decide (k' = k))). by rewrite insert_insert_eq.
Qed.

Section Views.
Context (current_timestamp : tables → string).
#[local] Instance clocked_database : Database tables := sql_database current_timestamp.

Implicit Types apps : list AppRow.
Implicit Types proofs : list stored_proof.

Lemma db_apps_of d apps proofs :
  integrity_of d apps proofs → db_apps d = list_to_map (app_entry <$> apps).
Proof.
  intros [-> _]. simpl. unfold apps_map. f_equal. simpl. induction apps as [|row apps IH]; [done|].
  cbn [fmap list_fmap omap list_omap]. rewrite decode_app_values. by f_equal.
Qed.

Lemma db_proofs_of d apps proofs :
  integrity_of d apps proofs → db_proofs d = list_to_map (proof_entry <$> proofs).
Proof.
  intros [-> _]. simpl. unfold proofs_map. f_equal. simpl. induction proofs as [|p proofs IH]; [done|].
  cbn [fmap list_fmap omap list_omap]. destruct p as [a t [proof|] time]; simpl; by f_equal.
Qed.

(** *** The rows the statements work on *)

Lemma project_app row : project Apps app_columns (app_values row) = app_values row.
Proof. reflexivity. Qed.

Lemma project_proof p :
  project Proofs ["proof"] (proof_values p) =
    [match sp_proof p with Some proof => SqlBlob proof | None => SqlNull end].
Proof. reflexivity. Qed.

Lemma where_app id row :
  sql_where Apps [("app_id", SqlText id)] (app_values row) = true ↔ row_app_id row = id.
Proof.
  change (sql_where _ _ _) with
    (bool_decide (Some (SqlText (row_app_id row)) = Some (SqlText id)) && true).
  rewrite andb_true_r, bool_decide_eq_true. split; [by intros [=]|by intros ->].
Qed.

Lemma where_proof a t p :
  sql_where Proofs [("app_id", SqlText a); ("task_id", SqlText t)] (proof_values p) = true ↔
  sp_key p = (a, t).
Proof.
  change (sql_where _ _ _) with
    (bool_decide (Some (SqlText (sp_app_id p)) = Some (SqlText a)) &&
     (bool_decide (Some (SqlText (sp_task_id p)) = Some (SqlText t)) && true)).
  rewrite andb_true_r, andb_true_iff, !bool_decide_eq_true. unfold sp_key.
  split; [by intros [[=] [=]]; f_equal|by intros [= -> ->]].
Qed.

Lemma same_key_app row row' :
  same_key Apps (app_values row) (app_values row') = true ↔ row_app_id row = row_app_id row'.
Proof.
  unfold same_key. rewrite bool_decide_eq_true.
  change (project _ _ (app_values ?r)) with [SqlText (row_app_id r)].
  split; [by intros [=]|by intros ->].
Qed.

Lemma same_key_proof p p' :
  same_key Proofs (proof_values p) (proof_values p') = true ↔ sp_key p = sp_key p'.
Proof.
  unfold same_key, sp_key. rewrite bool_decide_eq_true.
  change (project _ _ (proof_values ?r)) with [SqlText (sp_app_id r); SqlText (sp_task_id r)].
  split; [by intros [=]; f_equal|by intros [= -> ->]].
Qed.

(** The row an insertion makes. *)
Lemma inserted_app d row : inserted_row current_timestamp d Apps app_columns (app_values row) = app_values row.
Proof. reflexivity. Qed.

Lemma inserted_proof d a t proof :
  inserted_row current_timestamp d Proofs ["app_id"; "task_id"; "proof"]
    [SqlText a; SqlText t; SqlBlob proof] =
    proof_values (mkStoredProof a t (Some proof) (current_timestamp d)).
Proof. reflexivity. Qed.

Lemma app_not_null row : not_null_ok Apps (app_values row) = true.
Proof. reflexivity. Qed.

Lemma proof_not_null p : not_null_ok Proofs (proof_values p) = true.
Proof. reflexivity. Qed.

Lemma proof_references d apps p :
  apps_rows d = app_values <$> apps →
  foreign_key_ok d Proofs (proof_values p) = true ↔ sp_app_id p ∈ row_app_id <$> apps.
Proof.
  intros Ha. unfold foreign_key_ok. cbn [foreign_key table create_proofs rows_of]. rewrite Ha.
  change (project Proofs ["app_id"] (proof_values p)) with [SqlText (sp_app_id p)].
  cbn [existsb]. rewrite bool_decide_false by done. simpl.
  rewrite existsb_exists, list_elem_of_fmap. split.
  - intros (r & Hr%list_elem_of_In & Hk%bool_decide_eq_true).
    apply list_elem_of_fmap in Hr as (row & -> & Hrow). exists row. split; [|done].
    change (project _ _ _) with [SqlText (row_app_id row)] in Hk. by injection Hk.
  - intros (row & Hid & Hrow). exists (app_values row). split.
    + apply list_elem_of_In, list_elem_of_fmap. by exists row.
    + apply bool_decide_eq_true. change (project _ _ _) with [SqlText (row_app_id row)]. by rewrite Hid.
Qed.

(** *** The statements *)

Lemma find_Some_key {A K} `{EqDecision K} (key : A → K) (k : K) l x :
  find (λ x, bool_decide (key x = k)) l = Some x → key x = k ∧ x ∈ l.
Proof. intros [Hin Hk%bool_decide_eq_true]%find_some. split; [done|by apply list_elem_of_In]. Qed.

Lemma sql_select_app_view d id : integrity d → sql_select_app d id = Ok (db_apps d !! id).
Proof.
  intros (apps & proofs & Hi). rewrite (db_apps_of _ _ _ Hi). destruct Hi as [-> _].
  unfold sql_select_app, sql_select. cbn [rows_of apps_rows]. unfold app_entry.
  destruct (head_filter_map app_values row_app_id (λ row, row) id
    (sql_where Apps [("app_id", SqlText id)]) apps (where_app id)) as [Hh ->].
  rewrite head_fmap, Hh. destruct (find _ apps) as [row|]; [|done]. cbn [fmap option_fmap option_map].
  by rewrite project_app, decode_app_values.
Qed.

Lemma sql_select_proof_view d a t : integrity d → sql_select_proof d a t = Ok (db_proofs d !! (a, t)).
Proof.
  intros (apps & proofs & Hi). rewrite (db_proofs_of _ _ _ Hi). destruct Hi as [-> _].
  unfold sql_select_proof, sql_select. cbn [rows_of proofs_rows]. unfold proof_entry.
  destruct (head_filter_map proof_values sp_key sp_proof (a, t)
    (sql_where Proofs [("app_id", SqlText a); ("task_id", SqlText t)]) proofs (where_proof a t)) as [Hh ->].
  rewrite head_fmap, Hh. destruct (find _ proofs) as [p|]; [|done]. cbn [fmap option_fmap option_map].
  rewrite project_proof. by destruct (sp_proof p).
Qed.

(** Which keys a map of entries has. *)
Lemma app_entry_known apps id :
  is_Some ((list_to_map (app_entry <$> apps) : gmap string AppRow) !! id) ↔ id ∈ row_app_id <$> apps.
Proof.
  rewrite <- elem_of_dom, dom_list_to_map, elem_of_list_to_set, <- list_fmap_compose. done.
Qed.

Lemma sql_insert_app_view d row :
  integrity d →
  match sql_insert_app current_timestamp d row with
  | Ok d' => integrity d' ∧ db_apps d !! row_app_id row = None ∧
      db_apps d' = <[row_app_id row := row]> (db_apps d) ∧ db_proofs d' = db_proofs d
  | Err _ => is_Some (db_apps d !! row_app_id row)
  end.
Proof.
  intros (apps & proofs & Hi). rewrite (db_apps_of _ _ _ Hi). pose proof Hi as (-> & Hnd & Hndp & Hfk).
  unfold sql_insert_app, sql_insert. rewrite inserted_app, app_not_null. cbn [negb rows_of apps_rows].
  destruct (existsb _ _) eqn:Ex.
  - apply existsb_exists in Ex as (r & Hr%list_elem_of_In & Hk).
    apply list_elem_of_fmap in Hr as (row' & -> & Hrow'). apply same_key_app in Hk.
    apply app_entry_known, list_elem_of_fmap. by exists row'.
  - assert (Hnew : row_app_id row ∉ row_app_id <$> apps).
    { intros (row' & Hk & Hrow')%list_elem_of_fmap. apply Bool.not_true_iff_false in Ex. apply Ex.
      apply existsb_exists. exists (app_values row'). split.
      - apply list_elem_of_In, list_elem_of_fmap. by exists row'.
      - by apply same_key_app. }
    change (foreign_key_ok _ _ _) with true. cbn [negb with_rows proofs_rows].
    assert (Hi' : integrity_of (mkTables ((app_values <$> apps) ++ [app_values row])
      (proof_values <$> proofs)) (apps ++ [row]) proofs).
    { split; [by rewrite fmap_app|]. rewrite fmap_app. split; [|split; [done|]].
      - apply NoDup_app. split; [done|]. split; [|apply NoDup_singleton].
        intros x Hx ->%list_elem_of_singleton. done.
      - eapply Forall_impl; [exact Hfk|]. intros p ?. apply elem_of_app. by left. }
    rewrite (db_apps_of _ _ _ Hi'), (db_proofs_of _ _ _ Hi'), (db_proofs_of _ _ _ Hi).
    split; [by eexists _, _|]. split.
    + rewrite <- app_entry_known in Hnew. by apply eq_None_not_Some.
    + split; [|done]. rewrite fmap_app. apply list_to_map_snoc.
      by rewrite <- list_fmap_compose.
Qed.

(** The rows [OR REPLACE] keeps. *)
Lemma kept_rows proofs p :
  filter (λ r, same_key Proofs r (proof_values p) = false) (proof_values <$> proofs) =
    proof_values <$> filter (λ q, sp_key q ≠ sp_key p) proofs.
Proof.
  induction proofs as [|q proofs IH]; [done|]. cbn [fmap list_fmap]. rewrite !filter_cons.
  pose proof (same_key_proof q p) as Hk. destruct (same_key _ _ _).
  - rewrite decide_False by done. by rewrite decide_False by tauto.
  - rewrite decide_True by done. rewrite decide_True by (by intros ?%Hk). cbn [fmap list_fmap]. by f_equal.
Qed.

Lemma kept_entries proofs p :
  proof_entry <$> (filter (λ q, sp_key q ≠ sp_key p) proofs) =
    filter (λ e, e.1 ≠ sp_key p) (proof_entry <$> proofs).
Proof.
  induction proofs as [|q proofs IH]; [done|]. cbn [fmap list_fmap]. rewrite !filter_cons. simpl.
  by destruct (decide (sp_key q ≠ sp_key p)); cbn [fmap list_fmap]; f_equal.
Qed.

Lemma replaced_integrity apps proofs p :
  integrity_of (mkTables (app_values <$> apps) (proof_values <$> proofs)) apps proofs →
  sp_app_id p ∈ row_app_id <$> apps →
  integrity_of (mkTables (app_values <$> apps)
      ((proof_values <$> filter (λ q, sp_key q ≠ sp_key p) proofs) ++ [proof_values p]))
    apps (filter (λ q, sp_key q ≠ sp_key p) proofs ++ [p]).
Proof.
  intros (_ & Hnd & Hndp & Hfk) Hin. split; [by rewrite fmap_app|]. split; [done|]. split.
  - rewrite fmap_app. apply NoDup_app. split; [|split; [|apply NoDup_singleton]].
    + eapply sublist_NoDup; [exact Hndp|]. apply fmap_sublist, sublist_filter.
    + intros k (q & -> & [Hq _]%list_elem_of_filter)%list_elem_of_fmap E%list_elem_of_singleton. done.
  - apply Forall_app. split; [rewrite Forall_forall in *; intros q [_ Hq]%list_elem_of_filter; auto|by constructor].
Qed.

Lemma sql_replace_proof_view d a t proof :
  integrity d →
  match sql_replace_proof current_timestamp d a t proof with
  | Ok d' => integrity d' ∧ is_Some (db_apps d !! a) ∧
      db_apps d' = db_apps d ∧ db_proofs d' = <[(a, t) := Some proof]> (db_proofs d)
  | Err _ => db_apps d !! a = None
  end.
Proof.
  intros (apps & proofs & Hi). rewrite (db_apps_of _ _ _ Hi). pose proof Hi as (-> & Hnd & Hndp & Hfk).
  unfold sql_replace_proof, sql_insert. rewrite inserted_proof, proof_not_null.
  set (p := mkStoredProof a t (Some proof) _). cbn [negb rows_of proofs_rows].
  rewrite kept_rows. destruct (existsb _ _) eqn:Ex.
  { apply existsb_exists in Ex as (r & Hr%list_elem_of_In & Hk).
    apply list_elem_of_fmap in Hr as (q & -> & [Hne _]%list_elem_of_filter).
    by apply same_key_proof in Hk. }
  pose proof (proof_references (mkTables (app_values <$> apps) (proof_values <$> proofs)) apps p eq_refl) as Href.
  destruct (foreign_key_ok _ _ _); cbn [negb with_rows apps_rows].
  - pose proof (replaced_integrity apps proofs p Hi (proj1 Href eq_refl)) as Hi'.
    rewrite (db_apps_of _ _ _ Hi'), (db_proofs_of _ _ _ Hi'), (db_proofs_of _ _ _ Hi).
    split; [by eexists _, _|]. split; [by apply app_entry_known, Href|]. split; [done|].
    rewrite fmap_app, kept_entries. apply (list_to_map_replace _ (a, t)).
  - apply eq_None_not_Some. rewrite app_entry_known. by intros ?%Href.
Qed.

(** C30: the schema implements the interface of the database.  On tables that
    satisfy the constraints of the migrations (typed rows, unique primary
    keys, no dangling foreign key), which the freshly migrated ones do, each
    of the four statements does what [Database.v] asks of it on the two maps
    the tables stand for, fails exactly on a violated constraint, and leaves
    tables that satisfy the constraints. *)
Theorem schema_implements_interface d :
  integrity d →
  (∀ id, select_app d id = Ok (db_apps d !! id)) ∧
  (∀ row, match insert_app d row with
    | Ok d' => integrity d' ∧ db_apps d !! row_app_id row = None ∧
        db_apps d' = <[row_app_id row := row]> (db_apps d) ∧ db_proofs d' = db_proofs d
    | Err _ => is_Some (db_apps d !! row_app_id row)
    end) ∧
  (∀ a t, select_proof d a t = Ok (db_proofs d !! (a, t))) ∧
  (∀ a t proof, match replace_proof d a t proof with
    | Ok d' => integrity d' ∧ is_Some (db_apps d !! a) ∧
        db_apps d' = db_apps d ∧ db_proofs d' = <[(a, t) := Some proof]> (db_proofs d)
    | Err _ => db_apps d !! a = None
    end).
Proof.
  intros Hi. split_and!; intros.
  - by apply sql_select_app_view.
  - by apply sql_insert_app_view.
  - by apply sql_select_proof_view.
  - by apply sql_replace_proof_view.
Qed.

(** ** The database of the service

    The tables that can be reached, as an instance of the interface: the
    theorems about the service hold of them. *)

Record sql_db : Type := mkSqlDb { sql_tables : tables; sql_integrity : integrity sql_tables }.

(** A statement that goes through leaves such tables. *)
Definition sealed {P : tables → Prop} {Q : Prop} (r : result tables string) :
    match r with Ok d' => integrity d' ∧ P d' | Err _ => Q end → result sql_db string :=
  match r with
  | Ok d' => λ Hr, Ok (mkSqlDb d' (proj1 Hr))
  | Err e => λ _, Err e
  end.

Lemma sealed_Ok {P : tables → Prop} {Q : Prop} r
    (Hr : match r with Ok d' => integrity d' ∧ P d' | Err _ => Q end) d :
  sealed r Hr = Ok d → P (sql_tables d).
Proof. destruct r; simpl; [|done]. intros [= <-]. apply Hr. Qed.

Lemma sealed_live {P : tables → Prop} {Q : Prop} r
    (Hr : match r with Ok d' => integrity d' ∧ P d' | Err _ => Q end) :
  ¬ Q → is_ok (sealed r Hr) = true.
Proof. by destruct r. Qed.

#[export] Instance sql_db_database : Database sql_db := {|
  select_app d id := select_app (sql_tables d) id;
  insert_app d row := sealed _ (sql_insert_app_view (sql_tables d) row (sql_integrity d));
  select_proof d a t := select_proof (sql_tables d) a t;
  replace_proof d a t proof :=
    sealed _ (sql_replace_proof_view (sql_tables d) a t proof (sql_integrity d));
  db_apps d := db_apps (sql_tables d);
  db_proofs d := db_proofs (sql_tables d);
|}.

#[export] Instance sql_db_spec : DatabaseSpec sql_db.
Proof.
  split; simpl.
  - intros d id row. rewrite (sql_select_app_view _ id (sql_integrity d)). by intros [= <-].
  - intros d row d' E. exact (sealed_Ok _ _ _ E).
  - intros d a t r. rewrite (sql_select_proof_view _ a t (sql_integrity d)). by intros [= <-].
  - intros d a t proof d' E. exact (sealed_Ok _ _ _ E).
Qed.

#[export] Instance sql_db_live : DatabaseLive sql_db.
Proof.
  split; simpl.
  - intros d id. by rewrite (sql_select_app_view _ id (sql_integrity d)).
  - intros d row Hn. apply sealed_live. by rewrite Hn.
  - intros d a t. by rewrite (sql_select_proof_view _ a t (sql_integrity d)).
  - intros d a t proof [row Hr]. apply sealed_live. by rewrite Hr.
Qed.
End Views.

Definition migrated_db : sql_db := mkSqlDb migrated migrated_integrity.

(** *** Witness *)

Lemma schema_implements_interface_witness :
  @select_app tables (sql_database (λ _, "now")) migrated "a" = Ok None ∧
  @replace_proof tables (sql_database (λ _, "now")) migrated "a" "t" [1] = Err "FOREIGN KEY constraint failed".
Proof.
  split; [|reflexivity].
  exact (proj1 (schema_implements_interface (λ _, "now") migrated migrated_integrity) "a").
Defined.
