(* ===== verification/AppManager.v ===== *)
(** * Applications ([src/src/app_manager.rs])

    [App_new] compiles an ELF and derives the application id from its
    verifying key; [get_app] and [set_app] are the two operations of
    [AppManager] on the database; [AppRow_from] and [App_from] are the two
    [From] conversions. *)

From Stdlib Require Import Ascii.
From S2P Require Import Prelude PicoVM Database.

(** ** [bincode] *)

Class Bincode (A : Type) : Type := {
  bincode_serialize : A → result bytes string;
  bincode_deserialize : bytes → result A string;
}.

Class BincodeSpec (A : Type) `{!Bincode A} : Prop := {
  bincode_roundtrip a bs : bincode_serialize a = Ok bs → bincode_deserialize bs = Ok a;
}.

Definition bincode_Z : Bincode Z := {|
  bincode_serialize z := Ok [z];
  bincode_deserialize bs := match bs with [z] => Ok z | _ => Err "io error" end;
|}.

Definition bincode_unit : Bincode unit := {|
  bincode_serialize _ := Ok [];
  bincode_deserialize bs := match bs with [] => Ok tt | _ => Err "io error" end;
|}.

Lemma bincode_Z_spec : @BincodeSpec Z bincode_Z.
Proof. split. by intros a bs [= <-]. Qed.

Lemma bincode_unit_spec : @BincodeSpec unit bincode_unit.
Proof. split. by intros [] bs [= <-]. Qed.

(** ** What the code calls *)

Class AppEnv `{PicoVM} : Type := {
  (* [Compiler::new(SourceType::RISCV, elf).compile()], and whether the [Arc]
     it returns has no other owner *)
  Compiler_compile : bytes → foreign Program;
  compiled_arc_unique : bytes → bool;
  vk_verification_on : bool;               (* [vk_verification_enabled()] *)
  padding_preprocessed_shape : RiscvShapeConfig → Program → foreign (result Program string);
  hash_str_via_bn254 : BaseVerifyingKey → foreign string;
}.

(** The documented format of [hash_str_via_bn254]. *)
Definition id_digit (a : Ascii.ascii) : bool :=
  let n := Ascii.nat_of_ascii a in
  ((48 <=? n) && (n <=? 57) || (97 <=? n) && (n <=? 102))%nat.

Fixpoint all_digits (s : string) : bool :=
  match s with
  | EmptyString => true
  | String a s => id_digit a && all_digits s
  end.

Class AppEnvSpec `{AppEnv} : Prop := {
  hash_format vk h :
    hash_str_via_bn254 vk = inl h →
    ∃ s, h = String "0"%char (String "x"%char s) ∧ String.length s = 64%nat ∧ all_digits s = true;
}.

(** ** Strings *)

(** [s.strip_prefix("0x").unwrap_or(s)] *)
Definition strip_0x (s : string) : string :=
  match s with
  | String "0"%char (String "x"%char r) => r
  | _ => s
  end.

(** A UTF-8 string is sliced between characters: the byte at the cut is not a
    continuation byte. *)
Definition is_char_boundary (s : string) (i : nat) : bool :=
  match String.get i s with
  | Some a => negb ((128 <=? Ascii.nat_of_ascii a) && (Ascii.nat_of_ascii a <? 192))%nat
  | None => (String.length s =? i)%nat
  end.

(** [s[i..].to_string()] *)
Definition slice_from (s : string) (i : nat) : outcome string :=
  _ ← rust_assert (is_char_boundary s i) "byte index is not a char boundary";
  Ret (String.substring i (String.length s - i) s).

(** ** Applications *)

Section App.
Context `{PicoVM, !AppEnv, !Bincode Program, !Bincode BaseProvingKey, !Bincode BaseVerifyingKey}.

Record App : Type := mkApp {
  app_app_id : string;
  app_program : Program;
  app_pk : BaseProvingKey;
  app_vk : BaseVerifyingKey;
  app_info : option string;
}.

(** The padding of [App::new], when verification is on. *)
Definition App_new_program (elf : bytes) : outcome Program :=
  program ← call_foreign (Compiler_compile elf);
  if vk_verification_on then
    _ ← rust_assert (compiled_arc_unique elf) "cannot get program";
    padded ← call_foreign (padding_preprocessed_shape RiscvShapeConfig_default program);
    unwrap_result "cannot padding preprocessed shape" padded
  else Ret program.

Definition App_new (elf : bytes) (info : option string) : outcome App :=
  program ← App_new_program elf;
  let machine := RiscvMachine_new SC_default RiscvChip_all RISCV_NUM_PVS in
  '(pk, vk) ← call_foreign (RiscvMachine_setup_keys machine program);
  app_id ← call_foreign (hash_str_via_bn254 vk);
  _ ← rust_assert (bool_decide (String.length app_id = 66%nat))
        "app-id must be an uint256 starting with 0x";
  app_id ← slice_from app_id 2;
  Ret (mkApp app_id program pk vk info).

Definition unwrap_err_msg : string := "called `Result::unwrap()` on an `Err` value".

Definition AppRow_from (app : App) : outcome AppRow :=
  program ← unwrap_result unwrap_err_msg (bincode_serialize (app_program app));
  pk ← unwrap_result unwrap_err_msg (bincode_serialize (app_pk app));
  vk ← unwrap_result unwrap_err_msg (bincode_serialize (app_vk app));
  Ret (mkAppRow (app_app_id app) program pk vk (app_info app)).

Definition App_from (row : AppRow) : outcome App :=
  program ← unwrap_result unwrap_err_msg (bincode_deserialize (row_program row));
  pk ← unwrap_result unwrap_err_msg (bincode_deserialize (row_pk row));
  vk ← unwrap_result unwrap_err_msg (bincode_deserialize (row_vk row));
  Ret (mkApp (row_app_id row) program pk vk (row_info row)).

Context `{!Database D}.

Definition get_app (db : D) (app_id : string) : outcome (result (option App) string) :=
  let app_id := strip_0x app_id in
  row ←? Ret (select_app db app_id);
  match row with
  | Some row => app ← App_from row; Ret (Ok (Some app))
  | None => Ret (Ok None)
  end.

(** The database afterwards, and the result. *)
Definition set_app (db : D) (elf : bytes) (info : option string) :
    outcome (D * result App string) :=
  app ← App_new elf info;
  let app_id := app_app_id app in
  found ← get_app db app_id;
  match found with
  | Err e => Ret (db, Err e)
  | Ok (Some _) => Ret (db, Err ("app already exists " +:+ app_id))
  | Ok None =>
      row ← AppRow_from app;
      match insert_app db row with
      | Err e => Ret (db, Err e)
      | Ok db' => Ret (db', Ok app)
      end
  end.
End App.

(** ** Lemmas *)

Lemma substring_all s : String.substring 0 (String.length s) s = s.
Proof. induction s as [|a s IH]; simpl; [done|]. by rewrite IH. Qed.

(** What follows the prefix of a well-formed hash. *)
Lemma slice_hash a b s :
  all_digits s = true → slice_from (String a (String b s)) 2 = Ret s.
Proof.
  intros Hs. unfold slice_from. rewrite rust_assert_true.
  - simpl. rewrite Nat.sub_0_r. by rewrite substring_all.
  - destruct s as [|c s]; [done|]. simpl in Hs. apply andb_prop in Hs as [Hc _].
    unfold is_char_boundary. cbn [String.get]. apply negb_true_iff, andb_false_iff. left.
    apply Nat.leb_gt. unfold id_digit in Hc.
    apply orb_prop in Hc as [[_ Hc%Nat.leb_le]%andb_prop|[_ Hc%Nat.leb_le]%andb_prop]; lia.
Qed.

(** An application id has no prefix to strip. *)
Lemma strip_digits s : all_digits s = true → strip_0x s = s.
Proof.
  destruct s as [|a s]; [done|]. intros Hs. simpl in Hs. apply andb_prop in Hs as [_ Hs].
  destruct s as [|b s]; [by destruct a as [[] [] [] [] [] [] [] []]|].
  simpl in Hs. apply andb_prop in Hs as [Hb _].
  destruct (decide (b = "x"%char)) as [->|Hne]; [done|].
  unfold strip_0x. destruct a as [[] [] [] [] [] [] [] []]; try done.
  destruct b as [[] [] [] [] [] [] [] []]; done.
Qed.

Lemma strip_prefixed s : strip_0x (String "0"%char (String "x"%char s)) = s.
Proof. done. Qed.

Section Lemmas.
Context `{AppEnv, !Bincode Program, !Bincode BaseProvingKey, !Bincode BaseVerifyingKey}.
Context `{Database D}.

Lemma unwrap_result_Ret {A E} msg (r : result A E) a : unwrap_result msg r = Ret a → r = Ok a.
Proof. by destruct r; intros [= ->]. Qed.

Lemma row_roundtrip app row
    `{!BincodeSpec Program, !BincodeSpec BaseProvingKey, !BincodeSpec BaseVerifyingKey} :
  AppRow_from app = Ret row → App_from row = Ret app ∧ row_app_id row = app_app_id app.
Proof.
  unfold AppRow_from. intros E. bind_inv E. bind_inv E. bind_inv E. injection E as <-.
  apply unwrap_result_Ret, bincode_roundtrip in E0, E1, E2.
  split; [|done]. unfold App_from. simpl. rewrite E0, E1, E2. simpl. by destruct app.
Qed.

Lemma row_keeps_info app row : AppRow_from app = Ret row → row_info row = app_info app.
Proof. unfold AppRow_from. intros E. bind_inv E. bind_inv E. bind_inv E. by injection E as <-. Qed.

Lemma new_app_id `{!AppEnvSpec} elf info app :
  App_new elf info = Ret app →
  hash_str_via_bn254 (app_vk app) =
    inl (String "0"%char (String "x"%char (app_app_id app))) ∧
  String.length (app_app_id app) = 64%nat ∧ all_digits (app_app_id app) = true ∧
  app_info app = info.
Proof.
  unfold App_new. intros E. bind_inv E. bind_inv E. destruct a0 as [pk vk].
  bind_inv E. bind_inv E. bind_inv E. injection E as <-. simpl.
  destruct (hash_str_via_bn254 vk) as [h|] eqn:Eh; simpl in E2; [|done]. injection E2 as ->.
  destruct (hash_format _ _ Eh) as (s & -> & Hl & Hs).
  rewrite slice_hash in E4 by done. injection E4 as <-. done.
Qed.

(** Looking up an id that is in the table. *)
Lemma get_app_row `{!DatabaseSpec D, !DatabaseLive D} (db : D) id row app :
  db_apps db !! strip_0x id = Some row → App_from row = Ret app →
  get_app db id = Ret (Ok (Some app)).
Proof.
  intros Hrow Happ. unfold get_app. pose proof (select_app_live db (strip_0x id)) as Hl.
  destruct (select_app db (strip_0x id)) as [r|] eqn:E; [|done].
  apply select_app_ok in E as ->. rewrite Hrow. simpl. by rewrite Happ.
Qed.

Lemma get_app_none `{!DatabaseSpec D, !DatabaseLive D} (db : D) id :
  db_apps db !! strip_0x id = None → get_app db id = Ret (Ok None).
Proof.
  intros Hrow. unfold get_app. pose proof (select_app_live db (strip_0x id)) as Hl.
  destruct (select_app db (strip_0x id)) as [r|] eqn:E; [|done].
  apply select_app_ok in E as ->. by rewrite Hrow.
Qed.

(** What [get_app] found. *)
Lemma get_app_found `{!DatabaseSpec D} (db : D) id app :
  get_app db id = Ret (Ok (Some app)) →
  ∃ row, db_apps db !! strip_0x id = Some row ∧ App_from row = Ret app.
Proof.
  unfold get_app. destruct (select_app db (strip_0x id)) as [[row|]|] eqn:E; simpl; try done.
  apply select_app_ok in E. destruct (App_from row) as [app'|] eqn:Ea; simpl; [|done].
  intros [= ->]. by exists row.
Qed.

(** The database is touched only by a registration that goes through. *)
Lemma set_app_inv `{!DatabaseSpec D} (db db' : D) elf info res :
  set_app db elf info = Ret (db', res) →
  match res with
  | Err _ => db' = db
  | Ok app => App_new elf info = Ret app ∧ ∃ row, AppRow_from app = Ret row ∧
      insert_app db row = Ok db'
  end.
Proof.
  unfold set_app. destruct (App_new elf info) as [app|] eqn:En; simpl; [|done].
  destruct (get_app db (app_app_id app)) as [[[found|]|e]|] eqn:Eg; simpl; try done;
    try (by intros [= <- <-]).
  destruct (AppRow_from app) as [row|] eqn:Er; simpl; [|done].
  destruct (insert_app db row) as [db1|e] eqn:Ei; intros [= <- <-]; [|done].
  split; [done|]. by exists row.
Qed.
End Lemmas.

(** ** Properties *)

Section Properties.
Context `{AppEnv, !Bincode Program, !Bincode BaseProvingKey, !Bincode BaseVerifyingKey}.
Context `{!BincodeSpec Program, !BincodeSpec BaseProvingKey, !BincodeSpec BaseVerifyingKey}.
Context `{!AppEnvSpec, DatabaseSpec D, !DatabaseLive D}.

(** The application id is the hash of the verifying key without its
    [0x]: 64 hexadecimal digits, so neither the length assertion nor the
    slice of [App::new] fails. *)
Theorem app_id_is_hash elf info :
  match App_new elf info with
  | Ret app =>
      hash_str_via_bn254 (app_vk app) =
        inl (String "0"%char (String "x"%char (app_app_id app))) ∧
      String.length (app_app_id app) = 64%nat ∧ all_digits (app_app_id app) = true
  | Panic p =>
      p ≠ SourcePanic "app-id must be an uint256 starting with 0x" ∧
      p ≠ SourcePanic "byte index is not a char boundary"
  end.
Proof.
  destruct (App_new elf info) as [app|p] eqn:E; [by destruct (new_app_id _ _ _ E) as (?&?&?&_)|].
  unfold App_new in E. apply bind_panic_inv in E as [E|(program & _ & E)].
  - unfold App_new_program in E. apply bind_panic_inv in E as [E|(pr & _ & E)].
    + destruct (Compiler_compile elf); simplify_eq/=. split; discriminate.
    + destruct vk_verification_on; [|done]. destruct (compiled_arc_unique elf); simplify_eq/=.
      * destruct (padding_preprocessed_shape _ _) as [[]|]; simplify_eq/=; try done; unfold panic_with in *; simplify_eq; split; discriminate.
      * unfold panic_with in *. simplify_eq. split; discriminate.
  - apply bind_panic_inv in E as [E|([pk vk] & _ & E)].
    { destruct (RiscvMachine_setup_keys _ _); simplify_eq/=. split; discriminate. }
    destruct (hash_str_via_bn254 vk) as [h|] eqn:Eh; simplify_eq/=; [|split; discriminate].
    destruct (hash_format _ _ Eh) as (s & -> & Hl & Hs). exfalso.
    rewrite bool_decide_true in E by (simpl; by rewrite Hl). simpl in E.
    by rewrite slice_hash in E.
Qed.

(** C32: registering an application makes it retrievable, with its id spelled
    with or without [0x]; the other applications and the proofs are
    untouched. *)
Theorem set_app_get_app (db db' : D) elf info app :
  set_app db elf info = Ret (db', Ok app) →
  get_app db' (app_app_id app) = Ret (Ok (Some app)) ∧
  get_app db' ("0x" +:+ app_app_id app) = Ret (Ok (Some app)) ∧
  db_apps db !! app_app_id app = None ∧
  (∀ id, id ≠ app_app_id app → db_apps db' !! id = db_apps db !! id) ∧
  db_proofs db' = db_proofs db.
Proof.
  intros (En & row & Er & Ei)%set_app_inv.
  destruct (new_app_id _ _ _ En) as (_ & _ & Hd & _). destruct (row_roundtrip _ _ Er) as [Ea Eid].
  assert (Hrow : db_apps db' !! app_app_id app = Some row).
  { rewrite (insert_app_select _ _ _ _ Ei). rewrite decide_True; congruence. }
  split_and!.
  - apply (get_app_row _ _ row); [by rewrite strip_digits|done].
  - by apply (get_app_row _ _ row).
  - apply insert_app_ok in Ei as [E _]. congruence.
  - intros id Hid. rewrite (insert_app_select _ _ _ _ Ei). rewrite decide_False; congruence.
  - by apply insert_app_ok in Ei as (_ & _ & ?).
Qed.

(** An application is registered once.  A second registration of the
    same program (whatever its information text) is refused with the id in
    the message, and changes nothing: the information is not updated. *)
Theorem set_app_twice (db db' : D) elf info info' app app' :
  set_app db elf info = Ret (db', Ok app) → App_new elf info' = Ret app' →
  set_app db' elf info' = Ret (db', Err ("app already exists " +:+ app_app_id app)).
Proof.
  intros (En & row & Er & Ei)%set_app_inv En'.
  destruct (new_app_id _ _ _ En) as (Hh & _ & Hd & _).
  destruct (row_roundtrip _ _ Er) as [Ea Eid].
  assert (Hsame : app_app_id app' = app_app_id app).
  { revert En En'. unfold App_new.
    destruct (App_new_program elf) as [pr|]; simpl; [|done].
    destruct (call_foreign (RiscvMachine_setup_keys _ _)) as [[pk vk]|]; simpl; [|done].
    destruct (call_foreign (hash_str_via_bn254 vk)) as [h|]; simpl; [|done].
    destruct (rust_assert _ _); simpl; [|done]. destruct (slice_from h 2); simpl; [|done].
    by intros [= <-] [= <-]. }
  unfold set_app. rewrite En'. simpl. rewrite Hsame.
  assert (Hget : get_app db' (app_app_id app) = Ret (Ok (Some app))).
  { apply (get_app_row _ _ row); [|done]. rewrite strip_digits by done.
    rewrite (insert_app_select _ _ _ _ Ei). rewrite decide_True; congruence. }
  by rewrite Hget.
Qed.
End Properties.

(** ** A concrete environment *)

Definition digit_string (n : Z) : string :=
  String (Ascii.ascii_of_nat (48 + Z.to_nat (n mod 10))) EmptyString.

Fixpoint zeros (n : nat) : string :=
  match n with O => EmptyString | S n => String "0"%char (zeros n) end.

(** An ELF compiles to its number of bytes; the hash ends with a digit of the
    verifying key. *)
#[export] Instance symbolic_app_env : @AppEnv symbolic_pico := {|
  Compiler_compile elf := inl (Z.of_nat (length elf));
  compiled_arc_unique _ := true;
  vk_verification_on := true;
  padding_preprocessed_shape _ program := inl (Ok program);
  hash_str_via_bn254 vk := inl ("0x" +:+ zeros 63 +:+ digit_string vk);
|}.

#[export] Instance symbolic_bincode_program : Bincode (@Program symbolic_pico) := bincode_Z.
#[export] Instance symbolic_bincode_pk : Bincode (@BaseProvingKey symbolic_pico) := bincode_unit.
#[export] Instance symbolic_bincode_vk : Bincode (@BaseVerifyingKey symbolic_pico) := bincode_Z.
#[export] Instance symbolic_program_spec : BincodeSpec (@Program symbolic_pico) := bincode_Z_spec.
#[export] Instance symbolic_pk_spec : BincodeSpec (@BaseProvingKey symbolic_pico) := bincode_unit_spec.
#[export] Instance symbolic_vk_spec : BincodeSpec (@BaseVerifyingKey symbolic_pico) := bincode_Z_spec.

Lemma digit_string_hash n : all_digits (zeros 63 +:+ digit_string n) = true.
Proof.
  assert (Hn : ∀ k, (k < 10)%nat → all_digits (zeros 63 +:+ String (Ascii.ascii_of_nat (48 + k)) "") = true).
  { intros k Hk. do 10 (destruct k as [|k]; [reflexivity|]). lia. }
  unfold digit_string. apply (Hn (Z.to_nat (n mod 10))). pose proof (Z.mod_pos_bound n 10). lia.
Qed.

#[export] Instance symbolic_app_env_spec : @AppEnvSpec symbolic_pico symbolic_app_env.
Proof.
  split. intros vk h [= <-]. exists (zeros 63 +:+ digit_string vk).
  split; [done|]. split; [done|]. apply digit_string_hash.
Qed.

Definition empty_db : memory_db := mkMemoryDb ∅ ∅.

(** Registering a three-byte ELF. *)
Definition three_app : @App symbolic_pico :=
  @mkApp symbolic_pico (zeros 63 +:+ "3") 3 tt 3 (Some "three").

Definition three_db : memory_db :=
  mkMemoryDb {[zeros 63 +:+ "3" := mkAppRow (zeros 63 +:+ "3") [3] [] [3] (Some "three")]} ∅.

Lemma set_three : set_app empty_db [1; 2; 3] (Some "three") = Ret (three_db, Ok three_app).
Proof. vm_compute. reflexivity. Qed.

Lemma app_id_is_hash_witness :
  String.length (app_app_id three_app) = 64%nat ∧ all_digits (app_app_id three_app) = true.
Proof. exact (proj2 (app_id_is_hash [1; 2; 3] (Some "three"))). Defined.

Lemma set_app_get_app_witness :
  get_app three_db ("0x" +:+ zeros 63 +:+ "3") = Ret (Ok (Some three_app)).
Proof. exact (proj1 (proj2 (set_app_get_app _ _ _ _ _ set_three))). Defined.

Lemma set_app_twice_witness :
  set_app three_db [1; 2; 3] (Some "renamed") =
    Ret (three_db, Err ("app already exists " +:+ zeros 63 +:+ "3")).
Proof.
  apply (set_app_twice empty_db three_db [1; 2; 3] (Some "three") (Some "renamed") three_app
    (@mkApp symbolic_pico (zeros 63 +:+ "3") 3 tt 3 (Some "renamed")) set_three).
  vm_compute. reflexivity.
Defined.
