(* ===== verification/Registration.v ===== *)
(** * Concurrent registrations ([AppManager::set_app])

    [AppManager.v] has [set_app] as one step.  The function awaits the
    database twice, to look the id up and to insert the row, and other
    requests run in between.  Here each registration is a thread of two
    atomic actions; the registrations that complete do so as if each were
    one step, at the moment of its last action. *)

From S2P Require Import Prelude PicoVM Database AppManager.

Section Registration.
Context `{AppEnv, !Bincode Program, !Bincode BaseProvingKey, !Bincode BaseVerifyingKey}.
Context `{Database D}.

Implicit Types db : D.

(** Where a call of [set_app] stands. *)
Inductive registration : Type :=
  | RegStart
  | RegInsert (app : App) (row : AppRow)
  | RegDone (res : result App string)
  | RegPanicked (p : panic).

(** Up to the [await] of the lookup, and what it decides. *)
Definition reg_select db (elf : bytes) (info : option string) : registration :=
  match App_new elf info with
  | Panic p => RegPanicked p
  | Ret app =>
      match get_app db (app_app_id app) with
      | Panic p => RegPanicked p
      | Ret (Err e) => RegDone (Err e)
      | Ret (Ok (Some _)) => RegDone (Err ("app already exists " +:+ app_app_id app))
      | Ret (Ok None) =>
          match AppRow_from app with
          | Panic p => RegPanicked p
          | Ret row => RegInsert app row
          end
      end
  end.

Definition reg_insert db (app : App) (row : AppRow) : D * registration :=
  match insert_app db row with
  | Ok db' => (db', RegDone (Ok app))
  | Err e => (db, RegDone (Err e))
  end.

(** The next action of a call. *)
Definition reg_action db (elf : bytes) (info : option string) (st : registration) :
    option (D * registration) :=
  match st with
  | RegStart => Some (db, reg_select db elf info)
  | RegInsert app row => Some (reg_insert db app row)
  | RegDone _ | RegPanicked _ => None
  end.

(** What the call returned, once it has. *)
Definition reg_outcome (st : registration) : option (outcome (result App string)) :=
  match st with
  | RegDone res => Some (Ret res)
  | RegPanicked p => Some (Panic p)
  | RegStart | RegInsert _ _ => None
  end.

(** The two actions in a row are [set_app]. *)
Lemma set_app_actions db elf info :
  set_app db elf info =
    match reg_select db elf info with
    | RegInsert app row =>
        match insert_app db row with Ok db' => Ret (db', Ok app) | Err e => Ret (db, Err e) end
    | RegDone res => Ret (db, res)
    | RegPanicked p => Panic p
    | RegStart => Ret (db, Err "")
    end.
Proof.
  unfold set_app, reg_select. destruct (App_new elf info) as [app|]; simpl; [|done].
  destruct (get_app db (app_app_id app)) as [[[found|]|e]|]; simpl; try done.
  by destruct (AppRow_from app).
Qed.

(** ** Runs *)

(** A call with its arguments; a call that returned, with what it returned. *)
Definition reg_call : Type := bytes * option string * registration.
Definition reg_return : Type := bytes * option string * outcome (result App string).

(** The calls that have returned, in that order, as the actions of the calls
    and the rest of the service interleave.  The rest does not write [apps]. *)
Inductive reg_run : D → list reg_call → list reg_return → D → list reg_call → Prop :=
  | reg_run_nil db calls : reg_run db calls [] db calls
  | reg_run_action db calls log db1 calls1 i elf info st db2 st2 :
      reg_run db calls log db1 calls1 → calls1 !! i = Some (elf, info, st) →
      reg_action db1 elf info st = Some (db2, st2) →
      reg_run db calls
        (log ++ match reg_outcome st2 with Some m => [(elf, info, m)] | None => [] end)
        db2 (<[i := (elf, info, st2)]> calls1)
  | reg_run_other db calls log db1 calls1 db2 :
      reg_run db calls log db1 calls1 → db_apps db2 = db_apps db1 →
      reg_run db calls log db2 calls1.

(** The same with each call as one step. *)
Inductive atomic_run : D → list reg_return → D → Prop :=
  | atomic_nil db : atomic_run db [] db
  | atomic_call db log db1 elf info res db2 :
      atomic_run db log db1 → set_app db1 elf info = Ret (db2, res) →
      atomic_run db (log ++ [(elf, info, Ret res)]) db2
  | atomic_panic db log db1 elf info p :
      atomic_run db log db1 → set_app db1 elf info = Panic p →
      atomic_run db (log ++ [(elf, info, Panic p)]) db1
  | atomic_other db log db1 db2 :
      atomic_run db log db1 → db_apps db2 = db_apps db1 → atomic_run db log db2.

(** Equal but for the text of an error. *)
Definition same_return (r r' : reg_return) : Prop :=
  r.1 = r'.1 ∧
  match r.2, r'.2 with
  | Ret (Ok app), Ret (Ok app') => app = app'
  | Ret (Err _), Ret (Err _) => True
  | Panic p, Panic p' => p = p'
  | _, _ => False
  end.

(** Every row of [apps] deserialises. *)
Definition rows_decode db : Prop :=
  ∀ id row, db_apps db !! id = Some row → ∃ app, App_from row = Ret app.

(** A call that is to insert inserts the row of its own application. *)
Definition reg_call_ok (call : reg_call) : Prop :=
  match call with
  | (elf, info, RegInsert app row) => App_new elf info = Ret app ∧ AppRow_from app = Ret row
  | _ => True
  end.

Context `{!BincodeSpec Program, !BincodeSpec BaseProvingKey, !BincodeSpec BaseVerifyingKey}.
Context `{!AppEnvSpec, !DatabaseSpec D, !DatabaseLive D}.

Lemma reg_select_ok db elf info : reg_call_ok (elf, info, reg_select db elf info).
Proof.
  simpl. unfold reg_select. destruct (App_new elf info) as [app|] eqn:En; [|done].
  destruct (get_app db (app_app_id app)) as [[[found|]|e]|]; try done.
  by destruct (AppRow_from app) as [row|] eqn:Er.
Qed.

(** A lookup that ends the call is the whole call. *)
Lemma select_is_call db elf info m :
  reg_outcome (reg_select db elf info) = Some m →
  match m with Ret res => set_app db elf info = Ret (db, res) | Panic p => set_app db elf info = Panic p end.
Proof. rewrite set_app_actions. by destruct (reg_select db elf info); simpl; intros [= <-]. Qed.

(** The insertion, wherever it comes, is the whole call. *)
Lemma insert_is_call db elf info app row db' st :
  rows_decode db → App_new elf info = Ret app → AppRow_from app = Ret row →
  reg_insert db app row = (db', st) →
  rows_decode db' ∧ ∃ res res', st = RegDone res ∧ set_app db elf info = Ret (db', res') ∧
    same_return (elf, info, Ret res) (elf, info, Ret res').
Proof.
  intros Hrows Hnew Hrow. destruct (row_roundtrip _ _ Hrow) as [Hfrom Hid].
  destruct (new_app_id _ _ _ Hnew) as (_ & _ & Hd & _). unfold reg_insert, set_app. rewrite Hnew. simpl.
  destruct (insert_app db row) as [db1|e] eqn:Ei; intros [= <- <-].
  - assert (Hnone : db_apps db !! strip_0x (app_app_id app) = None).
    { apply insert_app_ok in Ei as (Hn & _). by rewrite strip_digits, <- Hid. }
    split; [|exists (Ok app), (Ok app)].
    + intros id row' Hr. rewrite (insert_app_select _ _ _ _ Ei) in Hr.
      case_decide; [simplify_eq; by exists app|by eapply Hrows].
    + rewrite (get_app_none _ _ Hnone). simpl. rewrite Hrow. simpl. by rewrite Ei.
  - split; [done|]. destruct (db_apps db !! row_app_id row) as [row'|] eqn:El.
    + destruct (Hrows _ _ El) as [app' Happ']. eexists (Err _), (Err _). split; [done|].
      rewrite Hid in El. rewrite <- (strip_digits _ Hd) in El.
      by rewrite (get_app_row _ _ _ _ El Happ').
    + apply insert_app_live in El. by rewrite Ei in El.
Qed.

Lemma same_return_refl r : same_return r r.
Proof. destruct r as [args [[app|e]|p]]; by split. Qed.

Lemma reg_run_atomic db calls log db' calls' :
  rows_decode db → Forall reg_call_ok calls → reg_run db calls log db' calls' →
  rows_decode db' ∧ Forall reg_call_ok calls' ∧
  ∃ log', atomic_run db log' db' ∧ Forall2 same_return log log'.
Proof.
  intros Hrows Hcalls Hr. induction Hr as [db calls|db calls log db1 calls1 i elf info st db2 st2 Hr IH Hi Ha
    |db calls log db1 calls1 db2 Hr IH Heq].
  - split; [done|]. split; [done|]. exists []. split; constructor.
  - destruct (IH Hrows Hcalls) as (Hrows1 & Hcalls1 & log' & Hat & Hsame).
    pose proof (Forall_lookup_1 _ _ _ _ Hcalls1 Hi) as Hok.
    destruct st as [|app row|res|p]; simpl in Ha; [| |done..].
    + injection Ha as <- <-. split; [done|].
      split; [by apply Forall_insert; [|apply reg_select_ok]|].
      destruct (reg_outcome (reg_select db1 elf info)) as [m|] eqn:Em.
      * apply select_is_call in Em. exists (log' ++ [(elf, info, m)]).
        split; [destruct m; by econstructor|].
        apply Forall2_app; [done|]. constructor; [apply same_return_refl|constructor].
      * exists log'. by rewrite app_nil_r.
    + injection Ha as Ha. destruct Hok as [Hnew Hrow].
      destruct (insert_is_call _ _ _ _ _ _ _ Hrows1 Hnew Hrow Ha) as (Hrows2 & res & res' & -> & Hset & Hs).
      split; [done|]. split; [by apply Forall_insert|].
      exists (log' ++ [(elf, info, Ret res')]). split; [by econstructor|].
      apply Forall2_app; [done|]. constructor; [done|constructor].
  - destruct (IH Hrows Hcalls) as (Hrows1 & Hcalls1 & log' & Hat & Hsame).
    split; [by unfold rows_decode; rewrite Heq|]. split; [done|]. exists log'.
    split; [by eapply atomic_other|done].
Qed.

(** ** Properties *)

(** Registrations are linearizable.  However the two database accesses of
    any number of concurrent registrations interleave, the calls that have
    returned did so, in the order of their last accesses, exactly as calls of
    the atomic [set_app] would from the same database: the same applications
    registered, the same panics, the same database, and an error wherever
    that one is refused (only its text may differ: the constraint violation
    of the loser of a race). *)
Theorem registrations_linearize db calls log db' calls' :
  rows_decode db → Forall (λ call, call.2 = RegStart) calls →
  reg_run db calls log db' calls' →
  ∃ log', atomic_run db log' db' ∧ Forall2 same_return log log'.
Proof.
  intros Hrows Hstart Hr. edestruct (reg_run_atomic db calls log db' calls') as (_ & _ & Hlog); [done| |done..].
  eapply Forall_impl; [exact Hstart|]. intros [[elf info] st]. simpl. by intros ->.
Qed.
End Registration.

(** *** Witnesses

    Two registrations of the same ELF that both look it up before either
    inserts. *)

Definition race_calls : list reg_call :=
  [([1; 2; 3], Some "three", RegStart); ([1; 2; 3], Some "three", RegStart)].

Definition race_row : AppRow := mkAppRow (zeros 63 +:+ "3") [3] [] [3] (Some "three").

Definition race_insert : registration := RegInsert three_app race_row.

Definition race_end : list reg_call :=
  [([1; 2; 3], Some "three", RegDone (Ok three_app));
   ([1; 2; 3], Some "three", RegDone (Err "UNIQUE constraint failed: apps.app_id"))].

Lemma race_run :
  reg_run empty_db race_calls
    [([1; 2; 3], Some "three", Ret (Ok three_app));
     ([1; 2; 3], Some "three", Ret (Err "UNIQUE constraint failed: apps.app_id"))]
    three_db race_end.
Proof.
  apply (reg_run_action _ _ [([1; 2; 3], Some "three", Ret (Ok three_app))] three_db
    [([1; 2; 3], Some "three", RegDone (Ok three_app)); ([1; 2; 3], Some "three", race_insert)]
    1 [1; 2; 3] (Some "three") race_insert three_db
    (RegDone (Err "UNIQUE constraint failed: apps.app_id"))); [|reflexivity|vm_compute; reflexivity].
  apply (reg_run_action _ _ [] empty_db
    [([1; 2; 3], Some "three", race_insert); ([1; 2; 3], Some "three", race_insert)]
    0 [1; 2; 3] (Some "three") race_insert three_db (RegDone (Ok three_app)));
    [|reflexivity|vm_compute; reflexivity].
  apply (reg_run_action _ _ [] empty_db
    [([1; 2; 3], Some "three", race_insert); ([1; 2; 3], Some "three", RegStart)]
    1 [1; 2; 3] (Some "three") RegStart empty_db race_insert); [|reflexivity|vm_compute; reflexivity].
  apply (reg_run_action _ _ [] empty_db race_calls 0 [1; 2; 3] (Some "three") RegStart empty_db race_insert);
    [constructor|reflexivity|vm_compute; reflexivity].
Qed.

Lemma registrations_linearize_witness :
  ∃ log', atomic_run empty_db log' three_db ∧ length log' = 2%nat.
Proof.
  refine (_ (registrations_linearize empty_db race_calls _ three_db race_end _ _ race_run)).
  - intros (log' & Hat & Hsame). exists log'. split; [exact Hat|].
    symmetry. exact (Forall2_length _ _ _ Hsame).
  - intros id row E. discriminate E.
  - repeat constructor.
Defined.
