(* ===== verification/CostEstimation.v ===== *)
(** * Cost estimation and its errors ([src/src/cost_estimation.rs], [src/src/error.rs])

    [estimate_cost] runs the emulator under [catch_unwind], sums the
    estimates of the chunks as [usize], and digests the public values to 253
    bits.  The error types and their conversions are those of [error.rs] and
    of the protocol ([proto/]). *)

From S2P Require Import Prelude PicoVM Onchain.

(** ** Errors and responses *)

(** The [ErrCode]s of the protocol. *)
Inductive ErrCode : Type :=
  | OK | INVAL | INTERNAL | PROVING_PENDING | PROVING_FAILED | INPUT_EXCEEDED.

Definition ErrCode_i32 (c : ErrCode) : Z :=
  match c with
  | OK => 0 | INVAL => 1 | INTERNAL => 2 | PROVING_PENDING => 3 | PROVING_FAILED => 4
  | INPUT_EXCEEDED => 5
  end.

Record ErrMsg : Type := mkErrMsg { code : Z; msg : option string }.

Record EstimateCostResponse : Type := mkEstimateCostResponse {
  estimate_err : option ErrMsg;
  estimate_cost_value : Z;
  estimate_pv_digest : bytes;
}.

Inductive PicoError : Type :=
  | ExceededCycleLimit (limit : Z)
  | InternalError (msg : string).

(** [thiserror]'s [Display] *)
Definition PicoError_to_string (e : PicoError) : string :=
  match e with
  | ExceededCycleLimit limit => "input exceeded cycle limit of " +:+ pretty limit
  | InternalError msg => "internal error: " +:+ msg
  end.

Definition EstimateCostResponse_from (e : PicoError) : EstimateCostResponse :=
  match e with
  | ExceededCycleLimit _ =>
      let err := Some (mkErrMsg (ErrCode_i32 INPUT_EXCEEDED) (Some (PicoError_to_string e))) in
      mkEstimateCostResponse err 0 []
  | InternalError _ =>
      let err := Some (mkErrMsg (ErrCode_i32 INTERNAL) (Some (PicoError_to_string e))) in
      mkEstimateCostResponse err 0 []
  end.

(** ** What the code calls *)

Class CostEnv `{PicoVM} : Type := {
  EmulationError : Type;
  (* [EmulationError::ExceededCycleLimit(cycles)] *)
  exceeded_cycle_limit : EmulationError → option Z;
  EmulationError_to_string : EmulationError → string;
  with_cost_estimator : EmulatorOpts → EmulatorOpts;
  with_max_cycles : EmulatorOpts → Z → EmulatorOpts;
  Report : Type;
  Estimator : Type;
  host_cycle_estimator : Report → option (list Estimator);
  emulate_snapshot_pipeline : RiscvWitness →
    foreign (result (list Report * Z * bytes) EmulationError);
  EstimatorModel : Type;
  EstimatorModel_from_json : string → foreign EstimatorModel;
  estimate : Estimator → EstimatorModel → foreign Z;   (* a [usize] *)
  sha256 : bytes → bytes;
}.

(** A SHA-256 digest is 32 bytes. *)
Class Sha256Spec `{CostEnv} : Prop := {
  sha256_length bs : length (sha256 bs) = 32%nat;
  sha256_bytes bs : Forall (λ b, 0 ≤ b < 256) (sha256 bs);
}.

Definition is_byte (b : Z) : Prop := 0 ≤ b < 256.

(** ** [estimate_cost] *)

Section Estimate.
Context `{PicoVM, RustBuild, !CostEnv}.

Record EstimatedInfo : Type := mkEstimatedInfo {
  info_cost : Z;
  info_total_cycles : Z;
  info_pv_digest : Z;
}.

Definition PicoError_from (e : EmulationError) : PicoError :=
  match exceeded_cycle_limit e with
  | Some cycles => ExceededCycleLimit cycles
  | None => InternalError (EmulationError_to_string e)
  end.

(** [.map(|e| e.estimate(&model)).sum::<usize>()] on the estimators of a
    chunk, from [acc]. *)
Fixpoint sum_estimates (model : EstimatorModel) (acc : Z) (es : list Estimator) : outcome Z :=
  match es with
  | [] => Ret acc
  | e :: es =>
      x ← call_foreign (estimate e model);
      acc ← usize_add acc x;
      sum_estimates model acc es
  end.

(** ... on all the reports, flattened lazily. *)
Fixpoint sum_reports (model : EstimatorModel) (acc : Z) (reports : list Report) : outcome Z :=
  match reports with
  | [] => Ret acc
  | r :: reports =>
      es ← unwrap_option "called `Option::unwrap()` on a `None` value" (host_cycle_estimator r);
      acc ← sum_estimates model acc es;
      sum_reports model acc reports
  end.

Definition pv_mask : Z := Z.shiftl 1 253 - 1.

Definition pv_digest_of (pv_stream : bytes) : Z := Z.land (be_value (sha256 pv_stream)) pv_mask.

(** The options of the emulation. *)
Definition estimate_opts (max_cycles : option Z) (cost_estimator : bool) : EmulatorOpts :=
  let opts :=
    if cost_estimator then with_cost_estimator EmulatorOpts_bench_riscv_ops
    else EmulatorOpts_bench_riscv_ops in
  match max_cycles with
  | Some max_cycles => with_max_cycles opts max_cycles
  | None => opts
  end.

(** The closure under [catch_unwind]. *)
Definition estimate_body (program : Program) (pk : BaseProvingKey) (vk : BaseVerifyingKey)
    (inputs : option bytes) (max_cycles : option Z) (cost_estimator : bool) :
    outcome (result EstimatedInfo PicoError) :=
  stdin_builder ←
    match inputs with
    | None => Ret EmulatorStdin_new_builder
    | Some inputs =>
        unwrap_result "called `Result::unwrap()` on an `Err` value"
          (bincode_deserialize_stdin inputs)
    end;
  let stdin := StdinBuilder_finalize stdin_builder in
  let opts := estimate_opts max_cycles cost_estimator in
  let witness := setup_for_riscv program stdin opts pk vk in
  emulated ← call_foreign (emulate_snapshot_pipeline witness);
  match emulated with
  | Err e => Ret (Err (PicoError_from e))
  | Ok (reports, total_cycles, pv_stream) =>
      cost ←
        (if cost_estimator then
           model ← call_foreign (EstimatorModel_from_json "fixtures/model.json");
           sum_reports model 0 reports
         else Ret total_cycles);
      Ret (Ok (mkEstimatedInfo cost total_cycles (pv_digest_of pv_stream)))
  end.

(** [panic::catch_unwind]: the payload is a [Box<dyn Any>], whose [Debug] is
    always [Any { .. }]. *)
Definition catch_unwind {A} (m : outcome A) : result A string :=
  match m with
  | Ret a => Ok a
  | Panic _ => Err "Any { .. }"
  end.

Definition estimate_cost (program : Program) (pk : BaseProvingKey) (vk : BaseVerifyingKey)
    (inputs : option bytes) (max_cycles : option Z) (cost_estimator : bool) :
    result EstimatedInfo PicoError :=
  match catch_unwind (estimate_body program pk vk inputs max_cycles cost_estimator) with
  | Ok (Ok info) => Ok info
  | Ok (Err e) => Err e
  | Err e => Err (InternalError ("panic during cost estimation " +:+ e))
  end.

(** *** Lemmas *)

Lemma land_mask x : 0 ≤ x → Z.land x pv_mask = x mod 2 ^ 253.
Proof.
  intros Hx. unfold pv_mask. rewrite Z.shiftl_1_l.
  change (2 ^ 253 - 1) with (Z.ones 253). by apply Z.land_ones.
Qed.

Lemma be_value_nonneg bs : Forall is_byte bs → 0 ≤ be_value bs.
Proof.
  unfold be_value.
  assert (∀ acc, 0 ≤ acc → Forall is_byte bs → 0 ≤ foldl (λ acc b, acc * 256 + b) acc bs) as Hg.
  { induction bs as [|b bs IH]; intros acc Hacc Hbs; simpl; [done|].
    apply Forall_cons in Hbs as [Hb Hbs]. apply IH; [unfold is_byte in Hb; lia|done]. }
  apply Hg. lia.
Qed.

Lemma pv_digest_bound `{!Sha256Spec} pv : 0 ≤ pv_digest_of pv < 2 ^ 253.
Proof.
  unfold pv_digest_of. rewrite land_mask by (apply be_value_nonneg, sha256_bytes).
  by apply Z.mod_pos_bound.
Qed.

(** The digest of an estimation that goes through. *)
Lemma estimate_digest program pk vk inputs max_cycles cost_estimator info :
  estimate_cost program pk vk inputs max_cycles cost_estimator = Ok info →
  ∃ pv_stream, info_pv_digest info = pv_digest_of pv_stream.
Proof.
  unfold estimate_cost. intros E.
  destruct (estimate_body _ _ _ _ _ _) as [[i|e]|] eqn:Eb; simplify_eq/=.
  unfold estimate_body in Eb. bind_inv Eb. bind_inv Eb.
  destruct a0 as [[[reports cycles] pv]|e]; [|done]. bind_inv Eb. simplify_eq/=. by exists pv.
Qed.

(** The estimates of a report. *)
Definition report_estimates (model : EstimatorModel) (r : Report) (xs : list Z) : Prop :=
  ∃ es, host_cycle_estimator r = Some es ∧
    Forall2 (λ e x, estimate e model = inl x ∧ in_usize x) es xs.

Lemma sum_estimates_release model acc es xs :
  overflow_checks = false → in_usize acc →
  Forall2 (λ e x, estimate e model = inl x ∧ in_usize x) es xs →
  sum_estimates model acc es = Ret ((acc + foldr Z.add 0 xs) mod 2 ^ 64).
Proof.
  intros Hb Hacc HF. revert acc Hacc. induction HF as [|e x es xs [He Hx] HF IH]; intros acc Hacc; simpl.
  - rewrite Z.add_0_r, Z.mod_small; [done|]. unfold in_usize, usize_max in *. lia.
  - rewrite He. simpl. unfold usize_add, checked_width. rewrite Hb.
    case_decide as Hd; simpl.
    + rewrite IH by (unfold in_usize, usize_max; lia). by rewrite Z.add_assoc.
    + rewrite IH.
      * rewrite Zplus_mod_idemp_l. by rewrite Z.add_assoc.
      * pose proof (Z.mod_pos_bound (acc + x) (2 ^ 64)). unfold in_usize, usize_max. lia.
Qed.

Lemma sum_reports_release model acc reports xss :
  overflow_checks = false → in_usize acc →
  Forall2 (report_estimates model) reports xss →
  sum_reports model acc reports = Ret ((acc + foldr Z.add 0 (mjoin xss)) mod 2 ^ 64).
Proof.
  intros Hb Hacc HF. revert acc Hacc.
  induction HF as [|r xs reports xss (es & Hes & Hr) HF IH]; intros acc Hacc; simpl.
  - rewrite Z.add_0_r, Z.mod_small; [done|]. unfold in_usize, usize_max in *. lia.
  - rewrite Hes. simpl. rewrite (sum_estimates_release _ _ _ _ Hb Hacc Hr). simpl.
    rewrite IH.
    + rewrite Zplus_mod_idemp_l, foldr_app.
      assert (Hf : ∀ l y, foldr Z.add y l = foldr Z.add 0 l + y).
      { induction l as [|z l IHl]; intros y; simpl; [lia|]. rewrite IHl. lia. }
      by rewrite (Hf xs (foldr Z.add 0 (mjoin xss))), Z.add_assoc.
    + pose proof (Z.mod_pos_bound (acc + foldr Z.add 0 xs) (2 ^ 64)).
      unfold in_usize, usize_max. lia.
Qed.
End Estimate.

(** ** Properties *)

Section EstimateProperties.
Context `{PicoVM, RustBuild, !CostEnv}.

(** Every panic is caught.  A panic anywhere in the estimation (inputs
    that do not deserialise, the emulator, a missing estimator model, an
    overflow) becomes the internal error with a constant message, an emulation
    error is converted, and anything else is returned as it is. *)
Theorem estimate_cost_total program pk vk inputs max_cycles cost_estimator :
  estimate_cost program pk vk inputs max_cycles cost_estimator =
    match estimate_body program pk vk inputs max_cycles cost_estimator with
    | Ret res => res
    | Panic _ => Err (InternalError "panic during cost estimation Any { .. }")
    end ∧
  (∀ bs msg, inputs = Some bs → bincode_deserialize_stdin bs = Err msg →
     estimate_cost program pk vk inputs max_cycles cost_estimator =
       Err (InternalError "panic during cost estimation Any { .. }")).
Proof.
  unfold estimate_cost. split.
  - by destruct (estimate_body _ _ _ _ _ _) as [[]|].
  - intros bs msg -> E. unfold estimate_body. by rewrite E.
Qed.

(** The digest of the public values fits in 253 bits: it is the SHA-256
    digest, as a big-endian integer, modulo [2^253], and the 32 bytes of the
    response give it back. *)
Theorem pv_digest_253_bits `{!AlloyU256, !AlloyU256Spec, !Sha256Spec}
    program pk vk inputs max_cycles cost_estimator info :
  estimate_cost program pk vk inputs max_cycles cost_estimator = Ok info →
  0 ≤ info_pv_digest info < 2 ^ 253 ∧
  (∃ pv_stream, info_pv_digest info = be_value (sha256 pv_stream) mod 2 ^ 253) ∧
  length (U256_to_be_bytes_vec (info_pv_digest info)) = 32%nat ∧
  be_value (U256_to_be_bytes_vec (info_pv_digest info)) = info_pv_digest info.
Proof.
  intros [pv Hpv]%estimate_digest.
  pose proof (pv_digest_bound pv) as Hb. rewrite Hpv.
  assert (Hu : is_u256 (pv_digest_of pv)) by (unfold is_u256; lia).
  split; [done|]. split.
  { exists pv. apply land_mask, be_value_nonneg, sha256_bytes. }
  rewrite U256_be by done. split; [apply be_bytes_length|].
  apply be_value_bytes. unfold is_u256 in Hu. change (256 ^ Z.of_nat 32) with (2 ^ 256). lia.
Qed.

(** C39: the cost is the sum of the estimates of all the chunks modulo [2^64]
    in a release build: exact while the sum fits a [usize], wrapped around
    beyond. *)
Theorem cost_is_sum_mod program pk vk inputs max_cycles reports cycles pv model xss stdin_builder :
  overflow_checks = false →
  match inputs with
  | None => stdin_builder = EmulatorStdin_new_builder
  | Some bs => bincode_deserialize_stdin bs = Ok stdin_builder
  end →
  emulate_snapshot_pipeline (setup_for_riscv program (StdinBuilder_finalize stdin_builder)
    (estimate_opts max_cycles true) pk vk) = inl (Ok (reports, cycles, pv)) →
  EstimatorModel_from_json "fixtures/model.json" = inl model →
  Forall2 (report_estimates model) reports xss →
  estimate_cost program pk vk inputs max_cycles true =
    Ok (mkEstimatedInfo (foldr Z.add 0 (mjoin xss) mod 2 ^ 64) cycles (pv_digest_of pv)).
Proof.
  intros Hb Hin Hem Hm HF. unfold estimate_cost, estimate_body.
  assert (Hs : match inputs with
    | None => Ret EmulatorStdin_new_builder
    | Some inputs => unwrap_result "called `Result::unwrap()` on an `Err` value"
                       (bincode_deserialize_stdin inputs)
    end = Ret stdin_builder) by (destruct inputs; [by rewrite Hin|by subst]).
  rewrite Hs. simpl. rewrite Hem. simpl. rewrite Hm. simpl.
  assert (H0' : in_usize 0) by (unfold in_usize, usize_max; lia).
  by rewrite (sum_reports_release _ _ _ _ Hb H0' HF).
Qed.

End EstimateProperties.

(** ** A concrete environment *)

(** The emulation of [n] chunks reports an estimate of 7 for each; a negative
    [n] is over the limit. *)
#[export] Instance symbolic_cost_env : @CostEnv symbolic_pico := {|
  EmulationError := option Z;
  exceeded_cycle_limit e := e;
  EmulationError_to_string _ := "unexpected";
  with_cost_estimator opts := opts;
  with_max_cycles opts _ := opts;
  Report := option (list Z);
  Estimator := Z;
  host_cycle_estimator r := r;
  emulate_snapshot_pipeline n :=
    inl (if decide (n < 0) then Err (Some n)
         else Ok (replicate (Z.to_nat n) (Some [7]), n, [n]));
  EstimatorModel := unit;
  EstimatorModel_from_json _ := inl tt;
  estimate e _ := inl e;
  sha256 bs := replicate 31 255 ++ [Z.of_nat (length bs) mod 256];
|}.

#[export] Instance symbolic_sha256 : @Sha256Spec symbolic_pico symbolic_cost_env.
Proof.
  split; intros bs; [done|].
  apply Forall_app. split; [by apply Forall_replicate|].
  constructor; [|done]. apply Z.mod_pos_bound. lia.
Qed.

#[local] Existing Instance release_build.

Lemma estimate_cost_total_witness :
  @estimate_cost symbolic_pico _ _ 2 tt 2 (Some []) None true =
    Err (InternalError "panic during cost estimation Any { .. }").
Proof. exact (proj2 (@estimate_cost_total symbolic_pico _ _ 2 tt 2 (Some []) None true) [] _ eq_refl eq_refl). Defined.

Lemma pv_digest_253_bits_witness :
  0 ≤ be_value (replicate 31 255 ++ [1]) mod 2 ^ 253 < 2 ^ 253.
Proof.
  exact (proj1 (@pv_digest_253_bits symbolic_pico _ _ _ _ _ 2 tt 2 None None true
    (mkEstimatedInfo 14 2 (be_value (replicate 31 255 ++ [1]) mod 2 ^ 253)) eq_refl)).
Defined.

Lemma cost_is_sum_mod_witness :
  @estimate_cost symbolic_pico _ _ 2 tt 2 None None true =
    Ok (mkEstimatedInfo 14 2 (@pv_digest_of symbolic_pico _ [2])).
Proof.
  apply (@cost_is_sum_mod symbolic_pico release_build symbolic_cost_env 2 tt 2 None None [Some [7]; Some [7]] 2 [2] tt
    [[7]; [7]] []); try reflexivity.
  repeat constructor; (exists [7]; split; [reflexivity|]); repeat constructor; done.
Defined.
