(* ===== verification/Auth.v ===== *)
(** * Authentication ([src/src/utils/auth.rs], [src/src/config.rs])

    The bearer-token interceptors of the server and of the client, for any
    configuration that implements [AuthConfig].  The metadata of a request
    ([tonic]) is an interface. *)

From S2P Require Import Prelude.

(** ** What the code uses of [tonic] *)

Class Tonic : Type := {
  MetadataValue : Type;
  MetadataValue_eq_dec : EqDecision MetadataValue;
  MetadataValue_parse : string → option MetadataValue;      (* [str::parse] *)
  Metadata : Type;
  metadata_new : Metadata;                                   (* of a fresh request *)
  metadata_get : Metadata → string → option MetadataValue;
  metadata_insert : Metadata → string → MetadataValue → Metadata;
}.

(** A fresh request has no metadata; [insert] sets the value [get] returns for the key, and no other; parsing
    keeps the text, so two texts are never the same value. *)
Class TonicSpec `{Tonic} : Prop := {
  metadata_get_new k : metadata_get metadata_new k = None;
  metadata_get_insert md k v : metadata_get (metadata_insert md k v) k = Some v;
  metadata_get_insert_ne md k k' v :
    k ≠ k' → metadata_get (metadata_insert md k v) k' = metadata_get md k';
  MetadataValue_parse_inj s s' v :
    MetadataValue_parse s = Some v → MetadataValue_parse s' = Some v → s = s';
}.

#[export] Existing Instance MetadataValue_eq_dec.

(** [tonic::Status]: the code and the message. *)
Inductive Status : Type :=
  | Unauthenticated (msg : string)
  | NotFound (msg : string)
  | Internal (msg : string).

(** ** Configuration *)

Inductive AuthMethod : Type := AuthMethod_None | AuthMethod_Bearer.

(** The trait [AuthConfig]: its two required methods. *)
Class AuthConfig (A : Type) : Type := {
  auth_method : A → AuthMethod;
  bearer_token : A → option string;
}.

Record ServiceConfig : Type := mkServiceConfig {
  db_url : string;
  grpc_addr : string;
  cfg_auth_method : AuthMethod;
  cfg_bearer_token : option string;
  max_grpc_msg_size : Z;
  prover_count : Z;
  max_emulation_cycles : option Z;
}.

(** [impl_auth_config!(ServiceConfig)] *)
#[export] Instance service_auth_config : AuthConfig ServiceConfig := {|
  auth_method := cfg_auth_method;
  bearer_token := cfg_bearer_token;
|}.

Section Auth.
Context `{Tonic, AuthConfig A}.

(** The provided methods. *)
Definition validate_auth (self : A) : result unit string :=
  match auth_method self with
  | AuthMethod_None => Ok tt
  | AuthMethod_Bearer =>
      match bearer_token self with
      | None => Err "Bearer token must be provided when auth_method is 'bearer'."
      | Some _ => Ok tt
      end
  end.

(** The token as a header value, or the status it is refused with. *)
Definition bearer_value (token : option string) : result MetadataValue Status :=
  match token with
  | None => Err (Unauthenticated "Bearer token not configured")
  | Some expected =>
      match MetadataValue_parse ("Bearer " +:+ expected) with
      | None => Err (Unauthenticated "Invalid token format")
      | Some v => Ok v
      end
  end.

Definition server_auth_interceptor (self : A) (req : Metadata) : result Metadata Status :=
  match auth_method self with
  | AuthMethod_None => Ok req
  | AuthMethod_Bearer =>
      match bearer_value (bearer_token self) with
      | Err e => Err e
      | Ok expected_token =>
          match metadata_get req "authorization" with
          | Some t =>
              if decide (t = expected_token) then Ok req
              else Err (Unauthenticated "Invalid or missing auth token")
          | None => Err (Unauthenticated "Invalid or missing auth token")
          end
      end
  end.

Definition client_auth_interceptor (self : A) (req : Metadata) : result Metadata Status :=
  match auth_method self with
  | AuthMethod_None => Ok req
  | AuthMethod_Bearer =>
      match bearer_value (bearer_token self) with
      | Err e => Err e
      | Ok header => Ok (metadata_insert req "authorization" header)
      end
  end.
End Auth.

Definition ServiceConfig_validate (self : ServiceConfig) : result unit string :=
  validate_auth self.

(** ** Properties *)

Section AuthProperties.
Context `{Tonic, !TonicSpec, AuthConfig A, AuthConfig B}.

(** The interceptor passes the request on as it is. *)
Lemma interceptor_same (self : A) req req' : server_auth_interceptor self req = Ok req' → req' = req.
Proof. unfold server_auth_interceptor. repeat case_match; congruence. Qed.

(** The requests a server with a bearer token accepts. *)
Lemma bearer_interceptor (self : A) req :
  auth_method self = AuthMethod_Bearer →
  (server_auth_interceptor self req = Ok req ↔
     ∃ token v, bearer_token self = Some token ∧
       MetadataValue_parse ("Bearer " +:+ token) = Some v ∧
       metadata_get req "authorization" = Some v) ∧
  (server_auth_interceptor self req ≠ Ok req →
     ∃ msg, server_auth_interceptor self req = Err (Unauthenticated msg)).
Proof.
  intros Hm. unfold server_auth_interceptor, bearer_value. rewrite Hm. split.
  - destruct (bearer_token self) as [token|]; [|split; [done|by intros (? & ? & ? & _)]].
    destruct (MetadataValue_parse _) as [v|] eqn:Ev; [|split; [done|]].
    + destruct (metadata_get req "authorization") as [t|] eqn:Et; [|split; [done|]].
      * case_decide as Ht; [subst|split; [done|]].
        -- split; [|done]. intros _. by exists token, v.
        -- intros (token' & v' & Htok & Hv & Hg). congruence.
      * by intros (? & ? & _ & _ & ?).
    + intros (token' & v' & Htok & Hv & _). congruence.
  - destruct (bearer_token self) as [token|]; [|by eexists].
    destruct (MetadataValue_parse _) as [v|]; [|by eexists].
    destruct (metadata_get req "authorization"); [|by eexists]. case_decide; [done|by eexists].
Qed.

(** C40: a server with a bearer token lets exactly the requests through that
    carry [Bearer <token>] as their [authorization], unchanged, and answers
    every other one with an unauthenticated status; it never lets a request
    through when it has no token. *)
Theorem server_auth_exact (self : A) req :
  auth_method self = AuthMethod_Bearer →
  (server_auth_interceptor self req = Ok req ↔
     ∃ token v, bearer_token self = Some token ∧
       MetadataValue_parse ("Bearer " +:+ token) = Some v ∧
       metadata_get req "authorization" = Some v) ∧
  (server_auth_interceptor self req ≠ Ok req →
     ∃ msg, server_auth_interceptor self req = Err (Unauthenticated msg)).
Proof. apply bearer_interceptor. Qed.

(** A client and a server that bear the same token understand each
    other, whatever the request carried before; a client with another token
    is refused. *)
Theorem client_server_auth (client : A) (server : B) req req' :
  auth_method client = AuthMethod_Bearer → auth_method server = AuthMethod_Bearer →
  client_auth_interceptor client req = Ok req' →
  is_ok (bearer_value (bearer_token server)) = true →
  (server_auth_interceptor server req' = Ok req' ↔ bearer_token client = bearer_token server).
Proof.
  intros Hc Hs. unfold client_auth_interceptor, server_auth_interceptor. rewrite Hc, Hs.
  unfold bearer_value. destruct (bearer_token client) as [tc|]; [|done].
  destruct (MetadataValue_parse ("Bearer " +:+ tc)) as [vc|] eqn:Ec; [|done].
  intros [= <-] Hok. destruct (bearer_token server) as [ts|]; [|done].
  destruct (MetadataValue_parse ("Bearer " +:+ ts)) as [vs|] eqn:Es; [|done].
  rewrite metadata_get_insert. case_decide as Hv.
  - subst. split; [|done]. intros _.
    pose proof (MetadataValue_parse_inj _ _ _ Ec Es) as E. by apply (inj (String.append "Bearer ")) in E as ->.
  - split; [done|]. intros [= ->]. congruence.
Qed.

End AuthProperties.

(** ** A concrete metadata map *)

#[export] Instance gmap_tonic : Tonic := {|
  MetadataValue := string;
  MetadataValue_eq_dec := String.eq_dec;
  MetadataValue_parse := Some;
  Metadata := gmap string string;
  metadata_new := ∅;
  metadata_get md k := md !! k;
  metadata_insert md k v := <[k := v]> md;
|}.

#[export] Instance gmap_tonic_spec : TonicSpec.
Proof.
  split; simpl.
  - intros. by rewrite lookup_empty.
  - intros. by rewrite lookup_insert_eq.
  - intros. by rewrite lookup_insert_ne.
  - by intros s s' v [= ->] [= ->].
Qed.

Definition bearer_config (token : option string) : ServiceConfig :=
  mkServiceConfig "" "" AuthMethod_Bearer token 0 1 None.

Lemma server_auth_exact_witness :
  server_auth_interceptor (bearer_config (Some "t")) {["authorization" := "Bearer t"]} =
    Ok {["authorization" := "Bearer t"]}.
Proof.
  refine (proj2 (proj1 (server_auth_exact (bearer_config (Some "t"))
    {["authorization" := "Bearer t"]} _)) _); [reflexivity|].
  exists "t", "Bearer t". done.
Defined.

Lemma client_server_auth_witness :
  server_auth_interceptor (bearer_config (Some "t"))
    (metadata_insert (∅ : gmap string string) "authorization" "Bearer t") =
    Ok (metadata_insert (∅ : gmap string string) "authorization" "Bearer t").
Proof.
  refine (proj2 (client_server_auth (bearer_config (Some "t")) (bearer_config (Some "t")) ∅ _ _ _ _ _) _);
    reflexivity.
Defined.
