(* ===== verification/ProvingQueue.v ===== *)
(** * The proving queue ([src/src/proving_queue.rs])

    One loop takes the proving tasks in order, runs [prove_task] on each and
    keeps the proof twice: in the in-memory map of outputs and in the
    database.  The three effects are separate steps, between which the
    handlers of the gRPC service run. *)

From S2P Require Import Prelude PicoVM Messages Task Provers Worker Channel Onchain Emulator.
From S2P Require Import Gateway Pipeline Database.

(** [ProvingOutputs = DashMap<ProvingKey, ProvingOutput>] *)
Abbreviation ProvingOutputs := (gmap ProvingKey ProvingOutput).

Definition pop_output (outputs : ProvingOutputs) (key : ProvingKey) :
    ProvingOutputs * option ProvingOutput :=
  (delete key outputs, outputs !! key).

Definition store_proof_in_db `{Database D} (db : D) (key : ProvingKey) (proof : bytes) :
    result D string :=
  replace_proof db (key_app_id key) (key_task_id key) proof.

Section Queue.
Context `{PicoVM, RustBuild, !GnarkEnv, AlloyU256, Chan C, Database D}.

(** Where the loop stands.  [QPanicked]: [prove_task] unwound, and with it
    the spawned loop. *)
Inductive queue_status : Type :=
  | QWaiting
  | QProving (task : ProvingTask)
  | QStoring (key : ProvingKey) (proof : bytes)
  | QPanicked (p : panic).

(** What the loop shares with the service. *)
Record shared : Type := mkShared {
  sh_outputs : ProvingOutputs;
  sh_db : D;
  sh_tasks : C ProvingTask;
  sh_queue : queue_status;
}.

Definition set_queue (s : shared) (q : queue_status) : shared :=
  mkShared (sh_outputs s) (sh_db s) (sh_tasks s) q.

(** What the loop does with the result of [prove_task] before the database. *)
Definition queue_proved (s : shared) (key : ProvingKey) (res : outcome (result bytes string)) :
    shared :=
  match res with
  | Ret (Ok proof_bytes) =>
      mkShared (<[key := mkProvingOutput proof_bytes]> (sh_outputs s)) (sh_db s) (sh_tasks s)
        (QStoring key proof_bytes)
  | Ret (Err _) => set_queue s QWaiting
  | Panic p => set_queue s (QPanicked p)
  end.

(** A failure to store is logged and dropped. *)
Definition queue_stored (s : shared) (key : ProvingKey) (proof : bytes) : shared :=
  mkShared (sh_outputs s)
    (match store_proof_in_db (sh_db s) key proof with Ok db => db | Err _ => sh_db s end)
    (sh_tasks s) QWaiting.

Inductive queue_step (prover_count : nat) : shared → shared → Prop :=
  | queue_step_recv s task tasks :
      sh_queue s = QWaiting → ch_recv (sh_tasks s) = Some (task, tasks) →
      queue_step prover_count s (mkShared (sh_outputs s) (sh_db s) tasks (QProving task))
  | queue_step_proved s task res :
      sh_queue s = QProving task → prove_task (C := C) task prover_count res →
      queue_step prover_count s (queue_proved s (task_key task) res)
  | queue_step_stored s key proof :
      sh_queue s = QStoring key proof →
      queue_step prover_count s (queue_stored s key proof).

(** *** Panics of [prove_task] *)

(** A GPU task has no other outcome than the panic of the CUDA prover. *)
Lemma prove_task_gpu task n res :
  task_use_gpu task = true → (0 < n)%nat → prove_task (C := C) task n res →
  res = panic_with "not implemented".
Proof.
  intros Hg Hn Hp. destruct Hp as [p _ _ Ep|p Hor Ep|e cap fuel recs msg Hor Es E
    |e cap fuel recs s res Hor Es E Hr Hpn Hres].
  - unfold Prover_new_cuda in Ep. by injection Ep as <-.
  - destruct Hor; [congruence|lia].
  - destruct Hor; [congruence|lia].
  - destruct Hor; [congruence|lia].
Qed.

(** Inputs that do not deserialise panic before any proving starts. *)
Lemma prove_task_bad_inputs task n res bs e :
  task_use_gpu task = false → task_inputs task = Some bs → bincode_deserialize_stdin bs = Err e →
  prove_task (C := C) task n res →
  res = panic_with "called `Result::unwrap()` on an `Err` value".
Proof.
  intros Hg Hin He Hp.
  assert (Hs : emulator_setup task = panic_with "called `Result::unwrap()` on an `Err` value").
  { unfold emulator_setup. by rewrite Hin, He. }
  destruct Hp as [p Hg' _ Ep|p Hor Ep|e' cap fuel recs msg Hor Es E
    |e' cap fuel recs s res Hor Es E Hr Hpn Hres];
    unfold panic_with in *; congruence.
Qed.
End Queue.

Arguments shared {_} C D.
