(* ===== verification/Grpc.v ===== *)
(** * The gRPC handlers ([src/src/grpc.rs])

    The four methods of [GrpcService], on the state they share with the
    proving queue.  A handler returns its response or a [Status]; its panic
    takes the request down, not the service. *)

From S2P Require Import Prelude PicoVM Messages Task Provers Worker Channel Onchain Emulator.
From S2P Require Import Gateway Pipeline Database AppManager CostEstimation Auth ProvingQueue.

(** ** Requests and responses (the protocol of [proto/]) *)

Record RegisterAppRequest : Type := mkRegisterAppRequest {
  register_elf : bytes;
  register_info : option string;
}.

Record RegisterAppResponse : Type := mkRegisterAppResponse {
  register_err : option ErrMsg;
  register_app_id : string;
}.

Record EstimateCostRequest : Type := mkEstimateCostRequest {
  estimate_app_id : string;
  estimate_inputs : option bytes;
}.

Record ProveTaskRequest : Type := mkProveTaskRequest {
  prove_app_id : string;
  prove_task_id : string;
  prove_inputs : option bytes;
  prove_use_gpu : option bool;
}.

Record ProveTaskResponse : Type := mkProveTaskResponse { prove_err : option ErrMsg }.

Record GetProvingResultRequest : Type := mkGetProvingResultRequest {
  result_app_id : string;
  result_task_id : string;
}.

Record GetProvingResultResponse : Type := mkGetProvingResultResponse {
  result_err : option ErrMsg;
  result_proof : option bytes;
}.

(** The four methods of the service, with their request and response. *)
Inductive rpc_request : Type :=
  | Rpc_RegisterApp (req : RegisterAppRequest)
  | Rpc_EstimateCost (req : EstimateCostRequest)
  | Rpc_ProveTask (req : ProveTaskRequest)
  | Rpc_GetProvingResult (req : GetProvingResultRequest).

Inductive rpc_response : Type :=
  | Resp_RegisterApp (res : RegisterAppResponse)
  | Resp_EstimateCost (res : EstimateCostResponse)
  | Resp_ProveTask (res : ProveTaskResponse)
  | Resp_GetProvingResult (res : GetProvingResultResponse).

Section Grpc.
Context `{PicoVM, RustBuild, !GnarkEnv, AlloyU256, !AppEnv, !CostEnv}.
Context `{!Bincode Program, !Bincode BaseProvingKey, !Bincode BaseVerifyingKey}.
Context `{Chan C, Database D}.
Context (cfg : ServiceConfig).

Implicit Types s : shared C D.

Definition with_db s (db : D) : shared C D :=
  mkShared (sh_outputs s) db (sh_tasks s) (sh_queue s).

Definition register_app s (req : RegisterAppRequest) :
    outcome (shared C D * result RegisterAppResponse Status) :=
  '(db, app) ← set_app (sh_db s) (register_elf req) (register_info req);
  match app with
  | Err e => Ret (with_db s db, Err (Internal ("failed to register app: " +:+ e)))
  | Ok app => Ret (with_db s db, Ok (mkRegisterAppResponse None (app_app_id app)))
  end.

(** The lookup the other two handlers start with. *)
Definition find_app s (app_id : string) : outcome (result App Status) :=
  found ← get_app (sh_db s) app_id;
  Ret (match found with
       | Err e => Err (Internal ("failed to get app: " +:+ e))
       | Ok None => Err (NotFound ("cannot find app " +:+ app_id))
       | Ok (Some app) => Ok app
       end).

Definition estimate_cost_handler s (req : EstimateCostRequest) :
    outcome (result EstimateCostResponse Status) :=
  app ←? find_app s (estimate_app_id req);
  Ret (Ok (match estimate_cost (app_program app) (app_pk app) (app_vk app)
                   (estimate_inputs req) (max_emulation_cycles cfg) true with
           | Ok info => mkEstimateCostResponse None (info_cost info)
                          (U256_to_be_bytes_vec (info_pv_digest info))
           | Err e => EstimateCostResponse_from e
           end)).

(** The task of a request for a given application. *)
Definition request_task (req : ProveTaskRequest) (app : App) : ProvingTask :=
  let key := mkProvingKey (prove_app_id req) (prove_task_id req) in
  let use_gpu := match prove_use_gpu req with Some b => b | None => false end in
  mkProvingTask key (app_program app) (app_pk app) (app_vk app) (prove_inputs req) use_gpu.

Definition prove_task_handler s (req : ProveTaskRequest) :
    outcome (shared C D * result ProveTaskResponse Status) :=
  found ← find_app s (prove_app_id req);
  match found with
  | Err e => Ret (s, Err e)
  | Ok app =>
      Ret (mkShared (sh_outputs s) (sh_db s) (ch_send (sh_tasks s) (request_task req app))
             (sh_queue s),
           Ok (mkProveTaskResponse None))
  end.

Definition get_proving_result s (req : GetProvingResultRequest) :
    shared C D * result GetProvingResultResponse Status :=
  let key := mkProvingKey (result_app_id req) (result_task_id req) in
  (* first from memory (removed), then from the database *)
  match pop_output (sh_outputs s) key with
  | (outputs, Some output) =>
      (mkShared outputs (sh_db s) (sh_tasks s) (sh_queue s),
       Ok (mkGetProvingResultResponse None (Some (output_proof output))))
  | (_, None) =>
      (s, match select_proof (sh_db s) (key_app_id key) (key_task_id key) with
          | Err e => Err (Internal ("failed to get proof from database: " +:+ e))
          | Ok row => Ok (mkGetProvingResultResponse None
                        (match row with Some proof => proof | None => None end))
          end)
  end.

(** The panic a handler takes its request down with: all of them come before
    the handler has changed anything. *)
Definition panic_of {A} (m : outcome A) : option panic :=
  match m with Ret _ => None | Panic p => Some p end.

Definition handler_panic s (req : rpc_request) : option panic :=
  match req with
  | Rpc_RegisterApp req => panic_of (register_app s req)
  | Rpc_EstimateCost req => panic_of (estimate_cost_handler s req)
  | Rpc_ProveTask req => panic_of (prove_task_handler s req)
  | Rpc_GetProvingResult _ => None
  end.

(** ** The service *)

(** The service as the server builds it ([bin/server.rs]), on a database. *)
Definition service_init (db : D) : shared C D := mkShared ∅ db ch_new QWaiting.

Inductive event : Type :=
  | EvRegister (req : RegisterAppRequest) (res : result RegisterAppResponse Status)
  | EvEstimate (req : EstimateCostRequest) (res : result EstimateCostResponse Status)
  | EvProve (req : ProveTaskRequest) (res : result ProveTaskResponse Status)
  | EvGet (req : GetProvingResultRequest) (res : result GetProvingResultResponse Status)
  | EvPanic (req : rpc_request) (p : panic)
  | EvQueue.

(** A step of the service: a handler serves a request or panics on it, or the
    queue moves. *)
Inductive service_step : shared C D → event → shared C D → Prop :=
  | step_register s req s' res :
      register_app s req = Ret (s', res) → service_step s (EvRegister req res) s'
  | step_estimate s req res :
      estimate_cost_handler s req = Ret res → service_step s (EvEstimate req res) s
  | step_prove s req s' res :
      prove_task_handler s req = Ret (s', res) → service_step s (EvProve req res) s'
  | step_get s req s' res :
      get_proving_result s req = (s', res) → service_step s (EvGet req res) s'
  | step_panic s req p :
      handler_panic s req = Some p → service_step s (EvPanic req p) s
  | step_queue s s' :
      queue_step (C := C) (Z.to_nat (prover_count cfg)) s s' → service_step s EvQueue s'.

Inductive service_run : shared C D → list event → shared C D → Prop :=
  | run_nil s : service_run s [] s
  | run_snoc s tr s1 ev s2 :
      service_run s tr s1 → service_step s1 ev s2 → service_run s (tr ++ [ev]) s2.

(** An invariant of the states and of the history. *)
Lemma service_run_inv (I : list event → shared C D → Prop) s tr s' :
  I [] s → (∀ tr s1 ev s2, I tr s1 → service_step s1 ev s2 → I (tr ++ [ev]) s2) →
  service_run s tr s' → I tr s'.
Proof. intros Hinit Hs Hr. revert Hinit Hs. induction Hr; eauto. Qed.
End Grpc.
