(* ===== verification/Service.v ===== *)
(** * The service end to end

    Invariants of the runs of [Grpc.v]: where a returned proof comes from,
    which proofs stay available, and what a panic of the queue leaves. *)

From S2P Require Import Prelude PicoVM Messages Task Provers Worker Channel Onchain Emulator.
From S2P Require Import Gateway Pipeline PipelineInv PipelineLive Database AppManager CostEstimation Auth.
From S2P Require Import ProvingQueue Grpc.

Section Service.
Context `{PicoVM, RustBuild, !GnarkEnv, AlloyU256, !AppEnv, !CostEnv}.
Context `{!Bincode Program, !Bincode BaseProvingKey, !Bincode BaseVerifyingKey}.
Context `{!BincodeSpec Program, !BincodeSpec BaseProvingKey, !BincodeSpec BaseVerifyingKey}.
Context `{!AppEnvSpec, FifoChan C, DatabaseSpec D}.
Context (cfg : ServiceConfig).

Implicit Types s : shared C D.
Implicit Types tr : list event.

Local Abbreviation workers_of := (Z.to_nat (prover_count cfg)).

(** ** Provenance *)

(** The history registered [app]. *)
Definition registered tr (app : App) : Prop :=
  ∃ elf info, App_new elf info = Ret app ∧
    EvRegister (mkRegisterAppRequest elf info)
      (Ok (mkRegisterAppResponse None (app_app_id app))) ∈ tr.

(** The history accepted [task], for a registered application named by the
    request with or without [0x]. *)
Definition accepted tr (task : ProvingTask) : Prop :=
  ∃ req app, task = request_task req app ∧ EvProve req (Ok (mkProveTaskResponse None)) ∈ tr ∧
    registered tr app ∧ strip_0x (prove_app_id req) = app_app_id app.

(** [proof] is what [prove_task] returned for an accepted task of that key. *)
Definition proved_for tr (key : ProvingKey) (proof : bytes) : Prop :=
  ∃ task, accepted tr task ∧ task_key task = key ∧
    prove_task (C := C) task workers_of (Ret (Ok proof)).

Record svc_inv tr s : Prop := {
  svc_apps id row : db_apps (sh_db s) !! id = Some row →
    ∃ app, registered tr app ∧ AppRow_from app = Ret row ∧ app_app_id app = id;
  svc_tasks : Forall (accepted tr) (ch_contents (sh_tasks s));
  svc_queue :
    match sh_queue s with
    | QProving task => accepted tr task
    | QStoring key proof => proved_for tr key proof
    | _ => True
    end;
  svc_outputs key out : sh_outputs s !! key = Some out → proved_for tr key (output_proof out);
  svc_proofs a t proof : db_proofs (sh_db s) !! (a, t) = Some (Some proof) →
    proved_for tr (mkProvingKey a t) proof;
  svc_proof_row a t row : db_proofs (sh_db s) !! (a, t) = Some row →
    is_Some row ∧ is_Some (db_apps (sh_db s) !! a);
}.

(** The history only grows. *)
Lemma registered_more tr ev app : registered tr app → registered (tr ++ [ev]) app.
Proof.
  intros (elf & info & En & Hin). exists elf, info. split; [done|]. apply elem_of_app. by left.
Qed.

Lemma accepted_more tr ev task : accepted tr task → accepted (tr ++ [ev]) task.
Proof.
  intros (req & app & -> & Hin & Hr & Hid). exists req, app. split; [done|].
  split; [apply elem_of_app; by left|]. split; [by apply registered_more|done].
Qed.

Lemma proved_more tr ev key proof : proved_for tr key proof → proved_for (tr ++ [ev]) key proof.
Proof. intros (task & Ha & Hk & Hp). exists task. split; [by apply accepted_more|done]. Qed.

Hint Resolve registered_more accepted_more proved_more : core.

Lemma svc_inv_more tr ev s : svc_inv tr s → svc_inv (tr ++ [ev]) s.
Proof.
  intros [Happs Htasks Hq Hout Hpr Hfk]. split; eauto.
  - intros id row Hrow. destruct (Happs _ _ Hrow) as (app & ? & ? & ?). exists app. auto.
  - eapply Forall_impl; [exact Htasks|]. auto.
  - destruct (sh_queue s); auto.
Qed.

(** The database of the applications changes by one row. *)
Lemma register_inv tr s req s' res :
  svc_inv tr s → register_app s req = Ret (s', res) → svc_inv (tr ++ [EvRegister req res]) s'.
Proof.
  intros Hinv E. unfold register_app in E. bind_inv E. destruct a as [db app].
  apply set_app_inv in E0. apply (svc_inv_more _ (EvRegister req res)) in Hinv as Hinv'.
  destruct app as [app|e]; injection E as <- <-.
  - destruct E0 as (En & row & Er & Ei). destruct Hinv' as [Happs Htasks Hq Hout Hpr Hfk].
    pose proof (row_roundtrip _ _ Er) as [_ Hid].
    split; auto; simpl.
    + intros id row' Hrow. rewrite (insert_app_select _ _ _ _ Ei) in Hrow.
      case_decide as Hd; [|by apply Happs]. injection Hrow as <-.
      exists app. split; [|split; congruence]. exists (register_elf req), (register_info req).
      split; [done|]. apply elem_of_app. right. destruct req. by left.
    + intros a t proof. apply insert_app_ok in Ei as (_ & _ & ->). by apply Hpr.
    + intros a t row' Hrow. apply insert_app_ok in Ei as Ei'. destruct Ei' as (_ & _ & Edp).
      rewrite Edp in Hrow. rewrite (insert_app_select _ _ _ _ Ei).
      destruct (Hfk _ _ _ Hrow). split; [done|]. by case_decide.
  - subst db. by destruct Hinv'.
Qed.

(** The application a handler finds has a row. *)
Lemma find_app_row s id app :
  find_app s id = Ret (Ok app) → is_Some (db_apps (sh_db s) !! strip_0x id).
Proof.
  intros E. unfold find_app in E. bind_inv E. destruct a as [[app'|]|e]; simplify_eq.
  apply get_app_found in E0 as (row & Hrow & _). by exists row.
Qed.

(** The application a handler finds is a registered one. *)
Lemma find_app_registered tr s id app :
  svc_inv tr s → find_app s id = Ret (Ok app) →
  registered tr app ∧ strip_0x id = app_app_id app.
Proof.
  intros Hinv E. unfold find_app in E. bind_inv E. destruct a as [[app'|]|e]; simplify_eq.
  apply get_app_found in E0 as (row & Hrow & Ha).
  destruct (svc_apps _ _ Hinv _ _ Hrow) as (app0 & Hreg & Hr & Hid).
  destruct (row_roundtrip _ _ Hr) as [Hr' _]. rewrite Ha in Hr'. injection Hr' as ->. done.
Qed.

Lemma prove_inv tr s req s' res :
  svc_inv tr s → prove_task_handler s req = Ret (s', res) →
  svc_inv (tr ++ [EvProve req res]) s'.
Proof.
  intros Hinv E. unfold prove_task_handler in E. bind_inv E.
  destruct a as [app|e]; injection E as <- <-; [|by apply svc_inv_more].
  destruct (find_app_registered _ _ _ _ Hinv E0) as [Hreg Hid].
  apply (svc_inv_more _ (EvProve req (Ok (mkProveTaskResponse None)))) in Hinv as Hinv'.
  destruct Hinv' as [Happs Htasks Hq Hout Hpr Hfk]. split; auto. simpl.
  rewrite ch_send_contents. apply Forall_app. split; [done|]. constructor; [|done].
  exists req, app. split; [done|]. split; [apply elem_of_app; right; by left|]. auto.
Qed.

Lemma get_inv tr s req s' res :
  svc_inv tr s → get_proving_result s req = (s', res) → svc_inv (tr ++ [EvGet req res]) s'.
Proof.
  intros Hinv E. apply (svc_inv_more _ (EvGet req res)) in Hinv as Hinv'.
  unfold get_proving_result, pop_output in E.
  destruct (sh_outputs s !! _) as [out|] eqn:Eo; injection E as <- Er; [|done].
  destruct Hinv' as [Happs Htasks Hq Hout Hpr Hfk]. split; auto. simpl.
  intros key out' Hk. apply lookup_delete_Some in Hk as [_ Hk]. eauto.
Qed.

Lemma queue_inv tr s s' :
  svc_inv tr s → queue_step (C := C) workers_of s s' → svc_inv (tr ++ [EvQueue]) s'.
Proof.
  intros Hinv%(svc_inv_more _ EvQueue) Hst. destruct Hinv as [Happs Htasks Hq Hout Hpr Hfk].
  destruct Hst as [s task tasks Hs Hrecv|s task res Hs Hp|s key proof Hs].
  - apply ch_recv_Some in Hrecv. rewrite Hrecv in Htasks. apply Forall_cons in Htasks as [? ?].
    by split.
  - rewrite Hs in Hq. destruct res as [[proof|e]|p]; [|by split..].
    assert (Hnew : proved_for (tr ++ [EvQueue]) (task_key task) proof) by (by exists task).
    split; auto. simpl. intros key out [[<- <-]|[_ ?]]%lookup_insert_Some; [done|by apply Hout].
  - rewrite Hs in Hq. unfold queue_stored, store_proof_in_db.
    destruct (replace_proof (sh_db s) (key_app_id key) (key_task_id key) proof) as [db|e] eqn:Er;
      [|by split].
    apply replace_proof_ok in Er as (Hreg & Hda & Hdp). split; simpl; auto.
    + intros id row. rewrite Hda. apply Happs.
    + intros a t proof'. rewrite Hdp.
      intros [[Hk Hpf]|[_ ?]]%lookup_insert_Some; [|by apply Hpr].
      injection Hk as <- <-. injection Hpf as <-. by destruct key.
    + intros a t row. rewrite Hda, Hdp.
      intros [[Hk <-]|[_ ?]]%lookup_insert_Some; [|by eapply Hfk]. by injection Hk as <- <-.
Qed.

Lemma service_inv db tr s :
  db_apps db = ∅ → db_proofs db = ∅ → service_run cfg (service_init db) tr s → svc_inv tr s.
Proof.
  intros Ha Hp. apply service_run_inv.
  - split; simpl; try done.
    + intros id row. by rewrite Ha, lookup_empty.
    + by rewrite ch_new_contents.
    + intros a t proof. by rewrite Hp, lookup_empty.
    + intros a t row. by rewrite Hp, lookup_empty.
  - intros tr' s1 ev s2 Hinv Hst. destruct Hst.
    + by eapply register_inv.
    + by apply svc_inv_more.
    + by eapply prove_inv.
    + by eapply get_inv.
    + by apply svc_inv_more.
    + by eapply queue_inv.
Qed.

(** The proof a request is answered with. *)
Lemma get_result_proved tr s req s' resp proof :
  svc_inv tr s → get_proving_result s req = (s', Ok resp) → result_proof resp = Some proof →
  proved_for tr (mkProvingKey (result_app_id req) (result_task_id req)) proof.
Proof.
  intros Hinv E Hres. unfold get_proving_result, pop_output in E.
  destruct (sh_outputs s !! _) as [out|] eqn:Eo; injection E as Es Er.
  - subst resp. injection Hres as <-. by eapply svc_outputs.
  - simpl in Er. destruct (select_proof _ _ _) as [row|] eqn:Esel; [|done]. injection Er as <-.
    simpl in Hres. apply select_proof_ok in Esel. destruct row as [[p|]|]; simplify_eq.
    by eapply svc_proofs.
Qed.

(** ** What stays available *)

(** A proof stored under a key is replaced at most, never removed. *)
Lemma step_proof_stays s ev s' a t proof :
  db_proofs (sh_db s) !! (a, t) = Some (Some proof) → service_step cfg s ev s' →
  ∃ proof', db_proofs (sh_db s') !! (a, t) = Some (Some proof').
Proof.
  intros Hp Hst. destruct Hst as [s req s' res E|s req res E|s req s' res E|s req s' res E|s req p E|s s' Hq].
  - unfold register_app in E. bind_inv E. destruct a0 as [db app]. apply set_app_inv in E0.
    assert (Hdb : db_proofs db = db_proofs (sh_db s)).
    { destruct app as [app|e]; [|by subst]. destruct E0 as (_ & row & _ & Ei).
      by apply insert_app_ok in Ei as (_ & _ & ->). }
    exists proof. destruct app; injection E as <- <-; simpl; by rewrite Hdb.
  - by exists proof.
  - unfold prove_task_handler in E. bind_inv E. exists proof. by destruct a0; injection E as <- <-.
  - unfold get_proving_result, pop_output in E. exists proof.
    by destruct (sh_outputs s !! _); injection E as <- _.
  - by exists proof.
  - destruct Hq as [s task tasks Hs Hrecv|s task res Hs Hpt|s key proof' Hs]; simpl.
    + by exists proof.
    + exists proof. by destruct res as [[]|].
    + unfold store_proof_in_db.
      destruct (replace_proof (sh_db s) (key_app_id key) (key_task_id key) proof') as [db|e] eqn:Er;
        [|by exists proof].
      apply replace_proof_ok in Er as (_ & _ & ->).
      destruct (decide ((key_app_id key, key_task_id key) = (a, t))) as [->|Hne].
      * exists proof'. by rewrite lookup_insert_eq.
      * exists proof. by rewrite lookup_insert_ne.
Qed.

Lemma run_proof_stays s tr s' a t proof :
  db_proofs (sh_db s) !! (a, t) = Some (Some proof) → service_run cfg s tr s' →
  ∃ proof', db_proofs (sh_db s') !! (a, t) = Some (Some proof').
Proof.
  intros Hp Hr.
  apply (service_run_inv cfg (λ _ s', ∃ proof', db_proofs (sh_db s') !! (a, t) = Some (Some proof')) s tr);
    [by exists proof| |done].
  intros tr' s1 ev s2 [p Hp1] Hst. by eapply step_proof_stays.
Qed.

(** A stored proof answers the requests for its key. *)
Lemma stored_proof_answer `{!DatabaseLive D} s a t proof :
  db_proofs (sh_db s) !! (a, t) = Some (Some proof) →
  ∃ s'' proof', get_proving_result s (mkGetProvingResultRequest a t) =
    (s'', Ok (mkGetProvingResultResponse None (Some proof'))).
Proof.
  intros Hp. unfold get_proving_result, pop_output. simpl.
  destruct (sh_outputs s !! _) as [out|]; [by eexists _, _|].
  pose proof (select_proof_live (sh_db s) a t) as Hl.
  destruct (select_proof (sh_db s) a t) as [row|] eqn:E; [|done].
  apply select_proof_ok in E. rewrite Hp in E. subst row. by eexists _, _.
Qed.

(** The service holds [proof] for [key]: in memory, in the database, or in
    the hands of the queue, which is storing it. *)
Definition held s (key : ProvingKey) (proof : bytes) : Prop :=
  sh_outputs s !! key = Some (mkProvingOutput proof) ∨
  db_proofs (sh_db s) !! (key_app_id key, key_task_id key) = Some (Some proof) ∨
  sh_queue s = QStoring key proof.

(** The queue ends a task of that key with [proof]. *)
Definition finishes s (key : ProvingKey) (proof : bytes) : Prop :=
  ∃ task, sh_queue s = QProving task ∧ task_key task = key ∧
    prove_task (C := C) task workers_of (Ret (Ok proof)).

(** It does so in the course of the history [tr] that starts at [s]. *)
Definition proved_meanwhile s tr (key : ProvingKey) (proof : bytes) : Prop :=
  ∃ tr1 tr2 s1, tr = tr1 ++ EvQueue :: tr2 ∧ service_run cfg s tr1 s1 ∧ finishes s1 key proof.

(** Where the proofs held after a step come from. *)
Lemma step_held s ev s' key proof :
  service_step cfg s ev s' → held s' key proof →
  held s key proof ∨ ev = EvQueue ∧ finishes s key proof.
Proof.
  intros Hst. destruct Hst as [s req s' res E|s req res E|s req s' res E|s req s' res E|s req p E|s s' Hq].
  - unfold register_app in E. bind_inv E. destruct a as [db app]. apply set_app_inv in E0.
    assert (Hdb : db_proofs db = db_proofs (sh_db s)).
    { destruct app as [app|e]; [|by subst]. destruct E0 as (_ & row & _ & Ei).
      by apply insert_app_ok in Ei as (_ & _ & ->). }
    unfold held. destruct app; injection E as <- <-; simpl; rewrite Hdb; by left.
  - by left.
  - unfold prove_task_handler in E. bind_inv E. destruct a; injection E as <- <-; by left.
  - unfold get_proving_result, pop_output in E. unfold held.
    destruct (sh_outputs s !! _) eqn:Eo; injection E as <- _; [|by left]. simpl.
    intros [Ho|Hd]; [|by left; right]. left. left. by apply lookup_delete_Some in Ho as [_ Ho].
  - by left.
  - unfold held. destruct Hq as [s task tasks Hs Hrecv|s task res Hs Hpt|s k p Hs].
    + simpl. intros [?|[?|?]]; [by left; left|by left; right; left|done].
    + destruct res as [[p|e]|p]; simpl.
      * intros [Ho|[?|[= <- <-]]]; [|by left; right; left|right; split; [done|by exists task]].
        apply lookup_insert_Some in Ho as [[<- [= <-]]|[_ ?]]; [|by left; left].
        right. split; [done|by exists task].
      * intros [?|[?|?]]; [by left; left|by left; right; left|done].
      * intros [?|[?|?]]; [by left; left|by left; right; left|done].
    + unfold queue_stored, store_proof_in_db. simpl. intros [?|[Hd|?]]; [by left; left| |done].
      left. destruct (replace_proof (sh_db s) (key_app_id k) (key_task_id k) p) as [db|e] eqn:Er;
        [|by right; left].
      apply replace_proof_ok in Er as (_ & _ & Edp). rewrite Edp in Hd.
      apply lookup_insert_Some in Hd as [[Hk [= <-]]|[_ ?]]; [|by right; left].
      right. right. rewrite Hs. f_equal. destruct k, key. simpl in Hk. congruence.
Qed.

Lemma run_held s tr s' key proof :
  service_run cfg s tr s' → held s' key proof → held s key proof ∨ proved_meanwhile s tr key proof.
Proof.
  intros Hr. induction Hr as [s|s tr s1 ev s2 Hr IH Hst]; [by left|]. intros Hh.
  destruct (step_held _ _ _ _ _ Hst Hh) as [Hh1|[-> Hf]].
  - destruct (IH Hh1) as [?|(tr1 & tr2 & s0 & -> & Hr0 & Hf)]; [by left|]. right.
    exists tr1, (tr2 ++ [ev]), s0. by rewrite <- app_assoc.
  - right. by exists tr, [], s1.
Qed.

(** A request is answered with a proof that is held. *)
Lemma answer_held s a t s'' proof :
  get_proving_result s (mkGetProvingResultRequest a t) =
    (s'', Ok (mkGetProvingResultResponse None (Some proof))) →
  held s (mkProvingKey a t) proof.
Proof.
  intros E. unfold get_proving_result, pop_output in E. simpl in E. unfold held.
  destruct (sh_outputs s !! _) as [[p]|] eqn:Eo; injection E as _ Er; simpl in Er.
  - left. by rewrite <- Er.
  - destruct (select_proof _ _ _) as [row|] eqn:Esel; [|done].
    apply select_proof_ok in Esel. right. left. destruct row as [[p|]|]; simplify_eq/=. done.
Qed.

(** The ids of the applications have no prefix. *)
Lemma registered_id_plain tr s id :
  svc_inv tr s → is_Some (db_apps (sh_db s) !! id) → strip_0x id = id.
Proof.
  intros Hinv [row Hrow]. destruct (svc_apps _ _ Hinv _ _ Hrow) as (app & (elf & info & En & _) & _ & <-).
  destruct (new_app_id _ _ _ En) as (_ & _ & Hd & _). by apply strip_digits.
Qed.

(** ** After a panic of the queue *)

Lemma step_after_panic s ev s' p :
  sh_queue s = QPanicked p → service_step cfg s ev s' →
  sh_queue s' = QPanicked p ∧ db_proofs (sh_db s') = db_proofs (sh_db s) ∧
  sh_outputs s' ⊆ sh_outputs s.
Proof.
  intros Hq Hst. destruct Hst as [s req s' res E|s req res E|s req s' res E|s req s' res E|s req p' E|s s' Hqs].
  - unfold register_app in E. bind_inv E. destruct a as [db app]. apply set_app_inv in E0.
    destruct app as [app|e]; injection E as <- <-; simpl; [|by subst].
    destruct E0 as (_ & row & _ & Ei). by apply insert_app_ok in Ei as (_ & _ & ->).
  - done.
  - unfold prove_task_handler in E. bind_inv E. by destruct a; injection E as <- <-.
  - unfold get_proving_result, pop_output in E.
    destruct (sh_outputs s !! _); injection E as <- _; simpl; [|done].
    split; [done|]. split; [done|]. apply delete_subseteq.
  - done.
  - destruct Hqs; congruence.
Qed.
End Service.

(** ** Properties *)

Section ServiceProperties.
Context `{PicoVM, RustBuild, !GnarkEnv, AlloyU256, !AppEnv, !CostEnv}.
Context `{!Bincode Program, !Bincode BaseProvingKey, !Bincode BaseVerifyingKey}.
Context `{!BincodeSpec Program, !BincodeSpec BaseProvingKey, !BincodeSpec BaseVerifyingKey}.
Context `{!AppEnvSpec, FifoChan C, DatabaseSpec D}.
Context (cfg : ServiceConfig).

(** Provenance of a returned proof.  When the service, started on an
    empty database, answers a request for the result of a task with a proof,
    then the history holds a registration of an application and an accepted
    proving request with exactly that application id and task id, and the
    proof is backed by an embed proof that was verified against the verifying
    key of that application (for any emulation of the task that fits a
    [usize]). *)
Theorem returned_proof_provenance db tr s req s' resp proof :
  db_apps db = ∅ → db_proofs db = ∅ →
  service_run (C := C) (D := D) cfg (service_init db) tr s →
  get_proving_result s req = (s', Ok resp) → result_proof resp = Some proof →
  ∃ elf info app preq,
    App_new elf info = Ret app ∧
    EvRegister (mkRegisterAppRequest elf info)
      (Ok (mkRegisterAppResponse None (app_app_id app))) ∈ tr ∧
    EvProve preq (Ok (mkProveTaskResponse None)) ∈ tr ∧
    strip_0x (prove_app_id preq) = app_app_id app ∧
    prove_app_id preq = result_app_id req ∧ prove_task_id preq = result_task_id req ∧
    task_vk (request_task preq app) = app_vk app ∧
    ((2 ≤ COMBINE_SIZE)%nat → ∀ recs, task_emulates (request_task preq app) recs None →
       chunk_count recs ≤ usize_max → backed (request_task preq app) proof).
Proof.
  intros Ha Hp Hrun Hget Hres.
  pose proof (service_inv cfg db tr s Ha Hp Hrun) as Hinv.
  destruct (get_result_proved cfg tr s req s' resp proof Hinv Hget Hres)
    as (task & (preq & app & -> & Hin & (elf & info & En & Hreg) & Hid) & Hk & Hpt).
  injection Hk as Hka Hkt. exists elf, info, app, preq.
  do 4 (split; [done|]). split; [done|]. split; [done|]. split; [done|].
  intros Hsize recs Hem Hc. by eapply prove_task_backed.
Qed.

(** C19: the rows of the database are well typed.  In every state the service
    reaches from an empty database, an [apps] row is keyed by its id, 64
    hexadecimal digits, and deserialises to exactly the application that
    [App::new] builds from some registered ELF and the row's information; a
    [proofs] row refers to such an application and is not NULL: it holds what
    [prove_task] returned for an accepted task of that key. *)
Theorem database_typed db tr s :
  db_apps db = ∅ → db_proofs db = ∅ → service_run (C := C) (D := D) cfg (service_init db) tr s →
  (∀ id row, db_apps (sh_db s) !! id = Some row →
     row_app_id row = id ∧ String.length id = 64%nat ∧ all_digits id = true ∧
     ∃ elf app, App_new elf (row_info row) = Ret app ∧ App_from row = Ret app ∧
       app_app_id app = id) ∧
  (∀ a t row, db_proofs (sh_db s) !! (a, t) = Some row →
     is_Some (db_apps (sh_db s) !! a) ∧
     ∃ proof task, row = Some proof ∧ task_key task = mkProvingKey a t ∧
       prove_task (C := C) task (Z.to_nat (prover_count cfg)) (Ret (Ok proof))).
Proof.
  intros Ha Hp Hrun. pose proof (service_inv cfg db tr s Ha Hp Hrun) as Hinv. split.
  - intros id row Hrow.
    destruct (svc_apps _ _ _ Hinv _ _ Hrow) as (app & (elf & info & En & _) & Hr & <-).
    destruct (row_roundtrip _ _ Hr) as [Hfrom Hid], (new_app_id _ _ _ En) as (_ & Hlen & Hd & Hinfo).
    do 3 (split; [done|]). exists elf, app. split; [|done].
    by rewrite (row_keeps_info _ _ Hr), Hinfo.
  - intros a t row Hrow. destruct (svc_proof_row _ _ _ Hinv _ _ _ Hrow) as [[proof ->] Hreg].
    split; [done|]. destruct (svc_proofs _ _ _ Hinv _ _ _ Hrow) as (task & _ & Hk & Hpt).
    by exists proof, task.
Qed.

(** C31: a proof in the database stays available, and nothing but a newer proof
    takes its place.  Whatever the service does from a state in which the
    database holds a proof for a key, every later request for that key is
    answered with a proof, and that proof is one the service held for the key
    at the start (in the database, in memory or being stored by the queue) or
    the result of a call of [prove_task] that the queue has since completed
    with success for a task of exactly that key: no error or panic of a task,
    no other key's proof and no registration or request puts another in its
    place ([DatabaseLive]: a statement fails only on a constraint). *)
Theorem stored_proof_stays `{!DatabaseLive D} s tr s' a t proof :
  db_proofs (sh_db s) !! (a, t) = Some (Some proof) →
  service_run (C := C) (D := D) cfg s tr s' →
  ∃ s'' proof', get_proving_result s' (mkGetProvingResultRequest a t) =
      (s'', Ok (mkGetProvingResultResponse None (Some proof'))) ∧
    (held s (mkProvingKey a t) proof' ∨
     proved_meanwhile cfg s tr (mkProvingKey a t) proof').
Proof.
  intros Hp Hr. destruct (run_proof_stays cfg s tr s' a t proof Hp Hr) as [p' Hp'].
  destruct (stored_proof_answer s' a t p' Hp') as (s'' & proof' & E). exists s'', proof'.
  split; [done|]. apply (run_held cfg s tr s' _ _ Hr). by eapply answer_held.
Qed.

(** The two reads of [get_proving_result] may have other steps between them.
    When the first, of the map, finds nothing in [s1] and the second reads the
    database of a later [s2], an answer without a proof is the one a request
    served in [s1] would have had, and an answer with one is a row of the
    database. *)
Theorem late_database_read `{!DatabaseLive D} s1 tr s2 a t :
  sh_outputs s1 !! mkProvingKey a t = None → service_run (C := C) (D := D) cfg s1 tr s2 →
  match select_proof (sh_db s2) a t with
  | Ok (Some (Some proof)) => db_proofs (sh_db s2) !! (a, t) = Some (Some proof)
  | Ok _ => get_proving_result s1 (mkGetProvingResultRequest a t) =
      (s1, Ok (mkGetProvingResultResponse None None))
  | Err _ => False
  end.
Proof.
  intros Hout Hr. pose proof (select_proof_live (sh_db s2) a t) as Hl2.
  destruct (select_proof (sh_db s2) a t) as [row2|] eqn:E2; [|done]. apply select_proof_ok in E2.
  assert (Hnone : (∀ proof, row2 ≠ Some (Some proof)) →
    get_proving_result s1 (mkGetProvingResultRequest a t) =
      (s1, Ok (mkGetProvingResultResponse None None))).
  { intros Hno. unfold get_proving_result, pop_output. simpl. rewrite Hout.
    pose proof (select_proof_live (sh_db s1) a t) as Hl1.
    destruct (select_proof (sh_db s1) a t) as [row1|] eqn:E1; [|done]. apply select_proof_ok in E1.
    destruct row1 as [[proof|]|]; [|done..]. exfalso. symmetry in E1.
    destruct (run_proof_stays cfg s1 tr s2 a t proof E1 Hr) as [proof' Hp]. rewrite Hp in E2.
    by eapply Hno. }
  destruct row2 as [[proof|]|]; [done|by apply Hnone..].
Qed.

(** C33: a proof filed under an id spelled with [0x] is lost when it is
    fetched.  [get_app] accepts both spellings but the key of the task keeps
    the one of the request, which the foreign key of the database refuses:
    the proof is only in memory, the first request removes it, and the next
    one is answered with no proof. *)
Theorem prefixed_proof_fetched_once `{!DatabaseLive D} db tr s a t out :
  db_apps db = ∅ → db_proofs db = ∅ →
  service_run (C := C) (D := D) cfg (service_init db) tr s →
  strip_0x a ≠ a → sh_outputs s !! mkProvingKey a t = Some out →
  ∃ s', get_proving_result s (mkGetProvingResultRequest a t) =
      (s', Ok (mkGetProvingResultResponse None (Some (output_proof out)))) ∧
    get_proving_result s' (mkGetProvingResultRequest a t) =
      (s', Ok (mkGetProvingResultResponse None None)).
Proof.
  intros Ha Hp Hrun Hpre Ho. pose proof (service_inv cfg db tr s Ha Hp Hrun) as Hinv.
  assert (Hnone : db_proofs (sh_db s) !! (a, t) = None).
  { destruct (db_proofs (sh_db s) !! (a, t)) as [row|] eqn:E; [|done]. exfalso. apply Hpre.
    eapply registered_id_plain; [exact Hinv|]. by eapply svc_proof_row. }
  unfold get_proving_result, pop_output. simpl. rewrite Ho. eexists. split; [done|].
  simpl. rewrite lookup_delete_eq.
  pose proof (select_proof_live (sh_db s) a t) as Hl.
  destruct (select_proof (sh_db s) a t) as [row|] eqn:E; [|done].
  apply select_proof_ok in E. by rewrite Hnone in E; subst.
Qed.

(** A panic of [prove_task] ends the proving for good.  Once the queue
    has panicked it stays so, no proof is stored any more and the ones in
    memory can only be fetched away; proving requests for a registered
    application are still answered with success. *)
Theorem queue_panic_is_final s p tr s' req app :
  sh_queue s = QPanicked p → service_run (C := C) (D := D) cfg s tr s' →
  (sh_queue s' = QPanicked p ∧ db_proofs (sh_db s') = db_proofs (sh_db s) ∧
   sh_outputs s' ⊆ sh_outputs s) ∧
  (find_app s' (prove_app_id req) = Ret (Ok app) →
   ∃ s'', prove_task_handler s' req = Ret (s'', Ok (mkProveTaskResponse None)) ∧
     sh_queue s'' = QPanicked p).
Proof.
  intros Hq Hr.
  assert (Hend : sh_queue s' = QPanicked p ∧ db_proofs (sh_db s') = db_proofs (sh_db s) ∧
    sh_outputs s' ⊆ sh_outputs s).
  { apply (service_run_inv cfg (λ _ s', sh_queue s' = QPanicked p ∧
      db_proofs (sh_db s') = db_proofs (sh_db s) ∧ sh_outputs s' ⊆ sh_outputs s) s tr); [done| |done].
    intros tr' s1 ev s2 (Hq1 & Hd1 & Ho1) Hst.
    destruct (step_after_panic cfg _ _ _ _ Hq1 Hst) as (? & E2 & ?).
    split; [done|]. split; [by rewrite E2|by etrans]. }
  split; [done|]. intros Hf. unfold prove_task_handler. rewrite Hf. simpl.
  eexists. split; [done|]. apply Hend.
Qed.

(** The tasks that stop the queue.  On a task that asks for the GPU, or
    whose inputs do not deserialise, the queue can only move to its panicked
    state, and it can move there. *)
Theorem bad_task_stops_queue (s : shared C D) task :
  sh_queue s = QProving task → (0 < Z.to_nat (prover_count cfg))%nat →
  task_use_gpu task = true ∨
    (∃ bs e, task_inputs task = Some bs ∧ bincode_deserialize_stdin bs = Err e) →
  (∃ s', queue_step (C := C) (Z.to_nat (prover_count cfg)) s s') ∧
  (∀ s', queue_step (C := C) (Z.to_nat (prover_count cfg)) s s' → ∃ p, sh_queue s' = QPanicked p).
Proof.
  intros Hq Hn Hbad.
  assert (Hex : ∃ p, prove_task (C := C) task (Z.to_nat (prover_count cfg)) (Panic p)).
  { destruct (task_use_gpu task) eqn:Hg.
    - eexists. by eapply prove_task_cuda.
    - destruct Hbad as [?|(bs & e & Hin & He)]; [done|]. eexists.
      apply prove_task_setup_panic; [by left|]. unfold emulator_setup. by rewrite Hin, He. }
  assert (Hall : ∀ res, prove_task (C := C) task (Z.to_nat (prover_count cfg)) res → ∃ p, res = Panic p).
  { intros res Hp. destruct (task_use_gpu task) eqn:Hg.
    - eexists. by eapply prove_task_gpu.
    - destruct Hbad as [?|(bs & e & Hin & He)]; [done|]. eexists. by eapply prove_task_bad_inputs. }
  split.
  - destruct Hex as [p Hp]. eexists. by eapply queue_step_proved.
  - intros s' Hst. destruct Hst as [s0 task' tasks Hs Hr|s0 task' res Hs Hp|s0 key proof Hs]; try congruence.
    rewrite Hs in Hq. injection Hq as ->. destruct (Hall _ Hp) as [p ->]. by exists p.
Qed.

(** A task of one chunk blocks the queue: it never moves again, whatever
    waits behind. *)
Theorem one_chunk_task_blocks_queue (s s' : shared C D) task recs :
  (2 ≤ COMBINE_SIZE)%nat → task_use_gpu task = false →
  task_emulates task recs None → (length recs ≤ 1)%nat →
  sh_queue s = QProving task →
  ¬ queue_step (C := C) (Z.to_nat (prover_count cfg)) s s'.
Proof.
  intros Hsize Hg Hem Hone Hq Hst.
  destruct Hst as [s0 task' tasks Hs Hr|s0 task' res Hs Hp|s0 key proof Hs]; try congruence.
  rewrite Hs in Hq. injection Hq as ->.
  destruct Hem as (e & cap & fuel & Es & E).
  inversion Hp as [p Hgpu|p Hor Ep|e1 cap1 fuel1 recs1 msg Hor Es1 E1|e1 cap1 fuel1 recs1 s1 r Hor Es1 E1 Hr Hpn Hres]; subst.
  - congruence.
  - congruence.
  - assert (Hc : Some msg = None); [|done].
    eapply task_emulates_det; [by exists e1, cap1, fuel1|by exists e, cap, fuel].
  - refine (proj1 (one_chunk_pending task recs (Z.to_nat (prover_count cfg)) _ Hsize _ Hone) Hp).
    by exists e, cap, fuel.
Qed.

(** An unknown application is refused: no proving request for an id
    whose application is not in the database changes anything, and the
    answer is a not-found status with the id as the client wrote it. *)
Theorem unknown_app_not_found `{!DatabaseLive D} (s : shared C D) req ereq :
  db_apps (sh_db s) !! strip_0x (prove_app_id req) = None →
  estimate_app_id ereq = prove_app_id req →
  prove_task_handler s req =
    Ret (s, Err (NotFound ("cannot find app " +:+ prove_app_id req))) ∧
  estimate_cost_handler cfg s ereq =
    Ret (Err (NotFound ("cannot find app " +:+ prove_app_id req))).
Proof.
  intros Hnone Heq. unfold prove_task_handler, estimate_cost_handler, find_app. rewrite Heq.
  by rewrite (get_app_none _ _ Hnone).
Qed.
End ServiceProperties.

(** ** A concrete history

    The three-byte ELF of [AppManager.v] is registered, a task for it is
    accepted, proved by the run of [Pipeline.v] and stored. *)

Module History.
#[local] Existing Instance release_build.

Definition cfg : ServiceConfig := mkServiceConfig "" "" AuthMethod_None None 0 1 None.

Definition proof : bytes := Eval vm_compute in proof_bytes [1; 2; 3; 4; 5; 6; 7; 8; 9; 10].

Definition register_req : RegisterAppRequest := mkRegisterAppRequest [1; 2; 3] (Some "three").

Definition prove_req (app_id : string) (use_gpu : bool) : ProveTaskRequest :=
  mkProveTaskRequest app_id "task" None (Some use_gpu).

Definition registered_state : shared list memory_db := mkShared ∅ three_db [] QWaiting.

Definition key : ProvingKey := mkProvingKey ThreeChunks.app_id "task".

Definition outputs : ProvingOutputs := {[key := mkProvingOutput proof]}.

Definition stored_db : memory_db :=
  mkMemoryDb (mem_apps three_db) {[(ThreeChunks.app_id, "task") := Some proof]}.

Definition stored_state : shared list memory_db := mkShared outputs stored_db [] QWaiting.

Definition register_event : event :=
  EvRegister register_req (Ok (mkRegisterAppResponse None ThreeChunks.app_id)).

Definition prove_event (app_id : string) (use_gpu : bool) : event :=
  EvProve (prove_req app_id use_gpu) (Ok (mkProveTaskResponse None)).

Lemma register_step :
  service_step cfg (service_init (C := list) empty_db) register_event registered_state.
Proof. apply step_register. vm_compute. reflexivity. Qed.

(** The state once a task has been accepted and taken by the queue. *)
Definition proving_state (app_id : string) (use_gpu : bool) : shared list memory_db :=
  mkShared ∅ three_db [] (QProving (request_task (prove_req app_id use_gpu) three_app)).

Lemma prove_step_from outs db q app_id use_gpu :
  mem_apps db = mem_apps three_db → strip_0x app_id = ThreeChunks.app_id →
  service_step cfg (mkShared outs db [] q : shared list memory_db) (prove_event app_id use_gpu)
    (mkShared outs db [request_task (prove_req app_id use_gpu) three_app] q).
Proof.
  intros Hdb Hid. apply step_prove. unfold prove_task_handler, find_app.
  rewrite (get_app_row _ _ (mkAppRow ThreeChunks.app_id [3] [] [3] (Some "three")) three_app);
    [reflexivity| |reflexivity].
  cbn [sh_db prove_app_id prove_req]. rewrite Hid. simpl. rewrite Hdb. vm_compute. reflexivity.
Qed.

Lemma prove_step app_id use_gpu :
  strip_0x app_id = ThreeChunks.app_id →
  service_step cfg registered_state (prove_event app_id use_gpu)
    (mkShared ∅ three_db [request_task (prove_req app_id use_gpu) three_app] QWaiting).
Proof. by apply prove_step_from. Qed.

Lemma proving_run app_id use_gpu :
  strip_0x app_id = ThreeChunks.app_id →
  service_run cfg (service_init (C := list) empty_db)
    [register_event; prove_event app_id use_gpu; EvQueue] (proving_state app_id use_gpu).
Proof.
  intros Hid. apply (run_snoc _ _ [register_event; prove_event app_id use_gpu]
    (mkShared ∅ three_db [request_task (prove_req app_id use_gpu) three_app] QWaiting)).
  - apply (run_snoc _ _ [register_event] registered_state); [|by apply prove_step].
    apply (run_snoc _ _ [] (service_init empty_db)); [constructor|apply register_step].
  - by apply step_queue, queue_step_recv.
Qed.

Lemma key_proved app_id :
  prove_task (C := list) (request_task (prove_req app_id false) three_app) 1 (Ret (Ok proof)).
Proof.
  eapply (prove_task_returns (request_task (prove_req app_id false) three_app) 1 3 4 5 ThreeChunks.records ThreeChunks.final_state);
    [by left|reflexivity|reflexivity| |reflexivity|vm_compute; reflexivity].
  apply ThreeChunks.complete_run_rtc.
Qed.

Lemma proved_run app_id :
  strip_0x app_id = ThreeChunks.app_id →
  service_run cfg (service_init (C := list) empty_db)
    [register_event; prove_event app_id false; EvQueue; EvQueue]
    (mkShared {[mkProvingKey app_id "task" := mkProvingOutput proof]} three_db []
       (QStoring (mkProvingKey app_id "task") proof)).
Proof.
  intros Hid. apply (run_snoc _ _ [register_event; prove_event app_id false; EvQueue]
    (proving_state app_id false)); [by apply proving_run|].
  apply step_queue. refine (queue_step_proved _ (proving_state app_id false) _ _ eq_refl (key_proved app_id)).
Qed.

Lemma stored_run app_id :
  strip_0x app_id = ThreeChunks.app_id →
  service_run cfg (service_init (C := list) empty_db)
    [register_event; prove_event app_id false; EvQueue; EvQueue; EvQueue]
    (queue_stored
       (mkShared {[mkProvingKey app_id "task" := mkProvingOutput proof]} three_db []
          (QStoring (mkProvingKey app_id "task") proof)) (mkProvingKey app_id "task") proof).
Proof.
  intros Hid. apply (run_snoc _ _ [register_event; prove_event app_id false; EvQueue; EvQueue]
    (mkShared {[mkProvingKey app_id "task" := mkProvingOutput proof]} three_db []
       (QStoring (mkProvingKey app_id "task") proof))); [by apply proved_run|].
  by apply step_queue, queue_step_stored.
Qed.

(** The stored proof is fetched from memory, the task is asked for and proved
    again, and the second proof is fetched from memory too. *)
Definition fetched_state : shared list memory_db := mkShared ∅ stored_db [] QWaiting.

Definition get_event : event :=
  EvGet (mkGetProvingResultRequest ThreeChunks.app_id "task")
    (Ok (mkGetProvingResultResponse None (Some proof))).

Definition again : list event :=
  [get_event; prove_event ThreeChunks.app_id false; EvQueue; EvQueue; EvQueue; get_event].

Lemma get_step : service_step cfg stored_state get_event fetched_state.
Proof. apply step_get. vm_compute. reflexivity. Qed.

Lemma again_run : service_run cfg stored_state again fetched_state.
Proof.
  set (task := request_task (prove_req ThreeChunks.app_id false) three_app).
  apply (run_snoc _ _ [get_event; prove_event ThreeChunks.app_id false; EvQueue; EvQueue; EvQueue]
    stored_state); [|exact get_step].
  set (storing := mkShared outputs stored_db [] (QStoring key proof) : shared list memory_db).
  set (proving := mkShared ∅ stored_db [] (QProving task) : shared list memory_db).
  apply (run_snoc _ _ [get_event; prove_event ThreeChunks.app_id false; EvQueue; EvQueue] storing);
    [|exact (step_queue cfg storing _ (queue_step_stored 1 storing key proof eq_refl))].
  apply (run_snoc _ _ [get_event; prove_event ThreeChunks.app_id false; EvQueue] proving);
    [|exact (step_queue cfg proving _
        (queue_step_proved 1 proving task _ eq_refl (key_proved ThreeChunks.app_id)))].
  apply (run_snoc _ _ [get_event; prove_event ThreeChunks.app_id false]
    (mkShared ∅ stored_db [task] QWaiting)); [|by apply step_queue, queue_step_recv].
  apply (run_snoc _ _ [get_event] fetched_state); [|by apply prove_step_from].
  apply (run_snoc _ _ [] stored_state); [constructor|exact get_step].
Qed.

Definition prefixed_id : string := "0x" +:+ ThreeChunks.app_id.
End History.

(** *** Witnesses *)

#[local] Existing Instance release_build.

Lemma returned_proof_provenance_witness :
  ∃ elf info, ∃ app : @App symbolic_pico, App_new elf info = Ret app ∧
    strip_0x ThreeChunks.app_id = app_app_id app.
Proof.
  pose proof (returned_proof_provenance (C := list) History.cfg empty_db) as Hprov.
  destruct (Hprov _ _ (mkGetProvingResultRequest ThreeChunks.app_id "task")
    (mkShared ∅ History.stored_db [] QWaiting)
    (mkGetProvingResultResponse None (Some History.proof)) History.proof
    eq_refl eq_refl (History.stored_run ThreeChunks.app_id eq_refl) eq_refl eq_refl)
    as (elf & info & app & preq & En & _ & _ & Hid & Ha & _).
  exists elf, info, app. split; [exact En|]. rewrite <- Hid, Ha. reflexivity.
Defined.

Lemma database_typed_witness :
  ∃ proof (task : @ProvingTask symbolic_pico),
    db_proofs (mkMemoryDb (mem_apps three_db) {[(ThreeChunks.app_id, "task") := Some History.proof]})
      !! (ThreeChunks.app_id, "task") = Some (Some proof) ∧
    task_key task = History.key.
Proof.
  pose proof (database_typed (C := list) History.cfg empty_db) as Htyped.
  destruct (proj2 (Htyped _ _ eq_refl eq_refl (History.stored_run ThreeChunks.app_id eq_refl))
    ThreeChunks.app_id "task" (Some History.proof) eq_refl) as (_ & proof & task & E & Hk & _).
  exists proof, task. split; [exact (f_equal Some E)|exact Hk].
Defined.

(** The answer after the history now comes from the database. *)
Lemma stored_proof_stays_witness :
  sh_outputs History.fetched_state = ∅ ∧
  ∃ s'' proof', get_proving_result History.fetched_state
      (mkGetProvingResultRequest ThreeChunks.app_id "task") =
      (s'', Ok (mkGetProvingResultResponse None (Some proof'))) ∧
    (held History.stored_state History.key proof' ∨
     proved_meanwhile History.cfg History.stored_state History.again History.key proof').
Proof.
  split; [reflexivity|].
  pose proof (stored_proof_stays (C := list) History.cfg History.stored_state History.again) as Hstays.
  exact (Hstays History.fetched_state ThreeChunks.app_id "task" History.proof eq_refl History.again_run).
Defined.

Lemma prefixed_proof_fetched_once_witness :
  ∃ s' : shared list memory_db,
    get_proving_result s' (mkGetProvingResultRequest History.prefixed_id "task") =
      (s', Ok (mkGetProvingResultResponse None None)).
Proof.
  pose proof (prefixed_proof_fetched_once (C := list) History.cfg empty_db) as Honce.
  destruct (Honce _ _ History.prefixed_id "task"
    (mkProvingOutput History.proof) eq_refl eq_refl
    (History.stored_run History.prefixed_id eq_refl) ltac:(discriminate) eq_refl) as (s' & _ & E).
  exists s'. exact E.
Defined.

Definition panicked_state : shared list memory_db :=
  mkShared ∅ three_db [] (QPanicked (SourcePanic "not implemented")).

Lemma queue_panic_is_final_witness :
  ∃ s'', prove_task_handler panicked_state (History.prove_req ThreeChunks.app_id false) =
    Ret (s'', Ok (mkProveTaskResponse None)) ∧
    sh_queue s'' = QPanicked (SourcePanic "not implemented").
Proof.
  pose proof (queue_panic_is_final (C := list) History.cfg panicked_state) as Hfinal.
  refine (proj2 (Hfinal _ [] panicked_state (History.prove_req ThreeChunks.app_id false) three_app eq_refl (run_nil _ _)) _).
  vm_compute. reflexivity.
Defined.

Lemma bad_task_stops_queue_witness :
  ∃ s', queue_step 1 (History.proving_state ThreeChunks.app_id true) s'.
Proof.
  pose proof (bad_task_stops_queue History.cfg (History.proving_state ThreeChunks.app_id true)) as Hbad.
  refine (proj1 (Hbad
    (request_task (History.prove_req ThreeChunks.app_id true) three_app) eq_refl _ (or_introl eq_refl))).
  apply le_n.
Defined.

Lemma one_chunk_task_blocks_queue_witness :
  ¬ queue_step 1 (mkShared ∅ three_db [] (QProving one_chunk) : shared list memory_db)
      History.registered_state.
Proof.
  pose proof (one_chunk_task_blocks_queue History.cfg
    (mkShared ∅ three_db [] (QProving one_chunk) : shared list memory_db)) as Hblock.
  exact (Hblock History.registered_state one_chunk [true]
    ltac:(apply le_n) eq_refl one_chunk_emulates ltac:(apply le_n) eq_refl).
Defined.

Lemma unknown_app_not_found_witness :
  prove_task_handler History.registered_state (History.prove_req "0xff" false) =
    Ret (History.registered_state, Err (NotFound "cannot find app 0xff")).
Proof.
  pose proof (unknown_app_not_found History.cfg History.registered_state) as Hunknown.
  exact (proj1 (Hunknown (History.prove_req "0xff" false) (mkEstimateCostRequest "0xff" None) eq_refl eq_refl)).
Defined.
