(* ===== verification/ServiceLive.v ===== *)
(** * Every accepted task is proved

    Liveness of the proving queue.  Each task waiting in the channel, and the
    one the loop holds, is a fixed number of queue steps away from the
    database; the handlers never change that number, a queue step lowers it
    by one, and the queue can always make the step. *)

From S2P Require Import Prelude PicoVM Messages Task Provers Worker Channel Onchain Emulator.
From S2P Require Import Gateway Pipeline PipelineInv PipelineProgress Database AppManager CostEstimation Auth.
From S2P Require Import ProvingQueue Grpc Service.

Section ServiceLive.
Context `{PicoVM, RustBuild, !GnarkEnv, AlloyU256, !AppEnv, !CostEnv}.
Context `{!Bincode Program, !Bincode BaseProvingKey, !Bincode BaseVerifyingKey}.
Context `{FifoChan C, DatabaseSpec D, !DatabaseLive D}.
Context (cfg : ServiceConfig).

Implicit Types s : shared C D.
Implicit Types tr : list event.

Local Abbreviation workers_of := (Z.to_nat (prover_count cfg)).

(** The steps of the queue in a history. *)
Definition queue_events tr : nat :=
  list_sum (map (λ ev, match ev with EvQueue => 1%nat | _ => 0%nat end) tr).

Lemma queue_events_snoc tr ev :
  queue_events (tr ++ [ev]) = (queue_events tr + match ev with EvQueue => 1 | _ => 0 end)%nat.
Proof. unfold queue_events. rewrite map_app, list_sum_app. simpl. lia. Qed.

(** ** Tasks that can be served *)

(** A CPU task of at least two chunks, on a prover that obeys the laws, whose
    on-chain phase does not panic. *)
Record servable (task : ProvingTask) : Prop := {
  servable_cpu : task_use_gpu task = false;
  servable_emulates : ∃ recs valid compressed,
    task_emulates task recs None ∧ 2 ≤ chunk_count recs ≤ u32_max ∧
    PicoLaws task recs valid compressed;
  servable_onchain e p : verified task e → prove_embed_onchain e ≠ Panic p;
}.

Hypothesis Hsize : (2 ≤ COMBINE_SIZE)%nat.
Hypothesis Hworkers : (0 < workers_of)%nat.

Lemma servable_returns task res :
  servable task → prove_task (C := C) task workers_of res →
  ∃ proof, res = Ret (Ok proof) ∧ backed task proof.
Proof.
  intros [Hcpu (recs & valid & compressed & Hem & Hcount & Hlaws) Honchain] Hp.
  destruct res as [res|p].
  - assert (Hu : chunk_count recs ≤ usize_max) by (unfold u32_max, usize_max in *; lia).
    destruct (prove_task_outcome task recs workers_of res Hsize Hem Hu Hp)
      as [(bs & -> & Hb)|(_ & e & p & Hv & Hpn)]; [by eauto|by destruct (Honchain e p)].
  - exfalso. destruct Hem as (e & cap & fuel & Es & Ee).
    inversion Hp as [p' Hgpu|p' Hor Ep|e' cap' fuel' recs' msg Hor Es' Ee'|]; subst; [congruence..|].
    assert (None = Some msg); [|done].
    eapply task_emulates_det; [by exists e, cap, fuel|by exists e', cap', fuel'].
Qed.

Lemma servable_outcome task :
  servable task → ∃ proof, prove_task (C := C) task workers_of (Ret (Ok proof)).
Proof.
  intros Hs. pose proof Hs as [Hcpu (recs & valid & compressed & Hem & Hcount & Hlaws) _].
  destruct (cpu_task_completes task recs valid compressed Hlaws Hsize Hcount workers_of Hworkers Hcpu Hem)
    as (res & Hp & _).
  destruct (servable_returns _ _ Hs Hp) as (proof & [= ->] & _). by exists proof.
Qed.

(** ** The backlog *)

(** The tasks the queue has before it, in the order it takes them: the key,
    and the task while it is not proved. *)
Definition backlog s : list (ProvingKey * option ProvingTask) :=
  match sh_queue s with
  | QProving task => [(task_key task, Some task)]
  | QStoring key _ => [(key, None)]
  | _ => []
  end ++ ((λ task, (task_key task, Some task)) <$> ch_contents (sh_tasks s)).

(** The steps of the queue until the first of them is stored. *)
Definition head_steps s : nat :=
  match sh_queue s with QProving _ => 2 | QStoring _ _ => 1 | _ => 3 end.

Definition entry_servable (entry : ProvingKey * option ProvingTask) : Prop :=
  match entry.2 with Some task => servable task | None => True end.

(** [key] is in the database after [d] more steps of the queue. *)
Definition due s (d : nat) (key : ProvingKey) : Prop :=
  (∀ p, sh_queue s ≠ QPanicked p) ∧ is_Some (db_apps (sh_db s) !! key_app_id key) ∧
  ∃ i, d = (3 * i + head_steps s)%nat ∧ fst <$> (backlog s !! i) = Some key ∧
    Forall entry_servable (take (S i) (backlog s)).

Definition stored s (key : ProvingKey) : Prop :=
  ∃ proof, db_proofs (sh_db s) !! (key_app_id key, key_task_id key) = Some (Some proof).

(** *** The handlers *)

(** A handler keeps the queue where it is and only appends to the backlog. *)
Lemma handler_step s ev s' :
  service_step cfg s ev s' → ev ≠ EvQueue →
  sh_queue s' = sh_queue s ∧ backlog s `prefix_of` backlog s' ∧
  ∀ id, is_Some (db_apps (sh_db s) !! id) → is_Some (db_apps (sh_db s') !! id).
Proof.
  intros Hst Hev. destruct Hst as [s req s' res E|s req res E|s req s' res E|s req s' res E|s req p E|]; [| | | |done..].
  - unfold register_app in E. bind_inv E. destruct a as [db app]. apply set_app_inv in E0.
    destruct app as [app|e]; injection E as <- <-; simpl; [|by subst].
    split; [done|]. split; [done|]. destruct E0 as (_ & row & _ & Ei). intros id Hid.
    rewrite (insert_app_select _ _ _ _ Ei). by case_decide.
  - done.
  - unfold prove_task_handler in E. bind_inv E. destruct a as [app|e]; injection E as <- <-; [|done].
    split; [done|]. split; [|done]. unfold backlog. simpl.
    rewrite ch_send_contents, fmap_app. by apply prefix_app, prefix_app_r.
  - unfold get_proving_result, pop_output in E. by destruct (sh_outputs s !! _); injection E as <- _.
Qed.

Lemma handler_due s ev s' d key :
  service_step cfg s ev s' → ev ≠ EvQueue → due s d key → due s' d key.
Proof.
  intros Hst Hev (Hq & Happ & i & -> & Hi & Hall).
  destruct (handler_step _ _ _ Hst Hev) as (Hq' & [more Hpre] & Happs).
  split; [by setoid_rewrite Hq'|]. split; [by apply Happs|]. exists i.
  apply fmap_Some in Hi as ([k t] & Hi & ->).
  split; [by unfold head_steps; rewrite Hq'|]. rewrite Hpre. split; [by rewrite (lookup_app_l_Some _ _ _ _ Hi)|].
  rewrite take_app_le; [done|]. apply lookup_lt_Some in Hi. lia.
Qed.

(** *** The queue *)

Lemma queue_due s s' d key :
  queue_step (C := C) workers_of s s' → due s d key →
  (d = 1%nat ∧ stored s' key) ∨ (2 ≤ d)%nat ∧ due s' (pred d) key.
Proof.
  intros Hst (Hq & Happ & i & -> & Hi & Hall).
  destruct Hst as [s task tasks Hs Hrecv|s task res Hs Hp|s key' proof Hs];
    unfold head_steps, backlog in *; rewrite Hs in *.
  - right. split; [lia|]. split; [done|]. split; [done|]. exists i. unfold head_steps, backlog. simpl.
    apply ch_recv_Some in Hrecv. rewrite Hrecv in Hi, Hall. simpl in *. split; [lia|done].
  - right. split; [lia|].
    apply Forall_cons in Hall as [Hserv Hall].
    destruct (servable_returns _ _ Hserv Hp) as (proof & -> & _).
    split; [done|]. split; [done|]. exists i. unfold head_steps, backlog. simpl in *. split; [lia|].
    split; [by destruct i|]. by constructor.
  - simpl in Hi, Hall. destruct i as [|i]; simpl in *.
    + left. split; [done|]. injection Hi as ->. exists proof. simpl. unfold store_proof_in_db.
      pose proof (replace_proof_live (sh_db s) _ (key_task_id key) proof Happ) as Hl.
      destruct (replace_proof _ _ _ _) as [db|] eqn:Er; [|done].
      apply replace_proof_ok in Er as (_ & _ & ->). by rewrite lookup_insert_eq.
    + right. split; [lia|]. apply Forall_cons in Hall as [_ Hall].
      split; [done|]. split.
      * simpl. unfold store_proof_in_db. destruct (replace_proof _ _ _ _) as [db|] eqn:Er; [|done].
        by apply replace_proof_ok in Er as (_ & -> & _).
      * exists i. unfold head_steps, backlog. simpl. split; [lia|done].
Qed.

(** The queue is never stuck before a task that is due. *)
Lemma due_can_step s d key :
  due s d key → ∃ s', queue_step (C := C) workers_of s s'.
Proof.
  intros (Hq & _ & i & _ & Hi & Hall). unfold backlog in *.
  destruct (sh_queue s) as [|task|key' proof|p] eqn:Hs.
  - destruct (ch_recv_nonempty (sh_tasks s)) as (task & tasks & Hrecv & _).
    { intros E. rewrite E in Hi. by destruct i. }
    eexists. by apply (queue_step_recv _ _ task tasks).
  - apply Forall_cons in Hall as [Hserv _]. destruct (servable_outcome _ Hserv) as [proof Hp].
    eexists. by eapply queue_step_proved.
  - eexists. by eapply queue_step_stored.
  - by destruct (Hq p).
Qed.

(** ** Runs *)

Lemma run_due s tr s' d key :
  service_run cfg s tr s' → due s d key →
  (d ≤ queue_events tr)%nat ∧ stored s' key ∨
  (queue_events tr < d)%nat ∧ due s' (d - queue_events tr) key.
Proof.
  intros Hr Hd. apply (service_run_inv cfg (λ tr s',
    (d ≤ queue_events tr)%nat ∧ stored s' key ∨
    (queue_events tr < d)%nat ∧ due s' (d - queue_events tr) key) s tr s'); [| |done].
  - right. unfold queue_events. simpl. rewrite Nat.sub_0_r. split; [|done].
    destruct Hd as (_ & _ & i & -> & _). unfold head_steps. destruct (sh_queue s); lia.
  - clear tr s' Hr Hd. intros tr s1 ev s2 [[Hle [proof Hst]]|[Hlt Hd]] Hstep; rewrite queue_events_snoc.
    + left. split; [lia|]. by eapply step_proof_stays.
    + assert (Hdec : ev = EvQueue ∨ ev ≠ EvQueue) by (destruct ev; auto).
      destruct Hdec as [->|Hne].
      * inversion Hstep as [| | | | |? ? Hq]; subst.
        destruct (queue_due _ _ _ _ Hq Hd) as [[Hd1 Hs]|[Hd2 Hd']]; [left|right].
        -- split; [lia|done].
        -- split; [lia|]. by replace (d - (queue_events tr + 1))%nat with (pred (d - queue_events tr)) by lia.
      * right. replace (queue_events tr + _)%nat with (queue_events tr) by (destruct ev; done || lia).
        split; [done|]. by eapply handler_due.
Qed.

(** A task that is sent comes after the backlog. *)
Lemma sent_due s task :
  let s1 := mkShared (sh_outputs s) (sh_db s) (ch_send (sh_tasks s) task) (sh_queue s) in
  (∀ p, sh_queue s ≠ QPanicked p) → is_Some (db_apps (sh_db s) !! key_app_id (task_key task)) →
  Forall entry_servable (backlog s1) →
  due s1 (3 * length (backlog s) + head_steps s) (task_key task).
Proof.
  intros s1 Hq Happ Hall. do 2 (split; [done|]). exists (length (backlog s)). split; [done|].
  split; [|by apply Forall_take].
  assert (Hb : backlog s1 = backlog s ++ [(task_key task, Some task)]).
  { unfold backlog, s1. simpl. rewrite ch_send_contents, fmap_app. apply app_assoc. }
  by rewrite Hb, list_lookup_middle.
Qed.

(** ** Properties *)

(** The queue serves its backlog in order, and does not stop.  From a
    state whose waiting tasks can all be served, with at least one worker,
    whatever the clients do meanwhile, the [i]-th task (from 0) is in the database after exactly
    [3 * i] queue steps more than the first one needs (3, or what is left of
    them for the task in hand), if its application is registered; and as
    long as that many have not been made, the queue can make one. *)
Theorem queue_serves_in_order s tr s' i key :
  (∀ p, sh_queue s ≠ QPanicked p) → Forall entry_servable (backlog s) →
  service_run cfg s tr s' →
  fst <$> (backlog s !! i) = Some key → is_Some (db_apps (sh_db s) !! key_app_id key) →
  ((3 * i + head_steps s ≤ queue_events tr)%nat → stored s' key) ∧
  ((queue_events tr < 3 * i + head_steps s)%nat →
   ∃ s'', queue_step (C := C) workers_of s' s'').
Proof.
  intros Hq Hall Hr Hi Happ.
  assert (Hd : due s (3 * i + head_steps s) key).
  { split; [done|]. split; [done|]. exists i. split; [done|]. split; [done|]. by apply Forall_take. }
  destruct (run_due _ _ _ _ _ Hr Hd) as [[Hle Hst]|[Hlt Hd']]; split; intros; try done; try lia.
  by eapply due_can_step.
Qed.

(** Every accepted task is proved and its proof can be fetched.  When a
    request under the plain id of the application is accepted while the loop
    is alive, with at least one worker, and every task before it and its own
    can be served, then after
    three queue steps for each of them every request for its result is
    answered with a proof, whatever the clients do meanwhile; and until then
    the queue can always step. *)
Theorem accepted_task_is_proved s req s1 tr s' :
  (∀ p, sh_queue s ≠ QPanicked p) → strip_0x (prove_app_id req) = prove_app_id req →
  prove_task_handler s req = Ret (s1, Ok (mkProveTaskResponse None)) →
  Forall entry_servable (backlog s1) → service_run cfg s1 tr s' →
  ((3 * length (backlog s) + head_steps s ≤ queue_events tr)%nat →
   ∃ s'' proof,
     get_proving_result s' (mkGetProvingResultRequest (prove_app_id req) (prove_task_id req)) =
       (s'', Ok (mkGetProvingResultResponse None (Some proof)))) ∧
  ((queue_events tr < 3 * length (backlog s) + head_steps s)%nat →
   ∃ s'', queue_step (C := C) workers_of s' s'').
Proof.
  intros Hq Hplain Hprove Hall Hr. unfold prove_task_handler in Hprove. bind_inv Hprove.
  destruct a as [app|e]; [|done]. injection Hprove as <-.
  assert (Happ : is_Some (db_apps (sh_db s) !! prove_app_id req)).
  { rewrite <- Hplain. by eapply find_app_row. }
  pose proof (sent_due s (request_task req app) Hq Happ Hall) as Hd.
  destruct (run_due _ _ _ _ _ Hr Hd) as [[Hle [proof Hst]]|[Hlt Hd']]; split; intros; try lia.
  - by eapply stored_proof_answer.
  - by eapply due_can_step.
Qed.
End ServiceLive.

(** *** Witnesses

    The three-chunk task of [Service.v]. *)

#[local] Existing Instance release_build.

Definition three_task : ProvingTask :=
  request_task (History.prove_req ThreeChunks.app_id false) three_app.

Lemma three_servable : servable three_task.
Proof.
  split.
  - reflexivity.
  - exists ThreeChunks.records, symbolic_valid, (λ c, c = seqZ 0 3).
    split; [apply three_emulates|]. split; [vm_compute; split; discriminate|apply symbolic_laws].
  - intros e p _. vm_compute. discriminate.
Qed.

(** The three steps of the queue on an accepted task. *)
Definition accepted_state : shared list memory_db := mkShared ∅ three_db [three_task] QWaiting.

Lemma three_queue_run :
  service_run (C := list) History.cfg accepted_state [EvQueue; EvQueue; EvQueue] History.stored_state.
Proof.
  apply (run_snoc _ _ [EvQueue; EvQueue]
    (mkShared History.outputs three_db [] (QStoring History.key History.proof))).
  - apply (run_snoc _ _ [EvQueue] (History.proving_state ThreeChunks.app_id false)).
    + apply (run_snoc _ _ [] accepted_state); [constructor|]. by apply step_queue, queue_step_recv.
    + apply step_queue. exact (queue_step_proved _ (History.proving_state ThreeChunks.app_id false) _ _
        eq_refl (History.key_proved ThreeChunks.app_id)).
  - apply step_queue. exact (queue_step_stored _
      (mkShared History.outputs three_db [] (QStoring History.key History.proof)) _ _ eq_refl).
Qed.

Lemma queue_serves_in_order_witness : stored History.stored_state History.key.
Proof.
  pose proof (queue_serves_in_order (C := list) History.cfg (le_n _) (le_n _) accepted_state) as Hserve.
  refine (proj1 (Hserve _ _ O History.key _ _ three_queue_run eq_refl _) (le_n _)).
  - discriminate.
  - constructor; [exact three_servable|constructor].
  - vm_compute. eauto.
Defined.

Lemma accepted_task_is_proved_witness :
  ∃ s'' proof, get_proving_result History.stored_state
    (mkGetProvingResultRequest ThreeChunks.app_id "task") =
    (s'', Ok (mkGetProvingResultResponse None (Some proof))).
Proof.
  pose proof (accepted_task_is_proved (C := list) History.cfg (le_n _) (le_n _)
    History.registered_state (History.prove_req ThreeChunks.app_id false) accepted_state) as Haccepted.
  refine (proj1 (Haccepted _ _ _ _ _ _ three_queue_run) (le_n _)).
  - discriminate.
  - reflexivity.
  - vm_compute. reflexivity.
  - constructor; [exact three_servable|constructor].
Defined.
