(* ===== verification/Concurrent.v ===== *)
(** * The handlers in flight ([src/src/grpc.rs])

    In [Grpc.v] a handler is one step of the service.  The functions are
    asynchronous: a registration awaits the database twice, a proving request
    looks its application up and sends its task later, a request for a result
    looks in the map and then in the database, and the future of a client
    that has gone is dropped wherever it stands.  Here every call in flight is
    a thread whose actions are the accesses to the shared state; the calls
    that return do so as steps of the service, except that a result may be
    read from the database alone. *)

From S2P Require Import Prelude PicoVM Messages Task Provers Worker Channel Onchain Emulator.
From S2P Require Import Gateway Pipeline PipelineInv Derivation Database AppManager Registration CostEstimation Auth.
From S2P Require Import ProvingQueue Grpc Service ServiceLive.

Section Concurrent.
Context `{PicoVM, RustBuild, !GnarkEnv, AlloyU256, !AppEnv, !CostEnv}.
Context `{!Bincode Program, !Bincode BaseProvingKey, !Bincode BaseVerifyingKey}.
Context `{Chan C, Database D}.
Context (cfg : ServiceConfig).

Implicit Types s : shared C D.

(** ** The actions of a call *)

(** Where a call stands: not begun; a registration that is to insert its
    row; a proving request that is to send its task; a request for a result
    that is to ask the database; returned. *)
Inductive call_state : Type :=
  | CallStart
  | CallInsert (app : App) (row : AppRow)
  | CallSend (app : App)
  | CallFetch
  | CallDone (res : outcome (result rpc_response Status)).

Definition register_reply (res : result App string) : result rpc_response Status :=
  match res with
  | Err e => Err (Internal ("failed to register app: " +:+ e))
  | Ok app => Ok (Resp_RegisterApp (mkRegisterAppResponse None (app_app_id app)))
  end.

Definition call_of_registration (st : registration) : call_state :=
  match st with
  | RegStart => CallStart
  | RegInsert app row => CallInsert app row
  | RegDone res => CallDone (Ret (register_reply res))
  | RegPanicked p => CallDone (Panic p)
  end.

(** The second half of [get_proving_result]. *)
Definition fetch_proof s (req : GetProvingResultRequest) : result GetProvingResultResponse Status :=
  match select_proof (sh_db s) (result_app_id req) (result_task_id req) with
  | Err e => Err (Internal ("failed to get proof from database: " +:+ e))
  | Ok row => Ok (mkGetProvingResultResponse None
                (match row with Some proof => proof | None => None end))
  end.

Definition get_key (req : GetProvingResultRequest) : ProvingKey :=
  mkProvingKey (result_app_id req) (result_task_id req).

Definition call_action s (req : rpc_request) (st : call_state) : option (shared C D * call_state) :=
  match req, st with
  | Rpc_RegisterApp req, CallStart =>
      Some (s, call_of_registration (reg_select (sh_db s) (register_elf req) (register_info req)))
  | Rpc_RegisterApp req, CallInsert app row =>
      let '(db, st) := reg_insert (sh_db s) app row in Some (with_db s db, call_of_registration st)
  | Rpc_EstimateCost req, CallStart =>
      Some (s, CallDone (res ← estimate_cost_handler cfg s req; Ret (map_ok Resp_EstimateCost res)))
  | Rpc_ProveTask req, CallStart =>
      Some (s, match find_app s (prove_app_id req) with
               | Panic p => CallDone (Panic p)
               | Ret (Err e) => CallDone (Ret (Err e))
               | Ret (Ok app) => CallSend app
               end)
  | Rpc_ProveTask req, CallSend app =>
      Some (mkShared (sh_outputs s) (sh_db s) (ch_send (sh_tasks s) (request_task req app)) (sh_queue s),
            CallDone (Ret (Ok (Resp_ProveTask (mkProveTaskResponse None)))))
  | Rpc_GetProvingResult req, CallStart =>
      match pop_output (sh_outputs s) (get_key req) with
      | (outputs, Some output) =>
          Some (mkShared outputs (sh_db s) (sh_tasks s) (sh_queue s),
                CallDone (Ret (Ok (Resp_GetProvingResult
                  (mkGetProvingResultResponse None (Some (output_proof output)))))))
      | (_, None) => Some (s, CallFetch)
      end
  | Rpc_GetProvingResult req, CallFetch =>
      Some (s, CallDone (Ret (map_ok Resp_GetProvingResult (fetch_proof s req))))
  | _, _ => None
  end.

(** ** Runs *)

Record concurrent : Type := mkConcurrent {
  conc_shared : shared C D;
  conc_calls : list (rpc_request * call_state);
}.

(** What is seen of a run: the calls that return, and the queue. *)
Inductive conc_event : Type :=
  | ConcReturn (req : rpc_request) (res : outcome (result rpc_response Status))
  | ConcQueue.

Definition call_returns (req : rpc_request) (st : call_state) : list conc_event :=
  match st with CallDone res => [ConcReturn req res] | _ => [] end.

Inductive conc_step : concurrent → list conc_event → concurrent → Prop :=
  | conc_arrive s calls req :
      conc_step (mkConcurrent s calls) [] (mkConcurrent s (calls ++ [(req, CallStart)]))
  | conc_act s calls i req st s' st' :
      calls !! i = Some (req, st) → call_action s req st = Some (s', st') →
      conc_step (mkConcurrent s calls) (call_returns req st')
        (mkConcurrent s' (<[i := (req, st')]> calls))
  | conc_drop s calls1 call calls2 :
      (* the response has gone out, or the client has *)
      conc_step (mkConcurrent s (calls1 ++ call :: calls2)) []
        (mkConcurrent s (calls1 ++ calls2))
  | conc_queue s s' calls :
      queue_step (C := C) (Z.to_nat (prover_count cfg)) s s' →
      conc_step (mkConcurrent s calls) [ConcQueue] (mkConcurrent s' calls).

Inductive conc_run : concurrent → list conc_event → concurrent → Prop :=
  | conc_nil c : conc_run c [] c
  | conc_snoc c log c1 evs c2 :
      conc_run c log c1 → conc_step c1 evs c2 → conc_run c (log ++ evs) c2.

Lemma conc_run_app c1 log1 c2 log2 c3 :
  conc_run c1 log1 c2 → conc_run c2 log2 c3 → conc_run c1 (log1 ++ log2) c3.
Proof.
  intros Hr1 Hr2. revert Hr1. induction Hr2 as [c|c log c' evs c'' _ IH Hst]; intros Hr1.
  - by rewrite app_nil_r.
  - rewrite app_assoc. eapply conc_snoc; [by apply IH|done].
Qed.

(** ** The same as steps of the service *)

(** The event of [Grpc.v] behind what is seen.  Only the text of the error of
    a registration may differ (the loser of a race fails on the insertion,
    not on the lookup). *)
Inductive event_shows : event → conc_event → Prop :=
  | shows_register req res : event_shows (EvRegister req res)
      (ConcReturn (Rpc_RegisterApp req) (Ret (map_ok Resp_RegisterApp res)))
  | shows_lost_race req e e' : event_shows (EvRegister req (Err (Internal e)))
      (ConcReturn (Rpc_RegisterApp req) (Ret (Err (Internal e'))))
  | shows_estimate req res : event_shows (EvEstimate req res)
      (ConcReturn (Rpc_EstimateCost req) (Ret (map_ok Resp_EstimateCost res)))
  | shows_prove req res : event_shows (EvProve req res)
      (ConcReturn (Rpc_ProveTask req) (Ret (map_ok Resp_ProveTask res)))
  | shows_get req res : event_shows (EvGet req res)
      (ConcReturn (Rpc_GetProvingResult req) (Ret (map_ok Resp_GetProvingResult res)))
  | shows_panic req p : event_shows (EvPanic req p) (ConcReturn req (Panic p))
  | shows_queue : event_shows EvQueue ConcQueue.

(** A run of the service that shows a log: event by event, but for the
    results read from the database alone, which change nothing. *)
Inductive linear s : list conc_event → list event → shared C D → Prop :=
  | linear_nil : linear s [] [] s
  | linear_event log tr s1 ev s2 seen :
      linear s log tr s1 → service_step cfg s1 ev s2 → event_shows ev seen →
      linear s (log ++ [seen]) (tr ++ [ev]) s2
  | linear_fetch log tr s1 req :
      linear s log tr s1 →
      linear s (log ++ [ConcReturn (Rpc_GetProvingResult req)
        (Ret (map_ok Resp_GetProvingResult (fetch_proof s1 req)))]) tr s1.

Lemma linear_run s log tr s' : linear s log tr s' → service_run cfg s tr s'.
Proof. induction 1; [constructor|by eapply run_snoc|done]. Qed.

Lemma get_is_fetch s req :
  sh_outputs s !! get_key req = None → get_proving_result s req = (s, fetch_proof s req).
Proof. unfold get_proving_result, pop_output, fetch_proof, get_key. by intros ->. Qed.
End Concurrent.

(** ** Every run is such a run *)

Section Linearize.
Context `{PicoVM, RustBuild, !GnarkEnv, AlloyU256, !AppEnv, !CostEnv}.
Context `{!Bincode Program, !Bincode BaseProvingKey, !Bincode BaseVerifyingKey}.
Context `{!BincodeSpec Program, !BincodeSpec BaseProvingKey, !BincodeSpec BaseVerifyingKey}.
Context `{!AppEnvSpec, FifoChan C, DatabaseSpec D, !DatabaseLive D}.
Context (cfg : ServiceConfig).

Implicit Types s : shared C D.

(** What a waiting call remembers still holds. *)
Definition call_ok s (call : rpc_request * call_state) : Prop :=
  match call with
  | (Rpc_RegisterApp req, CallInsert app row) =>
      App_new (register_elf req) (register_info req) = Ret app ∧ AppRow_from app = Ret row
  | (Rpc_ProveTask req, CallSend app) =>
      ∃ row, db_apps (sh_db s) !! strip_0x (prove_app_id req) = Some row ∧ App_from row = Ret app
  | _ => True
  end.

(** Rows of [apps] are added, never changed. *)
Definition apps_stay s s' : Prop := db_apps (sh_db s) ⊆ db_apps (sh_db s').

Lemma apps_same s s' : sh_db s' = sh_db s → apps_stay s s'.
Proof. unfold apps_stay. by intros ->. Qed.

Hint Resolve apps_same : core.

Lemma call_ok_stays s s' call : apps_stay s s' → call_ok s call → call_ok s' call.
Proof.
  intros Hs. destruct call as [[?|?|req|?] [|? ?|app| |?]]; simpl; try done.
  intros (row & Hrow & Happ). exists row. split; [|done]. by eapply lookup_weaken.
Qed.

Lemma insert_app_stays (db : D) row db' : insert_app db row = Ok db' → db_apps db ⊆ db_apps db'.
Proof. intros (Hn & -> & _)%insert_app_ok. by apply insert_subseteq. Qed.

Lemma queue_apps n s s' : queue_step (C := C) n s s' → db_apps (sh_db s') = db_apps (sh_db s).
Proof.
  intros Hq. destruct Hq as [s task tasks _ _|s task res _ _|s key proof _]; simpl; [done| |].
  - by destruct res as [[]|].
  - unfold store_proof_in_db. destruct (replace_proof _ _ _ _) as [db|] eqn:E; [|done].
    by apply replace_proof_ok in E as (_ & -> & _).
Qed.

(** What an action does for the service, whatever was seen before. *)
Definition advances s (req : rpc_request) s' (st' : call_state) : Prop :=
  call_ok s' (req, st') ∧ rows_decode (sh_db s') ∧ apps_stay s s' ∧
  ∀ s0 log tr, linear cfg s0 log tr s →
    ∃ tr', linear cfg s0 (log ++ call_returns req st') tr' s'.

Lemma advances_wait s req st' :
  rows_decode (sh_db s) → call_ok s (req, st') → call_returns req st' = [] →
  advances s req s st'.
Proof. intros ? ? Hnil. do 2 (split; [done|]). split; [by auto|]. intros s0 log tr Hl. rewrite Hnil, app_nil_r. eauto. Qed.

Lemma advances_event s req s' res ev :
  rows_decode (sh_db s') → apps_stay s s' → service_step cfg s ev s' →
  event_shows ev (ConcReturn req res) → advances s req s' (CallDone res).
Proof.
  intros Hrows Hst Hev Hsh. split; [by destruct req|]. do 2 (split; [done|]).
  intros s0 log tr Hl. exists (tr ++ [ev]). by eapply linear_event.
Qed.

Lemma register_select_advances s req :
  rows_decode (sh_db s) →
  advances s (Rpc_RegisterApp req) s
    (call_of_registration (reg_select (sh_db s) (register_elf req) (register_info req))).
Proof.
  intros Hrows.
  pose proof (reg_select_ok (sh_db s) (register_elf req) (register_info req)) as Hok.
  pose proof (select_is_call (sh_db s) (register_elf req) (register_info req)) as Hcall.
  destruct (reg_select _ _ _) as [|app row|res|p]; simpl in *.
  - by apply advances_wait.
  - by apply advances_wait.
  - specialize (Hcall _ eq_refl). simpl in Hcall.
    apply (advances_event _ _ _ _ (EvRegister req (match res with
      | Err e => Err (Internal ("failed to register app: " +:+ e))
      | Ok app => Ok (mkRegisterAppResponse None (app_app_id app)) end))); [auto..| |].
    + apply step_register. unfold register_app. rewrite Hcall. destruct s. by destruct res.
    + destruct res; apply shows_register.
  - specialize (Hcall _ eq_refl). simpl in Hcall.
    apply (advances_event _ _ _ _ (EvPanic (Rpc_RegisterApp req) p)); [auto..| |constructor].
    apply step_panic. simpl. unfold register_app. by rewrite Hcall.
Qed.

Lemma register_insert_advances s req app row db st :
  rows_decode (sh_db s) → call_ok s (Rpc_RegisterApp req, CallInsert app row) →
  reg_insert (sh_db s) app row = (db, st) →
  advances s (Rpc_RegisterApp req) (with_db s db) (call_of_registration st).
Proof.
  intros Hrows [Hnew Hrow] Ei.
  destruct (insert_is_call _ _ _ _ _ _ _ Hrows Hnew Hrow Ei) as (Hrows' & res & res' & -> & Hset & _ & Hs).
  assert (Hstay : apps_stay s (with_db s db)).
  { unfold reg_insert in Ei. destruct (insert_app (sh_db s) row) as [db1|] eqn:E; injection Ei as <- _; [|by apply apps_same].
    by eapply insert_app_stays. }
  simpl in *.
  apply (advances_event _ _ _ _ (EvRegister req (match res' with
    | Err e => Err (Internal ("failed to register app: " +:+ e))
    | Ok app => Ok (mkRegisterAppResponse None (app_app_id app)) end))); [auto..| |].
  - apply step_register. unfold register_app. rewrite Hset. by destruct res'.
  - destruct res as [a|e], res' as [a'|e']; try done; [subst; apply shows_register|constructor].
Qed.

Lemma action_advances s req st s' st' :
  rows_decode (sh_db s) → call_ok s (req, st) → call_action cfg s req st = Some (s', st') →
  advances s req s' st'.
Proof.
  intros Hrows Hok E.
  destruct req as [req|req|req|req], st as [|app row|app| |res]; simpl in E; try done.
  - injection E as <- <-. by apply register_select_advances.
  - destruct (reg_insert (sh_db s) app row) as [db st] eqn:Ei. injection E as <- <-.
    by eapply register_insert_advances.
  - injection E as <- <-. destruct (estimate_cost_handler cfg s req) as [res|p] eqn:Ee; simpl.
    + eapply advances_event; [auto..|by apply step_estimate|constructor].
    + eapply advances_event; [auto..| |constructor]. apply step_panic. simpl. by rewrite Ee.
  - injection E as <- <-. destruct (find_app s (prove_app_id req)) as [[app|e]|p] eqn:Ef.
    + apply advances_wait; [done| |done]. simpl. unfold find_app in Ef. bind_inv Ef.
      destruct a as [[app'|]|e]; simplify_eq. by apply get_app_found.
    + apply (advances_event _ _ _ _ (EvProve req (Err e))); [auto..| |apply (shows_prove req (Err e))].
      apply step_prove. unfold prove_task_handler. by rewrite Ef.
    + apply (advances_event _ _ _ _ (EvPanic (Rpc_ProveTask req) p)); [auto..| |constructor].
      apply step_panic. simpl. unfold prove_task_handler. by rewrite Ef.
  - injection E as <- <-. destruct Hok as (row & Hrow & Happ).
    apply (advances_event _ _ _ _ (EvProve req (Ok (mkProveTaskResponse None))));
      [auto..| |apply (shows_prove req (Ok (mkProveTaskResponse None)))].
    apply step_prove. unfold prove_task_handler, find_app. by rewrite (get_app_row _ _ _ _ Hrow Happ).
  - unfold pop_output in E. destruct (sh_outputs s !! get_key req) as [out|] eqn:Eo;
      injection E as <- <-; [|by apply advances_wait].
    apply (advances_event _ _ _ _ (EvGet req (Ok (mkGetProvingResultResponse None (Some (output_proof out))))));
      [auto..| |apply shows_get].
    apply step_get. unfold get_proving_result, pop_output. unfold get_key in *. by rewrite Eo.
  - injection E as <- <-. split; [done|]. do 2 (split; [by auto|]).
    intros s0 log tr Hl. exists tr. by apply linear_fetch.
Qed.

(** Where a run has come. *)
Record conc_inv s0 (log : list conc_event) (c : concurrent) : Prop := {
  conc_linear : ∃ tr, linear cfg s0 log tr (conc_shared c);
  conc_rows : rows_decode (sh_db (conc_shared c));
  conc_calls_ok : Forall (call_ok (conc_shared c)) (conc_calls c);
}.

Lemma conc_step_inv s0 log c evs c' :
  conc_inv s0 log c → conc_step cfg c evs c' → conc_inv s0 (log ++ evs) c'.
Proof.
  intros [[tr Hl] Hrows Hcalls] Hst.
  destruct Hst as [s calls req|s calls i req st s' st' Hi Ha|s calls1 call calls2|s s' calls Hq]; simpl in *.
  - split; simpl; [rewrite app_nil_r; eauto|done|]. apply Forall_app. split; [done|].
    constructor; [by destruct req|done].
  - destruct (action_advances s req st s' st' Hrows (Forall_lookup_1 _ _ _ _ Hcalls Hi) Ha)
      as (Hok & Hrows' & Hstay & Hadv).
    split; simpl; [by eapply Hadv|done|]. apply Forall_insert; [|done].
    eapply Forall_impl; [exact Hcalls|]. intros call. by apply call_ok_stays.
  - split; simpl; [rewrite app_nil_r; eauto|done|].
    apply Forall_app in Hcalls as [? [_ ?]%Forall_cons]. by apply Forall_app.
  - pose proof (queue_apps _ _ _ Hq) as Hq'. split; simpl.
    + exists (tr ++ [EvQueue]). eapply linear_event; [done|by apply step_queue|constructor].
    + unfold rows_decode. by rewrite Hq'.
    + eapply Forall_impl; [exact Hcalls|]. intros call. apply call_ok_stays. unfold apps_stay. by rewrite Hq'.
Qed.

Lemma conc_run_inv c log c' :
  rows_decode (sh_db (conc_shared c)) → Forall (call_ok (conc_shared c)) (conc_calls c) →
  conc_run cfg c log c' → conc_inv (conc_shared c) log c'.
Proof.
  intros Hrows Hcalls Hr. induction Hr as [c|c log c1 evs c2 Hr IH Hst].
  - split; [exists []; constructor|done..].
  - eapply conc_step_inv; [by apply IH|done].
Qed.
End Linearize.

(** ** What the log says of the service *)

Section Log.
Context `{PicoVM, RustBuild, !GnarkEnv, AlloyU256, !AppEnv, !CostEnv}.
Context `{!Bincode Program, !Bincode BaseProvingKey, !Bincode BaseVerifyingKey}.
Context `{!BincodeSpec Program, !BincodeSpec BaseProvingKey, !BincodeSpec BaseVerifyingKey}.
Context `{!AppEnvSpec, FifoChan C, DatabaseSpec D}.
Context (cfg : ServiceConfig).

Lemma linear_seen (s : shared C D) log tr s' ev :
  linear cfg s log tr s' → ev ∈ tr → ∃ seen, seen ∈ log ∧ event_shows ev seen.
Proof.
  induction 1 as [|log tr s1 ev' s2 seen Hl IH Hst Hsh|log tr s1 req Hl IH]; intros Hin.
  - by apply elem_of_nil in Hin.
  - apply elem_of_app in Hin as [Hin| ->%list_elem_of_singleton].
    + destruct (IH Hin) as (seen' & ? & ?). exists seen'. split; [apply elem_of_app; by left|done].
    + exists seen. split; [apply elem_of_app; right; by left|done].
  - destruct (IH Hin) as (seen' & ? & ?). exists seen'. split; [apply elem_of_app; by left|done].
Qed.

(** The proofs that are seen. *)
Lemma linear_results db log tr (s : shared C D) req resp proof :
  db_apps db = ∅ → db_proofs db = ∅ → linear cfg (service_init db) log tr s →
  ConcReturn (Rpc_GetProvingResult req) (Ret (Ok (Resp_GetProvingResult resp))) ∈ log →
  result_proof resp = Some proof → proved_for (C := C) cfg tr (get_key req) proof.
Proof.
  intros Ha Hp Hl Hin Hres.
  induction Hl as [|log tr s1 ev s2 seen Hl IH Hst Hsh|log tr s1 req' Hl IH].
  - by apply elem_of_nil in Hin.
  - apply elem_of_app in Hin as [Hin|Hnew%list_elem_of_singleton]; [by apply proved_more, IH|].
    pose proof (service_inv cfg db tr s1 Ha Hp (linear_run _ _ _ _ _ Hl)) as Hinv.
    subst seen. inversion Hsh as [| | | |req'' [res|e] E| |]; simplify_eq/=.
    inversion Hst as [| | |? ? ? ? Hget| |]; subst.
    eapply proved_more, get_result_proved; [exact Hinv|exact Hget|exact Hres].
  - apply elem_of_app in Hin as [Hin|Hnew%list_elem_of_singleton]; [by apply IH|].
    pose proof (service_inv cfg db tr s1 Ha Hp (linear_run _ _ _ _ _ Hl)) as Hinv.
    injection Hnew as <- Hf. unfold fetch_proof in Hf.
    destruct (select_proof _ _ _) as [row|e] eqn:Esel; [|done]. injection Hf as ->.
    apply select_proof_ok in Esel. simpl in Hres. destruct row as [[p|]|]; simplify_eq.
    by eapply svc_proofs.
Qed.

Definition queue_seen (log : list conc_event) : nat :=
  list_sum (map (λ ev, match ev with ConcQueue => 1%nat | _ => 0%nat end) log).

Lemma queue_seen_snoc log ev :
  queue_seen (log ++ [ev]) = (queue_seen log + match ev with ConcQueue => 1 | _ => 0 end)%nat.
Proof. unfold queue_seen. rewrite map_app, list_sum_app. by destruct ev. Qed.

Lemma linear_queue (s : shared C D) log tr s' :
  linear cfg s log tr s' → queue_events tr = queue_seen log.
Proof.
  induction 1 as [|log tr s1 ev s2 seen Hl IH Hst Hsh|log tr s1 req Hl IH]; [done| |].
  - rewrite queue_events_snoc, queue_seen_snoc, IH. by destruct Hsh.
  - rewrite queue_seen_snoc, IH. lia.
Qed.
End Log.

(** ** Properties *)

Section Properties.
Context `{PicoVM, RustBuild, !GnarkEnv, AlloyU256, !AppEnv, !CostEnv}.
Context `{!Bincode Program, !Bincode BaseProvingKey, !Bincode BaseVerifyingKey}.
Context `{!BincodeSpec Program, !BincodeSpec BaseProvingKey, !BincodeSpec BaseVerifyingKey}.
Context `{!AppEnvSpec, FifoChan C, DatabaseSpec D, !DatabaseLive D}.
Context (cfg : ServiceConfig).

(** The service started on a database, with no call in flight. *)
Definition conc_init (db : D) : concurrent := mkConcurrent (service_init (C := C) db) [].

Lemma empty_rows_decode (db : D) : db_apps db = ∅ → rows_decode db.
Proof. intros Ha id row. by rewrite Ha, lookup_empty. Qed.

(** C8: the handlers are linearizable.  Whatever calls arrive, are
    interleaved with each other and with the queue at every access to the
    database, and are dropped half way, what is seen (the calls that return,
    with their responses, and the steps of the queue) is what a run of the
    service shows in which each of those calls is one step, with the same
    shared state in the end; except that a result can be read from the
    database alone, which changes nothing, and that the text of the error of
    a registration that lost a race differs. *)
Theorem handlers_linearize db log (c : concurrent) :
  rows_decode db → conc_run cfg (conc_init db) log c →
  ∃ tr, linear cfg (service_init db) log tr (conc_shared c) ∧
    service_run cfg (service_init db) tr (conc_shared c).
Proof.
  intros Hrows Hr. destruct (conc_run_inv cfg (conc_init db) log c) as [[tr Hl] _ _]; [done..|].
  exists tr. split; [done|by eapply linear_run].
Qed.

(** The proofs that are answered, and what was answered before. *)
Lemma conc_results_derived db log (c : concurrent) req resp proof :
  db_apps db = ∅ → db_proofs db = ∅ → conc_run cfg (conc_init db) log c →
  ConcReturn (Rpc_GetProvingResult req) (Ret (Ok (Resp_GetProvingResult resp))) ∈ log →
  result_proof resp = Some proof →
  ∃ elf info app preq,
    App_new elf info = Ret app ∧
    ConcReturn (Rpc_RegisterApp (mkRegisterAppRequest elf info))
      (Ret (Ok (Resp_RegisterApp (mkRegisterAppResponse None (app_app_id app))))) ∈ log ∧
    ConcReturn (Rpc_ProveTask preq) (Ret (Ok (Resp_ProveTask (mkProveTaskResponse None)))) ∈ log ∧
    strip_0x (prove_app_id preq) = app_app_id app ∧
    prove_app_id preq = result_app_id req ∧ prove_task_id preq = result_task_id req ∧
    ((2 ≤ COMBINE_SIZE)%nat → ∀ recs, task_emulates (request_task preq app) recs None →
       chunk_count recs ≤ usize_max →
       ∃ e hi, delivered (request_task preq app) e proof ∧
         final_embed (request_task preq app) recs hi e ∧ 0 < hi ≤ chunk_count recs).
Proof.
  intros Ha Hp Hr Hin Hres.
  destruct (conc_run_inv cfg (conc_init db) log c) as [[tr Hl] _ _];
    [by apply empty_rows_decode|done..|].
  destruct (linear_results cfg db log tr _ req resp proof Ha Hp Hl Hin Hres)
    as (task & (preq & app & -> & Hprove & (elf & info & En & Hreg) & Hid) & Hk & Hpt).
  injection Hk as Hka Hkt. exists elf, info, app, preq.
  destruct (linear_seen cfg _ _ _ _ _ Hl Hreg) as (seen & Hseen & Hsh).
  destruct (linear_seen cfg _ _ _ _ _ Hl Hprove) as (seen' & Hseen' & Hsh').
  inversion Hsh; inversion Hsh'; subst. do 4 (split; [done|]). do 2 (split; [done|]).
  intros Hsize recs Hem Hc. by eapply prove_task_derived.
Qed.

(** C7: provenance of every proof a client is sent.  Whatever calls are in
    flight, when a request for a result has been answered with a proof, the
    answers seen so far contain the registration of an application and the
    acceptance of a proving request with the application id and the task id
    of that request; and if the emulation of that task can be counted, the
    proof is the on-chain outcome of an embed proof, verified against the
    application's key, that was derived from the records of the emulation. *)
Theorem concurrent_provenance db log (c : concurrent) req resp proof :
  db_apps db = ∅ → db_proofs db = ∅ → conc_run cfg (conc_init db) log c →
  ConcReturn (Rpc_GetProvingResult req) (Ret (Ok (Resp_GetProvingResult resp))) ∈ log →
  result_proof resp = Some proof →
  ∃ elf info app preq,
    App_new elf info = Ret app ∧
    ConcReturn (Rpc_RegisterApp (mkRegisterAppRequest elf info))
      (Ret (Ok (Resp_RegisterApp (mkRegisterAppResponse None (app_app_id app))))) ∈ log ∧
    ConcReturn (Rpc_ProveTask preq) (Ret (Ok (Resp_ProveTask (mkProveTaskResponse None)))) ∈ log ∧
    strip_0x (prove_app_id preq) = app_app_id app ∧
    prove_app_id preq = result_app_id req ∧ prove_task_id preq = result_task_id req ∧
    ((2 ≤ COMBINE_SIZE)%nat → ∀ recs, task_emulates (request_task preq app) recs None →
       chunk_count recs ≤ usize_max →
       ∃ e hi, delivered (request_task preq app) e proof ∧
         final_embed (request_task preq app) recs hi e ∧ 0 < hi ≤ chunk_count recs).
Proof. apply conc_results_derived. Qed.

(** A proof in the database answers the requests for it, at either look. *)
Lemma stored_answers (s s' : shared C D) a t at_ res :
  stored s (mkProvingKey a t) →
  call_action cfg s (Rpc_GetProvingResult (mkGetProvingResultRequest a t)) at_ =
    Some (s', CallDone res) →
  ∃ proof, res = Ret (Ok (Resp_GetProvingResult (mkGetProvingResultResponse None (Some proof)))).
Proof.
  intros [proof Hp] E. simpl in *. destruct at_; try done.
  - unfold pop_output in E. destruct (sh_outputs s !! _) as [out|]; [|done]. injection E as _ <-. eauto.
  - injection E as _ <-. unfold fetch_proof. simpl. pose proof (select_proof_live (sh_db s) a t) as Hl.
    destruct (select_proof (sh_db s) a t) as [row|] eqn:E; [|done].
    apply select_proof_ok in E. rewrite Hp in E. subst row. eauto.
Qed.

(** The way from a sent task to its proof. *)
Lemma conc_task_proved db log0 s calls i req app s1 st log (c : concurrent) :
  (2 ≤ COMBINE_SIZE)%nat → (0 < Z.to_nat (prover_count cfg))%nat → rows_decode db →
  conc_run cfg (conc_init db) log0 (mkConcurrent s calls) →
  calls !! i = Some (Rpc_ProveTask req, CallSend app) →
  call_action cfg s (Rpc_ProveTask req) (CallSend app) = Some (s1, st) →
  (∀ p, sh_queue s ≠ QPanicked p) → strip_0x (prove_app_id req) = prove_app_id req →
  Forall entry_servable (backlog s1) →
  conc_run cfg (mkConcurrent s1 (<[i := (Rpc_ProveTask req, st)]> calls)) log c →
  ((3 * length (backlog s) + head_steps s ≤ queue_seen log)%nat →
   stored (conc_shared c) (mkProvingKey (prove_app_id req) (prove_task_id req)) ∧
   ∀ at_ s' res,
     call_action cfg (conc_shared c)
       (Rpc_GetProvingResult (mkGetProvingResultRequest (prove_app_id req) (prove_task_id req)))
       at_ = Some (s', CallDone res) →
     ∃ proof, res = Ret (Ok (Resp_GetProvingResult (mkGetProvingResultResponse None (Some proof))))) ∧
  ((queue_seen log < 3 * length (backlog s) + head_steps s)%nat →
   ∃ s'', queue_step (C := C) (Z.to_nat (prover_count cfg)) (conc_shared c) s'').
Proof.
  intros Hsize Hworkers Hrows Hr0 Hi Hact Hq Hplain Hall Hr.
  destruct (conc_run_inv cfg (conc_init db) log0 (mkConcurrent s calls)) as [_ Hrows0 Hok0]; [done..|].
  simpl in *.
  pose proof (Forall_lookup_1 _ _ _ _ Hok0 Hi) as Hok. pose proof Hok as (row & Hrow & _).
  destruct (action_advances cfg s _ _ _ _ Hrows0 Hok Hact) as (Hok1 & Hrows1 & Hstay & _).
  injection Hact as <- <-. rewrite Hplain in Hrow.
  edestruct (λ Ha Hb, conc_run_inv cfg _ log c Ha Hb Hr) as [[tr Hl] _ _]; [exact Hrows1| |].
  { apply Forall_insert; [|done]. eapply Forall_impl; [exact Hok0|]. intros call. by apply call_ok_stays. }
  pose proof (sent_due s (request_task req app) Hq (ex_intro _ row Hrow) Hall) as Hd.
  rewrite <- (linear_queue cfg _ _ _ _ Hl). apply linear_run in Hl.
  destruct (run_due cfg Hsize Hworkers _ _ _ _ _ Hl Hd) as [[Hle Hst]|[Hlt Hd']]; split; intros; try lia.
  - split; [exact Hst|]. intros at_ s' res. by apply stored_answers.
  - by eapply due_can_step.
Qed.

(** Every accepted task is proved, with calls in flight.  When a call
    under the plain id of the application sends its task while the queue is
    alive, with at least one worker, and every task up to its own can be
    served, then after three queue steps for each of them its proof is in
    the database, and a request for it, wherever it stands, is not answered
    without a proof, whatever else is in flight; and until then the queue can
    always step. *)
Theorem concurrent_task_is_proved db log0 s calls i req app s1 st log (c : concurrent) :
  (2 ≤ COMBINE_SIZE)%nat → (0 < Z.to_nat (prover_count cfg))%nat → rows_decode db →
  conc_run cfg (conc_init db) log0 (mkConcurrent s calls) →
  calls !! i = Some (Rpc_ProveTask req, CallSend app) →
  call_action cfg s (Rpc_ProveTask req) (CallSend app) = Some (s1, st) →
  (∀ p, sh_queue s ≠ QPanicked p) → strip_0x (prove_app_id req) = prove_app_id req →
  Forall entry_servable (backlog s1) →
  conc_run cfg (mkConcurrent s1 (<[i := (Rpc_ProveTask req, st)]> calls)) log c →
  ((3 * length (backlog s) + head_steps s ≤ queue_seen log)%nat →
   stored (conc_shared c) (mkProvingKey (prove_app_id req) (prove_task_id req)) ∧
   ∀ at_ s' res,
     call_action cfg (conc_shared c)
       (Rpc_GetProvingResult (mkGetProvingResultRequest (prove_app_id req) (prove_task_id req)))
       at_ = Some (s', CallDone res) →
     ∃ proof, res = Ret (Ok (Resp_GetProvingResult (mkGetProvingResultResponse None (Some proof))))) ∧
  ((queue_seen log < 3 * length (backlog s) + head_steps s)%nat →
   ∃ s'', queue_step (C := C) (Z.to_nat (prover_count cfg)) (conc_shared c) s'').
Proof. apply conc_task_proved. Qed.
End Properties.

(** ** A concrete run

    A request for the result arrives first and finds nothing in memory; the
    application is registered, the task is sent, proved and stored; then the
    first request reads the database. *)

Section Exec.
Context `{PicoVM, RustBuild, !GnarkEnv, AlloyU256, !AppEnv, !CostEnv}.
Context `{!Bincode Program, !Bincode BaseProvingKey, !Bincode BaseVerifyingKey}.
Context `{Chan C, Database D}.
Context (cfg : ServiceConfig).

(** The steps of the calls, executed. *)
Inductive conc_label : Type :=
  | CArrive (req : rpc_request)
  | CAct (i : nat).

Definition conc_exec_step (l : conc_label) (c : concurrent (C := C) (D := D)) :
    option (concurrent * list conc_event) :=
  match l with
  | CArrive req => Some (mkConcurrent (conc_shared c) (conc_calls c ++ [(req, CallStart)]), [])
  | CAct i =>
      '(req, st) ← conc_calls c !! i;
      '(s', st') ← call_action cfg (conc_shared c) req st;
      Some (mkConcurrent s' (<[i := (req, st')]> (conc_calls c)), call_returns req st')
  end.

Fixpoint conc_exec (ls : list conc_label) (c : concurrent (C := C) (D := D)) :
    option (concurrent * list conc_event) :=
  match ls with
  | [] => Some (c, [])
  | l :: ls =>
      '(c1, evs) ← conc_exec_step l c;
      '(c2, log) ← conc_exec ls c1;
      Some (c2, evs ++ log)
  end.

Lemma conc_exec_step_sound l c c' evs : conc_exec_step l c = Some (c', evs) → conc_step cfg c evs c'.
Proof.
  destruct c as [s calls], l as [req|i]; simpl.
  - intros [= <- <-]. constructor.
  - destruct (calls !! i) as [[req st]|] eqn:Hi; simpl; [|done].
    destruct (call_action cfg s req st) as [[s' st']|] eqn:Ha; simpl; [|done].
    intros [= <- <-]. by eapply conc_act.
Qed.

Lemma conc_exec_sound c0 log0 ls c c' log :
  conc_run cfg c0 log0 c → conc_exec ls c = Some (c', log) → conc_run cfg c0 (log0 ++ log) c'.
Proof.
  revert log0 c log. induction ls as [|l ls IH]; intros log0 c log Hr; simpl.
  - intros [= <- <-]. by rewrite app_nil_r.
  - destruct (conc_exec_step l c) as [[c1 evs]|] eqn:El; simpl; [|done].
    destruct (conc_exec ls c1) as [[c2 log2]|] eqn:Els; simpl; [|done].
    intros [= <- <-]. rewrite app_assoc. eapply IH; [|done].
    eapply conc_snoc; [done|by eapply conc_exec_step_sound].
Qed.
End Exec.

Module ConcurrentExample.
#[local] Existing Instance release_build.

Definition get_req : GetProvingResultRequest := mkGetProvingResultRequest ThreeChunks.app_id "task".

Definition sending : list conc_label :=
  [CArrive (Rpc_RegisterApp History.register_req); CArrive (Rpc_GetProvingResult get_req);
   CAct 1; CAct 0; CAct 0;
   CArrive (Rpc_ProveTask (History.prove_req ThreeChunks.app_id false)); CAct 2].

Definition registered_log : list conc_event :=
  [ConcReturn (Rpc_RegisterApp History.register_req)
     (Ret (Ok (Resp_RegisterApp (mkRegisterAppResponse None ThreeChunks.app_id))))].

(** The calls of the registration, the result and the task, while the third
    is to send. *)
Definition calls (get task : call_state) : list (rpc_request * call_state) :=
  [(Rpc_RegisterApp History.register_req,
    CallDone (Ret (Ok (Resp_RegisterApp (mkRegisterAppResponse None ThreeChunks.app_id)))));
   (Rpc_GetProvingResult get_req, get);
   (Rpc_ProveTask (History.prove_req ThreeChunks.app_id false), task)].

Definition sent : call_state := CallDone (Ret (Ok (Resp_ProveTask (mkProveTaskResponse None)))).

Definition sending_state : concurrent (C := list) :=
  mkConcurrent History.registered_state (calls CallFetch (CallSend three_app)).

Lemma sending_run :
  conc_run History.cfg (conc_init empty_db) registered_log sending_state.
Proof.
  apply (conc_exec_sound _ _ [] sending (conc_init empty_db)); [constructor|].
  vm_compute. reflexivity.
Qed.

(** The three steps of the queue. *)
Lemma queue_run cs :
  conc_run History.cfg (mkConcurrent accepted_state cs) [ConcQueue; ConcQueue; ConcQueue]
    (mkConcurrent History.stored_state cs).
Proof.
  set (storing := mkShared History.outputs three_db [] (QStoring History.key History.proof)
    : shared list memory_db).
  apply (conc_snoc _ _ [ConcQueue; ConcQueue] (mkConcurrent storing cs)).
  - apply (conc_snoc _ _ [ConcQueue]
      (mkConcurrent (History.proving_state ThreeChunks.app_id false) cs)).
    + apply (conc_snoc _ _ [] (mkConcurrent accepted_state cs)); [constructor|].
      by apply conc_queue, queue_step_recv.
    + apply conc_queue. exact (queue_step_proved _ (History.proving_state ThreeChunks.app_id false) _ _
        eq_refl (History.key_proved ThreeChunks.app_id)).
  - apply conc_queue. exact (queue_step_stored _ storing _ _ eq_refl).
Qed.

Definition fetched : conc_event :=
  ConcReturn (Rpc_GetProvingResult get_req)
    (Ret (Ok (Resp_GetProvingResult (mkGetProvingResultResponse None (Some History.proof))))).

Definition final_calls : list (rpc_request * call_state) :=
  calls (CallDone (Ret (Ok (Resp_GetProvingResult (mkGetProvingResultResponse None (Some History.proof)))))) sent.

Lemma empty_rows : rows_decode empty_db.
Proof. by apply empty_rows_decode. Qed.

Definition final_state : concurrent (C := list) := mkConcurrent History.stored_state final_calls.

Definition accepted : conc_event :=
  ConcReturn (Rpc_ProveTask (History.prove_req ThreeChunks.app_id false))
    (Ret (Ok (Resp_ProveTask (mkProveTaskResponse None)))).

Definition log : list conc_event :=
  ((registered_log ++ [accepted]) ++ [ConcQueue; ConcQueue; ConcQueue]) ++ [fetched].

Lemma send_exec :
  conc_exec History.cfg [CAct 2] sending_state =
    Some (mkConcurrent accepted_state (calls CallFetch sent), [accepted]).
Proof. vm_compute. reflexivity. Qed.

Lemma fetch_stored :
  fetch_proof History.stored_state get_req =
    Ok (mkGetProvingResultResponse None (Some History.proof)).
Proof.
  unfold fetch_proof.
  change (select_proof _ _ _) with (@Ok (option (option bytes)) string
    (({[(ThreeChunks.app_id, "task") := Some History.proof]} : gmap (string * string) (option bytes))
       !! (ThreeChunks.app_id, "task"))).
  by rewrite lookup_singleton_eq.
Qed.

Lemma fetch_exec :
  conc_exec History.cfg [CAct 1] (mkConcurrent History.stored_state (calls CallFetch sent)) =
    Some (final_state, [fetched]).
Proof.
  cbn [conc_exec conc_exec_step conc_calls conc_shared calls lookup list_lookup mbind option_bind call_action].
  by rewrite fetch_stored.
Qed.

Lemma complete_run : conc_run History.cfg (conc_init empty_db) log final_state.
Proof.
  exact (conc_exec_sound _ _ _ _ _ _ _
    (conc_run_app _ _ _ _ _ _
      (conc_exec_sound _ _ _ _ _ _ _ sending_run send_exec) (queue_run _)) fetch_exec).
Qed.
End ConcurrentExample.

(** *** Witnesses *)

#[local] Existing Instance release_build.

Lemma handlers_linearize_witness :
  ∃ tr, service_run (C := list) History.cfg (service_init empty_db) tr History.stored_state.
Proof.
  pose proof (handlers_linearize (C := list) History.cfg empty_db) as Hlin.
  destruct (Hlin ConcurrentExample.log ConcurrentExample.final_state
    ConcurrentExample.empty_rows ConcurrentExample.complete_run) as (tr & _ & Hr).
  exists tr. exact Hr.
Defined.

Lemma concurrent_provenance_witness :
  ∃ elf info, ∃ app : @App symbolic_pico, App_new elf info = Ret app ∧
    strip_0x ThreeChunks.app_id = app_app_id app.
Proof.
  pose proof (concurrent_provenance (C := list) History.cfg empty_db) as Hprov.
  destruct (Hprov ConcurrentExample.log ConcurrentExample.final_state ConcurrentExample.get_req
    (mkGetProvingResultResponse None (Some History.proof)) History.proof
    eq_refl eq_refl ConcurrentExample.complete_run
    ltac:(by do 5 right; left) eq_refl)
    as (elf & info & app & preq & En & _ & _ & Hid & Ha & _).
  exists elf, info, app. split; [exact En|]. rewrite <- Hid, Ha. reflexivity.
Defined.

Lemma concurrent_task_is_proved_witness : stored History.stored_state History.key.
Proof.
  pose proof (concurrent_task_is_proved (C := list) History.cfg empty_db) as Hproved.
  refine (proj1 (proj1 (Hproved ConcurrentExample.registered_log History.registered_state
    (ConcurrentExample.calls CallFetch (CallSend three_app)) 2%nat
    (History.prove_req ThreeChunks.app_id false) three_app accepted_state ConcurrentExample.sent
    [ConcQueue; ConcQueue; ConcQueue] (mkConcurrent History.stored_state _)
    (le_n _) (le_n _) ConcurrentExample.empty_rows ConcurrentExample.sending_run
    eq_refl _ _ eq_refl _ (ConcurrentExample.queue_run _)) (le_n _))).
  - vm_compute. reflexivity.
  - discriminate.
  - constructor; [exact three_servable|constructor].
Defined.
