(* ===== verification/Server.v ===== *)
(** * The server ([src/bin/server.rs], [GrpcService::run] of [src/src/grpc.rs])

    What stands between the network and the handlers of [Grpc.v]: the
    authentication interceptor in front of the generated service, the decoding
    and encoding of the messages with their size limits, and the start of the
    process.  [tonic] and [prost] are an interface. *)

From S2P Require Import Prelude PicoVM Messages Task Provers Worker Channel Onchain Emulator.
From S2P Require Import Gateway Pipeline PipelineInv Database AppManager CostEstimation Auth ProvingQueue Grpc Service.

(** ** The transport *)

(** The generated codec ([ProverNetworkServer] with its two limits): the path
    and the body of a call, and the body of the answer. *)
Class Codec : Type := {
  grpc_decode : Z → bytes → result rpc_request Status;
  grpc_encode : Z → rpc_response → result bytes Status;
}.

(** [max_decoding_message_size] and [max_encoding_message_size]. *)
Class CodecSpec `{Codec} : Prop := {
  grpc_decode_limit limit body req :
    grpc_decode limit body = Ok req → Z.of_nat (length body) ≤ limit;
  grpc_encode_limit limit res body :
    grpc_encode limit res = Ok body → Z.of_nat (length body) ≤ limit;
}.

Section Server.
Context `{PicoVM, RustBuild, !GnarkEnv, AlloyU256, !AppEnv, !CostEnv}.
Context `{!Bincode Program, !Bincode BaseProvingKey, !Bincode BaseVerifyingKey}.
Context `{Chan C, Database D, Tonic, Codec}.
Context (cfg : ServiceConfig).

Implicit Types s : shared C D.

(** The routing of a decoded call to its handler. *)
Definition dispatch s (req : rpc_request) : outcome (shared C D * result rpc_response Status) :=
  match req with
  | Rpc_RegisterApp req =>
      '(s, res) ← register_app s req; Ret (s, map_ok Resp_RegisterApp res)
  | Rpc_EstimateCost req =>
      res ← estimate_cost_handler cfg s req; Ret (s, map_ok Resp_EstimateCost res)
  | Rpc_ProveTask req =>
      '(s, res) ← prove_task_handler s req; Ret (s, map_ok Resp_ProveTask res)
  | Rpc_GetProvingResult req =>
      let '(s, res) := get_proving_result s req in
      Ret (s, map_ok Resp_GetProvingResult res)
  end.

Definition encode_reply (res : result rpc_response Status) : result bytes Status :=
  match res with
  | Ok res => grpc_encode (max_grpc_msg_size cfg) res
  | Err e => Err e
  end.

(** The service that [GrpcService::run] builds: [InterceptedService::new]
    around the [ProverNetworkServer]. *)
Definition serve s (metadata : Metadata) (body : bytes) :
    outcome (shared C D * result bytes Status) :=
  match server_auth_interceptor cfg metadata with
  | Err e => Ret (s, Err e)
  | Ok _ =>
      match grpc_decode (max_grpc_msg_size cfg) body with
      | Err e => Ret (s, Err e)
      | Ok req => '(s, res) ← dispatch s req; Ret (s, encode_reply res)
      end
  end.

(** ** The process *)

(** The spawned gRPC task: serving, or dead of [expect("failed")]. *)
Inductive grpc_task : Type := GrpcServing | GrpcPanicked (p : panic).

Record server : Type := mkServer {
  srv_daemon : bool;               (* the on-chain monitor has been spawned *)
  srv_shared : shared C D;
  srv_grpc : grpc_task;
}.

(** [GrpcService::run]: [bind] is whether the transport can serve on the
    address. *)
Definition GrpcService_run (bind : string → result unit string) : grpc_task :=
  match unwrap_result "failed" (bind (grpc_addr cfg)) with
  | Ret _ => GrpcServing
  | Panic p => GrpcPanicked p
  end.

(** [main] up to the wait for Ctrl-C: the outcome of building the thread pool
    and of connecting to the database are the caller's. *)
Definition server_main (build_global : result unit string) (connect : string → result D string)
    (bind : string → result unit string) : outcome (result server string) :=
  let '(daemon, _) := start_onchain_daemon false in
  _ ← unwrap_result "failed to build global Rayon thread pool" build_global;
  db ←? Ret (connect (db_url cfg));
  Ret (Ok (mkServer daemon (service_init db) (GrpcService_run bind))).

Inductive server_event : Type :=
  | SvPanic (metadata : Metadata) (body : bytes) (p : panic)
  | SvCall (metadata : Metadata) (body : bytes) (reply : result bytes Status)
  | SvQueue.

(** A call is answered while the gRPC task serves, unless the handler panics
    and takes the call down; the queue moves on its own. *)
Inductive server_step : server → server_event → server → Prop :=
  | step_call daemon s metadata body s' reply :
      serve s metadata body = Ret (s', reply) →
      server_step (mkServer daemon s GrpcServing) (SvCall metadata body reply)
        (mkServer daemon s' GrpcServing)
  | step_call_panic daemon s metadata body p :
      serve s metadata body = Panic p →
      server_step (mkServer daemon s GrpcServing) (SvPanic metadata body p)
        (mkServer daemon s GrpcServing)
  | step_srv_queue daemon s s' grpc :
      queue_step (C := C) (Z.to_nat (prover_count cfg)) s s' →
      server_step (mkServer daemon s grpc) SvQueue (mkServer daemon s' grpc).

Inductive server_run : server → list server_event → server → Prop :=
  | server_run_nil v : server_run v [] v
  | server_run_snoc v tr v1 ev v2 :
      server_run v tr v1 → server_step v1 ev v2 → server_run v (tr ++ [ev]) v2.

(** ** What the service sees of the calls *)

(** The call of an event of [Grpc.v], and its result. *)
Definition event_call (ev : event) : option (rpc_request * result rpc_response Status) :=
  match ev with
  | EvRegister req res => Some (Rpc_RegisterApp req, map_ok Resp_RegisterApp res)
  | EvEstimate req res => Some (Rpc_EstimateCost req, map_ok Resp_EstimateCost res)
  | EvProve req res => Some (Rpc_ProveTask req, map_ok Resp_ProveTask res)
  | EvGet req res => Some (Rpc_GetProvingResult req, map_ok Resp_GetProvingResult res)
  | EvPanic _ _ | EvQueue => None
  end.

(** A call that never reaches a handler. *)
Definition refused (metadata : Metadata) (body : bytes) (e : Status) : Prop :=
  server_auth_interceptor cfg metadata = Err e ∨
  is_ok (server_auth_interceptor cfg metadata) = true ∧
    grpc_decode (max_grpc_msg_size cfg) body = Err e.

(** [visible tr evs]: [evs] is what the service did for the calls of [tr]. *)
Inductive visible : list server_event → list event → Prop :=
  | visible_nil : visible [] []
  | visible_queue tr evs : visible tr evs → visible (tr ++ [SvQueue]) (evs ++ [EvQueue])
  | visible_refused tr evs metadata body e :
      visible tr evs → refused metadata body e →
      visible (tr ++ [SvCall metadata body (Err e)]) evs
  | visible_served tr evs metadata body req res ev :
      visible tr evs → is_ok (server_auth_interceptor cfg metadata) = true →
      grpc_decode (max_grpc_msg_size cfg) body = Ok req → event_call ev = Some (req, res) →
      visible (tr ++ [SvCall metadata body (encode_reply res)]) (evs ++ [ev])
  | visible_panic tr evs metadata body req p :
      visible tr evs → is_ok (server_auth_interceptor cfg metadata) = true →
      grpc_decode (max_grpc_msg_size cfg) body = Ok req →
      visible (tr ++ [SvPanic metadata body p]) (evs ++ [EvPanic req p]).

(** A dispatched call is an event of the service. *)
Lemma dispatch_event s req s' res :
  dispatch s req = Ret (s', res) →
  ∃ ev, event_call ev = Some (req, res) ∧ service_step cfg s ev s'.
Proof.
  intros E. destruct req as [req|req|req|req]; simpl in E.
  - bind_inv E. destruct a as [s1 r]. injection E as <- <-.
    exists (EvRegister req r). split; [done|by apply step_register].
  - bind_inv E. injection E as <- <-. exists (EvEstimate req a). split; [done|by apply step_estimate].
  - bind_inv E. destruct a as [s1 r]. injection E as <- <-.
    exists (EvProve req r). split; [done|by apply step_prove].
  - destruct (get_proving_result s req) as [s1 r] eqn:Eg. injection E as <- <-.
    exists (EvGet req r). split; [done|by apply step_get].
Qed.

(** A served call is refused and changes nothing, or is such an event. *)
Lemma serve_event s metadata body s' reply :
  serve s metadata body = Ret (s', reply) →
  (∃ e, refused metadata body e ∧ reply = Err e ∧ s' = s) ∨
  ∃ req res ev, is_ok (server_auth_interceptor cfg metadata) = true ∧
    grpc_decode (max_grpc_msg_size cfg) body = Ok req ∧ event_call ev = Some (req, res) ∧
    service_step cfg s ev s' ∧ reply = encode_reply res.
Proof.
  unfold serve, refused. destruct (server_auth_interceptor cfg metadata) as [md|e] eqn:Ea.
  2: { intros [= <- <-]. left. eauto. }
  destruct (grpc_decode _ body) as [req|e] eqn:Ed.
  2: { intros [= <- <-]. left. eauto 6. }
  intros E. bind_inv E. destruct a as [s1 res]. injection E as <- <-.
  destruct (dispatch_event _ _ _ _ E0) as (ev & Hev & Hst). right. exists req, res, ev. auto.
Qed.

Lemma dispatch_panic s req p : dispatch s req = Panic p → handler_panic cfg s req = Some p.
Proof.
  unfold handler_panic. destruct req as [req|req|req|req]; simpl.
  - by destruct (register_app s req) as [[s1 r]|p']; simpl; intros [= ->].
  - by destruct (estimate_cost_handler cfg s req); simpl; intros [= ->].
  - by destruct (prove_task_handler s req) as [[s1 r]|p']; simpl; intros [= ->].
  - by destruct (get_proving_result s req).
Qed.

(** A call that takes its handler down carried the token. *)
Lemma serve_panic s metadata body p :
  serve s metadata body = Panic p →
  ∃ req, is_ok (server_auth_interceptor cfg metadata) = true ∧
    grpc_decode (max_grpc_msg_size cfg) body = Ok req ∧ handler_panic cfg s req = Some p.
Proof.
  unfold serve. destruct (server_auth_interceptor cfg metadata) as [md|e]; [|done].
  destruct (grpc_decode _ body) as [req|e]; [|done]. intros E. exists req. do 2 (split; [done|]).
  apply bind_panic_inv in E as [E|([s1 res] & _ & E)]; [by apply dispatch_panic|done].
Qed.

Lemma server_run_visible v tr v' :
  server_run v tr v' →
  ∃ evs, visible tr evs ∧ service_run cfg (srv_shared v) evs (srv_shared v').
Proof.
  induction 1 as [v|v tr v1 ev v2 Hr (evs & Hvis & Hrun) Hst].
  - exists []. split; constructor.
  - destruct Hst as [daemon s metadata body s' reply E|daemon s metadata body p E|daemon s s' grpc Hq]; simpl in *.
    + destruct (serve_event _ _ _ _ _ E) as [(e & Href & -> & ->)|(req & res & ev & Ha & Hd & Hev & Hst & ->)].
      * exists evs. split; [by apply visible_refused|done].
      * exists (evs ++ [ev]). split; [by eapply visible_served|by eapply run_snoc].
    + destruct (serve_panic _ _ _ _ E) as (req & Ha & Hd & Hp).
      exists (evs ++ [EvPanic req p]). split; [by eapply visible_panic|by eapply run_snoc, step_panic].
    + exists (evs ++ [EvQueue]). split; [by constructor|]. by eapply run_snoc, step_queue.
Qed.

(** The process that [main] builds. *)
Lemma server_main_init build_global connect bind v :
  server_main build_global connect bind = Ret (Ok v) →
  ∃ db, connect (db_url cfg) = Ok db ∧ srv_shared v = service_init db ∧
    srv_grpc v = GrpcService_run bind.
Proof.
  unfold server_main. simpl. intros E. bind_inv E. destruct (connect _) as [db|] eqn:Ec; simpl in E; [|done].
  injection E as <-. by exists db.
Qed.
End Server.

Arguments server {_} C D.

(** ** Properties *)

Section ServerProperties.
Context `{PicoVM, RustBuild, !GnarkEnv, AlloyU256, !AppEnv, !CostEnv}.
Context `{!Bincode Program, !Bincode BaseProvingKey, !Bincode BaseVerifyingKey}.
Context `{FifoChan C, Database D, Tonic, !TonicSpec, Codec, !CodecSpec}.
Context (cfg : ServiceConfig).

(** The server is the service behind its interceptor.  Whatever a started
    server is sent, its shared state is that of a run of the service on a
    freshly connected database, in which the calls that carry the
    token and decode are the handlers' events, in order, each answered with
    its encoded result; every other call is answered with its refusal and is
    no event at all. *)
Theorem server_refines_service build_global connect bind v tr (v' : server C D) :
  server_main cfg build_global connect bind = Ret (Ok v) → server_run cfg v tr v' →
  ∃ db evs, connect (db_url cfg) = Ok db ∧ visible cfg tr evs ∧
    service_run cfg (service_init db) evs (srv_shared v').
Proof.
  intros (db & Ec & Ei & _)%server_main_init Hr.
  destruct (server_run_visible _ _ _ _ Hr) as (evs & Hvis & Hrun). rewrite Ei in Hrun.
  by exists db, evs.
Qed.

(** The metadata carries the token of the configuration. *)
Definition authorised (metadata : Metadata) : Prop :=
  ∃ token v, cfg_bearer_token cfg = Some token ∧
    MetadataValue_parse ("Bearer " +:+ token) = Some v ∧
    metadata_get metadata "authorization" = Some v.

Definition unauthenticated (ev : server_event) : Prop :=
  match ev with
  | SvCall metadata _ _ | SvPanic metadata _ _ => ¬ authorised metadata
  | SvQueue => True
  end.

Lemma unauthorised_refused (s : shared C D) metadata body :
  cfg_auth_method cfg = AuthMethod_Bearer → ¬ authorised metadata →
  ∃ msg, serve cfg s metadata body = Ret (s, Err (Unauthenticated msg)).
Proof.
  intros Hm Hna. pose proof (bearer_interceptor cfg metadata) as Hb.
  destruct (Hb Hm) as [Hiff Herr].
  destruct Herr as [msg E]; [by intros E%Hiff|]. exists msg. unfold serve. by rewrite E.
Qed.

(** Nothing happens without the token.  A started server with the bearer
    method stays exactly as it started, its proving loop idle, as long as
    no call has carried the token, and every call so far was answered with
    an unauthenticated status. *)
Theorem nothing_without_token build_global connect bind v tr (v' : server C D) :
  server_main cfg build_global connect bind = Ret (Ok v) →
  cfg_auth_method cfg = AuthMethod_Bearer → server_run cfg v tr v' → Forall unauthenticated tr →
  v' = v ∧ ∀ ev, ev ∈ tr → ∃ metadata body msg, ev = SvCall metadata body (Err (Unauthenticated msg)).
Proof.
  intros (db & _ & Ei & _)%server_main_init Hm Hr. induction Hr as [v|v tr v1 ev v2 Hr IH Hst].
  - split; [done|]. by intros ev ?%elem_of_nil.
  - intros [Hall Hev]%Forall_app. destruct (IH Ei Hall) as [-> Hreplies].
    inversion Hev as [|? ? Hun _]; subst.
    destruct Hst as [daemon s metadata body s' reply E|daemon s metadata body p E|daemon s s' grpc Hq]; simpl in *.
    + destruct (unauthorised_refused s metadata body Hm Hun) as [msg E']. rewrite E' in E.
      injection E as <- <-. split; [done|]. intros ev [Hin| ->%list_elem_of_singleton]%elem_of_app; [auto|].
      by exists metadata, body, msg.
    + destruct (unauthorised_refused s metadata body Hm Hun) as [msg E']. by rewrite E' in E.
    + exfalso. subst s. inversion Hq as [? task tasks _ Hrecv| |]; simpl in *; subst; try done.
      apply ch_recv_Some in Hrecv. by rewrite ch_new_contents in Hrecv.
Qed.

(** The size limits.  A call whose body is longer than the configured
    limit is refused before any handler runs; an answer that does go out
    fits the limit. *)
Theorem message_size_limits (s : shared C D) metadata body :
  (max_grpc_msg_size cfg < Z.of_nat (length body) →
   ∃ e, serve cfg s metadata body = Ret (s, Err e)) ∧
  (∀ s' reply, serve cfg s metadata body = Ret (s', Ok reply) →
   Z.of_nat (length reply) ≤ max_grpc_msg_size cfg).
Proof.
  split.
  - intros Hlong. unfold serve. destruct (server_auth_interceptor cfg metadata); [|by eexists].
    destruct (grpc_decode _ body) as [req|e] eqn:Ed; [|by eexists].
    apply grpc_decode_limit in Ed. lia.
  - intros s' reply E.
    destruct (serve_event _ _ _ _ _ _ E) as [(? & _ & ? & _)|(req & res & ev & _ & _ & _ & _ & Er)]; [done|].
    destruct res as [res|e]; simpl in Er; [|done]. by eapply grpc_encode_limit.
Qed.
End ServerProperties.

(** ** A concrete server

    A codec whose body names the method in its first byte, with the ELF of a
    registration behind it and fixed ids. *)

Module ServerExample.
#[local] Existing Instance release_build.

Definition decode_body (body : bytes) : result rpc_request Status :=
  match body with
  | 1 :: elf => Ok (Rpc_RegisterApp (mkRegisterAppRequest elf (Some "three")))
  | [2] => Ok (Rpc_EstimateCost (mkEstimateCostRequest ThreeChunks.app_id None))
  | [3] => Ok (Rpc_ProveTask (mkProveTaskRequest ThreeChunks.app_id "task" None (Some false)))
  | [4] => Ok (Rpc_GetProvingResult (mkGetProvingResultRequest ThreeChunks.app_id "task"))
  | _ => Err (Internal "failed to decode")
  end.

Definition encode_body (res : rpc_response) : bytes :=
  match res with
  | Resp_RegisterApp _ => [1]
  | Resp_EstimateCost _ => [2]
  | Resp_ProveTask _ => [3]
  | Resp_GetProvingResult res => 4 :: default [] (result_proof res)
  end.

Definition within {A} (limit : Z) (body : bytes) (a : A) : result A Status :=
  if bool_decide (Z.of_nat (length body) ≤ limit) then Ok a
  else Err (Internal "message length too large").

#[local] Instance byte_codec : Codec := {|
  grpc_decode limit body :=
    match within limit body tt with Ok _ => decode_body body | Err e => Err e end;
  grpc_encode limit res := within limit (encode_body res) (encode_body res);
|}.

#[local] Instance byte_codec_spec : CodecSpec.
Proof.
  split; simpl; unfold within.
  - intros limit body req. by case_bool_decide.
  - intros limit res body. case_bool_decide; [|done]. by intros [= <-].
Qed.

Definition cfg : ServiceConfig := mkServiceConfig "db" "addr" AuthMethod_Bearer (Some "t") 16 1 None.

Definition connect (url : string) : result memory_db string :=
  if bool_decide (url = "db") then Ok empty_db else Err "unable to open database file".

Definition started : server list memory_db :=
  mkServer true (service_init (C := list) empty_db) GrpcServing.

Lemma main_starts :
  server_main (C := list) cfg (Ok tt) connect (λ _, Ok tt) = Ret (Ok started).
Proof. vm_compute. reflexivity. Qed.

Definition token : gmap string string := {["authorization" := "Bearer t"]}.

Lemma call_run metadata body s reply :
  serve (C := list) cfg (service_init empty_db) metadata body = Ret (s, reply) →
  server_run cfg started [SvCall metadata body reply] (mkServer true s GrpcServing).
Proof.
  intros E. apply (server_run_snoc _ _ [] started); [constructor|]. by apply step_call.
Qed.

Lemma register_run :
  server_run cfg started [SvCall token [1; 1; 2; 3] (Ok [1])]
    (mkServer true History.registered_state GrpcServing).
Proof. apply call_run. vm_compute. reflexivity. Qed.

Lemma refused_run :
  server_run cfg started
    [SvCall (∅ : gmap string string) [1; 1; 2; 3] (Err (Unauthenticated "Invalid or missing auth token"))]
    started.
Proof. apply call_run. vm_compute. reflexivity. Qed.
End ServerExample.

(** *** Witnesses *)

#[local] Existing Instance release_build.
#[local] Existing Instance ServerExample.byte_codec.
#[local] Existing Instance ServerExample.byte_codec_spec.

Lemma server_refines_service_witness :
  ∃ evs, visible ServerExample.cfg
      [SvCall ServerExample.token [1; 1; 2; 3] (Ok [1])] evs ∧
    service_run ServerExample.cfg (service_init empty_db) evs History.registered_state.
Proof.
  pose proof (server_refines_service ServerExample.cfg (Ok tt) ServerExample.connect (λ _, Ok tt)
    _ _ _ ServerExample.main_starts ServerExample.register_run) as (db & evs & Ec & Hvis & Hrun).
  injection Ec as <-. exists evs. split; [exact Hvis|exact Hrun].
Defined.

Lemma nothing_without_token_witness :
  ∃ metadata body msg,
    SvCall (∅ : gmap string string) [1; 1; 2; 3] (Err (Unauthenticated "Invalid or missing auth token")) =
    SvCall metadata body (Err (Unauthenticated msg)).
Proof.
  refine (proj2 (nothing_without_token ServerExample.cfg (Ok tt) ServerExample.connect (λ _, Ok tt)
    _ _ _ ServerExample.main_starts eq_refl ServerExample.refused_run _) _ _).
  - constructor; [|constructor]. intros (tok & v & _ & _ & E). discriminate E.
  - apply list_elem_of_singleton. reflexivity.
Defined.

Lemma message_size_limits_witness :
  ∃ e, serve ServerExample.cfg History.registered_state ServerExample.token (replicate 17 4) =
    Ret (History.registered_state, Err e).
Proof.
  refine (proj1 (message_size_limits ServerExample.cfg History.registered_state ServerExample.token
    (replicate 17 4)) _).
  vm_compute. reflexivity.
Defined.
