(* ===== verification/Wiring.v ===== *)
(** * The wiring of the server ([src/bin/server.rs], the constructors)

    [Grpc.v] and [ProvingQueue.v] give the handlers and the loop one state
    they share.  In the source there is no such state: [main] allocates a
    pool, a map and a channel behind [Arc]s and hands clones of the handles to
    [ProvingQueue::new] and [GrpcService::new], which hands one on to
    [AppManager::new]; every method then goes through the handles of its own
    [self].  Here the structs hold locations of a store, the methods read and
    write through them, and [main] does the allocations; the process it
    starts is then the server of [Server.v], step by step. *)

From S2P Require Import Prelude PicoVM Messages Task Provers Worker Channel Onchain Emulator.
From S2P Require Import Gateway Pipeline Database AppManager CostEstimation Auth ProvingQueue Grpc Service Server.

(** ** The store *)

(** What an [Arc] points to is a location; a clone is the same location. *)
Abbreviation loc := nat.

Section Store.
Context `{PicoVM, Chan C} {D : Type}.

(** The cells that more than one component holds: the databases behind the
    pools, the maps of outputs, and the channels of tasks. *)
Record store : Type := mkStore {
  st_dbs : gmap loc D;
  st_outputs : gmap loc ProvingOutputs;
  st_chans : gmap loc (C ProvingTask);
  st_next : loc;
}.

Definition empty_store : store := mkStore ∅ ∅ ∅ 0.

(** A computation on the store.  [None]: it went through a handle that points
    nowhere.  A panic keeps what was written before it. *)
Definition storeM (A : Type) : Type := store → option (store * outcome A).

#[export] Instance storeM_ret : MRet storeM := λ A a st, Some (st, Ret a).
#[export] Instance storeM_bind : MBind storeM := λ A B f m st,
  match m st with
  | Some (st, Ret a) => f a st
  | Some (st, Panic p) => Some (st, Panic p)
  | None => None
  end.

Definition lift {A} (o : outcome A) : storeM A := λ st, Some (st, o).

(** [&*handle] *)
Definition deref {A} (cells : store → gmap loc A) (l : loc) : storeM A :=
  λ st, (λ a, (st, Ret a)) <$> (cells st !! l).

(** [Arc::new], and [SingleUnboundedChannel::default] with its two endpoints. *)
Definition new_db_pool (db : D) : storeM loc := λ st,
  Some (mkStore (<[st_next st := db]> (st_dbs st)) (st_outputs st) (st_chans st) (S (st_next st)),
        Ret (st_next st)).

Definition new_outputs : storeM loc := λ st,
  Some (mkStore (st_dbs st) (<[st_next st := ∅]> (st_outputs st)) (st_chans st) (S (st_next st)),
        Ret (st_next st)).

Definition new_channel : storeM loc := λ st,
  Some (mkStore (st_dbs st) (st_outputs st) (<[st_next st := ch_new]> (st_chans st)) (S (st_next st)),
        Ret (st_next st)).

(** The effects of the statements and of the shared containers. *)
Definition write_db (l : loc) (db : D) : storeM unit := λ st,
  Some (mkStore (<[l := db]> (st_dbs st)) (st_outputs st) (st_chans st) (st_next st), Ret tt).

Definition write_outputs (l : loc) (outputs : ProvingOutputs) : storeM unit := λ st,
  Some (mkStore (st_dbs st) (<[l := outputs]> (st_outputs st)) (st_chans st) (st_next st), Ret tt).

Definition write_chan (l : loc) (tasks : C ProvingTask) : storeM unit := λ st,
  Some (mkStore (st_dbs st) (st_outputs st) (<[l := tasks]> (st_chans st)) (st_next st), Ret tt).

(** *** Computing with the store *)

Lemma bind_run {A B} (m : storeM A) (f : A → storeM B) st st' o :
  m st = Some (st', o) →
  (m ≫= f) st = match o with Ret a => f a st' | Panic p => Some (st', Panic p) end.
Proof. intros E. unfold mbind, storeM_bind. rewrite E. by destruct o. Qed.

Lemma bind_deref {A B} (cells : store → gmap loc A) l a (f : A → storeM B) st :
  cells st !! l = Some a → (deref cells l ≫= f) st = f a st.
Proof. intros E. unfold mbind, storeM_bind, deref. by rewrite E. Qed.
End Store.

Arguments store {_} C D.
Arguments storeM {_} C D.

(** ** The structs and their methods *)

Section Wiring.
Context `{PicoVM, RustBuild, !GnarkEnv, AlloyU256, !AppEnv, !CostEnv}.
Context `{!Bincode Program, !Bincode BaseProvingKey, !Bincode BaseVerifyingKey}.
Context `{Chan C, Database D, Tonic, Codec}.

Local Abbreviation io := (storeM C D).

(** *** [AppManager] *)

Record AppManager : Type := mkAppManager { am_db_pool : loc }.

Definition AppManager_new (db_pool : loc) : AppManager := mkAppManager db_pool.

Definition AppManager_get_app (self : AppManager) (app_id : string) :
    io (result (option App) string) :=
  db ← deref st_dbs (am_db_pool self);
  lift (get_app db app_id).

Definition AppManager_set_app (self : AppManager) (elf : bytes) (info : option string) :
    io (result App string) :=
  db ← deref st_dbs (am_db_pool self);
  '(db, app) ← lift (set_app db elf info);
  _ ← write_db (am_db_pool self) db;
  mret app.

(** *** [GrpcService] *)

Record GrpcService : Type := mkGrpcService {
  gs_cfg : ServiceConfig;
  gs_app_manager : AppManager;
  gs_db_pool : loc;
  gs_outputs : loc;
  gs_sender : loc;
}.

Definition GrpcService_new (cfg : ServiceConfig) (db_pool outputs sender : loc) : GrpcService :=
  let app_manager := AppManager_new db_pool in
  mkGrpcService cfg app_manager db_pool outputs sender.

Definition GrpcService_register_app (self : GrpcService) (req : RegisterAppRequest) :
    io (result RegisterAppResponse Status) :=
  app ← AppManager_set_app (gs_app_manager self) (register_elf req) (register_info req);
  mret (match app with
        | Err e => Err (Internal ("failed to register app: " +:+ e))
        | Ok app => Ok (mkRegisterAppResponse None (app_app_id app))
        end).

(** The lookup of [estimate_cost] and of [prove_task]. *)
Definition GrpcService_find_app (self : GrpcService) (app_id : string) : io (result App Status) :=
  found ← AppManager_get_app (gs_app_manager self) app_id;
  mret (match found with
        | Err e => Err (Internal ("failed to get app: " +:+ e))
        | Ok None => Err (NotFound ("cannot find app " +:+ app_id))
        | Ok (Some app) => Ok app
        end).

Definition GrpcService_estimate_cost (self : GrpcService) (req : EstimateCostRequest) :
    io (result EstimateCostResponse Status) :=
  found ← GrpcService_find_app self (estimate_app_id req);
  match found with
  | Err e => mret (Err e)
  | Ok app =>
      mret (Ok (match estimate_cost (app_program app) (app_pk app) (app_vk app)
                        (estimate_inputs req) (max_emulation_cycles (gs_cfg self)) true with
                | Ok info => mkEstimateCostResponse None (info_cost info)
                               (U256_to_be_bytes_vec (info_pv_digest info))
                | Err e => EstimateCostResponse_from e
                end))
  end.

Definition GrpcService_prove_task (self : GrpcService) (req : ProveTaskRequest) :
    io (result ProveTaskResponse Status) :=
  found ← GrpcService_find_app self (prove_app_id req);
  match found with
  | Err e => mret (Err e)
  | Ok app =>
      tasks ← deref st_chans (gs_sender self);
      _ ← write_chan (gs_sender self) (ch_send tasks (request_task req app));
      mret (Ok (mkProveTaskResponse None))
  end.

Definition GrpcService_get_proving_result (self : GrpcService) (req : GetProvingResultRequest) :
    io (result GetProvingResultResponse Status) :=
  let key := mkProvingKey (result_app_id req) (result_task_id req) in
  outputs ← deref st_outputs (gs_outputs self);
  let '(outputs, removed) := pop_output outputs key in
  _ ← write_outputs (gs_outputs self) outputs;
  match removed with
  | Some output => mret (Ok (mkGetProvingResultResponse None (Some (output_proof output))))
  | None =>
      db ← deref st_dbs (gs_db_pool self);
      mret (match select_proof db (key_app_id key) (key_task_id key) with
            | Err e => Err (Internal ("failed to get proof from database: " +:+ e))
            | Ok row => Ok (mkGetProvingResultResponse None
                          (match row with Some proof => proof | None => None end))
            end)
  end.

(** The routing of a decoded call. *)
Definition GrpcService_dispatch (self : GrpcService) (req : rpc_request) :
    io (result rpc_response Status) :=
  match req with
  | Rpc_RegisterApp req =>
      res ← GrpcService_register_app self req; mret (map_ok Resp_RegisterApp res)
  | Rpc_EstimateCost req =>
      res ← GrpcService_estimate_cost self req; mret (map_ok Resp_EstimateCost res)
  | Rpc_ProveTask req =>
      res ← GrpcService_prove_task self req; mret (map_ok Resp_ProveTask res)
  | Rpc_GetProvingResult req =>
      res ← GrpcService_get_proving_result self req; mret (map_ok Resp_GetProvingResult res)
  end.

(** The service that [GrpcService::run] moves [self] into. *)
Definition GrpcService_serve (self : GrpcService) (metadata : Metadata) (body : bytes) :
    io (result bytes Status) :=
  match server_auth_interceptor (gs_cfg self) metadata with
  | Err e => mret (Err e)
  | Ok _ =>
      match grpc_decode (max_grpc_msg_size (gs_cfg self)) body with
      | Err e => mret (Err e)
      | Ok req => res ← GrpcService_dispatch self req; mret (encode_reply (gs_cfg self) res)
      end
  end.

(** *** [ProvingQueue] *)

Record ProvingQueue : Type := mkProvingQueue {
  pq_cfg : ServiceConfig;
  pq_outputs : loc;
  pq_receiver : loc;
  pq_db_pool : loc;
}.

Definition ProvingQueue_new (cfg : ServiceConfig) (outputs receiver db_pool : loc) : ProvingQueue :=
  mkProvingQueue cfg outputs receiver db_pool.

Definition ProvingQueue_pop_output (self : ProvingQueue) (key : ProvingKey) :
    io (option ProvingOutput) :=
  outputs ← deref st_outputs (pq_outputs self);
  let '(outputs, removed) := pop_output outputs key in
  _ ← write_outputs (pq_outputs self) outputs;
  mret removed.

(** The loop of [ProvingQueue::run], on the clones of the handles it moves
    into its task: the receipt of a task ([None] while there is none), what
    follows [prove_task], and the statement of [store_proof_in_db]. *)
Definition ProvingQueue_recv (self : ProvingQueue) : io (option ProvingTask) :=
  tasks ← deref st_chans (pq_receiver self);
  match ch_recv tasks with
  | None => mret None
  | Some (task, tasks) => _ ← write_chan (pq_receiver self) tasks; mret (Some task)
  end.

Definition ProvingQueue_proved (self : ProvingQueue) (key : ProvingKey)
    (res : outcome (result bytes string)) : io queue_status :=
  match res with
  | Ret (Ok proof_bytes) =>
      outputs ← deref st_outputs (pq_outputs self);
      _ ← write_outputs (pq_outputs self) (<[key := mkProvingOutput proof_bytes]> outputs);
      mret (QStoring key proof_bytes)
  | Ret (Err _) => mret QWaiting
  | Panic p => mret (QPanicked p)
  end.

Definition ProvingQueue_stored (self : ProvingQueue) (key : ProvingKey) (proof : bytes) :
    io queue_status :=
  db ← deref st_dbs (pq_db_pool self);
  match store_proof_in_db db key proof with
  | Ok db => _ ← write_db (pq_db_pool self) db; mret QWaiting
  | Err _ => mret QWaiting
  end.

(** ** The process *)

(** What [main] leaves behind: the two spawned tasks, each with its struct and
    where it stands. *)
Record server_process : Type := mkProcess {
  pr_daemon : bool;
  pr_queue : ProvingQueue;
  pr_status : queue_status;
  pr_service : GrpcService;
  pr_grpc : grpc_task;
}.

Definition with_status (p : server_process) (q : queue_status) : server_process :=
  mkProcess (pr_daemon p) (pr_queue p) q (pr_service p) (pr_grpc p).

(** The part of [main] between the connection and the spawned tasks. *)
Definition main_wiring (cfg : ServiceConfig) (pool : D) : io (ProvingQueue * GrpcService) :=
  db_pool ← new_db_pool pool;
  proving_outputs ← new_outputs;
  grpc_to_proving_channel ← new_channel;
  let proving_queue := ProvingQueue_new cfg proving_outputs grpc_to_proving_channel db_pool in
  let grpc_service := GrpcService_new cfg db_pool proving_outputs grpc_to_proving_channel in
  mret (proving_queue, grpc_service).

Definition main (cfg : ServiceConfig) (build_global : result unit string)
    (connect : string → result D string) (bind : string → result unit string) :
    io (result server_process string) :=
  let '(daemon, _) := start_onchain_daemon false in
  _ ← lift (unwrap_result "failed to build global Rayon thread pool" build_global);
  match connect (db_url cfg) with
  | Err e => mret (Err e)
  | Ok pool =>
      '(proving_queue, grpc_service) ← main_wiring cfg pool;
      mret (Ok (mkProcess daemon proving_queue QWaiting grpc_service
                  (GrpcService_run (gs_cfg grpc_service) bind)))
  end.

Local Abbreviation config := (store C D * server_process)%type.

(** A step of the queue's task, and of the process. *)
Inductive pq_step : config → config → Prop :=
  | pq_step_recv st p st' task :
      pr_status p = QWaiting → ProvingQueue_recv (pr_queue p) st = Some (st', Ret (Some task)) →
      pq_step (st, p) (st', with_status p (QProving task))
  | pq_step_proved st p st' task res q :
      pr_status p = QProving task →
      prove_task (C := C) task (Z.to_nat (prover_count (pq_cfg (pr_queue p)))) res →
      ProvingQueue_proved (pr_queue p) (task_key task) res st = Some (st', Ret q) →
      pq_step (st, p) (st', with_status p q)
  | pq_step_stored st p st' key proof q :
      pr_status p = QStoring key proof →
      ProvingQueue_stored (pr_queue p) key proof st = Some (st', Ret q) →
      pq_step (st, p) (st', with_status p q).

Inductive process_step : config → server_event → config → Prop :=
  | process_call st p metadata body st' reply :
      pr_grpc p = GrpcServing →
      GrpcService_serve (pr_service p) metadata body st = Some (st', Ret reply) →
      process_step (st, p) (SvCall metadata body reply) (st', p)
  | process_call_panic st p metadata body st' q :
      pr_grpc p = GrpcServing →
      GrpcService_serve (pr_service p) metadata body st = Some (st', Panic q) →
      process_step (st, p) (SvPanic metadata body q) (st', p)
  | process_queue c c' : pq_step c c' → process_step c SvQueue c'.

Inductive process_run : config → list server_event → config → Prop :=
  | process_run_nil c : process_run c [] c
  | process_run_snoc c tr c1 ev c2 :
      process_run c tr c1 → process_step c1 ev c2 → process_run c (tr ++ [ev]) c2.
End Wiring.

(** ** The process is the server *)

Section WiredServer.
Context `{PicoVM, RustBuild, !GnarkEnv, AlloyU256, !AppEnv, !CostEnv}.
Context `{!Bincode Program, !Bincode BaseProvingKey, !Bincode BaseVerifyingKey}.
Context `{Chan C, Database D, Tonic, Codec}.
Context (cfg : ServiceConfig).

Local Abbreviation config := (store C D * server_process)%type.

(** The server a process is: what is behind the handles of its service. *)
Definition view (c : config) : option (server C D) :=
  let '(st, p) := c in
  outputs ← st_outputs st !! gs_outputs (pr_service p);
  db ← st_dbs st !! gs_db_pool (pr_service p);
  tasks ← st_chans st !! gs_sender (pr_service p);
  Some (mkServer (pr_daemon p) (mkShared outputs db tasks (pr_status p)) (pr_grpc p)).

(** The handles of the queue and of the manager are clones of the service's. *)
Record wired (p : server_process) : Prop := {
  wired_cfg : gs_cfg (pr_service p) = cfg ∧ pq_cfg (pr_queue p) = cfg;
  wired_manager : am_db_pool (gs_app_manager (pr_service p)) = gs_db_pool (pr_service p);
  wired_outputs : pq_outputs (pr_queue p) = gs_outputs (pr_service p);
  wired_channel : pq_receiver (pr_queue p) = gs_sender (pr_service p);
  wired_pool : pq_db_pool (pr_queue p) = gs_db_pool (pr_service p);
}.

(** The cells behind the handles of a service hold a state. *)
Record shares (self : GrpcService) (st : store C D) (s : shared C D) : Prop := {
  shares_outputs : st_outputs st !! gs_outputs self = Some (sh_outputs s);
  shares_db : st_dbs st !! gs_db_pool self = Some (sh_db s);
  shares_tasks : st_chans st !! gs_sender self = Some (sh_tasks s);
}.

Lemma view_shares st p v :
  view (st, p) = Some v ↔
  ∃ s, shares (pr_service p) st s ∧ sh_queue s = pr_status p ∧ v = mkServer (pr_daemon p) s (pr_grpc p).
Proof.
  simpl. split.
  - intros (outputs & Eo & (db & Ed & (tasks & Et & E)%bind_Some)%bind_Some)%bind_Some.
    injection E as <-. by exists (mkShared outputs db tasks (pr_status p)).
  - intros (s & [-> -> ->] & Hq & ->). simpl. rewrite <- Hq. by destruct s.
Qed.

(** The store with the cell of a database overwritten. *)
Definition at_db (l : loc) (db : D) (st : store C D) : store C D :=
  mkStore (<[l := db]> (st_dbs st)) (st_outputs st) (st_chans st) (st_next st).

Lemma shares_write_db self st s db :
  shares self st s → shares self (at_db (gs_db_pool self) db st) (with_db s db).
Proof. intros [Ho Hd Ht]. split; simpl; [done|by rewrite lookup_insert_eq|done]. Qed.

Lemma shares_queue self st s q : shares self st s → shares self st (set_queue s q).
Proof. by intros [Ho Hd Ht]. Qed.

(** The manager's registration, on the cell of its own handle. *)
Lemma set_app_run self elf info (st : store C D) db :
  st_dbs st !! am_db_pool self = Some db →
  AppManager_set_app self elf info st =
    match set_app db elf info with
    | Ret (db', app) => Some (at_db (am_db_pool self) db' st, Ret app)
    | Panic p => Some (st, Panic p)
    end.
Proof.
  intros E. unfold AppManager_set_app. rewrite (bind_deref _ _ _ _ _ E).
  rewrite (bind_run _ _ _ st (set_app db elf info)) by done. by destruct (set_app db elf info) as [[]|].
Qed.

(** [implements m f]: through the handles of the service, [m] does what [f]
    does to the shared state; a panic comes before any write. *)
Definition implements (self : GrpcService) {A} (m : storeM C D A)
    (f : shared C D → outcome (shared C D * A)) : Prop :=
  ∀ st s, shares self st s →
  match f s with
  | Ret (s', a) => ∃ st', m st = Some (st', Ret a) ∧ shares self st' s' ∧ sh_queue s' = sh_queue s
  | Panic p => m st = Some (st, Panic p)
  end.

(** A pure function of the result. *)
Lemma implements_map self {A B} (m : storeM C D A) f (h : A → B) :
  implements self m f →
  implements self (a ← m; mret (h a)) (λ s, '(s, a) ← f s; Ret (s, h a)).
Proof.
  intros Hm st s Hs. specialize (Hm st s Hs). destruct (f s) as [[s' a]|p]; simpl.
  - destruct Hm as (st' & E & ? & ?). exists st'. by rewrite (bind_run _ _ _ _ _ E).
  - by rewrite (bind_run _ _ _ _ _ Hm).
Qed.

Lemma implements_ext self {A} (m : storeM C D A) f g :
  (∀ s, f s = g s) → implements self m f → implements self m g.
Proof. intros Hfg Hm st s Hs. rewrite <- Hfg. by apply Hm. Qed.

Lemma implements_ret self {A} (a : A) : implements self (mret a) (λ s, Ret (s, a)).
Proof. intros st s Hs. by exists st. Qed.

(** A lookup changes nothing. *)
Definition reads (self : GrpcService) {A} (m : storeM C D A) (f : shared C D → outcome A) : Prop :=
  ∀ st s, shares self st s → m st = Some (st, f s).

Lemma implements_bind_read self {A B} (m : storeM C D A) (f : shared C D → outcome A)
    (k : A → storeM C D B) (g : A → shared C D → outcome (shared C D * B)) :
  reads self m f → (∀ a, implements self (k a) (g a)) →
  implements self (m ≫= k) (λ s, a ← f s; g a s).
Proof.
  intros Hm Hk st s Hs. rewrite (bind_run _ _ _ _ _ (Hm st s Hs)).
  destruct (f s) as [a|p]; [by apply Hk|done].
Qed.

Section Handlers.
Context (self : GrpcService).
Hypothesis Hmanager : am_db_pool (gs_app_manager self) = gs_db_pool self.
Hypothesis Hcfg : gs_cfg self = cfg.

Lemma register_app_implements req :
  implements self (GrpcService_register_app self req) (λ s, register_app s req).
Proof.
  intros st s Hs. unfold GrpcService_register_app, register_app.
  pose proof (set_app_run (gs_app_manager self) (register_elf req) (register_info req) st (sh_db s)) as E.
  rewrite Hmanager in E. specialize (E (shares_db _ _ _ Hs)).
  destruct (set_app (sh_db s) (register_elf req) (register_info req)) as [[db app]|p].
  - pose proof (shares_write_db _ _ _ db Hs). destruct app; eexists; (split; [by rewrite (bind_run _ _ _ _ _ E)|done]).
  - by rewrite (bind_run _ _ _ _ _ E).
Qed.

Lemma find_app_reads id : reads self (GrpcService_find_app self id) (λ s, find_app s id).
Proof.
  intros st s Hs. unfold GrpcService_find_app, find_app.
  rewrite (bind_run _ _ _ st (get_app (sh_db s) id)).
  - by destruct (get_app (sh_db s) id).
  - unfold AppManager_get_app. rewrite Hmanager. by rewrite (bind_deref _ _ _ _ _ (shares_db _ _ _ Hs)).
Qed.

Lemma estimate_cost_implements req :
  implements self (GrpcService_estimate_cost self req)
    (λ s, res ← estimate_cost_handler cfg s req; Ret (s, res)).
Proof.
  eapply implements_ext.
  2: { apply (implements_bind_read _ _ _ _ (λ found s, match found with
      | Err e => Ret (s, Err e)
      | Ok app => Ret (s, Ok (match estimate_cost (app_program app) (app_pk app) (app_vk app)
                   (estimate_inputs req) (max_emulation_cycles cfg) true with
           | Ok info => mkEstimateCostResponse None (info_cost info)
                          (U256_to_be_bytes_vec (info_pv_digest info))
           | Err e => EstimateCostResponse_from e
           end)) end) (find_app_reads _)).
    intros [app|e]; [rewrite Hcfg|]; apply implements_ret. }
  intros s. unfold estimate_cost_handler, try_bind. by destruct (find_app s _) as [[app|e]|p].
Qed.

Lemma prove_task_implements req :
  implements self (GrpcService_prove_task self req) (λ s, prove_task_handler s req).
Proof.
  apply implements_bind_read; [apply find_app_reads|].
  intros [app|e]; [|apply implements_ret]. intros st s [Ho Hd Ht].
  rewrite (bind_deref _ _ _ _ _ Ht). eexists. split; [done|].
  split; [|done]. split; simpl; [done|done|by rewrite lookup_insert_eq].
Qed.

Lemma get_proving_result_implements req :
  implements self (GrpcService_get_proving_result self req) (λ s, Ret (get_proving_result s req)).
Proof.
  intros st s [Ho Hd Ht]. unfold GrpcService_get_proving_result, get_proving_result.
  rewrite (bind_deref _ _ _ _ _ Ho). unfold pop_output.
  set (key := mkProvingKey _ _). destruct (sh_outputs s !! key) as [out|] eqn:Eo.
  - eexists. split; [done|]. split; [|done]. split; simpl; [by rewrite lookup_insert_eq|done|done].
  - eexists. split.
    + unfold mbind, storeM_bind, write_outputs. unfold deref. simpl. rewrite Hd. reflexivity.
    + split; [|done]. split; simpl; [|done|done]. rewrite lookup_insert_eq. by rewrite delete_id.
Qed.

Lemma dispatch_implements req :
  implements self (GrpcService_dispatch self req) (λ s, dispatch cfg s req).
Proof.
  destruct req as [req|req|req|req]; simpl.
  - apply implements_map, register_app_implements.
  - eapply implements_ext; [|apply implements_map, estimate_cost_implements].
    intros s. simpl. by destruct (estimate_cost_handler cfg s req).
  - apply implements_map, prove_task_implements.
  - eapply implements_ext; [|apply implements_map, get_proving_result_implements].
    intros s. simpl. by destruct (get_proving_result s req).
Qed.

Lemma serve_implements metadata body :
  implements self (GrpcService_serve self metadata body) (λ s, serve cfg s metadata body).
Proof.
  unfold GrpcService_serve, serve. rewrite Hcfg.
  destruct (server_auth_interceptor cfg metadata); [|apply implements_ret].
  destruct (grpc_decode _ body) as [req|e]; [|apply implements_ret].
  apply implements_map, dispatch_implements.
Qed.
End Handlers.

(** *** The queue *)

(** The queue's three steps, through its own handles, are those of
    [queue_step] on the state behind the service's. *)
Lemma queue_steps_forth st p s st' p' :
  wired p → shares (pr_service p) st s → sh_queue s = pr_status p → pq_step (st, p) (st', p') →
  ∃ s', queue_step (C := C) (Z.to_nat (prover_count cfg)) s s' ∧ shares (pr_service p) st' s' ∧
    p' = with_status p (sh_queue s').
Proof.
  intros [[_ Ec] _ Eo Et Ed] [Ho Hd Ht] Hq Hst. inversion Hst as [? ? ? task Hs E|? ? ? task res q Hs Hp E
    |? ? ? key proof q Hs E]; subst.
  - unfold ProvingQueue_recv in E. rewrite Et, (bind_deref _ _ _ _ _ Ht) in E.
    destruct (ch_recv (sh_tasks s)) as [[task' tasks]|] eqn:Er; [|done]. injection E as <- <-.
    eexists. split; [apply queue_step_recv; [congruence|exact Er]|].
    split; [|done]. split; simpl; [done|done|by rewrite lookup_insert_eq].
  - exists (queue_proved s (task_key task) res).
    split; [apply queue_step_proved; [congruence|done]|].
    destruct res as [[proof|e]|pn]; simpl in *.
    + rewrite Eo, (bind_deref _ _ _ _ _ Ho) in E. injection E as <- <-.
      split; [|done]. split; simpl; [by rewrite lookup_insert_eq|done|done].
    + injection E as <- <-. by split; [split|].
    + injection E as <- <-. by split; [split|].
  - exists (queue_stored s key proof). split; [apply queue_step_stored; congruence|].
    unfold ProvingQueue_stored in E. rewrite Ed, (bind_deref _ _ _ _ _ Hd) in E. unfold queue_stored.
    destruct (store_proof_in_db (sh_db s) key proof) as [db|e]; injection E as <- <-.
    + split; [|done]. split; simpl; [done|by rewrite lookup_insert_eq|done].
    + by split; [split|].
Qed.

Lemma queue_steps_back st p s s' :
  wired p → shares (pr_service p) st s → sh_queue s = pr_status p →
  queue_step (C := C) (Z.to_nat (prover_count cfg)) s s' →
  ∃ st', pq_step (st, p) (st', with_status p (sh_queue s')) ∧ shares (pr_service p) st' s'.
Proof.
  intros [[_ Ec] _ Eo Et Ed] [Ho Hd Ht] Hq Hst. rewrite <- Ec in Hst.
  inversion Hst as [? task tasks Hs Hrecv|? task res Hs Hp|? key proof Hs]; subst s'.
  - eexists. split.
    + apply pq_step_recv; [congruence|]. unfold ProvingQueue_recv.
      rewrite Et, (bind_deref _ _ _ _ _ Ht), Hrecv. reflexivity.
    + split; simpl; [done|done|by rewrite lookup_insert_eq].
  - destruct res as [[proof|e]|pn].
    + eexists. split.
      * eapply pq_step_proved; [by rewrite <- Hq|exact Hp|]. simpl.
        rewrite Eo, (bind_deref _ _ _ _ _ Ho). reflexivity.
      * split; simpl; [by rewrite lookup_insert_eq|done|done].
    + exists st. split; [|by split]. by eapply pq_step_proved; [by rewrite <- Hq|exact Hp|].
    + exists st. split; [|by split]. by eapply pq_step_proved; [by rewrite <- Hq|exact Hp|].
  - destruct (store_proof_in_db (sh_db s) key proof) as [db|e] eqn:Er.
    + eexists. split.
      * eapply (pq_step_stored _ _ _ key proof); [congruence|]. unfold ProvingQueue_stored.
        rewrite Ed, (bind_deref _ _ _ _ _ Hd), Er. reflexivity.
      * unfold queue_stored. rewrite Er. split; simpl; [done|by rewrite lookup_insert_eq|done].
    + exists st. split.
      * eapply (pq_step_stored _ _ _ key proof); [congruence|]. unfold ProvingQueue_stored.
        by rewrite Ed, (bind_deref _ _ _ _ _ Hd), Er.
      * unfold queue_stored. rewrite Er. by split.
Qed.

(** *** Steps and runs *)

(** The process stands for a server. *)
Definition stands_for (c : config) (v : server C D) : Prop := wired c.2 ∧ view c = Some v.

Lemma with_status_wired p q : wired p → wired (with_status p q).
Proof. by intros []. Qed.

Lemma stands_forth c v ev c' :
  stands_for c v → process_step c ev c' → ∃ v', stands_for c' v' ∧ server_step cfg v ev v'.
Proof.
  intros [Hw Hv] Hst. destruct c as [st p]. apply view_shares in Hv as (s & Hs & Hq & ->).
  assert (Hserve := λ metadata body, serve_implements (pr_service p) (wired_manager _ Hw)
    (proj1 (wired_cfg _ Hw)) metadata body st s Hs).
  inversion Hst as [? ? metadata body st' reply Hg E|? ? metadata body st' q Hg E|? c1 Hqs]; subst.
  - specialize (Hserve metadata body). cbv beta in Hserve. destruct (serve cfg s metadata body) as [[s' r]|q] eqn:Es.
    + destruct Hserve as (st1 & E1 & Hs' & Hq'). rewrite E1 in E. injection E as <- <-.
      exists (mkServer (pr_daemon p) s' GrpcServing). rewrite Hg. split; [split; [done|]|by apply step_call].
      apply view_shares. exists s'. rewrite Hg. split; [done|]. split; congruence.
    + rewrite Hserve in E. done.
  - specialize (Hserve metadata body). cbv beta in Hserve. destruct (serve cfg s metadata body) as [[s' r]|q'] eqn:Es.
    + destruct Hserve as (st1 & E1 & _). rewrite E1 in E. done.
    + rewrite Hserve in E. injection E as <- <-. eexists. split; [split; [done|]|].
      * apply view_shares. by exists s.
      * rewrite Hg. by apply step_call_panic.
  - destruct c' as [st' p'].
    destruct (queue_steps_forth _ _ _ _ _ Hw Hs Hq Hqs) as (s' & Hst' & Hs' & ->).
    eexists. split; [split; [by apply with_status_wired|apply view_shares; by exists s']|].
    by apply step_srv_queue.
Qed.

Lemma stands_back c v ev v' :
  stands_for c v → server_step cfg v ev v' → ∃ c', stands_for c' v' ∧ process_step c ev c'.
Proof.
  intros [Hw Hv] Hst. destruct c as [st p]. apply view_shares in Hv as (s & Hs & Hq & ->).
  assert (Hserve := λ metadata body, serve_implements (pr_service p) (wired_manager _ Hw)
    (proj1 (wired_cfg _ Hw)) metadata body st s Hs).
  inversion Hst as [daemon ? metadata body s' reply E|daemon ? metadata body q E|daemon ? s' g Hqs]; subst.
  - specialize (Hserve metadata body). cbv beta in Hserve. rewrite E in Hserve. destruct Hserve as (st' & E' & Hs' & Hq').
    exists (st', p). split; [split; [done|]|by apply process_call].
    apply view_shares. exists s'. split; [done|]. split; congruence.
  - specialize (Hserve metadata body). cbv beta in Hserve. rewrite E in Hserve.
    exists (st, p). split; [split; [done|]|by eapply process_call_panic].
    apply view_shares. exists s. split; [done|]. split; congruence.
  - destruct (queue_steps_back _ _ _ _ Hw Hs Hq Hqs) as (st' & Hst' & Hs').
    exists (st', with_status p (sh_queue s')). split; [split; [by apply with_status_wired|]|by constructor].
    apply view_shares. by exists s'.
Qed.

Lemma stands_run_forth c v tr c' :
  stands_for c v → process_run c tr c' → ∃ v', stands_for c' v' ∧ server_run cfg v tr v'.
Proof.
  intros Hs Hr. induction Hr as [c|c tr c1 ev c2 Hr IH Hst].
  - exists v. split; [done|constructor].
  - destruct (IH Hs) as (v1 & Hs1 & Hr1). destruct (stands_forth _ _ _ _ Hs1 Hst) as (v2 & Hs2 & Hst2).
    exists v2. split; [done|]. by econstructor.
Qed.

Lemma stands_run_back c v tr v' :
  stands_for c v → server_run cfg v tr v' → ∃ c', stands_for c' v' ∧ process_run c tr c'.
Proof.
  intros Hs Hr. induction Hr as [v|v tr v1 ev v2 Hr IH Hst].
  - exists c. split; [done|constructor].
  - destruct (IH Hs) as (c1 & Hs1 & Hr1). destruct (stands_back _ _ _ _ Hs1 Hst) as (c2 & Hs2 & Hst2).
    exists c2. split; [done|]. by econstructor.
Qed.

(** No method finds a dangling handle. *)
Lemma stands_serves c v metadata body :
  stands_for c v → is_Some (GrpcService_serve (pr_service c.2) metadata body c.1).
Proof.
  destruct c as [st p]. intros [Hw (s & Hs & _)%view_shares].
  pose proof (serve_implements (pr_service p) (wired_manager _ Hw) (proj1 (wired_cfg _ Hw))
    metadata body st s Hs) as E. cbv beta in E.
  simpl. destruct (serve cfg s metadata body) as [[s' r]|q]; [destruct E as (st' & E & _)|]; rewrite E; by eexists.
Qed.

(** What [main] allocates. *)
Lemma main_wiring_run db :
  ∃ st queue service, main_wiring cfg db empty_store = Some (st, Ret (queue, service)) ∧
    gs_cfg service = cfg ∧
    ∀ daemon grpc, stands_for (st, mkProcess daemon queue QWaiting service grpc)
      (mkServer daemon (service_init db) grpc).
Proof.
  exists (mkStore (<[0%nat := db]> ∅) (<[1%nat := ∅]> ∅) (<[2%nat := ch_new]> ∅) 3%nat).
  exists (ProvingQueue_new cfg 1 2 0), (GrpcService_new cfg 0 1 2).
  split; [reflexivity|]. split; [done|]. intros daemon grpc. by split.
Qed.

(** C11: the process that [main] builds out of handles is the server.  Starting
    from an empty store, [main] ends as [server_main] does, with the same error
    or panic; and when it starts the two tasks, the runs of the process
    are exactly those of the server, the queue, the manager and the handlers
    reading and writing, each through its own handles, one pool, one map of
    outputs and one channel; no call ever meets a handle that points
    nowhere. *)
Theorem main_wires_the_server build_global connect bind :
  match server_main cfg build_global connect bind with
  | Ret (Ok v) => ∃ st p,
      main cfg build_global connect bind empty_store = Some (st, Ret (Ok p)) ∧
      (∀ tr v', server_run cfg v tr v' ↔
         ∃ c', process_run (st, p) tr c' ∧ view c' = Some v') ∧
      ∀ tr c', process_run (st, p) tr c' →
        is_Some (view c') ∧
        ∀ metadata body, is_Some (GrpcService_serve (pr_service c'.2) metadata body c'.1)
  | Ret (Err e) => main cfg build_global connect bind empty_store = Some (empty_store, Ret (Err e))
  | Panic q => main cfg build_global connect bind empty_store = Some (empty_store, Panic q)
  end.
Proof.
  unfold server_main, main. simpl. destruct build_global as [[]|e]; simpl; [|done].
  destruct (connect (db_url cfg)) as [db|e]; simpl; [|done].
  destruct (main_wiring_run db) as (st & queue & service & E & Ecfg & Hinit).
  exists st, (mkProcess true queue QWaiting service (GrpcService_run cfg bind)).
  specialize (Hinit true (GrpcService_run cfg bind)). split; [|split].
  - unfold mbind, storeM_bind, lift. rewrite E, Ecfg. done.
  - intros tr v'. split.
    + intros Hr. destruct (stands_run_back _ _ _ _ Hinit Hr) as (c' & [_ Hv] & Hr'). by exists c'.
    + intros (c' & Hr & Hv). destruct (stands_run_forth _ _ _ _ Hinit Hr) as (v1 & [_ Hv1] & Hr').
      by simplify_eq.
  - intros tr c' Hr. destruct (stands_run_forth _ _ _ _ Hinit Hr) as (v1 & Hs1 & _).
    split; [exists v1; apply Hs1|]. intros metadata body. by eapply stands_serves.
Qed.
End WiredServer.

(** *** Witness *)

#[local] Existing Instance release_build.
#[local] Existing Instance ServerExample.byte_codec.

(** The registration of [Server.v], through the handles. *)
Lemma main_wires_the_server_witness :
  ∃ st p c,
    main (C := list) ServerExample.cfg (Ok tt) ServerExample.connect (λ _, Ok tt) empty_store =
      Some (st, Ret (Ok p)) ∧
    process_run (st, p) [SvCall ServerExample.token [1; 1; 2; 3] (Ok [1])] c ∧
    view c = Some (mkServer true History.registered_state GrpcServing).
Proof.
  pose proof (main_wires_the_server ServerExample.cfg (Ok tt) ServerExample.connect (λ _, Ok tt)) as Hw.
  rewrite ServerExample.main_starts in Hw. destruct Hw as (st & p & E & Hruns & _).
  destruct (proj1 (Hruns _ _) ServerExample.register_run) as (c & Hr & Hv).
  exists st, p, c. split; [exact E|]. split; [exact Hr|exact Hv].
Defined.
