(* ===== verification/Network.v ===== *)
(** * The server with its calls in flight

    [Server.v] serves a call in one step.  Here the interceptor and the codec
    stand in front of the concurrent handlers of [Concurrent.v]: a call is
    refused at once or joins the calls in flight, whose actions interleave
    until each returns and is answered.  The server is then seen to be the
    concurrent service for exactly the calls it lets in. *)

From S2P Require Import Prelude PicoVM Messages Task Provers Worker Channel Onchain Emulator.
From S2P Require Import Gateway Pipeline PipelineInv Derivation Database AppManager Registration.
From S2P Require Import CostEstimation Auth ProvingQueue Grpc Service ServiceLive Concurrent Server.

Section Network.
Context `{PicoVM, RustBuild, !GnarkEnv, AlloyU256, !AppEnv, !CostEnv}.
Context `{!Bincode Program, !Bincode BaseProvingKey, !Bincode BaseVerifyingKey}.
Context `{Chan C, Database D, Tonic, Codec}.
Context (cfg : ServiceConfig).

Implicit Types s : shared C D.

(** What stands in front of the handlers: the interceptor, then the decoding. *)
Definition let_in (metadata : Metadata) (body : bytes) : result rpc_request Status :=
  match server_auth_interceptor cfg metadata with
  | Err e => Err e
  | Ok _ => grpc_decode (max_grpc_msg_size cfg) body
  end.

Lemma serve_let_in s metadata body :
  serve cfg s metadata body =
    match let_in metadata body with
    | Err e => Ret (s, Err e)
    | Ok req => '(s, res) ← dispatch cfg s req; Ret (s, encode_reply cfg res)
    end.
Proof. unfold serve, let_in. by destruct (server_auth_interceptor cfg metadata). Qed.

(** A call in flight. *)
Record net_call : Type := mkNetCall {
  net_metadata : Metadata;
  net_body : bytes;
  net_req : rpc_request;
  net_state : call_state;
}.

Record network : Type := mkNetwork {
  net_daemon : bool;
  net_shared : shared C D;
  net_calls : list net_call;
  net_grpc : grpc_task;
}.

(** The process that [main] started. *)
Definition network_of (v : server C D) : network :=
  mkNetwork (srv_daemon v) (srv_shared v) [] (srv_grpc v).

Inductive net_event : Type :=
  | NetArrive (metadata : Metadata) (body : bytes)
  | NetReply (metadata : Metadata) (body : bytes) (reply : result bytes Status)
  | NetPanic (metadata : Metadata) (body : bytes) (p : panic)
  | NetQueue.

Definition net_returns (c : net_call) (st : call_state) : list net_event :=
  match st with
  | CallDone (Ret res) => [NetReply (net_metadata c) (net_body c) (encode_reply cfg res)]
  | CallDone (Panic p) => [NetPanic (net_metadata c) (net_body c) p]
  | _ => []
  end.

Definition net_advance (c : net_call) (st : call_state) : net_call :=
  mkNetCall (net_metadata c) (net_body c) (net_req c) st.

(** Calls are taken while the gRPC task serves; the queue moves on its own. *)
Inductive net_step : network → list net_event → network → Prop :=
  | net_refuse daemon s calls metadata body e :
      let_in metadata body = Err e →
      net_step (mkNetwork daemon s calls GrpcServing)
        [NetArrive metadata body; NetReply metadata body (Err e)]
        (mkNetwork daemon s calls GrpcServing)
  | net_accept daemon s calls metadata body req :
      let_in metadata body = Ok req →
      net_step (mkNetwork daemon s calls GrpcServing) [NetArrive metadata body]
        (mkNetwork daemon s (calls ++ [mkNetCall metadata body req CallStart]) GrpcServing)
  | net_act daemon s calls i c s' st' :
      calls !! i = Some c → call_action cfg s (net_req c) (net_state c) = Some (s', st') →
      net_step (mkNetwork daemon s calls GrpcServing) (net_returns c st')
        (mkNetwork daemon s' (<[i := net_advance c st']> calls) GrpcServing)
  | net_drop daemon s calls1 c calls2 :
      net_step (mkNetwork daemon s (calls1 ++ c :: calls2) GrpcServing) []
        (mkNetwork daemon s (calls1 ++ calls2) GrpcServing)
  | net_queue daemon s s' calls grpc :
      queue_step (C := C) (Z.to_nat (prover_count cfg)) s s' →
      net_step (mkNetwork daemon s calls grpc) [NetQueue] (mkNetwork daemon s' calls grpc).

Inductive net_run : network → list net_event → network → Prop :=
  | net_nil v : net_run v [] v
  | net_snoc v tr v1 evs v2 :
      net_run v tr v1 → net_step v1 evs v2 → net_run v (tr ++ evs) v2.

(** ** What the service sees of the network *)

(** The service sees the calls that were let in. *)
Inductive net_shows : list net_event → list conc_event → Prop :=
  | net_shows_nil : net_shows [] []
  | net_shows_arrive tr log metadata body :
      net_shows tr log → net_shows (tr ++ [NetArrive metadata body]) log
  | net_shows_refused tr log metadata body e :
      net_shows tr log → let_in metadata body = Err e →
      net_shows (tr ++ [NetReply metadata body (Err e)]) log
  | net_shows_reply tr log metadata body req res :
      net_shows tr log → let_in metadata body = Ok req →
      net_shows (tr ++ [NetReply metadata body (encode_reply cfg res)])
        (log ++ [ConcReturn req (Ret res)])
  | net_shows_panic tr log metadata body req p :
      net_shows tr log → let_in metadata body = Ok req →
      net_shows (tr ++ [NetPanic metadata body p]) (log ++ [ConcReturn req (Panic p)])
  | net_shows_queue tr log : net_shows tr log → net_shows (tr ++ [NetQueue]) (log ++ [ConcQueue]).

Definition service_call (c : net_call) : rpc_request * call_state := (net_req c, net_state c).

(** The concurrent service behind the network. *)
Definition service_of (v : network) : concurrent :=
  mkConcurrent (net_shared v) (service_call <$> net_calls v).

Definition was_let_in (c : net_call) : Prop := let_in (net_metadata c) (net_body c) = Ok (net_req c).

Lemma net_step_service v evs v' tr log c0 :
  Forall was_let_in (net_calls v) → net_step v evs v' → net_shows tr log →
  conc_run cfg c0 log (service_of v) →
  Forall was_let_in (net_calls v') ∧
  ∃ log', net_shows (tr ++ evs) log' ∧ conc_run cfg c0 log' (service_of v').
Proof.
  intros Hin Hst Hsh Hr.
  destruct Hst as [daemon s calls metadata body e He|daemon s calls metadata body req Hq
    |daemon s calls i c s' st' Hi Ha|daemon s calls1 c calls2|daemon s s' calls grpc Hq];
    unfold service_of in *; simpl in *.
  - split; [done|]. exists log. split; [|done]. rewrite cons_middle, app_assoc.
    apply net_shows_refused; [by apply net_shows_arrive|done].
  - split; [apply Forall_app; by split; [|repeat constructor]|]. exists log.
    split; [by apply net_shows_arrive|]. rewrite <- (app_nil_r log), fmap_app.
    eapply conc_snoc; [done|apply conc_arrive].
  - pose proof (Forall_lookup_1 _ _ _ _ Hin Hi) as Hc.
    split; [by apply Forall_insert|].
    exists (log ++ call_returns (net_req c) st'). split.
    + destruct st' as [| | | |[res|p]]; simpl; rewrite ?app_nil_r; try done.
      * by apply net_shows_reply.
      * by eapply net_shows_panic.
    + rewrite list_fmap_insert. eapply conc_snoc; [exact Hr|].
      eapply (conc_act _ _ _ i (net_req c) (net_state c)); [|done].
      by rewrite list_lookup_fmap, Hi.
  - apply Forall_app in Hin as [? [_ ?]%Forall_cons]. split; [by apply Forall_app|].
    exists log. rewrite !app_nil_r. split; [done|]. rewrite fmap_app in *.
    rewrite <- (app_nil_r log). eapply conc_snoc; [exact Hr|apply conc_drop].
  - split; [done|]. exists (log ++ [ConcQueue]). split; [by constructor|].
    eapply conc_snoc; [exact Hr|by constructor].
Qed.

Lemma net_run_service_from v tr v' :
  Forall was_let_in (net_calls v) → net_run v tr v' →
  Forall was_let_in (net_calls v') ∧
  ∃ log, net_shows tr log ∧ conc_run cfg (service_of v) log (service_of v').
Proof.
  intros Hv Hr. induction Hr as [v|v tr v1 evs v2 Hr IH Hst].
  - split; [done|]. exists []. split; constructor.
  - destruct (IH Hv) as (Hin & log & Hsh & Hc). by eapply net_step_service.
Qed.

Lemma net_run_service v tr v' :
  net_calls v = [] → net_run v tr v' →
  ∃ log, net_shows tr log ∧ conc_run cfg (service_of v) log (service_of v').
Proof. intros Hv Hr. apply net_run_service_from; [by rewrite Hv|done]. Qed.

(** The steps of the queue that are seen. *)
Definition net_queue_seen (tr : list net_event) : nat :=
  list_sum (map (λ ev, match ev with NetQueue => 1%nat | _ => 0%nat end) tr).

Lemma net_shows_queue_seen tr log : net_shows tr log → net_queue_seen tr = queue_seen log.
Proof.
  unfold net_queue_seen, queue_seen.
  induction 1; rewrite ?map_app, ?list_sum_app; simpl; lia.
Qed.

(** *** Answers and returns *)

Lemma shows_reply tr log metadata body reply :
  net_shows tr log → NetReply metadata body reply ∈ tr →
  (∃ e, let_in metadata body = Err e ∧ reply = Err e) ∨
  ∃ req res, let_in metadata body = Ok req ∧ ConcReturn req (Ret res) ∈ log ∧
    reply = encode_reply cfg res.
Proof.
  intros Hsh. induction Hsh as [|tr log m b Hsh IH|tr log m b e Hsh IH He|tr log m b req res Hsh IH Hq
    |tr log m b req p Hsh IH Hq|tr log Hsh IH];
    [by intros ?%elem_of_nil|..]; (intros [Hin|Hnew%list_elem_of_singleton]%elem_of_app;
    [destruct (IH Hin) as [?|(req' & res' & ? & ? & ?)]; [by left|right; exists req', res';
      split; [done|]; split; [by (done || (apply elem_of_app; left))|done]]|]); simplify_eq.
  - left. by exists e.
  - right. exists req, res. split; [done|]. split; [apply elem_of_app; right; by left|done].
Qed.

Lemma shows_return tr log req res :
  net_shows tr log → ConcReturn req (Ret res) ∈ log →
  ∃ metadata body, let_in metadata body = Ok req ∧
    NetReply metadata body (encode_reply cfg res) ∈ tr.
Proof.
  intros Hsh. induction Hsh as [|tr log m b Hsh IH|tr log m b e Hsh IH He|tr log m b req' res' Hsh IH Hq
    |tr log m b req' p Hsh IH Hq|tr log Hsh IH]; intros Hin; [by apply elem_of_nil in Hin|..].
  1,2: destruct (IH Hin) as (m' & b' & ? & ?); exists m', b'; split; [done|apply elem_of_app; by left].
  all: apply elem_of_app in Hin as [Hin|Hnew%list_elem_of_singleton];
    [destruct (IH Hin) as (m' & b' & ? & ?); exists m', b'; split; [done|apply elem_of_app; by left]|].
  all: simplify_eq. exists m, b. split; [done|]. apply elem_of_app. right. by left.
Qed.
End Network.

Arguments network {_} C D {_}.

(** ** Properties *)

Section NetworkProperties.
Context `{PicoVM, RustBuild, !GnarkEnv, AlloyU256, !AppEnv, !CostEnv}.
Context `{!Bincode Program, !Bincode BaseProvingKey, !Bincode BaseVerifyingKey}.
Context `{!BincodeSpec Program, !BincodeSpec BaseProvingKey, !BincodeSpec BaseVerifyingKey}.
Context `{!AppEnvSpec, FifoChan C, DatabaseSpec D, !DatabaseLive D, Tonic, !TonicSpec, Codec}.
Context (cfg : ServiceConfig).

(** C10: the server, with its calls in flight, is the service behind its
    interceptor.  Whatever a started server is sent, however its calls
    interleave and whichever are given up, the calls that carry the token and
    decode are calls of the concurrent service, in the order they return, each answered
    with its encoded result, which are steps of the service started on the
    connected database; every other call is answered with its refusal and
    nothing else. *)
Theorem network_refines_service build_global connect bind v tr (v' : network C D) :
  server_main cfg build_global connect bind = Ret (Ok v) →
  (∀ db, connect (db_url cfg) = Ok db → rows_decode db) →
  net_run cfg (network_of v) tr v' →
  ∃ db log evs, connect (db_url cfg) = Ok db ∧ net_shows cfg tr log ∧
    conc_run cfg (conc_init db) log (service_of v') ∧
    linear cfg (service_init db) log evs (net_shared v') ∧
    service_run cfg (service_init db) evs (net_shared v').
Proof.
  intros (db & Ec & Ei & _)%server_main_init Hrows Hr.
  destruct (net_run_service cfg (network_of v) tr v' eq_refl Hr) as (log & Hsh & Hc).
  unfold service_of at 1 in Hc. simpl in Hc. rewrite Ei in Hc.
  destruct (conc_run_inv cfg (conc_init db) log (service_of v')) as [[evs Hl] _ _]; [by apply Hrows|done..|].
  exists db, log, evs. do 4 (split; [done|]). by eapply linear_run.
Qed.

(** A bearer server lets in what carries its token. *)
Lemma let_in_authorised metadata body req :
  cfg_auth_method cfg = AuthMethod_Bearer → let_in cfg metadata body = Ok req →
  authorised cfg metadata ∧ grpc_decode (max_grpc_msg_size cfg) body = Ok req.
Proof.
  intros Hm. unfold let_in. pose proof (bearer_interceptor cfg metadata Hm) as [Hiff Herr].
  destruct (server_auth_interceptor cfg metadata) as [md|e] eqn:E; [|done].
  intros Hd. split; [|done]. apply Hiff. by rewrite (interceptor_same _ _ _ E).
Qed.

Lemma unauthorised_not_let_in metadata body :
  cfg_auth_method cfg = AuthMethod_Bearer → ¬ authorised cfg metadata →
  ∃ msg, let_in cfg metadata body = Err (Unauthenticated msg).
Proof.
  intros Hm Hna. unfold let_in. pose proof (bearer_interceptor cfg metadata Hm) as [Hiff Herr].
  destruct Herr as [msg E]; [by intros E%Hiff|]. rewrite E. by exists msg.
Qed.

(** C20: nothing happens without the token.  A started server with the bearer
    method stays exactly as it started, its proving loop idle and no call in
    flight, as long as no call that has arrived carried the token, and every
    answer so far is an unauthenticated status. *)
Theorem network_idle_without_token build_global connect bind v tr (v' : network C D) :
  server_main cfg build_global connect bind = Ret (Ok v) →
  cfg_auth_method cfg = AuthMethod_Bearer → net_run cfg (network_of v) tr v' →
  (∀ metadata body, NetArrive metadata body ∈ tr → ¬ authorised cfg metadata) →
  v' = network_of v ∧
  ∀ metadata body reply, NetReply metadata body reply ∈ tr → ∃ msg, reply = Err (Unauthenticated msg).
Proof.
  intros (db & _ & Ei & _)%server_main_init Hm Hr. remember (network_of v) as v0 eqn:Ev.
  induction Hr as [v0|v0 tr v1 evs v2 Hr IH Hst]; intros Hall.
  { split; [done|]. by intros ??? ?%elem_of_nil. }
  destruct IH as [-> Hreplies]; [done|by intros; eapply Hall, elem_of_app; left|]. subst v0.
  inversion Hst as [daemon s calls metadata body e He|daemon s calls metadata body req Hq
    |daemon s calls i c s' st' Hi Ha|daemon s calls1 c calls2 Hc|daemon s s' calls grpc Hq]; subst.
  - split; [unfold network_of; congruence|]. intros md b reply [Hin|Hin]%elem_of_app; [by eapply Hreplies|].
    destruct (unauthorised_not_let_in metadata body Hm) as [msg E].
    { eapply (Hall metadata body), elem_of_app. right. by left. }
    apply elem_of_cons in Hin as [?|Hin%list_elem_of_singleton]; simplify_eq; exists msg; congruence.
  - exfalso. destruct (unauthorised_not_let_in metadata body Hm) as [msg E]; [|congruence].
    eapply (Hall metadata body), elem_of_app. right. by left.
  - done.
  - by destruct calls1.
  - exfalso. rewrite Ei in Hq. inversion Hq as [? task tasks _ Hrecv| |]; simpl in *; subst; try done.
    apply ch_recv_Some in Hrecv. by rewrite ch_new_contents in Hrecv.
Qed.

(** The answer to a request for a result. *)
Lemma linear_get_shape (s s' : shared C D) log tr req res :
  linear cfg s log tr s' → ConcReturn (Rpc_GetProvingResult req) (Ret (Ok res)) ∈ log →
  ∃ resp, res = Resp_GetProvingResult resp.
Proof.
  induction 1 as [|log tr s1 ev s2 seen Hl IH Hst Hsh|log tr s1 req' Hl IH];
    [by intros ?%elem_of_nil|..]; (intros [Hin|Hnew%list_elem_of_singleton]%elem_of_app; [by apply IH|]).
  - subst seen. inversion Hsh as [| | | |? [r|e]| |]; simplify_eq/=. by exists r.
  - injection Hnew as _ Hf. destruct (fetch_proof s1 req') as [r|e]; simplify_eq/=. by exists r.
Qed.

(** C6: what leaves a server.  Started with the bearer method on an empty
    database, whatever it is sent and however the calls interleave, a server
    that answers a request for a result other than by an error answers it
    with the encoding of a response; if that holds a proof, the request
    carried the token, and so did a registration of an application and a
    proving request, both answered before, with exactly that application id
    and task id; and the proof is the on-chain outcome of an embed proof,
    verified against the key of that application, that was derived from the
    records of the task's emulation. *)
Theorem proof_leaves_by_token build_global connect bind v tr (v' : network C D)
    metadata body reply req :
  server_main cfg build_global connect bind = Ret (Ok v) →
  cfg_auth_method cfg = AuthMethod_Bearer →
  (∀ db, connect (db_url cfg) = Ok db → db_apps db = ∅ ∧ db_proofs db = ∅) →
  net_run cfg (network_of v) tr v' → NetReply metadata body reply ∈ tr →
  grpc_decode (max_grpc_msg_size cfg) body = Ok (Rpc_GetProvingResult req) →
  (∃ e, reply = Err e) ∨
  ∃ resp, reply = grpc_encode (max_grpc_msg_size cfg) (Resp_GetProvingResult resp) ∧
    authorised cfg metadata ∧
    ∀ proof, result_proof resp = Some proof →
    ∃ elf info app preq m1 b1 m2 b2,
      App_new elf info = Ret app ∧
      let_in cfg m1 b1 = Ok (Rpc_RegisterApp (mkRegisterAppRequest elf info)) ∧
      NetReply m1 b1 (encode_reply cfg (Ok (Resp_RegisterApp
        (mkRegisterAppResponse None (app_app_id app))))) ∈ tr ∧
      let_in cfg m2 b2 = Ok (Rpc_ProveTask preq) ∧
      NetReply m2 b2 (encode_reply cfg (Ok (Resp_ProveTask (mkProveTaskResponse None)))) ∈ tr ∧
      authorised cfg m1 ∧ authorised cfg m2 ∧
      strip_0x (prove_app_id preq) = app_app_id app ∧
      prove_app_id preq = result_app_id req ∧ prove_task_id preq = result_task_id req ∧
      ((2 ≤ COMBINE_SIZE)%nat → ∀ recs, task_emulates (request_task preq app) recs None →
         chunk_count recs ≤ usize_max →
         ∃ e hi, delivered (request_task preq app) e proof ∧
           final_embed (request_task preq app) recs hi e ∧ 0 < hi ≤ chunk_count recs).
Proof.
  intros (db & Ec & Ei & _)%server_main_init Hm Hempty Hr Hin Hdec.
  destruct (Hempty db Ec) as [Ha Hp].
  destruct (net_run_service cfg (network_of v) tr v' eq_refl Hr) as (log & Hsh & Hc).
  unfold service_of at 1 in Hc. simpl in Hc. rewrite Ei in Hc.
  destruct (shows_reply cfg tr log _ _ _ Hsh Hin) as [(e & _ & ->)|(req' & res & Hlet & Hret & ->)];
    [left; by exists e|].
  destruct (let_in_authorised _ _ _ Hm Hlet) as [Hauth Hd]. rewrite Hdec in Hd. injection Hd as <-.
  destruct res as [res|e]; [|left; by exists e].
  destruct (conc_run_inv cfg (conc_init db) log (service_of v')) as [[evs Hl] _ _];
    [by apply empty_rows_decode|done..|].
  destruct (linear_get_shape _ _ _ _ _ _ Hl Hret) as [resp ->]. right. exists resp.
  split; [done|]. split; [done|]. intros proof Hres.
  destruct (conc_results_derived cfg db log _ req resp proof Ha Hp Hc Hret Hres)
    as (elf & info & app & preq & En & Hreg & Hprove & Hids).
  destruct (shows_return cfg tr log _ _ Hsh Hreg) as (m1 & b1 & L1 & R1).
  destruct (shows_return cfg tr log _ _ Hsh Hprove) as (m2 & b2 & L2 & R2).
  destruct (let_in_authorised _ _ _ Hm L1) as [A1 _], (let_in_authorised _ _ _ Hm L2) as [A2 _].
  exists elf, info, app, preq, m1, b1, m2, b2. by do 7 (split; [done|]).
Qed.

(** C5: a task a started server has accepted is proved and its proof can be
    fetched.  When a call that was let in is to send its task, under the
    plain id of its application, while the queue is alive, with at least one
    worker, on a database whose rows decode, and every task up to its own can
    be served, then whatever the
    server is sent next and however the calls interleave, after three queue
    steps for each of those tasks its proof is in the database, and no call
    for its result that returns from there does so without a proof; and until
    then the queue can always step. *)
Theorem network_task_is_proved build_global connect bind v tr0 daemon s calls i c req app s1 st tr
    (v' : network C D) :
  (2 ≤ COMBINE_SIZE)%nat → (0 < Z.to_nat (prover_count cfg))%nat →
  server_main cfg build_global connect bind = Ret (Ok v) →
  (∀ db, connect (db_url cfg) = Ok db → rows_decode db) →
  net_run cfg (network_of v) tr0 (mkNetwork daemon s calls GrpcServing) →
  calls !! i = Some c → net_req c = Rpc_ProveTask req → net_state c = CallSend app →
  call_action cfg s (net_req c) (net_state c) = Some (s1, st) →
  (∀ p, sh_queue s ≠ QPanicked p) → strip_0x (prove_app_id req) = prove_app_id req →
  Forall entry_servable (backlog s1) →
  net_run cfg (mkNetwork daemon s1 (<[i := net_advance c st]> calls) GrpcServing) tr v' →
  ((3 * length (backlog s) + head_steps s ≤ net_queue_seen tr)%nat →
   stored (net_shared v') (mkProvingKey (prove_app_id req) (prove_task_id req)) ∧
   ∀ c' s' st' ev,
     net_req c' = Rpc_GetProvingResult
       (mkGetProvingResultRequest (prove_app_id req) (prove_task_id req)) →
     call_action cfg (net_shared v') (net_req c') (net_state c') = Some (s', st') →
     ev ∈ net_returns cfg c' st' →
     ∃ proof, ev = NetReply (net_metadata c') (net_body c')
       (grpc_encode (max_grpc_msg_size cfg)
          (Resp_GetProvingResult (mkGetProvingResultResponse None (Some proof))))) ∧
  ((net_queue_seen tr < 3 * length (backlog s) + head_steps s)%nat →
   ∃ s'', queue_step (C := C) (Z.to_nat (prover_count cfg)) (net_shared v') s'').
Proof.
  intros Hsize Hworkers (db & Ec & Ei & _)%server_main_init Hrows Hr0 Hi Hreq Hst Hact Hq Hplain Hall Hr.
  destruct (net_run_service_from cfg (network_of v) tr0 _ ltac:(constructor) Hr0) as (Hin & log0 & _ & Hc0).
  unfold service_of at 1 in Hc0. simpl in Hc0. rewrite Ei in Hc0.
  assert (Hin' : Forall (was_let_in cfg) (<[i := net_advance c st]> calls)).
  { apply Forall_insert; [exact Hin|exact (Forall_lookup_1 _ _ _ _ Hin Hi)]. }
  destruct (net_run_service_from cfg (mkNetwork _ _ _ _) tr v' Hin' Hr) as (_ & log & Hsh & Hc).
  rewrite (net_shows_queue_seen cfg _ _ Hsh).
  unfold service_of at 1 in Hc. simpl in Hc. rewrite list_fmap_insert in Hc.
  unfold service_call at 1 in Hc. simpl in Hc. rewrite Hreq in *. rewrite Hst in Hact.
  destruct (conc_task_proved cfg db log0 s (service_call <$> calls) i req app s1 st log (service_of v')
    Hsize Hworkers (Hrows db Ec) Hc0) as [Hdone Hstep]; [|done..|].
  { rewrite list_lookup_fmap, Hi. simpl. unfold service_call. by rewrite Hreq, Hst. }
  split; [|exact Hstep]. intros Hle. destruct (Hdone Hle) as [Hstored Hans]. split; [exact Hstored|].
  intros c' s' st' ev Hget Ha Hev. rewrite Hget in Ha. unfold net_returns in Hev.
  destruct st' as [| | | |res]; try by apply elem_of_nil in Hev.
  destruct (Hans _ _ _ Ha) as [proof ->]. apply list_elem_of_singleton in Hev. by exists proof.
Qed.
End NetworkProperties.

(** ** A concrete network *)

Section NetExec.
Context `{PicoVM, RustBuild, !GnarkEnv, AlloyU256, !AppEnv, !CostEnv}.
Context `{!Bincode Program, !Bincode BaseProvingKey, !Bincode BaseVerifyingKey}.
Context `{Chan C, Database D, Tonic, Codec}.
Context (cfg : ServiceConfig).

(** The steps of the calls, executed, while the gRPC task serves. *)
Inductive net_label : Type :=
  | NArrive (metadata : Metadata) (body : bytes)
  | NAct (i : nat).

Definition net_exec_step (l : net_label) (v : shared C D * list net_call) :
    option (shared C D * list net_call * list net_event) :=
  let '(s, calls) := v in
  match l with
  | NArrive metadata body =>
      match let_in cfg metadata body with
      | Err e => Some (s, calls, [NetArrive metadata body; NetReply metadata body (Err e)])
      | Ok req => Some (s, calls ++ [mkNetCall metadata body req CallStart], [NetArrive metadata body])
      end
  | NAct i =>
      c ← calls !! i;
      '(s', st') ← call_action cfg s (net_req c) (net_state c);
      Some (s', <[i := net_advance c st']> calls, net_returns cfg c st')
  end.

Fixpoint net_exec (ls : list net_label) (v : shared C D * list net_call) :
    option (shared C D * list net_call * list net_event) :=
  match ls with
  | [] => Some (v, [])
  | l :: ls =>
      '(v1, evs) ← net_exec_step l v;
      '(v2, tr) ← net_exec ls v1;
      Some (v2, evs ++ tr)
  end.

Lemma net_exec_step_sound daemon l s calls s' calls' evs :
  net_exec_step l (s, calls) = Some (s', calls', evs) →
  net_step cfg (mkNetwork daemon s calls GrpcServing) evs (mkNetwork daemon s' calls' GrpcServing).
Proof.
  destruct l as [metadata body|i]; simpl.
  - destruct (let_in cfg metadata body) as [req|e] eqn:El; intros [= <- <- <-];
      [by apply net_accept|by apply net_refuse].
  - destruct (calls !! i) as [c|] eqn:Hi; simpl; [|done].
    destruct (call_action cfg s (net_req c) (net_state c)) as [[s1 st1]|] eqn:Ha; simpl; [|done].
    intros [= <- <- <-]. by eapply net_act.
Qed.

Lemma net_exec_sound daemon v0 tr0 ls s calls s' calls' tr :
  net_run cfg v0 tr0 (mkNetwork daemon s calls GrpcServing) →
  net_exec ls (s, calls) = Some (s', calls', tr) →
  net_run cfg v0 (tr0 ++ tr) (mkNetwork daemon s' calls' GrpcServing).
Proof.
  revert tr0 s calls tr. induction ls as [|l ls IH]; intros tr0 s calls tr Hr; cbn [net_exec].
  - intros [= <- <- <-]. by rewrite app_nil_r.
  - destruct (net_exec_step l (s, calls)) as [[[s1 c1] evs]|] eqn:El; simpl; [|done].
    destruct (net_exec ls (s1, c1)) as [[[s2 c2] tr2]|] eqn:Els; simpl; [|done].
    intros [= <- <- <-]. rewrite app_assoc. eapply IH; [|done].
    eapply net_snoc; [done|by eapply net_exec_step_sound].
Qed.
End NetExec.

Module NetworkExample.
#[local] Existing Instance release_build.
#[local] Existing Instance ServerExample.byte_codec.

(** The server of [ServerExample], for messages of up to 1000 bytes. *)
Definition cfg : ServiceConfig :=
  mkServiceConfig "db" "addr" AuthMethod_Bearer (Some "t") 1000 1 None.

Definition started : server list memory_db :=
  mkServer true (service_init (C := list) empty_db) GrpcServing.

Lemma net_main_starts :
  server_main (C := list) cfg (Ok tt) ServerExample.connect (λ _, Ok tt) = Ret (Ok started).
Proof. vm_compute. reflexivity. Qed.

Definition token : gmap string string := ServerExample.token.

Definition no_token : gmap string string := ∅.

Definition refusal : Status := Unauthenticated "Invalid or missing auth token".

Definition register_call : rpc_request := Rpc_RegisterApp History.register_req.
Definition get_call : rpc_request := Rpc_GetProvingResult ConcurrentExample.get_req.
Definition prove_call : rpc_request := Rpc_ProveTask (History.prove_req ThreeChunks.app_id false).

Lemma token_register : let_in cfg token [1; 1; 2; 3] = Ok register_call.
Proof. vm_compute. reflexivity. Qed.

Lemma token_get : let_in cfg token [4] = Ok get_call.
Proof. vm_compute. reflexivity. Qed.

Lemma token_prove : let_in cfg token [3] = Ok prove_call.
Proof. vm_compute. reflexivity. Qed.

Lemma no_token_get : let_in cfg no_token [4] = Err refusal.
Proof. vm_compute. reflexivity. Qed.

(** A call without the token is refused; a request for the result misses the
    map; the application is registered and the task sent. *)
Definition arriving (md md' : gmap string string) : list net_label :=
  [NArrive md' [4]; NArrive md [1; 1; 2; 3]; NArrive md [4]; NArrive md [3]].

Definition acting : list net_label := [NAct 1; NAct 0; NAct 0; NAct 2].

Definition arriving_events (md md' : gmap string string) : list net_event :=
  [NetArrive md' [4]; NetReply md' [4] (Err refusal);
   NetArrive md [1; 1; 2; 3]; NetArrive md [4]; NetArrive md [3]].

Definition acting_events (md : gmap string string) : list net_event :=
  [NetReply md [1; 1; 2; 3] (Ok [1])].

Definition calls_of (md : gmap string string) (register get prove : call_state) : list net_call :=
  [mkNetCall md [1; 1; 2; 3] register_call register; mkNetCall md [4] get_call get;
   mkNetCall md [3] prove_call prove].

Definition registered_call : call_state :=
  CallDone (Ret (Ok (Resp_RegisterApp (mkRegisterAppResponse None ThreeChunks.app_id)))).

Definition fetched : call_state :=
  CallDone (Ret (Ok (Resp_GetProvingResult (mkGetProvingResultResponse None (Some History.proof))))).

Definition calls (get : call_state) : list net_call :=
  calls_of token registered_call get ConcurrentExample.sent.

Lemma arriving_exec md md' :
  let_in cfg md' [4] = Err refusal → let_in cfg md [1; 1; 2; 3] = Ok register_call →
  let_in cfg md [4] = Ok get_call → let_in cfg md [3] = Ok prove_call →
  net_exec cfg (arriving md md') (service_init (C := list) empty_db, []) =
    Some (service_init empty_db, calls_of md CallStart CallStart CallStart, arriving_events md md').
Proof.
  intros E1 E2 E3 E4. unfold arriving.
  do 4 (cbn [net_exec net_exec_step mbind option_bind]; rewrite ?E1, ?E2, ?E3, ?E4).
  reflexivity.
Qed.

Lemma act_miss :
  call_action cfg (service_init (C := list) empty_db) get_call CallStart =
    Some (service_init empty_db, CallFetch).
Proof. reflexivity. Qed.

Lemma act_select :
  call_action cfg (service_init (C := list) empty_db) register_call CallStart =
    Some (service_init empty_db, CallInsert three_app race_row).
Proof. vm_compute. reflexivity. Qed.

Lemma act_insert :
  call_action cfg (service_init (C := list) empty_db) register_call (CallInsert three_app race_row) =
    Some (History.registered_state, registered_call).
Proof. vm_compute. reflexivity. Qed.

Lemma act_find :
  call_action cfg History.registered_state prove_call CallStart =
    Some (History.registered_state, CallSend three_app).
Proof. vm_compute. reflexivity. Qed.

Lemma act_send :
  call_action cfg History.registered_state prove_call (CallSend three_app) =
    Some (accepted_state, ConcurrentExample.sent).
Proof. reflexivity. Qed.

Lemma act_fetch :
  call_action cfg History.stored_state get_call CallFetch = Some (History.stored_state, fetched).
Proof. unfold get_call. cbn [call_action]. by rewrite ConcurrentExample.fetch_stored. Qed.

Lemma acting_exec md :
  net_exec cfg acting (service_init (C := list) empty_db, calls_of md CallStart CallStart CallStart) =
    Some (History.registered_state, calls_of md registered_call CallFetch (CallSend three_app),
      acting_events md).
Proof.
  unfold acting, calls_of.
  do 4 (cbn [net_exec net_exec_step lookup list_lookup insert list_insert mbind option_bind
      net_req net_state net_advance];
    rewrite ?act_miss, ?act_select, ?act_insert, ?act_find).
  reflexivity.
Qed.

Lemma send_exec_net md :
  net_exec cfg [NAct 2]
    (History.registered_state, calls_of md registered_call CallFetch (CallSend three_app)) =
    Some (accepted_state, calls_of md registered_call CallFetch ConcurrentExample.sent,
      [NetReply md [3] (Ok [3])]).
Proof.
  unfold calls_of.
  cbn [net_exec net_exec_step lookup list_lookup mbind option_bind net_req net_state].
  rewrite act_send. reflexivity.
Qed.

Lemma about_to_send_run :
  net_run cfg (network_of started) (arriving_events token no_token ++ acting_events token)
    (mkNetwork true History.registered_state
      (calls_of token registered_call CallFetch (CallSend three_app)) GrpcServing).
Proof.
  refine (net_exec_sound cfg true _ _ _ _ _ _ _ _ _ (acting_exec token)).
  refine (net_exec_sound cfg true (network_of started) [] _ _ [] _ _ _ _
    (arriving_exec token no_token no_token_get token_register token_get token_prove)).
  constructor.
Qed.

Lemma net_sending_run :
  net_run cfg (network_of started)
    ((arriving_events token no_token ++ acting_events token) ++ [NetReply token [3] (Ok [3])])
    (mkNetwork true accepted_state (calls CallFetch) GrpcServing).
Proof. exact (net_exec_sound cfg true _ _ _ _ _ _ _ _ about_to_send_run (send_exec_net token)). Qed.

Definition answer : net_event := NetReply token [4] (Ok (4 :: History.proof)).

Lemma fetch_run :
  net_exec cfg [NAct 1] (History.stored_state, calls CallFetch) =
    Some (History.stored_state, calls fetched, [answer]).
Proof.
  unfold calls, calls_of.
  cbn [net_exec net_exec_step lookup list_lookup mbind option_bind net_req net_state].
  by rewrite act_fetch.
Qed.

Definition tr : list net_event :=
  (((((arriving_events token no_token ++ acting_events token) ++ [NetReply token [3] (Ok [3])]) ++
    [NetQueue]) ++ [NetQueue]) ++ [NetQueue]) ++ [answer].

Definition final_network : network list memory_db :=
  mkNetwork true History.stored_state (calls fetched) GrpcServing.

(** The three steps of the queue. *)
Lemma net_queue_run v0 tr0 :
  net_run cfg v0 tr0 (mkNetwork true accepted_state (calls CallFetch) GrpcServing) →
  net_run cfg v0 (((tr0 ++ [NetQueue]) ++ [NetQueue]) ++ [NetQueue])
    (mkNetwork true History.stored_state (calls CallFetch) GrpcServing).
Proof.
  intros Hr.
  set (storing := mkShared History.outputs three_db [] (QStoring History.key History.proof)
    : shared list memory_db).
  apply (net_snoc _ _ _ (mkNetwork true storing (calls CallFetch) GrpcServing)).
  - apply (net_snoc _ _ _ (mkNetwork true (History.proving_state ThreeChunks.app_id false)
      (calls CallFetch) GrpcServing)).
    + eapply net_snoc; [exact Hr|]. by apply net_queue, queue_step_recv.
    + apply net_queue. exact (queue_step_proved _ (History.proving_state ThreeChunks.app_id false) _ _
        eq_refl (History.key_proved ThreeChunks.app_id)).
  - apply net_queue. exact (queue_step_stored _ storing _ _ eq_refl).
Qed.

Lemma complete_network_run : net_run cfg (network_of started) tr final_network.
Proof.
  exact (net_exec_sound cfg true _ _ _ _ _ _ _ _ (net_queue_run _ _ net_sending_run) fetch_run).
Qed.

Lemma refused_net_run :
  net_run cfg (network_of started) [NetArrive no_token [4]; NetReply no_token [4] (Err refusal)]
    (network_of started).
Proof.
  apply (net_snoc _ _ [] (network_of started)); [constructor|]. by apply net_refuse, no_token_get.
Qed.

Lemma connected_empty db :
  ServerExample.connect (db_url cfg) = Ok db → db_apps db = ∅ ∧ db_proofs db = ∅.
Proof. by intros [= <-]. Qed.

Lemma connected_rows db : ServerExample.connect (db_url cfg) = Ok db → rows_decode db.
Proof. intros [Ha _]%connected_empty. by apply empty_rows_decode. Qed.
End NetworkExample.

(** *** Witnesses *)

#[local] Existing Instance release_build.
#[local] Existing Instance ServerExample.byte_codec.

Lemma network_refines_service_witness :
  ∃ log, net_shows NetworkExample.cfg NetworkExample.tr log ∧
    conc_run NetworkExample.cfg (conc_init empty_db) log (service_of NetworkExample.final_network).
Proof.
  destruct (network_refines_service NetworkExample.cfg (Ok tt) ServerExample.connect (λ _, Ok tt)
    _ _ _ NetworkExample.net_main_starts NetworkExample.connected_rows NetworkExample.complete_network_run)
    as (db & log & evs & Ec & Hsh & Hc & _).
  injection Ec as <-. exists log. split; [exact Hsh|exact Hc].
Defined.

Lemma network_idle_without_token_witness :
  ∃ msg, @Err bytes _ (Unauthenticated "Invalid or missing auth token") = Err (Unauthenticated msg).
Proof.
  pose proof (network_idle_without_token NetworkExample.cfg (Ok tt) ServerExample.connect (λ _, Ok tt)
    _ _ _ NetworkExample.net_main_starts eq_refl NetworkExample.refused_net_run) as Hidle.
  destruct Hidle as [_ Hreplies].
  - intros md b Hin (tok & v & _ & _ & E).
    apply elem_of_cons in Hin as [[= -> ->]|Hin%list_elem_of_singleton]; [discriminate E|discriminate Hin].
  - eapply Hreplies. right. left.
Defined.

Lemma proof_leaves_by_token_witness :
  ∃ preq m b, authorised NetworkExample.cfg m ∧
    let_in NetworkExample.cfg m b = Ok (Rpc_ProveTask preq) ∧ prove_task_id preq = "task".
Proof.
  pose proof (λ md body reply req, proof_leaves_by_token NetworkExample.cfg (Ok tt)
    ServerExample.connect (λ _, Ok tt) _ _ _ md body reply req NetworkExample.net_main_starts eq_refl
    NetworkExample.connected_empty NetworkExample.complete_network_run) as Hleaves.
  destruct (Hleaves NetworkExample.token [4] (Ok (4 :: History.proof)) ConcurrentExample.get_req) as [(e & E)|(resp & E & _ & Hproof)].
  - apply elem_of_app. right. left.
  - reflexivity.
  - discriminate E.
  - destruct (result_proof resp) as [proof|] eqn:Ep.
    + destruct (Hproof proof eq_refl) as
        (elf & info & app & preq & m1 & b1 & m2 & b2 & _ & _ & _ & L2 & _ & _ & A2 & _ & _ & Ht & _).
      exists preq, m2, b2. split; [exact A2|]. split; [exact L2|exact Ht].
    + simpl in E. unfold ServerExample.within in E. rewrite Ep in E. discriminate E.
Defined.

Lemma network_task_is_proved_witness : stored History.stored_state History.key.
Proof.
  pose proof (network_task_is_proved NetworkExample.cfg (Ok tt) ServerExample.connect (λ _, Ok tt))
    as Hproved.
  refine (proj1 (proj1 (Hproved _ _ true History.registered_state _ 2%nat _
    (History.prove_req ThreeChunks.app_id false) three_app accepted_state ConcurrentExample.sent
    _ (mkNetwork true History.stored_state (NetworkExample.calls CallFetch) GrpcServing)
    (le_n _) (le_n _) NetworkExample.net_main_starts NetworkExample.connected_rows
    NetworkExample.about_to_send_run eq_refl eq_refl eq_refl NetworkExample.act_send _ eq_refl _
    (NetworkExample.net_queue_run _ [] (net_nil _ _))) (le_n _))).
  - discriminate.
  - constructor; [exact three_servable|constructor].
Defined.
