(* ===== verification/Tools.v ===== *)
(** * The command-line tools ([bin/])

    What the tools compute between reading their files and logging or sending
    the result: the application id ([gen_app_id.rs]), the public-values
    digest ([gen_common_pv_digest.rs], [gen_reth_inputs.rs]), the requests of
    the test client ([test_client.rs]) and of the block prover
    ([test_reth_prove.rs]).  The file system is an interface. *)

From Stdlib Require Import Ascii.
From S2P Require Import Prelude PicoVM Task Inputs RustStr Onchain Database AppManager CostEstimation.
From S2P Require Import Grpc.

Class Files : Type := { read_file : string → result bytes string }.   (* [fs::read] *)

(** The node of [test_reth_prove.rs] and the chains [alloy] and
    [rsp_host_executor] know: the providers over HTTP and what they answer. *)
Class RethNode : Type := {
  RpcProvider : Type;
  RootProvider_new_http : string → RpcProvider;
  create_provider : string → RpcProvider;
  get_chain_id : RpcProvider → result Z string;
  get_block_number : RpcProvider → result Z string;
  Chain : Type;
  Chain_from_id : Z → Chain;
  Genesis : Type;
  Genesis_try_from : Z → result Genesis string;
  Genesis_Mainnet : Genesis;
  Address : Type;
  ProveMode : Type;
}.

(** [rsp_host_executor::Config] *)
Record BlockExecutorConfig `{RethNode} : Type := mkBlockExecutorConfig {
  exec_chain : Chain;
  exec_genesis : Genesis;
  exec_rpc_url : option string;
  exec_cache_dir : option string;
  exec_custom_beneficiary : option Address;
  exec_prove_mode : option ProveMode;
  exec_skip_client_execution : bool;
  exec_opcode_tracking : bool;
}.
Arguments mkBlockExecutorConfig {_} _ _ _ _ _ _ _ _.

(** The service and the block executor the tool drives: whether the service can
    be connected to, with which limit on the messages, whether the new blocks can
    be subscribed to, and what a block yields. *)
Class RethEnv `{ClientInputs, !RethNode} : Type := {
  connect_service : string → Z → result unit string;
  subscribe_blocks : string → result unit string;
  StrategyFactory : Type;
  create_eth_block_execution_strategy_factory : Genesis → option Address → StrategyFactory;
  FullExecutor : Type;
  FullExecutor_try_new :
    RpcProvider → StrategyFactory → BlockExecutorConfig → result FullExecutor string;
  wait_for_block : FullExecutor → Z → result unit string;
  execute_block : FullExecutor → Z → result ClientInput string;
}.

(** The executor [gen_reth_inputs.rs] drives: the chain specification of the
    main net, the executor of a specification, and what it makes of a block
    with the provider it is given ([None], [false] and [&None] are the
    options of the call). *)
Class HostEnv `{ClientInputs, !RethNode} : Type := {
  ChainSpec : Type;
  chain_spec_mainnet : result ChainSpec string;
  HostExecutor : Type;
  EthHostExecutor_eth : ChainSpec → option Address → HostExecutor;
  OpcodeOutput : Type;
  host_execute :
    HostExecutor → Z → RpcProvider → Genesis → option Address → bool → option OpcodeOutput →
    result ClientInput string;
}.

Section Tools.
Context `{PicoVM, RustBuild, !AppEnv, !CostEnv, !Files}.

(** [if let Some(file_path) = cmd.inputs { Some(fs::read(file_path)?) } else { None }] *)
Definition read_inputs (path : option string) : result (option bytes) string :=
  match path with
  | Some path => match read_file path with Ok bs => Ok (Some bs) | Err e => Err e end
  | None => Ok None
  end.

(** [format!("0x{pv_digest:064x}")] *)
Definition format_pv_digest (pv_digest : Z) : rstr := 48%N :: 120%N :: hex_pad 64 pv_digest.

(** What the digest tools do with an application and its inputs. *)
Definition digest_info (elf : bytes) (inputs : option bytes) :
    outcome (result EstimatedInfo string) :=
  app ← App_new elf None;
  Ret (map_err PicoError_to_string
         (estimate_cost (app_program app) (app_pk app) (app_vk app) inputs None false)).

(** gen_common_pv_digest.rs: the cycles and the digest it logs. *)
Definition gen_common_pv_digest (elf : string) (inputs : option string) :
    outcome (result (Z * rstr) string) :=
  elf ←? Ret (read_file elf);
  inputs ←? Ret (read_inputs inputs);
  info ←? digest_info elf inputs;
  Ret (Ok (info_total_cycles info, format_pv_digest (info_pv_digest info))).

(** [generate_pv_digest] of gen_reth_inputs.rs *)
Definition generate_pv_digest (elf_file_path : string) (inputs : bytes) :
    outcome (result rstr string) :=
  elf ←? Ret (read_file elf_file_path);
  info ←? digest_info elf (Some inputs);
  Ret (Ok (format_pv_digest (info_pv_digest info))).

(** gen_app_id.rs *)
Definition gen_app_id (elf : string) : outcome (result string string) :=
  elf ←? Ret (read_file elf);
  app ← App_new elf None;
  Ret (Ok ("0x" +:+ app_app_id app)).

(** *** test_client.rs *)

Inductive Command : Type :=
  | Cmd_RegisterApp (elf : string) (info : option string)
  | Cmd_EstimateCost (app_id : string) (inputs : option string)
  | Cmd_ProveTask (app_id task_id : string) (inputs : option string) (use_gpu : bool)
  | Cmd_GetProvingResult (app_id task_id : string).

(** The request a command sends, unless one of its files cannot be read. *)
Definition build_request (cmd : Command) : result rpc_request string :=
  match cmd with
  | Cmd_RegisterApp elf info =>
      match read_file elf with
      | Ok elf => Ok (Rpc_RegisterApp (mkRegisterAppRequest elf info))
      | Err e => Err e
      end
  | Cmd_EstimateCost app_id inputs =>
      match read_inputs inputs with
      | Ok inputs => Ok (Rpc_EstimateCost (mkEstimateCostRequest app_id inputs))
      | Err e => Err e
      end
  | Cmd_ProveTask app_id task_id inputs use_gpu =>
      match read_inputs inputs with
      | Ok inputs => Ok (Rpc_ProveTask (mkProveTaskRequest app_id task_id inputs (Some use_gpu)))
      | Err e => Err e
      end
  | Cmd_GetProvingResult app_id task_id =>
      Ok (Rpc_GetProvingResult (mkGetProvingResultRequest app_id task_id))
  end.

(** *** test_reth_prove.rs *)

(** [ready(header.number % cli.block_interval == 0)]: a remainder by zero
    panics. *)
Definition block_selected (block_interval number : Z) : outcome bool :=
  _ ← rust_assert (negb (bool_decide (block_interval = 0)))
        "attempt to calculate the remainder with a divisor of zero";
  Ret (bool_decide (number mod block_interval = 0)).

(** The proving request for a block. *)
Definition block_request (app_id : string) (block_number : Z) (inputs : bytes) (use_gpu : bool) :
    ProveTaskRequest :=
  mkProveTaskRequest app_id ("task-block-" +:+ pretty block_number) (Some inputs) (Some use_gpu).

Definition reth_elf_path : string := "fixtures/reth-elf".

(** The options of the tool. *)
Record RethCli : Type := mkRethCli {
  cli_rpc_http_url : string;
  cli_rpc_ws_url : string;
  cli_block_interval : Z;
  cli_grpc_addr : string;
  cli_max_grpc_msg_size : Z;
  cli_cache_dir : string;
  cli_use_gpu : bool;
  cli_estimate_cost : bool;
}.

Context `{!ClientInputs, !StdinWriter, !RethNode, !RethEnv}.

(** The configuration of the executor, for the chain the node is on. *)
Definition block_executor_config (self : RethCli) : result BlockExecutorConfig string :=
  let provider := RootProvider_new_http (cli_rpc_http_url self) in
  match get_chain_id provider with
  | Err e => Err e
  | Ok chain_id =>
      let chain := Chain_from_id chain_id in
      match Genesis_try_from chain_id with
      | Err e => Err e
      | Ok genesis =>
          Ok (mkBlockExecutorConfig chain genesis (Some (cli_rpc_http_url self))
                (Some (cli_cache_dir self)) None None false false)
      end
  end.

Definition block_executor (cli : RethCli) : result FullExecutor string :=
  let rpc_http_provider := create_provider (cli_rpc_http_url cli) in
  match get_block_number rpc_http_provider with
  | Err e => Err e
  | Ok _ =>
      match block_executor_config cli with
      | Err e => Err e
      | Ok config =>
          map_err (λ e, "failed to initialize block executor: " +:+ e)
            (FullExecutor_try_new rpc_http_provider
               (create_eth_block_execution_strategy_factory (exec_genesis config)
                  (exec_custom_beneficiary config))
               config)
      end
  end.

Definition prover_network_client (cli : RethCli) : result unit string :=
  connect_service (cli_grpc_addr cli) (cli_max_grpc_msg_size cli).

(** The service the tool talks to, as its answers to the requests it has
    received, in order. *)
Context (respond : list rpc_request → rpc_request → result unit string).

(** [register_reth]: a refused registration is only logged. *)
Definition register_reth (sent : list rpc_request) :
    outcome (list rpc_request * result App string) :=
  match read_file reth_elf_path with
  | Err e => Ret (sent, Err e)
  | Ok elf =>
      app ← App_new elf None;
      Ret (sent ++ [Rpc_RegisterApp (mkRegisterAppRequest elf None)], Ok app)
  end.

(** The inputs of a block, or why they cannot be had. *)
Definition block_inputs (executor : FullExecutor) (number : Z) : result bytes string :=
  match wait_for_block executor number with
  | Err e => Err ("failed to wait for block-" +:+ pretty number +:+ ": " +:+ e)
  | Ok _ =>
      match execute_block executor number with
      | Err e => Err ("failed to fetch block-" +:+ pretty number +:+ ": " +:+ e)
      | Ok client_input =>
          bincode_serialize_stdin
            (StdinBuilder_write EmulatorStdinBuilder_default (Arg_input client_input))
      end
  end.

(** Sending one request and awaiting its answer with [?]. *)
Definition send_request (sent : list rpc_request) (req : rpc_request) :
    list rpc_request * result unit string :=
  (sent ++ [req], respond sent req).

(** The requests for a block, until one of them is refused. *)
Definition prove_block (cli : RethCli) (executor : FullExecutor) (app_id : string) (number : Z)
    (sent : list rpc_request) : list rpc_request * result unit string :=
  match block_inputs executor number with
  | Err e => (sent, Err e)
  | Ok inputs =>
      match send_request sent
              (Rpc_ProveTask (block_request app_id number inputs (cli_use_gpu cli))) with
      | (sent, Err e) => (sent, Err e)
      | (sent, Ok _) =>
          if cli_estimate_cost cli then
            send_request sent (Rpc_EstimateCost (mkEstimateCostRequest app_id (Some inputs)))
          else (sent, Ok tt)
      end
  end.

(** The loop on the stream of block headers: the first failure ends it. *)
Fixpoint prove_blocks (cli : RethCli) (executor : FullExecutor) (app_id : string)
    (headers : list Z) (sent : list rpc_request) : outcome (list rpc_request * result unit string) :=
  match headers with
  | [] => Ret (sent, Ok tt)
  | number :: headers =>
      selected ← block_selected (cli_block_interval cli) number;
      if selected : bool then
        match prove_block cli executor app_id number sent with
        | (sent, Err e) => Ret (sent, Err e)
        | (sent, Ok _) => prove_blocks cli executor app_id headers sent
        end
      else prove_blocks cli executor app_id headers sent
  end.

(** [main]: the registration precedes the set-up of the executor and of the
    subscription. *)
Definition test_reth_prove (cli : RethCli) (headers : list Z) :
    outcome (list rpc_request * result unit string) :=
  match prover_network_client cli with
  | Err e => Ret ([], Err e)
  | Ok _ =>
      '(sent, app) ← register_reth [];
      match app with
      | Err e => Ret (sent, Err e)
      | Ok app =>
          match block_executor cli with
          | Err e => Ret (sent, Err e)
          | Ok executor =>
              match subscribe_blocks (cli_rpc_ws_url cli) with
              | Err e => Ret (sent, Err e)
              | Ok _ => prove_blocks cli executor (app_app_id app) headers sent
              end
          end
      end
  end.

(** What the tool should send for a block, given its inputs. *)
Definition block_requests (cli : RethCli) (executor : FullExecutor) (app_id : string) (number : Z) :
    list rpc_request :=
  match block_inputs executor number with
  | Err _ => []
  | Ok inputs =>
      Rpc_ProveTask (block_request app_id number inputs (cli_use_gpu cli)) ::
      (if cli_estimate_cost cli
       then [Rpc_EstimateCost (mkEstimateCostRequest app_id (Some inputs))] else [])
  end.

Definition stream_requests (cli : RethCli) (executor : FullExecutor) (app_id : string)
    (headers : list Z) : list rpc_request :=
  filter (λ n, n mod cli_block_interval cli = 0) headers ≫= block_requests cli executor app_id.

(** The executor the blocks are run on: it is configured for the chain of the
    node, with the node's URL and the cache of the command line. *)
Lemma block_executor_ok cli executor :
  block_executor cli = Ok executor →
  ∃ chain_id genesis,
    get_chain_id (RootProvider_new_http (cli_rpc_http_url cli)) = Ok chain_id ∧
    Genesis_try_from chain_id = Ok genesis ∧
    FullExecutor_try_new (create_provider (cli_rpc_http_url cli))
      (create_eth_block_execution_strategy_factory genesis None)
      (mkBlockExecutorConfig (Chain_from_id chain_id) genesis (Some (cli_rpc_http_url cli))
         (Some (cli_cache_dir cli)) None None false false) = Ok executor.
Proof.
  unfold block_executor, block_executor_config. destruct (get_block_number _); [|done].
  destruct (get_chain_id _) as [chain_id|]; [|done].
  destruct (Genesis_try_from chain_id) as [genesis|] eqn:Eg; [|done]. simpl.
  destruct (FullExecutor_try_new _ _ _) as [x|] eqn:Ex; simpl; [|done]. intros [= <-]. eauto.
Qed.

Lemma prove_block_sends cli ex app_id number sent :
  ∃ new, (prove_block cli ex app_id number sent).1 = sent ++ new ∧
    new `prefix_of` block_requests cli ex app_id number ∧
    ((prove_block cli ex app_id number sent).2 = Ok tt → new = block_requests cli ex app_id number).
Proof.
  unfold prove_block, block_requests, send_request. destruct (block_inputs ex number) as [inputs|e].
  - set (req := Rpc_ProveTask _). destruct (respond sent req) as [[]|e].
    + destruct (cli_estimate_cost cli); simpl.
      * set (req' := Rpc_EstimateCost _). exists [req; req']. by rewrite <- app_assoc.
      * by exists [req].
    + exists [req]. split; [done|]. split; [by apply prefix_cons, prefix_nil|done].
  - exists []. split; [by rewrite app_nil_r|done].
Qed.

Lemma prove_blocks_sends cli ex app_id headers sent :
  cli_block_interval cli ≠ 0 →
  ∃ new res, prove_blocks cli ex app_id headers sent = Ret (sent ++ new, res) ∧
    new `prefix_of` stream_requests cli ex app_id headers ∧
    (res = Ok tt → new = stream_requests cli ex app_id headers).
Proof.
  intros Hi. revert sent. induction headers as [|number headers IH]; intros sent; simpl.
  { exists [], (Ok tt). by rewrite app_nil_r. }
  unfold block_selected. rewrite rust_assert_true by (by rewrite bool_decide_false).
  unfold stream_requests. simpl. rewrite filter_cons. case_bool_decide as Hsel.
  2: { rewrite decide_False by done. apply IH. }
  rewrite decide_True by done. cbn [mbind list_bind].
  destruct (prove_block_sends cli ex app_id number sent) as (new & E & Hpre & Hall).
  destruct (prove_block cli ex app_id number sent) as [sent1 [[]|e]]; simpl in E, Hall; subst sent1.
  - rewrite (Hall eq_refl). destruct (IH (sent ++ block_requests cli ex app_id number))
      as (new' & res & E' & Hpre' & Hall').
    exists (block_requests cli ex app_id number ++ new'), res. rewrite E', app_assoc.
    split; [done|]. split; [by apply prefix_app|]. intros Hres. by rewrite Hall'.
  - exists new, (Err e). split; [done|]. split; [by apply prefix_app_r|done].
Qed.

(** *** Properties *)

(** The block prover asks for the proof of every block of the interval,
    in the order of the stream and no other: whatever the service answers and
    the node delivers, what it has sent after the registration is a prefix of
    the requests for the selected blocks, all of them when it ends without an
    error; and with an interval of 0 it panics at the first block, having
    sent the registration alone. *)
Theorem reth_requests_in_order cli headers elf app :
  prover_network_client cli = Ok tt →
  read_file reth_elf_path = Ok elf → App_new elf None = Ret app →
  let register := Rpc_RegisterApp (mkRegisterAppRequest elf None) in
  (cli_block_interval cli ≠ 0 → ∃ new res,
     test_reth_prove cli headers = Ret (register :: new, res) ∧
     (∀ ex, block_executor cli = Ok ex → new `prefix_of` stream_requests cli ex (app_app_id app) headers) ∧
     (is_ok (block_executor cli) = false → new = []) ∧
     (res = Ok tt → ∃ ex, block_executor cli = Ok ex ∧
        new = stream_requests cli ex (app_app_id app) headers)) ∧
  (is_ok (block_executor cli) = true → subscribe_blocks (cli_rpc_ws_url cli) = Ok tt →
   cli_block_interval cli = 0 → headers ≠ [] →
     test_reth_prove cli headers =
       panic_with "attempt to calculate the remainder with a divisor of zero").
Proof.
  intros Ec Ef En register. unfold test_reth_prove, register_reth. rewrite Ec, Ef. simpl. rewrite En. simpl.
  destruct (block_executor cli) as [ex|e]; simpl.
  2: { split; [|done]. intros Hi. by exists [], (Err e). }
  destruct (subscribe_blocks _) as [[]|e'].
  - split.
    + intros Hi. destruct (prove_blocks_sends cli ex (app_app_id app) headers [register] Hi)
        as (new & res & E & Hpre & Hall).
      exists new, res. split; [exact E|]. split; [by intros ? [= <-]|]. split; [done|]. eauto.
    + intros _ _ Hi Hne. destruct headers as [|number headers]; [done|].
      simpl. unfold block_selected. by rewrite Hi.
  - split; [|done]. intros Hi. exists [], (Err e'). split; [done|]. split; [|done].
    intros ? _. apply prefix_nil.
Qed.

(** The digest the tools print can be read back: it is [0x] and 64
    hexadecimal digits, whose value is the digest the estimation returned,
    below [2^253]. *)
Theorem printed_digest_reads_back `{!Sha256Spec} elf inputs text :
  generate_pv_digest elf inputs = Ret (Ok text) →
  ∃ elf_bytes info, read_file elf = Ok elf_bytes ∧
    digest_info elf_bytes (Some inputs) = Ret (Ok info) ∧
    length text = 66%nat ∧ hex_value (trim_start_matches_0x text) = Some (info_pv_digest info) ∧
    0 ≤ info_pv_digest info < 2 ^ 253.
Proof.
  unfold generate_pv_digest. destruct (read_file elf) as [elf_bytes|]; simpl; [|done].
  destruct (digest_info elf_bytes (Some inputs)) as [[info|]|] eqn:Ed; simpl; try done.
  intros [= <-]. exists elf_bytes, info.
  assert (Hb : 0 ≤ info_pv_digest info < 2 ^ 253).
  { unfold digest_info in Ed. bind_inv Ed. injection Ed as Ed.
    destruct (estimate_cost _ _ _ _ _ _) as [i|e] eqn:Ee; simplify_eq/=.
    destruct (estimate_digest _ _ _ _ _ _ _ Ee) as [pv ->]. apply pv_digest_bound. }
  do 2 (split; [done|]). split; [unfold format_pv_digest; cbn [length]; by rewrite hex_pad_length|]. split; [|done].
  unfold format_pv_digest. rewrite trim_start_matches_0x_hex by apply hex_pad_no_x.
  apply hex_value_pad. change (16 ^ Z.of_nat 64) with (2 ^ 256). lia.
Qed.

End Tools.

(** ** gen_reth_inputs.rs *)

(** [dump_dir.join(name)] for a relative [name]. *)
Definition ends_with_slash (dir : string) : bool :=
  bool_decide (last (String.list_ascii_of_string dir) = Some "/"%char).

Definition path_join (dir name : string) : string :=
  if bool_decide (dir = "") || ends_with_slash dir then dir +:+ name else dir +:+ "/" +:+ name.

(** The bytes of an ASCII text. *)
Definition text_bytes (text : rstr) : bytes := Z.of_N <$> text.

(** The reads of the tools, on a state of the file system. *)
Definition files_of `{FileSystem F} (fs : F) : Files := {| read_file := fs_read fs |}.

Section GenReth.
Context `{PicoVM, RustBuild, !AppEnv, !CostEnv, !ClientInputs, !StdinWriter, !RethNode, !HostEnv, FileSystem F}.

(** The options of the tool. *)
Record GenRethCli : Type := mkGenRethCli {
  gen_block_number : Z;
  gen_elf : string;
  gen_dump_dir : string;
  gen_rpc_url : string;
}.

(** What the executor yields for a block of the main net. *)
Definition mainnet_input (chain_spec : ChainSpec) (block_number : Z) (rpc_url : string) :
    result ClientInput string :=
  let rpc_provider := create_provider rpc_url in
  let executor := EthHostExecutor_eth chain_spec None in
  host_execute executor block_number rpc_provider Genesis_Mainnet None false None.

Definition generate_inputs (block_number : Z) (rpc_url : string) : result bytes string :=
  match chain_spec_mainnet with
  | Err e => Err e
  | Ok chain_spec =>
      match mainnet_input chain_spec block_number rpc_url with
      | Err e => Err e
      | Ok input =>
          (* write the input into stdin builder, serialize the stdin builder *)
          bincode_serialize_stdin
            (StdinBuilder_write EmulatorStdin_new_builder (Arg_input input))
      end
  end.

Definition reth_input_path (dump_dir : string) (block_number : Z) : string :=
  path_join dump_dir ("reth_input_" +:+ pretty block_number +:+ ".bin").

Definition reth_pv_digest_path (dump_dir : string) (block_number : Z) : string :=
  path_join dump_dir ("reth_pv_digest_" +:+ pretty block_number +:+ ".bin").

(** [main], after the parsing of its options. *)
Definition gen_reth_inputs (cli : GenRethCli) : io F unit :=
  let block_number := gen_block_number cli in
  let elf := gen_elf cli in
  let dump_dir := gen_dump_dir cli in
  let rpc_url := gen_rpc_url cli in
  (* create the dump parent dir *)
  _ ←! io_call (λ fs, fs_create_dir_all fs dump_dir);
  (* generate inputs *)
  inputs ←! io_lift (Ret (generate_inputs block_number rpc_url));
  _ ←! io_call (λ fs, fs_write fs (reth_input_path dump_dir block_number) inputs);
  (* generate public values digest *)
  pv_digest ←! (λ fs, (fs, @generate_pv_digest _ _ _ _ (files_of fs) elf inputs));
  io_call (λ fs, fs_write fs (reth_pv_digest_path dump_dir block_number) (text_bytes pv_digest)).

Lemma path_join_inj dir name name' : path_join dir name = path_join dir name' → name = name'.
Proof.
  unfold path_join. destruct (_ || _).
  - by intros E%(inj (String.append dir)).
  - intros E%(inj (String.append dir)). by apply (inj (String.append "/")) in E.
Qed.

Lemma reth_paths_differ dump_dir n n' :
  reth_input_path dump_dir n ≠ reth_pv_digest_path dump_dir n'.
Proof. intros E%path_join_inj. discriminate E. Qed.

(** The digest the common tool prints for the same ELF and inputs. *)
Lemma gen_common_agrees (files files' : Files) elf path inputs text :
  (∀ bs, @read_file files elf = Ok bs → @read_file files' elf = Ok bs) →
  @read_file files' path = Ok inputs →
  @generate_pv_digest _ _ _ _ files elf inputs = Ret (Ok text) →
  ∃ cycles, @gen_common_pv_digest _ _ _ _ files' elf (Some path) = Ret (Ok (cycles, text)).
Proof.
  unfold generate_pv_digest, gen_common_pv_digest, read_inputs. intros Helf Hp.
  destruct (@read_file files elf) as [elf_bytes|]; simpl; [|done].
  rewrite (Helf _ eq_refl), Hp. simpl.
  destruct (digest_info elf_bytes (Some inputs)) as [[info|]|]; simpl; try done.
  intros [= <-]. by eexists.
Qed.

Context `{!FileSystemSpec F}.

(** C36: what the input generator dumps is consistent.  When it succeeds, the
    input file of the block holds a builder with what the block executor
    yielded, the digest file holds the text of a digest, no other file has
    changed, and running the common digest tool on the ELF and the dumped
    input file prints exactly the dumped text (the ELF not being one of the
    two files). *)
Theorem gen_reth_inputs_consistent `{!StdinWriterSpec} fs fs' cli :
  let elf := gen_elf cli in
  let input_path := reth_input_path (gen_dump_dir cli) (gen_block_number cli) in
  let digest_path := reth_pv_digest_path (gen_dump_dir cli) (gen_block_number cli) in
  elf ≠ input_path → elf ≠ digest_path →
  gen_reth_inputs cli fs = (fs', Ret (Ok tt)) →
  ∃ chain_spec client_input inputs text cycles,
    chain_spec_mainnet = Ok chain_spec ∧
    mainnet_input chain_spec (gen_block_number cli) (gen_rpc_url cli) = Ok client_input ∧
    bincode_deserialize_stdin inputs = Ok (stdin_of (Arg_input client_input)) ∧
    fs_files fs' = <[digest_path := text_bytes text]> (<[input_path := inputs]> (fs_files fs)) ∧
    @gen_common_pv_digest _ _ _ _ (files_of fs') elf (Some input_path) = Ret (Ok (cycles, text)).
Proof.
  intros elf input_path digest_path Hi Hd E. unfold gen_reth_inputs in E.
  destruct cli as [block_number elf' dump_dir rpc_url]. simpl in *. do 5 io_inv E.
  destruct a, a1. injection E1 as Eg. injection E3 as -> Ep.
  pose proof (fs_create_dir_all_files fs dump_dir) as Hf. rewrite E0 in Hf. simpl in Hf.
  apply fs_write_ok in E2, E. rewrite Hf in E2. rewrite E2 in E.
  unfold generate_inputs in Eg. destruct chain_spec_mainnet as [spec|]; [|done].
  destruct (mainnet_input spec block_number rpc_url) as [client_input|] eqn:Em; [|done].
  pose proof (reth_paths_differ dump_dir block_number block_number) as Hne.
  destruct (gen_common_agrees (files_of fs2) (files_of fs') elf input_path a0 a2) as [cycles Hc]; [| |done|].
  - intros bs Er%fs_read_ok. apply fs_read_ok. rewrite E, lookup_insert_ne, <- E2 by done. done.
  - apply fs_read_ok. rewrite E, lookup_insert_ne by done. by rewrite lookup_insert_eq.
  - exists spec, client_input, a0, a2, cycles. do 2 (split; [done|]). split; [by apply stdin_roundtrip|]. by split.
Qed.

(** Three tools make the same inputs of a block.  When the executor of the
    generator and the one of the block prover yield the same client input,
    the generator dumps exactly the bytes the block prover sends; and when a
    file holds that client input, so does the file it is normalised to. *)
Theorem input_tools_agree `{!StdinWriterSpec, !RethEnv} executor chain_spec rpc_url block_number client_input :
  chain_spec_mainnet = Ok chain_spec → mainnet_input chain_spec block_number rpc_url = Ok client_input →
  wait_for_block executor block_number = Ok tt → execute_block executor block_number = Ok client_input →
  generate_inputs block_number rpc_url = block_inputs executor block_number ∧
  ∀ fs fs' input output bs, fs_files fs !! input = Some bs →
    bincode_deserialize_input bs = Ok client_input →
    normalize_reth_inputs input output fs = (fs', Ret (Ok tt)) →
    ∃ inputs, block_inputs executor block_number = Ok inputs ∧ fs_files fs' !! output = Some inputs.
Proof.
  intros Hc Hh Hw He. unfold generate_inputs, block_inputs. rewrite Hc, Hh, Hw, He, stdin_default_new.
  split; [done|]. intros fs fs' input output bs Hin Hd (bs0 & ci & bs' & Hin' & Hd' & Hs & Hf)%normalize_ok.
  exists bs'. assert (ci = client_input) as -> by congruence. split; [done|].
  by rewrite Hf, lookup_insert_eq.
Qed.
End GenReth.

(** *** Witnesses *)

#[local] Existing Instance release_build.

(** A directory with one three-byte ELF. *)
#[local] Instance one_elf : Files := {|
  read_file path := if bool_decide (path = "app.elf") then Ok [1; 2; 3] else Err "not found";
|}.

Definition printed_text : rstr :=
  Eval vm_compute in format_pv_digest (pv_digest_of [3]).

Lemma printed_digest_reads_back_witness :
  generate_pv_digest "app.elf" [0] = Ret (Ok printed_text) ∧ length printed_text = 66%nat.
Proof.
  assert (E : generate_pv_digest "app.elf" [0] = Ret (Ok printed_text)) by (vm_compute; reflexivity).
  split; [exact E|].
  destruct (printed_digest_reads_back "app.elf" [0] printed_text E) as (elf & info & _ & _ & Hl & _).
  exact Hl.
Defined.

(** A node whose block [n] has the one-byte input [n]. *)
#[export] Instance byte_node : RethNode := {|
  RpcProvider := string; RootProvider_new_http := id; create_provider := id;
  get_chain_id _ := Ok 1; get_block_number _ := Ok 100;
  Chain := Z; Chain_from_id := id;
  Genesis := unit; Genesis_try_from id := if bool_decide (id = 1) then Ok tt else Err "unsupported chain";
  Genesis_Mainnet := tt;
  Address := unit; ProveMode := unit;
|}.

#[export] Instance byte_blocks : RethEnv := {|
  connect_service _ _ := Ok tt;
  subscribe_blocks _ := Ok tt;
  StrategyFactory := unit; create_eth_block_execution_strategy_factory _ _ := tt;
  FullExecutor := BlockExecutorConfig; FullExecutor_try_new _ _ config := Ok config;
  wait_for_block _ _ := Ok tt;
  execute_block _ n := Ok n;
|}.

(** Every second block, estimated or not. *)
Definition every_second (estimate : bool) : RethCli :=
  mkRethCli "http://node" "ws://node" 2 "http://[::]:50052" 1073741824 "cache_dir" false estimate.

#[export] Instance reth_elf : Files := {|
  read_file path := if bool_decide (path = reth_elf_path) then Ok [1; 2; 3] else Err "not found";
|}.

Lemma reth_requests_in_order_witness :
  ∃ new res, test_reth_prove (λ _ _, Ok tt) (every_second true) [1; 2; 3; 4] =
    Ret (Rpc_RegisterApp (mkRegisterAppRequest [1; 2; 3] None) :: new, res).
Proof.
  pose proof (reth_requests_in_order (λ _ _, Ok tt) (every_second true) [1; 2; 3; 4] [1; 2; 3]
    (@mkApp symbolic_pico (zeros 63 +:+ "3") 3 tt 3 None)) as Hreq.
  destruct (Hreq eq_refl ltac:(reflexivity) ltac:(vm_compute; reflexivity)) as [Hsel _].
  destruct (Hsel ltac:(discriminate)) as (new & res & E & _).
  exists new, res. exact E.
Defined.

#[local] Instance byte_host : HostEnv := {|
  ChainSpec := unit; chain_spec_mainnet := Ok tt;
  HostExecutor := unit; EthHostExecutor_eth _ _ := tt;
  OpcodeOutput := unit; host_execute _ n _ _ _ _ _ := Ok n;
|}.

Definition gen_seven : GenRethCli := mkGenRethCli 7 "app.elf" "out" "http://node".

Lemma gen_reth_inputs_consistent_witness :
  ∃ cycles text, @gen_common_pv_digest _ _ _ _
    (files_of (gen_reth_inputs gen_seven {["app.elf" := [1; 2; 3]]}).1)
    "app.elf" (Some "out/reth_input_7.bin") = Ret (Ok (cycles, text)).
Proof.
  destruct (gen_reth_inputs_consistent ({["app.elf" := [1; 2; 3]]} : gmap string bytes)
    (gen_reth_inputs gen_seven ({["app.elf" := [1; 2; 3]]} : gmap string bytes)).1
    gen_seven) as (spec & ci & inputs & text & cycles & _ & _ & _ & _ & E).
  - vm_compute. discriminate.
  - vm_compute. discriminate.
  - vm_compute. reflexivity.
  - exists cycles, text. exact E.
Defined.

Lemma input_tools_agree_witness :
  generate_inputs 7 "http://node" = block_inputs (mkBlockExecutorConfig 1 tt None None None None false false) 7.
Proof.
  exact (proj1 (input_tools_agree (F := gmap string bytes)
    (mkBlockExecutorConfig 1 tt None None None None false false) tt "http://node" 7 7 eq_refl eq_refl eq_refl eq_refl)).
Defined.
