(* ===== verification/Client.v ===== *)
(** * A client of the server ([bin/test_client.rs])

    A call from the request of a client to the answer it gets: the client's
    interceptor and codec, the server of [Server.v] and back.  The test
    client runs one command this way, without an interceptor. *)

From S2P Require Import Prelude PicoVM Messages Task Provers Worker Channel Onchain Emulator.
From S2P Require Import Gateway Pipeline Database AppManager CostEstimation Auth ProvingQueue Grpc.
From S2P Require Import Service Server RustStr Inputs Tools.

(** The generated client's half of the codec, with its two limits. *)
Class ClientCodec : Type := {
  client_encode : Z → rpc_request → result bytes Status;
  client_decode : Z → bytes → result rpc_response Status;
}.

(** Each side reads what the other wrote, within its own limit. *)
Class ClientCodecSpec `{Codec, ClientCodec} : Prop := {
  request_roundtrip limit limit' req body :
    client_encode limit req = Ok body → Z.of_nat (length body) ≤ limit' →
    grpc_decode limit' body = Ok req;
  response_roundtrip limit limit' res body :
    grpc_encode limit res = Ok body → Z.of_nat (length body) ≤ limit' →
    client_decode limit' body = Ok res;
}.

(** Why a client has no answer: an error of its own, or the status of the
    call. *)
Inductive client_error : Type :=
  | LocalError (e : string)
  | CallError (st : Status).

(** The options of the test client. *)
Record ClientCli : Type := mkClientCli {
  cli_max_grpc_msg_size : Z;
  cli_cmd : Command;
}.

Section Client.
Context `{PicoVM, RustBuild, !GnarkEnv, AlloyU256, !AppEnv, !CostEnv}.
Context `{!Bincode Program, !Bincode BaseProvingKey, !Bincode BaseVerifyingKey}.
Context `{Chan C, Database D, Tonic, Codec, ClientCodec}.
Context (cfg : ServiceConfig).

Implicit Types s : shared C D.

(** One call of a client with the interceptor [intercept] and the message
    limit [max], on a server in the state [s]. *)
Definition call_service (intercept : Metadata → result Metadata Status) (max : Z) s
    (req : rpc_request) : outcome (shared C D * result rpc_response Status) :=
  match intercept metadata_new with
  | Err e => Ret (s, Err e)
  | Ok metadata =>
      match client_encode max req with
      | Err e => Ret (s, Err e)
      | Ok body =>
          '(s, reply) ← serve cfg s metadata body;
          Ret (s, match reply with Ok body => client_decode max body | Err e => Err e end)
      end
  end.

(** [main] of test_client.rs: the answer it logs, or the error it ends with. *)
Definition test_client `{!Files} (connect : result unit string) (cli : ClientCli) s :
    outcome (shared C D * result rpc_response client_error) :=
  match connect with
  | Err e => Ret (s, Err (LocalError e))
  | Ok _ =>
      match build_request (cli_cmd cli) with
      | Err e => Ret (s, Err (LocalError e))
      | Ok req =>
          '(s, res) ← call_service Ok (cli_max_grpc_msg_size cli) s req;
          Ret (s, map_err CallError res)
      end
  end.

(** The answer to [res] fits both limits. *)
Definition answer_fits (max : Z) (res : result rpc_response Status) : Prop :=
  ∀ r, res = Ok r → ∃ body,
    grpc_encode (max_grpc_msg_size cfg) r = Ok body ∧ Z.of_nat (length body) ≤ max.

(** The request fits both limits. *)
Definition request_fits (max : Z) (req : rpc_request) : Prop :=
  ∃ body, client_encode max req = Ok body ∧ Z.of_nat (length body) ≤ max_grpc_msg_size cfg.

(** A call the server lets through, within the limits, is its handler. *)
Lemma call_dispatch `{!ClientCodecSpec} intercept max s req metadata s' res :
  intercept metadata_new = Ok metadata → server_auth_interceptor cfg metadata = Ok metadata →
  request_fits max req → dispatch cfg s req = Ret (s', res) → answer_fits max res →
  call_service intercept max s req = Ret (s', res).
Proof.
  intros Hi Ha (body & He & Hl) Hd Hfit. unfold call_service, serve. rewrite Hi, He, Ha.
  rewrite (request_roundtrip _ _ _ _ He Hl), Hd. simpl. destruct res as [r|e]; simpl; [|done].
  destruct (Hfit r eq_refl) as (reply & Hr & Hlr). rewrite Hr.
  by rewrite (response_roundtrip _ _ _ _ Hr Hlr).
Qed.
End Client.

(** ** Properties *)

Section ClientProperties.
Context `{PicoVM, RustBuild, !GnarkEnv, AlloyU256, !AppEnv, !CostEnv}.
Context `{!Bincode Program, !Bincode BaseProvingKey, !Bincode BaseVerifyingKey}.
Context `{Chan C, Database D, Tonic, !TonicSpec, Codec, ClientCodec, !ClientCodecSpec}.
Context (cfg : ServiceConfig).

(** C21: an authenticated call is its handler.  When client and server bear the
    same token, usable as a header, and the two messages fit the limits of
    both, a call through the client's interceptor, the codecs and the
    server's interceptor has exactly the effect and the result of the
    handler on the request. *)
Theorem authenticated_call_end_to_end `{AuthConfig A} (client : A) max (s : shared C D) req s' res :
  auth_method client = AuthMethod_Bearer → cfg_auth_method cfg = AuthMethod_Bearer →
  bearer_token client = cfg_bearer_token cfg →
  is_ok (bearer_value (cfg_bearer_token cfg)) = true →
  request_fits cfg max req → dispatch cfg s req = Ret (s', res) → answer_fits cfg max res →
  call_service cfg (client_auth_interceptor client) max s req = Ret (s', res).
Proof.
  intros Hc Hs Htok Hok. destruct (bearer_value (cfg_bearer_token cfg)) as [v|] eqn:Ev; [|done].
  apply (call_dispatch _ _ _ _ _ (metadata_insert metadata_new "authorization" v)).
  - unfold client_auth_interceptor. by rewrite Hc, Htok, Ev.
  - unfold server_auth_interceptor. simpl. rewrite Hs, Ev, metadata_get_insert.
    by rewrite decide_True.
Qed.

(** The test client only works on an open server.  On a server without
    authentication a command whose files can be read and whose messages fit
    the limits has exactly the effect and the answer of the handler; on a
    server with a bearer token every command fails and leaves the server as
    it was, because the client has no interceptor. *)
Theorem test_client_end_to_end `{!Files} cli (s : shared C D) :
  (cfg_auth_method cfg = AuthMethod_None → ∀ req s' res,
   build_request (cli_cmd cli) = Ok req → request_fits cfg (cli_max_grpc_msg_size cli) req →
   dispatch cfg s req = Ret (s', res) → answer_fits cfg (cli_max_grpc_msg_size cli) res →
   test_client cfg (Ok tt) cli s = Ret (s', map_err CallError res)) ∧
  (cfg_auth_method cfg = AuthMethod_Bearer →
   ∃ e, test_client cfg (Ok tt) cli s = Ret (s, Err e)).
Proof.
  unfold test_client. split.
  - intros Hm req s' res -> Hfit Hd Hans.
    rewrite (call_dispatch _ _ _ _ _ metadata_new s' res); [done|done| |done..].
    unfold server_auth_interceptor. simpl. by rewrite Hm.
  - intros Hm. destruct (build_request (cli_cmd cli)) as [req|e]; [|by eexists].
    unfold call_service. destruct (client_encode _ _) as [body|e]; [|by eexists].
    destruct (unauthorised_refused cfg s metadata_new body Hm) as [msg E].
    { intros (token & v & _ & _ & Hg). by rewrite metadata_get_new in Hg. }
    rewrite E. by eexists.
Qed.
End ClientProperties.

(** ** A concrete codec

    The messages as tuples of countable types, so that a body is one number. *)

Module ClientExample.
#[local] Existing Instance release_build.

Definition err_tuple (e : ErrMsg) : Z * option string := (code e, msg e).
Definition err_of (t : Z * option string) : ErrMsg := mkErrMsg t.1 t.2.

Definition request_tuple (req : rpc_request) :
    (bytes * option string + string * option bytes) +
    (string * string * option bytes * option bool + string * string) :=
  match req with
  | Rpc_RegisterApp (mkRegisterAppRequest elf info) => inl (inl (elf, info))
  | Rpc_EstimateCost (mkEstimateCostRequest id inputs) => inl (inr (id, inputs))
  | Rpc_ProveTask (mkProveTaskRequest id task inputs gpu) => inr (inl (id, task, inputs, gpu))
  | Rpc_GetProvingResult (mkGetProvingResultRequest id task) => inr (inr (id, task))
  end.

Definition request_of (t : (bytes * option string + string * option bytes) +
    (string * string * option bytes * option bool + string * string)) : rpc_request :=
  match t with
  | inl (inl (elf, info)) => Rpc_RegisterApp (mkRegisterAppRequest elf info)
  | inl (inr (id, inputs)) => Rpc_EstimateCost (mkEstimateCostRequest id inputs)
  | inr (inl (id, task, inputs, gpu)) => Rpc_ProveTask (mkProveTaskRequest id task inputs gpu)
  | inr (inr (id, task)) => Rpc_GetProvingResult (mkGetProvingResultRequest id task)
  end.

Definition response_tuple (res : rpc_response) :
    (option (Z * option string) * string + option (Z * option string) * Z * bytes) +
    (option (Z * option string) + option (Z * option string) * option bytes) :=
  match res with
  | Resp_RegisterApp (mkRegisterAppResponse e id) => inl (inl (err_tuple <$> e, id))
  | Resp_EstimateCost (mkEstimateCostResponse e c d) => inl (inr (err_tuple <$> e, c, d))
  | Resp_ProveTask (mkProveTaskResponse e) => inr (inl (err_tuple <$> e))
  | Resp_GetProvingResult (mkGetProvingResultResponse e p) => inr (inr (err_tuple <$> e, p))
  end.

Definition response_of
    (t : (option (Z * option string) * string + option (Z * option string) * Z * bytes) +
         (option (Z * option string) + option (Z * option string) * option bytes)) : rpc_response :=
  match t with
  | inl (inl (e, id)) => Resp_RegisterApp (mkRegisterAppResponse (err_of <$> e) id)
  | inl (inr (e, c, d)) => Resp_EstimateCost (mkEstimateCostResponse (err_of <$> e) c d)
  | inr (inl e) => Resp_ProveTask (mkProveTaskResponse (err_of <$> e))
  | inr (inr (e, p)) => Resp_GetProvingResult (mkGetProvingResultResponse (err_of <$> e) p)
  end.

Lemma request_of_tuple req : request_of (request_tuple req) = req.
Proof. by destruct req as [[]|[]|[]|[]]. Qed.

Lemma err_of_tuple (e : option ErrMsg) : err_of <$> (err_tuple <$> e) = e.
Proof. by destruct e as [[]|]. Qed.

Lemma response_of_tuple res : response_of (response_tuple res) = res.
Proof. destruct res as [[]|[]|[]|[]]; simpl; by rewrite err_of_tuple. Qed.

(** The body of a message, and the message of a body, within a limit. *)
Definition body_of `{Countable A} (limit : Z) (a : A) : result bytes Status :=
  ServerExample.within limit [0] [Zpos (encode a)].

Definition message_of `{Countable A} (limit : Z) (body : bytes) : result A Status :=
  match body with
  | [Zpos p] =>
      match decode p with
      | Some a => ServerExample.within limit body a
      | None => Err (Internal "failed to decode")
      end
  | _ => Err (Internal "failed to decode")
  end.

Lemma message_body `{Countable A} limit limit' (a : A) body :
  body_of limit a = Ok body → Z.of_nat (length body) ≤ limit' → message_of limit' body = Ok a.
Proof.
  unfold body_of, ServerExample.within. case_bool_decide; [|done]. intros [= <-] Hl.
  unfold message_of, ServerExample.within. rewrite decode_encode. by rewrite bool_decide_true.
Qed.

Lemma message_within `{Countable A} limit body (a : A) :
  message_of limit body = Ok a → Z.of_nat (length body) ≤ limit.
Proof.
  unfold message_of, ServerExample.within. destruct body as [|[|p|] []]; try done.
  destruct (decode p); [|done]. by case_bool_decide.
Qed.

Lemma body_within `{Countable A} limit (a : A) body :
  body_of limit a = Ok body → Z.of_nat (length body) ≤ limit.
Proof. unfold body_of, ServerExample.within. case_bool_decide; [|done]. by intros [= <-]. Qed.

#[export] Instance tuple_codec : Codec := {|
  grpc_decode limit body := map_ok request_of (message_of limit body);
  grpc_encode limit res := body_of limit (response_tuple res);
|}.

#[export] Instance tuple_client_codec : ClientCodec := {|
  client_encode limit req := body_of limit (request_tuple req);
  client_decode limit body := map_ok response_of (message_of limit body);
|}.

#[export] Instance tuple_codec_spec : CodecSpec.
Proof.
  split; simpl; [|intros limit res body; apply body_within].
  intros limit body req. destruct (message_of limit body) as [t|] eqn:E; [|done]. intros _.
  by eapply message_within.
Qed.

#[export] Instance tuple_client_codec_spec : ClientCodecSpec.
Proof.
  split; simpl.
  - intros limit limit' req body E Hl. rewrite (message_body _ _ _ _ E Hl). simpl.
    by rewrite request_of_tuple.
  - intros limit limit' res body E Hl. rewrite (message_body _ _ _ _ E Hl). simpl.
    by rewrite response_of_tuple.
Qed.

Lemma requests_fit (cfg : ServiceConfig) max req :
  1 ≤ max → 1 ≤ max_grpc_msg_size cfg → request_fits cfg max req.
Proof.
  intros Hm Hc. exists [Zpos (encode (request_tuple req))]. split; [|done].
  simpl. unfold body_of, ServerExample.within. by rewrite bool_decide_true.
Qed.

Lemma answers_fit (cfg : ServiceConfig) max res :
  1 ≤ max → 1 ≤ max_grpc_msg_size cfg → answer_fits cfg max res.
Proof.
  intros Hm Hc r _. exists [Zpos (encode (response_tuple r))]. split; [|done].
  simpl. unfold body_of, ServerExample.within. by rewrite bool_decide_true.
Qed.

Definition open_cfg : ServiceConfig := mkServiceConfig "db" "addr" AuthMethod_None None 16 1 None.

Definition register : rpc_request := Rpc_RegisterApp (mkRegisterAppRequest [1; 2; 3] (Some "three")).

Definition answer : result rpc_response Status :=
  Ok (Resp_RegisterApp (mkRegisterAppResponse None ThreeChunks.app_id)).

Lemma register_dispatch cfg :
  dispatch (C := list) cfg (service_init empty_db) register = Ret (History.registered_state, answer).
Proof. vm_compute. reflexivity. Qed.

#[export] Instance three_files : Files := {|
  read_file path := if bool_decide (path = "app.elf") then Ok [1; 2; 3] else Err "not found";
|}.

Definition cli : ClientCli := mkClientCli 16 (Cmd_RegisterApp "app.elf" (Some "three")).
End ClientExample.

(** *** Witnesses *)

#[local] Existing Instance release_build.
#[local] Existing Instance ClientExample.tuple_codec.
#[local] Existing Instance ClientExample.tuple_client_codec.
#[local] Existing Instance ClientExample.tuple_client_codec_spec.
#[local] Existing Instance ClientExample.three_files.

Lemma authenticated_call_end_to_end_witness :
  call_service (C := list) ServerExample.cfg (client_auth_interceptor ServerExample.cfg) 16
    (service_init empty_db) ClientExample.register =
    Ret (History.registered_state, ClientExample.answer).
Proof.
  pose proof (authenticated_call_end_to_end (C := list) ServerExample.cfg ServerExample.cfg 16) as Hcall.
  apply Hcall; [reflexivity|reflexivity|reflexivity|reflexivity| | |].
  - apply ClientExample.requests_fit; discriminate.
  - apply ClientExample.register_dispatch.
  - apply ClientExample.answers_fit; discriminate.
Defined.

Lemma test_client_end_to_end_witness :
  test_client (C := list) ClientExample.open_cfg (Ok tt) ClientExample.cli (service_init empty_db) =
    Ret (History.registered_state, map_err CallError ClientExample.answer).
Proof.
  pose proof (test_client_end_to_end (C := list) ClientExample.open_cfg ClientExample.cli
    (service_init empty_db)) as [Hopen _].
  apply (Hopen eq_refl ClientExample.register).
  - reflexivity.
  - apply ClientExample.requests_fit; discriminate.
  - apply ClientExample.register_dispatch.
  - apply ClientExample.answers_fit; discriminate.
Defined.
