(* ===== verification/BlockProver.v ===== *)
(** * The block prover against the service ([bin/test_reth_prove.rs])

    [Tools.v] has the tool against an oracle of answers.  Here the answers are
    those of the handlers of [Grpc.v], from a given state, to the requests the
    tool has sent so far: the two sides meet in the id of the application,
    which each computes on its own, and in the tasks of the blocks. *)

From S2P Require Import Prelude PicoVM Messages Task Provers Worker Channel Onchain Emulator.
From S2P Require Import Gateway Pipeline Database AppManager CostEstimation Auth ProvingQueue Grpc.
From S2P Require Import Service Server RustStr Inputs Tools.

Section BlockProver.
Context `{PicoVM, RustBuild, !GnarkEnv, AlloyU256, !AppEnv, !CostEnv}.
Context `{!Bincode Program, !Bincode BaseProvingKey, !Bincode BaseVerifyingKey}.
Context `{!BincodeSpec Program, !BincodeSpec BaseProvingKey, !BincodeSpec BaseVerifyingKey}.
Context `{!AppEnvSpec, FifoChan C, DatabaseSpec D, !DatabaseLive D}.
Context `{!Files, !ClientInputs, !StdinWriter, !RethNode, !RethEnv}.
Context (cfg : ServiceConfig).

Implicit Types s : shared C D.

(** The text of a status, for the error the tool ends with. *)
Definition status_message (st : Status) : string :=
  match st with Unauthenticated msg | NotFound msg | Internal msg => msg end.

(** The service after a request: a handler that panics leaves it as it was. *)
Definition served s (req : rpc_request) : shared C D :=
  match dispatch cfg s req with Ret (s', _) => s' | Panic _ => s end.

Definition replay s (sent : list rpc_request) : shared C D := foldl served s sent.

(** The answer to a request after the ones in [sent]. *)
Definition service_answer s (sent : list rpc_request) (req : rpc_request) : result unit string :=
  match dispatch cfg (replay s sent) req with
  | Ret (_, Ok _) => Ok tt
  | Ret (_, Err st) => Err (status_message st)
  | Panic _ => Err "transport error"
  end.

Lemma replay_snoc s sent req : replay s (sent ++ [req]) = served (replay s sent) req.
Proof. unfold replay. by rewrite foldl_app. Qed.

(** The application is in the database under [id]. *)
Definition has_app s (id : string) (app : App) : Prop :=
  ∃ row, db_apps (sh_db s) !! id = Some row ∧ App_from row = Ret app.

(** Whether it was there or not, after a registration it is. *)
Lemma register_has_app s elf app row :
  App_new elf None = Ret app → AppRow_from app = Ret row →
  (∀ row', db_apps (sh_db s) !! app_app_id app = Some row' → ∃ app', App_from row' = Ret app') →
  let s1 := served s (Rpc_RegisterApp (mkRegisterAppRequest elf None)) in
  sh_tasks s1 = sh_tasks s ∧ ∃ app', has_app s1 (app_app_id app) app'.
Proof.
  intros Hnew Hrow Hdecode. unfold served, dispatch, register_app, set_app. simpl. rewrite Hnew. simpl.
  destruct (new_app_id _ _ _ Hnew) as (_ & _ & Hd & _). destruct (row_roundtrip _ _ Hrow) as [Hfrom Hid].
  pose proof (strip_digits _ Hd) as Hplain.
  destruct (db_apps (sh_db s) !! app_app_id app) as [row'|] eqn:El.
  - destruct (Hdecode _ eq_refl) as [app' Happ']. rewrite <- Hplain in El at 1.
    rewrite (get_app_row _ _ _ _ El Happ'). simpl. split; [done|]. exists app', row'.
    split; [by rewrite <- Hplain|done].
  - rewrite get_app_none by (by rewrite Hplain). simpl. rewrite Hrow. simpl.
    assert (Hl : is_ok (insert_app (sh_db s) row) = true) by (apply insert_app_live; by rewrite Hid).
    destruct (insert_app (sh_db s) row) as [db|] eqn:Ei; [|done]. simpl. split; [done|].
    exists app, row. split; [|done]. simpl. rewrite (insert_app_select _ _ _ _ Ei).
    by rewrite decide_True.
Qed.

(** A proving request for it is accepted. *)
Lemma prove_accepted s req app :
  has_app s (prove_app_id req) app → strip_0x (prove_app_id req) = prove_app_id req →
  dispatch cfg s (Rpc_ProveTask req) =
    Ret (mkShared (sh_outputs s) (sh_db s) (ch_send (sh_tasks s) (request_task req app)) (sh_queue s),
         Ok (Resp_ProveTask (mkProveTaskResponse None))).
Proof.
  intros (row & Hrow & Happ) Hplain. simpl. unfold prove_task_handler, find_app.
  rewrite (get_app_row _ _ row app); [done| |done]. by rewrite Hplain.
Qed.

(** So is an estimate, whatever the emulation comes to: an error of
    [estimate_cost] is part of the response.  It changes nothing. *)
Lemma estimate_accepted s req app :
  has_app s (estimate_app_id req) app → strip_0x (estimate_app_id req) = estimate_app_id req →
  ∃ res, dispatch cfg s (Rpc_EstimateCost req) = Ret (s, Ok (Resp_EstimateCost res)).
Proof.
  intros (row & Hrow & Happ) Hplain. simpl. unfold estimate_cost_handler, find_app.
  rewrite (get_app_row _ _ row app); [by eexists| |done]. by rewrite Hplain.
Qed.

(** The task of a block. *)
Definition block_task (cli : RethCli) (app_id : string) (app : App) (number : Z)
    (inputs : bytes) : ProvingTask :=
  request_task (block_request app_id number inputs (cli_use_gpu cli)) app.

Definition block_tasks (cli : RethCli) (executor : FullExecutor) (app_id : string) (app : App)
    (number : Z) : list ProvingTask :=
  match block_inputs executor number with
  | Ok inputs => [block_task cli app_id app number inputs]
  | Err _ => []
  end.

(** A request that is accepted. *)
Lemma send_accepted s sent req s' res :
  dispatch cfg (replay s sent) req = Ret (s', Ok res) →
  send_request (service_answer s) sent req = (sent ++ [req], Ok tt) ∧ replay s (sent ++ [req]) = s'.
Proof.
  intros E. unfold send_request, service_answer. rewrite E. split; [done|].
  rewrite replay_snoc. unfold served. by rewrite E.
Qed.

(** All the requests of a block are, and leave its task behind. *)
Lemma block_enqueued cli ex app_id app n s sent :
  strip_0x app_id = app_id → is_ok (block_inputs ex n) = true → has_app (replay s sent) app_id app →
  prove_block (service_answer s) cli ex app_id n sent =
    (sent ++ block_requests cli ex app_id n, Ok tt) ∧
  has_app (replay s (sent ++ block_requests cli ex app_id n)) app_id app ∧
  ch_contents (sh_tasks (replay s (sent ++ block_requests cli ex app_id n))) =
    ch_contents (sh_tasks (replay s sent)) ++ block_tasks cli ex app_id app n.
Proof.
  intros Hplain Hok Happ. unfold prove_block, block_requests, block_tasks.
  destruct (block_inputs ex n) as [inputs|] eqn:Ein; [|done].
  set (req := block_request app_id n inputs (cli_use_gpu cli)).
  destruct (send_accepted _ _ _ _ _ (prove_accepted (replay s sent) req app Happ Hplain)) as [Es Hr].
  rewrite Es. set (s1 := mkShared _ _ _ _) in Hr.
  assert (Happ1 : has_app s1 app_id app) by exact Happ.
  assert (Hch : ch_contents (sh_tasks s1) =
    ch_contents (sh_tasks (replay s sent)) ++ [block_task cli app_id app n inputs]).
  { simpl. by rewrite ch_send_contents. }
  destruct (cli_estimate_cost cli); [|by rewrite Hr].
  set (est := mkEstimateCostRequest app_id (Some inputs)).
  destruct (estimate_accepted s1 est app Happ1 Hplain) as [res He]. rewrite <- Hr in He.
  destruct (send_accepted _ _ _ _ _ He) as [Es' Hr']. rewrite <- app_assoc in Es', Hr'.
  simpl in Es', Hr'. rewrite Es', Hr', Hr. done.
Qed.

Lemma blocks_enqueued cli ex app_id app headers s sent :
  cli_block_interval cli ≠ 0 → strip_0x app_id = app_id →
  (∀ n, n ∈ headers → n mod cli_block_interval cli = 0 → is_ok (block_inputs ex n) = true) →
  has_app (replay s sent) app_id app →
  prove_blocks (service_answer s) cli ex app_id headers sent =
    Ret (sent ++ stream_requests cli ex app_id headers, Ok tt) ∧
  ch_contents (sh_tasks (replay s (sent ++ stream_requests cli ex app_id headers))) =
    ch_contents (sh_tasks (replay s sent)) ++
    (filter (λ n, n mod cli_block_interval cli = 0) headers ≫= block_tasks cli ex app_id app).
Proof.
  intros Hi Hplain. unfold stream_requests. revert sent.
  induction headers as [|n headers IH]; intros sent Hin Happ.
  { simpl. by rewrite !app_nil_r. }
  simpl. unfold block_selected. rewrite rust_assert_true by (by rewrite bool_decide_false).
  simpl. rewrite filter_cons. case_bool_decide as Hsel.
  2: { rewrite decide_False by done. apply IH; [intros m Hm; apply Hin; by right|done]. }
  rewrite decide_True by done. cbn [mbind list_bind].
  destruct (block_enqueued cli ex app_id app n s sent Hplain (Hin n (list_elem_of_here _ _) Hsel) Happ)
    as (-> & Happ' & Hch).
  destruct (IH _ (λ m Hm, Hin m (list_elem_of_further _ _ _ Hm)) Happ') as [Hrun Hchs].
  rewrite <- app_assoc in Hrun, Hchs. split; [exact Hrun|]. by rewrite Hchs, Hch, <- app_assoc.
Qed.

(** C35: every block of the interval becomes a task of the service.  Suppose
    the tool can connect to the service and to the node, the ELF builds an
    application that can be stored, a row the service already has under its
    id deserialises, its database does not fail ([DatabaseLive]), and the
    inputs of the selected blocks can be had.  With
    an interval other than 0, and with [--estimate-cost] or without, the tool
    ends without an error; it has sent the registration, then for each
    selected block in the order of the stream the proving request and, if
    asked to, the estimate; and the service has queued for it, behind what
    was queued before, exactly one task per selected block, in that order,
    with the block's inputs and under the plain id of the application, which
    the first request has registered.  With an interval of 0 the first header
    panics, the remainder being undefined. *)
Theorem blocks_become_tasks cli ex headers s elf app row :
  prover_network_client cli = Ok tt → block_executor cli = Ok ex →
  subscribe_blocks (cli_rpc_ws_url cli) = Ok tt →
  read_file reth_elf_path = Ok elf → App_new elf None = Ret app → AppRow_from app = Ret row →
  (∀ row', db_apps (sh_db s) !! app_app_id app = Some row' → ∃ app', App_from row' = Ret app') →
  (∀ n, n ∈ headers → n mod cli_block_interval cli = 0 → is_ok (block_inputs ex n) = true) →
  let sent := Rpc_RegisterApp (mkRegisterAppRequest elf None) ::
    stream_requests cli ex (app_app_id app) headers in
  (cli_block_interval cli ≠ 0 →
   test_reth_prove (service_answer s) cli headers = Ret (sent, Ok tt) ∧
   strip_0x (app_app_id app) = app_app_id app ∧
   ∃ app', has_app (replay s (take 1 sent)) (app_app_id app) app' ∧
     ch_contents (sh_tasks (replay s sent)) =
       ch_contents (sh_tasks s) ++
       (filter (λ n, n mod cli_block_interval cli = 0) headers
          ≫= block_tasks cli ex (app_app_id app) app')) ∧
  (cli_block_interval cli = 0 → headers ≠ [] →
   test_reth_prove (service_answer s) cli headers =
     panic_with "attempt to calculate the remainder with a divisor of zero").
Proof.
  intros Hc Hx Hsub Hf Hnew Hrow Hdecode Hin sent.
  assert (Hmain : test_reth_prove (service_answer s) cli headers =
    prove_blocks (service_answer s) cli ex (app_app_id app) headers (take 1 sent)).
  { unfold test_reth_prove, register_reth. rewrite Hc, Hf. simpl. rewrite Hnew. simpl.
    by rewrite Hx, Hsub. }
  rewrite Hmain. split; intros Hi.
  2: { destruct headers as [|n headers]; [done|]. intros _. simpl. unfold block_selected.
       by rewrite Hi. }
  destruct (new_app_id _ _ _ Hnew) as (_ & _ & Hd & _). pose proof (strip_digits _ Hd) as Hplain.
  destruct (register_has_app s elf app row Hnew Hrow Hdecode) as (Htasks & app' & Happ').
  destruct (blocks_enqueued cli ex (app_app_id app) app' headers s (take 1 sent) Hi Hplain Hin Happ')
    as [Hrun Hch].
  split; [exact Hrun|]. split; [done|]. exists app'. split; [done|]. by rewrite <- Htasks.
Qed.
End BlockProver.

(** *** Witnesses *)

#[local] Existing Instance release_build.
#[local] Existing Instance byte_node.
#[local] Existing Instance byte_blocks.
#[local] Existing Instance reth_elf.

Definition reth_app : App := @mkApp symbolic_pico (zeros 63 +:+ "3") 3 tt 3 None.

(** Two of four blocks, with their estimates: five requests, two tasks. *)
Lemma blocks_become_tasks_witness :
  ∃ sent, test_reth_prove (service_answer (C := list) History.cfg (service_init empty_db))
      (every_second true) [1; 2; 3; 4] = Ret (sent, Ok tt) ∧ length sent = 5%nat ∧
    length (ch_contents (sh_tasks (replay (C := list) History.cfg (service_init empty_db) sent))) = 2%nat.
Proof.
  pose proof (blocks_become_tasks (C := list) History.cfg (every_second true)
    (mkBlockExecutorConfig 1 tt (Some "http://node") (Some "cache_dir") None None false false)
    [1; 2; 3; 4]
    (service_init empty_db) [1; 2; 3] reth_app
    (mkAppRow (zeros 63 +:+ "3") [3] [] [3] None)) as Hblocks.
  destruct (proj1 (Hblocks eq_refl eq_refl eq_refl eq_refl eq_refl eq_refl
    (λ row' E, ltac:(discriminate E)) (λ n _ _, eq_refl)) ltac:(discriminate))
    as (Hrun & _ & app' & _ & Hch).
  eexists. split; [exact Hrun|]. split; [reflexivity|]. rewrite Hch. reflexivity.
Defined.
